(* ===== verification/_CoqProject ===== *)
-Q . S2P
Prelude.v
Bytes.v
Decimal.v
Http.v
Base64.v
Wire.v
Payload.v
Context.v
Codec.v
Extensions.v
Stack.v
Hooks.v
Heap.v
Sched.v
Builtin.v
TailClipperQueue.v
Clipper.v
MultiQueue.v
Estimators.v
RajomonShared.v
Rajomon.v
TokenBucket.v
PaperRajomon.v
Registry.v
Fanout.v
FanoutGroups.v
Float64.v
MeanVar.v
Estimation.v
Invocation.v
Tally.v
Budget.v
EstModule.v
Predictive.v
Oracle.v
QueueLatency.v
MasaStack.v
StackCall.v
ParentCtx.v
MtWorker.v
CurrentThread.v
RemoteTasks.v
OraclePlan.v
Planner.v
OracleRun.v
LatencyStats.v
TraceService.v
ClientRegistry.v
Pool.v
LoadGen.v
