(* ===== verification/Prelude.v ===== *)
(** Masa, the RPC policy stack: a verification development.

    Masa serves RPCs through a stack of policy modules. A request's wire data
    travels in one header, [ctx], with a section per module; the stack runs the
    modules' hooks around every poll of a handler and every child call; the
    tokio runtime orders the tasks with a run queue that reads one number per
    task; admission control and estimation are modules. The development models
    these parts from the Rust sources under src/libs, and the tools of src/apps
    whose results depend on them:

    - Prelude, Bytes, Http: [result], [outcome] (a panic is a value), machine
      integers as [Z] with their wrap-around written out, byte strings, UTF-8,
      and the interface of the header maps of the http and tonic crates.
    - Wire, Base64, Payload (libs/rpcstack-wire/src/lib.rs): the grammar of the
      header ([sections], [find_section], [push_section]), the hand-written
      base64 decoder, and the payload codec. The base64 and bincode crates are
      the classes [Base64Engine] and [Bincode], with their documented behaviour
      as laws; [reference_engine], [reference_bincode] and [bincode_of] are
      instances.
    - Context (libs/masa-core/src/context.rs, header.rs, priority.rs): the
      request context of the [budget] section, and the scan that reads only its
      priority.
    - Codec, Extensions, Stack (libs/rpcstack/src/wire.rs, extensions.rs,
      module.rs): [WireIn] and [WireOut], the typed map with its decision
      points, and the module stack: a module is the record of its hooks, a
      stack the list of its modules, what modules change behind [&self] an
      abstract [World] that every hook takes and returns.
    - Hooks (libs/rpcstack-tonic/src/hooks.rs and the places in libs/tonic that
      call it): a request's and a call's state, the generated unary client
      method, the polling of a unary handler.
    - Budget (libs/masa-policy/src/module/budget.rs, e2e_deadline_guard.rs):
      root contexts, the budget module that decides a child's deadline and
      priority, and the early return at the end-to-end deadline.
    - Heap, Sched, Builtin, TailClipperQueue (libs/rpcstack-sched/src): the
      [RunQueue] interface with its laws, and the FIFO, priority-heap, custom
      and TailClipper queues as instances. [std::collections::BinaryHeap] is the
      class [BinaryHeap]; which of several greatest elements it returns is left
      open.
    - MultiQueue (libs/multiqueue-prio-queue/src/lib.rs): the concurrent relaxed
      priority queue, as a step relation of any number of threads.
    - Estimators, Float64, MeanVar (libs/masa-core/src/latency_estimator:
      ewma.rs, histogram.rs, rms.rs, mean_var.rs): the integer estimators, a
      Module each; [f64] by the Standard Library's specification of IEEE 754,
      with the order theory of its rounding; the estimator on [f64] values.
    - Registry (libs/masa-policy/src/registry.rs): the identifiers of methods
      and services, as a step relation of any number of threads.
    - Fanout, FanoutGroups, Estimation, Invocation, Tally, EstModule
      (libs/masa-policy/src/module/est): the table of fan-out patterns and its
      lookup; the recovery of the groups of overlapping children; the maps of
      latency estimators and what one request observes; one invocation as a
      sequence of children issued and returned; the tallies sent between hops;
      the module's hooks.
    - Predictive (libs/masa-policy/src/module/admission/predictive): the
      controller of the admission probability and the feasibility check.
    - Decimal, Oracle, QueueLatency (libs/masa-policy/src/module/oracle.rs and
      queue_latency.rs) and Clipper (libs/tailclipper/src/lib.rs): the small
      modules, and the reading of the scheduling header by the project's hyper.
    - MasaStack, StackCall (libs/masa-policy/src/masa_stack.rs): all modules
      behind the framework's trait, with one world, in the stack that each set
      of Cargo features selects; a call to a child through all of them.
    - ParentCtx (libs/tokio/tokio/src/masa/poll_hook.rs and its uses in tokio
      and tonic): the reference-counted contexts through which the calls made by
      a request's tasks find their parent, on any number of threads.
    - CurrentThread, RemoteTasks (libs/tokio/tokio/src/runtime/scheduler/
      current_thread/mod.rs and runtime/task): the single-threaded scheduler as
      the client of the [RunQueue] interface, with the life cycle and the timer of
      its tasks; what the interface promises to a queue is an automaton over the
      calls and the life of the tasks.
    - MtWorker (libs/tokio/tokio/src/runtime/scheduler/multi_thread: worker.rs,
      idle.rs, park.rs, prio_queue.rs): the workers that share one priority queue,
      their searching, parking and waking, as a step relation.
    - RajomonShared, Rajomon, TokenBucket, PaperRajomon (libs/rajomon/src): the
      token-based admission control, its prices, its client's token bucket under
      any interleaving, and the variant with one controller per server.
    - OraclePlan, Planner, OracleRun (apps/synthbench/src/oracle.rs, config.rs,
      util.rs): the call graphs of a synthetic workload, their validation, the
      plans of requests with their hints and calibrated overheads, and the oracle
      module at work down the calls of a plan.
    - TraceService, ClientRegistry (apps/tracebench: trace-config/src/svc,
      generic-service/src/core.rs, parent_chain.rs, client_registry.rs): the
      services of a replayed trace, the tree of calls of a request, and the
      registry of their clients as a step relation.
    - LatencyStats, Pool, LoadGen (apps/app-utils/src/stats/latency.rs, pool.rs,
      load_gen.rs): latency statistics, the connection pool, and the load
      generator's configuration, counting of responses and trace rows; the first
      two as step relations of any number of tasks.

    How the parts correspond. A Rust struct is a Record with the fields' names,
    an enum an Inductive; a method is a definition with the method's name (with
    a prefix where two files share one), taking the receiver and returning the
    new one for [&mut self]. Early returns and [?] are [match]es and the bind of
    [outcome] or [option]; an index out of range, [unwrap], [expect], [assert!]
    and [panic!] are [Panic], and so is the use of freed memory in ParentCtx.
    Arithmetic on [u64] and [u128] is on [Z], with [wrap64] and [wrap128] where
    the release build wraps and [sat_add], [sat_sub] where the code saturates. A
    clock reading, a random draw and a spurious failure of a weak
    compare-and-swap are arguments.

    What the theorems show.
    - The wire: one scan of the header finds what splitting it finds; the base64
      decoder accepts exactly RFC 4648 and never panics; the stack fast path and
      the priority scan agree with the general decoders on every payload;
      [WireOut::set] refines the update of an ordered association list; what is
      put is got back, and other modules' sections stay.
    - The stack: the list of boxes refines a typed map with decisions; hooks run
      in stack order to the first rejection; every module whose
      [before_child_rpc] ran gets exactly one [after_child_rpc], in reverse
      order; the outcome given to [finalize] explains the reply over any number
      of polls; a stack is refused exactly when a name or a requirement is bad.
    - The budget: down a chain of calls of any depth the request's facts and its
      end-to-end deadline are unchanged, and a child gets the values proposed
      last; the guard rejects exactly from the deadline on.
    - Scheduling: no queue loses, duplicates or makes up a task; the priority
      heap pops the best; TailClipper dispatches from the window of the oldest
      tasks and rotates it; the concurrent queue conserves its items, counts
      them exactly at rest, never deadlocks, and [pop_any] looks everywhere.
    - Estimators: no overflow, the Newton iteration terminates with the integer
      square root, and rounding never takes the [f64] estimates out of the range
      of the samples.
    - Estimation: the indexed pattern table answers what a search over the
      history answers; the groups recovered are the components of overlap; a
      child's group and prefix at its beginning agree with those recorded at the
      end, and when they do not; a report covers exactly the successful subtree;
      a child's deadline is never after its parent's nor further before it than
      the time left; names and identifiers stay one to one.
    - Predictive admission: probabilities stay in [0, 1], healthy windows reopen
      admission, and the feasibility check does what its gates say.
    - Small modules: TailClipper's arrival time reaches every service unchanged;
      queueing is reported of exactly the successful subtree.
    - The whole stack: one that the framework accepts builds its server and
      never misses anything at run time; a call that all modules accept carries
      what the last decision says and sections the child's stack reads.
    - Parent contexts: without panics no context is used after it is freed and
      none leaks, and every call finds the right parent; a handler that panics
      leaves a dangling one.
    - Runtimes: the single-threaded scheduler keeps to the contract of the run
      queue, with any queue: its views are exact and its calls come in order, while
      what the docs say of a first push holds of the tasks that never went to the
      injection queue; a task from another thread is polled within a bounded
      number of rounds, but its queueing delay is not recorded; with several
      workers a queued task has a worker or a notification on its way to it,
      except in one window, in which a wake-up is lost.
    - Admission: the accumulated price is the own price plus the greatest of the
      children's, admission is exactly tokens against price, tokens and prices
      survive the wire, an overloaded service recovers, the token bucket is
      linearizable, and a controller is one exact controller per interface.
    - Planned requests: validation accepts exactly the acyclic graphs without
      dangling calls, and then every request gets a plan, unless a call of its
      entry point is written with a colon in a name; overheads are placed
      exactly and never above the cap; the deadlines that the oracle module sends
      to nested calls come too late.
    - Replayed traces: every request ends, whatever cycles its trace has; a call
      reaches the sequence of the method it names, which the modules of its stack
      see too; a missing client panics only when it is missing.
    - Statistics and load: every latency is reported once, a consumption ends
      whatever arrives, and percentiles lie between neighbours; the pool's counter
      is exact, its maximum may be passed by one, and a task may wait for nothing;
      every draw chooses an API with a handler, requests are counted as exactly one
      outcome, trace rows are read back, and the library's rejections are counted as
      such, but for the paper's Rajomon.

    Fuel and bounds. [find_section_loop] takes the header's length plus one,
    [fill_loop] and [evict_loop] of TailClipper the window's size (plus one for
    the last, which only stops), [Rms.sqrt_loop] 129 iterations, as the error halves with
    each, [decimal_loop] the 20 digits of a [u64]; each is proved enough where
    the loop's result is stated. The searches of Planner take the number of
    methods plus one, and [TraceService.call_service] as many levels of calls as
    there are services. [Hooks.drive]
    runs as many polls as it is given, and its theorem holds for any number. The
    loops of the concurrent components are steps of a relation and need none.

    Not modelled: the vendored tokio, hyper, tonic and h2 outside the parts
    above (of the schedulers: shutdown, reference counts, join handles, timers
    and I/O drivers, the multi-thread scheduler over MultiQueue); the applications beyond the tools
    above, the experiment runner, benchmarks and tests; the
    facade crate and the extension traits, which only forward; the reading of
    clocks and of the runtime's measurements; formatting for logs; the code
    derived by serde. *)
From stdpp Require Export prelude list gmap strings.
From Stdlib Require Export ZArith Lia.

(** ** Fallible and panicking code *)

(** Rust's [Result<A, E>]. *)
Inductive result (A E : Type) : Type :=
| Ok (a : A)
| Err (e : E).
Arguments Ok {A E} _.
Arguments Err {A E} _.

(** A computation that may panic: an index out of range, a failed [expect],
    an explicit [panic!]. *)
Inductive outcome (A : Type) : Type :=
| Ret (a : A)
| Panic.
Arguments Ret {A} _.
Arguments Panic {A}.

#[export] Instance outcome_ret : MRet outcome := λ A a, Ret a.
#[export] Instance outcome_bind : MBind outcome :=
  λ A B f m, match m with Ret a => f a | Panic => Panic end.
#[export] Instance outcome_fmap : FMap outcome :=
  λ A B f m, match m with Ret a => Ret (f a) | Panic => Panic end.

Definition result_map {A B E} (f : A → B) (r : result A E) : result B E :=
  match r with Ok a => Ok (f a) | Err e => Err e end.

Definition result_map_err {A E F} (f : E → F) (r : result A E) : result A F :=
  match r with Ok a => Ok a | Err e => Err (f e) end.

Definition result_and_then {A B E} (f : A → result B E) (r : result A E) : result B E :=
  match r with Ok a => f a | Err e => Err e end.

Definition result_ok {A E} (r : result A E) : option A :=
  match r with Ok a => Some a | Err _ => None end.

(** [Result::unwrap_or_else(|err| panic!(..))] and [Result::expect]. *)
Definition expect {A E} (r : result A E) : outcome A :=
  match r with Ok a => Ret a | Err _ => Panic end.

(** [Option::expect], [Option::unwrap]. *)
Definition expect_some {A} (o : option A) : outcome A :=
  match o with Some a => Ret a | None => Panic end.

#[export] Instance result_eq_dec `{EqDecision A, EqDecision E} : EqDecision (result A E).
Proof. solve_decision. Defined.
#[export] Instance outcome_eq_dec `{EqDecision A} : EqDecision (outcome A).
Proof. solve_decision. Defined.

(** ** Machine integers *)

Declare Scope masa_scope.
Delimit Scope masa_scope with masa.
Open Scope masa_scope.

Definition u64_max : Z := 18446744073709551615.
Definition u128_max : Z := 340282366920938463463374607431768211455.

Definition is_u64 (z : Z) : Prop := (0 ≤ z ≤ u64_max)%Z.
Definition is_byte (z : Z) : Prop := (0 ≤ z < 256)%Z.
Notation bytes := (list Z).

#[export] Instance is_u64_dec z : Decision (is_u64 z).
Proof. unfold is_u64. apply _. Defined.
#[export] Instance is_byte_dec z : Decision (is_byte z).
Proof. unfold is_byte. apply _. Defined.

(** [a as u64] from a wider unsigned type, and the wrap-around of [u64]
    arithmetic in release builds. *)
Definition wrap64 (z : Z) : Z := (z mod (u64_max + 1))%Z.

(** The same for [u32]. *)
Definition wrap32 (z : Z) : Z := (z mod 2 ^ 32)%Z.

(** [u64::saturating_add] and [u64::saturating_sub]. *)
Definition sat_add (a b : Z) : Z := Z.min u64_max (a + b).
Definition sat_sub (a b : Z) : Z := Z.max 0 (a - b).

Create HintDb masa.

Notation "a '+s' b" := (sat_add a b) (at level 50, left associativity) : masa_scope.
Notation "a '-s' b" := (sat_sub a b) (at level 50, left associativity) : masa_scope.

(** Arithmetic goals over machine integers: unfold the widths, then [lia]. *)
Ltac ulia :=
  unfold is_byte, is_u64, sat_add, sat_sub, wrap64, u64_max, u128_max in *; lia.

Lemma wrap64_small z : is_u64 z → wrap64 z = z.
Proof. intros Hz. apply Z.mod_small. ulia. Qed.

Lemma wrap64_is_u64 z : is_u64 (wrap64 z).
Proof. unfold wrap64, is_u64. assert (H := Z.mod_pos_bound z (u64_max + 1)). ulia. Qed.

Lemma wrap64_add a b : wrap64 (wrap64 a + b)%Z = wrap64 (a + b)%Z.
Proof. unfold wrap64. by rewrite Zplus_mod_idemp_l. Qed.
Lemma wrap64_add_r a b : wrap64 (a + wrap64 b)%Z = wrap64 (a + b)%Z.
Proof. unfold wrap64. by rewrite Zplus_mod_idemp_r. Qed.

(** Discharge a decidable closed goal by evaluating its decision procedure. *)
Ltac decided :=
  match goal with |- ?P => apply (bool_decide_unpack P); vm_compute; exact I end.

(** ** Lists *)

Lemma list_filter_ext_in {A} (P Q : A → Prop) `{∀ x, Decision (P x), ∀ x, Decision (Q x)} (l : list A) :
  (∀ x, x ∈ l → P x ↔ Q x) → filter P l = filter Q l.
Proof.
  induction l as [|x l IH]; intros Hext; [done|]. rewrite !filter_cons, IH by (intros; apply Hext; by right).
  assert (Hx := Hext x). destruct (decide (P x)) as [HP|HP], (decide (Q x)) as [HQ|HQ]; try done.
  all: destruct HQ || destruct HP; apply Hx; [left|done].
Qed.

Lemma list_filter_sublist {A} (P : A → Prop) `{∀ x, Decision (P x)} (l k : list A) :
  l `sublist_of` k → Forall P l → l `sublist_of` filter P k.
Proof.
  induction 1 as [|x l k _ IH|x l k _ IH]; [done|intros [Hx Hl]%Forall_cons|intros Hl].
  - rewrite filter_cons, decide_True by done. by constructor; apply IH.
  - rewrite filter_cons. destruct (decide (P x)); [constructor|]; by apply IH.
Qed.

(** The sum of some integers. *)
Definition sum_Z (l : list Z) : Z := foldr Z.add 0%Z l.

Lemma sum_Z_app l k : sum_Z (l ++ k) = (sum_Z l + sum_Z k)%Z.
Proof. unfold sum_Z. induction l as [|z l IH]; cbn; [done|]. rewrite IH. lia. Qed.

Lemma list_filter_none {A} (P : A → Prop) `{∀ x, Decision (P x)} (l : list A) :
  (∀ x, x ∈ l → ¬ P x) → filter P l = [].
Proof.
  induction l as [|x l IH]; intros Hn; [done|]. rewrite filter_cons, decide_False by (apply Hn; left).
  apply IH. intros y ?. apply Hn. by right.
Qed.
