(* ===== verification/Bytes.v ===== *)
(** Byte strings: the [str] and slice functions of the standard library that
    the header codec uses, as functions on lists of bytes, with the lemmas the
    codec's proofs share. A Rust [&str] is modelled by its UTF-8 bytes: every
    separator the code searches for is an ASCII byte, so searching bytes and
    searching characters agree. *)
From S2P Require Export Prelude.
From Stdlib Require Import Ascii.

(** The bytes of a string constant. *)
Definition bytes_of_string (s : string) : bytes :=
  (λ a, Z.of_N (N_of_ascii a)) <$> String.list_ascii_of_string s.

(** [iter().position(|b| b == c)]. *)
Fixpoint position (c : Z) (s : bytes) : option nat :=
  match s with
  | [] => None
  | b :: s' => if decide (b = c) then Some 0 else S <$> position c s'
  end.

(** [s.split(c)]: the pieces between the occurrences of [c]; there is always
    at least one. *)
Fixpoint split (c : Z) (s : bytes) : list bytes :=
  match s with
  | [] => [[]]
  | b :: s' =>
      if decide (b = c) then [] :: split c s'
      else match split c s' with
           | [] => [[b]]
           | p :: ps => (b :: p) :: ps
           end
  end.

(** [s.split_once(c)]. *)
Definition split_once (c : Z) (s : bytes) : option (bytes * bytes) :=
  i ← position c s; Some (take i s, drop (S i) s).

(** [s.strip_prefix(p)]. *)
Fixpoint strip_prefix (p s : bytes) : option bytes :=
  match p, s with
  | [], _ => Some s
  | x :: p', y :: s' => if decide (x = y) then strip_prefix p' s' else None
  | _ :: _, [] => None
  end.

(** [s.get(i..)]. *)
Definition get_from (i : nat) (s : bytes) : option bytes :=
  if decide (i ≤ length s) then Some (drop i s) else None.

(** [iter.find_map(f)]. *)
Fixpoint find_map {A B} (f : A → option B) (l : list A) : option B :=
  match l with
  | [] => None
  | x :: l' => match f x with Some y => Some y | None => find_map f l' end
  end.

(** The inverse of [split]: the pieces with [c] between them. *)
Fixpoint join (c : Z) (l : list bytes) : bytes :=
  match l with
  | [] => []
  | [p] => p
  | p :: ps => p ++ c :: join c ps
  end.

Definition is_ascii (b : Z) : Prop := (0 ≤ b < 128)%Z.

#[export] Instance is_ascii_dec b : Decision (is_ascii b).
Proof. unfold is_ascii. apply _. Defined.

Definition continuation (b : Z) : bool := bool_decide (128 ≤ b < 192)%Z.

(** The scalar values' encodings of RFC 3629, as [str::from_utf8] checks them:
    no overlong form, no surrogate, nothing past U+10FFFF. *)
Fixpoint utf8 (s : bytes) : bool :=
  match s with
  | [] => true
  | a :: s =>
      if decide (is_ascii a) then utf8 s
      else match s with
      | b :: s =>
          if decide (194 ≤ a < 224)%Z then continuation b && utf8 s
          else match s with
          | c :: s =>
              if decide (224 ≤ a < 240)%Z then
                continuation b && continuation c
                  && bool_decide ((a = 224 → 160 ≤ b) ∧ (a = 237 → b < 160))%Z
                  && utf8 s
              else match s with
              | d :: s =>
                  bool_decide (240 ≤ a < 245)%Z
                    && continuation b && continuation c && continuation d
                    && bool_decide ((a = 240 → 144 ≤ b) ∧ (a = 244 → b < 144))%Z
                    && utf8 s
              | [] => false
              end
          | [] => false
          end
      | [] => false
      end
  end.

(** [String::from_utf8] and [str::from_utf8]. *)
Definition from_utf8 (s : bytes) : result bytes bytes :=
  if utf8 s then Ok s else Err (bytes_of_string "invalid utf-8").

(** [u64::from_le_bytes], and the other widths. *)
Fixpoint from_le_bytes (s : bytes) : Z :=
  match s with
  | [] => 0
  | b :: s => (b + 256 * from_le_bytes s)%Z
  end.

(** [u64::to_le_bytes] of the [n]-byte width. *)
Fixpoint to_le_bytes (n : nat) (v : Z) : bytes :=
  match n with
  | 0 => []
  | S n => (v mod 256)%Z :: to_le_bytes n (v / 256)%Z
  end.

(** [slice::split_at_checked]. *)
Definition split_at_checked (i : Z) (s : bytes) : option (bytes * bytes) :=
  if decide (i ≤ Z.of_nat (length s))%Z
  then Some (take (Z.to_nat i) s, drop (Z.to_nat i) s) else None.

(** ** Lemmas *)

Lemma utf8_ascii s : Forall is_ascii s → utf8 s.
Proof. induction 1; [done|]. simpl. by rewrite decide_True. Qed.

Lemma continuation_ascii c : is_ascii c → continuation c = false.
Proof. intros H. apply bool_decide_false. unfold is_ascii in H. lia. Qed.

(** An ASCII byte never lies inside an encoded character. *)
Lemma utf8_split n p c q :
  length p ≤ n → is_ascii c → utf8 (p ++ c :: q) = utf8 p && utf8 q.
Proof.
  revert p; induction n as [|n IH]; intros p Hn Hc.
  { destruct p; simpl in *; [|lia]. by rewrite decide_True. }
  pose proof (continuation_ascii c Hc) as Hk.
  destruct p as [|a1 p]; simpl in *; [by rewrite decide_True|].
  case_decide; [apply IH; [lia|done]|].
  destruct p as [|a2 p]; simpl in *.
  { case_decide; [by rewrite Hk|]. destruct q as [|b1 q]; [done|].
    case_decide; [by rewrite Hk|]. destruct q as [|b2 q]; [done|].
    by rewrite Hk, andb_false_r. }
  case_decide; [rewrite IH by (done || lia); by rewrite andb_assoc|].
  destruct p as [|a3 p]; simpl in *.
  { case_decide; [by rewrite Hk, andb_false_r|]. destruct q as [|b1 q]; [done|].
    by rewrite Hk, !andb_false_r. }
  case_decide; [rewrite IH by (done || lia); by rewrite !andb_assoc|].
  destruct p as [|a4 p]; simpl in *; [by rewrite Hk, !andb_false_r|].
  rewrite IH by (done || lia). by rewrite !andb_assoc.
Qed.

Lemma from_utf8_ascii s : Forall is_ascii s → from_utf8 s = Ok s.
Proof. intros H%utf8_ascii. unfold from_utf8. by destruct (utf8 s). Qed.

Lemma from_le_bytes_bounds s :
  Forall is_byte s → (0 ≤ from_le_bytes s < 256 ^ Z.of_nat (length s))%Z.
Proof.
  induction 1 as [|b s Hb _ IH]; [done|]. cbn [from_le_bytes length].
  rewrite Nat2Z.inj_succ, Z.pow_succ_r by lia. unfold is_byte in Hb. lia.
Qed.

Lemma length_to_le_bytes n v : length (to_le_bytes n v) = n.
Proof. revert v; induction n as [|n IH]; intros v; [done|]. simpl. by rewrite IH. Qed.

Lemma to_le_bytes_bytes n v : Forall is_byte (to_le_bytes n v).
Proof.
  revert v; induction n as [|n IH]; intros v; [constructor|]. constructor; [|apply IH].
  unfold is_byte. apply Z.mod_pos_bound. lia.
Qed.

Lemma from_to_le_bytes n v :
  (0 ≤ v < 256 ^ Z.of_nat n)%Z → from_le_bytes (to_le_bytes n v) = v.
Proof.
  revert v; induction n as [|n IH]; intros v Hv; [simpl in *; lia|].
  rewrite Nat2Z.inj_succ, Z.pow_succ_r in Hv by lia. cbn [to_le_bytes from_le_bytes].
  rewrite IH by (split; [apply Z.div_pos; lia|apply Z.div_lt_upper_bound; lia]).
  rewrite (Z.div_mod v 256) at 3 by lia. lia.
Qed.

Lemma from_le_bytes_app_zero s n :
  from_le_bytes (s ++ replicate n 0%Z) = from_le_bytes s.
Proof.
  induction s as [|b s IH]; simpl; [|by rewrite IH].
  induction n as [|n IH]; simpl; [done|]. by rewrite IH.
Qed.

Lemma position_None c s : position c s = None ↔ c ∉ s.
Proof.
  induction s as [|b s IH]; simpl; [set_solver|].
  case_decide; [set_solver|]. rewrite fmap_None, IH. set_solver.
Qed.

Lemma position_Some c s i :
  position c s = Some i ↔ s !! i = Some c ∧ c ∉ take i s.
Proof.
  revert i; induction s as [|b s IH]; intros i; simpl; [naive_solver|].
  case_decide; subst.
  - destruct i; simpl; set_solver.
  - destruct i; simpl.
    + split; [destruct (position c s); naive_solver|naive_solver].
    + destruct (position c s) as [j|] eqn:E; simpl; split.
      * intros [= <-]. destruct (proj1 (IH j) eq_refl). set_solver.
      * intros [H1 H2]. f_equal. enough (Some j = Some i) by naive_solver.
        rewrite IH. set_solver.
      * done.
      * intros [H1 H2]. apply position_None in E. exfalso.
        apply E, (list_elem_of_lookup_2 _ i), H1.
Qed.

Lemma position_app_notin c s t :
  c ∉ s → position c (s ++ c :: t) = Some (length s).
Proof.
  intros H. apply position_Some. split.
  - by rewrite lookup_app_r, Nat.sub_diag by lia.
  - by rewrite take_app_length.
Qed.

Lemma split_notin c s : c ∉ s → split c s = [s].
Proof.
  induction s as [|b s IH]; simpl; [done|]. intros H.
  rewrite decide_False by set_solver. by rewrite IH by set_solver.
Qed.

Lemma split_app c s t : c ∉ s → split c (s ++ c :: t) = s :: split c t.
Proof.
  induction s as [|b s IH]; simpl; intros H.
  - by rewrite decide_True.
  - rewrite decide_False by set_solver. by rewrite IH by set_solver.
Qed.

Lemma split_nonempty c s : split c s ≠ [].
Proof. destruct s; simpl; [done|]. case_decide; [done|]. by case_match. Qed.

(** The first piece ends at the first separator; the rest is split again. *)
Lemma split_unfold c s :
  split c s =
    match position c s with
    | Some i => take i s :: split c (drop (S i) s)
    | None => [s]
    end.
Proof.
  induction s as [|b s IH]; simpl; [done|].
  case_decide; [by rewrite drop_0|].
  rewrite IH. by destruct (position c s).
Qed.

Lemma split_pieces_notin c s : Forall (λ p, c ∉ p) (split c s).
Proof.
  induction s as [|b s IH]; simpl; [repeat constructor; set_solver|].
  case_decide; [constructor; [set_solver|done]|].
  destruct (split c s) as [|p ps]; [repeat constructor; set_solver|].
  apply Forall_cons in IH as [Hp Hps]. constructor; [set_solver|done].
Qed.

Lemma join_split c s : join c (split c s) = s.
Proof.
  induction s as [|b s IH]; simpl; [done|]. case_decide; subst.
  - destruct (split c s) as [|p ps] eqn:E; [by apply split_nonempty in E|].
    by rewrite <-IH.
  - destruct (split c s) as [|p ps] eqn:E; [by apply split_nonempty in E|].
    rewrite <-IH. by destruct ps.
Qed.

Lemma split_join c l :
  l ≠ [] → Forall (λ p, c ∉ p) l → split c (join c l) = l.
Proof.
  induction l as [|p l IH]; [done|]. intros _ [Hp Hl]%Forall_cons.
  destruct l as [|q l]; [by apply split_notin|].
  change (join c (p :: q :: l)) with (p ++ c :: join c (q :: l)).
  by rewrite split_app, IH.
Qed.

Lemma join_cons c p l : l ≠ [] → join c (p :: l) = p ++ c :: join c l.
Proof. by destruct l. Qed.

Lemma join_app c l k :
  l ≠ [] → k ≠ [] → join c (l ++ k) = join c l ++ c :: join c k.
Proof.
  intros Hl Hk. induction l as [|p l IH]; [done|].
  destruct l as [|q l]; [by rewrite <-join_cons|].
  rewrite <-app_comm_cons, join_cons, IH by done.
  by rewrite (join_cons c p), <-app_assoc by done.
Qed.

(** The pieces before the last, each with its separator; and the part of a
    joined string behind its first piece. *)
Fixpoint terminated (c : Z) (pre : list bytes) : bytes :=
  match pre with
  | [] => []
  | p :: pre => p ++ c :: terminated c pre
  end.

Definition join_tail (c : Z) (post : list bytes) : bytes :=
  match post with
  | [] => []
  | _ => c :: join c post
  end.

Lemma join_middle c pre s post :
  join c (pre ++ s :: post) = terminated c pre ++ s ++ join_tail c post.
Proof.
  induction pre as [|p pre IH]; simpl.
  - destruct post; simpl; [by rewrite app_nil_r|done].
  - destruct (pre ++ s :: post) as [|q r] eqn:Hq; [by destruct pre|].
    rewrite IH. by rewrite <-!app_assoc.
Qed.

(** Overwriting one piece of a joined string in place. *)
Lemma join_replace c pre s new post :
  let h := join c (pre ++ s :: post) in
  let i := length (terminated c pre) in
  take i h ++ new ++ drop (i + length s) h = join c (pre ++ new :: post).
Proof.
  intros h i. unfold h. rewrite !join_middle. unfold i.
  rewrite take_app_length, drop_app_ge by lia. f_equal. f_equal.
  rewrite drop_app_ge by lia.
  by replace (_ + _ - _ - length s) with 0 by lia.
Qed.

Lemma utf8_join c l : is_ascii c → utf8 (join c l) ↔ Forall (λ p, utf8 p) l.
Proof.
  intros Hc. induction l as [|p l IH]; [done|]. rewrite Forall_cons, <-IH.
  destruct l as [|q l]; [naive_solver|].
  rewrite join_cons, (utf8_split (length p)) by done. by rewrite andb_True.
Qed.

Lemma split_once_app c s t :
  c ∉ s → split_once c (s ++ c :: t) = Some (s, t).
Proof.
  intros H. unfold split_once. rewrite position_app_notin by done. simpl.
  rewrite take_app_length. f_equal. f_equal.
  by rewrite drop_app_ge, Nat.sub_succ_l, Nat.sub_diag by lia.
Qed.

Lemma split_once_notin c s : c ∉ s → split_once c s = None.
Proof. intros H%position_None. unfold split_once. by rewrite H. Qed.

Lemma split_once_Some c s p q :
  split_once c s = Some (p, q) → s = p ++ c :: q ∧ c ∉ p.
Proof.
  unfold split_once. intros (i & Hi & [= <- <-])%bind_Some.
  apply position_Some in Hi as [Hi Hn]. split; [|done].
  by rewrite take_drop_middle.
Qed.

Lemma strip_prefix_Some p s r : strip_prefix p s = Some r ↔ s = p ++ r.
Proof.
  revert s; induction p as [|x p IH]; intros s; simpl; [naive_solver|].
  destruct s as [|y s]; [naive_solver|]. case_decide; subst; [|naive_solver].
  rewrite IH. naive_solver.
Qed.

Lemma strip_prefix_app p r : strip_prefix p (p ++ r) = Some r.
Proof. by apply strip_prefix_Some. Qed.

Lemma find_map_app {A B} (f : A → option B) l k :
  find_map f (l ++ k) =
    match find_map f l with Some y => Some y | None => find_map f k end.
Proof. induction l as [|x l IH]; simpl; [done|]. by destruct (f x). Qed.

Lemma find_map_ext {A B} (f g : A → option B) l :
  Forall (λ x, f x = g x) l → find_map f l = find_map g l.
Proof. induction 1 as [|x l H _ IH]; simpl; [done|]. by rewrite H, IH. Qed.

Lemma find_map_None {A B} (f : A → option B) l :
  find_map f l = None ↔ Forall (λ x, f x = None) l.
Proof.
  induction l as [|x l IH]; simpl; [naive_solver|].
  rewrite Forall_cons, <-IH. destruct (f x); naive_solver.
Qed.

Lemma bytes_of_string_bytes s : Forall is_byte (bytes_of_string s).
Proof.
  unfold bytes_of_string. apply Forall_fmap, Forall_forall. intros a _. simpl.
  pose proof (N_ascii_bounded a). unfold is_byte. lia.
Qed.

#[export] Hint Resolve bytes_of_string_bytes split_nonempty split_pieces_notin : masa.
