(* ===== verification/Decimal.v ===== *)
(** Unsigned decimals: [u64::to_string] and [str::parse::<u64>] of the standard
    library, which the scheduling header and the oracle's headers use. *)
From S2P Require Export Bytes.

(** The digits of [n], before [acc]; [u64]s have at most twenty. *)
Fixpoint decimal_loop (fuel : nat) (n : Z) (acc : bytes) : bytes :=
  match fuel with
  | O => acc
  | S fuel =>
      let acc := (48 + n mod 10)%Z :: acc in
      if decide (n < 10)%Z then acc else decimal_loop fuel (n / 10) acc
  end.

Definition to_string (n : Z) : bytes := decimal_loop 20 n [].

(** [IntErrorKind], and the [Display] of [ParseIntError]. *)
Inductive IntErrorKind := Empty | InvalidDigit | PosOverflow.

Definition parse_error_text (e : IntErrorKind) : bytes :=
  bytes_of_string match e with
    | Empty => "cannot parse integer from empty string"
    | InvalidDigit => "invalid digit found in string"
    | PosOverflow => "number too large to fit in target type"
    end.

Definition to_digit (c : Z) : option Z := if decide (48 ≤ c ≤ 57)%Z then Some (c - 48)%Z else None.

(** The loop of [from_str_radix] with its checked multiplication and addition. *)
Fixpoint parse_loop (n : Z) (digits : bytes) : result Z IntErrorKind :=
  match digits with
  | [] => Ok n
  | c :: digits =>
      match to_digit c with
      | None => Err InvalidDigit
      | Some x => if decide (is_u64 (n * 10) ∧ is_u64 (n * 10 + x)) then parse_loop (n * 10 + x) digits
                  else Err PosOverflow
      end
  end.

(** A sign [+] may come first; a sign alone has no digits. *)
Definition parse_u64 (s : bytes) : result Z IntErrorKind :=
  match s with
  | [] => Err Empty
  | c :: digits =>
      if decide (c = 43%Z) then match digits with [] => Err InvalidDigit | _ => parse_loop 0 digits end
      else parse_loop 0 s
  end.

Definition digit (b : Z) : Prop := (48 ≤ b ≤ 57)%Z.

#[export] Instance digit_dec b : Decision (digit b).
Proof. unfold digit. apply _. Defined.

(** The value of digits behind a number. *)
Definition value_from (n : Z) (digits : bytes) : Z := foldl (λ n c, n * 10 + (c - 48))%Z n digits.

Lemma value_from_le n digits : (0 ≤ n)%Z → Forall digit digits → (n ≤ value_from n digits)%Z.
Proof.
  intros Hn Hd. revert n Hn. induction Hd as [|c digits Hc _ IH]; intros n Hn; [done|].
  unfold digit in Hc. cbn. trans (n * 10 + (c - 48))%Z; [lia|]. apply IH. lia.
Qed.

(** What the loop accepts, and why it rejects the rest. *)
Lemma parse_loop_spec n digits r :
  is_u64 n →
  parse_loop n digits = Ok r ↔ Forall digit digits ∧ value_from n digits = r ∧ is_u64 r.
Proof.
  revert n. induction digits as [|c digits IH]; intros n Hn; cbn.
  { split; [intros [= <-]; split_and!; [constructor|done|apply Hn..]|by intros (_ & -> & _)]. }
  unfold to_digit. rewrite Forall_cons. case_decide as Hc; [|split; [done|]; by intros [[? _] _]].
  case_decide as Hfit.
  - rewrite IH by apply Hfit. unfold digit at 2. naive_solver.
  - split; [done|]. intros ([_ Hd] & Hv & Hr). exfalso. apply Hfit.
    assert (n * 10 + (c - 48) ≤ r)%Z by (rewrite <-Hv; apply value_from_le; [ulia|done]). ulia.
Qed.

Lemma decimal_loop_digits fuel n acc :
  (0 ≤ n)%Z → Forall digit acc → Forall digit (decimal_loop fuel n acc).
Proof.
  revert n acc. induction fuel as [|fuel IH]; intros n acc Hn Hacc; [done|]. cbn.
  assert (Forall digit ((48 + n mod 10)%Z :: acc)).
  { constructor; [|done]. pose proof (Z.mod_pos_bound n 10). unfold digit. lia. }
  case_decide; [done|]. apply IH; [apply Z.div_pos; lia|done].
Qed.

Lemma decimal_loop_value fuel n acc :
  (0 ≤ n < 10 ^ Z.of_nat fuel)%Z → value_from 0 (decimal_loop fuel n acc) = value_from n acc.
Proof.
  revert n acc. induction fuel as [|fuel IH]; intros n acc Hn; cbn [decimal_loop].
  { by replace n with 0%Z by (cbn in Hn; lia). }
  rewrite Nat2Z.inj_succ, Z.pow_succ_r in Hn by lia.
  assert (value_from (n / 10) ((48 + n mod 10)%Z :: acc) = value_from n acc) as Hstep.
  { unfold value_from. cbn [foldl]. f_equal. pose proof (Z.div_mod n 10). lia. }
  case_decide as Hlt.
  2: { rewrite IH; [done|]. split; [apply Z.div_pos|apply Z.div_lt_upper_bound]; lia. }
  rewrite <-Hstep. by rewrite Z.div_small by lia.
Qed.

Lemma decimal_loop_nonempty fuel n acc : fuel ≠ 0 ∨ acc ≠ [] → decimal_loop fuel n acc ≠ [].
Proof.
  revert n acc. induction fuel as [|fuel IH]; intros n acc Hacc; [by destruct Hacc|]. cbn [decimal_loop].
  destruct (decide (n < 10)%Z); [done|]. apply IH. by right.
Qed.

Lemma to_string_digits n : (0 ≤ n)%Z → Forall digit (to_string n) ∧ to_string n ≠ [].
Proof.
  intros Hn. split; [apply decimal_loop_digits; [done|constructor]|].
  apply decimal_loop_nonempty. by left.
Qed.

Lemma parse_to_string n : is_u64 n → parse_u64 (to_string n) = Ok n.
Proof.
  intros Hn. destruct (to_string_digits n) as [Hd Hne]; [ulia|].
  assert (parse_loop 0 (to_string n) = Ok n) as Hp.
  { apply parse_loop_spec; [ulia|]. split_and!; [done| |ulia..].
    unfold to_string. rewrite decimal_loop_value; [done|]. ulia. }
  unfold parse_u64. destruct (to_string n) as [|c s] eqn:Hs; [done|].
  apply Forall_cons in Hd as [Hc _]. unfold digit in Hc. by rewrite decide_False by lia.
Qed.
