(* ===== verification/Http.v ===== *)
(** What the crates use of [http] and [tonic]: looking a header up, the
    validity of header values, and a message's metadata map. The crates are
    interfaces with their documented behaviour as laws; [list_headers] and
    [list_metadata] are instances that satisfy them. *)
From S2P Require Export Prelude Bytes.

Local Open Scope Z_scope.

(** The bytes of a [HeaderValue]: no control character other than a tab. *)
Definition header_byte (b : Z) : Prop := 32 ≤ b < 256 ∧ b ≠ 127 ∨ b = 9.

#[export] Instance header_byte_dec b : Decision (header_byte b).
Proof. unfold header_byte. apply _. Defined.

(** What the code uses of the [http] crate: the first value of a header, and
    [HeaderValue::to_str]. *)
Class HttpHeaders (HeaderMap : Type) := {
  header_get : HeaderMap → bytes → option bytes;
  to_str : bytes → result bytes bytes;
}.

(** Visible ASCII or a tab: what [to_str] accepts. *)
Definition visible_ascii (b : Z) : Prop := 32 ≤ b < 127 ∨ b = 9.

(** [HeaderValue] holds no control character other than a tab, and [to_str]
    accepts visible ASCII. *)
Class HttpHeadersLaws (HeaderMap : Type) {H : HttpHeaders HeaderMap} : Prop := {
  header_value_bytes h n v :
    header_get h n = Some v → Forall header_byte v;
  to_str_law v s : to_str v = Ok s ↔ s = v ∧ Forall visible_ascii v;
}.

#[export] Instance visible_ascii_dec b : Decision (visible_ascii b).
Proof. unfold visible_ascii. apply _. Defined.

(** [tonic]'s [MetadataMap] for one key with ASCII values: lookup, insertion
    (which replaces), removal, and [MetadataValue::try_from]. *)
Class Metadata (M : Type) := {
  meta_get : M → bytes → option bytes;
  meta_insert : M → bytes → bytes → M;
  meta_remove : M → bytes → M;
  ascii_value : bytes → result bytes bytes;
  meta_to_str : bytes → result bytes bytes;
}.

(** A message that carries metadata: a request, a response or a status. *)
Class HasMetadata (X M : Type) := {
  metadata_of : X → M;
  with_metadata : M → X → X;
}.

Class MetadataLaws (M : Type) {MD : Metadata M} : Prop := {
  meta_value_bytes m k v : meta_get m k = Some v → Forall header_byte v;
  ascii_value_law v : Forall header_byte v → ascii_value v = Ok v;
  meta_get_insert m k v : Forall header_byte v → meta_get (meta_insert m k v) k = Some v;
  meta_get_remove m k : meta_get (meta_remove m k) k = None;
  meta_get_insert_ne m k k' v : k' ≠ k → meta_get (meta_insert m k v) k' = meta_get m k';
}.

Lemma header_byte_byte b : header_byte b → is_byte b.
Proof. unfold header_byte, is_byte. lia. Qed.

Definition list_headers : HttpHeaders (list (bytes * bytes)) := {|
  header_get headers name :=
    find_map (λ '(n, v),
      if decide (n = name ∧ Forall header_byte v)
      then Some v else None) headers;
  to_str v :=
    if decide (Forall visible_ascii v) then Ok v
    else Err (bytes_of_string "failed to convert header to a str");
|}.

Lemma list_headers_laws : @HttpHeadersLaws _ list_headers.
Proof.
  split; simpl.
  - intros h n v. induction h as [|[k w] h IH]; [done|]. simpl. case_decide; [|done].
    intros [= <-]. naive_solver.
  - intros v s. case_decide; naive_solver.
Qed.


Definition list_metadata : Metadata (list (bytes * bytes)) := {|
  meta_get m k :=
    find_map (λ '(n, v), if decide (n = k ∧ Forall header_byte v) then Some v else None) m;
  meta_insert m k v := (k, v) :: filter (λ nv, nv.1 ≠ k) m;
  meta_remove m k := filter (λ nv, nv.1 ≠ k) m;
  ascii_value v :=
    if decide (Forall header_byte v) then Ok v else Err (bytes_of_string "invalid value");
  meta_to_str v :=
    if decide (Forall visible_ascii v) then Ok v
    else Err (bytes_of_string "failed to convert header to a str");
|}.

Lemma list_metadata_laws : @MetadataLaws _ list_metadata.
Proof.
  split; simpl.
  - intros m k v. induction m as [|[n w] m IH]; [done|]. simpl. case_decide; [|done].
    intros [= <-]. naive_solver.
  - intros v Hv. by rewrite decide_True.
  - intros m k v Hv. by rewrite decide_True.
  - intros m k. induction m as [|[n w] m IH]; [done|].
    rewrite filter_cons. case_decide as Hn; [|done]. simpl.
    by rewrite decide_False by naive_solver.
  - intros m k k' v Hne. rewrite decide_False by naive_solver.
    induction m as [|[n w] m IH]; [done|]. rewrite filter_cons. simpl.
    destruct (decide (n ≠ k)) as [Hn|Hn]; simpl; [by case_decide|].
    by rewrite (decide_False (P:=n = k' ∧ _)) by (intros [-> _]; apply Hn; by intros ->).
Qed.

(** A message's metadata sent as headers. *)
Lemma list_serve md k : @header_get _ list_headers md k = @meta_get _ list_metadata md k.
Proof. reflexivity. Qed.
