(* ===== verification/Base64.v ===== *)
(** The base64 decoder of libs/rpcstack-wire/src/lib.rs: the value table and
    [decode_payload_into], which decodes into a caller's buffer without
    allocating. The reference is RFC 4648: [rfc4648_encode] is the standard
    alphabet with padding, and the decoder accepts exactly its image. *)
From S2P Require Import Prelude Bytes.

Local Open Scope Z_scope.

(** ** The decoder *)

Definition INVALID : Z := 0x80.

Definition alphabet : bytes :=
  bytes_of_string "ABCDEFGHIJKLMNOPQRSTUVWXYZabcdefghijklmnopqrstuvwxyz0123456789+/".

(** The table, built by the [while] loop over the alphabet. *)
Definition BASE64_VALUE : bytes :=
  foldl (λ table at_, <[Z.to_nat (alphabet !!! at_) := Z.of_nat at_]> table)
    (replicate 256 INVALID) (seq 0 (length alphabet)).

(** [BASE64_VALUE[usize::from(c)]]; the index is a byte, so it is in range. *)
Definition value (c : Z) : Z := BASE64_VALUE !!! Z.to_nat c.

(** [bits.to_be_bytes()[k]] of a [u32]. *)
Definition be_byte (bits : Z) (k : Z) : Z := Z.land (Z.shiftr bits (8 * (3 - k))) 255.

(** [a << 18 | b << 12 | c << 6 | d]. *)
Definition pack (a b c d : Z) : Z :=
  Z.lor (Z.lor (Z.lor (Z.shiftl a 18) (Z.shiftl b 12)) (Z.shiftl c 6)) d.

(** [buf[off..][..bs.len()].copy_from_slice(bs)], which panics out of range. *)
Definition write_at (buf : bytes) (off : nat) (bs : bytes) : outcome bytes :=
  if decide (off + length bs ≤ length buf)%nat
  then Ret (take off buf ++ bs ++ drop (off + length bs) buf)
  else Panic.

(** The loop over [body.chunks_exact(4)] zipped with [buf.chunks_exact_mut(3)]:
    the buffer, [written] and [invalid] after it. *)
Fixpoint decode_body (body buf : bytes) (written : nat) (invalid : Z)
    : outcome (bytes * nat * Z) :=
  match body with
  | g0 :: g1 :: g2 :: g3 :: body' =>
      if decide (written + 3 ≤ length buf)%nat then
        let '(a, b, c, d) := (value g0, value g1, value g2, value g3) in
        let bits := pack a b c d in
        buf ← write_at buf written [be_byte bits 1; be_byte bits 2; be_byte bits 3];
        decode_body body' buf (written + 3)
          (Z.lor invalid (Z.lor (Z.lor (Z.lor a b) c) d))
      else Ret (buf, written, invalid)
  | _ => Ret (buf, written, invalid)
  end.

(** The padded last group. *)
Definition decode_last (c0 c1 c2 c3 : Z) (buf : bytes) (written : nat)
    : outcome (option bytes) :=
  let '(a, b) := (value c0, value c1) in
  let '(c, d) := (value c2, value c3) in
  if decide (length buf < written)%nat then Panic else
  match bool_decide (c2 = 61), bool_decide (c3 = 61) with
  | false, false =>
      if decide (Z.land (Z.lor (Z.lor (Z.lor a b) c) d) INVALID = 0) then
        let bits := pack a b c d in
        buf ← write_at buf written [be_byte bits 1; be_byte bits 2; be_byte bits 3];
        Ret (Some (take (written + 3) buf))
      else Ret None
  | false, true =>
      if decide (Z.land (Z.lor (Z.lor a b) c) INVALID = 0 ∧ Z.land c 3 = 0) then
        let bits := pack a b c 0 in
        buf ← write_at buf written [be_byte bits 1; be_byte bits 2];
        Ret (Some (take (written + 2) buf))
      else Ret None
  | true, true =>
      if decide (Z.land (Z.lor a b) INVALID = 0 ∧ Z.land b 15 = 0) then
        let bits := pack a b 0 0 in
        buf ← write_at buf written [be_byte bits 1];
        Ret (Some (take (written + 1) buf))
      else Ret None
  | true, false => Ret None
  end.

Definition decode_payload_into (payload buf : bytes) : outcome (option bytes) :=
  let len := length payload in
  if decide (len mod 4 ≠ 0 ∨ length buf < len / 4 * 3)%nat then Ret None
  else
    let '(body, last) := (take (len - 4) payload, drop (len - 4) payload) in
    '(buf, written, invalid) ← decode_body body buf 0 0;
    if decide (Z.land invalid INVALID ≠ 0) then Ret None
    else match last with
         | [c0; c1; c2; c3] => decode_last c0 c1 c2 c3 buf written
         | _ => Ret (Some (take written buf))
         end.

(** ** The reference encoder *)

Definition symbol (v : Z) : Z := alphabet !!! Z.to_nat v.

Fixpoint rfc4648_encode (bs : bytes) : bytes :=
  match bs with
  | [] => []
  | [x] => [symbol (x / 4); symbol (x mod 4 * 16); 61; 61]
  | [x; y] =>
      [symbol (x / 4); symbol (x mod 4 * 16 + y / 16); symbol (y mod 16 * 4); 61]
  | x :: y :: z :: rest =>
      [symbol (x / 4); symbol (x mod 4 * 16 + y / 16);
       symbol (y mod 16 * 4 + z / 64); symbol (z mod 64)] ++ rfc4648_encode rest
  end.

(** ** Bit arithmetic *)

Lemma testbit_small x k i : 0 ≤ k ≤ i → 0 ≤ x < 2 ^ k → Z.testbit x i = false.
Proof. intros Hk Hx. by rewrite <-(Z.mod_small x (2 ^ k)), Z.mod_pow2_bits_high by lia. Qed.

Lemma lor_shiftl_add x y k : 0 ≤ k → 0 ≤ x < 2 ^ k → Z.lor (Z.shiftl y k) x = y * 2 ^ k + x.
Proof.
  intros Hk Hx. rewrite <-Z.shiftl_mul_pow2 by done.
  enough (Z.land (Z.shiftl y k) x = 0) as H
    by (by rewrite <-Z.lxor_lor, <-Z.add_nocarry_lxor).
  apply Z.bits_inj'. intros i Hi.
  rewrite Z.land_spec, Z.shiftl_spec, Z.bits_0 by done.
  destruct (decide (i < k)); [by rewrite Z.testbit_neg_r by lia|].
  by rewrite (testbit_small x k i), andb_false_r by lia.
Qed.

Definition sextet (v : Z) : Prop := 0 ≤ v < 64.

(** Range goals about sextets and the bytes they make. *)
Ltac sextets :=
  unfold sextet, is_byte in *; repeat constructor; Z.to_euclidean_division_equations; lia.

Lemma pack_add a b c d :
  sextet b → sextet c → sextet d →
  pack a b c d = a * 262144 + b * 4096 + c * 64 + d.
Proof.
  unfold sextet, pack. intros Hb Hc Hd.
  rewrite <-!Z.lor_assoc, (lor_shiftl_add d c 6) by lia.
  rewrite (lor_shiftl_add _ b 12) by lia.
  rewrite (lor_shiftl_add _ a 18) by lia. lia.
Qed.

Lemma be_byte_div bits k : 0 ≤ k ≤ 3 → be_byte bits k = bits / 2 ^ (8 * (3 - k)) mod 256.
Proof.
  intros Hk. unfold be_byte. change 255 with (Z.ones 8).
  rewrite Z.land_ones, Z.shiftr_div_pow2 by lia. done.
Qed.

(** The three bytes of a group of four sextets. *)
Definition group_bytes (a b c d : Z) : bytes :=
  [a * 4 + b / 16; b mod 16 * 16 + c / 4; c mod 4 * 64 + d].

Lemma be_bytes_pack a b c d :
  sextet a → sextet b → sextet c → sextet d →
  [be_byte (pack a b c d) 1; be_byte (pack a b c d) 2; be_byte (pack a b c d) 3]
    = group_bytes a b c d.
Proof.
  intros Ha Hb Hc Hd. rewrite pack_add, !be_byte_div by (done || lia).
  unfold group_bytes, sextet in *. simpl (2 ^ _).
  repeat f_equal; sextets.
Qed.

(** ** The table *)

Lemma value_symbol v : sextet v → value (symbol v) = v.
Proof.
  intros Hv. assert (Forall (λ v, value (symbol (Z.of_nat v)) = Z.of_nat v) (seq 0 64)) as H
    by decided.
  rewrite Forall_forall in H. rewrite <-(Z2Nat.id v) by apply Hv. apply H, elem_of_seq.
  unfold sextet in Hv. lia.
Qed.

Lemma symbol_not_padding v : sextet v → symbol v ≠ 61.
Proof.
  intros Hv. assert (Forall (λ v, symbol (Z.of_nat v) ≠ 61) (seq 0 64)) as H by decided.
  rewrite Forall_forall in H. rewrite <-(Z2Nat.id v) by apply Hv. apply H, elem_of_seq.
  unfold sextet in Hv. lia.
Qed.

(** A character outside the alphabet has the [INVALID] bit; one inside is the
    symbol of its value. *)
Definition valid (c : Z) : Prop := Z.land (value c) INVALID = 0.

#[export] Instance valid_dec c : Decision (valid c).
Proof. unfold valid. apply _. Defined.

Lemma valid_spec c : is_byte c → valid c → sextet (value c) ∧ symbol (value c) = c.
Proof.
  intros Hc. assert (Forall (λ c, valid (Z.of_nat c) →
    (0 ≤ value (Z.of_nat c) ∧ value (Z.of_nat c) < 64) ∧
    symbol (value (Z.of_nat c)) = Z.of_nat c) (seq 0 256)) as H by decided.
  rewrite Forall_forall in H. unfold sextet.
  rewrite <-(Z2Nat.id c) by apply Hc. apply H, elem_of_seq.
  unfold is_byte in Hc. lia.
Qed.

Lemma valid_symbol v : sextet v → valid (symbol v).
Proof.
  intros Hv. unfold valid. rewrite value_symbol by done.
  unfold sextet in Hv. change INVALID with (2 ^ 7).
  apply Z.bits_inj'. intros i Hi. rewrite Z.land_spec, Z.pow2_bits_eqb, Z.bits_0 by lia.
  destruct (Z.eqb_spec 7 i); [|by rewrite andb_false_r]. subst.
  by rewrite (testbit_small v 6 7) by lia.
Qed.

Lemma padding_invalid : ¬ valid 61.
Proof. decided. Qed.

Lemma symbol_byte v : sextet v → is_byte (symbol v).
Proof.
  intros Hv. assert (Forall (λ v, is_byte (symbol (Z.of_nat v))) (seq 0 64)) as H by decided.
  rewrite Forall_forall in H. rewrite <-(Z2Nat.id v) by apply Hv. apply H, elem_of_seq.
  unfold sextet in Hv. lia.
Qed.

#[export] Hint Resolve value_symbol symbol_not_padding valid_symbol symbol_byte : masa.

(** ** The decoder without its buffer *)

(** What [decode_body] writes, and what [decode_last] yields. *)
Fixpoint groups (body : bytes) : bytes :=
  match body with
  | g0 :: g1 :: g2 :: g3 :: body' =>
      group_bytes (value g0) (value g1) (value g2) (value g3) ++ groups body'
  | _ => []
  end.

Definition last_bytes (c0 c1 c2 c3 : Z) : option bytes :=
  let '(a, b) := (value c0, value c1) in
  let '(c, d) := (value c2, value c3) in
  match bool_decide (c2 = 61), bool_decide (c3 = 61) with
  | false, false =>
      if decide (valid c0 ∧ valid c1 ∧ valid c2 ∧ valid c3)
      then Some (group_bytes a b c d) else None
  | false, true =>
      if decide ((valid c0 ∧ valid c1 ∧ valid c2) ∧ Z.land c 3 = 0)
      then Some (take 2 (group_bytes a b c 0)) else None
  | true, true =>
      if decide ((valid c0 ∧ valid c1) ∧ Z.land b 15 = 0)
      then Some (take 1 (group_bytes a b 0 0)) else None
  | true, false => None
  end.

Lemma land_lor_valid x y :
  Z.land (Z.lor x y) INVALID = 0 ↔ Z.land x INVALID = 0 ∧ Z.land y INVALID = 0.
Proof. rewrite Z.land_lor_distr_l. apply Z.lor_eq_0_iff. Qed.

Lemma group_bytes_ok a b c d :
  sextet a → sextet b → sextet c → sextet d → Forall is_byte (group_bytes a b c d).
Proof.
  unfold sextet, group_bytes, is_byte. intros.
  sextets.
Qed.

Definition fours (m : nat) (s : bytes) : Prop := length s = (4 * m)%nat.

(** A list of [4 * S m] elements starts with a group of four. *)
Lemma fours_S m s :
  fours (S m) s →
  ∃ g0 g1 g2 g3 s', s = g0 :: g1 :: g2 :: g3 :: s' ∧ fours m s'.
Proof.
  unfold fours. intros H. do 4 (destruct s as [|? s]; [simpl in H; lia|]).
  eexists _, _, _, _, s. split; [done|]. simpl in H. lia.
Qed.

Lemma fours_0 s : fours 0 s → s = [].
Proof. by destruct s. Qed.

Lemma write_at_ok buf off bs :
  (off + length bs ≤ length buf)%nat →
  write_at buf off bs = Ret (take off buf ++ bs ++ drop (off + length bs) buf).
Proof. intros H. unfold write_at. by rewrite decide_True. Qed.

Lemma length_groups m s : fours m s → length (groups s) = (3 * m)%nat.
Proof.
  revert s; induction m as [|m IH]; intros s.
  - by intros ->%fours_0.
  - intros (g0 & g1 & g2 & g3 & s' & -> & Hs)%fours_S.
    change (groups _) with (group_bytes (value g0) (value g1) (value g2) (value g3) ++ groups s').
    rewrite length_app, (IH _ Hs). simpl. lia.
Qed.

(** The body loop writes the groups behind what was written, and its [invalid]
    has the [INVALID] bit exactly when some character is not in the alphabet. *)
Lemma decode_body_spec m body buf written invalid :
  fours m body → Forall is_byte body → (written + 3 * m ≤ length buf)%nat →
  ∃ buf' invalid',
    decode_body body buf written invalid = Ret (buf', (written + 3 * m)%nat, invalid') ∧
    length buf' = length buf ∧
    (Z.land invalid' INVALID = 0 ↔ Z.land invalid INVALID = 0 ∧ Forall valid body) ∧
    (Forall valid body → take (written + 3 * m) buf' = take written buf ++ groups body).
Proof.
  revert body buf written invalid; induction m as [|m IH]; intros body buf written invalid.
  - intros ->%fours_0 _ Hb. exists buf, invalid. simpl.
    rewrite Nat.add_0_r, app_nil_r. repeat split; naive_solver.
  - intros (g0 & g1 & g2 & g3 & body' & -> & Hm)%fours_S Hby Hb.
    rewrite !Forall_cons in Hby. destruct Hby as (B0 & B1 & B2 & B3 & Hby).
    cbn [decode_body]. rewrite decide_True by lia.
    rewrite write_at_ok by (simpl; lia). cbn [mbind outcome_bind length].
    set (bs := [_; _; _]). set (buf1 := take written buf ++ bs ++ _).
    assert (length buf1 = length buf) as Hl
      by (unfold buf1; rewrite !length_app, length_take, length_drop; simpl; lia).
    set (inv1 := Z.lor invalid _).
    destruct (IH body' buf1 (written + 3)%nat inv1 Hm Hby)
      as (buf' & invalid' & -> & Hl' & Hinv & Htake); [lia|].
    replace (written + 3 * S m)%nat with (written + 3 + 3 * m)%nat by lia.
    exists buf', invalid'. split; [done|split; [lia|split]].
    + rewrite Hinv. unfold inv1. rewrite !land_lor_valid, !Forall_cons.
      fold (valid g0) (valid g1) (valid g2) (valid g3). naive_solver.
    + rewrite !Forall_cons. intros (V0 & V1 & V2 & V3 & Hv).
      rewrite Htake by done. unfold buf1, bs.
      rewrite be_bytes_pack by (by apply valid_spec).
      rewrite take_app_ge, length_take by (rewrite length_take; lia).
      replace (written + 3 - written `min` length buf)%nat with 3%nat by lia.
      cbn [take app group_bytes]. by rewrite <-app_assoc.
Qed.

(** The tail write of [decode_last] for a group of at most three bytes. *)
Lemma write_tail buf written bs :
  (length bs ≤ 3)%nat → (written + 3 ≤ length buf)%nat →
  (buf0 ← write_at buf written bs; Ret (Some (take (written + length bs) buf0)))
    = Ret (Some (take written buf ++ bs)).
Proof.
  intros Hbs Hb. rewrite write_at_ok by lia. cbn [mbind outcome_bind]. do 2 f_equal.
  rewrite take_app_ge, length_take by (rewrite length_take; lia).
  replace (written + length bs - written `min` length buf)%nat with (length bs) by lia.
  by rewrite take_app_length.
Qed.

Lemma decode_last_spec c0 c1 c2 c3 buf written :
  is_byte c0 → is_byte c1 → is_byte c2 → is_byte c3 →
  (written + 3 ≤ length buf)%nat →
  decode_last c0 c1 c2 c3 buf written
    = Ret ((λ bs, take written buf ++ bs) <$> last_bytes c0 c1 c2 c3).
Proof.
  intros B0 B1 B2 B3 Hb. unfold decode_last, last_bytes. rewrite decide_False by lia.
  assert (∀ c, is_byte c → valid c → sextet (value c)) as Hs
    by (intros; by apply valid_spec).
  assert (sextet 0) as Hz by (unfold sextet; lia).
  case_bool_decide as E2; case_bool_decide as E3; try done.
  - rewrite (decide_ext _ ((valid c0 ∧ valid c1) ∧ Z.land (value c1) 15 = 0))
      by (by rewrite land_lor_valid).
    case_decide as D; [|done]. destruct D as [[V0 V1] _].
    pose proof (be_bytes_pack _ _ 0 0 (Hs _ B0 V0) (Hs _ B1 V1) Hz Hz) as [= E _ _].
    rewrite E. apply (write_tail _ _ [_]); simpl; lia.
  - rewrite (decide_ext _ ((valid c0 ∧ valid c1 ∧ valid c2) ∧ Z.land (value c2) 3 = 0))
      by (rewrite !land_lor_valid; unfold valid; tauto).
    case_decide as D; [|done]. destruct D as [(V0 & V1 & V2) _].
    pose proof (be_bytes_pack _ _ _ 0 (Hs _ B0 V0) (Hs _ B1 V1) (Hs _ B2 V2) Hz)
      as [= Ea Eb _].
    rewrite Ea, Eb. apply (write_tail _ _ [_; _]); simpl; lia.
  - rewrite (decide_ext _ (valid c0 ∧ valid c1 ∧ valid c2 ∧ valid c3))
      by (rewrite !land_lor_valid; unfold valid; tauto).
    case_decide as D; [|done]. destruct D as (V0 & V1 & V2 & V3).
    rewrite be_bytes_pack by auto. apply (write_tail _ _ (group_bytes _ _ _ _)); simpl; lia.
Qed.

(** The whole decoder as a function of the payload alone. *)
Definition decode_spec (payload : bytes) : option bytes :=
  let '(body, last) := (take (length payload - 4) payload, drop (length payload - 4) payload) in
  if decide (Forall valid body) then
    match last with
    | [c0; c1; c2; c3] => (λ bs, groups body ++ bs) <$> last_bytes c0 c1 c2 c3
    | _ => Some []
    end
  else None.

Lemma decode_payload_into_spec payload buf :
  Forall is_byte payload →
  decode_payload_into payload buf
    = Ret (if decide (length payload mod 4 = 0 ∧ length payload / 4 * 3 ≤ length buf)%nat
           then decode_spec payload else None).
Proof.
  intros Hby. unfold decode_payload_into, decode_spec.
  case_decide as Hn; [by rewrite decide_False by lia|]. rewrite decide_True by lia.
  assert (length payload mod 4 = 0 ∧ length payload / 4 * 3 ≤ length buf)%nat as [Hm Hl] by lia.
  apply Nat.Div0.div_exact in Hm. set (m := (length payload / 4)%nat) in *.
  destruct m as [|m].
  { destruct payload; [|simpl in Hm; lia]. simpl. by destruct buf. }
  assert (fours m (take (length payload - 4) payload)) as Hf
    by (unfold fours; rewrite length_take; lia).
  rewrite <-(take_drop (length payload - 4) payload), Forall_app in Hby.
  destruct Hby as [Hb1 Hb2].
  destruct (fours_S 0 (drop (length payload - 4) payload))
    as (c0 & c1 & c2 & c3 & r & E & ->%fours_0);
    [unfold fours; rewrite length_drop; lia|].
  rewrite E in *. rewrite !Forall_cons in Hb2.
  destruct (decode_body_spec m _ buf 0 0 Hf Hb1)
    as (buf' & inv & -> & Hl' & Hinv & Htake); [lia|].
  cbn [mbind outcome_bind]. case_decide as D.
  - rewrite decide_False; [done|]. intros Hv. apply D, Hinv. done.
  - apply Hinv in D as [_ Hv]. rewrite decide_True by done.
    rewrite decode_last_spec by (naive_solver lia). by rewrite Htake.
Qed.

Lemma decode_spec_cons m g0 g1 g2 g3 s :
  fours (S m) s →
  decode_spec (g0 :: g1 :: g2 :: g3 :: s)
    = if decide (valid g0 ∧ valid g1 ∧ valid g2 ∧ valid g3)
      then (λ bs, group_bytes (value g0) (value g1) (value g2) (value g3) ++ bs) <$> decode_spec s
      else None.
Proof.
  intros Hs. unfold decode_spec.
  replace (length (g0 :: g1 :: g2 :: g3 :: s) - 4)%nat with (4 + (length s - 4))%nat
    by (unfold fours in Hs; simpl; lia).
  cbn [take drop Nat.add].
  rewrite (decide_ext _ ((valid g0 ∧ valid g1 ∧ valid g2 ∧ valid g3)
    ∧ Forall valid (take (length s - 4) s))) by (rewrite !Forall_cons; tauto).
  destruct (decide (valid g0 ∧ _)) as [Hv|Hv]; [|by rewrite decide_False by tauto].
  rewrite (decide_ext _ (Forall valid (take (length s - 4) s))) by tauto.
  case_decide; [|done].
  destruct (fours_S 0 (drop (length s - 4) s)) as (c0 & c1 & c2 & c3 & r & -> & ->%fours_0);
    [unfold fours in *; rewrite length_drop; lia|].
  by destruct (last_bytes c0 c1 c2 c3); simpl; rewrite <-?app_assoc.
Qed.

Lemma decode_spec_last g0 g1 g2 g3 :
  decode_spec [g0; g1; g2; g3] = last_bytes g0 g1 g2 g3.
Proof.
  change (decode_spec _) with
    (if decide (Forall valid []) then id <$> last_bytes g0 g1 g2 g3 else None).
  rewrite decide_True by constructor. by destruct (last_bytes g0 g1 g2 g3).
Qed.

Lemma rfc_group a b c d rest :
  sextet a → sextet b → sextet c → sextet d →
  rfc4648_encode (group_bytes a b c d ++ rest)
    = symbol a :: symbol b :: symbol c :: symbol d :: rfc4648_encode rest.
Proof.
  unfold sextet, group_bytes. intros. cbn [app rfc4648_encode].
  repeat f_equal; sextets.
Qed.

Lemma land_15 b : Z.land b 15 = b mod 16.
Proof. apply (Z.land_ones b 4). lia. Qed.
Lemma land_3 b : Z.land b 3 = b mod 4.
Proof. apply (Z.land_ones b 2). lia. Qed.

Lemma last_bytes_sound c0 c1 c2 c3 bs :
  is_byte c0 → is_byte c1 → is_byte c2 → is_byte c3 →
  last_bytes c0 c1 c2 c3 = Some bs →
  Forall is_byte bs ∧ rfc4648_encode bs = [c0; c1; c2; c3].
Proof.
  intros B0 B1 B2 B3. unfold last_bytes.
  assert (∀ c, is_byte c → valid c → sextet (value c) ∧ symbol (value c) = c) as Hs
    by (intros; by apply valid_spec).
  assert (sextet 0) as Hz by (unfold sextet; lia).
  case_bool_decide as E2; case_bool_decide as E3; try done;
    case_decide as D; try done; intros [= <-].
  - destruct D as [[[S0 Q0]%Hs [S1 Q1]%Hs] Hb]; auto. rewrite land_15 in Hb. split.
    { sextets. }
    subst c2 c3. trans [symbol (value c0); symbol (value c1); 61; 61];
      [|by rewrite Q0, Q1]. cbn. repeat f_equal; sextets.
  - destruct D as [([S0 Q0]%Hs & [S1 Q1]%Hs & [S2 Q2]%Hs) Hc]; auto. rewrite land_3 in Hc. split.
    { sextets. }
    subst c3. trans [symbol (value c0); symbol (value c1); symbol (value c2); 61];
      [|by rewrite Q0, Q1, Q2]. cbn. repeat f_equal; sextets.
  - destruct D as ([S0 Q0]%Hs & [S1 Q1]%Hs & [S2 Q2]%Hs & [S3 Q3]%Hs); auto. split.
    { by apply group_bytes_ok. }
    rewrite <-(app_nil_r (group_bytes _ _ _ _)), rfc_group by done. by rewrite Q0, Q1, Q2, Q3.
Qed.

Lemma decode_spec_sound m s bs :
  fours m s → Forall is_byte s → decode_spec s = Some bs →
  Forall is_byte bs ∧ rfc4648_encode bs = s.
Proof.
  revert s bs; induction m as [|m IH]; intros s bs.
  { intros ->%fours_0 _ [= <-]. done. }
  intros (g0 & g1 & g2 & g3 & s' & -> & Hm)%fours_S Hby.
  rewrite !Forall_cons in Hby. destruct Hby as (B0 & B1 & B2 & B3 & Hby).
  destruct m as [|m].
  - apply fours_0 in Hm as ->. rewrite decode_spec_last. by apply last_bytes_sound.
  - rewrite (decode_spec_cons m) by done. case_decide as D; [|done].
    destruct (decode_spec s') as [bs'|] eqn:E; [|done]. intros Hbs%(inj Some). subst bs.
    destruct (IH _ _ Hm Hby E) as [Hbs <-].
    destruct D as ([S0 Q0]%valid_spec & [S1 Q1]%valid_spec & [S2 Q2]%valid_spec
      & [S3 Q3]%valid_spec); try done.
    rewrite rfc_group, Q0, Q1, Q2, Q3 by done. split; [|done].
    apply Forall_app. split; [by apply group_bytes_ok|done].
Qed.

(** The groups of the reference encoder are the decoder's, read backwards. *)
Lemma rfc_triple x y z :
  is_byte x → is_byte y → is_byte z →
  ∃ a b c d, sextet a ∧ sextet b ∧ sextet c ∧ sextet d ∧ [x; y; z] = group_bytes a b c d.
Proof.
  unfold is_byte. intros. exists (x / 4), (x mod 4 * 16 + y / 16), (y mod 16 * 4 + z / 64), (z mod 64).
  unfold group_bytes. repeat split; try (repeat f_equal); sextets.
Qed.

Lemma last_bytes_complete bs :
  Forall is_byte bs → (1 ≤ length bs ≤ 3)%nat →
  ∃ c0 c1 c2 c3, rfc4648_encode bs = [c0; c1; c2; c3] ∧ last_bytes c0 c1 c2 c3 = Some bs.
Proof.
  intros Hby Hl. destruct bs as [|x [|y [|z [|? ?]]]]; simpl in Hl; try lia;
    repeat (apply Forall_cons in Hby as [? Hby]).
  - eexists _, _, _, _. split; [done|]. unfold last_bytes. cbn -[symbol].
    rewrite !value_symbol by sextets. rewrite land_15, decide_True; [f_equal; f_equal; sextets|].
    repeat split; try (apply valid_symbol); sextets.
  - eexists _, _, _, _. split; [done|]. unfold last_bytes.
    rewrite bool_decide_false by (apply symbol_not_padding; sextets). cbn -[symbol].
    rewrite !value_symbol by sextets. rewrite land_3, decide_True;
      [repeat f_equal; sextets|].
    repeat split; try (apply valid_symbol); sextets.
  - destruct (rfc_triple x y z) as (a & b & c & d & Ha & Hb & Hc & Hd & ->); try done.
    exists (symbol a), (symbol b), (symbol c), (symbol d). split.
    { by rewrite <-(app_nil_r (group_bytes _ _ _ _)), rfc_group. }
    unfold last_bytes. rewrite !bool_decide_false by auto with masa.
    rewrite decide_True by auto with masa. by rewrite !value_symbol.
Qed.

Lemma decode_spec_complete n bs :
  (length bs ≤ n)%nat → Forall is_byte bs →
  (∃ m, fours m (rfc4648_encode bs)) ∧ decode_spec (rfc4648_encode bs) = Some bs.
Proof.
  revert bs; induction n as [|n IH]; intros bs Hn Hby.
  { destruct bs; [|simpl in Hn; lia]. split; [by exists 0%nat|done]. }
  destruct (decide (length bs ≤ 3)%nat) as [H3|H3].
  - destruct bs as [|x bs]; [split; [by exists 0%nat|done]|].
    destruct (last_bytes_complete (x :: bs)) as (c0 & c1 & c2 & c3 & -> & Hb);
      [done|simpl in *; lia|].
    rewrite decode_spec_last. split; [by exists 1%nat|done].
  - destruct bs as [|x [|y [|z [|w bs]]]]; simpl in H3; try lia.
    assert (length (w :: bs) ≤ n)%nat as Hl by (simpl in *; lia). clear Hn.
    change (x :: y :: z :: w :: bs) with ([x; y; z] ++ w :: bs) in *.
    apply Forall_app in Hby as [Hxyz Hby]. rewrite !Forall_cons in Hxyz.
    destruct (rfc_triple x y z) as (a & b & c & d & Ha & Hb & Hc & Hd & E); try tauto.
    rewrite E, rfc_group by done.
    destruct (IH (w :: bs) Hl Hby) as [[m Hm] Hd'].
    generalize dependent (rfc4648_encode (w :: bs)). intros r Hm Hd'.
    split; [exists (S m); unfold fours in *; simpl; lia|].
    destruct m as [|m].
    { by apply fours_0 in Hm as ->. }
    rewrite (decode_spec_cons m) by done. rewrite decide_True by auto with masa.
    rewrite Hd', !value_symbol by done. done.
Qed.

(** The decoder accepts exactly the image of the reference encoder. *)
Lemma decode_spec_iff s bs :
  Forall is_byte s → (length s mod 4 = 0)%nat →
  decode_spec s = Some bs ↔ Forall is_byte bs ∧ rfc4648_encode bs = s.
Proof.
  intros Hby Hm%Nat.Div0.div_exact. split.
  - apply (decode_spec_sound (length s / 4)); [|done]. unfold fours. lia.
  - intros [Hbs <-]. by apply (decode_spec_complete (length bs)).
Qed.

Lemma rfc_length bs : Forall is_byte bs → (length (rfc4648_encode bs) mod 4 = 0)%nat.
Proof.
  intros H. destruct (decode_spec_complete (length bs) bs) as [[m Hm] _]; [done..|].
  unfold fours in Hm. rewrite Hm, Nat.mul_comm. apply Nat.Div0.mod_mul.
Qed.

(** When the buffer is large enough, the decoder is [decode_spec]'s inverse
    image of the encoder. *)
Lemma decode_payload_into_iff payload buf bs :
  Forall is_byte payload → (length payload / 4 * 3 ≤ length buf)%nat →
  decode_payload_into payload buf = Ret (Some bs) ↔
  Forall is_byte bs ∧ rfc4648_encode bs = payload.
Proof.
  intros Hby Hl. rewrite decode_payload_into_spec by done. case_decide as D.
  - rewrite <-decode_spec_iff by (done || apply D). split; [by intros [= ->]|by intros ->].
  - split; [done|]. intros [Hbs <-]. exfalso. apply D. split; [by apply rfc_length|done].
Qed.

Lemma rfc_length_ge n bs : (length bs ≤ n)%nat → (length bs * 4 ≤ length (rfc4648_encode bs) * 3)%nat.
Proof.
  revert bs; induction n as [|n IH]; intros bs Hn; [destruct bs; simpl in *; lia|].
  destruct bs as [|x [|y [|z bs]]]; try (simpl; lia).
  specialize (IH bs). cbn [rfc4648_encode app length] in *. lia.
Qed.

(** C23: with a buffer of three bytes per group of four, [decode_payload_into]
    accepts exactly the payloads that are RFC 4648 base64 of some bytes, with
    the standard alphabet and padding and no stray bits, and decodes each of
    them to those bytes. *)
Theorem decode_payload_into_exact payload buf bs :
  Forall is_byte payload → (length payload / 4 * 3 ≤ length buf)%nat →
  decode_payload_into payload buf = Ret (Some bs) ↔
  Forall is_byte bs ∧ rfc4648_encode bs = payload.
Proof. apply decode_payload_into_iff. Qed.

Lemma decode_payload_into_exact_witness :
  decode_payload_into (bytes_of_string "Bw==") (replicate 3 0)
    = Ret (Some [7]) ↔ Forall is_byte [7] ∧ rfc4648_encode [7] = bytes_of_string "Bw==".
Proof. apply decode_payload_into_exact; [apply bytes_of_string_bytes|decided]. Defined.

(** [decode_payload_into] never panics, whatever the payload and however
    small the buffer: no write goes past the end, and what it returns fits. *)
Theorem decode_payload_into_safe payload buf :
  Forall is_byte payload →
  ∃ r, decode_payload_into payload buf = Ret r ∧
       (∀ bs, r = Some bs → (length bs ≤ length buf)%nat).
Proof.
  intros Hby. rewrite decode_payload_into_spec by done.
  eexists. split; [done|]. intros bs Hr. case_decide as D; [|done].
  destruct D as [Hm Hl]. apply decode_spec_iff in Hr as [Hbs <-]; [|done..].
  pose proof (rfc_length_ge _ bs (le_n _)). apply Nat.Div0.div_exact in Hm. lia.
Qed.

Lemma decode_payload_into_safe_witness :
  ∃ r, decode_payload_into (bytes_of_string "AAAAAAAA") (replicate 6 9) = Ret r ∧
       (∀ bs, r = Some bs → (length bs ≤ 6)%nat).
Proof. apply decode_payload_into_safe, bytes_of_string_bytes. Defined.
