(* ===== verification/Wire.v ===== *)
(** [rpcstack-wire]: the layout of the [ctx] header and the payload codec.
    Models libs/rpcstack-wire/src/lib.rs. A header is a list of sections
    [name:payload] separated by [.]; a payload is base64 of [bincode] bytes.
    The crates [base64] and [bincode] are interfaces ([Base64Engine],
    [Bincode]) with their documented behaviour as laws. *)
From S2P Require Import Prelude Bytes.
From Stdlib Require Import Zbitwise.

(** ** Header sections *)

Definition HEADER_NAME : bytes := bytes_of_string "ctx".
Definition SCHEDULING_HEADER : bytes := bytes_of_string "x-rpcstack-scheduling".
Definition SECTION_SEPARATOR : Z := 46.
Definition NAME_SEPARATOR : Z := 58.

Definition sections (header : bytes) : list (bytes * bytes) :=
  (λ section, default (section, []) (split_once NAME_SEPARATOR section))
    <$> filter (λ section, section ≠ []) (split SECTION_SEPARATOR header).

(** What one turn of the loop of [find_section] does with the section that
    starts [rest]. *)
Definition match_section (name section : bytes) : option bytes :=
  after_name ← strip_prefix name section;
  match strip_prefix [NAME_SEPARATOR] after_name with
  | Some payload => Some payload
  | None => if decide (after_name = [] ∧ name ≠ []) then Some [] else None
  end.

(** The [loop] of [find_section]; the fuel bounds the number of turns. *)
Fixpoint find_section_loop (fuel : nat) (rest name : bytes) : option bytes :=
  match fuel with
  | 0 => None
  | S fuel =>
      let end_ := default (length rest) (position SECTION_SEPARATOR rest) in
      match match_section name (take end_ rest) with
      | Some payload => Some payload
      | None => rest' ← get_from (end_ + 1) rest; find_section_loop fuel rest' name
      end
  end.

Definition find_section (header name : bytes) : option bytes :=
  find_section_loop (S (length header)) header name.

Definition push_section (header name payload : bytes) : bytes :=
  (if decide (header = []) then header else header ++ [SECTION_SEPARATOR])
    ++ name ++ [NAME_SEPARATOR] ++ payload.

(** A name or payload that cannot be confused with the header's structure. *)
Definition no_separator (s : bytes) : Prop :=
  SECTION_SEPARATOR ∉ s ∧ NAME_SEPARATOR ∉ s.

Definition section_of (name payload : bytes) : bytes :=
  name ++ NAME_SEPARATOR :: payload.

Lemma find_section_loop_split fuel rest name :
  length rest < fuel →
  find_section_loop fuel rest name
    = find_map (match_section name) (split SECTION_SEPARATOR rest).
Proof.
  revert rest; induction fuel as [|fuel IH]; intros rest Hlen; [lia|].
  simpl. rewrite split_unfold.
  destruct (position SECTION_SEPARATOR rest) as [i|] eqn:E; simpl.
  - apply position_Some in E as [Hi _]. apply lookup_lt_Some in Hi.
    destruct (match_section name (take i rest)); [done|].
    unfold get_from. rewrite decide_True by lia. simpl.
    rewrite Nat.add_1_r, IH; [done|]. rewrite length_drop. lia.
  - rewrite take_ge by lia. destruct (match_section name rest); [done|].
    unfold get_from. by rewrite decide_False by lia.
Qed.

Lemma find_section_split header name :
  find_section header name
    = find_map (match_section name) (split SECTION_SEPARATOR header).
Proof. apply find_section_loop_split. lia. Qed.

Lemma match_section_of name n p :
  NAME_SEPARATOR ∉ name → NAME_SEPARATOR ∉ n →
  match_section name (section_of n p) = if decide (n = name) then Some p else None.
Proof.
  intros H1 H2. unfold match_section, section_of. case_decide as Hn.
  - subst. by rewrite strip_prefix_app.
  - destruct (strip_prefix name _) as [r|] eqn:E; simpl; [|done].
    apply strip_prefix_Some in E. destruct r as [|b r].
    { rewrite app_nil_r in E. set_solver. }
    destruct (strip_prefix [NAME_SEPARATOR] (b :: r)) as [q|] eqn:Hs.
    + apply strip_prefix_Some in Hs as Hq. rewrite Hq in E. exfalso. apply Hn.
      pose proof (split_once_app NAME_SEPARATOR n p H2) as Ha.
      change ([NAME_SEPARATOR] ++ q) with (NAME_SEPARATOR :: q) in E.
      rewrite E, split_once_app in Ha by done. naive_solver.
    + by rewrite decide_False by naive_solver.
Qed.

(** The split-based reading of one section agrees with [match_section]. *)
Lemma match_section_split_once name section :
  name ≠ [] → NAME_SEPARATOR ∉ name →
  match_section name section =
    (let '(n, p) := default (section, []) (split_once NAME_SEPARATOR section) in
     if decide (n = name) then Some p else None).
Proof.
  intros Hne Hname. destruct (split_once NAME_SEPARATOR section) as [[n p]|] eqn:E; simpl.
  - apply split_once_Some in E as [-> Hn]. by apply match_section_of.
  - assert (NAME_SEPARATOR ∉ section) as Hs.
    { apply position_None. unfold split_once in E.
      by destruct (position NAME_SEPARATOR section). }
    unfold match_section.
    destruct (strip_prefix name section) as [r|] eqn:Hr; cbn [mbind option_bind].
    + apply strip_prefix_Some in Hr as ->.
      destruct r as [|b r].
      * rewrite app_nil_r. simpl. by rewrite (decide_True _ _ (conj eq_refl Hne)), decide_True.
      * destruct (strip_prefix [NAME_SEPARATOR] (b :: r)) as [q|] eqn:Hq.
        { apply strip_prefix_Some in Hq. rewrite Hq in Hs. set_solver. }
        rewrite decide_False by naive_solver. rewrite decide_False; [done|].
        intros H%(f_equal length). rewrite length_app in H. simpl in H. lia.
    + rewrite decide_False; [done|]. intros ->.
      pose proof (strip_prefix_app name []) as H. rewrite app_nil_r in H. congruence.
Qed.

Lemma find_section_nil name : name ≠ [] → find_section [] name = None.
Proof. intros H. rewrite find_section_split. by destruct name. Qed.

Lemma find_map_filter_nil name l :
  name ≠ [] →
  find_map (match_section name) (filter (λ s, s ≠ []) l)
    = find_map (match_section name) l.
Proof.
  intros H. induction l as [|s l IH]; [done|].
  rewrite filter_cons. case_decide as Hs; simpl; rewrite IH; [done|].
  subst. by destruct name.
Qed.

Lemma match_section_Forall P name s p :
  Forall P s → match_section name s = Some p → Forall P p.
Proof.
  unfold match_section. intros HP (r & ->%strip_prefix_Some & Hr)%bind_Some.
  apply Forall_app in HP as [_ HP].
  destruct (strip_prefix [NAME_SEPARATOR] r) as [q|] eqn:Hq.
  - apply strip_prefix_Some in Hq as ->. injection Hr as ->. by apply Forall_app in HP as [_ ?].
  - case_decide; [|done]. injection Hr as <-. constructor.
Qed.

Lemma find_section_Forall P header name p :
  Forall P header → find_section header name = Some p → Forall P p.
Proof.
  unfold find_section. generalize (S (length header)). intros fuel.
  revert header; induction fuel as [|fuel IH]; intros rest HP; [done|]. simpl.
  destruct (match_section _ _) as [q|] eqn:Hm.
  - intros [= <-]. eapply match_section_Forall, Hm. by apply Forall_take.
  - intros (rest' & Hr & Hf)%bind_Some. unfold get_from in Hr. case_decide; [|done].
    injection Hr as <-. eapply IH, Hf. by apply Forall_drop.
Qed.

Lemma find_section_no_separator header name p :
  find_section header name = Some p → SECTION_SEPARATOR ∉ p.
Proof.
  rewrite find_section_split. pose proof (split_pieces_notin SECTION_SEPARATOR header) as Hs.
  induction Hs as [|s l Hs _ IH]; [done|]. cbn [find_map].
  destruct (match_section name s) as [q|] eqn:Hm; [|done]. intros [= <-] Hin.
  assert (Forall (λ b, b ≠ SECTION_SEPARATOR) q) as Hq.
  { eapply match_section_Forall, Hm. apply Forall_forall. by intros b Hb ->. }
  rewrite Forall_forall in Hq. by apply (Hq _ Hin).
Qed.

Lemma find_section_push header name payload n :
  n ≠ [] → no_separator n → no_separator name → SECTION_SEPARATOR ∉ payload →
  find_section (push_section header name payload) n
    = match find_section header n with
      | Some p => Some p
      | None => if decide (name = n) then Some payload else None
      end.
Proof.
  intros Hne [_ Hn] [Hd Hc] Hp. unfold push_section.
  change (name ++ [NAME_SEPARATOR] ++ payload) with (section_of name payload).
  assert (SECTION_SEPARATOR ∉ section_of name payload) as Hs.
  { unfold section_of. rewrite not_elem_of_app, not_elem_of_cons. done. }
  case_decide as Hh; [subst; simpl|].
  - rewrite find_section_nil by done. rewrite find_section_split, split_notin by done.
    simpl. rewrite match_section_of by done. by case_decide.
  - rewrite !find_section_split, <-app_assoc. simpl.
    rewrite <-(join_split SECTION_SEPARATOR header) at 1.
    rewrite <-(join_app _ _ [section_of name payload]) by eauto with masa.
    rewrite split_join, find_map_app; [|by destruct (split _ _)|].
    + simpl. rewrite match_section_of by done. by case_decide.
    + apply Forall_app. split; [eauto with masa|by constructor].
Qed.

(** Finding a section is looking its name up among the pairs. *)
Definition lookup_section (name : bytes) (l : list (bytes * bytes)) : option bytes :=
  find_map (λ '(n, p), if decide (n = name) then Some p else None) l.

Lemma find_section_pairs header name :
  name ≠ [] → NAME_SEPARATOR ∉ name →
  find_section header name = lookup_section name (sections header).
Proof.
  intros Hne Hn. rewrite find_section_split, <-find_map_filter_nil by done.
  unfold lookup_section, sections. induction (filter _ _) as [|s l IH]; [done|].
  rewrite fmap_cons. cbn [find_map]. rewrite <-IH, match_section_split_once by done.
  by destruct (default _ _).
Qed.

(** C38: [find_section], which scans the header once and never looks inside a
    payload, finds exactly what splitting the whole header with [sections] and
    searching the pairs for the name finds, for every header and every name
    that is a possible section name. *)
Theorem find_section_sections header name :
  name ≠ [] → NAME_SEPARATOR ∉ name →
  find_section header name
    = find_map (λ '(n, p), if decide (n = name) then Some p else None) (sections header).
Proof. apply find_section_pairs. Qed.

Lemma find_section_sections_witness :
  find_section (bytes_of_string "ab:x..a:y.a:z.b") (bytes_of_string "a")
  = find_map (λ '(n, p), if decide (n = bytes_of_string "a") then Some p else None)
      (sections (bytes_of_string "ab:x..a:y.a:z.b"))
  ∧ find_section (bytes_of_string "ab:x..a:y.a:z.b") (bytes_of_string "a")
    = Some (bytes_of_string "y").
Proof.
  split; [|by vm_compute].
  apply find_section_sections; [done|].
  decided.
Defined.

(** Appending a section makes it findable under its own name and leaves
    every section already in the header where it was: an earlier section of
    the same name still wins. *)
Theorem push_section_find header name payload n :
  n ≠ [] → no_separator n → no_separator name → SECTION_SEPARATOR ∉ payload →
  find_section (push_section header name payload) n
    = match find_section header n with
      | Some p => Some p
      | None => if decide (name = n) then Some payload else None
      end.
Proof. apply find_section_push. Qed.

Lemma push_section_find_witness :
  find_section (push_section (bytes_of_string "a:1") (bytes_of_string "b") (bytes_of_string "2"))
    (bytes_of_string "b") = Some (bytes_of_string "2").
Proof.
  rewrite push_section_find; [by vm_compute|done| | |];
    repeat split; decided.
Defined.
