(* ===== verification/Payload.v ===== *)
(** The payload codec of libs/rpcstack-wire/src/lib.rs: a section's payload is
    the base64 of its module's wire type serialized with [bincode]. The crates
    are interfaces here: [Base64Engine] is what the code calls of [base64]'s
    STANDARD engine, [Bincode W] what it calls of [bincode] for the wire type
    [W]; their laws are what the crates document. *)
From S2P Require Export Prelude Bytes Base64 Wire.
From stdpp Require Import pretty.

(** ** The crates *)

Class Base64Engine := {
  b64_encode : bytes → bytes;
  b64_encode_slice : bytes → nat → result bytes bytes;
  b64_decode : bytes → result bytes bytes;
}.

(** STANDARD is RFC 4648 with padding and no stray bits; [encode_slice] fails
    only when the output does not fit. *)
Class Base64Laws (E : Base64Engine) : Prop := {
  b64_encode_law bs : Forall is_byte bs → b64_encode bs = rfc4648_encode bs;
  b64_encode_slice_law bs cap :
    Forall is_byte bs → length (rfc4648_encode bs) ≤ cap →
    b64_encode_slice bs cap = Ok (rfc4648_encode bs);
  b64_decode_law s bs :
    Forall is_byte s →
    b64_decode s = Ok bs ↔ Forall is_byte bs ∧ rfc4648_encode bs = s;
}.

Class Bincode (W : Type) := {
  serialize : W → result bytes bytes;
  (** What [serialize_into] writes to a slice of the given length. *)
  serialize_into : W → nat → result bytes bytes;
  bincode_deserialize : bytes → result W bytes;
}.

Class BincodeLaws (W : Type) {B : Bincode W} : Prop := {
  serialize_bytes w bs : serialize w = Ok bs → Forall is_byte bs;
  serialize_into_law w cap bs :
    serialize_into w cap = Ok bs ↔ serialize w = Ok bs ∧ length bs ≤ cap;
  deserialize_serialize w bs : serialize w = Ok bs → bincode_deserialize bs = Ok w;
}.

(** ** The codec *)

Definition STACK_PAYLOAD : nat := 192.

Section codec.
  Context {E : Base64Engine} {W : Type} {B : Bincode W}.

Definition deserialize (bs : bytes) : result W bytes :=
  result_map_err (λ err, bytes_of_string "bincode: " ++ err) (bincode_deserialize bs).

Definition decode_payload (payload : bytes) : outcome (result W bytes) :=
  let buf := replicate STACK_PAYLOAD 0%Z in
  fast ← decode_payload_into payload buf;
  match fast with
  | Some bs => Ret (deserialize bs)
  | None =>
      Ret (result_and_then deserialize
             (result_map_err (λ err, bytes_of_string "base64: " ++ err) (b64_decode payload)))
  end.

(** [encode_payload_with]; [use_payload] may panic. *)
Definition encode_payload_with {R} (wire : W) (use_payload : bytes → outcome R)
    : outcome (result R bytes) :=
  match serialize_into wire STACK_PAYLOAD with
  | Ok raw =>
      text ← expect (b64_encode_slice raw (STACK_PAYLOAD / 3 * 4));
      Ok <$> use_payload text
  | Err _ =>
      match serialize wire with
      | Ok bs => Ok <$> use_payload (b64_encode bs)
      | Err err => Ret (Err (bytes_of_string "bincode: " ++ err))
      end
  end.

Definition encode_payload (wire : W) : outcome (result bytes bytes) :=
  encode_payload_with wire (λ payload, expect (from_utf8 payload)).
End codec.

(** A byte as two lower-case hex digits, [{byte:02x}]. *)
Definition hex_digit (n : Z) : Z := (if decide (n < 10) then 48 + n else 87 + n)%Z.
Definition hex_byte (b : Z) : bytes := [hex_digit (b / 16); hex_digit (b mod 16)].

(** One line of [describe]. *)
Definition describe_section `{Base64Engine} (section : bytes * bytes) : bytes :=
  let '(name, payload) := section in
  match b64_decode payload with
  | Err err => name ++ bytes_of_string ": not base64 (" ++ err ++ bytes_of_string ")"
  | Ok bs =>
      name ++ bytes_of_string " (" ++ bytes_of_string (pretty (N.of_nat (length bs)))
        ++ bytes_of_string " bytes):" ++ mjoin ((λ b, 32%Z :: hex_byte b) <$> bs)
  end.

Definition describe `{Base64Engine} (header : bytes) : bytes :=
  foldl (λ text section,
           text ++ (if decide (text = []) then [] else [10%Z]) ++ describe_section section)
    [] (sections header).

(** ** The codec implements base64 of bincode *)

Lemma rfc_length_exact n bs :
  length bs ≤ n → Forall is_byte bs →
  length (rfc4648_encode bs) = (length bs + 2) / 3 * 4.
Proof.
  revert bs; induction n as [|n IH]; intros bs Hn Hby; [by destruct bs; simpl in *; [|lia]|].
  destruct bs as [|x [|y [|z bs]]]; [done..|].
  repeat (apply Forall_cons in Hby as [_ Hby]).
  cbn [rfc4648_encode app length]. rewrite IH by (done || simpl in *; lia).
  replace (S (S (S (length bs))) + 2) with (length bs + 2 + 1 * 3) by lia.
  rewrite Nat.div_add by lia. lia.
Qed.

Lemma symbol_ascii v : sextet v → is_ascii (symbol v).
Proof.
  intros Hv. assert (Forall (λ v, is_ascii (symbol (Z.of_nat v))) (seq 0 64)) as H by decided.
  rewrite Forall_forall in H. rewrite <-(Z2Nat.id v) by apply Hv. apply H, elem_of_seq.
  unfold sextet in Hv. lia.
Qed.

(** A property of the alphabet and the padding holds of all encoder output. *)
Lemma rfc_Forall (P : Z → Prop) n bs :
  (∀ v, sextet v → P (symbol v)) → P 61%Z →
  length bs ≤ n → Forall is_byte bs → Forall P (rfc4648_encode bs).
Proof.
  intros Hsym Hpad.
  revert bs; induction n as [|n IH]; intros bs Hn Hby; [by destruct bs; simpl in *; [|lia]|].
  destruct bs as [|x [|y [|z bs]]]; repeat (apply Forall_cons in Hby as [? Hby]);
    [constructor|..]; cbn [rfc4648_encode app];
    repeat (apply Forall_cons; split); try (apply Hsym; sextets);
    try done; try (by constructor). apply IH; [simpl in *; lia|done].
Qed.

Lemma rfc_ascii n bs :
  length bs ≤ n → Forall is_byte bs → Forall is_ascii (rfc4648_encode bs).
Proof. apply rfc_Forall; [apply symbol_ascii|decided]. Qed.

Lemma b64_decode_None s :
  Forall is_byte s → (∀ bs, Forall is_byte bs → rfc4648_encode bs ≠ s) →
  ∀ (E : Base64Engine), Base64Laws E → ∃ err, b64_decode s = Err err.
Proof.
  intros Hs Hn E L. destruct (b64_decode s) as [bs|err] eqn:D; [|by eexists].
  apply b64_decode_law in D as [Hbs Heq]; [|done..]. by destruct (Hn bs).
Qed.

Section codec_laws.
  Context {E : Base64Engine} {EL : Base64Laws E}.
  Context {W : Type} {B : Bincode W} {BL : BincodeLaws W}.

Lemma decode_payload_eq payload :
  Forall is_byte payload →
  decode_payload (W:=W) payload
    = Ret (result_and_then deserialize
             (result_map_err (λ err, bytes_of_string "base64: " ++ err) (b64_decode payload))).
Proof.
  intros Hby. unfold decode_payload.
  destruct (decode_payload_into payload _) as [[bs|]|] eqn:D; cbn [mbind outcome_bind].
  - rewrite decode_payload_into_spec in D by done. case_decide as Hc; [|done].
    destruct Hc as [Hm Hl]. injection D as D. apply decode_spec_iff in D as [Hbs Henc]; [|done..].
    by rewrite (proj2 (b64_decode_law payload bs Hby)).
  - done.
  - by rewrite decode_payload_into_spec in D.
Qed.

Lemma encode_payload_with_eq {R} (w : W) (use_payload : bytes → outcome R) :
  encode_payload_with w use_payload =
    match serialize w with
    | Ok bs => Ok <$> use_payload (rfc4648_encode bs)
    | Err err => Ret (Err (bytes_of_string "bincode: " ++ err))
    end.
Proof.
  unfold encode_payload_with.
  destruct (serialize_into w STACK_PAYLOAD) as [raw|e] eqn:Hi.
  - apply serialize_into_law in Hi as [Hs Hl]. rewrite Hs.
    assert (Forall is_byte raw) as Hby by (by eapply serialize_bytes).
    rewrite b64_encode_slice_law; [done..|].
    rewrite (rfc_length_exact _ _ (le_n _) Hby). unfold STACK_PAYLOAD in *.
    apply Nat.mul_le_mono_r. pose proof (Nat.Div0.div_le_mono (length raw + 2) (192 + 2) 3).
    change ((192 + 2) / 3) with 64 in *. change (192 / 3) with 64. lia.
  - destruct (serialize w) as [bs|err] eqn:Hs; [|done].
    rewrite b64_encode_law; [done|]. by eapply serialize_bytes.
Qed.

Lemma encode_payload_eq (w : W) bs :
  serialize w = Ok bs → encode_payload w = Ret (Ok (rfc4648_encode bs)).
Proof.
  intros Hs. unfold encode_payload. rewrite encode_payload_with_eq, Hs.
  rewrite from_utf8_ascii; [done|]. eapply rfc_ascii; [done|by eapply serialize_bytes].
Qed.

Lemma decode_payload_rfc (w : W) bs :
  serialize w = Ok bs → decode_payload (rfc4648_encode bs) = Ret (Ok w).
Proof.
  intros Hs. assert (Forall is_byte bs) as Hby by (by eapply serialize_bytes).
  assert (Forall is_byte (rfc4648_encode bs)) as Hr.
  { eapply Forall_impl; [by eapply rfc_ascii|]. unfold is_ascii, is_byte. lia. }
  rewrite decode_payload_eq by done. rewrite (proj2 (b64_decode_law _ bs Hr)) by done.
  simpl. unfold deserialize. by erewrite deserialize_serialize.
Qed.

(** The stack fast path of [decode_payload] is invisible: for every payload
    it returns, without a panic, what decoding with the general base64 decoder
    and deserializing the result returns, errors included. *)
Theorem decode_payload_general payload :
  Forall is_byte payload →
  decode_payload (W:=W) payload
    = Ret (match b64_decode payload with
           | Ok bs => deserialize bs
           | Err err => Err (bytes_of_string "base64: " ++ err)
           end).
Proof. intros H. rewrite decode_payload_eq by done. by destruct (b64_decode payload). Qed.

(** Encoding never panics: the text buffer holds the base64 of whatever
    fits the stack buffer, longer values take the heap, and base64 is valid
    UTF-8. What it returns decodes to the value it was given, and an error is
    the serializer's. *)
Theorem encode_payload_round_trip (w : W) :
  match encode_payload w with
  | Ret (Ok payload) => decode_payload payload = Ret (Ok w)
  | Ret (Err _) => ∃ err, serialize w = Err err
  | Panic => False
  end.
Proof.
  destruct (serialize w) as [bs|err] eqn:Hs.
  - erewrite encode_payload_eq by done. by apply decode_payload_rfc.
  - unfold encode_payload. rewrite encode_payload_with_eq, Hs. by exists err.
Qed.
End codec_laws.

(** The section of an encoded payload cannot be confused with its neighbours. *)
Lemma symbol_no_separator v :
  sextet v → symbol v ≠ SECTION_SEPARATOR ∧ symbol v ≠ NAME_SEPARATOR.
Proof.
  intros Hv.
  assert (Forall (λ v, symbol (Z.of_nat v) ≠ 46%Z ∧ symbol (Z.of_nat v) ≠ 58%Z) (seq 0 64))
    as H by decided.
  rewrite Forall_forall in H. rewrite <-(Z2Nat.id v) by apply Hv. apply H, elem_of_seq.
  unfold sextet in Hv. lia.
Qed.

Lemma rfc_no_separator n bs :
  length bs ≤ n → Forall is_byte bs → no_separator (rfc4648_encode bs).
Proof.
  intros Hn Hby. enough (Forall (λ c, c ≠ SECTION_SEPARATOR ∧ c ≠ NAME_SEPARATOR)
    (rfc4648_encode bs)) as H.
  { rewrite Forall_forall in H. split; intros Hin; by destruct (H _ Hin). }
  by apply (rfc_Forall _ n); [apply symbol_no_separator|..].
Qed.

(** ** A concrete engine and wire type *)

(** The engine the laws describe, built from the decoder of [Base64]. *)
Definition reference_engine : Base64Engine := {|
  b64_encode := rfc4648_encode;
  b64_encode_slice bs cap :=
    if decide (length (rfc4648_encode bs) ≤ cap) then Ok (rfc4648_encode bs)
    else Err (bytes_of_string "output slice too small");
  b64_decode s :=
    match decode_payload_into s (replicate (length s) 0%Z) with
    | Ret (Some bs) => Ok bs
    | _ => Err (bytes_of_string "invalid")
    end;
|}.

Lemma reference_laws : Base64Laws reference_engine.
Proof.
  split; [done| |].
  - intros bs cap _ H. simpl. by rewrite decide_True.
  - intros s bs Hs. simpl. rewrite <-(decode_payload_into_iff s (replicate (length s) 0%Z)).
    + split; [|by intros ->]. destruct (decode_payload_into _ _) as [[?|]|]; congruence.
    + done.
    + rewrite length_replicate. pose proof (Nat.Div0.mul_div_le (length s) 4). lia.
Qed.

(** A wire type from an encoder, which may refuse a value, and a decoder. *)
Definition bincode_of {W} (encode : W → option bytes) (decode : bytes → option W) : Bincode W := {|
  serialize w := match encode w with Some bs => Ok bs | None => Err [] end;
  serialize_into w cap :=
    match encode w with
    | Some bs => if decide (length bs ≤ cap) then Ok bs else Err []
    | None => Err []
    end;
  bincode_deserialize bs :=
    match decode bs with Some w => Ok w | None => Err (bytes_of_string "malformed") end;
|}.

Lemma bincode_of_laws {W} (encode : W → option bytes) (decode : bytes → option W) :
  (∀ w bs, encode w = Some bs → Forall is_byte bs ∧ decode bs = Some w) →
  @BincodeLaws W (bincode_of encode decode).
Proof.
  intros He. split; simpl.
  - intros w bs. destruct (encode w) eqn:E; [|done]. intros [= <-]. by eapply He.
  - intros w cap bs. destruct (encode w) eqn:E; [|naive_solver]. case_decide; naive_solver.
  - intros w bs. destruct (encode w) eqn:E; [|done]. intros [= <-]. by rewrite (proj2 (He w _ E)).
Qed.

(** A one-byte wire type. *)
Definition u8_bincode : Bincode Z := {|
  serialize z := if decide (is_byte z) then Ok [z] else Err [];
  serialize_into z cap := if decide (is_byte z ∧ 1 ≤ cap) then Ok [z] else Err [];
  bincode_deserialize bs :=
    match bs with [z] => Ok z | _ => Err (bytes_of_string "unexpected end of file") end;
|}.

Lemma u8_laws : @BincodeLaws Z u8_bincode.
Proof.
  split; simpl.
  - intros w bs. case_decide; [|done]. intros [= <-]. by constructor.
  - intros w cap bs. destruct (decide (is_byte w)), (decide (1 ≤ cap));
      [rewrite decide_True by done|rewrite decide_False by tauto..]; split;
      try done; try (intros [= <-]; done); intros [[= <-] ?]; simpl in *; done.
  - intros w bs. case_decide; [|done]. by intros [= <-].
Qed.

Lemma decode_payload_general_witness :
  @decode_payload reference_engine Z u8_bincode (bytes_of_string "AAAA")
    = Ret (Err (bytes_of_string "bincode: unexpected end of file")).
Proof.
  rewrite (@decode_payload_general _ reference_laws Z u8_bincode);
    [by vm_compute|apply bytes_of_string_bytes].
Defined.

Lemma encode_payload_round_trip_witness :
  ∃ payload, @encode_payload reference_engine Z u8_bincode 7%Z = Ret (Ok payload) ∧
    payload = bytes_of_string "Bw==" ∧
    @decode_payload reference_engine Z u8_bincode payload = Ret (Ok 7%Z).
Proof.
  exists (bytes_of_string "Bw=="). split; [by vm_compute|split; [done|]].
  exact (@encode_payload_round_trip _ reference_laws Z u8_bincode u8_laws 7%Z).
Defined.
