(* ===== verification/Context.v ===== *)
(** [masa-core]'s request context and its header: libs/masa-core/src/context.rs,
    header.rs and priority.rs. The [budget] section of the [ctx] header holds a
    [Context] as a [bincode] tuple; Hyper reads only its priority, with a
    hand-written scan. *)
From S2P Require Export Payload Http.

Local Open Scope Z_scope.

(** ** Priorities (priority.rs) *)

Record PriorityHint := Hint { prio_value : Z }.

Definition infra : PriorityHint := Hint 0.

(** [partial_cmp] flips the order: a smaller hint is a higher priority. *)
Definition partial_cmp (self other : PriorityHint) : option comparison :=
  Some (prio_value other ?= prio_value self).

Definition prio_cmp (self other : PriorityHint) : outcome comparison :=
  expect_some (partial_cmp self other).

#[export] Instance PriorityHint_eq_dec : EqDecision PriorityHint.
Proof. solve_decision. Defined.

(** ** The context (context.rs) *)

Definition BUDGET_SECTION : bytes := bytes_of_string "budget".
Definition MASA_CONTEXT_HEADER : bytes := HEADER_NAME.

(** [Timestamp], [Latency] and [RequestId] are [u64]; [Api] is a [String]. *)
Record Context := MkContext {
  api : bytes;
  request_id : Z;
  slo : Z;
  gateway_entry : Z;
  deadline : Z;
  prio_hint : PriorityHint;
}.

Inductive ContextCompact :=
| Compact (_ : bytes) (_ _ _ _ : Z) (_ : PriorityHint).

Definition compact_of_context (ctx : Context) : ContextCompact :=
  Compact (api ctx) (request_id ctx) (slo ctx) (gateway_entry ctx) (deadline ctx) (prio_hint ctx).

Definition context_of_compact (compact : ContextCompact) : Context :=
  let '(Compact c0 c1 c2 c3 c4 c5) := compact in MkContext c0 c1 c2 c3 c4 c5.

Definition compact_prio (compact : ContextCompact) : PriorityHint :=
  let '(Compact _ _ _ _ _ c5) := compact in c5.

Definition default_context : Context := MkContext [] 0 0 0 0 infra.

Definition e2e_deadline (ctx : Context) : Z := wrap64 (gateway_entry ctx + slo ctx).

(** [serde(from = "ContextCompact", into = "ContextCompact")]. *)
#[export] Instance context_bincode `{Bincode ContextCompact} : Bincode Context := {|
  serialize ctx := serialize (compact_of_context ctx);
  serialize_into ctx := serialize_into (compact_of_context ctx);
  bincode_deserialize bs := result_map context_of_compact (bincode_deserialize bs);
|}.

Definition SCAN_BUFFER : nat := 192.

Definition read_varint (bs : bytes) : option (Z * bytes) :=
  match bs with
  | [] => None
  | marker :: rest =>
      if decide (0 ≤ marker ≤ 250) then Some (marker, rest)
      else
        width ← (if decide (marker = 251) then Some 2
                 else if decide (marker = 252) then Some 4
                 else if decide (marker = 253) then Some 8
                 else None);
        '(value, rest) ← split_at_checked width rest;
        let le := value ++ replicate (8 - length value)%nat 0 in
        Some (from_le_bytes le, rest)
  end.

(** The [for _ in 0..n { rest = read_varint(rest)?.1 }] of [scan_priority]. *)
Fixpoint skip_varints (n : nat) (rest : bytes) : option bytes :=
  match n with
  | O => Some rest
  | S n => '(_, rest) ← read_varint rest; skip_varints n rest
  end.

Definition scan_priority (bs : bytes) : option Z :=
  '(name_len, rest) ← read_varint bs;
  '(name, rest) ← split_at_checked name_len rest;
  if decide (Forall is_ascii name) then
    rest ← skip_varints 4 rest;
    '(priority, rest) ← read_varint rest;
    if decide (rest = []) then Some priority else None
  else None.

Section peek.
  Context {E : Base64Engine} {B : Bincode ContextCompact}.

Definition peek_priority (payload : bytes) : outcome (result PriorityHint bytes) :=
  let buf := replicate SCAN_BUFFER 0 in
  scanned ← decode_payload_into payload buf;
  match bs ← scanned; scan_priority bs with
  | Some priority => Ret (Ok (Hint priority))
  | None => result_map compact_prio <$> decode_payload (W:=ContextCompact) payload
  end.

Definition from_header_string (s : bytes) : outcome Context :=
  payload ← expect_some (find_section s BUDGET_SECTION);
  ctx ← decode_payload payload;
  expect ctx.

Definition to_header_string (ctx : Context) : outcome bytes :=
  r ← encode_payload_with ctx (λ payload,
        expect (from_utf8 (BUDGET_SECTION ++ [NAME_SEPARATOR] ++ payload)));
  expect r.
End peek.

(** ** The header (header.rs) *)

Section header.
  Context {HeaderMap : Type} {H : HttpHeaders HeaderMap}.
  Context {E : Base64Engine} {B : Bincode ContextCompact}.

Definition header_value (headers : HeaderMap) : outcome bytes :=
  ctx ← expect_some (header_get headers MASA_CONTEXT_HEADER);
  match (if decide (Forall is_ascii ctx) then result_ok (from_utf8 ctx) else None) with
  | Some text => Ret text
  | None => expect (to_str ctx)
  end.

Definition read_context_from_headers (headers : HeaderMap) : outcome Context :=
  value ← header_value headers; from_header_string value.

Definition read_priority_from_headers (headers : HeaderMap) : outcome PriorityHint :=
  value ← header_value headers;
  payload ← expect_some (find_section value BUDGET_SECTION);
  priority ← peek_priority payload;
  expect priority.
End header.

(** ** The wire grammar of a context *)

(** A [u64] as [bincode] reads it with variable-length integers. *)
Inductive varint : Z → bytes → Prop :=
| varint_byte v : 0 ≤ v ≤ 250 → varint v [v]
| varint_marker m width le :
    (m, width) ∈ [(251, 2%nat); (252, 4%nat); (253, 8%nat)] →
    length le = width → varint (from_le_bytes le) (m :: le).

(** A tuple of an ASCII name and five integers. *)
Inductive compact_wire : ContextCompact → bytes → Prop :=
| compact_wire_intro name n0 id1 s2 e3 d4 p5 b0 b1 b2 b3 b4 b5 :
    varint n0 b0 → n0 = Z.of_nat (length name) → Forall is_ascii name →
    varint id1 b1 → varint s2 b2 → varint e3 b3 → varint d4 b4 → varint p5 b5 →
    compact_wire (Compact name id1 s2 e3 d4 (Hint p5))
      (b0 ++ name ++ b1 ++ b2 ++ b3 ++ b4 ++ b5).

(** The values of the Rust types: a [String] is UTF-8, the integers are [u64]. *)
Definition compact_wf (compact : ContextCompact) : Prop :=
  let '(Compact c0 c1 c2 c3 c4 c5) := compact in
  utf8 c0 ∧ is_u64 (Z.of_nat (length c0)) ∧ Forall is_byte c0 ∧
  Forall is_u64 [c1; c2; c3; c4; prio_value c5].

#[export] Instance compact_wf_dec compact : Decision (compact_wf compact).
Proof. destruct compact. unfold compact_wf. apply _. Defined.

(** [bincode] reads tuples field by field, and writes every context. *)
Class CompactLaws {B : Bincode ContextCompact} : Prop := {
  compact_bincode_laws :: BincodeLaws ContextCompact;
  compact_deserialize compact bs :
    Forall is_byte bs → compact_wire compact bs → bincode_deserialize bs = Ok compact;
  compact_serialize compact : compact_wf compact → ∃ bs, serialize compact = Ok bs;
}.

Lemma split_at_checked_Some i s p q :
  split_at_checked i s = Some (p, q) ↔ s = p ++ q ∧ length p = Z.to_nat i ∧ i ≤ Z.of_nat (length s).
Proof.
  unfold split_at_checked. case_decide as Hi; [|naive_solver]. split.
  - intros [= <- <-]. rewrite take_drop, length_take. split_and!; [done|lia|done].
  - intros (-> & Hp & _). by rewrite take_app_length', drop_app_length' by done.
Qed.

Lemma read_varint_app v b rest : varint v b → read_varint (b ++ rest) = Some (v, rest).
Proof.
  intros Hv. destruct Hv as [v Hv|m w le Hin Hl].
  { simpl. by rewrite decide_True. }
  simpl. rewrite !elem_of_cons, elem_of_nil in Hin.
  assert (∀ z, z = Z.of_nat (length le) → split_at_checked z (le ++ rest) = Some (le, rest)) as Hs.
  { intros z ->. apply split_at_checked_Some. rewrite length_app. split_and!; [done|lia|lia]. }
  destruct Hin as [[= -> ->]|[[= -> ->]|[[= -> ->]|[]]]];
    cbn [mbind option_bind decide]; simpl;
    (rewrite Hs by (rewrite Hl; done); simpl; by rewrite from_le_bytes_app_zero).
Qed.

Lemma read_varint_Some bs v rest :
  Forall is_byte bs →
  read_varint bs = Some (v, rest) ↔ ∃ b, bs = b ++ rest ∧ varint v b.
Proof.
  intros Hby. split.
  - destruct bs as [|m bs]; [done|]. simpl. case_decide as Hm.
    { intros [= <- <-]. exists [m]. split; [done|]. by constructor. }
    intros (w & Hw & ([le r] & Hs & Hr)%bind_Some)%bind_Some.
    apply split_at_checked_Some in Hs as (-> & Hl & _).
    injection Hr as <- <-. rewrite from_le_bytes_app_zero.
    exists (m :: le). split; [done|]. apply (varint_marker _ (length le)); [|done].
    rewrite Hl. repeat case_decide; try (injection Hw as <-); subst; set_solver.
  - intros (b & -> & Hv). by apply read_varint_app.
Qed.

Lemma varint_bounds v b : Forall is_byte b → varint v b → 0 ≤ v < 2 ^ 64.
Proof.
  intros Hb Hv. destruct Hv as [v Hv|m w le Hin Hl]; [lia|].
  apply Forall_cons in Hb as [_ Hb]. apply from_le_bytes_bounds in Hb.
  rewrite Hl in Hb. rewrite !elem_of_cons, elem_of_nil in Hin.
  destruct Hin as [[= -> ->]|[[= -> ->]|[[= -> ->]|[]]]]; lia.
Qed.

Lemma skip_varints_Some n bs rest :
  Forall is_byte bs →
  skip_varints n bs = Some rest ↔
  ∃ vs, length vs = n ∧ bs = mjoin (snd <$> vs) ++ rest ∧ Forall (λ vb, varint vb.1 vb.2) vs.
Proof.
  revert bs; induction n as [|n IH]; intros bs Hby; simpl.
  - split; [intros [= ->]; by exists []|]. by intros ([|] & Hl & -> & _).
  - split.
    + intros ([v r] & (b & -> & Hv)%read_varint_Some & Hs)%bind_Some; [|done].
      apply Forall_app in Hby as [_ Hby]. apply IH in Hs as (vs & Hl & -> & Hvs); [|done].
      exists ((v, b) :: vs). simpl. rewrite Hl, <-app_assoc. by split_and!; [..|constructor].
    + intros ([|[v b] vs] & Hl & -> & Hvs); [done|]. simpl in *.
      rewrite <-app_assoc in *. apply Forall_cons in Hvs as [Hv Hvs].
      erewrite (proj2 (read_varint_Some _ v _ Hby)) by (by exists b).
      simpl. apply Forall_app in Hby as [_ Hby]. apply IH; [done|]. exists vs. by split_and!; [lia|..].
Qed.

(** The scan accepts exactly the grammar. *)
Lemma scan_priority_Some bs p :
  Forall is_byte bs →
  scan_priority bs = Some p ↔ ∃ compact, compact_wire compact bs ∧ compact_prio compact = Hint p.
Proof.
  intros Hby. unfold scan_priority. split.
  - intros ([n0 r0] & (b0 & -> & H0)%read_varint_Some & Hs)%bind_Some; [|done].
    apply bind_Some in Hs as ([name r1] & (-> & Hl & _)%split_at_checked_Some & Hs).
    case_decide as Hname; [|done].
    rewrite !Forall_app in Hby. destruct Hby as (Hb0 & Hbn & Hby).
    apply bind_Some in Hs as (r2 & (vs & Hvs & -> & Hv)%skip_varints_Some & Hs); [|done].
    apply Forall_app in Hby as [_ Hby].
    apply bind_Some in Hs as ([p5 r3] & (b5 & -> & H5)%read_varint_Some & Hs); [|done].
    case_decide; [|done]. subst. injection Hs as ->.
    destruct vs as [|[v1 b1] [|[v2 b2] [|[v3 b3] [|[v4 b4] [|??]]]]]; try done.
    rewrite !Forall_cons in Hv. destruct Hv as (?&?&?&?&_). simpl in *.
    exists (Compact name v1 v2 v3 v4 (Hint p)). split; [|done].
    rewrite !app_nil_r, <-!app_assoc. econstructor; try done.
    apply varint_bounds in H0; [lia|done].
  - intros (compact & Hw & Hp).
    destruct Hw as [name n0 id1 s2 e3 d4 p5 b0 b1 b2 b3 b4 b5 H0 Hn Ha H1 H2 H3 H4 H5].
    injection Hp as ->. erewrite (proj2 (read_varint_Some _ n0 _ Hby)) by (by exists b0).
    cbn [mbind option_bind].
    rewrite (proj2 (split_at_checked_Some n0 _ name (b1 ++ b2 ++ b3 ++ b4 ++ b5)))
      by (rewrite length_app; split_and!; [done|lia|lia]).
    cbn [mbind option_bind]. rewrite decide_True by done.
    rewrite !Forall_app in Hby. destruct Hby as (_ & _ & Hb1 & Hb2 & Hb3 & Hb4 & Hb5).
    rewrite (proj2 (skip_varints_Some 4 (b1 ++ b2 ++ b3 ++ b4 ++ b5) b5 ltac:(by rewrite !Forall_app))).
    + cbn [mbind option_bind]. rewrite (proj2 (read_varint_Some b5 p [] Hb5)); [done|].
      exists b5. by rewrite app_nil_r.
    + exists [(id1, b1); (s2, b2); (e3, b3); (d4, b4)]. split; [done|].
      split; [simpl; by rewrite app_nil_r, <-!app_assoc|]. by repeat constructor.
Qed.

Section peek_laws.
  Context {E : Base64Engine} {EL : Base64Laws E}.
  Context {B : Bincode ContextCompact} {CL : CompactLaws}.

#[export] Instance context_bincode_laws : BincodeLaws Context.
Proof.
  split; simpl.
  - intros w bs. apply serialize_bytes.
  - intros w cap bs. apply serialize_into_law.
  - intros w bs Hs. erewrite deserialize_serialize by done. by destruct w.
Qed.

Lemma decode_context_payload payload :
  Forall is_byte payload →
  decode_payload (W:=Context) payload
    = result_map context_of_compact <$> decode_payload (W:=ContextCompact) payload.
Proof.
  intros Hby. rewrite !decode_payload_eq by done.
  simpl. destruct (b64_decode payload) as [bs|]; simpl; [|done].
  unfold deserialize. simpl. by destruct (bincode_deserialize bs).
Qed.

Lemma peek_priority_eq payload :
  Forall is_byte payload →
  peek_priority payload = result_map compact_prio <$> decode_payload (W:=ContextCompact) payload.
Proof.
  intros Hby. unfold peek_priority.
  destruct (decode_payload_into payload _) as [[bs|]|] eqn:D; cbn [mbind outcome_bind option_bind].
  - destruct (scan_priority bs) as [p|] eqn:Hs; [|done].
    rewrite decode_payload_into_spec in D by done. case_decide as Hc; [|done].
    destruct Hc as [Hm Hl]. injection D as D. apply decode_spec_iff in D as [Hbs Henc]; [|done..].
    rewrite decode_payload_eq, (proj2 (b64_decode_law payload bs Hby)) by done.
    apply scan_priority_Some in Hs as (compact & Hw & Hp); [|done].
    unfold deserialize. simpl. rewrite (compact_deserialize compact) by done. simpl. by rewrite Hp.
  - done.
  - by rewrite decode_payload_into_spec in D.
Qed.

(** C34: reading the priority of a budget payload with the scan gives the value,
    and the error, that decoding the whole context gives, for every payload:
    well formed or not, in the encoder's form or another, long or short. *)
Theorem peek_priority_decodes payload :
  Forall is_byte payload →
  peek_priority payload = result_map prio_hint <$> decode_payload (W:=Context) payload.
Proof.
  intros Hby. rewrite peek_priority_eq, decode_context_payload by done.
  destruct (decode_payload _) as [[[]|]|]; done.
Qed.
End peek_laws.

Section header_laws.
  Context {HeaderMap : Type} {H : HttpHeaders HeaderMap} {HL : HttpHeadersLaws HeaderMap}.
  Context {E : Base64Engine} {EL : Base64Laws E}.
  Context {B : Bincode ContextCompact} {CL : CompactLaws}.

(** The ASCII shortcut of [header_value] is [to_str]. *)
Lemma header_value_to_str (headers : HeaderMap) :
  header_value headers
    = (ctx ← expect_some (header_get headers MASA_CONTEXT_HEADER); expect (to_str ctx)).
Proof.
  unfold header_value. destruct (header_get _ _) as [v|] eqn:Hg; [|done].
  cbn [expect_some mbind outcome_bind]. case_decide as Ha; [|done].
  rewrite from_utf8_ascii by done. simpl.
  rewrite (proj2 (to_str_law v v)); [done|]. split; [done|].
  apply header_value_bytes in Hg. rewrite Forall_forall in Ha, Hg. apply Forall_forall.
  intros b Hb. specialize (Ha b Hb). specialize (Hg b Hb).
  unfold is_ascii, visible_ascii, header_byte in *. lia.
Qed.

Lemma header_value_bytes_ok (headers : HeaderMap) v :
  header_value headers = Ret v → Forall is_byte v.
Proof.
  rewrite header_value_to_str. destruct (header_get _ _) as [w|] eqn:Hg; [|done].
  cbn [expect_some mbind outcome_bind]. destruct (to_str w) as [s|] eqn:Hs; [|done].
  intros [= ->]. apply to_str_law in Hs as [-> Hs].
  eapply Forall_impl; [done|]. unfold visible_ascii, is_byte. lia.
Qed.

(** The priority Hyper reads from a request's headers is the priority of
    the context the budget module decodes from them; when the header is
    missing, is not ASCII, has no budget section or a malformed one, both
    reads panic. *)
Theorem read_priority_reads_context (headers : HeaderMap) :
  read_priority_from_headers headers = prio_hint <$> read_context_from_headers headers.
Proof.
  unfold read_priority_from_headers, read_context_from_headers, from_header_string.
  destruct (header_value headers) as [v|] eqn:Hv; [|done]. cbn [mbind outcome_bind].
  destruct (find_section v BUDGET_SECTION) as [payload|] eqn:Hf; [|done].
  cbn [expect_some mbind outcome_bind].
  assert (Forall is_byte payload) as Hby
    by (eapply find_section_Forall, Hf; by eapply header_value_bytes_ok).
  rewrite peek_priority_eq, decode_context_payload by done.
  destruct (decode_payload _) as [[[]|]|]; done.
Qed.
End header_laws.

(** The budget section behind whatever sections a header already holds. *)
Definition add_sections (prefix header : bytes) : bytes :=
  if decide (prefix = []) then header else prefix ++ [SECTION_SEPARATOR] ++ header.

Lemma add_sections_push prefix name payload :
  add_sections prefix (name ++ [NAME_SEPARATOR] ++ payload) = push_section prefix name payload.
Proof.
  unfold add_sections, push_section. case_decide; [by subst|]. by rewrite <-app_assoc.
Qed.

Section round_trip.
  Context {E : Base64Engine} {EL : Base64Laws E}.
  Context {B : Bincode ContextCompact} {CL : CompactLaws}.

Lemma to_header_string_eq ctx bs :
  serialize ctx = Ok bs →
  to_header_string ctx = Ret (BUDGET_SECTION ++ [NAME_SEPARATOR] ++ rfc4648_encode bs).
Proof.
  intros Hs. unfold to_header_string.
  rewrite (encode_payload_with_eq (BL:=context_bincode_laws)), Hs.
  rewrite from_utf8_ascii; [done|]. rewrite !Forall_app. split_and!; [decided|decided|].
  eapply rfc_ascii; [done|]. exact (serialize_bytes (W:=Context) ctx bs Hs).
Qed.

(** A context written with [to_header_string] is read back unchanged with
    [from_header_string], also behind any sections of other modules. *)
Theorem header_string_round_trip ctx prefix :
  compact_wf (compact_of_context ctx) →
  find_section prefix BUDGET_SECTION = None →
  ∃ header, to_header_string ctx = Ret header ∧
    from_header_string (add_sections prefix header) = Ret ctx.
Proof.
  intros Hwf Hp. destruct (compact_serialize (compact_of_context ctx) Hwf) as [bs Hs].
  eexists. split; [by apply to_header_string_eq|].
  assert (Forall is_byte bs) as Hby by exact (serialize_bytes (W:=Context) ctx bs Hs).
  rewrite add_sections_push. unfold from_header_string.
  rewrite find_section_push, Hp, decide_True; try done;
    try (split; decided).
  - cbn [expect_some mbind outcome_bind]. rewrite (decode_payload_rfc (W:=Context) ctx bs) by done.
    done.
  - by eapply rfc_no_separator.
Qed.
End round_trip.

(** ** A concrete [bincode] and header map *)

(** The encoder's form of a [u64]. *)
Definition write_varint (v : Z) : bytes :=
  if decide (v ≤ 250) then [v]
  else if decide (v < 2 ^ 16) then 251 :: to_le_bytes 2 v
  else if decide (v < 2 ^ 32) then 252 :: to_le_bytes 4 v
  else 253 :: to_le_bytes 8 v.

Lemma write_varint_ok v : is_u64 v → varint v (write_varint v) ∧ Forall is_byte (write_varint v).
Proof.
  unfold is_u64, u64_max. intros Hv. unfold write_varint.
  assert (∀ m n, 251 ≤ m < 254 → 0 ≤ v < 256 ^ Z.of_nat n →
    (m, n) ∈ [(251, 2%nat); (252, 4%nat); (253, 8%nat)] →
    varint v (m :: to_le_bytes n v) ∧ Forall is_byte (m :: to_le_bytes n v)) as Hm.
  { intros m n Hmr Hn Hin. split.
    - rewrite <-(from_to_le_bytes n v Hn) at 1. econstructor; [done|]. apply length_to_le_bytes.
    - constructor; [unfold is_byte; lia|apply to_le_bytes_bytes]. }
  repeat case_decide; try (apply Hm; [lia|simpl; lia|set_solver]).
  split; [apply varint_byte; lia|]. constructor; [unfold is_byte; lia|constructor].
Qed.

(** A [String]: its length and its bytes. *)
Definition string_wf (s : bytes) : Prop := utf8 s ∧ is_u64 (Z.of_nat (length s)) ∧ Forall is_byte s.

#[export] Instance string_wf_dec s : Decision (string_wf s).
Proof. unfold string_wf. apply _. Defined.

Definition write_string (s : bytes) : bytes := write_varint (Z.of_nat (length s)) ++ s.

Definition read_string (bs : bytes) : option (bytes * bytes) :=
  '(n, bs) ← read_varint bs; split_at_checked n bs.

Lemma read_write_string s rest :
  string_wf s → Forall is_byte (write_string s) ∧ read_string (write_string s ++ rest) = Some (s, rest).
Proof.
  intros (_ & Hl & Hb). destruct (write_varint_ok _ Hl) as [Hv Hvb]. unfold write_string, read_string.
  split; [by apply Forall_app|]. rewrite <-app_assoc, (read_varint_app _ _ _ Hv). cbn [mbind option_bind].
  apply split_at_checked_Some. rewrite length_app. split_and!; [done|lia|lia].
Qed.

Definition compact_encode (compact : ContextCompact) : bytes :=
  let '(Compact c0 c1 c2 c3 c4 c5) := compact in
  write_varint (Z.of_nat (length c0)) ++ c0
    ++ mjoin (write_varint <$> [c1; c2; c3; c4; prio_value c5]).

Definition compact_decode (bs : bytes) : option ContextCompact :=
  '(n0, r) ← read_varint bs;
  '(name, r) ← split_at_checked n0 r;
  '(v1, r) ← read_varint r;
  '(v2, r) ← read_varint r;
  '(v3, r) ← read_varint r;
  '(v4, r) ← read_varint r;
  '(v5, r) ← read_varint r;
  if decide (utf8 name ∧ r = []) then Some (Compact name v1 v2 v3 v4 (Hint v5)) else None.

Lemma compact_decode_fields name v1 v2 v3 v4 v5 b0 b1 b2 b3 b4 b5 :
  varint (Z.of_nat (length name)) b0 → utf8 name →
  varint v1 b1 → varint v2 b2 → varint v3 b3 → varint v4 b4 → varint v5 b5 →
  compact_decode (b0 ++ name ++ b1 ++ b2 ++ b3 ++ b4 ++ b5)
    = Some (Compact name v1 v2 v3 v4 (Hint v5)).
Proof.
  intros H0 Hu H1 H2 H3 H4 H5. unfold compact_decode.
  rewrite (read_varint_app _ _ _ H0). cbn [mbind option_bind].
  rewrite (proj2 (split_at_checked_Some _ _ name (b1 ++ b2 ++ b3 ++ b4 ++ b5)))
    by (rewrite length_app; split_and!; [done|lia|lia]).
  cbn [mbind option_bind]. rewrite <-(app_nil_r b5).
  rewrite (read_varint_app _ _ _ H1); cbn [mbind option_bind].
  rewrite (read_varint_app _ _ _ H2); cbn [mbind option_bind].
  rewrite (read_varint_app _ _ _ H3); cbn [mbind option_bind].
  rewrite (read_varint_app _ _ _ H4); cbn [mbind option_bind].
  rewrite (read_varint_app _ _ _ H5); cbn [mbind option_bind].
  by rewrite decide_True.
Qed.

Lemma compact_encode_decode compact :
  compact_wf compact →
  Forall is_byte (compact_encode compact) ∧ compact_decode (compact_encode compact) = Some compact.
Proof.
  destruct compact as [name v1 v2 v3 v4 [v5]]. intros (Hu & Hn & Hb & Hv).
  rewrite !Forall_cons in Hv. destruct Hv as (H1 & H2 & H3 & H4 & H5 & _).
  apply write_varint_ok in Hn as [? ?], H1 as [? ?], H2 as [? ?], H3 as [? ?], H4 as [? ?],
    H5 as [? ?].
  simpl. rewrite app_nil_r. split; [by rewrite !Forall_app|by apply compact_decode_fields].
Qed.

Definition reference_bincode : Bincode ContextCompact := {|
  serialize compact :=
    if decide (compact_wf compact) then Ok (compact_encode compact) else Err [];
  serialize_into compact cap :=
    if decide (compact_wf compact ∧ (length (compact_encode compact) ≤ cap)%nat)
    then Ok (compact_encode compact) else Err [];
  bincode_deserialize bs :=
    match compact_decode bs with
    | Some compact => Ok compact
    | None => Err (bytes_of_string "malformed")
    end;
|}.

Lemma reference_compact_laws : @CompactLaws reference_bincode.
Proof.
  split; [split|..]; simpl.
  - intros w bs. case_decide; [|done]. intros [= <-]. by apply compact_encode_decode.
  - intros w cap bs.
    destruct (decide (compact_wf w)), (decide (length (compact_encode w) ≤ cap)%nat);
      [rewrite decide_True by done|rewrite decide_False by tauto..]; naive_solver.
  - intros w bs. case_decide as Hwf; [|done]. intros [= <-].
    by destruct (compact_encode_decode w Hwf) as [_ ->].
  - intros compact bs _ Hw. destruct Hw. subst.
    erewrite compact_decode_fields; by eauto using utf8_ascii.
  - intros compact Hwf. rewrite decide_True by done. by eexists.
Qed.

Definition sample_context : Context :=
  MkContext (bytes_of_string "hotel.Search/Rpc") 7 100 1000 1100 (Hint 70000).

Lemma peek_priority_decodes_witness :
  @peek_priority reference_engine reference_bincode (bytes_of_string "AAECAwT7")
    = Ret (Err (bytes_of_string "bincode: malformed")).
Proof.
  rewrite (@peek_priority_decodes _ reference_laws _ reference_compact_laws);
    [by vm_compute|apply bytes_of_string_bytes].
Defined.

Lemma read_priority_reads_context_witness :
  let headers := [(bytes_of_string "ctx",
    bytes_of_string "a:AAAA.budget:EGhvdGVsLlNlYXJjaC9ScGMHZPvoA/tMBPxwEQEA")] in
  @read_priority_from_headers _ list_headers reference_engine reference_bincode headers
    = Ret (Hint 70000) ∧
  prio_hint <$> @read_context_from_headers _ list_headers reference_engine reference_bincode headers
    = Ret (Hint 70000).
Proof.
  intros headers. split; [|by vm_compute].
  rewrite (@read_priority_reads_context _ _ list_headers_laws _ reference_laws _
    reference_compact_laws). by vm_compute.
Defined.

Lemma header_string_round_trip_witness :
  ∃ header, @to_header_string reference_engine reference_bincode sample_context = Ret header ∧
    @from_header_string reference_engine reference_bincode
      (add_sections (bytes_of_string "a:AAAA.b") header) = Ret sample_context.
Proof.
  apply (@header_string_round_trip _ reference_laws _ reference_compact_laws); decided.
Defined.
