(* ===== verification/Codec.v ===== *)
(** [rpcstack]'s codec for the modules' wire data: libs/rpcstack/src/wire.rs.
    [WireIn] reads the sections of a message's [ctx] header, [WireOut] builds
    one in place. The abstract state of either is the ordered association list
    [sections header] of names and payloads. A module appears here as its
    section name and the [bincode] of its wire type. *)
From S2P Require Export Payload Http.

(** ** Errors and names *)

Record WireError := MkWireError { detail : bytes }.

(** [Display]. *)
Definition wire_error_text (self : WireError) : bytes :=
  bytes_of_string "invalid module wire data in header `ctx`; all binaries of a deployment must be built from the same policy stack: "
    ++ detail self.

Definition alphanumeric (b : Z) : Prop :=
  (48 ≤ b ≤ 57 ∨ 65 ≤ b ≤ 90 ∨ 97 ≤ b ≤ 122)%Z.

Definition valid_name (name : bytes) : Prop :=
  name ≠ [] ∧ Forall (λ b, alphanumeric b ∨ b = 95%Z ∨ b = 45%Z) name.

#[export] Instance valid_name_dec name : Decision (valid_name name).
Proof. unfold valid_name, alphanumeric. apply _. Defined.

Definition assert_valid_name (name : bytes) : outcome unit :=
  if decide (valid_name name) then Ret tt else Panic.

(** ** Reading: [WireIn] *)

(** A borrowed view of the header. *)
Record WireIn := MkWireIn { in_sections : bytes }.

Definition wire_in_default : WireIn := MkWireIn [].

Definition from_header_bytes (value : bytes) : result WireIn WireError :=
  result_map_err MkWireError (result_map MkWireIn (from_utf8 value)).

Definition from_headers {H} `{HttpHeaders H} (headers : H) : result WireIn WireError :=
  match header_get headers HEADER_NAME with
  | None => Ok wire_in_default
  | Some value => from_header_bytes value
  end.

Definition from_metadata {M} `{Metadata M} (metadata : M) : result WireIn WireError :=
  match meta_get metadata HEADER_NAME with
  | None => Ok wire_in_default
  | Some value => from_header_bytes value
  end.

Record EncodedSection := MkEncoded { encoded : bytes }.

(** [map_err(|err| WireError::new(format_args!("{name}: {err}")))]. *)
Definition named_error (name err : bytes) : WireError :=
  MkWireError (name ++ bytes_of_string ": " ++ err).

Section reading.
  Context {E : Base64Engine} {W : Type} {B : Bincode W}.

Definition decode_present (self : WireIn) (name : bytes)
    : outcome (result (option W) WireError) :=
  match find_section (in_sections self) name with
  | None => Ret (Ok None)
  | Some payload =>
      wire ← decode_payload payload;
      Ret (result_map_err (named_error name) (result_map Some wire))
  end.

(** [get::<M>] of the module called [name]. *)
Definition get (self : WireIn) (name : bytes) : outcome (result (option W) WireError) :=
  decode_present self name.

Definition get_with_encoded (self : WireIn) (name : bytes)
    : outcome (result (option (W * EncodedSection)) WireError) :=
  match find_section (in_sections self) name with
  | None => Ret (Ok None)
  | Some payload =>
      wire ← decode_payload payload;
      Ret (result_map_err (named_error name)
             (result_map (λ wire, Some (wire, MkEncoded payload)) wire))
  end.
End reading.

(** ** Writing: [WireOut] *)

Record WireOut := MkWireOut { header : bytes }.

Definition wire_out_new : WireOut := MkWireOut [].

Definition out_from_metadata {M} `{Metadata M} (metadata : M) : result WireOut WireError :=
  result_map (λ input, MkWireOut (in_sections input)) (from_metadata metadata).

(** The loop of [find] over the pieces of the header. *)
Fixpoint find_loop (pieces : list bytes) (start : nat) (name : bytes) : option (nat * nat) :=
  match pieces with
  | [] => None
  | section :: pieces =>
      let end_ := start + length section in
      if decide (head (split NAME_SEPARATOR section) = Some name)
      then Some (start, end_)
      else find_loop pieces (end_ + 1) name
  end.

Definition find (self : WireOut) (name : bytes) : option (nat * nat) :=
  find_loop (split SECTION_SEPARATOR (header self)) 0 name.

Definition set (self : WireOut) (name payload : bytes) : WireOut :=
  match find self name with
  | Some (start, end_) =>
      let section := name ++ [NAME_SEPARATOR] ++ payload in
      MkWireOut (take start (header self) ++ section ++ drop end_ (header self))
  | None =>
      MkWireOut
        ((if decide (header self = []) then header self
          else header self ++ [SECTION_SEPARATOR]) ++ name ++ [NAME_SEPARATOR] ++ payload)
  end.

Definition header_value_of (self : WireOut) : outcome bytes := expect (from_utf8 (header self)).

Definition install {M} `{Metadata M} (self : WireOut) (metadata : M) : outcome M :=
  if decide (header self = []) then Ret (meta_remove metadata HEADER_NAME)
  else value ← expect (ascii_value (header self));
       Ret (meta_insert metadata HEADER_NAME value).

Definition put_encoded (self : WireOut) (name : bytes) (payload : EncodedSection) : WireOut :=
  set self name (encoded payload).

Section writing.
  Context {E : Base64Engine} {W : Type} {B : Bincode W}.

Definition put_named (self : WireOut) (name : bytes) (wire : W)
    : outcome (result WireOut WireError) :=
  result_map_err (named_error name)
    <$> encode_payload_with wire (λ payload, Ret (set self name payload)).

Definition put (self : WireOut) (name : bytes) (wire : W) : outcome (result WireOut WireError) :=
  put_named self name wire.

(** ** Messages *)

Definition peek {H} `{HttpHeaders H} (headers : H) (name : bytes)
    : outcome (result (option W) WireError) :=
  match from_headers headers with
  | Err err => Ret (Err err)
  | Ok input => get input name
  end.

Definition get_from_metadata {M} `{Metadata M} (metadata : M) (name : bytes)
    : outcome (result (option W) WireError) :=
  match from_metadata metadata with
  | Err err => Ret (Err err)
  | Ok input => get input name
  end.

Definition set_in_metadata {M} `{Metadata M} (metadata : M) (name : bytes) (wire : W)
    : outcome (result M WireError) :=
  match out_from_metadata metadata with
  | Err err => Ret (Err err)
  | Ok out =>
      r ← put out name wire;
      match r with
      | Err err => Ret (Err err)
      | Ok out => Ok <$> install out metadata
      end
  end.

Definition header_value_with (name : bytes) (wire : W) : outcome (result bytes WireError) :=
  r ← put wire_out_new name wire;
  match r with
  | Err err => Ret (Err err)
  | Ok out => Ok <$> header_value_of out
  end.
End writing.

(** ** The abstract sections *)

(** The specification of [set]: replace the first pair of that name where it
    stands, else append one. *)
Fixpoint set_section (name payload : bytes) (l : list (bytes * bytes)) : list (bytes * bytes) :=
  match l with
  | [] => [(name, payload)]
  | (n, p) :: l =>
      if decide (n = name) then (name, payload) :: l
      else (n, p) :: set_section name payload l
  end.

Lemma valid_name_no_separator name : valid_name name → name ≠ [] ∧ no_separator name.
Proof.
  intros [Hne Hn]. rewrite Forall_forall in Hn. split; [done|].
  split; intros Hin%Hn; unfold alphanumeric, SECTION_SEPARATOR, NAME_SEPARATOR in Hin; lia.
Qed.

(** A section as the pair [sections] makes of it. *)
Definition section_pair (s : bytes) : bytes * bytes :=
  default (s, []) (split_once NAME_SEPARATOR s).

Lemma section_pair_of name payload :
  NAME_SEPARATOR ∉ name → section_pair (section_of name payload) = (name, payload).
Proof. intros H. unfold section_pair, section_of. by rewrite split_once_app. Qed.

Lemma head_split_pair s : head (split NAME_SEPARATOR s) = Some (section_pair s).1.
Proof.
  rewrite split_unfold. unfold section_pair, split_once.
  by destruct (position NAME_SEPARATOR s).
Qed.

(** What [find] finds among the pieces, by position. *)
Lemma find_loop_Some pieces start name i j :
  find_loop pieces start name = Some (i, j) →
  ∃ pre s post, pieces = pre ++ s :: post ∧ (section_pair s).1 = name ∧
    Forall (λ s, (section_pair s).1 ≠ name) pre ∧
    i = start + length (terminated SECTION_SEPARATOR pre) ∧
    j = i + length s.
Proof.
  revert start; induction pieces as [|s pieces IH]; intros start; simpl; [done|].
  rewrite head_split_pair. case_decide as Hs.
  - intros [= <- <-]. exists [], s, pieces. injection Hs as Hs. simpl.
    split_and!; [done..|constructor|lia|lia].
  - intros (pre & s' & post & -> & Hn & Hpre & Hi & Hj)%IH.
    exists (s :: pre), s', post. split_and!; try done.
    + constructor; [congruence|done].
    + simpl. rewrite length_app. simpl. lia.
Qed.

Lemma find_loop_None pieces start name :
  find_loop pieces start name = None → Forall (λ s, (section_pair s).1 ≠ name) pieces.
Proof.
  revert start; induction pieces as [|s pieces IH]; intros start; simpl; [constructor|].
  rewrite head_split_pair. case_decide; [done|]. intros Hrec%IH. constructor; [congruence|done].
Qed.

Lemma set_section_app name payload pre s post :
  NAME_SEPARATOR ∉ name →
  Forall (λ s, (section_pair s).1 ≠ name) pre → (section_pair s).1 = name →
  set_section name payload (section_pair <$> pre ++ s :: post)
    = section_pair <$> pre ++ section_of name payload :: post.
Proof.
  intros Hn Hpre Hs. induction Hpre as [|p pre Hp _ IH].
  - cbn. rewrite section_pair_of by done. destruct (section_pair s) as [n q].
    simpl in Hs. by rewrite decide_True.
  - cbn. destruct (section_pair p) as [n q] eqn:E. simpl in Hp. rewrite decide_False by done.
    f_equal. apply IH.
Qed.

Lemma set_section_notin name payload l :
  Forall (λ s, (section_pair s).1 ≠ name) l →
  set_section name payload (section_pair <$> l) = (section_pair <$> l) ++ [(name, payload)].
Proof.
  induction 1 as [|s l Hs _ IH]; [done|]. cbn.
  destruct (section_pair s) as [n q]. simpl in Hs. rewrite decide_False by done. by f_equal.
Qed.

Lemma sections_pairs h :
  sections h = section_pair <$> filter (λ s, s ≠ []) (split SECTION_SEPARATOR h).
Proof. done. Qed.

Lemma filter_nonempty_id l : Forall (λ s : bytes, s ≠ []) l → filter (λ s : bytes, s ≠ []) l = l.
Proof. induction 1; [done|]. rewrite filter_cons_True by done. by f_equal. Qed.

Lemma section_of_no_separator name payload :
  SECTION_SEPARATOR ∉ name → SECTION_SEPARATOR ∉ payload →
  SECTION_SEPARATOR ∉ section_of name payload.
Proof. intros ??. unfold section_of. rewrite not_elem_of_app, not_elem_of_cons. done. Qed.

(** [set] on any header implements [set_section] on its sections. *)
Lemma set_sections_eq self name payload :
  valid_name name → SECTION_SEPARATOR ∉ payload →
  sections (header (set self name payload)) = set_section name payload (sections (header self)).
Proof.
  intros [Hne [Hd Hc]]%valid_name_no_separator Hp. destruct self as [h].
  unfold set, find. cbn [header].
  pose proof (section_of_no_separator name payload Hd Hp) as Hs.
  destruct (find_loop _ 0 name) as [[i j]|] eqn:Hf; cbn [header].
  - apply find_loop_Some in Hf as (pre & s & post & Hsplit & Hn & Hpre & -> & ->).
    pose proof (split_pieces_notin SECTION_SEPARATOR h) as Hall. rewrite Hsplit in Hall.
    rewrite <-(join_split SECTION_SEPARATOR h), Hsplit, Nat.add_0_l, join_replace.
    change (name ++ [NAME_SEPARATOR] ++ payload) with (section_of name payload).
    rewrite Forall_app, Forall_cons in Hall. destruct Hall as (Ha & Hss & Hb).
    rewrite !sections_pairs, !split_join; try (by destruct pre);
      try (rewrite Forall_app, Forall_cons; done).
    rewrite !filter_app, !filter_cons_True.
    + symmetry. apply set_section_app; [done| |done].
      rewrite Forall_forall in Hpre |- *. intros x [_ Hx]%list_elem_of_filter. by apply Hpre.
    + intros ->. by apply Hne.
    + intros Hnil%(f_equal length). unfold section_of in Hnil.
      rewrite length_app in Hnil. simpl in Hnil. lia.
  - apply find_loop_None in Hf.
    assert (section_of name payload ≠ []) as Hso by (by destruct name).
    assert (Forall (λ s, (section_pair s).1 ≠ name)
      (filter (λ s, s ≠ []) (split SECTION_SEPARATOR h))) as Hf'.
    { rewrite Forall_forall in Hf |- *. intros x [_ Hx]%list_elem_of_filter. by apply Hf. }
    rewrite (sections_pairs h), set_section_notin by done. rewrite sections_pairs.
    change (name ++ [NAME_SEPARATOR] ++ payload) with (section_of name payload).
    case_decide as Hh.
    + subst. simpl. rewrite split_notin, filter_cons_True by done. cbn.
      by rewrite section_pair_of.
    + rewrite <-app_assoc. cbn [app].
      rewrite <-(join_split SECTION_SEPARATOR h) at 1.
      rewrite <-(join_app _ _ [section_of name payload]) by eauto with masa.
      rewrite split_join; [|by destruct (split _ _)|
        apply Forall_app; split; [eauto with masa|by constructor]].
      rewrite filter_app, fmap_app, filter_cons_True by done. cbn. by rewrite section_pair_of.
Qed.

Lemma lookup_set_section name payload l n :
  lookup_section n (set_section name payload l)
    = if decide (name = n) then Some payload else lookup_section n l.
Proof.
  unfold lookup_section.
  induction l as [|[m p] l IH]; cbn; [by destruct (decide (name = n))|].
  destruct (decide (m = name)) as [->|Hm]; cbn; [by destruct (decide (name = n))|].
  rewrite IH. destruct (decide (m = n)), (decide (name = n)); congruence.
Qed.

(** What [find_section] finds after [set], for any header. *)
Lemma find_section_set self name payload n :
  valid_name name → valid_name n → SECTION_SEPARATOR ∉ payload →
  find_section (header (set self name payload)) n
    = if decide (name = n) then Some payload else find_section (header self) n.
Proof.
  intros Hname [Hne [Hd Hc]]%valid_name_no_separator Hp.
  by rewrite !find_section_pairs, set_sections_eq, lookup_set_section by done.
Qed.

Lemma set_Forall (P : Z → Prop) self name payload :
  Forall P (header self) → Forall P name → Forall P payload →
  P SECTION_SEPARATOR → P NAME_SEPARATOR → Forall P (header (set self name payload)).
Proof.
  intros Hh Hn Hp Hs Hc. unfold set.
  destruct (find self name) as [[i j]|]; cbn [header]; rewrite !Forall_app, Forall_singleton.
  - auto using Forall_take, Forall_drop.
  - case_decide; [auto|]. rewrite Forall_app, Forall_singleton. auto.
Qed.

Lemma section_of_ascii name payload :
  Forall is_ascii name → Forall is_ascii payload → utf8 (section_of name payload).
Proof.
  intros Hn Hp. apply utf8_ascii. unfold section_of. rewrite Forall_app, Forall_cons.
  split_and!; [done|decided|done].
Qed.

Lemma set_utf8 self name payload :
  utf8 (header self) → Forall is_ascii name → Forall is_ascii payload →
  utf8 (header (set self name payload)).
Proof.
  intros Hh Hn Hp. pose proof (section_of_ascii name payload Hn Hp) as Hs.
  assert (is_ascii SECTION_SEPARATOR) as Hdot by decided.
  destruct self as [h]. unfold set, find. cbn [header] in *.
  destruct (find_loop _ 0 name) as [[i j]|] eqn:Hf; cbn [header].
  - apply find_loop_Some in Hf as (pre & s & post & Hsplit & _ & _ & -> & ->).
    assert (h = join SECTION_SEPARATOR (pre ++ s :: post)) as -> by (by rewrite <-Hsplit, join_split).
    rewrite Nat.add_0_l, join_replace. rewrite !utf8_join, !Forall_app, !Forall_cons in * by done. tauto.
  - change (name ++ [NAME_SEPARATOR] ++ payload) with (section_of name payload).
    case_decide; [by subst|]. rewrite <-app_assoc. cbn [app].
    rewrite (utf8_split (length h)) by done. by rewrite andb_True.
Qed.

Lemma valid_name_Forall (P : Z → Prop) name :
  (∀ b, (45 ≤ b ≤ 122)%Z → P b) → valid_name name → Forall P name.
Proof.
  intros HP [_ Hn]. eapply Forall_impl; [done|]. intros b Hb. apply HP.
  unfold alphanumeric in Hb. lia.
Qed.

Lemma symbol_visible v : sextet v → header_byte (symbol v).
Proof.
  intros Hv.
  assert (Forall (λ v, header_byte (symbol (Z.of_nat v))) (seq 0 64)) as H by decided.
  rewrite Forall_forall in H. rewrite <-(Z2Nat.id v) by apply Hv. apply H, elem_of_seq.
  unfold sextet in Hv. lia.
Qed.

Section codec_laws.
  Context {E : Base64Engine} {EL : Base64Laws E}.

(** A payload that [put] writes. *)
Definition good_payload (payload : bytes) : Prop :=
  SECTION_SEPARATOR ∉ payload ∧ Forall is_ascii payload ∧ Forall header_byte payload.

Lemma rfc_good bs : Forall is_byte bs → good_payload (rfc4648_encode bs).
Proof.
  intros Hby. split_and!.
  - by apply (rfc_no_separator _ _ (le_n _) Hby).
  - by eapply rfc_ascii.
  - by eapply rfc_Forall; [apply symbol_visible|decided|..].
Qed.

Lemma put_eq `{BincodeLaws W} self name (wire : W) bs :
  serialize wire = Ok bs → put self name wire = Ret (Ok (set self name (rfc4648_encode bs))).
Proof. intros Hs. unfold put, put_named. by rewrite encode_payload_with_eq, Hs. Qed.

Lemma put_ok `{BincodeLaws W} self name (wire : W) out :
  put self name wire = Ret (Ok out) → ∃ bs, serialize wire = Ok bs ∧ out = set self name (rfc4648_encode bs).
Proof.
  unfold put, put_named. rewrite encode_payload_with_eq. destruct (serialize wire) as [bs|err]; [|done].
  intros [= <-]. by exists bs.
Qed.

Lemma get_set `{BincodeLaws W} self name (wire : W) bs :
  valid_name name → serialize wire = Ok bs →
  get (MkWireIn (header (set self name (rfc4648_encode bs)))) name = Ret (Ok (Some wire)).
Proof.
  intros Hn Hs. unfold get, decode_present. cbn [in_sections].
  assert (Forall is_byte bs) as Hby by (by eapply serialize_bytes).
  rewrite find_section_set, decide_True by (try apply (rfc_good bs Hby); done).
  by rewrite (decode_payload_rfc wire bs).
Qed.

Lemma get_set_other `{Bincode W} self name payload other :
  valid_name name → valid_name other → other ≠ name → SECTION_SEPARATOR ∉ payload →
  get (W:=W) (MkWireIn (header (set self name payload))) other
    = get (MkWireIn (header self)) other.
Proof.
  intros Hn Ho Hne Hp. unfold get, decode_present. cbn [in_sections].
  by rewrite find_section_set, decide_False.
Qed.
End codec_laws.

(** C19: whatever the header holds, [set] replaces the module's section where
    it stands, or appends it, and keeps every other section, in order: on the
    header's sections it is [set_section]. *)
Theorem set_refines self name payload :
  valid_name name → SECTION_SEPARATOR ∉ payload →
  sections (header (set self name payload)) = set_section name payload (sections (header self)).
Proof. apply set_sections_eq. Qed.

Lemma set_refines_witness :
  sections (header (set (MkWireOut (bytes_of_string "a:1.b:22..c")) (bytes_of_string "b")
    (bytes_of_string "Bw==")))
  = [(bytes_of_string "a", bytes_of_string "1"); (bytes_of_string "b", bytes_of_string "Bw==");
     (bytes_of_string "c", [])].
Proof. rewrite set_refines; [by vm_compute|decided..]. Defined.

Section metadata_laws.
  Context {E : Base64Engine} {EL : Base64Laws E}.
  Context {M : Type} {MD : Metadata M} {ML : MetadataLaws M}.

Lemma from_metadata_Ok (md : M) input :
  from_metadata md = Ok input →
  utf8 (in_sections input) ∧ Forall header_byte (in_sections input).
Proof.
  unfold from_metadata. destruct (meta_get md HEADER_NAME) as [v|] eqn:Hg.
  - unfold from_header_bytes, from_utf8. destruct (utf8 v) eqn:Hu; [|done].
    intros [= <-]. cbn. split; [by apply Is_true_true|]. by eapply meta_value_bytes.
  - intros [= <-]. split; [done|constructor].
Qed.

Lemma install_from_metadata (md : M) out :
  header out ≠ [] → utf8 (header out) → Forall header_byte (header out) →
  ∃ md', install out md = Ret md' ∧ from_metadata md' = Ok (MkWireIn (header out)).
Proof.
  intros Hne Hu Hb. unfold install. rewrite decide_False by done.
  rewrite ascii_value_law by done. eexists. split; [done|].
  unfold from_metadata. rewrite meta_get_insert by done.
  unfold from_header_bytes, from_utf8. by destruct (utf8 (header out)).
Qed.

(** Writing a module's wire data into a message's metadata never panics;
    the message then carries that value for the module, and for every other
    module exactly what it carried before. *)
Theorem set_in_metadata_get `{BincodeLaws W} (md : M) input name (wire : W) bs :
  valid_name name → from_metadata md = Ok input → serialize wire = Ok bs →
  ∃ md', set_in_metadata md name wire = Ret (Ok md') ∧
    get_from_metadata md' name = Ret (Ok (Some wire)) ∧
    ∀ W' (B' : Bincode W') other, valid_name other → other ≠ name →
      get_from_metadata (W:=W') md' other = get_from_metadata md other.
Proof.
  intros Hn Hmd Hs. assert (Forall is_byte bs) as Hby by (by eapply serialize_bytes).
  destruct (rfc_good bs Hby) as (Hdot & Hasc & Hvis).
  destruct (from_metadata_Ok md input Hmd) as [Hu Hb].
  set (out := set (MkWireOut (in_sections input)) name (rfc4648_encode bs)).
  destruct (install_from_metadata md out) as (md' & Hi & Hfrom).
  { intros Hnil. pose proof (find_section_set (MkWireOut (in_sections input)) name _ name Hn Hn Hdot)
      as Hf. fold out in Hf. rewrite Hnil, decide_True, find_section_nil in Hf by (done || apply Hn).
    done. }
  { apply set_utf8; [done| |done]. eapply valid_name_Forall; [|done]. unfold is_ascii. lia. }
  { apply set_Forall; [done| |done|decided..]. eapply valid_name_Forall; [|done].
    unfold header_byte. lia. }
  exists md'. unfold set_in_metadata, out_from_metadata, get_from_metadata. rewrite Hmd, Hfrom.
  cbn [result_map]. rewrite put_eq with (bs := bs) by done. fold out.
  cbn [mbind outcome_bind]. rewrite Hi. split_and!; [done|by apply get_set|].
  intros W' B' other Ho Hne. unfold out. rewrite get_set_other by done. by destruct input.
Qed.
End metadata_laws.

Lemma set_in_metadata_get_witness :
  let md := [(HEADER_NAME, bytes_of_string "other:Bw==.count:Cg==")] in
  ∃ md', @set_in_metadata reference_engine Z u8_bincode _ list_metadata
      md (bytes_of_string "count") 7%Z = Ret (Ok md') ∧
    @get_from_metadata reference_engine Z u8_bincode _ list_metadata md' (bytes_of_string "count")
      = Ret (Ok (Some 7%Z)) ∧
    @get_from_metadata reference_engine Z u8_bincode _ list_metadata md' (bytes_of_string "other")
      = Ret (Ok (Some 7%Z)).
Proof.
  intros md.
  destruct (@set_in_metadata_get _ reference_laws _ list_metadata list_metadata_laws
    Z u8_bincode u8_laws md (MkWireIn (bytes_of_string "other:Bw==.count:Cg=="))
    (bytes_of_string "count") 7%Z [7%Z]) as (md' & Hs & Hg & Ho);
    [decided|by vm_compute|by vm_compute|].
  exists md'. split; [done|split; [done|]].
  rewrite Ho by decided. by vm_compute.
Defined.
