(* ===== verification/Extensions.v ===== *)
(** [rpcstack]'s typed maps: libs/rpcstack/src/extensions.rs. Values are keyed by
    their type; a decision point collects the modules' proposals until its owner
    resolves them. Types are codes ([TypeId]) with their values given by a
    family, so a stored value is a dependent pair and a downcast compares codes. *)
From S2P Require Export Prelude Bytes.

(** ** Decisions *)

Record Proposal (T : Type) := MkProposal { proposal_by : bytes; proposal_value : T }.
Arguments MkProposal {T} _ _.
Arguments proposal_by {T} _.
Arguments proposal_value {T} _.

Record Decision' (T : Type) := MkDecision {
  decision_proposals : list (Proposal T);
  resolved_by : option bytes;
}.
Arguments MkDecision {T} _ _.
Arguments decision_proposals {T} _.
Arguments resolved_by {T} _.

Record DecisionClosed := MkClosed { decision : bytes; proposer : bytes; resolver : bytes }.

(** What the [Status] of a closed decision says. *)
Definition closed_text (self : DecisionClosed) : bytes :=
  bytes_of_string "module `" ++ proposer self ++ bytes_of_string "` proposed a `" ++ decision self
    ++ bytes_of_string "` after module `" ++ resolver self
    ++ bytes_of_string ("` had resolved it; proposals must be made before the owner's `seal_child_rpc`, " ++
         "which runs in reverse stack order, so a proposer must come after its owner in the stack").

Section extensions.
  Context {TypeId : Type} `{EqDecision TypeId} (value : TypeId → Type) (type_name : TypeId → bytes).

(** The keys a map can hold: a type [T], or the private [Decision<T>]. *)
Inductive key :=
| Plain (t : TypeId)
| DecisionOf (t : TypeId).

#[export] Instance key_eq_dec : EqDecision key.
Proof. solve_decision. Defined.

Definition val (k : key) : Type :=
  match k with Plain t => value t | DecisionOf t => Decision' (value t) end.

(** A [Box<dyn Any>] with its [TypeId]. *)
Notation entry := (sigT val).

Definition downcast (k : key) (e : entry) : option (val k) :=
  match decide (projT1 e = k) with
  | left E => Some (eq_rect _ val (projT2 e) _ E)
  | right _ => None
  end.

Record Extensions := MkExtensions { values : list entry; module : bytes }.

Definition new : Extensions := MkExtensions [] [].

Definition position (self : Extensions) (k : key) : option nat :=
  fst <$> list_find (λ e, projT1 e = k) (values self).

Definition insert (self : Extensions) (k : key) (v : val k) : Extensions * option (val k) :=
  match position self k with
  | Some at_ =>
      (MkExtensions (<[at_ := existT k v]> (values self)) (module self),
       old ← values self !! at_; downcast k old)
  | None => (MkExtensions (values self ++ [existT k v]) (module self), None)
  end.

Definition get (self : Extensions) (k : key) : option (val k) :=
  at_ ← position self k; e ← values self !! at_; downcast k e.

(** What a caller does through [get_mut]. *)
Definition update (self : Extensions) (k : key) (f : val k → val k) : Extensions :=
  match at_ ← position self k; e ← values self !! at_; v ← downcast k e; Some (at_, v) with
  | Some (at_, v) => MkExtensions (<[at_ := existT k (f v)]> (values self)) (module self)
  | None => self
  end.

(** [swap_remove]: the last element takes the removed one's place. *)
Definition swap_remove (l : list entry) (at_ : nat) : list entry :=
  match last l with
  | Some e => take (length l - 1) (<[at_ := e]> l)
  | None => l
  end.

Definition remove (self : Extensions) (k : key) : Extensions * option (val k) :=
  match position self k with
  | Some at_ =>
      (MkExtensions (swap_remove (values self) at_) (module self),
       old ← values self !! at_; downcast k old)
  | None => (self, None)
  end.

Definition set_module (self : Extensions) (m : bytes) : Extensions :=
  MkExtensions (values self) m.

Definition propose (self : Extensions) (t : TypeId) (v : value t)
    : Extensions * result unit DecisionClosed :=
  let by_ := module self in
  match get self (DecisionOf t) with
  | Some (MkDecision _ (Some resolver)) =>
      (self, Err (MkClosed (type_name t) by_ resolver))
  | Some _ =>
      (update self (DecisionOf t)
         (λ d, MkDecision (decision_proposals d ++ [MkProposal by_ v]) (resolved_by d)), Ok tt)
  | None =>
      ((insert self (DecisionOf t) (MkDecision [MkProposal by_ v] None)).1, Ok tt)
  end.

Definition proposals (self : Extensions) (t : TypeId) : list (Proposal (value t)) :=
  match get self (DecisionOf t) with Some d => decision_proposals d | None => [] end.

Definition resolve (self : Extensions) (t : TypeId) : Extensions * list (Proposal (value t)) :=
  let by_ := module self in
  match get self (DecisionOf t) with
  | Some d => (update self (DecisionOf t) (λ _, MkDecision [] (Some by_)), decision_proposals d)
  | None => ((insert self (DecisionOf t) (MkDecision [] (Some by_))).1, [])
  end.

(** ** The list is a map *)

Definition keys (self : Extensions) : list key := (λ e : entry, projT1 e) <$> values self.

(** Each type at most once. *)
Definition ext_wf (self : Extensions) : Prop := NoDup (keys self).

Lemma downcast_refl k v : downcast k (existT k v) = Some v.
Proof.
  unfold downcast. cbn [projT1]. destruct (decide (k = k)) as [E|]; [|done].
  by rewrite (proof_irrel E eq_refl).
Qed.

Lemma downcast_ne k k' v : k' ≠ k → downcast k (existT k' v) = None.
Proof. intros H. unfold downcast. cbn [projT1]. by destruct (decide (k' = k)). Qed.

Lemma downcast_Some k e v : downcast k e = Some v ↔ e = existT k v.
Proof.
  split; [|intros ->; apply downcast_refl]. destruct e as [k' w].
  destruct (decide (k' = k)) as [->|Hne].
  - rewrite downcast_refl. by intros [= ->].
  - by rewrite downcast_ne.
Qed.

Lemma position_lookup self k at_ :
  position self k = Some at_ →
  ∃ v, values self !! at_ = Some (existT k v) ∧ ∀ j e, j < at_ → values self !! j = Some e → projT1 e ≠ k.
Proof.
  unfold position. destruct (list_find _ _) as [[i e]|] eqn:E; [|done]. intros [= <-].
  apply list_find_Some in E as (Hl & Hk & Hj). destruct e as [k' v]. simpl in Hk. subst. exists v. split; [done|].
  intros j e Hji Hje. by eapply Hj.
Qed.

Lemma get_elem self k v :
  ext_wf self → get self k = Some v ↔ existT k v ∈ values self.
Proof.
  intros Hwf. unfold get. split.
  - intros (at_ & _ & (e & He & ->%downcast_Some)%bind_Some)%bind_Some.
    by eapply list_elem_of_lookup_2.
  - intros Hin. destruct (position self k) as [at_|] eqn:Hp; cbn [mbind option_bind].
    + destruct (position_lookup self k at_ Hp) as (w & Hw & _). rewrite Hw. cbn.
      apply list_elem_of_lookup in Hin as [i Hi].
      assert (i = at_) as ->.
      { apply (NoDup_lookup (keys self) i at_ k Hwf); unfold keys; rewrite list_lookup_fmap;
          [by rewrite Hi|by rewrite Hw]. }
      apply downcast_Some. congruence.
    + exfalso. unfold position in Hp. apply fmap_None, list_find_None in Hp.
      rewrite Forall_forall in Hp. by apply (Hp _ Hin).
Qed.

Lemma get_None self k : ext_wf self → get self k = None ↔ k ∉ keys self.
Proof.
  intros Hwf. split.
  - intros Hg Hin. apply list_elem_of_fmap in Hin as ([k' v] & -> & Hin).
    simpl in Hg. apply (get_elem self k' v Hwf) in Hin. congruence.
  - intros Hn. destruct (get self k) as [v|] eqn:Hg; [|done].
    apply get_elem in Hg; [|done]. exfalso. apply Hn. unfold keys.
    apply list_elem_of_fmap. by exists (existT k v).
Qed.

Lemma get_position self k : get self k = None ↔ position self k = None.
Proof.
  unfold get. destruct (position self k) as [at_|] eqn:Hp; [|done].
  destruct (position_lookup self k at_ Hp) as (v & Hv & _). cbn [mbind option_bind].
  rewrite Hv. cbn [mbind option_bind]. by rewrite downcast_refl.
Qed.
(** The entry [position] finds, between those before and behind it. *)
Lemma position_split self k at_ :
  position self k = Some at_ →
  ∃ pre v post, values self = pre ++ existT k v :: post ∧ length pre = at_ ∧
    (e ← values self !! at_; downcast k e) = Some v ∧ get self k = Some v.
Proof.
  intros Hp. destruct (position_lookup self k at_ Hp) as (v & Hv & _).
  exists (take at_ (values self)), v, (drop (S at_) (values self)). split_and!.
  - by rewrite take_drop_middle.
  - apply lookup_lt_Some in Hv. rewrite length_take. lia.
  - rewrite Hv. apply downcast_refl.
  - unfold get. rewrite Hp. cbn [mbind option_bind]. rewrite Hv. apply downcast_refl.
Qed.

Lemma insert_middle (pre post : list entry) e e' :
  <[length pre := e']> (pre ++ e :: post) = pre ++ e' :: post.
Proof. induction pre as [|p pre IH]; [done|]. cbn. by f_equal. Qed.

Lemma swap_remove_perm (pre post : list entry) e :
  swap_remove (pre ++ e :: post) (length pre) ≡ₚ pre ++ post.
Proof.
  unfold swap_remove. destruct post as [|z post _] using rev_ind.
  - rewrite last_snoc, insert_middle, length_app, Nat.add_sub, take_app_length, app_nil_r. done.
  - assert (∀ y : entry, pre ++ y :: post ++ [z] = (pre ++ y :: post) ++ [z]) as Hz
      by (intros y; by rewrite <-app_assoc).
    assert (last (pre ++ e :: post ++ [z]) = Some z) as -> by (by rewrite Hz, last_snoc).
    rewrite insert_middle, !Hz, length_app, Nat.add_sub.
    rewrite take_app_length' by (rewrite !length_app; simpl; lia).
    rewrite <-Permutation_middle. rewrite app_assoc. apply Permutation_cons_append.
Qed.

Lemma get_agree a b k :
  ext_wf a → ext_wf b →
  (∀ v, existT k v ∈ values a ↔ existT k v ∈ values b) → get a k = get b k.
Proof.
  intros Ha Hb Hv. apply option_eq. intros v. by rewrite !get_elem, Hv by done.
Qed.

(** An operation that leaves the other keys' entries alone. *)
Definition same_elsewhere (a b : Extensions) (k : key) : Prop :=
  module b = module a ∧ ∀ k', k' ≠ k → get b k' = get a k'.

Lemma replace_spec self k v m pre w post :
  ext_wf self → values self = pre ++ existT k w :: post →
  let b := MkExtensions (pre ++ existT k v :: post) m in
  ext_wf b ∧ get b k = Some v ∧ ∀ k', k' ≠ k → get b k' = get self k'.
Proof.
  intros Hwf Hl b. assert (keys b = keys self) as Hk
    by (unfold keys; rewrite Hl; simpl; by rewrite !fmap_app).
  assert (ext_wf b) as Hb by (unfold ext_wf; by rewrite Hk).
  split; [done|]. split.
  - apply get_elem; [done|]. simpl. set_solver.
  - intros k' Hne. apply get_agree; [done..|]. intros u. rewrite Hl. simpl.
    rewrite !elem_of_app, !elem_of_cons.
    assert (∀ x : val k, existT k' u ≠ existT k x) as Hx.
    { intros x Hx. by apply (f_equal (@projT1 _ _)) in Hx. }
    naive_solver.
Qed.

Lemma insert_spec self k v :
  ext_wf self →
  let r := insert self k v in
  ext_wf r.1 ∧ r.2 = get self k ∧ get r.1 k = Some v ∧ same_elsewhere self r.1 k.
Proof.
  intros Hwf. unfold insert. destruct (position self k) as [at_|] eqn:Hp; cbn [fst snd].
  - destruct (position_split self k at_ Hp) as (pre & w & post & Hl & <- & Hd & Hg).
    rewrite Hd, Hg, Hl, insert_middle.
    destruct (replace_spec self k v (module self) pre w post Hwf Hl) as (Hb & Hk & Ho).
    by split_and!.
  - apply get_position in Hp. rewrite Hp. set (b := MkExtensions _ _).
    pose proof (proj1 (get_None self k Hwf) Hp) as Hn.
    assert (ext_wf b) as Hb.
    { unfold ext_wf, keys, b. cbn [values]. rewrite fmap_app. apply NoDup_app.
      split_and!; [done| |repeat constructor; set_solver].
      intros x Hx Hin. apply list_elem_of_singleton in Hin. by subst. }
    split_and!; [done|done| |split; [done|]].
    + apply get_elem; [done|]. simpl. set_solver.
    + intros k' Hne. apply get_agree; [done..|]. intros u. simpl.
      rewrite elem_of_app, list_elem_of_singleton. split; [|by left].
      intros [?|Hx%(f_equal (@projT1 _ _))]; done.
Qed.

Lemma update_spec self k f v :
  ext_wf self → get self k = Some v →
  let b := update self k f in
  ext_wf b ∧ get b k = Some (f v) ∧ same_elsewhere self b k.
Proof.
  intros Hwf Hget. unfold update. destruct (position self k) as [at_|] eqn:Hp.
  2: { apply get_position in Hp. congruence. }
  destruct (position_split self k at_ Hp) as (pre & w & post & Hl & <- & Hd & Hg).
  rewrite Hg in Hget. injection Hget as ->. cbn [mbind option_bind] in *.
  destruct (values self !! length pre) as [e|]; [|done].
  cbn [mbind option_bind] in *. rewrite Hd. cbn [mbind option_bind].
  rewrite Hl, insert_middle.
  destruct (replace_spec self k (f v) (module self) pre v post Hwf Hl) as (Hb & Hk & Ho).
  by split_and!.
Qed.

Lemma remove_spec self k :
  ext_wf self →
  let r := remove self k in
  ext_wf r.1 ∧ r.2 = get self k ∧ get r.1 k = None ∧ same_elsewhere self r.1 k.
Proof.
  intros Hwf. unfold remove. destruct (position self k) as [at_|] eqn:Hp; cbn [fst snd].
  2: { apply get_position in Hp. by rewrite Hp. }
  destruct (position_split self k at_ Hp) as (pre & w & post & Hl & <- & Hd & Hg).
  rewrite Hd, Hg, Hl. set (b := MkExtensions _ _).
  pose proof (swap_remove_perm pre post (existT k w)) as Hperm. fold (values b) in Hperm.
  unfold ext_wf, keys in Hwf. rewrite Hl, fmap_app, fmap_cons in Hwf.
  rewrite <-Permutation_middle, <-fmap_app in Hwf. apply NoDup_cons in Hwf as [Hk Hnd].
  assert (ext_wf b) as Hb.
  { unfold ext_wf, keys. unfold b at 1. cbn [values]. by rewrite Hperm. }
  assert (ext_wf self) as Hself.
  { unfold ext_wf, keys. rewrite Hl, <-Permutation_middle. simpl. by constructor. }
  split_and!; [done|done| |split; [done|]].
  - apply get_None; [done|]. unfold keys, b. cbn [values]. by rewrite Hperm.
  - intros k' Hne. apply get_agree; [done..|]. intros u. unfold b. cbn [values].
    rewrite Hperm, Hl, <-Permutation_middle, elem_of_cons. split; [by right|].
    intros [Hx%(f_equal (@projT1 _ _))|?]; done.
Qed.

(** ** The abstract map *)

(** What a map promises: a value per type, and the name of the module whose
    hook runs. *)
Record SpecMap := MkSpec { spec_module : bytes; spec_get : ∀ k, option (val k) }.

Definition spec_new : SpecMap := MkSpec [] (λ _, None).

Definition spec_set (s : SpecMap) (k : key) (o : option (val k)) : SpecMap :=
  MkSpec (spec_module s) (λ k',
    match decide (k = k') with
    | left E => eq_rect _ (λ k, option (val k)) o _ E
    | right _ => spec_get s k'
    end).

(** The operations the modules and the framework call, with their replies. *)
Inductive op :=
| SetModule (m : bytes)
| Insert (t : TypeId) (v : value t)
| Get (t : TypeId)
| Remove (t : TypeId)
| Propose (t : TypeId) (v : value t)
| Proposals (t : TypeId)
| Resolve (t : TypeId).

Inductive reply :=
| RUnit
| RValue (t : TypeId) (v : option (value t))
| RProposed (r : result unit DecisionClosed)
| RProposals (t : TypeId) (l : list (Proposal (value t))).

Definition step (e : Extensions) (o : op) : Extensions * reply :=
  match o with
  | SetModule m => (set_module e m, RUnit)
  | Insert t v => let r := insert e (Plain t) v in (r.1, RValue t r.2)
  | Get t => (e, RValue t (get e (Plain t)))
  | Remove t => let r := remove e (Plain t) in (r.1, RValue t r.2)
  | Propose t v => let r := propose e t v in (r.1, RProposed r.2)
  | Proposals t => (e, RProposals t (proposals e t))
  | Resolve t => let r := resolve e t in (r.1, RProposals t r.2)
  end.

Definition spec_decision (s : SpecMap) (t : TypeId) : Decision' (value t) :=
  default (MkDecision [] None) (spec_get s (DecisionOf t)).

Definition spec_step (s : SpecMap) (o : op) : SpecMap * reply :=
  match o with
  | SetModule m => (MkSpec m (spec_get s), RUnit)
  | Insert t v => (spec_set s (Plain t) (Some v), RValue t (spec_get s (Plain t)))
  | Get t => (s, RValue t (spec_get s (Plain t)))
  | Remove t => (spec_set s (Plain t) None, RValue t (spec_get s (Plain t)))
  | Propose t v =>
      let d := spec_decision s t in
      match resolved_by d with
      | Some by_ => (s, RProposed (Err (MkClosed (type_name t) (spec_module s) by_)))
      | None =>
          (spec_set s (DecisionOf t) (Some (MkDecision
             (decision_proposals d ++ [MkProposal (spec_module s) v]) None)), RProposed (Ok tt))
      end
  | Proposals t => (s, RProposals t (decision_proposals (spec_decision s t)))
  | Resolve t =>
      (spec_set s (DecisionOf t) (Some (MkDecision [] (Some (spec_module s)))),
       RProposals t (decision_proposals (spec_decision s t)))
  end.

Fixpoint run {S} (step : S → op → S * reply) (s : S) (ops : list op) : S * list reply :=
  match ops with
  | [] => (s, [])
  | o :: ops =>
      let '(s, r) := step s o in
      let '(s, rs) := run step s ops in
      (s, r :: rs)
  end.

(** The representation relation. *)
Definition represents (e : Extensions) (s : SpecMap) : Prop :=
  ext_wf e ∧ module e = spec_module s ∧ ∀ k, get e k = spec_get s k.

Lemma spec_set_eq s k o : spec_get (spec_set s k o) k = o.
Proof.
  simpl. destruct (decide (k = k)) as [E|]; [|done]. by rewrite (proof_irrel E eq_refl).
Qed.

Lemma spec_set_ne s k k' o : k' ≠ k → spec_get (spec_set s k o) k' = spec_get s k'.
Proof. intros Hne. simpl. destruct (decide (k = k')) as [->|]; done. Qed.

Lemma represents_set e e' s k o :
  represents e s → ext_wf e' → get e' k = o → same_elsewhere e e' k →
  represents e' (spec_set s k o).
Proof.
  intros (_ & Hm & Hg) Hwf Hk [Hm' Ho]. split_and!; [done|by rewrite Hm'|].
  intros k'. destruct (decide (k' = k)) as [->|Hne].
  - by rewrite spec_set_eq.
  - by rewrite spec_set_ne, Ho, Hg.
Qed.

Lemma step_represents e s o :
  represents e s →
  represents (step e o).1 (spec_step s o).1 ∧ (step e o).2 = (spec_step s o).2.
Proof.
  intros HR. pose proof HR as (Hwf & Hm & Hg). destruct o as [m|t v|t|t|t v|t|t]; cbn [step spec_step].
  - done.
  - destruct (insert_spec e (Plain t) v Hwf) as (Hwf' & Hr & Hk & Ho). cbn [fst snd].
    split; [by eapply represents_set|by rewrite Hr, Hg].
  - by rewrite Hg.
  - destruct (remove_spec e (Plain t) Hwf) as (Hwf' & Hr & Hk & Ho). cbn [fst snd].
    split; [by eapply represents_set|by rewrite Hr, Hg].
  - unfold propose, spec_decision. rewrite <-Hg, <-Hm.
    destruct (get e (DecisionOf t)) as [[ps [by_|]]|] eqn:Hd; cbn [default resolved_by fst snd].
    + done.
    + destruct (update_spec e (DecisionOf t) (λ d, MkDecision (decision_proposals d ++
        [MkProposal (module e) v]) (resolved_by d)) _ Hwf Hd) as (Hwf' & Hk & Ho).
      split; [by eapply represents_set|done].
    + destruct (insert_spec e (DecisionOf t) (MkDecision [MkProposal (module e) v] None) Hwf)
        as (Hwf' & _ & Hk & Ho).
      split; [by eapply represents_set|done].
  - unfold proposals, spec_decision. rewrite <-Hg. by destruct (get e (DecisionOf t)).
  - unfold resolve, spec_decision. rewrite <-Hg, <-Hm.
    destruct (get e (DecisionOf t)) as [d|] eqn:Hd; cbn [default fst snd].
    + destruct (update_spec e (DecisionOf t) (λ _, MkDecision [] (Some (module e))) _ Hwf Hd)
        as (Hwf' & Hk & Ho).
      split; [by eapply represents_set|done].
    + destruct (insert_spec e (DecisionOf t) (MkDecision [] (Some (module e))) Hwf)
        as (Hwf' & _ & Hk & Ho).
      split; [by eapply represents_set|done].
Qed.

Lemma run_represents e s ops :
  represents e s →
  represents (run step e ops).1 (run spec_step s ops).1 ∧
  (run step e ops).2 = (run spec_step s ops).2.
Proof.
  revert e s; induction ops as [|o ops IH]; intros e s HR; [done|]. cbn [run].
  destruct (step_represents e s o HR) as [HR' Hr].
  destruct (step e o) as [e' r], (spec_step s o) as [s' r']. cbn [fst snd] in *. subst.
  destruct (IH e' s' HR') as [HR'' Hrs].
  destruct (run step e' ops), (run spec_step s' ops). cbn [fst snd] in *. by subst.
Qed.

Lemma new_represents : represents new spec_new.
Proof. split_and!; [constructor|done|done]. Qed.

(** C26: the list of type-tagged boxes, with its linear scan, replacement in
    place and swapping removal, is a map from types to values with a decision
    per type: over any sequence of calls it gives the replies of the abstract
    map, and no type is ever stored twice. *)
Theorem extensions_refine ops :
  (run step new ops).2 = (run spec_step spec_new ops).2 ∧ ext_wf (run step new ops).1.
Proof. destruct (run_represents new spec_new ops new_represents) as [(Hwf & _) Hr]. done. Qed.

(** ** Decisions over a whole request *)

(** The proposals for [t] that the calls make, with the running module. *)
Fixpoint proposed (m : bytes) (t : TypeId) (ops : list op) : list (Proposal (value t)) :=
  match ops with
  | [] => []
  | SetModule m' :: ops => proposed m' t ops
  | Propose t' v :: ops =>
      match decide (t' = t) with
      | left E => MkProposal m (eq_rect _ value v _ E) :: proposed m t ops
      | right _ => proposed m t ops
      end
  | _ :: ops => proposed m t ops
  end.

Definition is_resolve (t : TypeId) (o : op) : Prop := ∃ t', o = Resolve t' ∧ t' = t.

Lemma spec_step_other s o t :
  ¬ is_resolve t o → (∀ v, o ≠ Propose t v) →
  spec_get (spec_step s o).1 (DecisionOf t) = spec_get s (DecisionOf t).
Proof.
  intros Hr Hp. destruct o as [m|t' v|t'|t'|t' v|t'|t']; cbn [spec_step]; try done;
    try (by apply spec_set_ne).
  - destruct (resolved_by _); [done|]. apply spec_set_ne. intros [= ->]. by eapply Hp.
  - apply spec_set_ne. intros [= ->]. apply Hr. by exists t'.
Qed.

Lemma spec_step_module s o :
  spec_module (spec_step s o).1 = match o with SetModule m => m | _ => spec_module s end.
Proof. destruct o; cbn [spec_step]; try done. by destruct (resolved_by _). Qed.

Lemma proposes_or_not t o : (∃ v, o = Propose t v) ∨ (∀ v, o ≠ Propose t v).
Proof.
  destruct o as [| | | |t' v| |]; try (by right).
  destruct (decide (t' = t)) as [->|Hne]; [left; by eexists|right]. intros w [= ->]. done.
Qed.

Lemma spec_proposed s t ops :
  Forall (λ o, ¬ is_resolve t o) ops → resolved_by (spec_decision s t) = None →
  let s' := (run spec_step s ops).1 in
  spec_decision s' t
    = MkDecision (decision_proposals (spec_decision s t) ++ proposed (spec_module s) t ops) None.
Proof.
  intros Hops. revert s. induction Hops as [|o ops Ho _ IH]; intros s Hopen; cbn [run].
  { cbn [fst]. destruct (spec_decision s t) as [ps by_]. cbn in *. by rewrite app_nil_r, Hopen. }
  assert (spec_decision (spec_step s o).1 t
      = MkDecision (decision_proposals (spec_decision s t) ++ proposed (spec_module s) t [o]) None
    ∧ proposed (spec_module s) t (o :: ops)
      = proposed (spec_module s) t [o] ++ proposed (spec_module (spec_step s o).1) t ops)
    as [Hd Hcat].
  { destruct (proposes_or_not t o) as [[v ->]|Hno].
    - cbn [spec_step]. rewrite Hopen. cbn [fst]. unfold spec_decision at 1. rewrite spec_set_eq.
      cbn. destruct (decide (t = t)) as [E|]; [|done]. by rewrite (proof_irrel E eq_refl).
    - assert (proposed (spec_module s) t [o] = []) as ->.
      { destruct o as [| | | |t' v| |]; try done. cbn. destruct (decide (t' = t)) as [->|]; [|done].
        by destruct (Hno v). }
      rewrite app_nil_r. split.
      + unfold spec_decision in *. rewrite spec_step_other by done.
        destruct (default _ _) as [ps by_]. cbn in *. by rewrite Hopen.
      + rewrite spec_step_module. destruct o as [| | | |t' v| |]; try done. cbn [proposed app].
        destruct (decide (t' = t)) as [->|]; [by destruct (Hno v)|done]. }
  rewrite Hcat. destruct (spec_step s o) as [s1 r] eqn:E. cbn [fst] in *.
  specialize (IH s1). rewrite Hd in IH. specialize (IH eq_refl).
  destruct (run spec_step s1 ops). cbn [fst] in *. rewrite IH. cbn. by rewrite app_assoc.
Qed.

(** A resolved decision stays resolved, by the module that resolved it. *)
Lemma spec_closed s t ops by_ :
  Forall (λ o, ¬ is_resolve t o) ops → resolved_by (spec_decision s t) = Some by_ →
  resolved_by (spec_decision (run spec_step s ops).1 t) = Some by_.
Proof.
  intros Hops. revert s. induction Hops as [|o ops Ho _ IH]; intros s Hc; [done|]. cbn [run].
  assert (resolved_by (spec_decision (spec_step s o).1 t) = Some by_) as Hc'.
  { destruct (proposes_or_not t o) as [[v ->]|Hno].
    - cbn [spec_step]. by rewrite Hc.
    - unfold spec_decision in *. by rewrite spec_step_other. }
  destruct (spec_step s o) as [s1 r]. cbn [fst] in Hc'. specialize (IH s1 Hc').
  by destruct (run spec_step s1 ops).
Qed.

Lemma propose_closed e s t m v by_ :
  represents e s → resolved_by (spec_decision s t) = Some by_ →
  propose (set_module e m) t v = (set_module e m, Err (MkClosed (type_name t) m by_)).
Proof.
  intros (_ & _ & Hg) Hc. unfold propose.
  change (get (set_module e m) (DecisionOf t)) with (get e (DecisionOf t)).
  rewrite Hg. unfold spec_decision in Hc.
  destruct (spec_get s (DecisionOf t)) as [[ps [b|]]|]; cbn in Hc; try done. by injection Hc as ->.
Qed.

Lemma resolve_replies e s t :
  represents e s → (resolve e t).2 = decision_proposals (spec_decision s t).
Proof.
  intros (_ & _ & Hg). unfold resolve, spec_decision. rewrite <-Hg.
  by destruct (get e (DecisionOf t)).
Qed.

(** Whatever else the modules do, the owner's [resolve] returns exactly
    the values proposed for its decision so far, in the order they were
    proposed, each with the module whose hook proposed it; from then on every
    proposal fails with an error that names the decision, the proposing module
    and the resolving module, and changes nothing. *)
Theorem decision_protocol t ops owner later m v :
  Forall (λ o, ¬ is_resolve t o) (ops ++ later) →
  let r := resolve (set_module (run step new ops).1 owner) t in
  let e := set_module (run step r.1 later).1 m in
  r.2 = proposed [] t ops ∧
  propose e t v = (e, Err (MkClosed (type_name t) m owner)).
Proof.
  intros [Hops Hlater]%Forall_app r e.
  destruct (run_represents new spec_new ops new_represents) as [HR _].
  pose proof (step_represents _ _ (SetModule owner) HR) as [HR1 _].
  pose proof (resolve_replies _ _ t HR1) as Hr.
  pose proof (step_represents _ _ (Resolve t) HR1) as [HR2 _].
  pose proof (spec_proposed spec_new t ops Hops eq_refl) as Hd. cbn [spec_step fst snd] in *.
  destruct (run_represents _ _ later HR2) as [HR3 _]. split.
  - etrans; [exact Hr|]. unfold spec_decision in *. cbn [spec_get]. by rewrite Hd.
  - eapply propose_closed; [exact HR3|]. apply spec_closed; [done|].
    unfold spec_decision. by rewrite spec_set_eq.
Qed.
End extensions.

(** Two types, a flag and a number, to run the operations on. *)
Definition sample_value (t : bool) : Type := if t then bool else nat.

Lemma decision_protocol_witness :
  let run := run sample_value (step sample_value (λ _, bytes_of_string "D")) in
  let ops : list (op sample_value) :=
    [SetModule _ [1%Z]; Propose sample_value false 3; Insert sample_value true true;
     SetModule _ [2%Z]; Propose sample_value true false; Propose sample_value false 4] in
  let r := resolve sample_value (set_module _ (run (new _) ops).1 [9%Z]) false in
  let e := set_module _ (run r.1 [Remove _ true]).1 [7%Z] in
  r.2 = [MkProposal [1%Z] 3; MkProposal [2%Z] 4] ∧
  propose sample_value (λ _, bytes_of_string "D") e false 5
    = (e, Err (MkClosed (bytes_of_string "D") [7%Z] [9%Z])).
Proof.
  intros run ops r e.
  destruct (decision_protocol sample_value (λ _, bytes_of_string "D") false ops [9%Z]
    [Remove _ true] [7%Z] 5) as [Hr Hp].
  - repeat constructor; intros (t' & Ht & _); discriminate Ht.
  - split; [exact Hr|exact Hp].
Defined.
