(* ===== verification/Stack.v ===== *)
(** [rpcstack]'s module trait and the stack that composes modules:
    libs/rpcstack/src/module.rs. A module is the record of its hooks; a stack
    [Stack<H, T>] is the list of its modules, [()] the empty one. What a hook
    may change it takes and returns ([&mut]); what it may only read it takes.
    [World] is what modules change behind [&self]: their server state and
    their interior mutability. *)
From S2P Require Export Codec Extensions.

Section stack.
  Context {TypeId : Type} `{EqDecision TypeId} {value : TypeId → Type}.
  Context {Method Request Response Status Server World : Type}.

Notation Ext := (Extensions value).

(** ** What hooks see *)

(** A poll's or a handler's answer. *)
Notation Reply := (result Response Status).

Inductive Poll :=
| Pending
| Ready (r : Reply).

Inductive Outcome :=
| Handled
| Rejected (by_ : bytes) (status : Status)
| Replied (by_ : bytes).

Definition ended_by (o : Outcome) : option bytes :=
  match o with Handled => None | Rejected by_ _ | Replied by_ => Some by_ end.

Inductive ChildOutcome :=
| Sent (r : Reply)
| ChildRejected (by_ : bytes) (status : Status).

Definition sent (o : ChildOutcome) : option Reply :=
  match o with Sent r => Some r | ChildRejected _ _ => None end.

Record Early := MkEarly { early_by : bytes; reply : Reply }.
Record Rejection := MkRejection { rejection_by : bytes; status : Status }.

(** The mutable arguments of [before_child_rpc] and [seal_child_rpc]. *)
Record CallState := MkCall {
  child : Ext;
  request : Request;
  child_wire : WireOut;
  ext : Ext;
  world : World;
}.

(** Those of [before_root_rpc]. *)
Record RootCall := MkRoot {
  root_request : Request;
  root_wire : WireOut;
  root_state : Ext;
  root_world : World;
}.

(** ** Server state and dependencies *)

Inductive Missing := ServerState | ModuleAbsent | ModuleLater.

Record MissingDependency := MkMissing {
  resource : bytes;
  missing_module : bytes;
  missing : Missing;
}.

(** [resources] is a [HashMap] from types to values. *)
Record ServerInit := MkInit {
  service_name : bytes;
  init_module : bytes;
  resources : ∀ t : TypeId, option (value t);
}.

Definition init_new (service_name : bytes) : ServerInit :=
  MkInit service_name [] (λ _, None).

Definition init_enter (self : ServerInit) (server_name : bytes) : ServerInit :=
  MkInit (service_name self) server_name (resources self).

Definition provide (self : ServerInit) (t : TypeId) (v : value t) : ServerInit :=
  MkInit (service_name self) (init_module self) (λ t',
    match decide (t = t') with
    | left E => Some (eq_rect _ value v _ E)
    | right _ => resources self t'
    end).

Definition init_get (self : ServerInit) (t : TypeId) : option (value t) := resources self t.

Definition require (self : ServerInit) (t : TypeId) (type_name : bytes)
    : result (value t) MissingDependency :=
  match init_get self t with
  | Some v => Ok v
  | None => Err (MkMissing type_name (init_module self) ServerState)
  end.

(** ** Modules *)

Record ModuleDecl := MkDecl {
  id : TypeId;
  type_name : bytes;
  name : bytes;
  has_wire : bool;
  is_empty : bool;
  requires : list (TypeId * bytes);
}.

(** The [Module] trait: its declaration, its server's constructor, its hooks. *)
Record Module := MkModule {
  decl : ModuleDecl;
  POLL_HOOKS : bool;
  server_name : bytes;
  m_server_new : ServerInit → ServerInit * result Server MissingDependency;
  m_before_root_rpc : Method → RootCall → RootCall * result unit Status;
  m_after_root_rpc : Method → ChildOutcome → WireIn → Ext → World → World * result unit Status;
  m_new : Method → Server → WireIn → Ext → World → Ext * World;
  m_before_poll : Ext → World → Ext * World * result unit Reply;
  m_after_poll : Poll → Ext → World → World * result unit Reply;
  m_before_child_rpc : Method → CallState → CallState * result unit Status;
  m_seal_child_rpc : Method → CallState → CallState * result unit Status;
  m_after_child_rpc :
    Method → ChildOutcome → WireIn → Ext → Ext → World → World * result unit Status;
  m_finalize : Reply → Outcome → WireOut → Ext → World → Reply * WireOut * World;
}.

Definition NAME (m : Module) : bytes := name (decl m).

(** ** Stacks *)

(** [ModuleServer::new] of the nested pairs. *)
Fixpoint server_new (ms : list Module) (init : ServerInit)
    : ServerInit * result (list Server) MissingDependency :=
  match ms with
  | [] => (init, Ok [])
  | h :: t =>
      let '(init, r) := m_server_new h (init_enter init (server_name h)) in
      match r with
      | Err e => (init, Err e)
      | Ok head =>
          let '(init, r) := server_new t init in
          (init, result_map (cons head) r)
      end
  end.

Definition describe (ms : list Module) : list ModuleDecl := decl <$> ms.

(** The first loop of [validate_stack]: the names. *)
Fixpoint check_names (earlier modules : list ModuleDecl) : outcome unit :=
  match modules with
  | [] => Ret tt
  | m :: modules =>
      _ ← (if is_empty m then Ret tt else
             _ ← (if has_wire m then assert_valid_name (name m) else Ret tt);
             if decide (Exists (λ e, is_empty e = false ∧ name e = name m) earlier)
             then Panic else Ret tt);
      check_names (earlier ++ [m]) modules
  end.

(** One module's requirements, given the modules before and behind it. *)
Fixpoint check_module (earlier later : list ModuleDecl) (m : ModuleDecl)
    (reqs : list (TypeId * bytes)) : result unit MissingDependency :=
  match reqs with
  | [] => Ok tt
  | (i, tn) :: reqs =>
      if decide (Exists (λ e, id e = i) earlier) then check_module earlier later m reqs
      else Err (MkMissing tn (type_name m)
                  (if decide (Exists (λ e, id e = i) later) then ModuleLater else ModuleAbsent))
  end.

(** The second loop: the requirements. *)
Fixpoint check_requires (earlier modules : list ModuleDecl) : result unit MissingDependency :=
  match modules with
  | [] => Ok tt
  | m :: modules =>
      result_and_then (λ _, check_requires (earlier ++ [m]) modules)
        (check_module earlier modules m (requires m))
  end.

Definition validate_stack (ms : list Module) : outcome (result unit MissingDependency) :=
  let modules := describe ms in
  _ ← check_names [] modules;
  Ret (check_requires [] modules).

Definition build_server (ms : list Module) (service_name : bytes)
    : outcome (result (list Server) MissingDependency) :=
  valid ← validate_stack ms;
  Ret (result_and_then (λ _, (server_new ms (init_new service_name)).2) valid).

Definition with_world (s : CallState) (w : World) : CallState :=
  MkCall (child s) (request s) (child_wire s) (ext s) w.

(** [child.set_module(H::NAME); ext.set_module(H::NAME)]. *)
Definition enter (m : Module) (s : CallState) : CallState :=
  MkCall (set_module value (child s) (NAME m)) (request s) (child_wire s)
    (set_module value (ext s) (NAME m)) (world s).

Definition enter_root (m : Module) (s : RootCall) : RootCall :=
  MkRoot (root_request s) (root_wire s) (set_module value (root_state s) (NAME m)) (root_world s).

Definition stack_poll_hooks (ms : list Module) : bool :=
  foldr (λ m b, POLL_HOOKS m || b) false ms.

Fixpoint before_root_rpc (ms : list Module) (method : Method) (s : RootCall)
    : RootCall * result unit Rejection :=
  match ms with
  | [] => (s, Ok tt)
  | h :: t =>
      let '(s, r) := m_before_root_rpc h method (enter_root h s) in
      let '(s, r) :=
        match r with
        | Err st => (s, Err (MkRejection (NAME h) st))
        | Ok _ => before_root_rpc t method s
        end in
      match r with
      | Ok _ => (s, Ok tt)
      | Err rejection =>
          let outcome := ChildRejected (rejection_by rejection) (status rejection) in
          let '(w, _) :=
            m_after_root_rpc h method outcome wire_in_default (root_state s) (root_world s) in
          (MkRoot (root_request s) (root_wire s) (root_state s) w, Err rejection)
      end
  end.

(** [tail.and(head)]. *)
Definition result_and (a b : result unit Status) : result unit Status :=
  match a with Ok _ => b | Err e => Err e end.

Fixpoint after_root_rpc (ms : list Module) (method : Method) (outcome : ChildOutcome)
    (wire : WireIn) (state : Ext) (w : World) : World * result unit Status :=
  match ms with
  | [] => (w, Ok tt)
  | h :: t =>
      let '(w, tail) := after_root_rpc t method outcome wire state w in
      let '(w, head) := m_after_root_rpc h method outcome wire state w in
      (w, result_and tail head)
  end.

Fixpoint stack_new (ms : list Module) (method : Method) (servers : list Server) (wire : WireIn)
    (e : Ext) (w : World) : Ext * World :=
  match ms, servers with
  | h :: t, server :: servers =>
      let '(e, w) := m_new h method server wire e w in stack_new t method servers wire e w
  | _, _ => (e, w)
  end.

(** In a release build: the debug build also runs the hooks of a module with
    [POLL_HOOKS = false], to assert that they are the defaults. *)
Fixpoint before_poll (ms : list Module) (e : Ext) (w : World) : Ext * World * result unit Early :=
  match ms with
  | [] => (e, w, Ok tt)
  | h :: t =>
      if POLL_HOOKS h then
        let '(e, w, r) := m_before_poll h (set_module value e (NAME h)) w in
        match r with
        | Err reply => (e, w, Err (MkEarly (NAME h) reply))
        | Ok _ => before_poll t e w
        end
      else before_poll t e w
  end.

Fixpoint after_poll (ms : list Module) (poll : Poll) (e : Ext) (w : World)
    : World * result unit Early :=
  match ms with
  | [] => (w, Ok tt)
  | h :: t =>
      if POLL_HOOKS h then
        let '(w, r) := m_after_poll h poll e w in
        match r with
        | Err reply => (w, Err (MkEarly (NAME h) reply))
        | Ok _ => after_poll t poll e w
        end
      else after_poll t poll e w
  end.

Fixpoint before_child_rpc (ms : list Module) (method : Method) (s : CallState)
    : CallState * result unit Rejection :=
  match ms with
  | [] => (s, Ok tt)
  | h :: t =>
      let '(s, r) := m_before_child_rpc h method (enter h s) in
      let '(s, r) :=
        match r with
        | Err st => (s, Err (MkRejection (NAME h) st))
        | Ok _ => before_child_rpc t method s
        end in
      match r with
      | Ok _ => (s, Ok tt)
      | Err rejection =>
          let rejected := ChildRejected (rejection_by rejection) (status rejection) in
          let '(w, _) :=
            m_after_child_rpc h method rejected wire_in_default (child s) (ext s) (world s) in
          (with_world s w, Err rejection)
      end
  end.

Fixpoint seal_child_rpc (ms : list Module) (method : Method) (s : CallState)
    : CallState * result unit Rejection :=
  match ms with
  | [] => (s, Ok tt)
  | h :: t =>
      let '(s, r) := seal_child_rpc t method s in
      match r with
      | Err rejection => (s, Err rejection)
      | Ok _ =>
          let '(s, r) := m_seal_child_rpc h method (enter h s) in
          (s, result_map_err (MkRejection (NAME h)) r)
      end
  end.

Fixpoint reject_child_rpc (ms : list Module) (method : Method) (by_ : bytes) (st : Status)
    (c e : Ext) (w : World) : World :=
  match ms with
  | [] => w
  | h :: t =>
      let w := reject_child_rpc t method by_ st c e w in
      (m_after_child_rpc h method (ChildRejected by_ st) wire_in_default c e w).1
  end.

Fixpoint after_child_rpc (ms : list Module) (method : Method) (outcome : ChildOutcome)
    (response_wire : WireIn) (c e : Ext) (w : World) : World * result unit Status :=
  match ms with
  | [] => (w, Ok tt)
  | h :: t =>
      let '(w, tail) := after_child_rpc t method outcome response_wire c e w in
      let '(w, head) := m_after_child_rpc h method outcome response_wire c e w in
      (w, result_and tail head)
  end.

Fixpoint finalize (ms : list Module) (r : Reply) (outcome : Outcome) (wire : WireOut) (e : Ext)
    (w : World) : Reply * WireOut * World :=
  match ms with
  | [] => (r, wire, w)
  | h :: t =>
      let '(r, wire, w) := finalize t r outcome wire e w in
      m_finalize h r outcome wire e w
  end.

(** ** The order of the hooks *)

(** The modules of a list accept, one after the other. *)
Inductive all_accept (hook : Module → CallState → CallState * result unit Status)
  : list Module → CallState → CallState → Prop :=
| accept_nil s : all_accept hook [] s s
| accept_cons m ms s s1 s2 :
    hook m (enter m s) = (s1, Ok tt) → all_accept hook ms s1 s2 → all_accept hook (m :: ms) s s2.

(** The modules of a list are told, one after the other; their answers. *)
Fixpoint tell (method : Method) (outcome : ChildOutcome) (wire : WireIn) (c e : Ext)
    (ms : list Module) (w : World) : World * list (result unit Status) :=
  match ms with
  | [] => (w, [])
  | m :: ms =>
      let '(w, r) := m_after_child_rpc m method outcome wire c e w in
      let '(w, rs) := tell method outcome wire c e ms w in
      (w, r :: rs)
  end.

Definition notify (method : Method) (outcome : ChildOutcome) (wire : WireIn) (c e : Ext)
    (ms : list Module) (w : World) : World :=
  (tell method outcome wire c e ms w).1.

(** The first error in a list of answers. *)
Fixpoint first_error (rs : list (result unit Status)) : result unit Status :=
  match rs with
  | [] => Ok tt
  | r :: rs => result_and r (first_error rs)
  end.

Lemma tell_snoc method o wire c e ms m w :
  tell method o wire c e (ms ++ [m]) w =
    let '(w1, rs) := tell method o wire c e ms w in
    let '(w2, r) := m_after_child_rpc m method o wire c e w1 in
    (w2, rs ++ [r]).
Proof.
  revert w; induction ms as [|m' ms IH]; intros w; cbn.
  - by destruct (m_after_child_rpc m method o wire c e w).
  - destruct (m_after_child_rpc m' method o wire c e w) as [w1 r1]. rewrite IH.
    destruct (tell method o wire c e ms w1) as [w2 rs].
    by destruct (m_after_child_rpc m method o wire c e w2).
Qed.

Lemma notify_snoc method o wire c e ms m w :
  notify method o wire c e (ms ++ [m]) w
    = (m_after_child_rpc m method o wire c e (notify method o wire c e ms w)).1.
Proof.
  unfold notify. rewrite tell_snoc. destruct (tell method o wire c e ms w) as [w1 rs]. cbn.
  by destruct (m_after_child_rpc m method o wire c e w1).
Qed.

Lemma first_error_snoc rs r : first_error (rs ++ [r]) = result_and (first_error rs) r.
Proof.
  induction rs as [|[[]|] rs IH]; cbn; [by destruct r as [[]|]|done|done].
Qed.

Lemma all_accept_app hook ms1 ms2 s s' :
  all_accept hook (ms1 ++ ms2) s s' ↔
  ∃ s1, all_accept hook ms1 s s1 ∧ all_accept hook ms2 s1 s'.
Proof.
  revert s; induction ms1 as [|m ms1 IH]; intros s; simpl.
  - split; [intros H; exists s; split; [constructor|done]|].
    intros (s1 & H & ?). by inversion H; subst.
  - split.
    + intros H; inversion H as [|? ? ? s1 ? Hm Ht]; subst. apply IH in Ht as (s2 & ? & ?).
      exists s2. split; [by econstructor|done].
    + intros (s1 & H & ?). inversion H as [|? ? ? s2 ? Hm Ht]; subst.
      econstructor; [done|]. apply IH. by eexists.
Qed.

Lemma before_child_rpc_spec ms method s :
  let hook := λ m, m_before_child_rpc m method in
  let '(s', r) := before_child_rpc ms method s in
  match r with
  | Ok _ => all_accept hook ms s s'
  | Err rej => ∃ pre m post s1 s2, ms = pre ++ m :: post ∧ all_accept hook pre s s1 ∧
      hook m (enter m s1) = (s2, Err (status rej)) ∧ rejection_by rej = NAME m ∧
      s' = with_world s2 (notify method (ChildRejected (rejection_by rej) (status rej))
             wire_in_default (child s2) (ext s2) (reverse (pre ++ [m])) (world s2))
  end.
Proof.
  intros hook. revert s; induction ms as [|h t IH]; intros s; cbn [before_child_rpc]; [constructor|].
  destruct (m_before_child_rpc h method (enter h s)) as [s1 [[]|st]] eqn:Hh.
  - specialize (IH s1). destruct (before_child_rpc t method s1) as [s' [[]|rej]].
    + by econstructor.
    + destruct IH as (pre & m & post & s2 & s3 & -> & Hpre & Hm & Hby & ->).
      destruct (m_after_child_rpc h _ _ _ _ _ _) as [w r] eqn:Ha.
      exists (h :: pre), m, post, s2, s3. split_and!; [done|by econstructor|done|done|].
      cbn [app]. rewrite reverse_cons, notify_snoc. cbn in Ha. by rewrite Ha.
  - cbn [status rejection_by]. destruct (m_after_child_rpc h _ _ _ _ _ _) as [w r] eqn:Ha.
    exists [], h, t, s, s1. split_and!; [done|constructor|done|done|].
    cbn [app status rejection_by] in *. rewrite reverse_singleton. unfold notify. cbn [tell].
    by rewrite Ha.
Qed.

Lemma seal_child_rpc_spec ms method s :
  let hook := λ m, m_seal_child_rpc m method in
  let '(s', r) := seal_child_rpc ms method s in
  match r with
  | Ok _ => all_accept hook (reverse ms) s s'
  | Err rej => ∃ pre m post s1, ms = pre ++ m :: post ∧ all_accept hook (reverse post) s s1 ∧
      hook m (enter m s1) = (s', Err (status rej)) ∧ rejection_by rej = NAME m
  end.
Proof.
  intros hook. revert s; induction ms as [|h t IH]; intros s; cbn [seal_child_rpc]; [constructor|].
  specialize (IH s). destruct (seal_child_rpc t method s) as [s1 [[]|rej]].
  - destruct (m_seal_child_rpc h method (enter h s1)) as [s2 [[]|st]] eqn:Hh; cbn [result_map_err].
    + rewrite reverse_cons. apply all_accept_app. exists s1. split; [done|].
      econstructor; [done|constructor].
    + exists [], h, t, s1. by split_and!.
  - destruct IH as (pre & m & post & s2 & -> & Hpost & Hm & Hby).
    exists (h :: pre), m, post, s2. by split_and!.
Qed.

Lemma reject_child_rpc_eq ms method by_ st c e w :
  reject_child_rpc ms method by_ st c e w
    = notify method (ChildRejected by_ st) wire_in_default c e (reverse ms) w.
Proof.
  induction ms as [|h t IH]; [done|]. cbn [reject_child_rpc].
  by rewrite IH, reverse_cons, notify_snoc.
Qed.

Lemma after_child_rpc_eq ms method o wire c e w :
  after_child_rpc ms method o wire c e w
    = let '(w', rs) := tell method o wire c e (reverse ms) w in (w', first_error rs).
Proof.
  induction ms as [|h t IH]; [done|]. cbn [after_child_rpc]. rewrite IH, reverse_cons, tell_snoc.
  destruct (tell method o wire c e (reverse t) w) as [w1 rs].
  destruct (m_after_child_rpc h method o wire c e w1) as [w2 r]. by rewrite first_error_snoc.
Qed.

Lemma finalize_eq ms r o wire e w :
  finalize ms r o wire e w
    = foldl (λ '(r, wire, w) m, m_finalize m r o wire e w) (r, wire, w) (reverse ms).
Proof.
  induction ms as [|h t IH]; [done|]. cbn [finalize]. rewrite IH, reverse_cons, foldl_app. cbn.
  by destruct (foldl _ _ _) as [[r' wire'] w'].
Qed.

Lemma poll_hooks_skip ms e w poll :
  stack_poll_hooks ms = false →
  before_poll ms e w = (e, w, Ok tt) ∧ after_poll ms poll e w = (w, Ok tt).
Proof.
  induction ms as [|h t IH]; [done|]. cbn. intros [-> Ht]%orb_false_iff. by apply IH.
Qed.

(** ** Validation *)

Definition name_ok (d : ModuleDecl) : Prop :=
  is_empty d = false → has_wire d = true → valid_name (name d).

(** The names of the modules that are not empty. *)
Definition names (ds : list ModuleDecl) : list bytes :=
  name <$> filter (λ d, is_empty d = false) ds.

Definition names_ok (ds : list ModuleDecl) : Prop := Forall name_ok ds ∧ NoDup (names ds).

Definition met (earlier : list ModuleDecl) (d : ModuleDecl) : Prop :=
  Forall (λ r, r.1 ∈ id <$> earlier) (requires d).

(** Every module is preceded by the modules it requires. *)
Definition requirements_met (ds : list ModuleDecl) : Prop :=
  ∀ pre d post, ds = pre ++ d :: post → met pre d.

Lemma same_name_names d earlier :
  Exists (λ e, is_empty e = false ∧ name e = name d) earlier ↔ name d ∈ names earlier.
Proof.
  unfold names. rewrite list_elem_of_fmap, Exists_exists. split.
  - intros (e & He & Hem & Hn). exists e. split; [done|]. by apply list_elem_of_filter.
  - intros (e & Hn & [Hem He]%list_elem_of_filter). by exists e.
Qed.

Lemma names_snoc ds d :
  names (ds ++ [d]) = names ds ++ (if decide (is_empty d = false) then [name d] else []).
Proof. unfold names. rewrite filter_app, fmap_app, filter_cons. by case_decide. Qed.

Lemma check_names_spec earlier ds :
  NoDup (names earlier) →
  check_names earlier ds = Ret tt ↔ Forall name_ok ds ∧ NoDup (names (earlier ++ ds)).
Proof.
  revert earlier; induction ds as [|d ds IH]; intros earlier Hnd; cbn [check_names].
  { rewrite app_nil_r. split; [by split; [constructor|]|done]. }
  rewrite (cons_middle d earlier ds), (app_assoc earlier [d] ds), Forall_cons. unfold name_ok at 1.
  assert (NoDup (names (earlier ++ [d])) ↔ (is_empty d = false → name d ∉ names earlier)) as Hsnoc.
  { rewrite names_snoc, NoDup_app. case_decide; set_solver by eauto using NoDup_nil_2, NoDup_singleton. }
  assert (NoDup (names ((earlier ++ [d]) ++ ds)) → NoDup (names (earlier ++ [d]))) as Hpre.
  { unfold names. rewrite filter_app, fmap_app, NoDup_app. tauto. }
  destruct (is_empty d) eqn:Hem; cbn [mbind outcome_bind].
  - rewrite (IH (earlier ++ [d])) by (by apply Hsnoc). naive_solver.
  - destruct (has_wire d) eqn:Hw; unfold assert_valid_name;
      [destruct (decide (valid_name (name d)))|]; cbn [mbind outcome_bind];
      try (split; [done|naive_solver]).
    all: case_decide as Hx; rewrite same_name_names in Hx; cbn [mbind outcome_bind].
    all: try (split; [done|intros [_ Hc]; exfalso; apply Hpre, Hsnoc in Hc; done]).
    all: rewrite (IH (earlier ++ [d])) by (by apply Hsnoc); naive_solver.
Qed.

Lemma Exists_id i ds : Exists (λ e, id e = i) ds ↔ i ∈ id <$> ds.
Proof. rewrite list_elem_of_fmap, Exists_exists. naive_solver. Qed.

Lemma check_module_spec earlier later d reqs :
  match check_module earlier later d reqs with
  | Ok _ => Forall (λ r, r.1 ∈ id <$> earlier) reqs
  | Err e => ∃ i tn, (i, tn) ∈ reqs ∧ i ∉ id <$> earlier ∧
      e = MkMissing tn (type_name d) (if decide (i ∈ id <$> later) then ModuleLater else ModuleAbsent)
  end.
Proof.
  induction reqs as [|[i tn] reqs IH]; cbn [check_module]; [constructor|].
  case_decide as Hi; rewrite Exists_id in Hi.
  - destruct (check_module earlier later d reqs) as [[]|e]; [by constructor|].
    destruct IH as (i' & tn' & Hin & Hrest). exists i', tn'. split; [by right|done].
  - exists i, tn. split_and!; [by left|done|]. f_equal.
    by rewrite (decide_ext _ (i ∈ id <$> later)) by apply Exists_id.
Qed.

Lemma check_requires_spec earlier ds :
  match check_requires earlier ds with
  | Ok _ => ∀ pre d post, ds = pre ++ d :: post → met (earlier ++ pre) d
  | Err e => ∃ pre d post i tn, ds = pre ++ d :: post ∧
      (∀ pre' d' post', pre = pre' ++ d' :: post' → met (earlier ++ pre') d') ∧
      (i, tn) ∈ requires d ∧ i ∉ id <$> earlier ++ pre ∧
      e = MkMissing tn (type_name d) (if decide (i ∈ id <$> post) then ModuleLater else ModuleAbsent)
  end.
Proof.
  revert earlier; induction ds as [|d ds IH]; intros earlier; cbn [check_requires].
  { by intros [|] ? ?. }
  pose proof (check_module_spec earlier ds d (requires d)) as Hm.
  destruct (check_module earlier ds d (requires d)) as [[]|e]; cbn [result_and_then].
  - specialize (IH (earlier ++ [d])).
    assert (∀ pre d' post, d :: ds = pre ++ d' :: post →
      pre = [] ∧ d' = d ∨ ∃ pre', pre = d :: pre' ∧ ds = pre' ++ d' :: post) as Hcons.
    { intros [|x pre] d' post [= -> ->]; [by left|]. right. by eexists. }
    destruct (check_requires (earlier ++ [d]) ds) as [[]|e].
    + intros pre d' post Hd. destruct (Hcons pre d' post Hd) as [[-> ->]|(pre' & -> & Hds)].
      * by rewrite app_nil_r.
      * specialize (IH pre' d' post Hds). by rewrite <-app_assoc in IH.
    + destruct IH as (pre & d' & post & i & tn & -> & Hmet & Hin & Hn & ->).
      exists (d :: pre), d', post, i, tn. rewrite <-app_assoc in Hn. split_and!; try done.
      intros [|x pre'] d'' post' [= -> ->]; [by rewrite app_nil_r|].
      specialize (Hmet pre' d'' post' eq_refl). by rewrite <-app_assoc in Hmet.
  - destruct Hm as (i & tn & Hin & Hn & ->). exists [], d, ds, i, tn.
    rewrite app_nil_r. split_and!; try done. by intros [|] ? ?.
Qed.

(** [before_child_rpc] runs the modules in stack order until one rejects.
    If none does, every module has accepted. Otherwise the modules before the
    rejecting one have accepted, those behind it did not run, and exactly the
    modules that ran, the rejecting one included, are then told of the
    rejection, in reverse order. *)
Theorem before_child_rpc_order ms method s :
  let hook := λ m, m_before_child_rpc m method in
  let '(s', r) := before_child_rpc ms method s in
  match r with
  | Ok _ => all_accept hook ms s s'
  | Err rej => ∃ pre m post s1 s2, ms = pre ++ m :: post ∧ all_accept hook pre s s1 ∧
      hook m (enter m s1) = (s2, Err (status rej)) ∧ rejection_by rej = NAME m ∧
      s' = with_world s2 (notify method (ChildRejected (rejection_by rej) (status rej))
             wire_in_default (child s2) (ext s2) (reverse (pre ++ [m])) (world s2))
  end.
Proof. apply before_child_rpc_spec. Qed.

(** [seal_child_rpc] runs the modules in reverse stack order, the head
    last, until one rejects; the modules nearer the head then do not seal. *)
Theorem seal_child_rpc_order ms method s :
  let hook := λ m, m_seal_child_rpc m method in
  let '(s', r) := seal_child_rpc ms method s in
  match r with
  | Ok _ => all_accept hook (reverse ms) s s'
  | Err rej => ∃ pre m post s1, ms = pre ++ m :: post ∧ all_accept hook (reverse post) s s1 ∧
      hook m (enter m s1) = (s', Err (status rej)) ∧ rejection_by rej = NAME m
  end.
Proof. apply seal_child_rpc_spec. Qed.

(** Building a stack panics exactly when a module with wire data has a
    name that cannot be a section name, or two modules share a name; otherwise
    it succeeds exactly when every module is preceded by the modules it
    requires, and else reports the first requirement that is not met, saying
    whether the required module comes later or not at all. *)
Theorem validate_stack_correct ms :
  let ds := describe ms in
  match validate_stack ms with
  | Panic => ¬ names_ok ds
  | Ret (Ok _) => names_ok ds ∧ requirements_met ds
  | Ret (Err e) => names_ok ds ∧ ∃ pre d post i tn, ds = pre ++ d :: post ∧
      (∀ pre' d' post', pre = pre' ++ d' :: post' → met pre' d') ∧
      (i, tn) ∈ requires d ∧ i ∉ id <$> pre ∧
      e = MkMissing tn (type_name d) (if decide (i ∈ id <$> post) then ModuleLater else ModuleAbsent)
  end.
Proof.
  intros ds. unfold validate_stack. fold ds.
  pose proof (check_names_spec [] ds (NoDup_nil_2)) as Hn. cbn [app] in Hn.
  change (Forall name_ok ds ∧ NoDup (names ds)) with (names_ok ds) in Hn.
  destruct (check_names [] ds) as [[]|]; cbn [mbind outcome_bind].
  - pose proof (check_requires_spec [] ds) as Hr.
    destruct (check_requires [] ds) as [[]|e]; (split; [by apply Hn|done]).
  - intros Hok. by apply Hn in Hok.
Qed.
End stack.
