(* ===== verification/Hooks.v ===== *)
(** [rpcstack-tonic]'s hook adapter: libs/rpcstack-tonic/src/hooks.rs and the
    overrides of metadata.rs, with the two places of the project's tonic that
    drive it: the generated unary client method
    (libs/tonic/tonic-build/src/client.rs) and the server's handling of a unary
    request (libs/tonic/tonic/src/server/grpc.rs and src/masa/future.rs). *)
From S2P Require Export Stack.

Definition METHOD_NAME_OVERRIDE_HEADER : bytes := bytes_of_string "x-rpcstack-method-name".
Definition SERVICE_NAME_OVERRIDE_HEADER : bytes := bytes_of_string "x-rpcstack-service-name".

Record GrpcMethod := MkGrpc { service : bytes; method : bytes }.
Record CowGrpcMethod := MkCow { cow_service : bytes; cow_method : bytes }.

#[export] Instance cow_eq_dec : EqDecision CowGrpcMethod.
Proof. solve_decision. Defined.
#[export] Instance cow_countable : Countable CowGrpcMethod.
Proof.
  refine (inj_countable' (λ m, (cow_service m, cow_method m)) (λ p, MkCow p.1 p.2) _). by intros [].
Defined.

Definition resolve_method_name_impl (m : GrpcMethod) (method_override service_override : option bytes)
    : CowGrpcMethod :=
  match method_override with
  | Some method_name =>
      match service_override with
      | Some service_name => MkCow service_name method_name
      | None => MkCow (service m) method_name
      end
  | None => MkCow (service m) (method m)
  end.

Definition get_ascii_header {H} `{HttpHeaders H} (headers : H) (key : bytes) : option bytes :=
  value ← header_get headers key; result_ok (to_str value).

Definition get_ascii_metadata {M} `{Metadata M} (metadata : M) (key : bytes) : option bytes :=
  value ← meta_get metadata key; result_ok (meta_to_str value).

Definition resolve_method_name_from_http {H} `{HttpHeaders H} (m : GrpcMethod) (headers : H)
    : CowGrpcMethod :=
  resolve_method_name_impl m (get_ascii_header headers METHOD_NAME_OVERRIDE_HEADER)
    (get_ascii_header headers SERVICE_NAME_OVERRIDE_HEADER).

Definition resolve_method_name_from_request {M} `{Metadata M} (m : GrpcMethod) (metadata : M)
    : CowGrpcMethod :=
  resolve_method_name_impl m (get_ascii_metadata metadata METHOD_NAME_OVERRIDE_HEADER)
    (get_ascii_metadata metadata SERVICE_NAME_OVERRIDE_HEADER).

Section hooks.
  Context {TypeId : Type} `{EqDecision TypeId} {value : TypeId → Type}.
  Context {Request Response Status Server World : Type}.
  Context {MD : Type} {HM : Metadata MD}.
  Context {MReq : HasMetadata Request MD} {MRes : HasMetadata Response MD}
    {MSt : HasMetadata Status MD}.
  (** [Status::invalid_argument] and [Status::internal]. *)
  Context (invalid_argument internal : bytes → Status).

Notation Ext := (Extensions value).
Notation Module := (@Stack.Module TypeId value CowGrpcMethod Request Response Status Server World).
Notation Reply := (result Response Status).
Notation Outcome := (@Stack.Outcome Status).
Notation Poll := (@Stack.Poll Response Status).
Notation Early := (@Stack.Early Response Status).

Definition reply_metadata (r : Reply) : MD :=
  match r with Ok resp => metadata_of resp | Err st => metadata_of st end.

Definition with_reply_metadata (md : MD) (r : Reply) : Reply :=
  match r with Ok resp => Ok (with_metadata md resp) | Err st => Err (with_metadata md st) end.

(** ** The request's state *)

Record RequestState := MkState { rs_ext : Ext; rs_ended_by : option (bytes * option Status) }.

Definition record_early (self : RequestState) (early : Early) : RequestState :=
  let status := match reply early with Err st => Some st | Ok _ => None end in
  MkState (rs_ext self)
    (match rs_ended_by self with
     | Some e => Some e
     | None => Some (early_by early, status)
     end).

Definition outcome_of (self : RequestState) : Outcome :=
  match rs_ended_by self with
  | None => Handled
  | Some (by_, Some st) => Rejected by_ st
  | Some (by_, None) => Replied by_
  end.

(** ** The parent's hooks *)

Definition try_new (ms : list Module) (service_name : bytes)
    : outcome (result (list Server) (@MissingDependency)) :=
  build_server ms service_name.

Definition server_hooks_new (ms : list Module) (service_name : bytes) : outcome (list Server) :=
  r ← try_new ms service_name; expect r.

Definition begin {H} `{HttpHeaders H} (ms : list Module) (m : GrpcMethod) (headers : H)
    (servers : list Server) (w : World) : outcome (RequestState * World) :=
  let resolved_method := resolve_method_name_from_http m headers in
  wire ← expect (from_headers headers);
  let '(e, w) := stack_new ms resolved_method servers wire (new value) w in
  Ret (MkState e None, w).

(** In a release build. *)
Definition parent_before_poll (ms : list Module) (st : RequestState) (w : World)
    : RequestState * World * result unit Reply :=
  if stack_poll_hooks ms then
    let '(e, w, r) := before_poll ms (rs_ext st) w in
    let st := MkState e (rs_ended_by st) in
    match r with
    | Ok _ => (st, w, Ok tt)
    | Err early => (record_early st early, w, Err (reply early))
    end
  else (st, w, Ok tt).

Definition parent_after_poll (ms : list Module) (poll : Poll) (st : RequestState) (w : World)
    : RequestState * World * result unit Reply :=
  if stack_poll_hooks ms then
    let '(w, r) := after_poll ms poll (rs_ext st) w in
    match r with
    | Ok _ => (st, w, Ok tt)
    | Err early => (record_early st early, w, Err (reply early))
    end
  else (st, w, Ok tt).

Record ChildContext := MkChild {
  child_method_name : option CowGrpcMethod;
  cc_state : Ext;
  root_method : CowGrpcMethod;
  root_sent : bool;
}.

Definition client_hooks_new (m : GrpcMethod) (req : Request) : ChildContext :=
  MkChild None (new value) (resolve_method_name_from_request m (metadata_of req)) false.

Definition set_method_name (self : ChildContext) (name : CowGrpcMethod) : ChildContext :=
  MkChild (Some name) (cc_state self) (root_method self) (root_sent self).

Definition with_state (self : ChildContext) (e : Ext) : ChildContext :=
  MkChild (child_method_name self) e (root_method self) (root_sent self).

(** The mutable state of one call. *)
Record ChildCall := MkChildCall {
  cc_request : Request;
  cc_ctx : ChildContext;
  cc_parent : RequestState;
  cc_world : World;
}.

Definition parent_before_child_rpc (ms : list Module) (child_method : GrpcMethod) (c : ChildCall)
    : outcome (ChildCall * result unit Status) :=
  let name := resolve_method_name_from_request child_method (metadata_of (cc_request c)) in
  let ctx := set_method_name (cc_ctx c) name in
  let back (s : CallState) :=
    MkChildCall (request s) (with_state ctx (child s))
      (MkState (ext s) (rs_ended_by (cc_parent c))) (world s) in
  let '(s, r) := before_child_rpc ms name
    (MkCall (cc_state ctx) (cc_request c) wire_out_new (rs_ext (cc_parent c)) (cc_world c)) in
  match r with
  | Err rejection => Ret (back s, Err (status rejection))
  | Ok _ =>
      let '(s, r) := seal_child_rpc ms name s in
      match r with
      | Err rejection =>
          let w := reject_child_rpc ms name (rejection_by rejection) (status rejection)
                     (child s) (ext s) (world s) in
          Ret (back (with_world s w), Err (status rejection))
      | Ok _ =>
          md ← install (child_wire s) (metadata_of (request s));
          let c := back s in
          Ret (MkChildCall (with_metadata md (cc_request c)) (cc_ctx c) (cc_parent c) (cc_world c),
               Ok tt)
      end
  end.

Definition parent_after_child_rpc (ms : list Module) (response : Reply) (ctx : ChildContext)
    (st : RequestState) (w : World) : outcome (World * result unit Status) :=
  match child_method_name ctx with
  | Some child_method =>
      response_wire ← expect (from_metadata (reply_metadata response));
      Ret (after_child_rpc ms child_method (Sent response) response_wire (cc_state ctx) (rs_ext st) w)
  | None => Ret (w, Ok tt)
  end.

Definition finalize_before_serialization (ms : list Module) (r : Reply) (st : RequestState) (w : World)
    : outcome (Reply * World) :=
  let '(r, wire, w) := finalize ms r (outcome_of st) wire_out_new (rs_ext st) w in
  md ← install wire (reply_metadata r);
  Ret (with_reply_metadata md r, w).

(** ** The client's hooks *)

Definition try_before_send (ms : list Module) (c : ChildCall) : outcome (ChildCall * result unit Status) :=
  if decide (is_Some (child_method_name (cc_ctx c))) then Ret (c, Ok tt)
  else
    match out_from_metadata (metadata_of (cc_request c)) with
    | Err err =>
        Ret (c, Err (invalid_argument (bytes_of_string "invalid root metadata: " ++ wire_error_text err)))
    | Ok wire =>
        let '(s, r) := before_root_rpc ms (root_method (cc_ctx c))
          (MkRoot (cc_request c) wire (cc_state (cc_ctx c)) (cc_world c)) in
        let c := MkChildCall (root_request s) (with_state (cc_ctx c) (root_state s))
                   (cc_parent c) (root_world s) in
        match r with
        | Err rejection => Ret (c, Err (status rejection))
        | Ok _ =>
            value ← header_value_of (root_wire s);
            req ← (if decide (value = []) then Ret (cc_request c)
                   else md ← install (root_wire s) (metadata_of (cc_request c));
                        Ret (with_metadata md (cc_request c)));
            Ret (MkChildCall req
                   (MkChild (child_method_name (cc_ctx c)) (cc_state (cc_ctx c))
                      (root_method (cc_ctx c)) true)
                   (cc_parent c) (cc_world c), Ok tt)
        end
    end.

Definition after_recv (ms : list Module) (response : Reply) (ctx : ChildContext) (w : World)
    : Reply * ChildContext * World :=
  if root_sent ctx then
    let ctx := MkChild (child_method_name ctx) (cc_state ctx) (root_method ctx) false in
    let '(w, r) :=
      match from_metadata (reply_metadata response) with
      | Ok wire => after_root_rpc ms (root_method ctx) (Sent response) wire (cc_state ctx) w
      | Err err =>
          (w, Err (internal (bytes_of_string "invalid root response metadata: " ++ wire_error_text err)))
      end in
    (match r with Err st => Err st | Ok _ => response end, ctx, w)
  else (response, ctx, w).

(** ** The generated client method *)

(** [generate_unary]'s method, with [send] for the transport and [parent] for
    whether the call is made while a request is handled. *)
Definition unary (ms : list Module) (parent : bool) (send : Request → World → Reply * World)
    (grpc_method : GrpcMethod) (req : Request) (st : RequestState) (w : World)
    : outcome (RequestState * World * Reply) :=
  let c := MkChildCall req (client_hooks_new grpc_method req) st w in
  '(c, r) ← (if parent then parent_before_child_rpc ms grpc_method c else Ret (c, Ok tt));
  match r with
  | Err s => Ret (cc_parent c, cc_world c, Err s)
  | Ok _ =>
      '(c, r) ← try_before_send ms c;
      match r with
      | Err s => Ret (cc_parent c, cc_world c, Err s)
      | Ok _ =>
          let '(resp, w) := send (cc_request c) (cc_world c) in
          let '(resp, ctx, w) := after_recv ms resp (cc_ctx c) w in
          '(w, r) ← (if parent then parent_after_child_rpc ms resp ctx (cc_parent c) w
                     else Ret (w, Ok tt));
          match r with
          | Err s => Ret (cc_parent c, w, Err s)
          | Ok _ => Ret (cc_parent c, w, resp)
          end
      end
  end.
End hooks.

(** ** Pairing *)

(** A module's call of one of its RPC hooks. *)
Inductive event :=
| Before (name : bytes)
| Seal (name : bytes)
| After (name : bytes) (was_sent : bool).

Section tracing.
  Context {TypeId : Type} `{EqDecision TypeId} {value : TypeId → Type}.
  Context {Request Response Status Server World : Type}.

Notation Ext := (Extensions value).
Notation Module W := (@Stack.Module TypeId value CowGrpcMethod Request Response Status Server W).
Notation CallState W := (@Stack.CallState TypeId value Request W).
Notation RootCall W := (@Stack.RootCall TypeId value Request W).

(** The world with the log of the calls made so far. *)
Notation Logged := (World * list event)%type.

Definition log_event {X} (e : event) (l : list event) (r : World * X) : Logged * X :=
  ((r.1, l ++ [e]), r.2).

(** A child-RPC hook of a module, run on the world behind the log. *)
Definition log_call (hook : CallState World → CallState World * result unit Status) (e : event)
    (s : CallState Logged) : CallState Logged * result unit Status :=
  let '(w, l) := world s in
  let '(s, r) := hook (MkCall (child s) (request s) (child_wire s) (ext s) w) in
  (MkCall (child s) (request s) (child_wire s) (ext s) (world s, l ++ [e]), r).

Definition log_root (hook : RootCall World → RootCall World * result unit Status) (e : event)
    (s : RootCall Logged) : RootCall Logged * result unit Status :=
  let '(w, l) := root_world s in
  let '(s, r) := hook (MkRoot (root_request s) (root_wire s) (root_state s) w) in
  (MkRoot (root_request s) (root_wire s) (root_state s) (root_world s, l ++ [e]), r).

(** The module [m], logging its RPC hooks and doing what [m] does. *)
Definition traced (m : Module World) : Module Logged := {|
  decl := decl m;
  POLL_HOOKS := POLL_HOOKS m;
  server_name := server_name m;
  m_server_new := m_server_new m;
  m_before_root_rpc method := log_root (m_before_root_rpc m method) (Before (NAME m));
  m_after_root_rpc method o wire c w :=
    log_event (After (NAME m) (bool_decide (is_Some (sent o)))) w.2
      (m_after_root_rpc m method o wire c w.1);
  m_new method server wire e w := let '(e, w') := m_new m method server wire e w.1 in (e, (w', w.2));
  m_before_poll e w := let '(e, w', r) := m_before_poll m e w.1 in (e, (w', w.2), r);
  m_after_poll poll e w := let '(w', r) := m_after_poll m poll e w.1 in ((w', w.2), r);
  m_before_child_rpc method := log_call (m_before_child_rpc m method) (Before (NAME m));
  m_seal_child_rpc method := log_call (m_seal_child_rpc m method) (Seal (NAME m));
  m_after_child_rpc method o wire c e w :=
    log_event (After (NAME m) (bool_decide (is_Some (sent o)))) w.2
      (m_after_child_rpc m method o wire c e w.1);
  m_finalize r o wire e w :=
    let '(r, wire, w') := m_finalize m r o wire e w.1 in (r, wire, (w', w.2));
|}.

Definition log_of (s : CallState Logged) : list event := snd (world s).

Lemma log_call_log hook e s : log_of (log_call hook e s).1 = log_of s ++ [e].
Proof.
  unfold log_call, log_of. destruct (world s) as [w l]. by destruct (hook _) as [s' r].
Qed.

Lemma all_accept_log (hook : Module World → CallState World → CallState World * result unit Status)
    (ev : bytes → event) (thook : Module Logged → CallState Logged → CallState Logged * result unit Status)
    ms s s' :
  (∀ m, thook (traced m) = log_call (hook m) (ev (NAME m))) →
  all_accept thook (traced <$> ms) s s' →
  log_of s' = log_of s ++ (ev <$> (NAME <$> ms)).
Proof.
  intros Hhook. revert s; induction ms as [|m ms IH]; intros s Hacc; cbn in Hacc.
  - inversion Hacc; subst. cbn. by rewrite app_nil_r.
  - inversion Hacc as [|? ? ? s1 ? Hm Ht]; subst. rewrite Hhook in Hm.
    rewrite (IH s1 Ht). apply (f_equal fst) in Hm. cbn [fst] in Hm. rewrite <-Hm, log_call_log.
    cbn. by rewrite <-app_assoc.
Qed.

Lemma tell_log method o wire c e (ms : list (Module World)) (w : Logged) :
  snd (notify method o wire c e (traced <$> ms) w)
    = w.2 ++ ((λ n, After n (bool_decide (is_Some (sent o)))) <$> (NAME <$> ms)).
Proof.
  unfold notify. revert w; induction ms as [|m ms IH]; intros w; cbn; [by rewrite app_nil_r|].
  unfold log_event. destruct (m_after_child_rpc m method o wire c e w.1) as [w' r]. cbn.
  match goal with |- context [tell ?a ?b ?c ?d ?f ?g ?h] =>
    specialize (IH h); destruct (tell a b c d f g h) as [w2 rs] end.
  cbn in *. rewrite IH. by rewrite <-app_assoc.
Qed.

Lemma names_traced (ms : list (Module World)) : NAME <$> (traced <$> ms) = NAME <$> ms.
Proof. by rewrite <-list_fmap_compose. Qed.

Lemma traced_split (ms : list (Module World)) pre m post :
  traced <$> ms = pre ++ m :: post →
  ∃ pre' m' post', ms = pre' ++ m' :: post' ∧ pre = traced <$> pre' ∧ m = traced m' ∧
    post = traced <$> post'.
Proof.
  intros Hms%fmap_app_inv. destruct Hms as (pre' & rest & -> & Hrest & ->).
  symmetry in Hrest. apply fmap_cons_inv in Hrest as (m' & post' & -> & -> & ->).
  by exists pre', m', post'.
Qed.

(** The log of a call that was set up: the modules that ran [before_child_rpc],
    those that sealed, and how the call ended for those that ran. *)
Definition paired (names : list bytes) (log : list event) (was_sent : bool) : Prop :=
  ∃ ran sealed rest, names = ran ++ rest ∧ sealed `prefix_of` reverse names ∧
    (rest ≠ [] → sealed = []) ∧ (was_sent = true → rest = [] ∧ sealed = reverse names) ∧
    log = (Before <$> ran) ++ (Seal <$> sealed) ++ ((λ n, After n was_sent) <$> reverse ran).

Lemma fmap_NAME_reverse (ms : list (Module World)) : NAME <$> reverse ms = reverse (NAME <$> ms).
Proof. apply fmap_reverse. Qed.

Lemma before_child_rpc_log (ms : list (Module World)) method s :
  let '(s', r) := before_child_rpc (traced <$> ms) method s in
  match r with
  | Ok _ => log_of s' = log_of s ++ (Before <$> (NAME <$> ms))
  | Err _ => ∃ ran rest, NAME <$> ms = ran ++ rest ∧ 
      log_of s' = log_of s ++ (Before <$> ran) ++ ((λ n, After n false) <$> reverse ran)
  end.
Proof.
  pose proof (before_child_rpc_spec (traced <$> ms) method s) as Hs. cbn zeta in Hs.
  destruct (before_child_rpc (traced <$> ms) method s) as [s' [[]|rej]].
  - by apply (all_accept_log (λ m, m_before_child_rpc m method) Before) in Hs.
  - destruct Hs as (pre & m & post & s1 & s2 & Hms & Hpre & Hm & _ & ->).
    apply traced_split in Hms as (pre' & m' & post' & -> & -> & -> & ->).
    apply (all_accept_log (λ m, m_before_child_rpc m method) Before) in Hpre; [|done].
    exists (NAME <$> pre' ++ [m']), (NAME <$> post').
    split; [by rewrite !fmap_app, <-app_assoc|].
    change [traced m'] with (traced <$> [m']). rewrite <-fmap_app, <-fmap_reverse.
    unfold log_of at 1. cbn [world with_world]. rewrite tell_log.
    apply (f_equal fst) in Hm. cbn [fst] in Hm. change (snd (world s2)) with (log_of s2).
    rewrite <-Hm. change (m_before_child_rpc (traced m') method)
      with (log_call (m_before_child_rpc m' method) (Before (NAME m'))).
    rewrite log_call_log. unfold log_of in Hpre |- *. cbn [world enter]. rewrite Hpre.
    rewrite <-fmap_reverse, !fmap_app, <-!app_assoc. done.
Qed.

Lemma seal_child_rpc_log (ms : list (Module World)) method s :
  let '(s', r) := seal_child_rpc (traced <$> ms) method s in
  match r with
  | Ok _ => log_of s' = log_of s ++ (Seal <$> reverse (NAME <$> ms))
  | Err _ => ∃ sealed, sealed `prefix_of` reverse (NAME <$> ms) ∧
      log_of s' = log_of s ++ (Seal <$> sealed)
  end.
Proof.
  pose proof (seal_child_rpc_spec (traced <$> ms) method s) as Hs. cbn zeta in Hs.
  destruct (seal_child_rpc (traced <$> ms) method s) as [s' [[]|rej]].
  - rewrite <-fmap_reverse in Hs.
    apply (all_accept_log (λ m, m_seal_child_rpc m method) Seal) in Hs; [|done].
    by rewrite Hs, fmap_NAME_reverse.
  - destruct Hs as (pre & m & post & s1 & Hms & Hpost & Hm & _).
    apply traced_split in Hms as (pre' & m' & post' & -> & -> & -> & ->).
    rewrite <-fmap_reverse in Hpost.
    apply (all_accept_log (λ m, m_seal_child_rpc m method) Seal) in Hpost; [|done].
    exists (NAME <$> reverse post' ++ [m']). split.
    + rewrite <-fmap_reverse, reverse_app, reverse_cons. exists (NAME <$> reverse pre').
      by rewrite !fmap_app.
    + apply (f_equal fst) in Hm. cbn [fst] in Hm. rewrite <-Hm.
      change (m_seal_child_rpc (traced m') method)
        with (log_call (m_seal_child_rpc m' method) (Seal (NAME m'))).
      rewrite log_call_log. unfold log_of in Hpost |- *. cbn [world enter]. rewrite Hpost.
      rewrite !fmap_app, <-!app_assoc. done.
Qed.

Section lifecycle.
  Context {MD : Type} {HM : Metadata MD}.
  Context {MReq : HasMetadata Request MD} {MRes : HasMetadata Response MD}
    {MSt : HasMetadata Status MD}.
  Context (invalid_argument internal : bytes → Status).

(** The transport, which runs no hook. *)
Definition send_logged (send : Request → World → result Response Status * World)
    (req : Request) (w : Logged) : result Response Status * Logged :=
  let '(r, w') := send req w.1 in (r, (w', w.2)).

Lemma parent_before_log (ms : list (Module World)) m c c' r :
  parent_before_child_rpc (traced <$> ms) m c = Ret (c', r) →
  match r with
  | Ok _ => snd (cc_world c') = snd (cc_world c) ++ (Before <$> (NAME <$> ms))
                ++ (Seal <$> reverse (NAME <$> ms)) ∧ is_Some (child_method_name (cc_ctx c')) ∧
              root_sent (cc_ctx c') = root_sent (cc_ctx c)
  | Err _ => ∃ log, snd (cc_world c') = snd (cc_world c) ++ log ∧ paired (NAME <$> ms) log false
  end.
Proof.
  unfold parent_before_child_rpc. set (name := resolve_method_name_from_request _ _).
  set (s0 := MkCall _ _ _ _ _).
  pose proof (before_child_rpc_log ms name s0) as Hb.
  destruct (before_child_rpc (traced <$> ms) name s0) as [s1 [[]|rej]].
  - pose proof (seal_child_rpc_log ms name s1) as Hseal.
    destruct (seal_child_rpc (traced <$> ms) name s1) as [s2 [[]|rej]].
    + destruct (install _ _) as [md|]; [|done]. intros [= <- <-]. cbn [cc_world cc_ctx].
      unfold log_of in *. cbn in Hb. rewrite Hseal, Hb. by rewrite <-app_assoc.
    + intros [= <- <-]. destruct Hseal as (sealed & Hpre & Hlog). cbn [cc_world].
      rewrite reject_child_rpc_eq, <-fmap_reverse. cbn [world with_world]. rewrite tell_log.
      change (snd (world s2)) with (log_of s2). rewrite Hlog, Hb.
      exists ((Before <$> (NAME <$> ms)) ++ (Seal <$> sealed)
        ++ ((λ n, After n false) <$> reverse (NAME <$> ms))).
      split; [rewrite fmap_NAME_reverse, <-!app_assoc; done|].
      exists (NAME <$> ms), sealed, []. split_and!; by rewrite ?app_nil_r.
  - intros [= <- <-]. destruct Hb as (ran & rest & Hms & Hlog). cbn [cc_world].
    exists ((Before <$> ran) ++ ((λ n, After n false) <$> reverse ran)). split; [exact Hlog|].
    exists ran, [], rest. split_and!; [done|apply prefix_nil|done|done|done].
Qed.

Lemma parent_after_log (ms : list (Module World)) response ctx st (w : Logged) name :
  child_method_name ctx = Some name →
  ∀ w' r, parent_after_child_rpc (traced <$> ms) response ctx st w = Ret (w', r) →
  snd w' = snd w ++ ((λ n, After n true) <$> reverse (NAME <$> ms)).
Proof.
  intros Hn w' r. unfold parent_after_child_rpc. rewrite Hn.
  destruct (expect _) as [wire|]; [|done]. cbn [mbind outcome_bind].
  rewrite after_child_rpc_eq, <-fmap_reverse.
  pose proof (tell_log name (Sent response) wire (cc_state ctx) (rs_ext st) (reverse ms) w) as Ht.
  unfold notify in Ht. destruct (tell _ _ _ _ _ _ _) as [w2 rs]. intros [= <- <-].
  cbn [fst] in Ht. rewrite Ht, fmap_NAME_reverse. done.
Qed.

(** C1: an RPC made while a request is handled pairs the modules' hooks,
    whether the RPC is sent or a module rejects it. Some modules at the front
    of the stack run [before_child_rpc], in stack order; if they all do, some
    run [seal_child_rpc], in reverse order; then each module that ran
    [before_child_rpc], and no other, runs [after_child_rpc] exactly once, in
    reverse order, told whether the RPC was sent. It is sent only if every
    module accepted and sealed. *)
Theorem unary_child_paired (ms : list (Module World)) send m req st w st' w' log r :
  unary invalid_argument internal (traced <$> ms) true (send_logged send) m req st (w, [])
    = Ret (st', (w', log), r) →
  ∃ was_sent, paired (NAME <$> ms) log was_sent.
Proof.
  unfold unary. destruct (parent_before_child_rpc _ _ _) as [[c r1]|] eqn:Hb; [|done].
  apply parent_before_log in Hb. cbn [mbind outcome_bind cc_world snd] in *.
  destruct r1 as [[]|e].
  - destruct Hb as (Hlog & Hname & Hroot). unfold try_before_send. rewrite decide_True by done.
    cbn [mbind outcome_bind]. destruct (send_logged send _ _) as [resp w1] eqn:Hsend.
    assert (snd w1 = snd (cc_world c)) as Hw.
    { unfold send_logged in Hsend. destruct (send _ _). by injection Hsend as _ <-. }
    destruct (after_recv _ _ _ _ _) as [[resp' ctx] w2] eqn:Hr.
    assert (resp' = resp ∧ w2 = w1 ∧ is_Some (child_method_name ctx)) as (-> & -> & [nm Hnm]).
    { change (root_sent (cc_ctx c) = false) in Hroot. unfold after_recv in Hr. rewrite Hroot in Hr. by injection Hr as <- <- <-. }
    pose proof (parent_after_log ms resp ctx (cc_parent c) w1 nm Hnm) as Ha.
    destruct (parent_after_child_rpc _ _ _ _ _) as [[w3 r3]|]; [|done].
    cbn [mbind outcome_bind]. specialize (Ha _ _ eq_refl).
    assert (snd w3 = (Before <$> (NAME <$> ms)) ++ (Seal <$> reverse (NAME <$> ms))
      ++ ((λ n, After n true) <$> reverse (NAME <$> ms))) as Hw3
      by (rewrite Ha, Hw, Hlog; cbn [cc_world snd app]; by rewrite <-app_assoc).
    intros Hret. exists true.
    assert (log = snd w3) as -> by (destruct r3; by injection Hret as _ -> _).
    exists (NAME <$> ms), (reverse (NAME <$> ms)), []. split_and!; by rewrite ?app_nil_r.
  - destruct Hb as (log' & Hl & Hp). intros [= <- Hww <-]. exists false.
    rewrite Hww in Hl. cbn in Hl. by subst.
Qed.
End lifecycle.
End tracing.

(** ** Serving a unary request *)

(** [AbortableFuture::poll]: a hook's output, if it gives one, replaces the
    inner future's, and after [before_poll] gave one the inner future is not
    polled. *)
Definition abortable_poll {S O : Type} (before : S → S * option O) (inner : S → S * option O)
    (after : option O → S → S * option O) (s : S) : S * option O :=
  match before s with
  | (s, Some alt_output) => (s, Some alt_output)
  | (s, None) =>
      let '(s, poll_result) := inner s in
      match after poll_result s with
      | (s, Some alt_output) => (s, Some alt_output)
      | (s, None) => (s, poll_result)
      end
  end.

Section serving.
  Context {TypeId : Type} `{EqDecision TypeId} {value : TypeId → Type}.
  Context {Request Response Status Server World : Type}.
  Context {MD : Type} {HM : Metadata MD} {MRes : HasMetadata Response MD} {MSt : HasMetadata Status MD}.

Notation Ext := (Extensions value).
Notation Module := (@Stack.Module TypeId value CowGrpcMethod Request Response Status Server World).
Notation Reply := (result Response Status).

  (** The handler's future: a step that may change the request's extensions,
      through the child RPCs it makes, but not how the request ended. *)
  Context {Future : Type} (handler : Future → Ext → World → Future * Ext * World * option Reply).

(** The future, the request's state, and the thread's [PARENT_CTX]. *)
Record Serving := MkServing {
  sv_future : Future;
  sv_state : @RequestState TypeId value Status;
  sv_world : World;
  sv_parent_ctx : bool;
}.

Definition poll_of (p : option Reply) : Poll :=
  match p with Some r => Ready r | None => Pending end.

(** The closures of [masa_unary]. *)
Definition before_hook (ms : list Module) (s : Serving) : Serving * option Reply :=
  let '(st, w, r) := parent_before_poll ms (sv_state s) (sv_world s) in
  match r with
  | Ok _ => (MkServing (sv_future s) st w true, None)
  | Err e => (MkServing (sv_future s) st w false, Some e)
  end.

Definition poll_handler (s : Serving) : Serving * option Reply :=
  let '(f, e, w, p) := handler (sv_future s) (rs_ext (sv_state s)) (sv_world s) in
  (MkServing f (MkState e (rs_ended_by (sv_state s))) w (sv_parent_ctx s), p).

Definition after_hook (ms : list Module) (p : option Reply) (s : Serving) : Serving * option Reply :=
  let '(st, w, r) := parent_after_poll ms (poll_of p) (sv_state s) (sv_world s) in
  (MkServing (sv_future s) st w false, match r with Ok _ => None | Err e => Some e end).

(** The executor polls the wrapped future until it is ready. *)
Fixpoint drive (fuel : nat) (ms : list Module) (s : Serving) : Serving * option Reply :=
  match fuel with
  | 0 => (s, None)
  | S fuel =>
      match abortable_poll (before_hook ms) poll_handler (after_hook ms) s with
      | (s, Some r) => (s, Some r)
      | (s, None) => drive fuel ms s
      end
  end.

(** [masa_unary] from the request's [ParentContext] to the reply it serializes;
    [None] while the handler is still pending. *)
Definition masa_unary (fuel : nat) (ms : list Module) (s : Serving) : outcome (option (Reply * World)) :=
  match drive fuel ms s with
  | (s, Some r) => Some <$> finalize_before_serialization ms r (sv_state s) (sv_world s)
  | (_, None) => Ret None
  end.

Lemma before_poll_err (ms : list Module) e w e' w' early :
  before_poll ms e w = (e', w', Err early) → early_by early ∈ NAME <$> ms.
Proof.
  revert e w; induction ms as [|h t IH]; intros e w; cbn [before_poll]; [done|].
  destruct (POLL_HOOKS h).
  - destruct (m_before_poll h _ w) as [[e1 w1] [[]|r]].
    + intros Hb%IH. by right.
    + intros [= <- <- <-]. by left.
  - intros Hb%IH. by right.
Qed.

Lemma after_poll_err (ms : list Module) p e w w' early :
  after_poll ms p e w = (w', Err early) → early_by early ∈ NAME <$> ms.
Proof.
  revert w; induction ms as [|h t IH]; intros w; cbn [after_poll]; [done|].
  destruct (POLL_HOOKS h).
  - destruct (m_after_poll h _ e w) as [w1 [[]|r]].
    + intros Ha%IH. by right.
    + intros [= <- <-]. by left.
  - intros Ha%IH. by right.
Qed.

(** How [outcome_of] explains a reply. *)
Definition explains (ms : list Module) (o : @Outcome Status) (r : Reply) : Prop :=
  match o with
  | Handled => ∃ f e w f' e' w', handler f e w = (f', e', w', Some r)
  | Rejected by_ st => r = Err st ∧ by_ ∈ NAME <$> ms
  | Replied by_ => (∃ resp, r = Ok resp) ∧ by_ ∈ NAME <$> ms
  end.

Lemma record_explains (ms : list Module) (st : @RequestState TypeId value Status) early :
  rs_ended_by st = None → early_by early ∈ NAME <$> ms →
  explains ms (outcome_of (record_early st early)) (reply early).
Proof.
  intros Hnone Hin. unfold record_early, outcome_of. cbn [rs_ended_by]. rewrite Hnone.
  destruct (reply early) as [resp|s]; cbn; [split; [by eexists|done]|done].
Qed.

Lemma poll_once_spec (ms : list Module) s :
  rs_ended_by (sv_state s) = None →
  let '(s', p) := abortable_poll (before_hook ms) poll_handler (after_hook ms) s in
  sv_parent_ctx s' = false ∧
  match p with
  | None => rs_ended_by (sv_state s') = None
  | Some r => explains ms (outcome_of (sv_state s')) r
  end.
Proof.
  intros Hnone. unfold abortable_poll, before_hook, parent_before_poll.
  assert (∀ st w f, rs_ended_by st = None →
    let '(s', p) := let '(s, poll_result) := poll_handler (MkServing f st w true) in
      match after_hook ms poll_result s with
      | (s, Some alt_output) => (s, Some alt_output)
      | (s, None) => (s, poll_result)
      end in
    sv_parent_ctx s' = false ∧ match p with
      | None => rs_ended_by (sv_state s') = None
      | Some r => explains ms (outcome_of (sv_state s')) r end) as Hrest.
  { intros st w f Hst. unfold poll_handler. cbn [sv_future sv_state sv_world sv_parent_ctx].
    destruct (handler f (rs_ext st) w) as [[[f' e'] w'] p] eqn:Hh.
    unfold after_hook, parent_after_poll. cbn [sv_future sv_state sv_world rs_ext rs_ended_by].
    assert (sv_parent_ctx (MkServing f' (MkState e' (rs_ended_by st)) w' false) = false ∧
      match p with
      | None => rs_ended_by st = None
      | Some r => explains ms (outcome_of (MkState e' (rs_ended_by st))) r end) as Hplain.
    { split; [done|]. destruct p as [r|]; [|done]. unfold outcome_of. cbn. rewrite Hst.
      cbn. by do 6 eexists. }
    destruct (stack_poll_hooks ms); [|by destruct p].
    destruct (after_poll ms (poll_of p) e' w') as [w2 [[]|early]] eqn:Ha; [by destruct p|].
    split; [done|]. apply record_explains; [done|]. by eapply after_poll_err. }
  destruct (stack_poll_hooks ms).
  - destruct (before_poll ms (rs_ext (sv_state s)) (sv_world s)) as [[e' w'] [[]|early]] eqn:Hb.
    + by apply Hrest.
    + split; [done|]. apply record_explains; [done|]. by eapply before_poll_err.
  - by apply Hrest.
Qed.

Lemma drive_spec fuel (ms : list Module) s :
  rs_ended_by (sv_state s) = None → sv_parent_ctx s = false →
  let '(s', p) := drive fuel ms s in
  sv_parent_ctx s' = false ∧
  match p with
  | None => rs_ended_by (sv_state s') = None
  | Some r => explains ms (outcome_of (sv_state s')) r
  end.
Proof.
  revert s; induction fuel as [|fuel IH]; intros s Hnone Hctx; cbn [drive]; [done|].
  pose proof (poll_once_spec ms s Hnone) as Hp.
  destruct (abortable_poll _ _ _ s) as [s1 [r|]]; [done|]. destruct Hp. by apply IH.
Qed.

(** However many polls a request takes, the outcome [finalize] is given
    explains the reply: [Handled] only if the handler produced that reply;
    [Rejected] names a module of the stack and carries the reply's own status;
    [Replied] names a module that supplied a response. The request's context is
    visible to child RPCs only during a poll of the handler. *)
Theorem serve_outcome_explains fuel (ms : list Module) s s' r :
  rs_ended_by (sv_state s) = None → sv_parent_ctx s = false →
  drive fuel ms s = (s', Some r) →
  sv_parent_ctx s' = false ∧ explains ms (outcome_of (sv_state s')) r.
Proof. intros Hnone Hctx Hd. pose proof (drive_spec fuel ms s Hnone Hctx) as Hs. by rewrite Hd in Hs. Qed.
End serving.

(** ** Sample runs *)

(** Messages that are their metadata, and modules with the trait's default
    hooks but one that may reject. *)
Definition sample_md : Type := list (bytes * bytes).

#[export] Instance sample_has_metadata : HasMetadata sample_md sample_md := {|
  metadata_of m := m;
  with_metadata m _ := m;
|}.

Definition sample_module (name : bytes) (rejects ends : bool)
    : @Stack.Module unit (λ _, nat) CowGrpcMethod sample_md sample_md sample_md unit nat := {|
  decl := MkDecl tt name name false false [];
  POLL_HOOKS := true;
  server_name := name;
  m_server_new init := (init, Ok tt);
  m_before_root_rpc _ s := (s, Ok tt);
  m_after_root_rpc _ _ _ _ w := (w, Ok tt);
  m_new _ _ _ e w := (e, w);
  m_before_poll e w := (e, w, if ends && bool_decide (w = 0) then Err (Err []) else Ok tt);
  m_after_poll _ _ w := (w, Ok tt);
  m_before_child_rpc _ s := (s, if rejects then Err [] else Ok tt);
  m_seal_child_rpc _ s := (s, Ok tt);
  m_after_child_rpc _ _ _ _ _ w := (w, Ok tt);
  m_finalize r _ wire _ w := (r, wire, w);
|}.

Lemma unary_child_paired_witness :
  let ms := [sample_module [97%Z] false false; sample_module [98%Z] true false;
             sample_module [99%Z] false false] in
  ∃ st' w' log r,
    @unary unit (λ _, nat) _ _ _ _ _ _ list_metadata _ _ _ (λ _, []) (λ _, [])
      (traced <$> ms) true (send_logged (λ req w, (Ok req, w)))
      (MkGrpc [] []) [] (MkState (new _) None) (0, []) = Ret (st', (w', log), r) ∧
    log = [Before [97%Z]; Before [98%Z]; After [98%Z] false; After [97%Z] false] ∧
    ∃ was_sent, paired [[97%Z]; [98%Z]; [99%Z]] log was_sent.
Proof.
  intros ms. do 4 eexists. split; [by vm_compute|]. split; [done|].
  refine (@unary_child_paired unit (λ _, nat) sample_md sample_md sample_md unit nat
    sample_md list_metadata _ _ _ (λ _, []) (λ _, []) ms (λ req w, (Ok req, w)) (MkGrpc [] []) []
    (MkState (new _) None) 0 _ _ _ _ _).
  by vm_compute.
Defined.

Lemma serve_outcome_explains_witness :
  let ms := [sample_module [97%Z] false false; sample_module [98%Z] false true] in
  let handler (f : nat) (e : Extensions (λ _ : unit, nat)) (w : nat) := (f, e, w - 1, None) in
  let s := MkServing 0 (MkState (new (λ _ : unit, nat)) None) 2 false in
  ∃ s', drive handler 5 ms s = (s', Some (Err [])) ∧ sv_parent_ctx s' = false ∧
    outcome_of (sv_state s') = Rejected [98%Z] [] ∧
    explains handler ms (outcome_of (sv_state s')) (Err []).
Proof.
  intros ms handler s. eexists. split; [by vm_compute|].
  split; [done|]. split; [done|].
  refine (proj2 (serve_outcome_explains handler 5 ms s _ (Err []) eq_refl eq_refl _)).
  by vm_compute.
Defined.
