(* ===== verification/Heap.v ===== *)
(** What the queues use of [std::collections::BinaryHeap]: a max-heap with
    respect to the element's [Ord]. The laws are the documented behaviour; which
    of several greatest elements [pop] returns is left open, so the queues'
    theorems hold for any order among ties. [sorted_heap] is an instance. *)
From S2P Require Export Prelude.
From stdpp Require Import sorting.
From Stdlib Require Import Sorted.

Class BinaryHeap (A : Type) := {
  heap : Type;
  heap_new : heap;
  heap_push : A → heap → heap;
  heap_pop : heap → option (A * heap);
  heap_peek : heap → option A;
  heap_len : heap → nat;
  (** The elements, in no particular order ([BinaryHeap::iter]). *)
  heap_list : heap → list A;
}.
Arguments heap A {_}.

(** [R a b] is [a <= b]. *)
Class BinaryHeapLaws (A : Type) (R : relation A) {H : BinaryHeap A} : Prop := {
  heap_list_new : heap_list heap_new = [];
  heap_list_push a h : heap_list (heap_push a h) ≡ₚ a :: heap_list h;
  heap_pop_None h : heap_pop h = None ↔ heap_list h = [];
  heap_pop_Some h a h' :
    heap_pop h = Some (a, h') →
    heap_list h ≡ₚ a :: heap_list h' ∧ Forall (λ b, R b a) (heap_list h);
  heap_peek_pop h : heap_peek h = fst <$> heap_pop h;
  heap_len_list h : heap_len h = length (heap_list h);
}.

(** ** A sorted list as a heap *)

Section sorted_heap.
  Context {A : Type} (R : relation A) `{!RelDecision R, !Transitive R, !Total R}.

(** Insert before the first smaller-or-equal element: the greatest is first. *)
Fixpoint insert_desc (a : A) (l : list A) : list A :=
  match l with
  | [] => [a]
  | b :: l' => if decide (R b a) then a :: l else b :: insert_desc a l'
  end.

Lemma insert_desc_perm a l : insert_desc a l ≡ₚ a :: l.
Proof.
  induction l as [|b l IH]; simpl; [done|]. case_decide; [done|].
  rewrite IH. constructor.
Qed.

Definition desc (l : list A) : Prop := StronglySorted (flip R) l.

Lemma insert_desc_sorted a l : desc l → desc (insert_desc a l).
Proof.
  unfold desc. induction 1 as [|b l Hl IH Hb]; simpl; [by repeat constructor|].
  case_decide as Hba.
  - constructor; [by constructor|]. constructor; [done|].
    eapply Forall_impl; [done|]. intros c Hc. by etrans.
  - constructor; [done|]. rewrite insert_desc_perm. constructor; [|done].
    destruct (total R a b); [done|]. by destruct Hba.
Qed.

Definition sorted_pop (h : { l : list A | desc l }) : option (A * { l : list A | desc l }) :=
  match h with
  | exist _ [] _ => None
  | exist _ (a :: l) Hl => Some (a, exist _ l (proj1 (StronglySorted_inv Hl)))
  end.

Definition sorted_heap : BinaryHeap A := {|
  heap := { l : list A | desc l };
  heap_new := exist _ [] (SSorted_nil _);
  heap_push a h :=
    let 'exist _ l Hl := h in exist _ (insert_desc a l) (insert_desc_sorted a l Hl);
  heap_pop := sorted_pop;
  heap_peek h := head (proj1_sig h);
  heap_len h := length (proj1_sig h);
  heap_list h := proj1_sig h;
|}.

Lemma sorted_heap_laws : @BinaryHeapLaws A R sorted_heap.
Proof.
  split; simpl.
  - done.
  - intros a [l Hl]. simpl. apply insert_desc_perm.
  - intros [[|a l] Hl]; done.
  - intros [[|a l] Hl] b h' [= <- <-]. simpl. split; [done|].
    apply StronglySorted_inv in Hl as [_ Ha]. constructor; [|exact Ha].
    by destruct (total R a a).
  - by intros [[|a l] Hl].
  - done.
Qed.
End sorted_heap.

(** ** Lemmas for any heap *)

Section heap_lemmas.
  Context {A : Type} {R : relation A} {H : BinaryHeap A} {HL : BinaryHeapLaws A R}.

Lemma heap_peek_Some h a :
  heap_peek h = Some a → ∃ h', heap_pop h = Some (a, h').
Proof. rewrite heap_peek_pop. destruct (heap_pop h) as [[b h']|]; [|done]. intros [= <-]. by exists h'. Qed.

Lemma heap_peek_None h : heap_peek h = None ↔ heap_list h = [].
Proof.
  rewrite heap_peek_pop, <-heap_pop_None. by destruct (heap_pop h) as [[b h']|].
Qed.

Lemma heap_pop_max h a h' :
  heap_pop h = Some (a, h') → a ∈ heap_list h ∧ Forall (λ b, R b a) (heap_list h').
Proof.
  intros [Hp Hm]%heap_pop_Some. rewrite Hp in Hm |- *. apply Forall_cons in Hm as [_ Hm].
  split; [by left|done].
Qed.
End heap_lemmas.
