(* ===== verification/Sched.v ===== *)
(** The scheduling library: libs/rpcstack-sched/src (meta.rs, queue.rs,
    default_policy.rs, custom.rs and builtin/). The runtime hands runnable tasks
    to a [RunQueue] and polls what [pop] returns; the built-in queues order the
    tasks by their [Meta]. [VecDeque] is a list, [BinaryHeap] the interface of
    [Heap]; capacities are hints and are left out. *)
From S2P Require Export Heap Bytes.

(** ** Metadata (meta.rs, default_policy.rs) *)

Record Meta := MkMeta { meta_value : Z }.

#[export] Instance Meta_eq_dec : EqDecision Meta.
Proof. solve_decision. Defined.

(** [Ord] is reversed: the smaller value compares as greater. *)
Definition meta_cmp (self other : Meta) : comparison := (meta_value other ?= meta_value self)%Z.

Definition INFRA : Meta := MkMeta 0.

Definition is_infra (meta : Meta) : bool := bool_decide (meta = INFRA).

Definition meta_for_unannotated_spawn (spawner : option Meta) : Meta := INFRA.

(** ** Items with their key (builtin/keyed.rs) *)

Record Keyed (T : Type) := MkKeyed { keyed_meta : Meta; item : T }.
Arguments MkKeyed {T} _ _.
Arguments keyed_meta {T} _.
Arguments item {T} _.

Definition keyed_cmp {T} (self other : Keyed T) : comparison :=
  meta_cmp (keyed_meta self) (keyed_meta other).

(** [self <= other]. *)
Definition keyed_le {T} (self other : Keyed T) : Prop := keyed_cmp self other ≠ Gt.

#[export] Instance keyed_le_dec {T} : RelDecision (@keyed_le T).
Proof. intros a b. unfold keyed_le. apply _. Defined.

Lemma keyed_le_value {T} (a b : Keyed T) :
  keyed_le a b ↔ (meta_value (keyed_meta b) ≤ meta_value (keyed_meta a))%Z.
Proof. unfold keyed_le, keyed_cmp, meta_cmp. by rewrite Z.compare_le_iff. Qed.

#[export] Instance keyed_le_trans {T} : Transitive (@keyed_le T).
Proof. intros a b c. rewrite !keyed_le_value. lia. Qed.

#[export] Instance keyed_le_total {T} : Total (@keyed_le T).
Proof. intros a b. rewrite !keyed_le_value. lia. Qed.

(** ** The interface (queue.rs) *)

(** [Instant]s are numbers of some unit. *)
Record TaskView := MkView {
  task_id : Z;
  meta : Meta;
  enqueued_at : Z;
  first_enqueued_at : Z;
  polls : Z;
}.

Inductive PollOutcome := Pending | Ready.
Inductive SchedFlavor := Fifo | Prio.

Class RunQueue (T Q : Type) := {
  FLAVOR : SchedFlavor;
  with_capacity : nat → outcome Q;
  push : Q → T → TaskView → Q;
  pop : Q → option T * Q;
  len : Q → nat;
  on_poll_start : Q → TaskView → Q;
  on_poll_end : Q → TaskView → PollOutcome → Q;
  on_idle : Q → Q;
  on_task_exit : Q → Z → Q;
}.

Definition is_empty {T Q} `{RunQueue T Q} (q : Q) : bool := bool_decide (len q = 0).

(** What the runtime relies on: a queue holds exactly the tasks pushed and not
    yet popped, and [pop] returns nothing only when it holds none. *)
Class RunQueueLaws (T Q : Type) {RQ : RunQueue T Q} := {
  queued : Q → list T;
  queue_ok : Q → Prop;
  with_capacity_law cap q : with_capacity cap = Ret q → queue_ok q ∧ queued q = [];
  push_law q t v : queue_ok q → queue_ok (push q t v) ∧ queued (push q t v) ≡ₚ t :: queued q;
  pop_law q :
    queue_ok q →
    queue_ok (pop q).2 ∧
    match (pop q).1 with
    | Some t => queued q ≡ₚ t :: queued (pop q).2
    | None => queued q = [] ∧ queued (pop q).2 = []
    end;
  len_law q : queue_ok q → len q = length (queued q);
  on_poll_start_law q v : queue_ok q → queue_ok (on_poll_start q v) ∧ queued (on_poll_start q v) = queued q;
  on_poll_end_law q v o : queue_ok q → queue_ok (on_poll_end q v o) ∧ queued (on_poll_end q v o) = queued q;
  on_idle_law q : queue_ok q → queue_ok (on_idle q) ∧ queued (on_idle q) = queued q;
  on_task_exit_law q i : queue_ok q → queue_ok (on_task_exit q i) ∧ queued (on_task_exit q i) = queued q;
}.

(** A run of the scheduler, as the queue sees it. *)
Inductive sched_op (T : Type) :=
| Push (t : T) (v : TaskView)
| Pop
| PollStart (v : TaskView)
| PollEnd (v : TaskView) (o : PollOutcome)
| Idle
| TaskExit (i : Z).
Arguments Push {T} _ _.
Arguments Pop {T}.
Arguments PollStart {T} _.
Arguments PollEnd {T} _ _.
Arguments Idle {T}.
Arguments TaskExit {T} _.

Section runs.
  Context {T Q : Type} `{RunQueue T Q}.

(** One operation: the queue after it and the task it pops. *)
Definition sched_step (q : Q) (o : sched_op T) : Q * list T :=
  match o with
  | Push t v => (push q t v, [])
  | Pop => let '(r, q) := pop q in (q, option_list r)
  | PollStart v => (on_poll_start q v, [])
  | PollEnd v o => (on_poll_end q v o, [])
  | Idle => (on_idle q, [])
  | TaskExit i => (on_task_exit q i, [])
  end.

Fixpoint sched_run (q : Q) (ops : list (sched_op T)) : Q * list T :=
  match ops with
  | [] => (q, [])
  | o :: ops =>
      let '(q, ts) := sched_step q o in
      let '(q, ts') := sched_run q ops in
      (q, ts ++ ts')
  end.

Definition pushes (ops : list (sched_op T)) : list T :=
  omap (λ o, match o with Push t _ => Some t | _ => None end) ops.

Context {L : RunQueueLaws T Q}.

Lemma sched_step_ok q o :
  queue_ok q →
  let r := sched_step q o in
  queue_ok r.1 ∧ pushes [o] ++ queued q ≡ₚ r.2 ++ queued r.1.
Proof.
  intros Hq. destruct o as [t v| |v|v o| |i]; cbn [sched_step fst snd pushes omap list_omap app].
  - destruct (push_law q t v Hq) as [? ->]. done.
  - destruct (pop_law q Hq) as [Hok Hp]. destruct (pop q) as [[t|] q']; cbn in *.
    + done.
    + destruct Hp as [-> ->]. done.
  - destruct (on_poll_start_law q v Hq) as [? ->]. done.
  - destruct (on_poll_end_law q v o Hq) as [? ->]. done.
  - destruct (on_idle_law q Hq) as [? ->]. done.
  - destruct (on_task_exit_law q i Hq) as [? ->]. done.
Qed.

Lemma sched_run_ok q ops :
  queue_ok q →
  let r := sched_run q ops in
  queue_ok r.1 ∧ pushes ops ++ queued q ≡ₚ r.2 ++ queued r.1.
Proof.
  revert q; induction ops as [|o ops IH]; intros q Hq; [done|]. cbn [sched_run].
  destruct (sched_step_ok q o Hq) as [Hq' Hs]. destruct (sched_step q o) as [q' ts].
  destruct (IH q' Hq') as [Hq'' Hr]. destruct (sched_run q' ops) as [q'' ts'].
  cbn [fst snd] in *. split; [done|].
  change (pushes (o :: ops)) with (pushes ([o] ++ ops)). unfold pushes in *. rewrite omap_app.
  rewrite <-!app_assoc, <-Hr, (Permutation_app_comm _ (queued q)), app_assoc, Hs.
  rewrite <-!app_assoc. apply Permutation_app_head, Permutation_app_comm.
Qed.

(** Over any run, no task is lost, duplicated or made up, and [len] counts
    the waiting ones: the tasks pushed are the tasks popped and those still in
    the queue, and [pop] returns nothing only when the queue is empty. *)
Theorem run_queue_conserves cap q ops :
  with_capacity cap = Ret q →
  let '(q', popped) := sched_run q ops in
  ∃ waiting, pushes ops ≡ₚ popped ++ waiting ∧ len q' = length waiting ∧
    ((pop q').1 = None ↔ waiting = []).
Proof.
  intros [Hq Hnil]%with_capacity_law.
  destruct (sched_run_ok q ops Hq) as [Hq' Hr]. destruct (sched_run q ops) as [q' popped].
  cbn [fst snd] in *. rewrite Hnil, app_nil_r in Hr. exists (queued q').
  split_and!; [done|by apply len_law|].
  destruct (pop_law q' Hq') as [_ Hp]. destruct (pop q').1 as [t|].
  - split; [done|]. intros He. rewrite He in Hp. by apply Permutation_nil_cons in Hp.
  - by destruct Hp.
Qed.
End runs.
