(* ===== verification/Builtin.v ===== *)
(** The FIFO and priority-heap run queues: builtin/fifo.rs, builtin/prio_heap.rs
    and custom.rs of libs/rpcstack-sched/src. *)
From S2P Require Export Sched.

(** ** First in, first out *)

Module Fifo.
Record FifoQueue (T : Type) := MkFifo { inner : list T }.
Arguments MkFifo {T} _.
Arguments inner {T} _.

#[export] Instance fifo_run_queue {T} : RunQueue T (FifoQueue T) := {|
  FLAVOR := Fifo;
  with_capacity _ := Ret (MkFifo []);
  push self item _ := MkFifo (inner self ++ [item]);
  pop self :=
    match inner self with
    | [] => (None, self)
    | item :: inner => (Some item, MkFifo inner)
    end;
  len self := length (inner self);
  on_poll_start self _ := self;
  on_poll_end self _ _ := self;
  on_idle self := self;
  on_task_exit self _ := self;
|}.

#[export] Instance fifo_laws {T} : RunQueueLaws T (FifoQueue T).
Proof.
  refine {| queued := inner; queue_ok _ := True |}; try done.
  - intros cap q [= <-]. done.
  - intros q t v _. simpl. split; [done|]. by rewrite Permutation_app_comm.
  - intros [[|t l]] _; split; cbn; try split; done.
Defined.

Lemma fifo_run_order {T} (q : FifoQueue T) ops :
  let r := sched_run q ops in inner q ++ pushes ops = r.2 ++ inner r.1.
Proof.
  revert q; induction ops as [|o ops IH]; intros q; cbn [sched_run]; [by rewrite app_nil_r|].
  assert (let r := sched_step q o in inner q ++ pushes [o] = r.2 ++ inner r.1) as Hs.
  { destruct q as [l], o; cbn; rewrite ?app_nil_r; try done. by destruct l. }
  destruct (sched_step q o) as [q' ts]. specialize (IH q').
  destruct (sched_run q' ops) as [q'' ts']. cbn [fst snd] in *.
  change (pushes (o :: ops)) with (pushes ([o] ++ ops)). unfold pushes in *.
  rewrite omap_app, app_assoc, Hs, <-!app_assoc. by f_equal.
Qed.

(** The FIFO queue pops tasks in exactly the order they were pushed. *)
Theorem fifo_pops_in_order {T} cap (q : FifoQueue T) ops :
  with_capacity cap = Ret q →
  (sched_run q ops).2 `prefix_of` pushes ops.
Proof.
  intros [= <-]. pose proof (fifo_run_order (MkFifo []) ops) as Hr. cbn zeta in Hr.
  cbn [inner app] in Hr. rewrite Hr. by eexists.
Qed.

Lemma fifo_pops_in_order_witness :
  let q : FifoQueue nat := MkFifo [] in
  let v := MkView 0 (MkMeta 0) 0 0 0 in
  (sched_run q [Push 1 v; Push 2 v; Pop; Push 3 v; Pop]).2 `prefix_of` [1; 2; 3].
Proof. intros q v. exact (fifo_pops_in_order 0 q [Push 1 v; Push 2 v; Pop; Push 3 v; Pop] eq_refl). Defined.
End Fifo.

(** ** The priority heap *)

Module PrioHeap.
Section prio_heap.
  Context {T : Type} {HB : BinaryHeap (Keyed T)}.

Record BinaryHeapQueue := MkQueue { q : heap (Keyed T); infra_q : list T }.

#[export] Instance prio_run_queue : RunQueue T BinaryHeapQueue := {|
  FLAVOR := Prio;
  with_capacity _ := Ret (MkQueue heap_new []);
  push self item view :=
    if is_infra (meta view) then MkQueue (q self) (infra_q self ++ [item])
    else MkQueue (heap_push (MkKeyed (meta view) item) (q self)) (infra_q self);
  pop self :=
    match infra_q self with
    | item :: infra_q => (Some item, MkQueue (q self) infra_q)
    | [] =>
        match heap_pop (q self) with
        | Some (keyed, q) => (Some (item keyed), MkQueue q (infra_q self))
        | None => (None, self)
        end
    end;
  len self := heap_len (q self) + length (infra_q self);
  on_poll_start self _ := self;
  on_poll_end self _ _ := self;
  on_idle self := self;
  on_task_exit self _ := self;
|}.

Context {HL : BinaryHeapLaws (Keyed T) keyed_le}.

Definition all_items (self : BinaryHeapQueue) : list T :=
  (item <$> heap_list (q self)) ++ infra_q self.

#[export] Instance prio_laws : RunQueueLaws T BinaryHeapQueue.
Proof.
  refine {| queued := all_items; queue_ok _ := True |}; try done.
  - intros cap qu [= <-]. split; [done|]. unfold all_items. simpl. by rewrite heap_list_new.
  - intros qu t v _. split; [done|]. unfold all_items. simpl. destruct (is_infra (meta v)); simpl.
    + by rewrite app_assoc, Permutation_app_comm.
    + by rewrite heap_list_push.
  - intros [h [|t l]] _; (split; [done|]); unfold all_items; simpl.
    + destruct (heap_pop h) as [[k h']|] eqn:Hp; simpl.
      * apply heap_pop_Some in Hp as [-> _]. simpl. done.
      * apply heap_pop_None in Hp. by rewrite Hp.
    + by rewrite Permutation_middle.
  - intros qu _. unfold all_items. simpl. by rewrite length_app, length_fmap, heap_len_list.
Defined.

(** The keyed tasks the queue holds, in the order they were pushed, as an
    abstract state; infrastructure work carries [INFRA]. *)
Definition lanes (self : BinaryHeapQueue) : Prop :=
  Forall (λ k, is_infra (keyed_meta k) = false) (heap_list (q self)).

Lemma lanes_step self o : lanes self → lanes (sched_step self o).1.
Proof.
  unfold lanes. destruct o as [t v| |v|v o| |i]; cbn; try done.
  - destruct (is_infra (meta v)) eqn:Hi; simpl; [done|]. intros Hl. rewrite heap_list_push.
    by constructor.
  - destruct self as [h [|t l]]; cbn [q infra_q]; [|done].
    destruct (heap_pop h) as [[k h']|] eqn:Hp; simpl; [|done].
    apply heap_pop_Some in Hp as [-> _]. by intros [_ ?]%Forall_cons.
Qed.

(** A pop of the priority-heap queue returns infrastructure work first,
    oldest first; with none waiting it returns a task of the smallest [Meta]
    among all that wait, which is never infrastructure work; all others keep
    waiting. *)
Theorem prio_pop_best cap self0 ops :
  with_capacity cap = Ret self0 →
  let self := (sched_run self0 ops).1 in
  match infra_q self with
  | t :: ts => pop self = (Some t, MkQueue (q self) ts)
  | [] =>
      match pop self with
      | (None, self') => heap_list (q self) = []
      | (Some t, self') => ∃ m, heap_list (q self) ≡ₚ MkKeyed m t :: heap_list (q self') ∧
          infra_q self' = [] ∧ is_infra m = false ∧
          Forall (λ k, meta_value m ≤ meta_value (keyed_meta k))%Z (heap_list (q self))
      end
  end.
Proof.
  intros [= <-]. set (self0 := MkQueue heap_new []).
  assert (lanes self0) as H0 by (unfold lanes; simpl; by rewrite heap_list_new).
  assert (lanes (sched_run self0 ops).1) as Hl.
  { revert H0. generalize self0. induction ops as [|o ops IH]; intros s Hs; [done|]. cbn [sched_run].
    pose proof (lanes_step s o Hs). destruct (sched_step s o) as [s' ts]. specialize (IH s').
    destruct (sched_run s' ops). by apply IH. }
  intros self. fold self in Hl. destruct self as [h [|t ts]]; cbn [infra_q q]; [|done].
  unfold lanes in Hl. simpl in *. destruct (heap_pop h) as [[[m t] h']|] eqn:Hp; simpl.
  - apply heap_pop_Some in Hp as [Hperm Hmax]. exists m.
    assert (is_infra m = false) as Hm by (rewrite Hperm in Hl; by apply Forall_cons in Hl as [? _]).
    split_and!; [done..|]. eapply Forall_impl; [exact Hmax|]. intros k. by rewrite keyed_le_value.
  - by apply heap_pop_None in Hp.
Qed.
End prio_heap.

Lemma prio_pop_best_witness :
  let view m := MkView 0 (MkMeta m) 0 0 0 in
  let HB := sorted_heap (@keyed_le nat) in
  let self := (sched_run (MkQueue heap_new []) [Push 1 (view 30%Z); Push 2 (view 0%Z); Pop;
                 Push 3 (view 20%Z); Push 4 (view 40%Z)]).1 in
  match pop self with
  | (None, self') => heap_list (q self) = []
  | (Some t, self') => t = 3 ∧ ∃ m, heap_list (q self) ≡ₚ MkKeyed m t :: heap_list (q self') ∧
      infra_q self' = [] ∧ is_infra m = false ∧
      Forall (λ k, meta_value m ≤ meta_value (keyed_meta k))%Z (heap_list (q self))
  end.
Proof.
  intros view HB self. pose (HL := sorted_heap_laws (@keyed_le nat)).
  pose proof (prio_pop_best 0 (MkQueue heap_new []) [Push 1 (view 30%Z); Push 2 (view 0%Z); Pop;
    Push 3 (view 20%Z); Push 4 (view 40%Z)] eq_refl) as Hp.
  split; [done|exact Hp].
Defined.
End PrioHeap.

(** ** The slot for a new queue *)

Module Custom.
Section custom.
  Context {T : Type} {HB : BinaryHeap (Keyed T)}.

Record Queue := MkQueue { q : heap (Keyed T); infra_q : list T }.

(** Without the [lifecycle_trace] feature, which only records events. *)
#[export] Instance custom_run_queue : RunQueue T Queue := {|
  FLAVOR := Prio;
  with_capacity _ := Ret (MkQueue heap_new []);
  push self item view :=
    if is_infra (meta view) then MkQueue (q self) (infra_q self ++ [item])
    else MkQueue (heap_push (MkKeyed (meta view) item) (q self)) (infra_q self);
  pop self :=
    match infra_q self with
    | item :: infra_q => (Some item, MkQueue (q self) infra_q)
    | [] =>
        match heap_pop (q self) with
        | Some (keyed, q) => (Some (item keyed), MkQueue q (infra_q self))
        | None => (None, self)
        end
    end;
  len self := heap_len (q self) + length (infra_q self);
  on_poll_start self _ := self;
  on_poll_end self _ _ := self;
  on_idle self := self;
  on_task_exit self _ := self;
|}.

#[local] Existing Instance PrioHeap.prio_run_queue.

(** As documented, it starts as a copy of the priority heap: every run gives
    the same tasks. *)
Lemma custom_is_prio_heap (ops : list (sched_op T)) (self : Queue) :
  (sched_run self ops).2
    = (sched_run (PrioHeap.MkQueue (q self) (infra_q self)) ops).2.
Proof.
  revert self; induction ops as [|o ops IH]; intros self; [done|]. cbn [sched_run].
  assert (let r := sched_step self o in
    sched_step (PrioHeap.MkQueue (q self) (infra_q self)) o
      = (PrioHeap.MkQueue (q r.1) (infra_q r.1), r.2)) as Hs.
  { destruct self as [h l], o as [t v| |v|v o| |i]; cbn; try done.
    - by destruct (is_infra (meta v)).
    - destruct l; [|done]. by destruct (heap_pop h) as [[k h']|]. }
  cbn zeta in Hs. rewrite Hs. destruct (sched_step self o) as [self' ts]. cbn [fst snd].
  specialize (IH self'). destruct (sched_run self' ops), (sched_run _ ops).
  cbn in *. by subst.
Qed.
End custom.
End Custom.
