(* ===== verification/TailClipperQueue.v ===== *)
(** The TailClipper run queue: builtin/tailclipper.rs of libs/rpcstack-sched/src.
    The tasks in the window [rr_queue] share the processor round robin; the
    others wait in the heap. [I] is the [USE_INFRA_QUEUE] parameter, [C] the
    size of the window. *)
From S2P Require Export Sched.

Section queue.
  Context {T : Type} {HB : BinaryHeap (Keyed T)} (I : bool) (C : nat).

Record BinaryHeapRoundRobinQueue := MkRR {
  waiting : heap (Keyed T);
  rr_queue : list (Keyed T);
  infra_rr_queue : list T;
}.

(** The loop of [fill]: at most [C] turns, since each lengthens the window. *)
Fixpoint fill_loop (fuel : nat) (h : heap (Keyed T)) (rr : list (Keyed T))
    : heap (Keyed T) * list (Keyed T) :=
  match fuel with
  | 0 => (h, rr)
  | S fuel =>
      if decide (length rr < C) then
        match heap_pop h with
        | Some (item, h) => fill_loop fuel h (rr ++ [item])
        | None => (h, rr)
        end
      else (h, rr)
  end.

Definition fill (self : BinaryHeapRoundRobinQueue) : BinaryHeapRoundRobinQueue :=
  let '(h, rr) := fill_loop C (waiting self) (rr_queue self) in
  MkRR h rr (infra_rr_queue self).

(** [iter().enumerate().min_by(..)]: of several minima the first. *)
Fixpoint min_index (best : nat * Keyed T) (i : nat) (l : list (Keyed T)) : nat * Keyed T :=
  match l with
  | [] => best
  | x :: l =>
      min_index (match keyed_cmp best.2 x with Gt => (i, x) | _ => best end) (S i) l
  end.

Definition worst_index (rr : list (Keyed T)) : option nat :=
  match rr with
  | [] => None
  | x :: l => Some (min_index (0, x) 1 l).1
  end.

(** The eviction loop of [push]. *)
Fixpoint evict_loop (fuel : nat) (h : heap (Keyed T)) (rr : list (Keyed T))
    : outcome (heap (Keyed T) * list (Keyed T)) :=
  match fuel with
  | 0 => Ret (h, rr)
  | S fuel =>
      match heap_peek h with
      | None => Ret (h, rr)
      | Some best =>
          match worst_index rr with
          | None => Ret (h, rr)
          | Some worst =>
              w ← expect_some (rr !! worst);
              if decide (keyed_le best w) then Ret (h, rr)
              else
                '(replacement, h) ← expect_some (heap_pop h);
                evicted ← expect_some (rr !! worst);
                evict_loop fuel (heap_push evicted h) (delete worst rr ++ [replacement])
          end
      end
  end.

Definition rr_with_capacity : outcome BinaryHeapRoundRobinQueue :=
  if decide (0 < C) then Ret (MkRR heap_new [] []) else Panic.

Definition rr_push (self : BinaryHeapRoundRobinQueue) (item : T) (view : TaskView)
    : outcome BinaryHeapRoundRobinQueue :=
  if I && is_infra (meta view) then
    Ret (MkRR (waiting self) (rr_queue self) (infra_rr_queue self ++ [item]))
  else
    let self := MkRR (heap_push (MkKeyed (meta view) item) (waiting self)) (rr_queue self)
                  (infra_rr_queue self) in
    if decide (rr_queue self = []) then Ret self
    else
      let self := fill self in
      '(h, rr) ← evict_loop (S (length (rr_queue self))) (waiting self) (rr_queue self);
      Ret (MkRR h rr (infra_rr_queue self)).

Definition rr_pop (self : BinaryHeapRoundRobinQueue) : option T * BinaryHeapRoundRobinQueue :=
  match (if I then infra_rr_queue self else []) with
  | item :: infra => (Some item, MkRR (waiting self) (rr_queue self) infra)
  | [] =>
      let self := fill self in
      match rr_queue self with
      | keyed :: rr => (Some (item keyed), MkRR (waiting self) rr (infra_rr_queue self))
      | [] => (None, self)
      end
  end.

Definition rr_len (self : BinaryHeapRoundRobinQueue) : nat :=
  heap_len (waiting self) + length (rr_queue self) + length (infra_rr_queue self).

(** [push] does not panic ([rr_push_ok] below), so the interface's result is
    the queue itself. *)
#[export] Instance rr_run_queue : RunQueue T BinaryHeapRoundRobinQueue := {|
  FLAVOR := Prio;
  with_capacity _ := rr_with_capacity;
  push self item view := match rr_push self item view with Ret self => self | Panic => self end;
  pop := rr_pop;
  len := rr_len;
  on_poll_start self _ := self;
  on_poll_end self _ _ := self;
  on_idle self := self;
  on_task_exit self _ := self;
|}.

Context {HL : BinaryHeapLaws (Keyed T) keyed_le}.

(** ** The window *)

(** Every task of [rr] is at least as old as every task of [l]. *)
Definition dominates (rr l : list (Keyed T)) : Prop :=
  Forall (λ r, Forall (λ k, keyed_le k r) l) rr.

Definition rr_inv (self : BinaryHeapRoundRobinQueue) : Prop :=
  0 < C ∧ length (rr_queue self) ≤ C ∧ dominates (rr_queue self) (heap_list (waiting self)).

Lemma dominates_perm rr rr' l l' : rr ≡ₚ rr' → l ≡ₚ l' → dominates rr l → dominates rr' l'.
Proof.
  unfold dominates. intros <- Hl H. eapply Forall_impl; [exact H|]. intros r Hr. by rewrite <-Hl.
Qed.

#[export] Instance dominates_proper : Proper ((≡ₚ) ==> (≡ₚ) ==> iff) dominates.
Proof. intros rr rr' Hr l l' Hl. split; by apply dominates_perm. Qed.

Lemma dominates_app rr1 rr2 l : dominates (rr1 ++ rr2) l ↔ dominates rr1 l ∧ dominates rr2 l.
Proof. apply Forall_app. Qed.

Lemma dominates_cons rr k l :
  dominates rr (k :: l) ↔ Forall (λ r, keyed_le k r) rr ∧ dominates rr l.
Proof. unfold dominates. rewrite <-Forall_and. apply Forall_iff. intros r. by rewrite Forall_cons. Qed.

Lemma dominates_single k l : dominates [k] l ↔ Forall (λ j, keyed_le j k) l.
Proof. unfold dominates. by rewrite Forall_singleton. Qed.

(** [fill] moves the greatest waiting tasks behind the window until it has [C]
    tasks or none waits. *)
Lemma fill_loop_spec fuel h rr :
  length rr ≤ C → C ≤ fuel + length rr →
  let '(h', rr') := fill_loop fuel h rr in
  (∃ new, rr' = rr ++ new) ∧ heap_list h ++ rr ≡ₚ heap_list h' ++ rr' ∧ length rr' ≤ C ∧
  (length rr' = C ∨ heap_list h' = []) ∧
  (dominates rr (heap_list h) → dominates rr' (heap_list h')).
Proof.
  revert h rr; induction fuel as [|fuel IH]; intros h rr Hle Hfuel; cbn [fill_loop].
  { split; [exists []; by rewrite app_nil_r|]. split_and!; [done|done|left; lia|done]. }
  case_decide as Hlt.
  - destruct (heap_pop h) as [[k h1]|] eqn:Hp.
    + apply heap_pop_max in Hp as Hmax. apply heap_pop_Some in Hp as [Hperm _].
      specialize (IH h1 (rr ++ [k])). rewrite length_app in IH. simpl in IH.
      destruct (fill_loop fuel h1 (rr ++ [k])) as [h' rr'].
      destruct IH as ([new Hnew] & Hc & Hl & Hfull & Hdom); [lia|lia|].
      split; [exists (k :: new); by rewrite Hnew, <-app_assoc|].
      split_and!; [|done|done|].
      * rewrite <-Hc, Hperm, app_assoc. apply Permutation_cons_append.
      * intros Hd. apply Hdom, dominates_app. split.
        { apply (dominates_perm rr rr _ _ (reflexivity rr) Hperm), dominates_cons in Hd. apply Hd. }
        { by apply dominates_single, Hmax. }
    + apply heap_pop_None in Hp. split; [exists []; by rewrite app_nil_r|].
      split_and!; [done|done|by right|done].
  - split; [exists []; by rewrite app_nil_r|]. split_and!; [done|done|left; lia|done].
Qed.

Lemma fill_spec self :
  length (rr_queue self) ≤ C →
  let s := fill self in
  (∃ new, rr_queue s = rr_queue self ++ new) ∧ infra_rr_queue s = infra_rr_queue self ∧
  heap_list (waiting self) ++ rr_queue self ≡ₚ heap_list (waiting s) ++ rr_queue s ∧
  length (rr_queue s) ≤ C ∧ (length (rr_queue s) = C ∨ heap_list (waiting s) = []) ∧
  (dominates (rr_queue self) (heap_list (waiting self)) →
   dominates (rr_queue s) (heap_list (waiting s))).
Proof.
  intros Hle. pose proof (fill_loop_spec C (waiting self) (rr_queue self) Hle) as Hf.
  unfold fill. destruct (fill_loop C (waiting self) (rr_queue self)) as [h rr]. cbn.
  destruct Hf as (Hn & Hp & Hl & Hc & Hd); [lia|]. by split_and!.
Qed.

(** The window's worst task, where [min_index] says. *)
Lemma min_index_spec l i (best : nat * Keyed T) (pre : list (Keyed T)) :
  length pre = i → (pre ++ l) !! best.1 = Some best.2 →
  Forall (λ x, keyed_le best.2 x) pre →
  let r := min_index best i l in
  (pre ++ l) !! r.1 = Some r.2 ∧ Forall (λ x, keyed_le r.2 x) (pre ++ l).
Proof.
  revert i best pre; induction l as [|x l IH]; intros i best pre Hi Hb Hpre; cbn [min_index].
  { by rewrite app_nil_r in *. }
  assert (pre ++ x :: l = (pre ++ [x]) ++ l) as Hcat by (by rewrite <-app_assoc).
  rewrite Hcat in *. apply IH; [rewrite length_app; simpl; lia|..].
  - destruct (keyed_cmp best.2 x); try done. cbn.
    rewrite <-Hcat, <-Hi, lookup_app_r, Nat.sub_diag by lia. done.
  - rewrite Forall_app, Forall_singleton.
    destruct (keyed_cmp best.2 x) eqn:Hcmp.
    1,2: split; [done|unfold keyed_le; by rewrite Hcmp].
    cbn. split; [|by destruct (total keyed_le x x)].
    assert (keyed_le x best.2) as Hx.
    { destruct (total keyed_le x best.2) as [|Hbx]; [done|]. by unfold keyed_le in Hbx. }
    eapply Forall_impl; [exact Hpre|]. intros y Hy. by etrans.
Qed.

Lemma worst_index_spec rr worst :
  worst_index rr = Some worst →
  ∃ w, rr !! worst = Some w ∧ Forall (λ x, keyed_le w x) rr.
Proof.
  destruct rr as [|x l]; [done|]. cbn [worst_index]. intros [= <-].
  destruct (min_index_spec l 1 (0, x) [x]) as [Hl Hf]; [done|done| |by eexists].
  constructor; [by destruct (total keyed_le x x)|constructor].
Qed.

(** At most one waiting task may be older than a task of the window. *)
Definition almost (rr l : list (Keyed T)) : Prop :=
  dominates rr l ∨ ∃ x rest, l ≡ₚ x :: rest ∧ dominates rr rest.

Lemma pop_almost h k h1 rr :
  heap_pop h = Some (k, h1) → almost rr (heap_list h) → almost (rr ++ [k]) (heap_list h1).
Proof.
  intros Hp Ha. apply heap_pop_max in Hp as Hmax. destruct Hmax as [_ Hmax].
  apply heap_pop_Some in Hp as [Hperm _].
  destruct Ha as [Hd|(x & rest & Hx & Hd)].
  - left. apply dominates_app. split; [|by apply dominates_single].
    by rewrite Hperm, dominates_cons in Hd; destruct Hd.
  - rewrite Hperm in Hx. assert (k ∈ x :: rest) as [->|Hin]%elem_of_cons by (rewrite <-Hx; by left).
    + apply Permutation_cons_inv in Hx. left. apply dominates_app. split.
      * by apply (dominates_perm rr rr rest).
      * by apply dominates_single.
    + apply elem_of_Permutation in Hin as [rest' Hrest]. right. exists x, rest'.
      assert (heap_list h1 ≡ₚ x :: rest') as Hh1.
      { apply (Permutation_cons_inv (a := k)). rewrite Hx, Hrest. apply Permutation_swap. }
      split; [done|]. apply dominates_app. split.
      * by apply (dominates_perm rr rr _ _ (reflexivity rr) Hrest), dominates_cons in Hd as [_ ?].
      * apply dominates_single. rewrite Hh1 in Hmax. by apply Forall_cons in Hmax as [_ ?].
Qed.

Lemma fill_loop_almost fuel h rr :
  almost rr (heap_list h) →
  let '(h', rr') := fill_loop fuel h rr in almost rr' (heap_list h').
Proof.
  revert h rr; induction fuel as [|fuel IH]; intros h rr Ha; cbn [fill_loop]; [done|].
  case_decide; [|done]. destruct (heap_pop h) as [[k h1]|] eqn:Hp; [|done].
  apply IH. by eapply pop_almost.
Qed.

(** With the window in order the eviction loop stops at once. *)
Lemma evict_dominates fuel h rr :
  dominates rr (heap_list h) → evict_loop (S fuel) h rr = Ret (h, rr).
Proof.
  intros Hd. cbn [evict_loop]. destruct (heap_peek h) as [best|] eqn:Hb; [|done].
  destruct (worst_index rr) as [worst|] eqn:Hw; [|done].
  apply worst_index_spec in Hw as (w & Hl & _). rewrite Hl. cbn [expect_some mbind outcome_bind].
  rewrite decide_True; [done|]. apply heap_peek_Some in Hb as [h1 [Hin _]%heap_pop_max].
  unfold dominates in Hd. rewrite Forall_lookup in Hd. specialize (Hd _ _ Hl).
  rewrite Forall_forall in Hd. by apply Hd.
Qed.

(** One exchange puts it in order. *)
Lemma evict_almost fuel h rr :
  almost rr (heap_list h) →
  ∃ h' rr', evict_loop (S (S fuel)) h rr = Ret (h', rr') ∧ dominates rr' (heap_list h') ∧
    heap_list h' ++ rr' ≡ₚ heap_list h ++ rr ∧ length rr' = length rr.
Proof.
  intros Ha.
  assert (dominates rr (heap_list h) → ∃ h' rr', evict_loop (S (S fuel)) h rr = Ret (h', rr') ∧
    dominates rr' (heap_list h') ∧ heap_list h' ++ rr' ≡ₚ heap_list h ++ rr ∧ length rr' = length rr)
    as Hdone by (intros Hd; rewrite evict_dominates by done; by eexists _, _).
  set (fuel1 := S fuel) in *. cbn [evict_loop]. destruct (heap_peek h) as [best|] eqn:Hb.
  2: { apply heap_peek_None in Hb as Hnil. eexists _, _. split_and!; try done. rewrite Hnil.
       unfold dominates. apply Forall_true. constructor. }
  destruct (worst_index rr) as [worst|] eqn:Hw.
  2: { destruct rr; [|done]. eexists _, _. split_and!; try done. constructor. }
  apply worst_index_spec in Hw as (w & Hl & Hmin). rewrite Hl. cbn [expect_some mbind outcome_bind].
  apply heap_peek_Some in Hb as [h1 Hp]. apply heap_pop_max in Hp as Hmax.
  apply heap_pop_Some in Hp as Hpop. destruct Hpop as [Hperm Hle].
  case_decide as Hbw.
  { eexists _, _. split_and!; try done. unfold dominates. eapply Forall_impl; [exact Hmin|].
    intros r Hr. eapply Forall_impl; [exact Hle|]. intros k Hk. etrans; [exact Hk|]. by etrans. }
  rewrite Hp. cbn [expect_some mbind outcome_bind].
  assert (dominates rr (heap_list h1)) as Hrest.
  { destruct Ha as [Hd|(x & rest & Hx & Hd)].
    - by rewrite Hperm, dominates_cons in Hd; destruct Hd.
    - rewrite Hperm in Hx. assert (best ∈ x :: rest) as [->|Hin]%elem_of_cons
        by (rewrite <-Hx; by left).
      + apply Permutation_cons_inv in Hx. by apply (dominates_perm rr rr rest).
      + exfalso. apply Hbw. unfold dominates in Hd. rewrite Forall_lookup in Hd.
        specialize (Hd _ _ Hl). rewrite Forall_forall in Hd. by apply Hd. }
  assert (keyed_le w best) as Hwb by (by destruct (total keyed_le best w)).
  apply delete_Permutation in Hl as Hdel.
  assert (dominates (delete worst rr ++ [best]) (heap_list (heap_push w h1))) as Hd'.
  { apply (dominates_perm (delete worst rr ++ [best]) _ (w :: heap_list h1));
      [done|by rewrite heap_list_push|]. rewrite Hdel in Hmin. apply Forall_cons in Hmin as [_ Hmin].
    apply dominates_cons. split; [by apply Forall_app; split; [|constructor]|].
    apply dominates_app. split; [|by apply dominates_single, Hmax].
    apply (dominates_perm rr _ (heap_list h1) (heap_list h1) Hdel) in Hrest; [|done].
    unfold dominates in *. by apply Forall_cons in Hrest as [_ ?]. }
  unfold fuel1. rewrite evict_dominates by done. eexists _, _. split_and!; [done|done| |].
  - rewrite heap_list_push, Hperm. clear -Hdel. revert Hdel. generalize (delete worst rr).
    intros D ->. simpl. rewrite app_assoc, <-Permutation_cons_append, <-Permutation_middle.
    apply Permutation_swap.
  - rewrite length_app. apply Permutation_length in Hdel. simpl in *. lia.
Qed.

Lemma fill_almost self :
  almost (rr_queue self) (heap_list (waiting self)) →
  almost (rr_queue (fill self)) (heap_list (waiting (fill self))).
Proof.
  intros Ha. pose proof (fill_loop_almost C _ _ Ha) as Hf. unfold fill.
  by destruct (fill_loop C (waiting self) (rr_queue self)).
Qed.

(** [push] adds the task, keeps the window in order, and does not panic. *)
Lemma rr_push_ok self t v :
  rr_inv self →
  ∃ self', rr_push self t v = Ret self' ∧ rr_inv self' ∧
    (if I && is_infra (meta v)
     then waiting self' = waiting self ∧ rr_queue self' = rr_queue self ∧
          infra_rr_queue self' = infra_rr_queue self ++ [t]
     else heap_list (waiting self') ++ rr_queue self'
            ≡ₚ MkKeyed (meta v) t :: heap_list (waiting self) ++ rr_queue self ∧
          infra_rr_queue self' = infra_rr_queue self).
Proof.
  intros (HC & Hlen & Hdom). unfold rr_push. destruct (I && is_infra (meta v)).
  { eexists. split; [done|]. by split. }
  set (s1 := MkRR _ _ _). case_decide as Hrr; change (rr_queue s1) with (rr_queue self) in Hrr.
  { exists s1. split; [done|]. unfold rr_inv, s1. cbn [rr_queue waiting infra_rr_queue].
    rewrite Hrr, heap_list_push. split_and!; [done|simpl; lia|constructor|done..]. }
  assert (almost (rr_queue s1) (heap_list (waiting s1))) as Ha.
  { right. eexists _, _. split; [apply heap_list_push|done]. }
  apply fill_almost in Ha.
  destruct (fill_spec s1) as ([new Hnew] & Hinf & Hperm & Hle & _ & _); [done|].
  assert (∃ n, length (rr_queue (fill s1)) = S n) as [n Hn].
  { rewrite Hnew, length_app. unfold s1. cbn [rr_queue].
    destruct (rr_queue self) as [|r rr]; [done|]. by eexists. }
  rewrite Hn. destruct (evict_almost n _ _ Ha) as (h' & rr' & -> & Hd & Hp & Hl).
  cbn [mbind outcome_bind]. eexists. split; [done|]. unfold rr_inv.
  cbn [rr_queue waiting infra_rr_queue]. split_and!; [done|lia|done| |done].
  rewrite Hp, <-Hperm. unfold s1. cbn [waiting rr_queue]. by rewrite heap_list_push.
Qed.

Lemma fill_inv self : rr_inv self → rr_inv (fill self).
Proof.
  intros (HC & Hlen & Hdom). destruct (fill_spec self Hlen) as (_ & _ & _ & Hle & _ & Hd).
  split_and!; [done|done|by apply Hd].
Qed.

Definition rr_items (self : BinaryHeapRoundRobinQueue) : list T :=
  (item <$> heap_list (waiting self) ++ rr_queue self) ++ infra_rr_queue self.

Lemma rr_pop_ok self :
  rr_inv self → (I = false → infra_rr_queue self = []) →
  rr_inv (rr_pop self).2 ∧ (I = false → infra_rr_queue (rr_pop self).2 = []) ∧
  match (rr_pop self).1 with
  | Some t => rr_items self ≡ₚ t :: rr_items (rr_pop self).2
  | None => rr_items self = [] ∧ rr_items (rr_pop self).2 = []
  end.
Proof.
  intros Hinv Hinfra. pose proof Hinv as (HC & Hlen & Hdom). unfold rr_pop.
  destruct (if I then infra_rr_queue self else []) as [|t ts] eqn:Hi.
  - apply fill_inv in Hinv as (_ & Hle & Hd).
    destruct (fill_spec self Hlen) as (_ & Hinf & Hperm & _ & Hfull & _).
    assert (infra_rr_queue self = []) as Hnil by (destruct I; auto).
    destruct (rr_queue (fill self)) as [|k rr] eqn:Hrr; cbn [fst snd].
    + rewrite Hinf. split_and!; [by unfold rr_inv; rewrite Hrr|done|..]; unfold rr_items;
        rewrite ?Hinf, Hnil, app_nil_r.
      all: destruct Hfull as [Hf|Hf]; [simpl in Hf; lia|].
      all: rewrite Hf in *; try rewrite Hrr; try done.
      rewrite app_nil_r in Hperm. simpl in Hperm.
      apply Permutation_nil_r in Hperm. by rewrite Hperm.
    + unfold rr_inv, rr_items. cbn [waiting rr_queue infra_rr_queue].
      apply Forall_cons in Hd as [_ Hd]. split_and!; [done|simpl in Hle; lia|done|by rewrite Hinf|].
      by rewrite Hperm, Hinf, <-Permutation_middle.
  - destruct I; [|done]. cbn [fst snd]. split_and!; [done|done|].
    unfold rr_items. cbn [waiting rr_queue infra_rr_queue]. rewrite Hi.
    by rewrite Permutation_middle.
Qed.

#[export] Instance rr_laws : RunQueueLaws T BinaryHeapRoundRobinQueue.
Proof.
  refine {| queued := rr_items; queue_ok s := rr_inv s ∧ (I = false → infra_rr_queue s = []) |};
    try done.
  - intros cap q. cbn. unfold rr_with_capacity. case_decide; [|done]. intros [= <-].
    unfold rr_inv, rr_items. cbn. rewrite heap_list_new. split_and!; [done|lia|constructor|done|done].
  - intros q t v [Hinv Hinf]. cbn [push rr_run_queue].
    destruct (rr_push_ok q t v Hinv) as (q' & -> & Hinv' & Hq). unfold rr_items.
    destruct (I && is_infra (meta v)) eqn:Hi.
    + apply andb_true_iff in Hi as [HI _]. destruct Hq as (-> & -> & ->). split; [by rewrite HI|].
      by rewrite app_assoc, <-Permutation_cons_append.
    + destruct Hq as [Hperm Hinf']. rewrite Hinf'. split; [done|]. by rewrite Hperm.
  - intros q [Hinv Hinf]. cbn [pop rr_run_queue].
    destruct (rr_pop_ok q Hinv Hinf) as (Hinv' & Hinf' & Hp). done.
  - intros q _. cbn. unfold rr_len, rr_items.
    by rewrite length_app, length_fmap, length_app, heap_len_list.
Defined.

(** C29: whatever the runtime did before, the window [pop] dispatches from
    holds the [C] oldest of the tasks outside the infrastructure lane, or all of
    them if there are fewer: tasks keep their place in it and vacancies are
    filled behind them; [pop] returns the front of the infrastructure lane, if
    that is used, and else the front of the window. *)
Theorem window_holds_oldest cap (self0 : BinaryHeapRoundRobinQueue) ops :
  with_capacity cap = Ret self0 →
  let self := (sched_run self0 ops).1 in
  let w := fill self in
  (pop self).1 = match (if I then infra_rr_queue self else []) with
                 | t :: _ => Some t
                 | [] => item <$> head (rr_queue w)
                 end ∧
  (∃ new, rr_queue w = rr_queue self ++ new) ∧
  heap_list (waiting self) ++ rr_queue self ≡ₚ heap_list (waiting w) ++ rr_queue w ∧
  length (rr_queue w) = C `min` (length (heap_list (waiting self)) + length (rr_queue self)) ∧
  dominates (rr_queue w) (heap_list (waiting w)).
Proof.
  intros [Hq _]%with_capacity_law self w.
  destruct (sched_run_ok self0 ops Hq) as [[Hinv _] _]. fold self in Hinv.
  pose proof Hinv as (HC & Hlen & Hdom).
  destruct (fill_spec self Hlen) as (Hnew & _ & Hperm & Hle & Hfull & Hd). fold w in Hnew, Hperm, Hle, Hfull, Hd.
  split.
  { cbn [pop rr_run_queue]. unfold rr_pop. fold w.
    destruct (if I then infra_rr_queue self else []); [|done]. by destruct (rr_queue w). }
  split_and!; [done|done| |by apply Hd].
  apply Permutation_length in Hperm. rewrite !length_app in Hperm.
  destruct Hfull as [Hf|Hf]; [lia|]. rewrite Hf in Hperm. simpl in Hperm. lia.
Qed.

Lemma heap_push_pop_strict h k :
  Forall (λ j, meta_value (keyed_meta k) < meta_value (keyed_meta j))%Z (heap_list h) →
  ∃ h', heap_pop (heap_push k h) = Some (k, h') ∧ heap_list h' ≡ₚ heap_list h.
Proof.
  intros Hk. destruct (heap_pop (heap_push k h)) as [[x h']|] eqn:Hp.
  - apply heap_pop_max in Hp as Hmax. destruct Hmax as [Hin _]. apply heap_pop_Some in Hp as [Hperm Hle].
    rewrite heap_list_push in Hperm, Hle, Hin. apply elem_of_cons in Hin as [->|Hin].
    + exists h'. split; [done|]. symmetry. by apply Permutation_cons_inv in Hperm.
    + exfalso. rewrite Forall_forall in Hk. specialize (Hk x Hin). apply Forall_cons in Hle as [Hle _].
      rewrite keyed_le_value in Hle. lia.
  - apply heap_pop_None in Hp. pose proof (heap_list_push k h) as Hh. rewrite Hp in Hh.
    by apply Permutation_nil_cons in Hh.
Qed.

(** Pushing a task that is older than all that wait back into a window with a
    vacancy appends it. *)
Lemma fill_push_strict h rr infra k :
  0 < C → length rr < C → (S (length rr) = C ∨ heap_list h = []) →
  Forall (λ j, meta_value (keyed_meta k) < meta_value (keyed_meta j))%Z (heap_list h) →
  let w := fill (MkRR (heap_push k h) rr infra) in
  rr_queue w = rr ++ [k] ∧ heap_list (waiting w) ≡ₚ heap_list h.
Proof.
  intros HC Hlt Hfull Hk. destruct (heap_push_pop_strict h k Hk) as (h' & Hpop & Hperm).
  unfold fill. cbn [waiting rr_queue infra_rr_queue].
  destruct C as [|c] eqn:HCe; [lia|]. cbn [fill_loop]. rewrite decide_True, Hpop by lia.
  destruct c as [|c]; cbn [fill_loop]; [done|].
  rewrite length_app. simpl. case_decide; [|done].
  destruct Hfull as [|Hnil]; [lia|]. rewrite Hnil in Hperm. apply Permutation_nil_r in Hperm.
  rewrite (proj2 (heap_pop_None h') Hperm). cbn. by rewrite Hnil, Hperm.
Qed.

(** Round robin. When the dispatched task [t], older than every task
    outside the window, yields and is pushed again, it goes behind the others
    of the window, and the window and the waiting tasks are otherwise as they
    were: the tasks of the window take turns. *)
Theorem yield_rotates self k rest t v :
  rr_inv self → (I = true → infra_rr_queue self = []) →
  rr_queue (fill self) = k :: rest → item k = t → meta v = keyed_meta k →
  I && is_infra (meta v) = false →
  Forall (λ j, meta_value (keyed_meta k) < meta_value (keyed_meta j))%Z
    (heap_list (waiting (fill self))) →
  (pop self).1 = Some t ∧
  let self' := fill (push (pop self).2 t v) in
  rr_queue self' = rest ++ [k] ∧ heap_list (waiting self') ≡ₚ heap_list (waiting (fill self)).
Proof.
  intros Hinv Hinf Hw Ht Hv Hi Hk. pose proof Hinv as (HC & Hlen & _).
  destruct (fill_spec self Hlen) as (_ & _ & _ & Hle & Hfull & _).
  apply fill_inv in Hinv as (_ & _ & Hd). rewrite Hw in *. simpl in Hle, Hfull.
  assert ((if I then infra_rr_queue self else []) = []) as Hlane by (destruct I; auto).
  cbn [pop push rr_run_queue]. unfold rr_pop. rewrite Hlane, Hw. cbn [fst snd]. split; [by rewrite Ht|].
  unfold rr_push. rewrite Hi. cbn [waiting rr_queue infra_rr_queue].
  assert (MkKeyed (meta v) t = k) as -> by (rewrite Hv, <-Ht; by destruct k).
  assert (length rest < C) as Hlt by lia.
  destruct (fill_push_strict (waiting (fill self)) rest (infra_rr_queue (fill self)) k HC Hlt)
    as [Hrr Hheap]; [destruct Hfull; [left; lia|by right]|done|].
  set (w := fill (MkRR _ rest _)) in *. case_decide as Hrest; [done|].
  rewrite evict_dominates. 2: { rewrite Hrr, Hheap, <-Permutation_cons_append. exact Hd. }
  cbn [mbind outcome_bind].
  assert (length (rr_queue w) ≤ C) as Hlw by (rewrite Hrr, length_app; simpl; lia).
  set (w2 := MkRR _ _ _). destruct (fill_spec w2 Hlw) as ([new Hnew] & _ & Hp & Hle2 & _ & _).
  assert (new = []) as ->.
  { destruct Hfull as [Hf|Hf].
    - rewrite Hnew in Hle2. unfold w2 in Hle2. cbn [rr_queue] in Hle2.
      rewrite Hrr, !length_app in Hle2. destruct new; [done|]. simpl in *. lia.
    - assert (length (heap_list (waiting w2)) = 0) as Hw2.
      { unfold w2. cbn [waiting]. apply Permutation_length in Hheap. by rewrite Hheap, Hf. }
      apply Permutation_length in Hp. rewrite Hnew, !length_app in Hp.
      destruct new; [done|]. cbn [length] in Hp. lia. }
  rewrite app_nil_r in Hnew. rewrite Hnew in Hp |- *. unfold w2 in *. cbn [waiting rr_queue] in *.
  split; [done|]. rewrite <-Hheap. symmetry. by apply Permutation_app_inv_r in Hp.
Qed.
End queue.

(** ** Sample runs *)

Lemma run_queue_conserves_witness :
  let view m := MkView 0 (MkMeta m) 0 0 0 in
  let HB := sorted_heap (@keyed_le nat) in
  let ops := [Push 1 (view 30%Z); Push 2 (view 20%Z); Pop; Push 3 (view 10%Z); Push 2 (view 20%Z); Pop] in
  let '(q', popped) := @sched_run nat _ (rr_run_queue true 2) (MkRR heap_new [] []) ops in
  popped = [2; 3] ∧
  ∃ waiting, pushes ops ≡ₚ popped ++ waiting ∧ len (RunQueue := rr_run_queue true 2) q' = length waiting ∧
    ((pop (RunQueue := rr_run_queue true 2) q').1 = None ↔ waiting = []).
Proof.
  intros view HB ops. pose (HL := sorted_heap_laws (@keyed_le nat)).
  pose proof (run_queue_conserves (L := rr_laws true 2) 0 (MkRR heap_new [] []) ops eq_refl) as Hc.
  assert ((@sched_run nat _ (rr_run_queue true 2) (MkRR heap_new [] []) ops).2 = [2; 3]) as Hp
    by (by vm_compute).
  destruct (sched_run _ ops) as [q' popped]. split; [exact Hp|exact Hc].
Defined.

Lemma window_holds_oldest_witness :
  let view m := MkView 0 (MkMeta m) 0 0 0 in
  let HB := sorted_heap (@keyed_le nat) in
  let ops := [Push 1 (view 30%Z); Push 2 (view 20%Z); Pop; Push 3 (view 10%Z); Push 2 (view 20%Z);
              Push 4 (view 0%Z)] in
  let self := (@sched_run nat _ (rr_run_queue true 2) (MkRR heap_new [] []) ops).1 in
  let w := fill 2 self in
  (rr_pop true 2 self).1 = Some 4 ∧ length (rr_queue w) = 2 ∧
  dominates (rr_queue w) (heap_list (waiting w)).
Proof.
  intros view HB ops self w. pose (HL := sorted_heap_laws (@keyed_le nat)).
  destruct (window_holds_oldest true 2 0 (MkRR heap_new [] []) ops eq_refl) as (Hp & _ & _ & Hl & Hd).
  split_and!; [by vm_compute|by vm_compute|exact Hd].
Defined.

Lemma yield_rotates_witness :
  let view m := MkView 0 (MkMeta m) 0 0 0 in
  let HB := sorted_heap (@keyed_le nat) in
  let self := MkRR (heap_push (MkKeyed (MkMeta 40) 4) heap_new)
                [MkKeyed (MkMeta 20) 2; MkKeyed (MkMeta 10) 1] [] in
  (rr_pop true 2 self).1 = Some 2 ∧
  rr_queue (fill 2 (push (RunQueue := rr_run_queue true 2) (rr_pop true 2 self).2 2 (view 20%Z)))
    = [MkKeyed (MkMeta 10) 1; MkKeyed (MkMeta 20) 2].
Proof.
  intros view HB self. pose (HL := sorted_heap_laws (@keyed_le nat)).
  destruct (yield_rotates true 2 self (MkKeyed (MkMeta 20) 2) [MkKeyed (MkMeta 10) 1] 2 (view 20%Z))
    as [Hp [Hr _]]; try done.
  - split_and!; [lia|simpl; lia|]. repeat constructor; decided.
  - repeat constructor.
Defined.
