(* ===== verification/Clipper.v ===== *)
(** TailClipper's arrival times, libs/tailclipper/src/lib.rs, and the reader of
    the scheduling header in the project's hyper,
    libs/hyper/src/common/exec.rs: a request is stamped where it enters, and the
    stamp is its priority at every service behind. Clock readings are
    arguments, nanoseconds since the epoch. *)
From S2P Require Export Decimal Hooks Context Sched.

Record TailClipperWire := MkClip { arrival_ns : Z }.

(** [now]: before the epoch counts as the epoch. *)
Definition clip_now (nanos : Z) : TailClipperWire :=
  MkClip (Z.max 1 (Z.min u64_max (Z.max 0 nanos))).

Record TailClipperModule {Status : Type} := MkClipper { arrival : result TailClipperWire Status }.
Arguments TailClipperModule : clear implicits.
Arguments MkClipper {Status}.

Definition CLIP_NAME : bytes := bytes_of_string "tailclipper".

(** [tonic]'s or hyper's executor: the default one, or a user's. *)
Inductive Exec := ExecDefault | ExecExecutor.

Section clipper.
  Context {E : Base64Engine} {B : Bincode TailClipperWire}.
  Context {M : Type} {MD : Metadata M}.
  Context {Response Status : Type} (invalid_argument internal : bytes → Status).

Notation Reply := (result Response Status).

Definition annotate (request : M) (wire : WireOut) (arrival : TailClipperWire)
    : outcome (M * WireOut * result unit Status) :=
  if decide (arrival_ns arrival = 0)%Z then
    Ret (request, wire, Err (invalid_argument (bytes_of_string "zero TailClipper arrival time")))
  else
    r ← put wire CLIP_NAME arrival;
    match r with
    | Err e => Ret (request, wire, Err (internal (wire_error_text e)))
    | Ok wire =>
        Ret (match ascii_value (to_string (arrival_ns arrival)) with
             | Ok value => (meta_insert request SCHEDULING_HEADER value, wire, Ok tt)
             | Err _ => (request, wire, Err (internal (bytes_of_string "invalid scheduling key")))
             end)
    end.

Definition clip_before_root_rpc (request : M) (wire : WireOut) (nanos : Z)
    : outcome (M * WireOut * result unit Status) :=
  provided ← match from_metadata request with
             | Err err => Ret (Err err)
             | Ok w => Codec.get (W:=TailClipperWire) w CLIP_NAME
             end;
  match provided with
  | Err err => Ret (request, wire, Err (invalid_argument (wire_error_text err)))
  | Ok provided => annotate request wire (default (clip_now nanos) provided)
  end.

Definition clip_new (wire : WireIn) (nanos : Z) : outcome (TailClipperModule Status) :=
  r ← Codec.get (W:=TailClipperWire) wire CLIP_NAME;
  Ret (MkClipper
    (match r with
     | Err err => Err (invalid_argument (wire_error_text err))
     | Ok w =>
         let w := default (clip_now nanos) w in
         if decide (arrival_ns w = 0)%Z then
           Err (invalid_argument (bytes_of_string "zero TailClipper arrival time"))
         else Ok w
     end)).

(** Also the priority the task is given. *)
Definition clip_before_poll (self : TailClipperModule Status) : option Meta * result unit Reply :=
  match arrival self with
  | Ok w => (Some (MkMeta (arrival_ns w)), Ok tt)
  | Err status => (None, Err (Err status))
  end.

Definition clip_before_child_rpc (self : TailClipperModule Status) (request : M) (wire : WireOut)
    : outcome (M * WireOut * result unit Status) :=
  match arrival self with
  | Err status => Ret (request, wire, Err status)
  | Ok w => annotate request wire w
  end.

(** One poll of [yield_slice]: its flag, whether it wakes itself, its answer. *)
Definition yield_slice_poll (yielded : bool) : bool * bool * @Stack.Poll unit Status :=
  if yielded then (true, false, Stack.Ready (Ok tt)) else (true, true, Stack.Pending).
End clipper.

(** ** The scheduling header at the server *)

Section hyper.
  Context {H : Type} {HH : HttpHeaders H}.
  Context {E : Base64Engine} {B : Bincode ContextCompact}.

Definition scheduling_key (headers : H) : option Z :=
  value ← header_get headers SCHEDULING_HEADER;
  value ← result_ok (to_str value);
  result_ok (parse_u64 value).

Definition h2_stream_priority (exec : Exec) (headers : H) : outcome Meta :=
  match exec with
  | ExecDefault =>
      match scheduling_key headers with
      | Some key => Ret (MkMeta key)
      | None => prio ← read_priority_from_headers headers; Ret (MkMeta (prio_value prio))
      end
  | ExecExecutor => Ret (meta_for_unannotated_spawn None)
  end.
End hyper.

(** ** The arrival time travels *)

(** Every [u64] serializes. *)
Class ClipWireLaws {B : Bincode TailClipperWire} : Prop := {
  clip_bincode_laws :: BincodeLaws TailClipperWire;
  clip_serialize w : is_u64 (arrival_ns w) → ∃ bs, serialize w = Ok bs;
}.

Lemma clip_name_valid : valid_name CLIP_NAME.
Proof. decided. Qed.

Section travel.
  Context {E : Base64Engine} {EL : Base64Laws E}.
  Context {B : Bincode TailClipperWire} {BL : ClipWireLaws}.
  Context {BC : Bincode ContextCompact}.
  Context {M : Type} {MD : Metadata M} {ML : MetadataLaws M}.
  Context {H : Type} {HH : HttpHeaders H} {HL : HttpHeadersLaws H}.
  Context {Response Status : Type} (invalid_argument internal : bytes → Status).
  (** [tonic] sends a request's metadata as its headers. *)
  Context (serve : M → H) (serve_get : ∀ md k, header_get (serve md) k = meta_get md k).

Notation annotate := (annotate (M:=M) invalid_argument internal).
Notation clip_new := (clip_new invalid_argument).
Notation clip_before_root_rpc := (clip_before_root_rpc (M:=M) invalid_argument internal).
Notation clip_before_child_rpc := (clip_before_child_rpc (M:=M) invalid_argument internal).

(** A header that other modules have begun. *)
Definition header_ok (out : WireOut) : Prop := utf8 (header out) ∧ Forall header_byte (header out).

(** What the server that receives a request makes of it: the priority of its
    task and the module. *)
Definition receive (md : M) (out : WireOut) (nanos : Z) : outcome (Meta * TailClipperModule Status) :=
  md ← install out md;
  wire ← expect (from_headers (serve md));
  prio ← h2_stream_priority ExecDefault (serve md);
  m ← clip_new wire nanos;
  Ret (prio, m).

(** A call of the next service: its metadata and header so far, and the clock
    there. *)
Record hop := MkHop { hop_request : M; hop_wire : WireOut; hop_nanos : Z }.

(** The services a request passes below one; it ends where a call is rejected. *)
Fixpoint clip_descend (m : TailClipperModule Status) (hops : list hop)
    : outcome (list (Meta * TailClipperModule Status)) :=
  match hops with
  | [] => Ret []
  | h :: hops =>
      '(md, out, r) ← clip_before_child_rpc m (hop_request h) (hop_wire h);
      match r with
      | Err _ => Ret []
      | Ok _ =>
          '(prio, m) ← receive md out (hop_nanos h);
          visited ← clip_descend m hops;
          Ret ((prio, m) :: visited)
      end
  end.

Lemma scheduling_key_read md a :
  is_u64 a → meta_get md SCHEDULING_HEADER = Some (to_string a) → scheduling_key (serve md) = Some a.
Proof.
  intros Ha Hg. unfold scheduling_key. rewrite serve_get, Hg. cbn [mbind option_bind].
  assert (to_str (to_string a) = Ok (to_string a)) as ->.
  { apply to_str_law. split; [done|]. eapply Forall_impl; [apply to_string_digits; ulia|].
    unfold digit, visible_ascii. lia. }
  cbn [result_ok mbind option_bind]. by rewrite parse_to_string.
Qed.

(** An annotated request is received with its arrival time. *)
Lemma annotate_receive md out w :
  is_u64 (arrival_ns w) → arrival_ns w ≠ 0%Z → header_ok out →
  ∃ md' out', annotate md out w = Ret (md', out', Ok tt) ∧
    ∀ nanos, receive md' out' nanos = Ret (MkMeta (arrival_ns w), MkClipper (Ok w)).
Proof.
  intros Ha Hne [Hu Hb]. destruct (clip_serialize w Ha) as [bs Hs].
  assert (Forall is_byte bs) as Hby by (by eapply serialize_bytes).
  destruct (rfc_good bs Hby) as (Hdot & Hasc & Hvis).
  destruct (to_string_digits (arrival_ns w)) as [Hd _]; [ulia|].
  unfold annotate. rewrite decide_False by done. rewrite (put_eq _ _ _ bs) by done. cbn [mbind outcome_bind].
  rewrite ascii_value_law.
  2: { eapply Forall_impl; [exact Hd|]. unfold digit, header_byte. lia. }
  set (out' := set out CLIP_NAME (rfc4648_encode bs)).
  set (md' := meta_insert md SCHEDULING_HEADER (to_string (arrival_ns w))).
  assert (Forall header_byte (to_string (arrival_ns w))) as Hhb.
  { eapply Forall_impl; [exact Hd|]. unfold digit, header_byte. lia. }
  assert (Codec.get (W:=TailClipperWire) (MkWireIn (header out')) CLIP_NAME = Ret (Ok (Some w))) as Hget
    by (apply get_set; [apply clip_name_valid|done]).
  assert (header out' ≠ []) as Hnil.
  { intros Hnil. rewrite Hnil in Hget. by vm_compute in Hget. }
  assert (utf8 (header out')) as Hu'.
  { apply set_utf8; [done| |done]. apply valid_name_Forall, clip_name_valid. unfold is_ascii. lia. }
  assert (Forall header_byte (header out')) as Hb'.
  { apply Codec.set_Forall; [done| |done|decided..]. apply valid_name_Forall, clip_name_valid. unfold header_byte. lia. }
  exists md', out'. split; [done|]. intros nanos. unfold receive, install. rewrite decide_False by done.
  rewrite ascii_value_law by done. cbn [expect mbind outcome_bind].
  unfold from_headers. rewrite serve_get, meta_get_insert by done. unfold from_header_bytes, from_utf8.
  destruct (utf8 (header out')); [|done]. cbn [result_map result_map_err expect mbind outcome_bind].
  unfold h2_stream_priority. rewrite (scheduling_key_read _ (arrival_ns w)); [|done|].
  2: { rewrite meta_get_insert_ne by decided. by apply meta_get_insert. }
  cbn [mbind outcome_bind]. unfold clip_new. rewrite Hget. cbn [mbind outcome_bind default].
  by rewrite decide_False.
Qed.

(** C32: a request keeps the arrival time it is given where it enters: the one
    its metadata brings, else the clock's, never zero. Every service below,
    however many, whatever its own clock and whatever the other modules write,
    schedules the request's task by that time, never as infrastructure, and its
    module holds that time and polls with it. *)
Theorem arrival_travels request out nanos0 nanos input provided hops :
  from_metadata request = Ok input →
  Codec.get (W:=TailClipperWire) input CLIP_NAME = Ret (Ok provided) →
  let w := default (clip_now nanos0) provided in
  is_u64 (arrival_ns w) → arrival_ns w ≠ 0%Z →
  header_ok out → Forall (λ h, header_ok (hop_wire h)) hops →
  let at_arrival pm := pm = (MkMeta (arrival_ns w), MkClipper (Ok w)) in
  ∃ md' out' first visited, clip_before_root_rpc request out nanos0 = Ret (md', out', Ok tt) ∧
    receive md' out' nanos = Ret first ∧ clip_descend first.2 hops = Ret visited ∧
    at_arrival first ∧ Forall at_arrival visited ∧ length visited = length hops ∧
    is_infra first.1 = false ∧ clip_before_poll (Response:=Response) first.2 = (Some first.1, Ok tt).
Proof.
  intros Hin Hget w Ha Hne Hout Hhops at_arrival.
  unfold clip_before_root_rpc. rewrite Hin, Hget. cbn [mbind outcome_bind]. fold w.
  destruct (annotate_receive request out w Ha Hne Hout) as (md' & out' & Hann & Hrec).
  assert (∃ visited, clip_descend (MkClipper (Ok w)) hops = Ret visited ∧ Forall at_arrival visited ∧
            length visited = length hops) as (visited & Hd & Hall & Hlen).
  { clear Hann Hrec. induction Hhops as [|h hops Hh _ (visited & IH & Hall & Hlen)]; [by exists []|].
    destruct (annotate_receive (hop_request h) (hop_wire h) w Ha Hne Hh) as (md1 & out1 & Hann & Hrec).
    exists ((MkMeta (arrival_ns w), MkClipper (Ok w)) :: visited). cbn [clip_descend].
    unfold Clipper.clip_before_child_rpc. cbn [arrival]. rewrite Hann. cbn [mbind outcome_bind].
    rewrite Hrec. cbn [mbind outcome_bind]. rewrite IH. cbn. by rewrite Hlen; split_and!; [|constructor|]. }
  exists md', out', (MkMeta (arrival_ns w), MkClipper (Ok w)), visited.
  split_and!; [exact Hann|apply Hrec|exact Hd|done|exact Hall|exact Hlen| |done].
  unfold is_infra, INFRA. cbn. apply bool_decide_eq_false. by intros [= ?].
Qed.

(** A zero or undecodable arrival time rejects the request at every hook, and no
    request it makes is changed. *)
Lemma bad_arrival_rejected wire nanos r m :
  Codec.get (W:=TailClipperWire) wire CLIP_NAME = Ret r →
  match r with Ok (Some w) => arrival_ns w = 0%Z | Ok None => False | Err _ => True end →
  clip_new wire nanos = Ret m →
  ∃ status, clip_before_poll (Response:=Response) m = (None, Err (Err status)) ∧
    ∀ md out, clip_before_child_rpc m md out = Ret (md, out, Err status).
Proof.
  intros Hget Hbad. unfold clip_new, Clipper.clip_new. rewrite Hget. cbn [mbind outcome_bind]. intros [= <-].
  destruct r as [[w|]|e]; [|done|]; cbn [default].
  - rewrite decide_True by done. by eexists.
  - by eexists.
Qed.
End travel.

(** ** A witness *)

Definition clip_encode (w : TailClipperWire) : option bytes :=
  if decide (is_u64 (arrival_ns w)) then Some (write_varint (arrival_ns w)) else None.

Definition clip_decode (bs : bytes) : option TailClipperWire :=
  '(a, r) ← read_varint bs; if decide (r = []) then Some (MkClip a) else None.

Definition clip_bincode : Bincode TailClipperWire := bincode_of clip_encode clip_decode.

Lemma clip_encode_decode w bs : clip_encode w = Some bs → Forall is_byte bs ∧ clip_decode bs = Some w.
Proof.
  unfold clip_encode. case_decide as Hw; [|done]. intros [= <-]. destruct w as [a]. cbn [arrival_ns] in *.
  apply write_varint_ok in Hw as [Hv Hb]. split; [done|]. unfold clip_decode.
  pose proof (read_varint_app _ _ [] Hv) as Hr. rewrite app_nil_r in Hr. by rewrite Hr.
Qed.

Lemma clip_bincode_wire_laws : @ClipWireLaws clip_bincode.
Proof.
  split; [apply bincode_of_laws, clip_encode_decode|]. intros w Hw. cbn. unfold clip_encode.
  rewrite decide_True by done. by eexists.
Qed.

#[local] Existing Instance reference_engine.
#[local] Existing Instance reference_laws.
#[local] Existing Instance clip_bincode.
#[local] Existing Instance clip_bincode_wire_laws.
#[local] Existing Instance reference_bincode.
#[local] Existing Instance list_metadata.
#[local] Existing Instance list_metadata_laws.
#[local] Existing Instance list_headers.
#[local] Existing Instance list_headers_laws.

(** A request that arrives at 1234 passes three services whose clocks say
    other things. *)
Lemma arrival_travels_witness :
  let hops := (λ n, MkHop (M:=list (bytes * bytes)) [] wire_out_new n) <$> [7; 5000]%Z in
  ∃ md out first visited,
    clip_before_root_rpc (λ b : bytes, b) (λ b, b) ([] : list (bytes * bytes)) wire_out_new 1234 = Ret (md, out, Ok tt) ∧
    receive (H:=list (bytes * bytes)) (λ b, b) (λ md, md) md out 99 = Ret first ∧
    clip_descend (H:=list (bytes * bytes)) (λ b, b) (λ b, b) (λ md, md) first.2 hops = Ret visited ∧
    (meta_value ∘ fst <$> (first :: visited)) = [1234; 1234; 1234]%Z.
Proof.
  intros hops.
  destruct (arrival_travels (Response:=unit) (λ b : bytes, b) (λ b, b) (λ md : list (bytes * bytes), md)
    list_serve [] wire_out_new 1234 99 wire_in_default None hops)
    as (md & out & first & visited & Hroot & Hrec & Hd & Hf & Hall & Hlen & _);
    [done|by vm_compute|by split|done|by split; [|constructor]|by repeat constructor|].
  exists md, out, first, visited. split_and!; [exact Hroot|exact Hrec|exact Hd|].
  destruct visited as [|v1 [|v2 [|]]]; try done.
  apply Forall_cons in Hall as [-> Hall]. apply Forall_cons in Hall as [-> _]. by rewrite Hf.
Defined.
