(* ===== verification/MultiQueue.v ===== *)
(** The relaxed concurrent priority queue of
    libs/multiqueue-prio-queue/src/lib.rs: sub-queues, each a heap behind a lock
    with its own counter, under any interleaving of threads. A step is one
    atomic action of one thread: taking or releasing a lock, a heap operation
    under the lock, an update of a counter. The random samples are chosen by
    the scheduler. *)
From S2P Require Export Heap.
From AAC_tactics Require Import AAC.
From AAC_tactics Require Instances.
Import Instances.Lists.

(** Lists up to order, for the AC tactics. *)
#[local] Instance perm_lift {A} : AAC_lift (@Permutation A) (@Permutation A).
Proof. split; [apply _|]. intros x y H x' y' H'. by rewrite H, H'. Qed.

Lemma mjoin_cons {A} (l : list A) (ls : list (list A)) : mjoin (l :: ls) = l ++ mjoin ls.
Proof. reflexivity. Qed.

(** Replacing one element of a list of lists, up to order. *)
Lemma mjoin_insert {A B} (f : A → list B) (l : list A) i x y :
  l !! i = Some x → mjoin (f <$> <[i:=y]> l) ++ f x ≡ₚ mjoin (f <$> l) ++ f y.
Proof.
  revert i; induction l as [|z l IH]; intros [|i]; simpl; [done|done| |].
  - intros [= ->]. aac_reflexivity.
  - intros Hi. rewrite <-!app_assoc, (IH i Hi). done.
Qed.

Section multiqueue.
  Context {T : Type} {HB : BinaryHeap T} (ge_dec : T → T → bool).

Definition DEFAULT_NUM_QUEUES : nat := 16.

(** [owner] is the thread that holds the [Mutex]; [len] the [AtomicUsize]. *)
Record SubQueue := MkSub { sq_heap : heap T; sq_len : Z; owner : option nat }.

Definition sub_new : SubQueue := MkSub heap_new 0 None.

Definition new (num_queues : nat) : outcome (list SubQueue) :=
  if decide (2 ≤ num_queues) then Ret (replicate num_queues sub_new) else Panic.

Definition with_threads (threads : nat) : outcome (list SubQueue) :=
  if decide (0 < threads) then new (threads * 2) else Panic.

Definition default_queue : outcome (list SubQueue) := new DEFAULT_NUM_QUEUES.

(** Where a thread is in [push], [pop] or [pop_any]; the arguments are the
    locals it still needs. *)
Inductive pc :=
| Idle
| PushLoop (x : T)
| PushHold (x : T) (i : nat)
| PushCount (i : nat)
| PushDrop (i : nat)
| PopLoop
| PopHoldLo (lo hi : nat)
| PopRetry (lo : nat)
| PopHold (lo hi : nat)
| PopCount (v : T) (idx lo hi : nat)
| PopDropHi (r : option T) (lo hi : nat)
| PopDropLo (r : option T) (lo : nat)
| AnyTry (k : nat)
| AnyTryHold (k : nat)
| AnyTryDrop (k : nat)
| AnyLock (k : nat)
| AnyHold (k : nat)
| AnyDrop (k : nat)
| AnyCount (v : T) (k : nat)
| AnyReturn (v : T) (k : nat)
| Return (r : option T).

(** The shared queue, the threads, and the items pushed and popped so far. *)
Record state := MkSt {
  queues : list SubQueue;
  threads : list pc;
  pushed : list T;
  popped : list T;
}.

(** What the scheduler chooses: the operation an idle thread starts, the
    indices a thread samples, or just the thread's next action. *)
Inductive action :=
| BeginPush (x : T)
| BeginPop
| BeginPopAny
| Sample (i : nat)
| SamplePair (i j : nat)
| Run.

Definition goto (t : nat) (p : pc) (s : state) : state :=
  MkSt (queues s) (<[t := p]> (threads s)) (pushed s) (popped s).

Definition put (i : nat) (q : SubQueue) (s : state) : state :=
  MkSt (<[i := q]> (queues s)) (threads s) (pushed s) (popped s).

Definition with_owner (o : option nat) (q : SubQueue) : SubQueue := MkSub (sq_heap q) (sq_len q) o.

(** [try_lock]: the lock if it is free; else the thread yields and goes to
    [contended]. *)
Definition try_lock (t i : nat) (locked contended : pc) (s : state) : option state :=
  q ← queues s !! i;
  match owner q with
  | None => Some (goto t locked (put i (with_owner (Some t) q) s))
  | Some _ => Some (goto t contended s)
  end.

(** [lock]: blocks while another thread holds the lock. *)
Definition lock (t i : nat) (locked : pc) (s : state) : option state :=
  q ← queues s !! i;
  match owner q with
  | None => Some (goto t locked (put i (with_owner (Some t) q) s))
  | Some _ => None
  end.

(** Dropping the guard. *)
Definition unlock (t i : nat) (next : pc) (s : state) : option state :=
  q ← queues s !! i; Some (goto t next (put i (with_owner None q) s)).

(** [fetch_add] and [fetch_sub] of the counter. *)
Definition count (t i : nat) (d : Z) (next : pc) (s : state) : option state :=
  q ← queues s !! i;
  Some (goto t next (put i (MkSub (sq_heap q) (wrap64 (sq_len q + d)) (owner q)) s)).

(** [g.pop()] under the lock: [found] with the item, else [empty]. *)
Definition pop_heap (t i : nat) (found : T → pc) (empty : pc) (s : state) : option state :=
  q ← queues s !! i;
  match heap_pop (sq_heap q) with
  | Some (v, h) => Some (goto t (found v) (put i (MkSub h (sq_len q) (owner q)) s))
  | None => Some (goto t empty s)
  end.

(** The next action of thread [t]. *)
Definition step (t : nat) (a : action) (s : state) : option state :=
  let n := length (queues s) in
  p ← threads s !! t;
  match p, a with
  | Idle, BeginPush x =>
      Some (goto t (PushLoop x) (MkSt (queues s) (threads s) (x :: pushed s) (popped s)))
  | Idle, BeginPop => Some (goto t PopLoop s)
  | Idle, BeginPopAny => Some (goto t (AnyTry 0) s)
  | PushLoop x, Sample i => try_lock t i (PushHold x i) (PushLoop x) s
  | PushHold x i, Run =>
      q ← queues s !! i;
      Some (goto t (PushCount i) (put i (MkSub (heap_push x (sq_heap q)) (sq_len q) (owner q)) s))
  | PushCount i, Run => count t i 1 (PushDrop i) s
  | PushDrop i, Run => unlock t i Idle s
  | PopLoop, SamplePair i j =>
      if decide (i < n ∧ j < n - 1) then
        let j := if decide (i ≤ j) then j + 1 else j in
        let '(lo, hi) := if decide (i < j) then (i, j) else (j, i) in
        try_lock t lo (PopHoldLo lo hi) PopLoop s
      else None
  | PopHoldLo lo hi, Run => try_lock t hi (PopHold lo hi) (PopRetry lo) s
  | PopRetry lo, Run => unlock t lo PopLoop s
  | PopHold lo hi, Run =>
      q_lo ← queues s !! lo;
      q_hi ← queues s !! hi;
      match heap_peek (sq_heap q_lo), heap_peek (sq_heap q_hi) with
      | None, None => Some (goto t (PopDropHi None lo hi) s)
      | Some _, None => pop_heap t lo (λ v, PopCount v lo lo hi) (PopDropHi None lo hi) s
      | None, Some _ => pop_heap t hi (λ v, PopCount v hi lo hi) (PopDropHi None lo hi) s
      | Some a, Some b =>
          if ge_dec a b
          then pop_heap t lo (λ v, PopCount v lo lo hi) (PopDropHi None lo hi) s
          else pop_heap t hi (λ v, PopCount v hi lo hi) (PopDropHi None lo hi) s
      end
  | PopCount v idx lo hi, Run => count t idx (-1) (PopDropHi (Some v) lo hi) s
  | PopDropHi r lo hi, Run => unlock t hi (PopDropLo r lo) s
  | PopDropLo r lo, Run => unlock t lo (Return r) s
  | AnyTry k, Run =>
      if decide (k < n) then try_lock t k (AnyTryHold k) (AnyTry (S k)) s
      else Some (goto t (AnyLock 0) s)
  | AnyTryHold k, Run => pop_heap t k (λ v, AnyCount v k) (AnyTryDrop k) s
  | AnyTryDrop k, Run => unlock t k (AnyTry (S k)) s
  | AnyLock k, Run =>
      if decide (k < n) then lock t k (AnyHold k) s else Some (goto t (Return None) s)
  | AnyHold k, Run => pop_heap t k (λ v, AnyCount v k) (AnyDrop k) s
  | AnyDrop k, Run => unlock t k (AnyLock (S k)) s
  | AnyCount v k, Run => count t k (-1) (AnyReturn v k) s
  | AnyReturn v k, Run => unlock t k (Return (Some v)) s
  | Return r, Run =>
      Some (goto t Idle (MkSt (queues s) (threads s) (pushed s) (option_list r ++ popped s)))
  | _, _ => None
  end.

(** The lock-free scans. *)
Definition mq_len (s : state) : Z := foldr (λ q n, (sq_len q + n)%Z) 0%Z (queues s).
Definition mq_is_empty (s : state) : bool := forallb (λ q, (sq_len q =? 0)%Z) (queues s).

Definition start (qs : list SubQueue) (num_threads : nat) : state :=
  MkSt qs (replicate num_threads Idle) [] [].

(** Any interleaving of any number of steps. *)
Inductive reachable : state → Prop :=
| reach_start num_queues qs num_threads :
    new num_queues = Ret qs → reachable (start qs num_threads)
| reach_step s t a s' : reachable s → step t a s = Some s' → reachable s'.

(** ** The invariant *)

(** The locks a thread holds. *)
Definition holds (p : pc) : list nat :=
  match p with
  | PushHold _ i | PushCount i | PushDrop i => [i]
  | PopHoldLo lo _ | PopRetry lo => [lo]
  | PopHold lo hi | PopCount _ _ lo hi | PopDropHi _ lo hi => [lo; hi]
  | PopDropLo _ lo => [lo]
  | AnyTryHold k | AnyTryDrop k | AnyHold k | AnyDrop k | AnyCount _ k | AnyReturn _ k => [k]
  | _ => []
  end.

(** The items a thread has in hand: not yet pushed, or popped and not yet
    returned. *)
Definition in_hand (p : pc) : list T :=
  match p with
  | PushLoop x | PushHold x _ => [x]
  | PopCount v _ _ _ | AnyCount v _ | AnyReturn v _ => [v]
  | PopDropHi (Some v) _ _ | PopDropLo (Some v) _ | Return (Some v) => [v]
  | _ => []
  end.

(** How far the counter of sub-queue [i] is behind its heap because of a thread
    that has changed the heap and not yet the counter. *)
Definition lag (p : pc) (i : nat) : Z :=
  match p with
  | PushCount j => if decide (i = j) then 1 else 0
  | PopCount _ j _ _ | AnyCount _ j => if decide (i = j) then -1 else 0
  | _ => 0
  end%Z.

Definition owner_lag (s : state) (i : nat) (q : SubQueue) : Z :=
  match owner q with
  | Some t => match threads s !! t with Some p => lag p i | None => 0 end
  | None => 0
  end%Z.

(** [PopHold] and its successors lock two different sub-queues, and the one
    whose counter is due is locked. *)
Definition pc_ok (n : nat) (p : pc) : Prop :=
  match p with
  | PopHoldLo lo hi | PopHold lo hi | PopDropHi _ lo hi => lo < hi < n
  | PopCount _ idx lo hi => lo < hi < n ∧ (idx = lo ∨ idx = hi)
  | _ => True
  end.

Definition stored (s : state) : list T := mjoin ((λ q, heap_list (sq_heap q)) <$> queues s).
Definition carried (s : state) : list T := mjoin (in_hand <$> threads s).

Record invariant (s : state) : Prop := {
  inv_pcs : Forall (pc_ok (length (queues s))) (threads s);
  inv_locks : ∀ i q t, queues s !! i = Some q →
    owner q = Some t ↔ ∃ p, threads s !! t = Some p ∧ i ∈ holds p;
  inv_held : ∀ t p i, threads s !! t = Some p → i ∈ holds p → i < length (queues s);
  inv_len : ∀ i q, queues s !! i = Some q →
    sq_len q = wrap64 (Z.of_nat (length (heap_list (sq_heap q))) - owner_lag s i q);
  inv_items : pushed s ≡ₚ stored s ++ carried s ++ popped s;
}.

(** ** One step preserves it *)

(** A thread moves on, and the sub-queue it works on changes. *)
Lemma invariant_update s t p p' i q q' pushed' popped' :
  invariant s → threads s !! t = Some p → queues s !! i = Some q →
  pc_ok (length (queues s)) p' →
  (∀ j, j ≠ i → j ∈ holds p' ↔ j ∈ holds p) →
  (owner q = Some t ∨ owner q = None) →
  (owner q' = Some t ∧ i ∈ holds p' ∨ owner q' = None ∧ i ∉ holds p') →
  (∀ j, j ≠ i → j ∈ holds p → lag p' j = lag p j) →
  sq_len q' = wrap64 (Z.of_nat (length (heap_list (sq_heap q')))
                - match owner q' with Some _ => lag p' i | None => 0 end) →
  pushed' ++ heap_list (sq_heap q) ++ in_hand p ++ popped s
    ≡ₚ pushed s ++ heap_list (sq_heap q') ++ in_hand p' ++ popped' →
  invariant (MkSt (<[i:=q']> (queues s)) (<[t:=p']> (threads s)) pushed' popped').
Proof.
  intros [Hpcs Hlocks Hheld Hlen Hitems] Ht Hq Hok Hother Hown Hown' Hlag Hlen' Hperm.
  assert (∀ t' p0, t' ≠ t → threads s !! t' = Some p0 → i ∉ holds p0) as Hfree.
  { intros t' p0 Hne Hp0 Hin. assert (owner q = Some t') as Ho by (apply (Hlocks i q t' Hq); by eexists).
    destruct Hown; congruence. }
  assert (t < length (threads s)) as Htlt by (by eapply lookup_lt_Some).
  assert (i < length (queues s)) as Hilt by (by eapply lookup_lt_Some).
  split; cbn [queues threads pushed popped].
  - rewrite length_insert. by apply Forall_insert.
  - intros j qj t' Hj. destruct (decide (j = i)) as [->|Hji].
    + rewrite list_lookup_insert_eq in Hj by done. injection Hj as <-.
      destruct (decide (t' = t)) as [->|Hne].
      * rewrite list_lookup_insert_eq by done.
        destruct Hown' as [[-> Hin]|[-> Hin]]; (split; [|done || by intros (? & [= <-] & ?)]).
        { intros _. by eexists. } { done. }
      * rewrite list_lookup_insert_ne by done. split.
        { destruct Hown' as [[-> _]|[-> _]]; congruence. }
        { intros (p0 & Hp0 & Hin). exfalso. by eapply Hfree. }
    + rewrite list_lookup_insert_ne in Hj by done. rewrite (Hlocks j qj t' Hj).
      destruct (decide (t' = t)) as [->|Hne].
      * rewrite list_lookup_insert_eq by done. rewrite Ht. split.
        { intros (? & [= <-] & Hin). eexists. split; [done|]. by apply Hother. }
        { intros (? & [= <-] & Hin). eexists. split; [done|]. by apply Hother. }
      * by rewrite list_lookup_insert_ne.
  - intros t' p0 j Hp0 Hin. rewrite length_insert. destruct (decide (t' = t)) as [->|Hne].
    + rewrite list_lookup_insert_eq in Hp0 by done. injection Hp0 as <-.
      destruct (decide (j = i)) as [->|Hji]; [done|]. apply (Hheld t p); [done|]. by apply Hother.
    + rewrite list_lookup_insert_ne in Hp0 by done. by eapply Hheld.
  - intros j qj Hj. unfold owner_lag. cbn [threads]. destruct (decide (j = i)) as [->|Hji].
    + rewrite list_lookup_insert_eq in Hj by done. injection Hj as <-. rewrite Hlen'.
      destruct Hown' as [[-> Hin]|[-> Hin]]; [|done]. by rewrite list_lookup_insert_eq.
    + rewrite list_lookup_insert_ne in Hj by done. rewrite (Hlen j qj Hj). unfold owner_lag.
      destruct (owner qj) as [t'|] eqn:Ho; [|done]. destruct (decide (t' = t)) as [->|Hne].
      * apply (Hlocks j qj t Hj) in Ho as (p0 & Hp0 & Hin). rewrite Ht in Hp0. injection Hp0 as <-.
        rewrite Ht, list_lookup_insert_eq by done. by rewrite Hlag.
      * by rewrite list_lookup_insert_ne by done.
  - unfold stored, carried in *. cbn [queues threads].
    pose proof (mjoin_insert (λ q, heap_list (sq_heap q)) _ _ _ q' Hq) as H1.
    pose proof (mjoin_insert in_hand _ _ _ p' Ht) as H2. cbn beta in H1.
    apply (Permutation_app_inv_r (heap_list (sq_heap q) ++ in_hand p ++ popped s)).
    rewrite Hperm, Hitems.
    set (S' := mjoin _) at 3. set (C' := mjoin _) at 3. fold S' in H1. fold C' in H2.
    trans ((S' ++ heap_list (sq_heap q)) ++ (C' ++ in_hand p) ++ popped' ++ popped s);
      [rewrite H1, H2|]; aac_reflexivity.
Qed.

(** A thread moves on and no sub-queue changes. *)
Lemma invariant_goto s t p p' pushed' popped' :
  invariant s → threads s !! t = Some p → pc_ok (length (queues s)) p' →
  holds p' = holds p → (∀ j, j ∈ holds p → lag p' j = lag p j) →
  pushed' ++ in_hand p ++ popped s ≡ₚ pushed s ++ in_hand p' ++ popped' →
  invariant (MkSt (queues s) (<[t:=p']> (threads s)) pushed' popped').
Proof.
  intros [Hpcs Hlocks Hheld Hlen Hitems] Ht Hok Hh Hlag Hperm.
  assert (t < length (threads s)) as Htlt by (by eapply lookup_lt_Some).
  split; cbn [queues threads pushed popped].
  - by apply Forall_insert.
  - intros j qj t' Hj. rewrite (Hlocks j qj t' Hj). destruct (decide (t' = t)) as [->|Hne].
    + rewrite list_lookup_insert_eq, Ht by done.
      split; intros (? & [= <-] & Hin); (eexists; split; [done|]); congruence.
    + by rewrite list_lookup_insert_ne.
  - intros t' p0 j Hp0 Hin. destruct (decide (t' = t)) as [->|Hne].
    + rewrite list_lookup_insert_eq in Hp0 by done. injection Hp0 as <-.
      apply (Hheld t p); [done|congruence].
    + rewrite list_lookup_insert_ne in Hp0 by done. by eapply Hheld.
  - intros j qj Hj. rewrite (Hlen j qj Hj). unfold owner_lag. cbn [threads].
    destruct (owner qj) as [t'|] eqn:Ho; [|done]. destruct (decide (t' = t)) as [->|Hne].
    + apply (Hlocks j qj t Hj) in Ho as (p0 & Hp0 & Hin). rewrite Ht in Hp0. injection Hp0 as <-.
      rewrite Ht, list_lookup_insert_eq by done. by rewrite Hlag.
    + by rewrite list_lookup_insert_ne by done.
  - unfold stored, carried in *. cbn [queues threads].
    pose proof (mjoin_insert in_hand _ _ _ p' Ht) as H2.
    apply (Permutation_app_inv_r (in_hand p ++ popped s)). rewrite Hperm, Hitems.
    set (S' := mjoin _) at 1. set (C' := mjoin _) at 3. fold C' in H2. fold S'.
    trans (S' ++ (C' ++ in_hand p) ++ popped' ++ popped s); [rewrite H2|]; aac_reflexivity.
Qed.

Lemma held_owner s t p i q :
  invariant s → threads s !! t = Some p → queues s !! i = Some q → i ∈ holds p → owner q = Some t.
Proof. intros Hinv Ht Hq Hin. apply (inv_locks s Hinv i q t Hq). by eexists. Qed.

Lemma held_len s t p i q :
  invariant s → threads s !! t = Some p → queues s !! i = Some q → i ∈ holds p →
  sq_len q = wrap64 (Z.of_nat (length (heap_list (sq_heap q))) - lag p i).
Proof.
  intros Hinv Ht Hq Hin. rewrite (inv_len s Hinv i q Hq). unfold owner_lag.
  by rewrite (held_owner s t p i q), Ht.
Qed.

(** No counter is behind. *)
Definition no_lag (p : pc) : Prop := ∀ j, lag p j = 0%Z.

Lemma inv_acquire s t p p' i q :
  invariant s → threads s !! t = Some p → queues s !! i = Some q → owner q = None →
  pc_ok (length (queues s)) p' → no_lag p → no_lag p' →
  (∀ j, j ∈ holds p' ↔ j = i ∨ j ∈ holds p) → in_hand p' = in_hand p →
  invariant (goto t p' (put i (with_owner (Some t) q) s)).
Proof.
  intros Hinv Ht Hq Ho Hok Hl Hl' Hh Hin. apply (invariant_update s t p p' i q); try done.
  - intros j Hj. rewrite Hh. naive_solver.
  - by right.
  - left. split; [done|]. apply Hh. by left.
  - intros j _ _. by rewrite Hl, Hl'.
  - cbn. rewrite Hl'. rewrite (inv_len s Hinv i q Hq). unfold owner_lag. by rewrite Ho.
  - cbn. by rewrite Hin.
Qed.

Lemma inv_release s t p p' i q :
  invariant s → threads s !! t = Some p → queues s !! i = Some q → i ∈ holds p →
  pc_ok (length (queues s)) p' → no_lag p → no_lag p' →
  (∀ j, j ∈ holds p' ↔ j ≠ i ∧ j ∈ holds p) → in_hand p' = in_hand p →
  invariant (goto t p' (put i (with_owner None q) s)).
Proof.
  intros Hinv Ht Hq Hi Hok Hl Hl' Hh Hin. apply (invariant_update s t p p' i q); try done.
  - intros j Hj. rewrite Hh. naive_solver.
  - left. by eapply held_owner.
  - right. split; [done|]. rewrite Hh. naive_solver.
  - intros j _ _. by rewrite Hl, Hl'.
  - cbn. rewrite (held_len s t p i q) by done. by rewrite Hl.
  - cbn. by rewrite Hin.
Qed.

Lemma inv_change s t p p' i q h l :
  invariant s → threads s !! t = Some p → queues s !! i = Some q → i ∈ holds p →
  pc_ok (length (queues s)) p' → holds p' = holds p →
  (∀ j, j ≠ i → lag p' j = lag p j) →
  l = wrap64 (Z.of_nat (length (heap_list h)) - lag p' i) →
  heap_list (sq_heap q) ++ in_hand p ≡ₚ heap_list h ++ in_hand p' →
  invariant (goto t p' (put i (MkSub h l (owner q)) s)).
Proof.
  intros Hinv Ht Hq Hi Hok Hh Hl Hlen Hperm. pose proof (held_owner s t p i q Hinv Ht Hq Hi) as Ho.
  apply (invariant_update s t p p' i q); try done.
  - intros j _. by rewrite Hh.
  - by left.
  - left. by rewrite Hh.
  - intros j Hj _. by apply Hl.
  - cbn [sq_len sq_heap owner]. by rewrite Ho.
  - cbn. rewrite !(app_assoc (heap_list _)), Hperm. done.
Qed.

Lemma inv_count s t p p' i q d :
  invariant s → threads s !! t = Some p → queues s !! i = Some q → i ∈ holds p →
  pc_ok (length (queues s)) p' → holds p' = holds p → in_hand p' = in_hand p →
  no_lag p' → (∀ j, lag p j = if decide (j = i) then d else 0%Z) →
  invariant (goto t p' (put i (MkSub (sq_heap q) (wrap64 (sq_len q + d)) (owner q)) s)).
Proof.
  intros Hinv Ht Hq Hi Hok Hh Hin Hl' Hl. eapply inv_change; try done.
  - intros j Hj. by rewrite Hl', Hl, decide_False.
  - rewrite (held_len s t p i q), Hl', Hl, decide_True by done. unfold wrap64.
    rewrite Zplus_mod_idemp_l. f_equal. lia.
  - by rewrite Hin.
Qed.

Lemma inv_heap s t p p' i q h d :
  invariant s → threads s !! t = Some p → queues s !! i = Some q → i ∈ holds p →
  pc_ok (length (queues s)) p' → holds p' = holds p → no_lag p →
  (∀ j, lag p' j = if decide (j = i) then d else 0%Z) →
  Z.of_nat (length (heap_list h)) = (Z.of_nat (length (heap_list (sq_heap q))) + d)%Z →
  heap_list (sq_heap q) ++ in_hand p ≡ₚ heap_list h ++ in_hand p' →
  invariant (goto t p' (put i (MkSub h (sq_len q) (owner q)) s)).
Proof.
  intros Hinv Ht Hq Hi Hok Hh Hl Hl' Hlen Hperm. eapply inv_change; try done.
  - intros j Hj. by rewrite Hl', Hl, decide_False.
  - rewrite (held_len s t p i q), Hl, Hl', decide_True by done. f_equal. lia.
Qed.

Context {R : relation T} {HL : BinaryHeapLaws T R}.

Lemma inv_pop_heap s t p found empty i s' :
  invariant s → threads s !! t = Some p → i ∈ holds p → pop_heap t i found empty s = Some s' →
  (∀ v, pc_ok (length (queues s)) (found v)) → pc_ok (length (queues s)) empty →
  (∀ v, holds (found v) = holds p) → holds empty = holds p →
  no_lag p → (∀ v j, lag (found v) j = if decide (j = i) then (-1)%Z else 0%Z) → no_lag empty →
  in_hand p = [] → (∀ v, in_hand (found v) = [v]) → in_hand empty = [] →
  invariant s'.
Proof.
  intros Hinv Ht Hi Hs Hokf Hoke Hhf Hhe Hl Hlf Hle Hin Hinf Hine. unfold pop_heap in Hs.
  destruct (queues s !! i) as [q|] eqn:Hq; [|done]. cbn [mbind option_bind] in Hs.
  destruct (heap_pop (sq_heap q)) as [[v h]|] eqn:Hp; injection Hs as <-.
  - apply heap_pop_Some in Hp as [Hperm _]. eapply inv_heap; try done.
    + apply Permutation_length in Hperm. rewrite Hperm. cbn [length]. lia.
    + rewrite Hin, Hinf, Hperm, app_nil_r. apply Permutation_cons_append.
  - apply (invariant_goto s t p); try done.
    + intros j _. by rewrite Hl, Hle.
    + by rewrite Hin, Hine.
Qed.

Lemma inv_try_lock s t p locked contended i s' :
  invariant s → threads s !! t = Some p → try_lock t i locked contended s = Some s' →
  pc_ok (length (queues s)) locked → pc_ok (length (queues s)) contended →
  no_lag p → no_lag locked → no_lag contended →
  (∀ j, j ∈ holds locked ↔ j = i ∨ j ∈ holds p) → holds contended = holds p →
  in_hand locked = in_hand p → in_hand contended = in_hand p → invariant s'.
Proof.
  intros Hinv Ht Hs Hokl Hokc Hl Hll Hlc Hhl Hhc Hinl Hinc. unfold try_lock in Hs.
  destruct (queues s !! i) as [q|] eqn:Hq; [|done]. cbn [mbind option_bind] in Hs.
  destruct (owner q) eqn:Ho; injection Hs as <-; [|by eapply inv_acquire].
  apply (invariant_goto s t p); try done.
  - intros j _. by rewrite Hl, Hlc.
  - by rewrite Hinc.
Qed.

(** The side conditions about one program counter and the next. *)
Ltac pc_side :=
  try done; try (intros ?; done);
  try (intros ?; cbn; rewrite ?elem_of_cons, ?elem_of_nil; intuition (subst; lia)).

Lemma step_invariant s t a s' : invariant s → step t a s = Some s' → invariant s'.
Proof.
  intros Hinv. unfold step. destruct (threads s !! t) as [p|] eqn:Ht; [|done].
  cbn [mbind option_bind].
  pose proof (inv_pcs s Hinv) as Hpc. rewrite Forall_lookup in Hpc. specialize (Hpc t p Ht).
  destruct p as [|x|x i|i|i| |lo hi|lo|lo hi|v idx lo hi|r lo hi|r lo|k|k|k|k|k|k|v k|v k|r],
    a as [y| | |j|j j'|]; try done; intros Hs; cbn [pc_ok] in Hpc.
  - injection Hs as <-. apply (invariant_goto s t Idle); pc_side. cbn. by rewrite <-Permutation_middle.
  - injection Hs as <-. by apply (invariant_goto s t Idle).
  - injection Hs as <-. by apply (invariant_goto s t Idle).
  - eapply inv_try_lock; try exact Hs; try exact Ht; pc_side.
  - destruct (queues s !! i) as [q|] eqn:Hq; [|done]. injection Hs as <-.
    apply (inv_heap s t (PushHold x i) (PushCount i) i q _ 1); pc_side.
    + by left.
    + rewrite (Permutation_length (heap_list_push x (sq_heap q))). cbn [length]. lia.
    + cbn. rewrite heap_list_push, app_nil_r. by rewrite Permutation_app_comm.
  - unfold count in Hs. destruct (queues s !! i) as [q|] eqn:Hq; [|done]. injection Hs as <-.
    apply (inv_count s t (PushCount i)); pc_side. by left.
  - unfold unlock in Hs. destruct (queues s !! i) as [q|] eqn:Hq; [|done]. injection Hs as <-.
    apply (inv_release s t (PushDrop i)); pc_side. by left.
  - case_decide as Hij; [|done].
    set (j1 := if decide (j ≤ j') then j' + 1 else j') in *.
    assert (j1 ≠ j ∧ j1 < length (queues s)) as [Hne Hlt] by (unfold j1; destruct (decide (j ≤ j')); lia).
    clearbody j1.
    destruct (decide (j < j1)); eapply inv_try_lock; try exact Hs; try exact Ht; pc_side;
      cbn; lia.
  - eapply inv_try_lock; try exact Hs; try exact Ht; pc_side.
  - unfold unlock in Hs. destruct (queues s !! lo) as [q|] eqn:Hq; [|done]. injection Hs as <-.
    apply (inv_release s t (PopRetry lo)); pc_side. by left.
  - destruct (queues s !! lo) as [ql|] eqn:Hql; [|done].
    destruct (queues s !! hi) as [qh|] eqn:Hqh; [|done]. cbn [mbind option_bind] in Hs.
    assert (∀ i, i = lo ∨ i = hi →
      pop_heap t i (λ v, PopCount v i lo hi) (PopDropHi None lo hi) s = Some s' → invariant s') as Hpop.
    { intros i Hi Hp. eapply inv_pop_heap; try exact Hp; try exact Ht; pc_side.
      cbn. rewrite !elem_of_cons. naive_solver. }
    destruct (heap_peek (sq_heap ql)) as [a|], (heap_peek (sq_heap qh)) as [b|];
      [destruct (ge_dec a b)|..]; try (by eapply Hpop; [|exact Hs]; auto).
    injection Hs as <-. by apply (invariant_goto s t (PopHold lo hi)).
  - unfold count in Hs. destruct (queues s !! idx) as [q|] eqn:Hq; [|done]. injection Hs as <-.
    apply (inv_count s t (PopCount v idx lo hi)); pc_side.
    + cbn. rewrite !elem_of_cons. naive_solver.
    + cbn. naive_solver.
  - unfold unlock in Hs. destruct (queues s !! hi) as [q|] eqn:Hq; [|done]. injection Hs as <-.
    apply (inv_release s t (PopDropHi r lo hi)); pc_side.
    cbn. rewrite !elem_of_cons. naive_solver.
  - unfold unlock in Hs. destruct (queues s !! lo) as [q|] eqn:Hq; [|done]. injection Hs as <-.
    apply (inv_release s t (PopDropLo r lo)); pc_side. by left.
  - case_decide.
    + eapply inv_try_lock; try exact Hs; try exact Ht; pc_side.
    + injection Hs as <-. by apply (invariant_goto s t (AnyTry k)).
  - eapply inv_pop_heap; try exact Hs; try exact Ht; pc_side. by left.
  - unfold unlock in Hs. destruct (queues s !! k) as [q|] eqn:Hq; [|done]. injection Hs as <-.
    apply (inv_release s t (AnyTryDrop k)); pc_side. by left.
  - case_decide.
    + unfold lock in Hs. destruct (queues s !! k) as [q|] eqn:Hq; [|done]. cbn [mbind option_bind] in Hs.
      destruct (owner q) eqn:Ho; [done|]. injection Hs as <-.
      apply (inv_acquire s t (AnyLock k)); pc_side.
    + injection Hs as <-. by apply (invariant_goto s t (AnyLock k)).
  - eapply inv_pop_heap; try exact Hs; try exact Ht; pc_side. by left.
  - unfold unlock in Hs. destruct (queues s !! k) as [q|] eqn:Hq; [|done]. injection Hs as <-.
    apply (inv_release s t (AnyDrop k)); pc_side. by left.
  - unfold count in Hs. destruct (queues s !! k) as [q|] eqn:Hq; [|done]. injection Hs as <-.
    apply (inv_count s t (AnyCount v k)); pc_side. by left.
  - unfold unlock in Hs. destruct (queues s !! k) as [q|] eqn:Hq; [|done]. injection Hs as <-.
    apply (inv_release s t (AnyReturn v k)); pc_side. by left.
  - injection Hs as <-. apply (invariant_goto s t (Return r)); pc_side.
Qed.

Lemma start_invariant num_queues qs num_threads :
  new num_queues = Ret qs → invariant (start qs num_threads).
Proof.
  unfold new. case_decide; [|done]. intros [= <-]. unfold start.
  assert (∀ t p, (replicate num_threads Idle : list pc) !! t = Some p → p = Idle) as Hidle
    by (intros t p [? _]%lookup_replicate; done).
  split; cbn [threads queues pushed popped].
  - apply Forall_lookup. by intros t p ->%Hidle.
  - intros i q t [-> _]%lookup_replicate. split; [done|]. intros (p & ->%Hidle & Hin). by apply elem_of_nil in Hin.
  - intros t p i ->%Hidle Hin. by apply elem_of_nil in Hin.
  - intros i q [-> _]%lookup_replicate. unfold owner_lag. cbn. by rewrite heap_list_new.
  - unfold stored, carried. cbn. rewrite app_nil_r.
    assert (∀ n, mjoin ((λ q, heap_list (sq_heap q)) <$> replicate n sub_new) = []) as ->
      by (intros n; induction n as [|n IH]; [done|]; cbn; by rewrite heap_list_new).
    enough (mjoin (in_hand <$> (replicate num_threads Idle : list pc)) = []) as -> by done.
    clear. induction num_threads as [|n IH]; [done|exact IH].
Qed.

Lemma reachable_invariant s : reachable s → invariant s.
Proof. induction 1; [by eapply start_invariant|by eapply step_invariant]. Qed.

(** ** Consequences *)

Lemma mq_len_sum (qs : list SubQueue) :
  Forall (λ q, sq_len q = Z.of_nat (length (heap_list (sq_heap q)))) qs →
  foldr (λ q n, (sq_len q + n)%Z) 0%Z qs
    = Z.of_nat (length (mjoin ((λ q, heap_list (sq_heap q)) <$> qs))).
Proof.
  induction 1 as [|q qs Hq _ IH]; [done|].
  rewrite fmap_cons, mjoin_cons, length_app. cbn [foldr]. rewrite IH, Hq. lia.
Qed.

Lemma stored_bound (qs : list SubQueue) q :
  q ∈ qs → length (heap_list (sq_heap q)) ≤ length (mjoin ((λ q, heap_list (sq_heap q)) <$> qs)).
Proof.
  intros [i Hi]%list_elem_of_lookup_1.
  revert i Hi. induction qs as [|q' qs IH]; intros [|i] Hi; [done|done|..];
    rewrite fmap_cons, mjoin_cons, length_app.
  - injection Hi as ->. lia.
  - specialize (IH i Hi). lia.
Qed.

(** C12: in every state of every interleaving, the items pushed are, with
    multiplicity, those in the heaps, those in the hands of a thread in the
    middle of an operation, and those popped. When no operation is running,
    [len] is exactly the number of items in the queue, and [is_empty] tells
    whether there are none. *)
Theorem multiqueue_conserves s :
  reachable s →
  pushed s ≡ₚ stored s ++ carried s ++ popped s ∧
  (Forall (λ p, p = Idle) (threads s) → (Z.of_nat (length (stored s)) ≤ u64_max)%Z →
   pushed s ≡ₚ stored s ++ popped s ∧ mq_len s = Z.of_nat (length (stored s)) ∧
   mq_is_empty s = bool_decide (stored s = [])).
Proof.
  intros Hinv%reachable_invariant. split; [apply Hinv|]. intros Hidle Hmax.
  assert (carried s = []) as Hcar.
  { unfold carried. induction Hidle as [|p l -> _ IH]; [done|exact IH]. }
  assert (Forall (λ q, sq_len q = Z.of_nat (length (heap_list (sq_heap q)))) (queues s)) as Hlens.
  { apply Forall_lookup. intros i q Hq. rewrite (inv_len s Hinv i q Hq).
    assert (owner q = None) as Ho.
    { destruct (owner q) as [t|] eqn:Ho; [|done]. apply (inv_locks s Hinv i q t Hq) in Ho.
      destruct Ho as (p & Hp & Hin). rewrite Forall_lookup in Hidle. rewrite (Hidle t p Hp) in Hin.
      by apply elem_of_nil in Hin. }
    unfold owner_lag. rewrite Ho, Z.sub_0_r. apply Z.mod_small.
    apply list_elem_of_lookup_2, stored_bound in Hq. unfold stored in Hmax. unfold u64_max in *. lia. }
  split_and!.
  - rewrite (inv_items s Hinv), Hcar. done.
  - by apply mq_len_sum.
  - unfold mq_is_empty, stored. clear -Hlens. induction Hlens as [|q l Hq _ IH]; [done|].
    cbn. rewrite IH, Hq. unfold mjoin. destruct (heap_list (sq_heap q)); [done|].
    symmetry. by apply bool_decide_eq_false_2.
Qed.

(** The cases of a step, with the sub-queues it reads. *)
Ltac step_cases Hs :=
  repeat match type of Hs with
  | mbind _ _ = Some _ => apply bind_Some in Hs as (? & ? & Hs)
  | (match ?x with _ => _ end) = Some _ => destruct x eqn:?; try done
  end; try done; try (injection Hs as <-).

Lemma step_frame t a s s' :
  step t a s = Some s' →
  ∃ p, threads s' = <[t:=p]> (threads s) ∧ length (queues s') = length (queues s).
Proof.
  unfold step, try_lock, lock, unlock, count, pop_heap. intros Hs.
  destruct (threads s !! t) as [p|]; [|done]. cbn [mbind option_bind] in Hs.
  destruct p, a; try done; step_cases Hs;
    (eexists; split; [reflexivity|]; cbn; by rewrite ?length_insert).
Qed.

Lemma reachable_queues s : reachable s → 2 ≤ length (queues s).
Proof.
  induction 1 as [num qs n Hnew|s t a s' _ IH Hs].
  - unfold new in Hnew. case_decide; [|done]. injection Hnew as <-. cbn. by rewrite length_replicate.
  - destruct (step_frame t a s s' Hs) as (p & _ & ->). done.
Qed.

Lemma try_lock_steps t i p1 p2 s : i < length (queues s) → ∃ s', try_lock t i p1 p2 s = Some s'.
Proof.
  intros [q Hq]%lookup_lt_is_Some. unfold try_lock. rewrite Hq. cbn. destruct (owner q); by eexists.
Qed.

Lemma pop_heap_steps t i f p s : i < length (queues s) → ∃ s', pop_heap t i f p s = Some s'.
Proof.
  intros [q Hq]%lookup_lt_is_Some. unfold pop_heap. rewrite Hq. cbn.
  destruct (heap_pop (sq_heap q)) as [[v h]|]; by eexists.
Qed.

(** A thread that holds a lock is never blocked. *)
Lemma holder_steps s t p :
  invariant s → threads s !! t = Some p → holds p ≠ [] → ∃ s', step t Run s = Some s'.
Proof.
  intros Hinv Ht Hne. pose proof (inv_pcs s Hinv) as Hpc. rewrite Forall_lookup in Hpc.
  specialize (Hpc t p Ht).
  assert (∀ i, i ∈ holds p → i < length (queues s)) as Hheld by (intros i; by eapply (inv_held s Hinv)).
  assert (∀ i, i ∈ holds p → ∃ q, queues s !! i = Some q) as Hq
    by (intros i Hi%Hheld; by apply lookup_lt_is_Some).
  unfold step, unlock, count. rewrite Ht. cbn [mbind option_bind].
  destruct p as [|x|x i|i|i| |lo hi|lo|lo hi|v idx lo hi|r lo hi|r lo|k|k|k|k|k|k|v k|v k|r];
    try done; cbn [holds pc_ok] in *;
    try (destruct (Hq _ (list_elem_of_here _ _)) as [q ->]; by eexists);
    try (apply pop_heap_steps, Hheld; by left).
  - apply try_lock_steps. lia.
  - destruct (Hq lo) as [ql Hql]; [by left|]. destruct (Hq hi) as [qh Hqh]; [right; by left|].
    rewrite Hql, Hqh. cbn [mbind option_bind].
    destruct (heap_peek (sq_heap ql)) as [a|], (heap_peek (sq_heap qh)) as [b|];
      [destruct (ge_dec a b)|..]; try (apply pop_heap_steps; lia). by eexists.
  - destruct (Hq idx) as [q ->]; [|by eexists]. rewrite !elem_of_cons. naive_solver.
  - destruct (Hq hi) as [q ->]; [|by eexists]. right. by left.
Qed.

(** C39: no interleaving deadlocks. In every state in which some operation is
    running, some thread with an operation running can take a step. *)
Theorem multiqueue_progress s t p :
  reachable s → threads s !! t = Some p → p ≠ Idle →
  ∃ t' p' a s', threads s !! t' = Some p' ∧ p' ≠ Idle ∧ step t' a s = Some s'.
Proof.
  intros Hr Ht Hne. pose proof (reachable_queues s Hr) as Hn. apply reachable_invariant in Hr as Hinv.
  destruct (decide (holds p = [])) as [Hh|Hh].
  2: { destruct (holder_steps s t p Hinv Ht Hh) as [s' Hs]. by exists t, p, Run, s'. }
  assert (∀ a s', step t a s = Some s' →
    ∃ t' p' a s', threads s !! t' = Some p' ∧ p' ≠ Idle ∧ step t' a s = Some s') as Hown
    by (intros a s' Hs; by exists t, p, a, s').
  unfold step in Hown at 1. rewrite Ht in Hown. cbn [mbind option_bind] in Hown.
  destruct p as [|x|x i|i|i| |lo hi|lo|lo hi|v idx lo hi|r lo hi|r lo|k|k|k|k|k|k|v k|v k|r]; try done.
  - destruct (try_lock_steps t 0 (PushHold x 0) (PushLoop x) s) as [s' Hs]; [lia|].
    exact (Hown (Sample 0) s' Hs).
  - destruct (try_lock_steps t 0 (PopHoldLo 0 1) PopLoop s) as [s' Hs]; [lia|].
    apply (Hown (SamplePair 0 0) s'). cbn beta iota. rewrite decide_True by lia. exact Hs.
  - destruct (decide (k < length (queues s))) as [Hk|Hk].
    + destruct (try_lock_steps t k (AnyTryHold k) (AnyTry (S k)) s Hk) as [s' Hs].
      apply (Hown Run s'). cbn beta iota. exact Hs.
    + eapply (Hown Run). cbn beta iota. reflexivity.
  - destruct (decide (k < length (queues s))) as [Hk|Hk].
    + apply lookup_lt_is_Some_2 in Hk as [q Hq]. destruct (owner q) as [t'|] eqn:Ho.
      * apply (inv_locks s Hinv k q t' Hq) in Ho as (p' & Hp' & Hin).
        assert (holds p' ≠ []) as Hh' by (intros He; rewrite He in Hin; by apply elem_of_nil in Hin).
        destruct (holder_steps s t' p' Hinv Hp' Hh') as [s' Hs].
        exists t', p', Run, s'. split_and!; [done| |done]. by intros ->.
      * eapply (Hown Run). cbn beta iota. unfold lock. rewrite Hq. cbn. by rewrite Ho.
    + eapply (Hown Run). cbn beta iota. reflexivity.
  - eapply (Hown Run). done.
Qed.

(** A run from one state to another, with the states it goes through. *)
Inductive trace : state → list state → state → Prop :=
| trace_nil s : trace s [s] s
| trace_step s0 l s t a s' : trace s0 l s → step t a s = Some s' → trace s0 (l ++ [s']) s'.

(** At some point of the run, sub-queue [i] was empty. *)
Definition seen_empty (l : list state) (i : nat) : Prop :=
  ∃ s q, s ∈ l ∧ queues s !! i = Some q ∧ heap_list (sq_heap q) = [].

(** What the second pass of [pop_any] has established. *)
Definition scanned (l : list state) (p : pc) : Prop :=
  match p with
  | AnyLock k | AnyHold k => ∀ i, i < k → seen_empty l i
  | AnyDrop k => ∀ i, i ≤ k → seen_empty l i
  | _ => True
  end.

Lemma trace_last s0 l s : trace s0 l s → s ∈ l.
Proof. destruct 1; [by left|]. apply elem_of_app. right. by left. Qed.

Lemma scanned_step l s t a s' p :
  s ∈ l → threads s !! t = Some p → scanned l p → step t a s = Some s' →
  ∃ p', threads s' !! t = Some p' ∧ scanned l p'.
Proof.
  intros Hl Ht Hsc Hs. pose proof (step_frame t a s s' Hs) as (p' & Hth & _).
  assert (threads s' !! t = Some p') as Hp'
    by (rewrite Hth; apply list_lookup_insert_eq; by eapply lookup_lt_Some).
  exists p'. split; [done|]. clear Hth. unfold step, try_lock, lock, unlock, count, pop_heap in Hs.
  rewrite Ht in Hs. cbn [mbind option_bind] in Hs. apply lookup_lt_Some in Ht as Hlt.
  destruct p, a; try done; step_cases Hs;
    cbn in Hp'; rewrite list_lookup_insert_eq in Hp' by done; injection Hp' as <-; try done; cbn in *.
  - intros i Hi. lia.
  - intros i Hi. destruct (decide (i = k)) as [->|]; [|apply Hsc; lia].
    match goal with Hq : queues s !! k = Some ?q, Hn : heap_pop (sq_heap ?q) = None |- _ =>
      exists s, q; by apply heap_pop_None in Hn end.
  - intros i Hi. apply Hsc. lia.
Qed.

(** [pop_any] misses no item that stays in place: when it is about to
    return [None], every sub-queue was empty at some point of the call. *)
Theorem pop_any_scans_all s0 l s t k :
  trace s0 l s → threads s0 !! t = Some (AnyTry 0) → threads s !! t = Some (AnyLock k) →
  length (queues s) ≤ k → ∀ i, i < length (queues s) → seen_empty l i.
Proof.
  intros Htr H0 Hk Hn i Hi.
  enough (∀ p, threads s !! t = Some p → scanned l p) as Hsc by (apply (Hsc _ Hk); lia).
  clear -Htr H0 HL. induction Htr as [s|s0 l s t' a s' Htr IH Hs]; intros p Hp.
  { rewrite H0 in Hp. by injection Hp as <-. }
  specialize (IH H0).
  assert (∀ p, scanned l p → scanned (l ++ [s']) p) as Hmono.
  { intros [] Hp1; cbn in *; try done; intros i Hi; destruct (Hp1 i Hi) as (s1 & q & ? & ?);
      exists s1, q; (split; [apply elem_of_app; by left|done]). }
  apply Hmono. destruct (decide (t' = t)) as [->|Hne].
  - destruct (step_frame t a s s' Hs) as (p1 & Hth & _).
    destruct (threads s !! t) as [p0|] eqn:Hp0.
    + destruct (scanned_step l s t a s' p0) as (p' & Hp' & Hsc); [by eapply trace_last|done|by apply IH|done|].
      rewrite Hp in Hp'. by injection Hp' as ->.
    + unfold step in Hs. rewrite Hp0 in Hs. done.
  - destruct (step_frame t' a s s' Hs) as (p1 & Hth & _). rewrite Hth, list_lookup_insert_ne in Hp by done.
    by apply IH.
Qed.
End multiqueue.

(** The states a schedule goes through, the last one first. *)
Fixpoint exec {T} {HB : BinaryHeap T} (ge_dec : T → T → bool) (sched : list (nat * action)) (s : state)
    : option state :=
  match sched with
  | [] => Some s
  | (t, a) :: sched => s' ← step ge_dec t a s; exec ge_dec sched s'
  end.

Lemma exec_reachable {T} {HB : BinaryHeap T} (ge_dec : T → T → bool) sched s s' :
  reachable ge_dec s → exec ge_dec sched s = Some s' → reachable ge_dec s'.
Proof.
  revert s. induction sched as [|[t a] sched IH]; intros s Hr; cbn [exec]; [by intros [= <-]|].
  intros (s1 & Hs & He)%bind_Some. eapply IH; [|done]. by eapply reach_step.
Qed.

Lemma exec_trace {T} {HB : BinaryHeap T} (ge_dec : T → T → bool) sched s0 l s s' :
  trace ge_dec s0 l s → exec ge_dec sched s = Some s' → ∃ l', trace ge_dec s0 l' s'.
Proof.
  revert l s. induction sched as [|[t a] sched IH]; intros l s Hr; cbn [exec].
  - intros [= <-]. by eexists.
  - intros (s1 & Hs & He)%bind_Some. eapply IH; [|done]. by eapply trace_step.
Qed.

(** Two threads push 5 and 7, and the first pops. *)
Definition demo_heap : BinaryHeap nat := sorted_heap le.
Definition demo_start : @state nat demo_heap := start (replicate 2 sub_new) 2.
Definition demo_pushes : list (nat * @action nat) :=
  [(0, BeginPush 5); (1, BeginPush 7); (0, Sample 1); (1, Sample 1); (1, Sample 0); (1, Run);
   (0, Run); (0, Run); (1, Run); (1, Run); (0, Run)].
Definition demo_pop : list (nat * @action nat) :=
  [(0, BeginPop); (0, SamplePair 1 0); (0, Run); (0, Run); (0, Run); (0, Run); (0, Run); (0, Run)].

Definition demo_state (sched : list (nat * @action nat)) : option (@state nat demo_heap) :=
  exec (HB := demo_heap) (λ a b, bool_decide (b ≤ a)) sched demo_start.

Lemma demo_reachable sched s :
  demo_state sched = Some s → reachable (HB := demo_heap) (λ a b, bool_decide (b ≤ a)) s.
Proof. apply exec_reachable, (reach_start _ 2). by vm_compute. Qed.

(** Both items are stored after the pushes; the pop takes the larger. *)
Lemma multiqueue_conserves_witness :
  ∃ s s', demo_state demo_pushes = Some s ∧ demo_state (demo_pushes ++ demo_pop) = Some s' ∧
    mq_len s = 2%Z ∧ mq_is_empty s = false ∧ popped s' = [7] ∧ pushed s' ≡ₚ stored s' ++ carried s' ++ popped s'.
Proof.
  pose (HL := sorted_heap_laws le : BinaryHeapLaws (H := demo_heap) nat le).
  destruct (demo_state demo_pushes) as [s|] eqn:Hs; [|by vm_compute in Hs].
  destruct (demo_state (demo_pushes ++ demo_pop)) as [s'|] eqn:Hs'; [|by vm_compute in Hs'].
  destruct (multiqueue_conserves (HL := HL) _ s (demo_reachable _ s Hs)) as [_ Hidle].
  destruct (multiqueue_conserves (HL := HL) _ s' (demo_reachable _ s' Hs')) as [Hperm _].
  exists s, s'.
  assert (popped s' = [7]) as Hpop by (vm_compute in Hs'; injection Hs' as <-; done).
  assert (Forall (λ p, p = Idle) (threads s)) as Hth
    by (vm_compute in Hs; injection Hs as <-; repeat constructor).
  assert (length (stored s) = 2) as Hl by (vm_compute in Hs; injection Hs as <-; done).
  destruct (Hidle Hth) as (_ & Hlen & He); [rewrite Hl; done|].
  split_and!; try done; [by rewrite Hlen, Hl|]. rewrite He. apply bool_decide_eq_false_2.
  intros Hn. by rewrite Hn in Hl.
Defined.

(** Thread 1 holds the lock thread 0 waits for; thread 1 can step. *)
Lemma multiqueue_progress_witness :
  ∃ s t' p' a s', demo_state [(0, BeginPush 5); (1, BeginPush 7); (1, Sample 1)] = Some s ∧
    threads s !! t' = Some p' ∧ p' ≠ Idle ∧
    step (HB := demo_heap) (λ a b, bool_decide (b ≤ a)) t' a s = Some s'.
Proof.
  pose (HL := sorted_heap_laws le : BinaryHeapLaws (H := demo_heap) nat le).
  destruct (demo_state [(0, BeginPush 5); (1, BeginPush 7); (1, Sample 1)]) as [s|] eqn:Hs;
    [|by vm_compute in Hs].
  destruct (multiqueue_progress (HL := HL) (λ a b, bool_decide (b ≤ a)) s 0 (PushLoop 5)
    (demo_reachable _ s Hs)) as (t' & p' & a & s' & ?); [by vm_compute in Hs; injection Hs as <-|done|].
  by exists s, t', p', a, s'.
Defined.

(** A [pop_any] on the empty queue runs through both passes. *)
Lemma pop_any_scans_all_witness :
  ∃ s0 l s, demo_state [(0, BeginPopAny)] = Some s0 ∧
    trace (HB := demo_heap) (λ a b, bool_decide (b ≤ a)) s0 l s ∧
    threads s !! 0 = Some (AnyLock 2) ∧ seen_empty l 0 ∧ seen_empty l 1.
Proof.
  pose (HL := sorted_heap_laws le : BinaryHeapLaws (H := demo_heap) nat le).
  destruct (demo_state [(0, BeginPopAny)]) as [s0|] eqn:Hs0; [|by vm_compute in Hs0].
  destruct (exec (HB := demo_heap) (λ a b, bool_decide (b ≤ a)) (replicate 13 (0, Run)) s0) as [s|] eqn:Hs.
  2: { vm_compute in Hs0. injection Hs0 as <-. by vm_compute in Hs. }
  destruct (exec_trace _ _ s0 [s0] s0 s (trace_nil _ s0) Hs) as [l Hl].
  vm_compute in Hs0. injection Hs0 as Hs0. rewrite <-Hs0 in Hs. vm_compute in Hs. injection Hs as Hs.
  exists s0, l, s. pose proof (pop_any_scans_all (HL := HL) _ s0 l s 0 2 Hl) as Hall.
  rewrite <-Hs, <-Hs0 in Hall. specialize (Hall eq_refl eq_refl (le_n _)).
  split_and!; [by rewrite <-Hs0|done|by rewrite <-Hs|by apply Hall, Nat.lt_0_2|by apply Hall, Nat.lt_1_2].
Defined.
