(* ===== verification/Estimators.v ===== *)
(** The integer latency estimators of libs/masa-core/src/latency_estimator/:
    the moving average (ewma.rs), the percentile window (histogram.rs) and the
    root mean square with its integer square root (rms.rs). *)
From S2P Require Export Prelude.
From stdpp Require Import sorting.

Definition wrap128 (z : Z) : Z := (z mod (u128_max + 1))%Z.

Lemma wrap128_small z : (0 ≤ z ≤ u128_max)%Z → wrap128 z = z.
Proof. intros Hz. apply Z.mod_small. ulia. Qed.

(** mod.rs: an estimator is fed values and asked for an estimate. *)
Class LatencyEstimator (E : Type) := {
  track : E → Z → outcome E;
  can_estimate : E → bool;
  estimate : E → outcome Z;
}.

(** Feed a list of values, oldest first. *)
Definition track_all {E} `{LatencyEstimator E} (e : E) (samples : list Z) : outcome E :=
  foldl (λ e v, e ← e; track e v) (Ret e) samples.

Lemma track_all_snoc {E} `{LatencyEstimator E} (e : E) samples v :
  track_all e (samples ++ [v]) = (e ← track_all e samples; track e v).
Proof. unfold track_all. by rewrite foldl_app. Qed.

(** ** Exponentially weighted moving average *)

Module Ewma.

Record LatencyEwma := MkEwma { alpha_num : Z; alpha_den : Z; ewma : Z; has_sample : bool }.

Definition new (alpha_num alpha_den : Z) : outcome LatencyEwma :=
  if decide (0 < alpha_num < alpha_den)%Z then Ret (MkEwma alpha_num alpha_den 0 false) else Panic.

Definition default_ewma : outcome LatencyEwma := new 1 8.

#[export] Instance estimator : LatencyEstimator LatencyEwma := {|
  track self value :=
    if has_sample self then
      let new_ewma := (wrap128 (wrap128 (alpha_num self * value)
                         + wrap128 (wrap64 (alpha_den self - alpha_num self) * ewma self))
                       / alpha_den self)%Z in
      Ret (MkEwma (alpha_num self) (alpha_den self) (wrap64 new_ewma) true)
    else Ret (MkEwma (alpha_num self) (alpha_den self) value true);
  can_estimate self := has_sample self;
  estimate self := Ret (ewma self);
|}.

(** The weighted mean of the value and the old average, rounded down. *)
Definition blend (n d value old : Z) : Z := ((n * value + (d - n) * old) / d)%Z.

Lemma blend_between n d v e lo hi :
  (0 < n < d)%Z → (lo ≤ v ≤ hi)%Z → (lo ≤ e ≤ hi)%Z → (lo ≤ blend n d v e ≤ hi)%Z.
Proof.
  intros Hn Hv He. unfold blend. split.
  - apply Z.div_le_lower_bound; nia.
  - apply Z.div_le_upper_bound; nia.
Qed.

Lemma blend_approaches n d v e :
  (0 < n < d)%Z → (d * Z.abs (blend n d v e - v) < (d - n) * Z.abs (e - v) + d)%Z.
Proof.
  intros Hn. unfold blend. pose proof (Z.div_mod (n * v + (d - n) * e) d ltac:(lia)) as Hd.
  pose proof (Z.mod_pos_bound (n * v + (d - n) * e) d ltac:(lia)) as Hm. nia.
Qed.

Lemma track_blend n d e v :
  (0 < n < d)%Z → is_u64 d → is_u64 e → is_u64 v →
  track (MkEwma n d e true) v = Ret (MkEwma n d (blend n d v e) true).
Proof.
  intros Hn Hd He Hv. cbn. pose proof (blend_between n d v e 0 u64_max Hn Hv He) as Hb.
  rewrite (wrap64_small (d - n)) by ulia.
  rewrite (wrap128_small (n * v)), (wrap128_small ((d - n) * e)) by (unfold is_u64, u64_max, u128_max in *; nia).
  rewrite wrap128_small by (unfold is_u64, u64_max, u128_max in *; nia).
  by rewrite wrap64_small.
Qed.

(** The moving average never overflows. From the second value on, each
    value [v] replaces the estimate [e] by their weighted mean rounded down,
    so the estimate stays between the least and the greatest value seen and
    its distance to [v] shrinks by the factor [1 - alpha], up to the rounding. *)
Theorem ewma_tracks n d e0 samples :
  new n d = Ret e0 → is_u64 d → Forall is_u64 samples →
  ∃ e, track_all e0 samples = Ret e ∧ can_estimate e = bool_decide (samples ≠ []) ∧
    (∀ lo hi, samples ≠ [] → Forall (λ v, lo ≤ v ≤ hi)%Z samples → (lo ≤ ewma e ≤ hi)%Z) ∧
    (∀ v, is_u64 v → samples ≠ [] → ∃ e', track e v = Ret e' ∧ estimate e' = Ret (blend n d v (ewma e)) ∧
       (d * Z.abs (ewma e' - v) < (d - n) * Z.abs (ewma e - v) + d)%Z).
Proof.
  unfold new. case_decide as Hn; [|done]. intros [= <-] Hd Hs.
  enough (∃ x, track_all (MkEwma n d 0 false) samples = Ret (MkEwma n d x (bool_decide (samples ≠ []))) ∧
    (∀ lo hi, samples ≠ [] → Forall (λ v, lo ≤ v ≤ hi)%Z samples → (lo ≤ x ≤ hi)%Z)) as (x & Ht & Hx).
  { eexists. split; [done|]. cbn [can_estimate ewma estimator has_sample]. split_and!; [done..|].
    intros v Hv Hne. rewrite bool_decide_true by done. exists (MkEwma n d (blend n d v x) true).
    split; [|split; [done|by apply blend_approaches]].
    apply track_blend; try done. by apply (Hx 0%Z u64_max). }
  induction samples as [|v samples IH] using rev_ind; [by eexists|].
  apply Forall_app in Hs as [Hs [Hv _]%Forall_cons]. destruct (IH Hs) as (x & Ht & Hx).
  rewrite track_all_snoc, Ht. cbn [mbind outcome_bind]. rewrite (bool_decide_true (_ ++ _ ≠ [])) by (by destruct samples).
  destruct (decide (samples = [])) as [->|Hne].
  - exists v. split; [done|]. intros lo hi _ [_ [? _]%Forall_cons]%Forall_app. done.
  - rewrite bool_decide_true by done. exists (blend n d v x). split.
    + apply track_blend; try done. by apply (Hx 0%Z u64_max).
    + intros lo hi _ [? [? _]%Forall_cons]%Forall_app. apply blend_between; auto.
Qed.

Lemma ewma_tracks_witness :
  ∃ e, track_all (MkEwma 1 2 0 false) [100; 200]%Z = Ret e ∧ ewma e = 150%Z ∧ (100 ≤ ewma e ≤ 200)%Z.
Proof.
  destruct (ewma_tracks 1 2 (MkEwma 1 2 0 false) [100; 200]%Z) as (e & Ht & _ & Hb & _);
    [done|decided|decided|].
  exists e. split; [done|]. split; [by vm_compute in Ht; injection Ht as <-|].
  apply Hb; [done|decided].
Defined.
End Ewma.

(** ** Percentiles over a window *)

Module Histogram.

Definition PERCENTILE : nat := 50.

Record LatencyDistribution := MkDist {
  name : string;
  capacity : nat;
  cur_queue : list Z;
  prev_queue : list Z;
  mean : Z;
  percentiles : list Z;
}.

Definition new (name : string) (capacity : nat) : outcome LatencyDistribution :=
  if decide (100 ≤ capacity) then Ret (MkDist name capacity [] [] 0 []) else Panic.

Definition default_dist : outcome LatencyDistribution := new "" 512.

(** [sum] wraps; [values[idx]] panics out of range. *)
Definition update (self : LatencyDistribution) : outcome LatencyDistribution :=
  let values := merge_sort Z.le (prev_queue self ++ cur_queue self) in
  let sum := foldl (λ s v, wrap64 (s + v)) 0%Z values in
  if decide (length values = 0) then Panic else
  ps ← foldl (λ ps i, ps ← ps; v ← expect_some (values !! ((length values * i) `div` 100)); Ret (ps ++ [v]))
         (Ret []) (seq 0 100);
  Ret (MkDist (name self) (capacity self) (cur_queue self) (prev_queue self)
         (sum / Z.of_nat (length values))%Z ps).

Definition percentile (self : LatencyDistribution) (p : nat) : outcome Z :=
  if decide (p < 100) then expect_some (percentiles self !! p) else Panic.

#[export] Instance estimator : LatencyEstimator LatencyDistribution := {|
  track self value :=
    let self := MkDist (name self) (capacity self) (cur_queue self ++ [value]) (prev_queue self)
                  (mean self) (percentiles self) in
    if decide (capacity self ≤ length (cur_queue self)) then
      self ← update self;
      Ret (MkDist (name self) (capacity self) [] (cur_queue self) (mean self) (percentiles self))
    else Ret self;
  can_estimate self := bool_decide (0 < length (percentiles self));
  estimate self :=
    if decide (length (percentiles self) = 0) then Ret (mean self) else percentile self PERCENTILE;
|}.

(** The samples the percentiles are taken from: the last two full blocks. *)
Definition window (cap : nat) (samples : list Z) : list Z :=
  let k := length samples `div` cap in drop ((k - 2) * cap) (take (k * cap) samples).

(** The [p]-th percentile of a list of values. *)
Definition rank (values : list Z) (p : nat) : option Z :=
  merge_sort Z.le values !! ((length values * p) `div` 100).

Lemma length_merge_sort (l : list Z) : length (merge_sort Z.le l) = length l.
Proof. apply Permutation_length, merge_sort_Permutation. Qed.

Lemma rank_index len i : 0 < len → i < 100 → (len * i) `div` 100 < len.
Proof. intros Hl Hi. apply Nat.Div0.div_lt_upper_bound. nia. Qed.

Lemma rank_Some values p : values ≠ [] → p < 100 → ∃ v, rank values p = Some v.
Proof.
  intros Hv Hp. apply lookup_lt_is_Some. rewrite length_merge_sort.
  apply rank_index; [|done]. destruct values; [done|simpl; lia].
Qed.

(** At most [idx] values are smaller than the one of rank [idx], and at least
    [idx + 1] are no greater. *)
Lemma rank_counts values p v :
  rank values p = Some v →
  length (filter (λ x, x < v)%Z values) ≤ (length values * p) `div` 100 <
    length (filter (λ x, x ≤ v)%Z values).
Proof.
  unfold rank. rewrite <-(length_merge_sort values).
  rewrite <-!(Permutation_length (filter_Permutation _ _ _ (merge_sort_Permutation Z.le values))).
  pose proof (StronglySorted_merge_sort Z.le values) as Hs.
  generalize ((length (merge_sort Z.le values) * p) `div` 100) as i. revert Hs.
  generalize (merge_sort Z.le values) as l. clear.
  induction 1 as [|x l Hs IH Hx]; intros i; [done|]. destruct i as [|i]; simpl.
  - intros [= ->]. rewrite filter_cons_False by lia. rewrite filter_cons_True by lia.
    enough (filter (λ x, x < v)%Z l = []) as -> by (simpl; lia).
    clear -Hx. induction Hx as [|y l Hy _ IH]; [done|]. by rewrite filter_cons_False by lia.
  - intros Hi. specialize (IH i Hi). rewrite Forall_lookup in Hx. specialize (Hx i v Hi).
    rewrite (filter_cons_True (λ x, x ≤ v)%Z) by done. rewrite filter_cons. case_decide; simpl; lia.
Qed.

Lemma update_eq self :
  prev_queue self ++ cur_queue self ≠ [] →
  ∃ m ps, update self = Ret (MkDist (name self) (capacity self) (cur_queue self) (prev_queue self) m ps) ∧
    length ps = 100 ∧ ∀ p, p < 100 → ps !! p = rank (prev_queue self ++ cur_queue self) p.
Proof.
  intros Hne. unfold update. set (values := _ ++ _) in *.
  rewrite decide_False by (rewrite length_merge_sort; by destruct values). rewrite length_merge_sort.
  assert (∀ n, n ≤ 100 → ∃ ps,
    foldl (λ ps i, ps ← ps; v ← expect_some (merge_sort Z.le values !! ((length values * i) `div` 100)); Ret (ps ++ [v]))
      (Ret []) (seq 0 n) = Ret ps ∧ length ps = n ∧ ∀ p, p < n → ps !! p = rank values p) as Hps.
  { induction n as [|n IH]; intros Hn; [exists []; by split_and!; [| |lia]|].
    destruct IH as (ps & Hf & Hl & Hp); [lia|].
    destruct (rank_Some values n Hne ltac:(lia)) as [v Hv].
    exists (ps ++ [v]). rewrite seq_S, foldl_app, Hf. cbn [foldl mbind outcome_bind].
    rewrite Nat.add_0_l. unfold rank in Hv. rewrite Hv. cbn [expect_some].
    split_and!; [done|rewrite length_app; simpl; lia|]. intros p Hpn.
    destruct (decide (p = n)) as [->|].
    - unfold rank. rewrite Hv, lookup_app_r, Hl, Nat.sub_diag by lia. done.
    - rewrite lookup_app_l by lia. apply Hp. lia. }
  destruct (Hps 100 (le_n _)) as (ps & -> & Hl & Hp). cbn [mbind outcome_bind]. by do 2 eexists.
Qed.

Lemma track_queue cap self v :
  capacity self = cap → 100 ≤ cap → length (cur_queue self) < cap →
  track self v =
    if decide (cap ≤ length (cur_queue self ++ [v])) then
      self' ← update (MkDist (name self) cap (cur_queue self ++ [v]) (prev_queue self) (mean self) (percentiles self));
      Ret (MkDist (name self') (capacity self') [] (cur_queue self') (mean self') (percentiles self'))
    else Ret (MkDist (name self) cap (cur_queue self ++ [v]) (prev_queue self) (mean self) (percentiles self)).
Proof. by intros <-. Qed.

(** The state after the samples. *)
Definition dist_inv (cap : nat) (samples : list Z) (self : LatencyDistribution) : Prop :=
  let k := length samples `div` cap in
  capacity self = cap ∧ cur_queue self = drop (k * cap) samples ∧
  prev_queue self = drop ((k - 1) * cap) (take (k * cap) samples) ∧
  (k = 0 → mean self = 0%Z ∧ percentiles self = []) ∧
  (0 < k → length (percentiles self) = 100 ∧
    ∀ p, p < 100 → percentiles self !! p = rank (window cap samples) p).

Lemma drop_split {A} a b (l : list A) x :
  a ≤ b → b ≤ length l → drop a (l ++ [x]) = drop a (take b l) ++ drop b (l ++ [x]).
Proof.
  intros Ha Hb. rewrite <-(take_drop b (l ++ [x])) at 1. rewrite take_app_le by done.
  apply drop_app_le. rewrite length_take. lia.
Qed.

Lemma track_inv cap samples self v :
  100 ≤ cap → dist_inv cap samples self →
  ∃ self', track self v = Ret self' ∧ dist_inv cap (samples ++ [v]) self'.
Proof.
  intros Hcap (Hc & Hcur & Hprev & H0 & Hk).
  set (k := length samples `div` cap) in *.
  pose proof (Nat.div_mod_eq (length samples) cap) as Hdm. fold k in Hdm.
  pose proof (Nat.mod_upper_bound (length samples) cap ltac:(lia)) as Hmod.
  assert (length (cur_queue self) = length samples mod cap) as Hl by (rewrite Hcur, length_drop; lia).
  rewrite (track_queue cap) by (done || lia).
  assert (cur_queue self ++ [v] = drop (k * cap) (samples ++ [v])) as Hsnoc
    by (rewrite Hcur, drop_app_le by lia; done).
  rewrite length_app. cbn [length]. destruct (decide (cap ≤ length (cur_queue self) + 1)) as [Hfull|Hroom].
  - assert (length (samples ++ [v]) `div` cap = S k) as Hk'.
    { symmetry. apply (Nat.div_unique _ _ _ 0); [lia|]. rewrite length_app. simpl. lia. }
    destruct (update_eq (MkDist (name self) cap (cur_queue self ++ [v]) (prev_queue self) (mean self) (percentiles self)))
      as (m & ps & Hu & Hlen & Hps); [by destruct (prev_queue self), (cur_queue self)|].
    rewrite Hu. cbn [mbind outcome_bind]. eexists. split; [done|].
    unfold dist_inv. rewrite Hk'. cbn [name capacity cur_queue prev_queue mean percentiles] in Hps |- *.
    rewrite Nat.sub_succ, Nat.sub_0_r.
    assert (take (S k * cap) (samples ++ [v]) = samples ++ [v]) as Htake
      by (apply take_ge; rewrite length_app; cbn [length Nat.mul]; lia).
    rewrite Htake. split_and!; try done.
    + rewrite drop_ge; [done|rewrite length_app; cbn [length Nat.mul]; lia].
    + intros _. split; [done|]. intros p Hp. rewrite (Hps p Hp). f_equal. unfold window.
      rewrite Hk', Htake, Hsnoc, Hprev.
      replace (S k - 2) with (k - 1) by lia. symmetry. apply drop_split; nia.
  - assert (length (samples ++ [v]) `div` cap = k) as Hk'.
    { symmetry. apply (Nat.div_unique _ _ _ (length samples mod cap + 1)); [lia|]. rewrite length_app. simpl. lia. }
    eexists. split; [done|]. unfold dist_inv, window. rewrite Hk'. cbn [name capacity cur_queue prev_queue mean percentiles].
    rewrite take_app_le by lia. split_and!; try done.
Qed.

Lemma track_all_inv cap nm d0 samples :
  new nm cap = Ret d0 → ∃ d, track_all d0 samples = Ret d ∧ dist_inv cap samples d.
Proof.
  unfold new. case_decide as Hcap; [|done]. intros [= <-].
  induction samples as [|v samples (d & Ht & Hd)] using rev_ind.
  - eexists. split; [done|]. unfold dist_inv. rewrite Nat.Div0.div_0_l. by split_and!; [..|lia].
  - rewrite track_all_snoc, Ht. by apply track_inv.
Qed.

(** Over any samples the estimator never panics. It has an estimate once
    [capacity] samples have come in; then [percentile p] is the value of rank
    [p * len / 100] among the samples of the last two full blocks of
    [capacity] (the last one at first): at most that many of them are smaller,
    and more than that many are no greater. [estimate] is the median. *)
Theorem percentile_of_window nm cap d0 samples :
  new nm cap = Ret d0 →
  ∃ d, track_all d0 samples = Ret d ∧
    can_estimate d = bool_decide (cap ≤ length samples) ∧
    (length samples < cap → estimate d = Ret 0%Z) ∧
    (cap ≤ length samples →
     length (window cap samples) = Nat.min 2 (length samples `div` cap) * cap ∧
     estimate d = percentile d 50 ∧
     ∀ p, p < 100 → ∃ v, percentile d p = Ret v ∧
       length (filter (λ x, x < v)%Z (window cap samples)) ≤ (length (window cap samples) * p) `div` 100 <
         length (filter (λ x, x ≤ v)%Z (window cap samples))).
Proof.
  intros Hnew. destruct (track_all_inv cap nm d0 samples Hnew) as (d & Ht & Hc & _ & _ & H0 & Hk).
  unfold new in Hnew. case_decide as Hcap; [|done]. exists d. split; [done|]. cbn [can_estimate estimate estimator].
  destruct (decide (cap ≤ length samples)) as [Hge|Hlt].
  - assert (0 < length samples `div` cap) as Hpos by (apply Nat.div_str_pos; lia).
    destruct (Hk Hpos) as [Hl Hps]. rewrite Hl. split_and!.
    + by rewrite !bool_decide_true by lia.
    + lia.
    + intros _. assert (length (window cap samples) = Nat.min 2 (length samples `div` cap) * cap) as Hw.
      { unfold window. pose proof (Nat.Div0.mul_div_le (length samples) cap).
        rewrite length_drop, length_take. clear Hk Hps.
        destruct (length samples `div` cap) as [|[|k]]; [lia|simpl in *; lia|].
        rewrite (Nat.min_l 2) by lia. replace (S (S k) - 2) with k by lia. lia. }
      split_and!; [done|by rewrite decide_False by lia|]. intros p Hp.
      destruct (rank_Some (window cap samples) p) as [v Hv]; [|done|].
      { intros Hn. rewrite Hn in Hw. symmetry in Hw. apply Nat.mul_eq_0 in Hw. lia. }
      exists v. split; [|by apply rank_counts]. unfold percentile.
      by rewrite decide_True, (Hps p Hp), Hv.
  - rewrite (Nat.div_small (length samples)) in H0 by lia. destruct (H0 eq_refl) as [Hm Hp].
    rewrite Hp. split_and!; [by rewrite !bool_decide_false by (simpl; lia)|by rewrite Hm|lia].
Qed.

(** The samples 0, 1, ..., 199: the median is 100. *)
Lemma percentile_of_window_witness :
  ∃ d, track_all (MkDist "test" 200 [] [] 0 []) (Z.of_nat <$> seq 0 200) = Ret d ∧
    estimate d = Ret 100%Z ∧ estimate d = percentile d 50.
Proof.
  destruct (percentile_of_window "test" 200 (MkDist "test" 200 [] [] 0 []) (Z.of_nat <$> seq 0 200))
    as (d & Ht & _ & _ & He); [done|].
  exists d. split; [done|]. destruct He as (_ & He & _); [by vm_compute; lia|]. split; [|exact He].
  vm_compute in Ht. injection Ht as <-. by vm_compute.
Defined.
End Histogram.

(** ** Root mean square *)

Module Rms.

(** The loop of [integer_sqrt]; the error halves with every iteration, so 129
    of them suffice for any [u128]. *)
Fixpoint sqrt_loop (fuel : nat) (n x y : Z) : outcome Z :=
  match fuel with
  | O => Panic
  | S fuel =>
      if decide (y < x)%Z then
        let x := y in
        if decide (x = 0%Z) then Panic else sqrt_loop fuel n x (wrap128 (x + n / x) / 2)%Z
      else Ret x
  end.

Definition integer_sqrt (n : Z) : outcome Z :=
  if decide (n = 0)%Z then Ret 0%Z else
  if decide (n < 4)%Z then Ret 1%Z else
  sqrt_loop 129 n n (wrap128 (n + 1) / 2)%Z.

Record LatencyRms := MkRms {
  sum_squares : Z;
  count : Z;
  rms : Z;
  update_interval : Z;
  since_last_update : Z;
}.

Definition new (update_interval : Z) : outcome LatencyRms :=
  if decide (1 ≤ update_interval)%Z then Ret (MkRms 0 0 0 update_interval 0) else Panic.

Definition default_rms : outcome LatencyRms := new 512.

Definition with_rms (self : LatencyRms) (rms : Z) : LatencyRms :=
  MkRms (sum_squares self) (count self) rms (update_interval self) (since_last_update self).

Definition update_rms (self : LatencyRms) : outcome LatencyRms :=
  if decide (count self = 0)%Z then Ret (with_rms self 0%Z) else
  let mean_square := (sum_squares self / count self)%Z in
  root ← integer_sqrt mean_square;
  Ret (with_rms self (wrap64 root)).

#[export] Instance estimator : LatencyEstimator LatencyRms := {|
  track self value :=
    let value_squared := wrap128 (value * value) in
    let self := MkRms (wrap128 (sum_squares self + value_squared)) (wrap64 (count self + 1)) (rms self)
                  (update_interval self) (wrap64 (since_last_update self + 1)) in
    if decide (update_interval self ≤ since_last_update self)%Z then
      self ← update_rms self;
      Ret (MkRms (sum_squares self) (count self) (rms self) (update_interval self) 0)
    else Ret self;
  can_estimate self := bool_decide (0 < count self)%Z;
  estimate self := Ret (rms self);
|}.

(** One Newton step from above the root: no lower than the root, and half as
    far from it. *)
Lemma newton_step n x :
  (0 < n)%Z → (Z.sqrt n ≤ x)%Z → (0 < x)%Z →
  (Z.sqrt n ≤ (x + n / x) / 2)%Z ∧ (Z.sqrt n < x → 2 * ((x + n / x) / 2 - Z.sqrt n) ≤ x - Z.sqrt n)%Z.
Proof.
  intros Hn Hx Hx0. pose proof (Z.sqrt_spec n ltac:(lia)) as [Hlo Hhi]. set (s := Z.sqrt n) in *.
  pose proof (Z.div_mod n x ltac:(lia)) as Hd. pose proof (Z.mod_pos_bound n x Hx0) as Hm.
  set (q := (n / x)%Z) in *. split.
  - apply Z.div_le_lower_bound; [lia|]. assert (0 ≤ s)%Z by apply Z.sqrt_nonneg. nia.
  - intros Hlt. assert (q ≤ s)%Z by nia. pose proof (Z.mul_div_le (x + q) 2 ltac:(lia)). lia.
Qed.

Lemma sqrt_loop_eq n fuel x :
  (0 < n ≤ u128_max)%Z → (Z.sqrt n ≤ x ≤ n)%Z → (0 < x)%Z → (x + n / x ≤ u128_max)%Z →
  (x - Z.sqrt n < 2 ^ Z.of_nat fuel)%Z →
  sqrt_loop (S fuel) n x ((x + n / x) / 2)%Z = Ret (Z.sqrt n).
Proof.
  intros Hn. assert (0 < Z.sqrt n)%Z as Hs by (apply Z.sqrt_pos; lia).
  revert x. induction fuel as [|fuel IH]; intros x Hx Hx0 Hsum Hfuel;
    destruct (newton_step n x ltac:(lia) ltac:(lia) Hx0) as [Hge Hhalf]; cbn [sqrt_loop].
  - assert (x = Z.sqrt n) as -> by (simpl in Hfuel; lia). by rewrite decide_False by lia.
  - destruct (decide (x = Z.sqrt n)) as [->|Hne].
    { by rewrite decide_False by lia. }
    specialize (Hhalf ltac:(lia)). set (y := ((x + n / x) / 2)%Z) in *.
    rewrite decide_True, decide_False by lia. rewrite Nat2Z.inj_succ, Z.pow_succ_r in Hfuel by lia.
    assert (n / y ≤ n / Z.sqrt n)%Z as Hqy by (apply Z.div_le_compat_l; lia).
    assert (n / Z.sqrt n ≤ Z.sqrt n + 2)%Z as Hqs.
    { pose proof (Z.sqrt_spec n ltac:(lia)). apply Z.div_le_upper_bound; [done|]. unfold Z.succ in *. lia. }
    pose proof (Z.sqrt_le_mono n u128_max ltac:(lia)) as Hmax.
    replace (Z.sqrt u128_max) with u64_max in Hmax by reflexivity.
    assert (y + n / y ≤ u128_max)%Z as Hy by (unfold u128_max, u64_max in *; lia).
    rewrite wrap128_small by (pose proof (Z.div_pos n y); lia). apply IH; try done; lia.
Qed.

Lemma integer_sqrt_eq n : (0 ≤ n < u128_max)%Z → integer_sqrt n = Ret (Z.sqrt n).
Proof.
  intros Hn. unfold integer_sqrt. destruct (decide (n = 0)%Z) as [->|Hn0]; [done|].
  destruct (decide (n < 4)%Z) as [Hlt|Hge].
  { assert (n = 1 ∨ n = 2 ∨ n = 3)%Z as [->|[->| ->]] by lia; done. }
  rewrite wrap128_small by lia. replace (n + 1)%Z with (n + n / n)%Z by (rewrite Z.div_same; lia).
  pose proof (Z.sqrt_le_lin n ltac:(lia)). apply sqrt_loop_eq; rewrite ?Z.div_same by lia; try lia.
  pose proof (Z.sqrt_nonneg n). unfold u128_max in *. change (2 ^ Z.of_nat 128)%Z with 340282366920938463463374607431768211456%Z.
  lia.
Qed.

(** [integer_sqrt] is the integer square root of every [u128] but the
    greatest, for which the addition in the loop wraps to zero and the
    division panics. *)
Theorem integer_sqrt_correct n :
  (0 ≤ n ≤ u128_max)%Z →
  integer_sqrt n = if decide (n = u128_max) then Panic else Ret (Z.sqrt n).
Proof.
  intros Hn. case_decide as Hmax; [by subst; vm_compute|]. apply integer_sqrt_eq. lia.
Qed.

Lemma integer_sqrt_correct_witness : integer_sqrt 2500000 = Ret 1581%Z.
Proof. rewrite integer_sqrt_correct; [by vm_compute|unfold u128_max; lia]. Defined.

Definition sum_sq (samples : list Z) : Z := foldr (λ v s, (v * v + s)%Z) 0%Z samples.

Lemma sum_sq_snoc samples v : sum_sq (samples ++ [v]) = (sum_sq samples + v * v)%Z.
Proof. unfold sum_sq. induction samples as [|w samples IH]; simpl in *; [lia|]. rewrite IH. lia. Qed.

Lemma sum_sq_bounds samples :
  Forall is_u64 samples → (0 ≤ sum_sq samples ≤ Z.of_nat (length samples) * (u64_max * u64_max))%Z.
Proof.
  unfold sum_sq. induction 1 as [|v l Hv _ IH]; simpl; [lia|].
  assert (0 ≤ v * v ≤ u64_max * u64_max)%Z by (unfold is_u64 in Hv; nia). lia.
Qed.

(** The root mean square of the samples up to the last update. *)
Definition rms_at (interval : nat) (samples : list Z) : Z :=
  let n := length samples `div` interval * interval in
  if decide (n = 0) then 0%Z else Z.sqrt (sum_sq (take n samples) / Z.of_nat n).

Definition rms_inv (interval : nat) (samples : list Z) (self : LatencyRms) : Prop :=
  self = MkRms (sum_sq samples) (Z.of_nat (length samples)) (rms_at interval samples) (Z.of_nat interval)
           (Z.of_nat (length samples mod interval)).

(** A mean of squares of [u64]s has a root, and it is a [u64]. *)
Lemma mean_square_root samples :
  samples ≠ [] → Forall is_u64 samples →
  let root := Z.sqrt (sum_sq samples / Z.of_nat (length samples)) in
  integer_sqrt (sum_sq samples / Z.of_nat (length samples)) = Ret root ∧ wrap64 root = root.
Proof.
  intros Hne Hs root. destruct (sum_sq_bounds samples Hs) as [H0 Hmax].
  assert (0 < Z.of_nat (length samples))%Z as Hl by (destruct samples; simpl; lia || done).
  assert (0 ≤ sum_sq samples / Z.of_nat (length samples) ≤ u64_max * u64_max)%Z as Hb
    by (split; [by apply Z.div_pos|apply Z.div_le_upper_bound; lia]).
  split; [apply integer_sqrt_eq; unfold u64_max, u128_max in *; lia|].
  apply wrap64_small. split; [apply Z.sqrt_nonneg|]. unfold root.
  rewrite <-(Z.sqrt_square u64_max) by done. apply Z.sqrt_le_mono. lia.
Qed.

Lemma rms_track_inv interval samples self v :
  0 < interval → (Z.of_nat interval ≤ u64_max)%Z → Forall is_u64 (samples ++ [v]) →
  (sum_sq (samples ++ [v]) ≤ u128_max)%Z → (Z.of_nat (length (samples ++ [v])) ≤ u64_max)%Z →
  rms_inv interval samples self →
  ∃ self', track self v = Ret self' ∧ rms_inv interval (samples ++ [v]) self'.
Proof.
  intros Hi Hi64 Hs Hsum Hlen ->. pose proof Hs as [Hs0 [Hv _]%Forall_cons]%Forall_app.
  rewrite sum_sq_snoc in Hsum. rewrite length_app in Hlen. cbn [length] in Hlen.
  pose proof (sum_sq_bounds samples Hs0) as [H0 _].
  assert (0 ≤ v * v)%Z as Hvv by (unfold is_u64 in Hv; nia).
  pose proof (Nat.div_mod_eq (length samples) interval) as Hdm.
  pose proof (Nat.mod_upper_bound (length samples) interval ltac:(lia)) as Hmod.
  set (k := length samples `div` interval) in *. set (r := length samples mod interval) in *.
  cbn [track estimator sum_squares count rms update_interval since_last_update].
  rewrite (wrap128_small (v * v)), (wrap128_small (sum_sq samples + v * v)) by lia.
  rewrite (wrap64_small (Z.of_nat (length samples) + 1)), (wrap64_small (Z.of_nat r + 1)) by (unfold is_u64; lia).
  assert (length (samples ++ [v]) = S (length samples)) as Hl by (rewrite length_app; simpl; lia).
  rewrite <-sum_sq_snoc. replace (Z.of_nat (length samples) + 1)%Z with (Z.of_nat (length (samples ++ [v]))) by lia.
  destruct (decide (Z.of_nat interval ≤ Z.of_nat r + 1)%Z) as [Hfull|Hroom].
  - assert (length (samples ++ [v]) `div` interval = S k) as Hk'
      by (symmetry; apply (Nat.div_unique _ _ _ 0); lia).
    assert (length (samples ++ [v]) mod interval = 0) as Hr'
      by (symmetry; apply (Nat.mod_unique _ _ (S k)); lia).
    destruct (mean_square_root (samples ++ [v])) as [Hroot Hw]; [by destruct samples|done|].
    unfold update_rms. cbn [count sum_squares]. rewrite decide_False by lia.
    rewrite Hroot. cbn [mbind outcome_bind]. rewrite Hw. eexists. split; [done|].
    unfold rms_inv, rms_at, with_rms. rewrite Hk', Hr'. cbn [sum_squares count rms update_interval since_last_update].
    assert (S k * interval = length (samples ++ [v])) as -> by lia.
    rewrite decide_False, (take_ge (samples ++ [v])) by lia. done.
  - assert (length (samples ++ [v]) `div` interval = k) as Hk'
      by (symmetry; apply (Nat.div_unique _ _ _ (S r)); lia).
    assert (length (samples ++ [v]) mod interval = S r) as Hr'
      by (symmetry; apply (Nat.mod_unique _ _ k); lia).
    eexists. split; [done|]. unfold rms_inv, rms_at. rewrite Hk', Hr'. fold k.
    rewrite take_app_le by lia. f_equal. lia.
Qed.

(** As long as the sum of the squares fits in a [u128], the estimator
    never panics, and [rms] is the integer square root of the mean of the
    squares of the samples up to the last update, which comes every
    [update_interval] samples. *)
Theorem rms_of_samples interval e0 samples :
  new (Z.of_nat interval) = Ret e0 → (Z.of_nat interval ≤ u64_max)%Z → Forall is_u64 samples →
  (sum_sq samples ≤ u128_max)%Z → (Z.of_nat (length samples) ≤ u64_max)%Z →
  ∃ e, track_all e0 samples = Ret e ∧ can_estimate e = bool_decide (samples ≠ []) ∧
    let n := length samples `div` interval * interval in
    estimate e = Ret (if decide (n = 0) then 0%Z else Z.sqrt (sum_sq (take n samples) / Z.of_nat n)).
Proof.
  unfold new. case_decide as Hi; [|done]. intros [= <-] Hi64 Hs Hsum Hlen.
  enough (∃ e, track_all (MkRms 0 0 0 (Z.of_nat interval) 0) samples = Ret e ∧ rms_inv interval samples e)
    as (e & Ht & ->).
  { eexists. split; [done|]. split; [|done]. apply bool_decide_ext. cbn. destruct samples; simpl; [|split; [done|lia]].
    split; [lia|done]. }
  induction samples as [|v samples IH] using rev_ind.
  - eexists. split; [done|]. unfold rms_inv, rms_at. rewrite Nat.Div0.div_0_l, Nat.Div0.mod_0_l. done.
  - pose proof Hs as [Hs0 [Hv _]%Forall_cons]%Forall_app.
    destruct IH as (e & Ht & He); [done|..].
    + rewrite sum_sq_snoc in Hsum. assert (0 ≤ v * v)%Z by nia. lia.
    + rewrite length_app in Hlen. lia.
    + rewrite track_all_snoc, Ht. apply rms_track_inv; try done. lia.
Qed.

(** The squares 9, 16, 25 have the mean 16. *)
Lemma rms_of_samples_witness :
  ∃ e, track_all (MkRms 0 0 0 1 0) [3; 4; 5]%Z = Ret e ∧ estimate e = Ret 4%Z.
Proof.
  destruct (rms_of_samples 1 (MkRms 0 0 0 1 0) [3; 4; 5]%Z) as (e & Ht & _ & He);
    [reflexivity|unfold u64_max; lia|decided|unfold u128_max; simpl; lia|unfold u64_max; simpl; lia|].
  - exists e. split; [exact Ht|]. rewrite He. by vm_compute.
Defined.
End Rms.

(** ** The trait as the policies use it *)

(** [LatencyEstimator + Default] with the trait's other methods, for the code
    that is generic in its estimator. [track_at] takes the clock reading an
    estimator may record; the estimates are [u64]. *)
Class Estimator (E : Type) := {
  default_est : E;
  track_at : E → Z → Z → E;
  has_estimate : E → bool;
  estimate_of : E → Z;
  mean_estimate : E → Z;
  mean_floor_estimate : E → Z;
  last_observation_us : E → Z;
}.

(** Every estimate is a [u64], which the Rust types say. *)
Class EstimatorTyped (E : Type) `{Estimator E} : Prop := {
  estimate_typed e : is_u64 (estimate_of e);
  mean_typed e : is_u64 (mean_estimate e);
  floor_typed e : is_u64 (mean_floor_estimate e);
  last_observation_typed e : is_u64 (last_observation_us e);
}.

(** [LatencyEwma] takes the trait's defaults: its mean and its floor are its
    estimate, and it records no time. [wrap64] says that the field is a [u64]. *)
#[export] Instance ewma_estimator : Estimator Ewma.LatencyEwma := {|
  default_est := Ewma.MkEwma 1 8 0 false;
  track_at self _ value := match @track _ Ewma.estimator self value with Ret self' => self' | Panic => self end;
  has_estimate := @can_estimate _ Ewma.estimator;
  estimate_of self := wrap64 (Ewma.ewma self);
  mean_estimate self := wrap64 (Ewma.ewma self);
  mean_floor_estimate self := wrap64 (Ewma.ewma self);
  last_observation_us _ := 0%Z;
|}.

#[export] Instance ewma_typed : EstimatorTyped Ewma.LatencyEwma.
Proof. split; intros e; [apply wrap64_is_u64..|]. cbn. ulia. Qed.

(** The instance is the estimator of ewma.rs. *)
Lemma ewma_estimator_default : Ewma.default_ewma = Ret default_est.
Proof. reflexivity. Qed.

Lemma ewma_estimator_track (self : Ewma.LatencyEwma) now value :
  @track _ Ewma.estimator self value = Ret (track_at self now value).
Proof. cbn. by destruct (Ewma.has_sample self). Qed.
