(* ===== verification/RajomonShared.v ===== *)
(** The server side of the token-based admission control of libs/rajomon/src:
    the parameters (params.rs) and the process-wide prices (shared.rs). Each
    operation on the shared state is one step here; the relaxed atomics and the
    concurrent map of the code let the operations of several requests
    interleave, which the theorems about sequences of operations in any order
    cover up to the granularity of one operation. *)
From S2P Require Export Hooks.

Record RajomonParams := MkParams {
  price_update_rate_ms : Z;
  latency_threshold_us : Z;
  price_step_up : Z;
  init_price : Z;
  price_freq : Z;
  tokens_left_init : Z;
  token_update_rate_ms : Z;
  token_update_step : Z;
}.

Definition default_params : RajomonParams := MkParams 10 5000 8 0 5 10 10 5.

Record QueueStats := MkStats { window_max : Z; log_window_max : Z }.

(** The diagnostic counters. *)
Record Diagnostics := MkDiag {
  diag_admitted : Z;
  diag_rejected : Z;
  diag_child_budget_rej : Z;
  diag_price_up_ticks : Z;
  diag_price_down_ticks : Z;
  diag_price_hold_ticks : Z;
  diag_token_deficit_sum : Z;
}.

Notation Prices := (gmap (CowGrpcMethod * CowGrpcMethod) Z).

Record RajomonSharedState := MkShared {
  own_price : Z;
  downstream_prices : Prices;
  max_downstream_for_method : gmap CowGrpcMethod Z;
  queue_stats : QueueStats;
  diag : Diagnostics;
}.

Definition shared_new (p : RajomonParams) : RajomonSharedState :=
  MkShared (init_price p) ∅ ∅ (MkStats 0 0) (MkDiag 0 0 0 0 0 0 0).

Definition accumulated_price (self : RajomonSharedState) (method : CowGrpcMethod) : Z :=
  own_price self +s default 0%Z (max_downstream_for_method self !! method).

(** A tick's effect on the price and which of the three counters it moves. *)
Definition new_price (p : RajomonParams) (own max_us : Z) (d : Diagnostics) : Z * Diagnostics :=
  if decide (latency_threshold_us p < max_us)%Z then
    let excess_us := (max_us - latency_threshold_us p)%Z in
    let increment := Z.max (wrap64 (excess_us * price_step_up p) / 1000) 1 in
    (own +s increment,
     MkDiag (diag_admitted d) (diag_rejected d) (diag_child_budget_rej d)
       (wrap64 (diag_price_up_ticks d + 1)) (diag_price_down_ticks d) (diag_price_hold_ticks d)
       (diag_token_deficit_sum d))
  else if decide (0 < own ∧ max_us < latency_threshold_us p / 2)%Z then
    (own -s 1,
     MkDiag (diag_admitted d) (diag_rejected d) (diag_child_budget_rej d)
       (diag_price_up_ticks d) (wrap64 (diag_price_down_ticks d + 1)) (diag_price_hold_ticks d)
       (diag_token_deficit_sum d))
  else
    (own,
     MkDiag (diag_admitted d) (diag_rejected d) (diag_child_budget_rej d)
       (diag_price_up_ticks d) (diag_price_down_ticks d) (wrap64 (diag_price_hold_ticks d + 1))
       (diag_token_deficit_sum d)).

Definition update_prices (p : RajomonParams) (self : RajomonSharedState) : RajomonSharedState :=
  let max_us := window_max (queue_stats self) in
  let '(own, d) := new_price p (own_price self) max_us (diag self) in
  MkShared own (downstream_prices self) (max_downstream_for_method self)
    (MkStats (max_us / 2) (Z.max (log_window_max (queue_stats self)) max_us)) d.

(** [window_max.fetch_max], in [before_poll]. *)
Definition observe_queue (q_lat_us : Z) (self : RajomonSharedState) : RajomonSharedState :=
  MkShared (own_price self) (downstream_prices self) (max_downstream_for_method self)
    (MkStats (Z.max (window_max (queue_stats self)) q_lat_us) (log_window_max (queue_stats self)))
    (diag self).

Section iteration.
  (** The order in which a [DashMap] is iterated is unspecified. *)
  Context (iter : Prices → list ((CowGrpcMethod * CowGrpcMethod) * Z)).

Definition child_price (self : RajomonSharedState) (child_method : CowGrpcMethod) : Z :=
  default 0%Z (snd <$> head (filter (λ e, e.1.2 = child_method) (iter (downstream_prices self)))).

(** [filter(|e| e.key().0 == parent).map(value).max().unwrap_or(0)] *)
Definition max_price_of (prices : Prices) (parent : CowGrpcMethod) : Z :=
  foldr Z.max 0%Z (snd <$> filter (λ e, e.1.1 = parent) (iter prices)).

(** The first loop of [decay_downstream_prices], one entry at a time. *)
Definition decay_entry (acc : Prices * list CowGrpcMethod)
    (e : (CowGrpcMethod * CowGrpcMethod) * Z) : Prices * list CowGrpcMethod :=
  let '(prices, parents) := acc in
  let '(key, old) := e in
  if decide (0 < old)%Z then
    (<[key := (old / 2)%Z]> prices, if decide (key.1 ∈ parents) then parents else parents ++ [key.1])
  else acc.

Definition decay_downstream_prices (self : RajomonSharedState) : RajomonSharedState :=
  let '(prices, parents_to_update) :=
    foldl decay_entry (downstream_prices self, []) (iter (downstream_prices self)) in
  let maxes := foldl (λ maxes parent, <[parent := max_price_of prices parent]> maxes)
                 (max_downstream_for_method self) parents_to_update in
  MkShared (own_price self) prices maxes (queue_stats self) (diag self).

(** Caching the price of a child's response, in [after_child_rpc]. *)
Definition learn_price (rpc child_method : CowGrpcMethod) (price : Z) (self : RajomonSharedState)
    : RajomonSharedState :=
  let prices := <[(rpc, child_method) := price]> (downstream_prices self) in
  MkShared (own_price self) prices
    (<[rpc := max_price_of prices rpc]> (max_downstream_for_method self)) (queue_stats self) (diag self).

(** One round of the background worker. *)
Definition worker_tick (p : RajomonParams) (self : RajomonSharedState) : RajomonSharedState :=
  decay_downstream_prices (update_prices p self).

(** The state change of [log_pricing_tables]: every counter starts again. *)
Definition log_pricing_tables (self : RajomonSharedState) : RajomonSharedState :=
  MkShared (own_price self) (downstream_prices self) (max_downstream_for_method self)
    (MkStats (window_max (queue_stats self)) 0) (MkDiag 0 0 0 0 0 0 0).

(** The body of the worker's loop, with its [log_tick]. *)
Definition worker_round (p : RajomonParams) (st : nat * RajomonSharedState) : nat * RajomonSharedState :=
  let '(log_tick, self) := st in
  let self := worker_tick p self in
  let log_tick := log_tick + 1 in
  if decide (500 ≤ log_tick) then (0, log_pricing_tables self) else (log_tick, self).

(** ** The cached maxima *)

(** What requests and the worker do to the shared state. *)
Inductive price_op :=
| Observe (q_lat_us : Z)
| Learn (rpc child : CowGrpcMethod) (price : Z)
| Tick
| Log.

Definition price_step (p : RajomonParams) (self : RajomonSharedState) (o : price_op) : RajomonSharedState :=
  match o with
  | Observe q => observe_queue q self
  | Learn rpc child price => learn_price rpc child price self
  | Tick => worker_tick p self
  | Log => log_pricing_tables self
  end.

Definition op_ok (o : price_op) : Prop :=
  match o with Observe q => is_u64 q | Learn _ _ price => is_u64 price | Tick | Log => True end.

Definition params_ok (p : RajomonParams) : Prop :=
  is_u64 (latency_threshold_us p) ∧ is_u64 (price_step_up p) ∧ is_u64 (init_price p).

(** [x] is the greatest of the prices the children of [parent] have published,
    and zero when there are none. *)
Definition greatest_price (prices : Prices) (parent : CowGrpcMethod) (x : Z) : Prop :=
  (0 ≤ x)%Z ∧ (∀ child v, prices !! (parent, child) = Some v → v ≤ x)%Z ∧
  (x = 0%Z ∨ ∃ child, prices !! (parent, child) = Some x).

Record shared_inv (self : RajomonSharedState) : Prop := {
  own_u64 : is_u64 (own_price self);
  window_u64 : is_u64 (window_max (queue_stats self));
  prices_u64 : map_Forall (λ _ v, is_u64 v) (downstream_prices self);
  maxes_greatest parent :
    greatest_price (downstream_prices self) parent
      (default 0%Z (max_downstream_for_method self !! parent));
}.

Lemma foldr_max (l : list Z) :
  let x := foldr Z.max 0%Z l in (0 ≤ x)%Z ∧ Forall (λ v, v ≤ x)%Z l ∧ (x = 0%Z ∨ x ∈ l).
Proof.
  induction l as [|v l (H0 & Hl & Hx)]; simpl; [by split_and!; [|constructor|left]|].
  set (x := foldr Z.max 0%Z l) in *. split_and!; [lia| |].
  - constructor; [lia|]. eapply Forall_impl; [exact Hl|]. simpl. lia.
  - rewrite elem_of_cons. destruct (Z.max_spec v x) as [[_ ->]|[_ ->]]; naive_solver.
Qed.

Context (iter_perm : ∀ prices, iter prices ≡ₚ map_to_list prices).

Lemma elem_of_iter prices k v : (k, v) ∈ iter prices ↔ prices !! k = Some v.
Proof. rewrite iter_perm. apply elem_of_map_to_list. Qed.

Lemma max_price_of_greatest prices parent :
  greatest_price prices parent (max_price_of prices parent).
Proof.
  unfold max_price_of. set (l := snd <$> _). destruct (foldr_max l) as (H0 & Hl & Hx).
  assert (∀ v, v ∈ l ↔ ∃ child, prices !! (parent, child) = Some v) as Hin.
  { intros v. unfold l. rewrite list_elem_of_fmap. split.
    - intros ([[par child] w] & -> & [Hp He%elem_of_iter]%list_elem_of_filter). simpl in Hp. subst. by exists child.
    - intros [child Hc%elem_of_iter]. exists ((parent, child), v). split; [done|].
      by apply list_elem_of_filter. }
  split; [done|]. split.
  - intros child v Hc. rewrite Forall_forall in Hl. apply Hl, Hin. by exists child.
  - destruct Hx as [->|Hx]; [by left|]. right. by apply Hin.
Qed.

Lemma greatest_bound prices parent x :
  map_Forall (λ _ v, is_u64 v) prices → greatest_price prices parent x → is_u64 x.
Proof.
  intros Hp (H0 & _ & [->|[child Hc]]); [done|]. by eapply Hp.
Qed.

(** ** Decay *)

Lemma decay_loop l m ps :
  NoDup l.*1 → (∀ k v, (k, v) ∈ l → m !! k = Some v ∧ 0 ≤ v)%Z →
  let '(m', ps') := foldl decay_entry (m, ps) l in
  (∀ k v, (k, v) ∈ l → m' !! k = Some (v / 2)%Z) ∧ (∀ k, k ∉ l.*1 → m' !! k = m !! k) ∧
  (∀ parent, parent ∈ ps' ↔ parent ∈ ps ∨ ∃ child v, ((parent, child), v) ∈ l ∧ (0 < v)%Z).
Proof.
  revert m ps. induction l as [|[k v] l IH]; intros m ps Hnd Hl; cbn [foldl].
  { split_and!; [by intros ?? ?%elem_of_nil|done|]. intros parent. split; [by left|].
    intros [?|(? & ? & ?%elem_of_nil & _)]; done. }
  apply NoDup_cons in Hnd as [Hk Hnd]. cbn [decay_entry].
  destruct (Hl k v) as [Hmk Hv]; [by left|].
  assert (∀ k' v', (k', v') ∈ l → k' ≠ k) as Hne.
  { intros k' v' Hin ->. apply Hk, list_elem_of_fmap. by exists (k, v'). }
  case_decide as Hpos.
  - specialize (IH (<[k:=(v / 2)%Z]> m) (if decide (k.1 ∈ ps) then ps else ps ++ [k.1]) Hnd).
    destruct (foldl decay_entry _ l) as [m' ps'] eqn:E.
    destruct IH as (H1 & H2 & H3).
    { intros k' v' Hin. rewrite lookup_insert_ne by (symmetry; by eapply Hne). apply Hl. by right. }
    split_and!.
    + intros k' v' [[= -> ->]|Hin]%elem_of_cons; [|by apply H1].
      rewrite H2 by done. apply lookup_insert_eq.
    + intros k' [Hk1 Hk2]%not_elem_of_cons. rewrite H2 by done. by apply lookup_insert_ne.
    + intros parent. rewrite H3. assert (parent ∈ (if decide (k.1 ∈ ps) then ps else ps ++ [k.1]) ↔
        parent ∈ ps ∨ parent = k.1) as -> by (case_decide; rewrite ?elem_of_app, ?list_elem_of_singleton; naive_solver).
      split.
      * intros [[?| ->]|(child & w & Hin & ?)]; [by left| |].
        { right. exists k.2, v. split; [|done]. destruct k. by left. }
        { right. exists child, w. split; [by right|done]. }
      * intros [?|(child & w & [[= <- ->]|Hin]%elem_of_cons & ?)]; [by do 2 left|left; by right|].
        right. by exists child, w.
  - specialize (IH m ps Hnd). destruct (foldl decay_entry _ l) as [m' ps'] eqn:E.
    destruct IH as (H1 & H2 & H3); [intros k' v' Hin; apply Hl; by right|].
    assert (v = 0%Z) as -> by lia. split_and!.
    + intros k' v' [[= -> ->]|Hin]%elem_of_cons; [|by apply H1]. rewrite H2 by done. by rewrite Hmk.
    + intros k' [Hk1 Hk2]%not_elem_of_cons. by apply H2.
    + intros parent. rewrite H3. split; intros [?|(child & w & Hin & ?)]; try by left.
      * right. exists child, w. split; [by right|done].
      * apply elem_of_cons in Hin as [[= <- ->]|Hin]; [lia|]. right. by exists child, w.
Qed.

Lemma decay_prices m :
  map_Forall (λ _ v, is_u64 v) m →
  let '(m', ps') := foldl decay_entry (m, []) (iter m) in
  m' = (λ v, v / 2)%Z <$> m ∧
  (∀ parent, parent ∈ ps' ↔ ∃ child v, m !! (parent, child) = Some v ∧ (0 < v)%Z).
Proof.
  intros Hm. pose proof (decay_loop (iter m) m []) as H.
  destruct (foldl decay_entry (m, []) (iter m)) as [m' ps']. destruct H as (H1 & H2 & H3).
  - rewrite iter_perm. apply NoDup_fst_map_to_list.
  - intros k v Hk%elem_of_iter. split; [done|]. by apply (Hm k v).
  - split.
    + apply map_eq. intros k. rewrite lookup_fmap. destruct (m !! k) as [v|] eqn:Hk.
      * by apply H1, elem_of_iter.
      * rewrite H2, Hk; [done|]. intros ([k' v] & -> & Hin%elem_of_iter)%list_elem_of_fmap. simpl in Hk. congruence.
    + intros parent. rewrite H3. setoid_rewrite elem_of_iter. split; [|by right].
      intros [?%elem_of_nil|?]; done.
Qed.

Lemma foldl_insert {K} `{Countable K} {A} (f : K → A) (l : list K) (m : gmap K A) k :
  foldl (λ m k, <[k := f k]> m) m l !! k = if decide (k ∈ l) then Some (f k) else m !! k.
Proof.
  induction l as [|x l IH] using rev_ind; [by rewrite decide_False by apply not_elem_of_nil|].
  rewrite foldl_app. cbn [foldl]. destruct (decide (x = k)) as [->|Hne].
  - rewrite lookup_insert_eq, decide_True; [done|]. apply elem_of_app. right. by left.
  - rewrite lookup_insert_ne, IH by done. apply decide_ext.
    rewrite elem_of_app, list_elem_of_singleton. naive_solver.
Qed.

Lemma decay_eq self :
  shared_inv self →
  downstream_prices (decay_downstream_prices self) = (λ v, v / 2)%Z <$> downstream_prices self ∧
  own_price (decay_downstream_prices self) = own_price self ∧
  queue_stats (decay_downstream_prices self) = queue_stats self ∧
  diag (decay_downstream_prices self) = diag self ∧
  ∀ parent, greatest_price (downstream_prices (decay_downstream_prices self)) parent
    (default 0%Z (max_downstream_for_method (decay_downstream_prices self) !! parent)).
Proof.
  intros [_ _ Hp Hmax]. unfold decay_downstream_prices.
  pose proof (decay_prices _ Hp) as H. destruct (foldl decay_entry _ _) as [m' ps]. destruct H as [-> Hps].
  cbn [downstream_prices own_price queue_stats max_downstream_for_method diag]. split_and!; try done.
  intros parent. rewrite foldl_insert. case_decide as Hin; [apply max_price_of_greatest|].
  assert (∀ child v, downstream_prices self !! (parent, child) = Some v → v = 0%Z) as Hz.
  { intros child v Hc. destruct (decide (0 < v)%Z) as [Hpos|]; [|pose proof (Hp _ _ Hc) as Hu; ulia].
    destruct Hin. apply Hps. by exists child, v. }
  destruct (Hmax parent) as (H0 & Hle & Hx).
  assert (default 0%Z (max_downstream_for_method self !! parent) = 0%Z) as ->
    by (destruct Hx as [->|[child Hc]]; [done|by eapply Hz]).
  split_and!; [done| |by left]. intros child v. rewrite lookup_fmap.
  destruct (downstream_prices self !! (parent, child)) as [w|] eqn:Hc; [|done].
  intros [= <-]. by rewrite (Hz child w Hc).
Qed.

(** ** The invariant *)

Lemma shared_new_inv p : params_ok p → shared_inv (shared_new p).
Proof.
  intros (_ & _ & Hi). split; cbn; [done|done|by apply map_Forall_empty|].
  intros parent. split_and!; [done|by intros ??|by left].
Qed.

Lemma new_price_u64 p own max_us d : is_u64 own → is_u64 (new_price p own max_us d).1.
Proof.
  intros Ho. unfold new_price. repeat case_decide; cbn [fst]; try done; [|ulia].
  assert (0 ≤ wrap64 ((max_us - latency_threshold_us p) * price_step_up p) / 1000)%Z; [|ulia].
  apply Z.div_pos; [apply Z.mod_pos_bound; done|done].
Qed.

Lemma half_u64 v : is_u64 v → is_u64 (v / 2).
Proof. intros Hv. pose proof (Z.mul_div_le v 2). pose proof (Z.div_pos v 2). ulia. Qed.

Lemma update_prices_eq p self :
  update_prices p self =
    MkShared (new_price p (own_price self) (window_max (queue_stats self)) (diag self)).1
      (downstream_prices self) (max_downstream_for_method self)
      (MkStats (window_max (queue_stats self) / 2)
         (Z.max (log_window_max (queue_stats self)) (window_max (queue_stats self))))
      (new_price p (own_price self) (window_max (queue_stats self)) (diag self)).2.
Proof. unfold update_prices. by destruct (new_price p _ _ _). Qed.

Lemma price_step_inv p self o : shared_inv self → op_ok o → shared_inv (price_step p self o).
Proof.
  intros Hinv Ho. pose proof Hinv as [Hown Hw Hp Hmax]. destruct o as [q|rpc child price| |]; cbn [price_step op_ok] in *.
  - split; cbn; [done|ulia|done|done].
  - assert (map_Forall (λ _ v, is_u64 v) (<[(rpc, child):=price]> (downstream_prices self))) as Hp'
      by (by apply map_Forall_insert_2).
    split; cbn; [done|done|done|]. intros parent. destruct (decide (parent = rpc)) as [->|Hne].
    + rewrite lookup_insert_eq. apply max_price_of_greatest.
    + rewrite lookup_insert_ne by done. destruct (Hmax parent) as (H0 & Hle & Hx). split_and!; [done| |].
      * intros c v. rewrite lookup_insert_ne by congruence. apply Hle.
      * destruct Hx as [?|[c Hc]]; [by left|]. right. exists c. by rewrite lookup_insert_ne by congruence.
  - assert (shared_inv (update_prices p self)) as Hinv'.
    { rewrite update_prices_eq. split; cbn; [by apply new_price_u64|by apply half_u64|done|done]. }
    unfold worker_tick. destruct (decay_eq _ Hinv') as (Hd & Ho' & Hq & _ & Hm).
    destruct Hinv' as [Hown' Hw' Hp' _]. split.
    + by rewrite Ho'.
    + by rewrite Hq.
    + rewrite Hd. intros k v. rewrite lookup_fmap. destruct (_ !! k) as [w|] eqn:Hk; [|done].
      intros [= <-]. apply half_u64. by eapply Hp'.
    + done.
  - by split.
Qed.

Lemma price_steps_inv p self ops :
  shared_inv self → Forall op_ok ops → shared_inv (foldl (price_step p) self ops).
Proof.
  intros Hinv Hops. revert self Hinv. induction Hops as [|o ops Ho _ IH]; intros self Hinv; [done|].
  cbn [foldl]. apply IH. by apply price_step_inv.
Qed.

(** Over any sequence of observations, learned prices and worker ticks,
    the price of a method is the service's own price plus the greatest of the
    prices cached for the method's children, never more and never less (up to
    saturation), whatever the order the cache is iterated in; all prices stay
    [u64]s. *)
Theorem accumulated_price_is_maximum p ops method :
  params_ok p → Forall op_ok ops →
  let self := foldl (price_step p) (shared_new p) ops in
  is_u64 (own_price self) ∧
  ∃ x, accumulated_price self method = Z.min u64_max (own_price self + x) ∧
    greatest_price (downstream_prices self) method x.
Proof.
  intros Hp Hops self. pose proof (price_steps_inv p (shared_new p) ops (shared_new_inv p Hp) Hops) as [Ho _ _ Hm].
  split; [done|]. eexists. split; [done|apply Hm].
Qed.

(** ** The price law *)

(** A tick raises the price exactly when the queueing delay of the window
    is above the threshold, by the excess scaled by [price_step_up] and at
    least by one; it lowers the price by one when the delay is below half the
    threshold, and else holds it. The delay remembered is halved, and exactly
    one of the tick counters moves. *)
Theorem update_prices_law p self :
  params_ok p → shared_inv self →
  let T := latency_threshold_us p in
  let q := window_max (queue_stats self) in
  let self' := update_prices p self in
  ((q - T) * price_step_up p ≤ u64_max)%Z →
  own_price self' =
    (if decide (T < q)%Z then Z.min u64_max (own_price self + Z.max 1 ((q - T) * price_step_up p / 1000))
     else if decide (q < T / 2)%Z then Z.max 0 (own_price self - 1) else own_price self) ∧
  window_max (queue_stats self') = (q / 2)%Z ∧
  ((T < q)%Z → (own_price self < own_price self' ∨ own_price self = u64_max)%Z ∧
     diag_price_up_ticks (diag self') = wrap64 (diag_price_up_ticks (diag self) + 1)) ∧
  downstream_prices self' = downstream_prices self.
Proof.
  intros (HT & Hs & _) [Ho Hw _ _] T q self' Hno. unfold self'. rewrite update_prices_eq. cbn [own_price queue_stats window_max downstream_prices diag].
  unfold new_price. fold T q. destruct (decide (T < q)%Z) as [Hgt|Hle]; cbn [fst snd diag_price_up_ticks].
  - rewrite wrap64_small by (unfold is_u64 in *; nia). unfold sat_add. rewrite Z.max_comm.
    split_and!; [done|done| |done]. intros _. split; [|done]. ulia.
  - split_and!; [|done|lia|done]. destruct (decide (q < T / 2)%Z) as [Hlow|Hhold].
    + destruct (decide (0 < own_price self ∧ q < T / 2)%Z); cbn [fst]; ulia.
    + rewrite decide_False by lia. done.
Qed.

(** ** Recovery *)

Definition halves (n : nat) (v : Z) : Z := Nat.iter n (λ v, v / 2)%Z v.

Lemma halves_div n v : (0 ≤ v)%Z → halves n v = (v / 2 ^ Z.of_nat n)%Z.
Proof.
  intros Hv. induction n as [|n IH]; [by rewrite Z.div_1_r|].
  change (halves (S n) v) with (halves n v / 2)%Z. rewrite IH.
  rewrite Z.div_div by lia. f_equal. rewrite Nat2Z.inj_succ, Z.pow_succ_r; lia.
Qed.

Lemma halves_64 n v : is_u64 v → 64 ≤ n → halves n v = 0%Z.
Proof.
  intros Hv Hn. rewrite halves_div by ulia. apply Z.div_small. split; [ulia|].
  pose proof (Z.pow_le_mono_r 2 64 (Z.of_nat n) ltac:(lia) ltac:(lia)) as Hpow.
  change (2 ^ 64)%Z with 18446744073709551616%Z in Hpow. ulia.
Qed.

Definition ticks (p : RajomonParams) (n : nat) (self : RajomonSharedState) : RajomonSharedState :=
  Nat.iter n (worker_tick p) self.

Lemma tick_eq p self :
  shared_inv self →
  downstream_prices (worker_tick p self) = (λ v, v / 2)%Z <$> downstream_prices self ∧
  own_price (worker_tick p self)
    = (new_price p (own_price self) (window_max (queue_stats self)) (diag self)).1 ∧
  window_max (queue_stats (worker_tick p self)) = (window_max (queue_stats self) / 2)%Z ∧
  shared_inv (worker_tick p self).
Proof.
  intros Hinv. split_and!; [..|by apply (price_step_inv p self Tick)];
    (assert (shared_inv (update_prices p self)) as Hinv'
      by (destruct Hinv; rewrite update_prices_eq; split; cbn; auto using new_price_u64, half_u64));
    destruct (decay_eq _ Hinv') as (Hd & Ho & Hq & _ & _); unfold worker_tick.
  - rewrite Hd, update_prices_eq. done.
  - rewrite Ho, update_prices_eq. done.
  - rewrite Hq, update_prices_eq. done.
Qed.

Lemma ticks_eq p n self :
  shared_inv self →
  shared_inv (ticks p n self) ∧
  downstream_prices (ticks p n self) = halves n <$> downstream_prices self ∧
  window_max (queue_stats (ticks p n self)) = halves n (window_max (queue_stats self)).
Proof.
  intros Hinv. induction n as [|n (Hi & Hd & Hw)]; [by rewrite map_fmap_id|].
  change (ticks p (S n) self) with (worker_tick p (ticks p n self)). destruct (tick_eq p _ Hi) as (Hd' & _ & Hw' & Hi').
  split_and!; [done| |by rewrite Hw', Hw]. rewrite Hd', Hd, <-map_fmap_compose. done.
Qed.

Lemma quiet_ticks p n self :
  (2 ≤ latency_threshold_us p)%Z → shared_inv self → window_max (queue_stats self) = 0%Z →
  own_price (ticks p n self) = Z.max 0 (own_price self - Z.of_nat n).
Proof.
  intros HT Hinv Hw. induction n as [|n IH]; [pose proof (own_u64 _ Hinv); cbn; ulia|].
  change (ticks p (S n) self) with (worker_tick p (ticks p n self)). destruct (ticks_eq p n self Hinv) as (Hi & _ & Hwn).
  destruct (tick_eq p _ Hi) as (_ & -> & _). rewrite Hwn, Hw, halves_div, Z.div_0_l by lia.
  unfold new_price. rewrite decide_False by lia.
  assert (1 ≤ latency_threshold_us p / 2)%Z by (apply Z.div_le_lower_bound; lia).
  rewrite IH. case_decide; cbn [fst]; ulia.
Qed.

(** An overloaded service recovers. Without new observations and new
    downstream prices, the price of every method falls to zero after finitely
    many ticks and stays there, so every request is admitted again. *)
Theorem prices_recover p self :
  (2 ≤ latency_threshold_us p)%Z → shared_inv self →
  ∃ N, ∀ n method, N ≤ n → accumulated_price (ticks p n self) method = 0%Z.
Proof.
  intros HT Hinv. destruct (ticks_eq p 64 self Hinv) as (Hi & _ & Hw).
  rewrite halves_64 in Hw by (done || apply Hinv).
  exists (Z.to_nat (own_price (ticks p 64 self)) + 64). intros n method Hn.
  destruct (ticks_eq p n self Hinv) as ([Ho _ _ Hm] & Hd & _). destruct (Hm method) as (H0 & _ & Hx).
  assert (default 0%Z (max_downstream_for_method (ticks p n self) !! method) = 0%Z) as Hmax.
  { destruct Hx as [?|[child Hc]]; [done|]. rewrite Hd, lookup_fmap in Hc.
    destruct (downstream_prices self !! (method, child)) as [v|] eqn:Hv; [|done].
    injection Hc as <-. apply halves_64; [exact (prices_u64 self Hinv _ v Hv)|lia]. }
  unfold accumulated_price. rewrite Hmax.
  assert (own_price (ticks p n self) = 0%Z) as ->; [|done].
  replace n with ((n - 64) + 64) by lia. unfold ticks. rewrite Nat.iter_add. fold (ticks p 64 self).
  fold (ticks p (n - 64) (ticks p 64 self)). rewrite quiet_ticks by done. lia.
Qed.
End iteration.

(** ** A service with two children *)

Definition demo_method (s : string) : CowGrpcMethod := MkCow (bytes_of_string "svc") (bytes_of_string s).

Definition demo_ops : list price_op :=
  [Learn (demo_method "get") (demo_method "a") 7; Learn (demo_method "get") (demo_method "b") 9;
   Observe 6000; Tick].

Definition demo_shared : RajomonSharedState :=
  foldl (price_step map_to_list default_params) (shared_new default_params) demo_ops.

Lemma default_params_ok : params_ok default_params.
Proof. split_and!; decided. Qed.

Lemma demo_ops_ok : Forall op_ok demo_ops.
Proof. repeat constructor; unfold u64_max; cbn; lia. Qed.

Lemma demo_shared_inv : shared_inv demo_shared.
Proof.
  apply price_steps_inv; [done|apply shared_new_inv, default_params_ok|apply demo_ops_ok].
Qed.

(** The tick adds 8 tokens for one millisecond of excess and halves the 9. *)
Lemma accumulated_price_is_maximum_witness :
  accumulated_price demo_shared (demo_method "get") = 12%Z ∧ is_u64 (own_price demo_shared) ∧
  ∃ x, accumulated_price demo_shared (demo_method "get") = Z.min u64_max (own_price demo_shared + x) ∧
    greatest_price (downstream_prices demo_shared) (demo_method "get") x.
Proof.
  split; [by vm_compute|].
  apply (accumulated_price_is_maximum map_to_list (λ _, reflexivity _) default_params demo_ops);
    [apply default_params_ok|apply demo_ops_ok].
Defined.

Lemma update_prices_law_witness :
  let self := observe_queue 7000 (shared_new default_params) in
  own_price (update_prices default_params self) = 16%Z ∧
  window_max (queue_stats (update_prices default_params self)) = 3500%Z.
Proof.
  intros self.
  destruct (update_prices_law default_params self) as (Ho & Hw & _).
  - apply default_params_ok.
  - apply (price_step_inv map_to_list (λ _, reflexivity _) default_params _ (Observe 7000));
      [apply shared_new_inv, default_params_ok|split; [done|by unfold u64_max]].
  - by vm_compute.
  - split; [rewrite Ho; by vm_compute|by rewrite Hw].
Defined.

Lemma prices_recover_witness :
  ∃ N, ∀ n method, N ≤ n → accumulated_price (ticks map_to_list default_params n demo_shared) method = 0%Z.
Proof.
  apply (prices_recover map_to_list (λ _, reflexivity _)); [by vm_compute|apply demo_shared_inv].
Defined.
