(* ===== verification/Rajomon.v ===== *)
(** The request module of libs/rajomon/src/module.rs: admission by tokens,
    prices on responses. Each hook is the whole handler, with the shared state
    of [RajomonShared] and the wire data of the [rajomon] section. *)
From S2P Require Export RajomonShared Context.

Definition DEFAULT_TOKENS : Z := 100.

Record RajomonWire := MkWire { tokens : Z; price : option Z }.

#[export] Instance rajomon_wire_eq_dec : EqDecision RajomonWire.
Proof. solve_decision. Defined.

Definition wire_request (tokens : Z) : RajomonWire := MkWire tokens None.
Definition wire_response (tokens price : Z) : RajomonWire := MkWire tokens (Some price).

Record RajomonModule := MkRajomon {
  rpc : CowGrpcMethod;
  should_drop : bool;
  remaining_tokens : Z;
  inbound_tokens : Z;
}.

Definition NAME : bytes := bytes_of_string "rajomon".

(** [format!("{service}::{method}")]. *)
Definition path (m : CowGrpcMethod) : bytes :=
  cow_service m ++ bytes_of_string "::" ++ cow_method m.

(** [should_propagate_price], given the number drawn from [0..price_freq]. *)
Definition should_propagate_price (p : RajomonParams) (draw : Z) : bool :=
  if decide (price_freq p = 0)%Z then false
  else if decide (price_freq p = 1)%Z then true
  else bool_decide (draw = 0)%Z.

Definition with_diag (self : RajomonSharedState) (d : Diagnostics) : RajomonSharedState :=
  MkShared (own_price self) (downstream_prices self) (max_downstream_for_method self)
    (queue_stats self) d.

Definition count_rejected (deficit : Z) (d : Diagnostics) : Diagnostics :=
  MkDiag (diag_admitted d) (wrap64 (diag_rejected d + 1)) (diag_child_budget_rej d)
    (diag_price_up_ticks d) (diag_price_down_ticks d) (diag_price_hold_ticks d)
    (wrap64 (diag_token_deficit_sum d + deficit)).

Definition count_admitted (d : Diagnostics) : Diagnostics :=
  MkDiag (wrap64 (diag_admitted d + 1)) (diag_rejected d) (diag_child_budget_rej d)
    (diag_price_up_ticks d) (diag_price_down_ticks d) (diag_price_hold_ticks d)
    (diag_token_deficit_sum d).

Definition count_child_budget (d : Diagnostics) : Diagnostics :=
  MkDiag (diag_admitted d) (diag_rejected d) (wrap64 (diag_child_budget_rej d + 1))
    (diag_price_up_ticks d) (diag_price_down_ticks d) (diag_price_hold_ticks d)
    (diag_token_deficit_sum d).

Section module.
  Context {E : Base64Engine} {B : Bincode RajomonWire}.
  Context {Response Status : Type} (resource_exhausted : bytes → Status).
  Context (iter : Prices → list ((CowGrpcMethod * CowGrpcMethod) * Z)).

Notation Reply := (result Response Status).

Definition issue_error (self : RajomonModule) (child_method : option CowGrpcMethod) (reason : string)
    : Status :=
  resource_exhausted
    (match child_method with
     | Some child =>
         bytes_of_string "/EarlyReturn?src=" ++ path (rpc self) ++ bytes_of_string "?last_rpc="
           ++ path child ++ bytes_of_string "&reason=" ++ bytes_of_string reason
     | None =>
         bytes_of_string "/EarlyReturn?src=" ++ path (rpc self) ++ bytes_of_string "&reason="
           ++ bytes_of_string reason
     end).

Definition module_new (method : CowGrpcMethod) (wire : WireIn) (s : RajomonSharedState)
    : outcome (RajomonModule * RajomonSharedState) :=
  r ← Codec.get (W:=RajomonWire) wire NAME;
  w ← expect r;
  let tokens := default DEFAULT_TOKENS (tokens <$> w) in
  let accumulated := accumulated_price s method in
  let own := own_price s in
  if decide (tokens < accumulated)%Z then
    Ret (MkRajomon method true 0 tokens,
         with_diag s (count_rejected (accumulated - tokens) (diag s)))
  else
    Ret (MkRajomon method false (wrap64 (tokens - own)) tokens,
         with_diag s (count_admitted (diag s))).

Definition before_poll (self : RajomonModule) (q_lat_us : Z) (s : RajomonSharedState)
    : RajomonSharedState * result unit Reply :=
  let s := observe_queue q_lat_us s in
  if should_drop self then (s, Err (Err (issue_error self None "RajomonAdmissionRej")))
  else (s, Ok tt).

Definition before_child_rpc (self : RajomonModule) (child_method : CowGrpcMethod)
    (child_wire : WireOut) (s : RajomonSharedState)
    : outcome (WireOut * RajomonSharedState * result unit Status) :=
  if should_drop self then
    Ret (child_wire, s, Err (issue_error self None "RajomonAdmissionRej"))
  else
    let price := child_price iter s child_method in
    let current := remaining_tokens self in
    if decide (current < price)%Z then
      Ret (child_wire, with_diag s (count_child_budget (diag s)),
           Err (issue_error self (Some child_method) "RajomonChildBudgetRej"))
    else
      r ← put child_wire NAME (wire_request current);
      child_wire ← expect r;
      Ret (child_wire, s, Ok tt).

Definition after_poll (self : RajomonModule) (poll : @Poll Response Status) : result unit Reply :=
  match poll with
  | Pending =>
      if should_drop self then Err (Err (issue_error self None "RajomonAdmissionRej")) else Ok tt
  | Ready _ => Ok tt
  end.

Definition after_child_rpc (self : RajomonModule) (child_method : CowGrpcMethod)
    (o : @ChildOutcome Response Status) (response_wire : WireIn) (s : RajomonSharedState)
    : outcome (RajomonSharedState * result unit Status) :=
  match sent o with
  | None => Ret (s, Ok tt)
  | Some _ =>
      r ← Codec.get (W:=RajomonWire) response_wire NAME;
      w ← expect r;
      Ret (match w ≫= price with
           | Some price => learn_price iter (rpc self) child_method price s
           | None => s
           end, Ok tt)
  end.

Definition finalize (p : RajomonParams) (draw : Z) (self : RajomonModule) (wire : WireOut)
    (s : RajomonSharedState) : outcome WireOut :=
  let tokens := inbound_tokens self in
  let response :=
    if should_propagate_price p draw then wire_response tokens (accumulated_price s (rpc self))
    else wire_request tokens in
  r ← put wire NAME response;
  expect r.
End module.

(** ** What the hooks guarantee *)

Definition wire_wf (w : RajomonWire) : Prop :=
  is_u64 (tokens w) ∧ match price w with Some p => is_u64 p | None => True end.

(** Every pair of [u64]s serializes. *)
Class RajomonWireLaws {B : Bincode RajomonWire} : Prop := {
  rajomon_bincode_laws :: BincodeLaws RajomonWire;
  rajomon_serialize w : wire_wf w → ∃ bs, serialize w = Ok bs;
}.

Lemma name_valid : valid_name NAME.
Proof. decided. Qed.

Section module_laws.
  Context {E : Base64Engine} {EL : Base64Laws E}.
  Context {B : Bincode RajomonWire} {BL : RajomonWireLaws}.
  Context {Response Status : Type} (resource_exhausted : bytes → Status).
  Context (iter : Prices → list ((CowGrpcMethod * CowGrpcMethod) * Z)).
  Context (iter_perm : ∀ prices, iter prices ≡ₚ map_to_list prices).

Notation before_poll := (before_poll (Response:=Response) resource_exhausted).
Notation before_child_rpc := (before_child_rpc resource_exhausted iter).
Notation after_poll := (after_poll (Response:=Response) resource_exhausted).
Notation after_child_rpc := (after_child_rpc (Response:=Response) (Status:=Status) iter).

Lemma put_wire out w :
  wire_wf w → ∃ payload, SECTION_SEPARATOR ∉ payload ∧ put out NAME w = Ret (Ok (set out NAME payload)) ∧
    Codec.get (MkWireIn (header (set out NAME payload))) NAME = Ret (Ok (Some w)).
Proof.
  intros [bs Hs]%rajomon_serialize. exists (rfc4648_encode bs).
  assert (Forall is_byte bs) as Hb by (by eapply serialize_bytes).
  split_and!; [by apply (rfc_good bs Hb)|by apply put_eq|by apply get_set, Hs; apply name_valid].
Qed.

Lemma module_new_eq method wire s w :
  Codec.get (W:=RajomonWire) wire NAME = Ret (Ok w) →
  module_new method wire s =
    let tokens := default DEFAULT_TOKENS (tokens <$> w) in
    Ret (if decide (tokens < accumulated_price s method)%Z then
           (MkRajomon method true 0 tokens,
            with_diag s (count_rejected (accumulated_price s method - tokens) (diag s)))
         else (MkRajomon method false (wrap64 (tokens - own_price s)) tokens,
               with_diag s (count_admitted (diag s)))).
Proof.
  intros Hw. unfold module_new. rewrite Hw. cbn [mbind outcome_bind expect]. by case_decide.
Qed.

(** The price found for a child is one the child has published to a caller. *)
Lemma child_price_found s child :
  child_price iter s child = 0%Z ∨
  ∃ parent, downstream_prices s !! (parent, child) = Some (child_price iter s child).
Proof.
  unfold child_price. destruct (filter _ _) as [|[[par c] v] l] eqn:Hf; [by left|]. right. exists par.
  assert ((par, c, v) ∈ filter (λ e, e.1.2 = child) (iter (downstream_prices s))) as [Hc Hin]%list_elem_of_filter
    by (rewrite Hf; by left).
  simpl in Hc. subst. by apply (elem_of_iter iter iter_perm) in Hin.
Qed.

(** A request is admitted exactly when its tokens cover the accumulated
    price of its method. A rejected request runs no poll of its handler and no
    child call. An admitted one keeps its tokens less the service's own price,
    is never rejected at a poll, and can pay every child whose price only its
    own method has learned, while the prices stay what they were. *)
Theorem admission_by_price method wire s w :
  shared_inv s → Codec.get (W:=RajomonWire) wire NAME = Ret (Ok w) →
  let t := default DEFAULT_TOKENS (tokens <$> w) in
  is_u64 t →
  ∃ m s', module_new method wire s = Ret (m, s') ∧ rpc m = method ∧ inbound_tokens m = t ∧
    own_price s' = own_price s ∧ downstream_prices s' = downstream_prices s ∧
    if decide (t < accumulated_price s method)%Z then
      ∀ q child out s1,
        (∃ st, (before_poll m q s1).2 = Err (Err st)) ∧ (∃ st, after_poll m Pending = Err (Err st)) ∧
        (∃ st, before_child_rpc m child out s1 = Ret (out, s1, Err st))
    else
      remaining_tokens m = (t - own_price s)%Z ∧ is_u64 (remaining_tokens m) ∧
      (∀ q s1 poll, (before_poll m q s1).2 = Ok tt ∧ after_poll m poll = Ok tt) ∧
      ∀ child out, (accumulated_price s method < u64_max)%Z →
        (∀ parent v, downstream_prices s !! (parent, child) = Some v → parent = method) →
        ∃ out', before_child_rpc m child out s' = Ret (out', s', Ok tt).
Proof.
  intros Hinv Hw t Ht. rewrite (module_new_eq method wire s w Hw). fold t. cbv zeta.
  case_decide as Hlt; (do 2 eexists; split; [done|]); cbn [rpc inbound_tokens remaining_tokens own_price downstream_prices with_diag];
    do 4 (split; [done|]).
  { intros q child out s1. split_and!; by eexists. }
  destruct Hinv as [Ho Hq Hp Hm]. destruct (Hm method) as (H0 & Hle & _).
  assert (own_price s ≤ accumulated_price s method)%Z as Hown by (unfold accumulated_price; ulia).
  rewrite wrap64_small by ulia. split_and!; [done|ulia|by intros ?? []|].
  intros child out Hmax Honly. unfold before_child_rpc. cbn [should_drop remaining_tokens].
  assert (child_price iter s child ≤ t - own_price s)%Z as Hpay.
  { destruct (child_price_found s child) as [->|[parent Hc]]; [lia|].
    rewrite (Honly parent _ Hc) in Hc. apply Hle in Hc. unfold accumulated_price in *. ulia. }
  rewrite decide_False by (unfold child_price in *; cbn [downstream_prices with_diag]; lia).
  destruct (put_wire out (wire_request (t - own_price s))) as (payload & _ & -> & _); [split; [cbn; ulia|done]|].
  by eexists.
Qed.

(** The tokens travel. What an admitted request has left is what the
    child's module reads from the header it is sent, and no other module's
    section changes. *)
Theorem tokens_reach_child m child out s s' out' :
  is_u64 (remaining_tokens m) → before_child_rpc m child out s = Ret (out', s', Ok tt) →
  (child_price iter s child ≤ remaining_tokens m)%Z ∧ s' = s ∧
  (∀ sc, ∃ mc sc', module_new child (MkWireIn (header out')) sc = Ret (mc, sc') ∧
     inbound_tokens mc = remaining_tokens m) ∧
  ∀ W (BW : Bincode W) other, valid_name other → other ≠ NAME →
    Codec.get (W:=W) (MkWireIn (header out')) other = Codec.get (MkWireIn (header out)) other.
Proof.
  intros Hr. unfold before_child_rpc, Rajomon.before_child_rpc. destruct (should_drop m); [done|].
  case_decide as Hlt; [done|].
  destruct (put_wire out (wire_request (remaining_tokens m))) as (payload & Hsep & -> & Hget); [by split|].
  cbn [mbind outcome_bind expect]. intros [= <- <-]. split_and!; [lia|done| |].
  - intros sc. rewrite (module_new_eq child _ sc _ Hget). cbn. case_decide; by do 2 eexists.
  - intros W BW other Ho Hne. apply get_set_other; [apply name_valid|done..].
Qed.

(** Prices travel back. The response of a child, whatever its status,
    makes the caller learn the child's accumulated price when the child chose
    to propagate it, and nothing else; a call that was never sent teaches
    nothing. The price learned counts in the caller's own accumulated price. *)
Theorem price_reaches_parent p draw mc child out sc (reply : result Response Status) m s :
  shared_inv sc → shared_inv s → is_u64 (inbound_tokens mc) → rpc mc = child →
  ∃ out' s', finalize p draw mc out sc = Ret out' ∧
    after_child_rpc m child (Sent reply) (MkWireIn (header out')) s = Ret (s', Ok tt) ∧
    (if should_propagate_price p draw then
       downstream_prices s' = <[(rpc m, child) := accumulated_price sc child]> (downstream_prices s) ∧
       (Z.min u64_max (own_price s + accumulated_price sc child) ≤ accumulated_price s' (rpc m))%Z ∧
       shared_inv s'
     else s' = s) ∧
    ∀ by_ st w, after_child_rpc m child (ChildRejected by_ st) w s = Ret (s, Ok tt).
Proof.
  intros Hsc Hs Ht <-. set (acc := accumulated_price sc (rpc mc)).
  assert (is_u64 acc) as Hacc.
  { destruct Hsc as [Ho _ _ Hm]. destruct (Hm (rpc mc)) as (H0 & _). unfold acc, accumulated_price. ulia. }
  destruct (put_wire out (if should_propagate_price p draw then wire_response (inbound_tokens mc) acc
                          else wire_request (inbound_tokens mc)))
    as (payload & _ & Hput & Hget); [by destruct (should_propagate_price p draw)|].
  unfold finalize, after_child_rpc, Rajomon.after_child_rpc. cbv zeta. fold acc. rewrite Hput. cbn [mbind outcome_bind expect sent].
  do 2 eexists. split; [done|]. rewrite Hget. cbn [mbind outcome_bind expect option_bind].
  split; [done|]. split; [|done]. destruct (should_propagate_price p draw); [|done]. cbn [price wire_response].
  pose proof (price_step_inv iter iter_perm default_params s (Learn (rpc m) (rpc mc) acc) Hs Hacc) as Hinv.
  cbn [price_step] in Hinv. split_and!; [done| |done].
  destruct Hinv as [_ _ _ Hm]. destruct (Hm (rpc m)) as (_ & Hle & _).
  unfold accumulated_price at 1. specialize (Hle (rpc mc) acc).
  cbn [downstream_prices learn_price own_price] in *. rewrite lookup_insert_eq in Hle.
  specialize (Hle eq_refl). unfold sat_add. lia.
Qed.
End module_laws.

(** ** The wire type with varints *)

#[export] Instance wire_wf_dec w : Decision (wire_wf w).
Proof. unfold wire_wf. destruct (price w); apply _. Defined.

Definition wire_encode (w : RajomonWire) : option bytes :=
  if decide (wire_wf w) then
    Some (write_varint (tokens w)
            ++ match price w with None => [0%Z] | Some p => 1%Z :: write_varint p end)
  else None.

Definition wire_decode (bs : bytes) : option RajomonWire :=
  '(t, r) ← read_varint bs;
  match r with
  | [tag] => if decide (tag = 0%Z) then Some (MkWire t None) else None
  | tag :: r =>
      if decide (tag = 1%Z) then
        '(p, r) ← read_varint r; if decide (r = []) then Some (MkWire t (Some p)) else None
      else None
  | [] => None
  end.

Definition rajomon_bincode : Bincode RajomonWire := bincode_of wire_encode wire_decode.

Lemma write_varint_nonempty v : write_varint v ≠ [].
Proof. unfold write_varint. by repeat case_decide. Qed.

Lemma wire_encode_decode w bs :
  wire_encode w = Some bs → Forall is_byte bs ∧ wire_decode bs = Some w.
Proof.
  unfold wire_encode. case_decide as Hw; [|done]. intros [= <-]. destruct w as [t p]. destruct Hw as [Ht Hp]. cbn [tokens price] in *.
  apply write_varint_ok in Ht as [Hv Hb]. unfold wire_decode. rewrite (read_varint_app _ _ _ Hv). cbn [mbind option_bind].
  destruct p as [p|].
  - apply write_varint_ok in Hp as [Hvp Hbp]. split.
    + apply Forall_app. split; [done|]. constructor; [unfold is_byte; lia|done].
    + pose proof (read_varint_app _ _ [] Hvp) as Hr. rewrite app_nil_r in Hr.
      pose proof (write_varint_nonempty p). destruct (write_varint p) as [|b bs]; [done|].
      rewrite decide_True by done. by rewrite Hr.
  - split; [|done]. apply Forall_app. split; [done|]. constructor; [unfold is_byte; lia|constructor].
Qed.

Lemma rajomon_bincode_wire_laws : @RajomonWireLaws rajomon_bincode.
Proof.
  split; [apply bincode_of_laws, wire_encode_decode|]. intros w Hw. cbn. unfold wire_encode.
  rewrite decide_True by done. by eexists.
Qed.

#[local] Existing Instance reference_engine.
#[local] Existing Instance reference_laws.
#[local] Existing Instance rajomon_bincode.
#[local] Existing Instance rajomon_bincode_wire_laws.

(** A request with no Rajomon data has 100 tokens; the price is 12. *)
Lemma admission_by_price_witness :
  ∃ m s' out', module_new (demo_method "get") wire_in_default demo_shared = Ret (m, s') ∧
    should_drop m = false ∧ remaining_tokens m = 92%Z ∧
    before_child_rpc (λ b, b) map_to_list m (demo_method "a") wire_out_new s' = Ret (out', s', Ok tt).
Proof.
  destruct (admission_by_price (Response:=unit) (λ b, b) map_to_list (λ _, reflexivity _) (demo_method "get") wire_in_default
    demo_shared None demo_shared_inv eq_refl) as (m & s' & Hm & _ & _ & _ & _ & Hif); [by split|].
  rewrite decide_False in Hif by (by vm_compute). destruct Hif as (Hr & _ & _ & Hc).
  destruct (Hc (demo_method "a") wire_out_new) as [out' Hout]; [by vm_compute| |].
  - intros parent v Hl. vm_compute in Hm.
    assert (Forall (λ e, e.1.2 = demo_method "a" → e.1.1 = demo_method "get") (map_to_list (downstream_prices demo_shared)))
      as Hall by decided.
    rewrite Forall_forall in Hall. apply elem_of_map_to_list in Hl. by apply (Hall _ Hl).
  - exists m, s', out'. split; [exact Hm|]. split; [by vm_compute in Hm; injection Hm as <- <-|].
    split; [rewrite Hr; by vm_compute|exact Hout].
Defined.

Lemma tokens_reach_child_witness :
  let m := MkRajomon (demo_method "get") false 92 100 in
  ∃ out' s', before_child_rpc (λ b, b) map_to_list m (demo_method "a") wire_out_new demo_shared = Ret (out', s', Ok tt) ∧
    ∃ mc sc', module_new (demo_method "a") (MkWireIn (header out')) demo_shared = Ret (mc, sc') ∧
      inbound_tokens mc = 92%Z.
Proof.
  intros m.
  destruct (before_child_rpc (λ b, b) map_to_list m (demo_method "a") wire_out_new demo_shared)
    as [[[out' s'] [[]|]]|] eqn:Hb; try (by vm_compute in Hb).
  exists out', s'. split; [done|].
  destruct (tokens_reach_child (λ b, b) map_to_list m (demo_method "a") wire_out_new demo_shared s' out')
    as (_ & _ & Hc & _); [by split|exact Hb|]. apply Hc.
Defined.

(** [price_freq] 1 always propagates. *)
Lemma price_reaches_parent_witness :
  let p := MkParams 10 5000 8 0 1 10 10 5 in
  let mc := MkRajomon (demo_method "get") false 92 100 in
  let m := MkRajomon (demo_method "front") false 50 50 in
  ∃ out' s', finalize p 0 mc wire_out_new demo_shared = Ret out' ∧
    after_child_rpc (Response:=unit) (Status:=bytes) map_to_list m (demo_method "get") (Sent (Ok tt))
      (MkWireIn (header out')) (shared_new p) = Ret (s', Ok tt) ∧
    downstream_prices s' !! (demo_method "front", demo_method "get") = Some 12%Z ∧
    (12 ≤ accumulated_price s' (demo_method "front"))%Z.
Proof.
  intros p mc m.
  destruct (price_reaches_parent (Response:=unit) (Status:=bytes) map_to_list (λ _, reflexivity _) p 0 mc (demo_method "get")
    wire_out_new demo_shared (Ok tt) m (shared_new p)) as (out' & s' & Hf & Ha & (Hd & Hle & _) & _).
  - apply demo_shared_inv.
  - apply shared_new_inv. split_and!; decided.
  - decided.
  - done.
  - exists out', s'. split_and!; [exact Hf|exact Ha| |].
    + rewrite Hd. by vm_compute.
    + refine (Z.le_trans _ _ _ _ Hle). by vm_compute.
Defined.
