(* ===== verification/TokenBucket.v ===== *)
(** The client's token bucket of libs/rajomon/src/client.rs: [try_acquire],
    [deduct], [replenish] and [update_price] called by any number of threads.
    Each is a loop around a weak compare-and-swap; a step here is one load or
    one compare-and-swap of one thread, the swap may fail for no reason, and
    the random draws are the scheduler's. *)
From S2P Require Export RajomonShared.

Record ClientTokenBucket := MkBucket {
  tokens_left : Z;
  cached_prices : gmap CowGrpcMethod Z;
}.

Definition bucket_new (p : RajomonParams) : ClientTokenBucket := MkBucket (tokens_left_init p) ∅.

Definition update_price (method : CowGrpcMethod) (price : Z) (self : ClientTokenBucket) : ClientTokenBucket :=
  MkBucket (tokens_left self) (<[method := price]> (cached_prices self)).

Definition cached_price (self : ClientTokenBucket) (method : CowGrpcMethod) : Z :=
  default 0%Z (cached_prices self !! method).

(** Where a thread is: about to load, or about to swap [current] for the
    argument of the operation. *)
Inductive bpc :=
| BIdle
| AcquireLoad (price : Z)
| AcquireSwap (price current tok : Z)
| DeductLoad (n : Z)
| DeductSwap (n current : Z)
| ReplenishLoad
| ReplenishSwap (current : Z).

(** The results, in the order in which they take effect. *)
Inductive effect :=
| Acquired (price tok : Z)
| Limited (price : Z)
| Deducted (n : Z)
| Replenished.

Record system := MkSystem {
  bucket : ClientTokenBucket;
  bthreads : list bpc;
  effects : list effect;
}.

Inductive baction :=
| CallAcquire (method : CowGrpcMethod)
| CallDeduct (n : Z)
| CallReplenish
| CallUpdatePrice (method : CowGrpcMethod) (price : Z)
| Load
| LoadDraw (tok : Z)
| Swap (fails : bool).

Definition at_pc (t : nat) (p : bpc) (s : system) : system :=
  MkSystem (bucket s) (<[t := p]> (bthreads s)) (effects s).

Definition finish (t : nat) (e : effect) (s : system) : system :=
  MkSystem (bucket s) (<[t := BIdle]> (bthreads s)) (effects s ++ [e]).

(** [compare_exchange_weak(current, new)]. *)
Definition swap (t : nat) (fails : bool) (current new : Z) (e : effect) (retry : bpc) (s : system) : system :=
  if decide (fails = false ∧ tokens_left (bucket s) = current) then
    finish t e (MkSystem (MkBucket new (cached_prices (bucket s))) (bthreads s) (effects s))
  else at_pc t retry s.

Definition bucket_step (p : RajomonParams) (t : nat) (a : baction) (s : system) : option system :=
  pc ← bthreads s !! t;
  let current := tokens_left (bucket s) in
  match pc, a with
  | BIdle, CallAcquire method => Some (at_pc t (AcquireLoad (cached_price (bucket s) method)) s)
  | BIdle, CallDeduct n => if decide (is_u64 n) then Some (at_pc t (DeductLoad n) s) else None
  | BIdle, CallReplenish => Some (at_pc t ReplenishLoad s)
  | BIdle, CallUpdatePrice method price =>
      Some (MkSystem (update_price method price (bucket s)) (bthreads s) (effects s))
  | AcquireLoad price, LoadDraw tok =>
      if decide (current < price)%Z then Some (finish t (Limited price) s)
      else if decide (0 ≤ tok ≤ current)%Z then
        if decide (tok < price)%Z then Some (finish t (Limited price) s)
        else Some (at_pc t (AcquireSwap price current tok) s)
      else None
  | AcquireSwap price current tok, Swap fails =>
      Some (swap t fails current (current - tok) (Acquired price tok) (AcquireLoad price) s)
  | DeductLoad n, Load => Some (at_pc t (DeductSwap n current) s)
  | DeductSwap n current, Swap fails =>
      Some (swap t fails current (current -s n) (Deducted n) (DeductLoad n) s)
  | ReplenishLoad, Load => Some (at_pc t (ReplenishSwap current) s)
  | ReplenishSwap current, Swap fails =>
      Some (swap t fails current (current +s token_update_step p) Replenished ReplenishLoad s)
  | _, _ => None
  end.

(** Any interleaving from a bucket of [tokens_left_init] tokens. *)
Inductive bucket_reachable (p : RajomonParams) : system → Prop :=
| bucket_start n : bucket_reachable p (MkSystem (bucket_new p) (replicate n BIdle) [])
| bucket_next s t a s' : bucket_reachable p s → bucket_step p t a s = Some s' → bucket_reachable p s'.

(** ** The sequential bucket *)

(** One call at a time: the tokens after it, if it may have that effect. *)
Definition apply_effect (p : RajomonParams) (tokens : Z) (e : effect) : option Z :=
  match e with
  | Acquired price tok => if decide (price ≤ tok ∧ 0 ≤ tok ≤ tokens)%Z then Some (tokens - tok)%Z else None
  | Limited _ => Some tokens
  | Deducted n => Some (tokens -s n)
  | Replenished => Some (tokens +s token_update_step p)
  end.

Definition apply_effects (p : RajomonParams) (tokens : Z) (es : list effect) : option Z :=
  foldl (λ r e, tokens ← r; apply_effect p tokens e) (Some tokens) es.

Lemma apply_effects_snoc p tokens es e :
  apply_effects p tokens (es ++ [e]) = (tokens ← apply_effects p tokens es; apply_effect p tokens e).
Proof. unfold apply_effects. by rewrite foldl_app. Qed.

(** Tokens handed out, and tokens put in at most. *)
Definition acquired (es : list effect) : Z :=
  foldr (λ e n, (match e with Acquired _ tok => tok | _ => 0 end + n)%Z) 0%Z es.

Definition supplied (p : RajomonParams) (es : list effect) : Z :=
  foldr (λ e n, (match e with Replenished => token_update_step p | _ => 0 end + n)%Z) 0%Z es.

Lemma acquired_snoc es e :
  acquired (es ++ [e]) = (acquired es + match e with Acquired _ tok => tok | _ => 0 end)%Z.
Proof. unfold acquired. induction es as [|x es IH]; simpl in *; [lia|]. rewrite IH. lia. Qed.

Lemma supplied_snoc p es e :
  supplied p (es ++ [e]) = (supplied p es + match e with Replenished => token_update_step p | _ => 0 end)%Z.
Proof. unfold supplied. induction es as [|x es IH]; simpl in *; [lia|]. rewrite IH. lia. Qed.

(** What a thread has checked before it swaps. *)
Definition bpc_ok (pc : bpc) : Prop :=
  match pc with
  | AcquireSwap price current tok => (price ≤ tok ∧ 0 ≤ tok ≤ current)%Z
  | DeductLoad n | DeductSwap n _ => is_u64 n
  | _ => True
  end.

Definition bucket_params_ok (p : RajomonParams) : Prop :=
  is_u64 (tokens_left_init p) ∧ is_u64 (token_update_step p).

Record bucket_inv (p : RajomonParams) (s : system) : Prop := {
  b_pcs : Forall bpc_ok (bthreads s);
  b_linear : apply_effects p (tokens_left_init p) (effects s) = Some (tokens_left (bucket s));
  b_u64 : is_u64 (tokens_left (bucket s));
  b_supply : (acquired (effects s) + tokens_left (bucket s) ≤ tokens_left_init p + supplied p (effects s))%Z;
}.

Lemma at_pc_inv p t pc s : bpc_ok pc → bucket_inv p s → bucket_inv p (at_pc t pc s).
Proof. intros Hpc [Hp Hl Hu Hs]. split; try done. cbn. by apply Forall_insert. Qed.

Lemma finish_inv p t e new s :
  bucket_inv p s → apply_effect p (tokens_left (bucket s)) e = Some new →
  is_u64 new → (match e with Acquired _ tok => tok | _ => 0 end + new
                  ≤ tokens_left (bucket s) + match e with Replenished => token_update_step p | _ => 0 end)%Z →
  bucket_inv p (finish t e (MkSystem (MkBucket new (cached_prices (bucket s))) (bthreads s) (effects s))).
Proof.
  intros [Hp Hl Hu Hs] He Hnew Hle. split; cbn [bthreads bucket effects tokens_left finish].
  - by apply Forall_insert.
  - by rewrite apply_effects_snoc, Hl.
  - done.
  - rewrite acquired_snoc, supplied_snoc. lia.
Qed.

Lemma swap_inv p t fails current new e retry s :
  bucket_inv p s → bpc_ok retry → (tokens_left (bucket s) = current →
    apply_effect p current e = Some new ∧ is_u64 new ∧
    (match e with Acquired _ tok => tok | _ => 0 end + new
       ≤ current + match e with Replenished => token_update_step p | _ => 0 end)%Z) →
  bucket_inv p (swap t fails current new e retry s).
Proof.
  intros Hinv Hr He. unfold swap. case_decide as Hc; [|by apply at_pc_inv].
  destruct Hc as [_ Hc]. destruct (He Hc) as (? & ? & ?). apply finish_inv; try done; by rewrite Hc.
Qed.

Lemma limited_inv p t price s : bucket_inv p s → bucket_inv p (finish t (Limited price) s).
Proof.
  intros Hinv. pose proof (finish_inv p t (Limited price) (tokens_left (bucket s)) s Hinv eq_refl (b_u64 p s Hinv)) as H.
  destruct s as [[tokens prices] ts es]. cbn in *. apply H. lia.
Qed.

Lemma bucket_step_inv p t a s s' :
  bucket_params_ok p → bucket_inv p s → bucket_step p t a s = Some s' → bucket_inv p s'.
Proof.
  intros [_ Hstep] Hinv. unfold bucket_step.
  destruct (bthreads s !! t) as [pc|] eqn:Ht; [|done]. cbn [mbind option_bind].
  pose proof (b_pcs p s Hinv) as Hpc. rewrite Forall_lookup in Hpc. specialize (Hpc t pc Ht).
  pose proof (b_u64 p s Hinv) as Hu.
  destruct pc, a; try done; cbn [bpc_ok] in Hpc; intros Hs.
  - injection Hs as <-. by apply at_pc_inv.
  - case_decide; [|done]. injection Hs as <-. by apply at_pc_inv.
  - injection Hs as <-. by apply at_pc_inv.
  - injection Hs as <-. by destruct Hinv; split.
  - repeat case_decide; try done; injection Hs as <-; try (by apply limited_inv).
    apply at_pc_inv; [cbn; lia|done].
  - injection Hs as <-. apply swap_inv; [done..|]. intros Hc. unfold apply_effect.
    rewrite decide_True by done. split_and!; [done|ulia|ulia].
  - injection Hs as <-. by apply at_pc_inv.
  - injection Hs as <-. apply swap_inv; [done..|]. intros Hc. split_and!; [done|ulia|ulia].
  - injection Hs as <-. by apply at_pc_inv.
  - injection Hs as <-. apply swap_inv; [done..|]. intros Hc. split_and!; [done|ulia|ulia].
Qed.

Lemma bucket_reachable_inv p s : bucket_params_ok p → bucket_reachable p s → bucket_inv p s.
Proof.
  intros Hp. induction 1 as [n|s t a s' _ IH Hs]; [|by eapply bucket_step_inv].
  split; cbn; [|done|apply Hp|lia].
  apply Forall_lookup. by intros i pc [-> _]%lookup_replicate.
Qed.

(** C40: the bucket is linearizable and never hands out tokens it has not got.
    Whatever the interleaving, the spurious failures and the draws, the balance
    is the one a sequential bucket has after the same effects in the same
    order: every acquisition got at least the price it saw and at most the
    balance, no balance under- or overflows, and the tokens handed out are at
    most the initial ones and those supplied since. *)
Theorem bucket_linearizable p s :
  bucket_params_ok p → bucket_reachable p s →
  apply_effects p (tokens_left_init p) (effects s) = Some (tokens_left (bucket s)) ∧
  is_u64 (tokens_left (bucket s)) ∧
  (acquired (effects s) + tokens_left (bucket s) ≤ tokens_left_init p + supplied p (effects s))%Z.
Proof. intros Hp Hr. by destruct (bucket_reachable_inv p s Hp Hr). Qed.

Fixpoint bucket_exec (p : RajomonParams) (sched : list (nat * baction)) (s : system) : option system :=
  match sched with
  | [] => Some s
  | (t, a) :: sched => s' ← bucket_step p t a s; bucket_exec p sched s'
  end.

Lemma bucket_exec_reachable p sched s s' :
  bucket_reachable p s → bucket_exec p sched s = Some s' → bucket_reachable p s'.
Proof.
  revert s. induction sched as [|[t a] sched IH]; intros s Hr; cbn [bucket_exec]; [by intros [= <-]|].
  intros (s1 & Hs & He)%bind_Some. eapply IH; [|done]. by eapply bucket_next.
Qed.

(** Two threads load the same balance of ten; the second swap fails and the
    thread draws again. *)
Lemma bucket_linearizable_witness :
  let m := demo_method "get" in
  ∃ s, bucket_reachable default_params s ∧
    effects s = [Acquired 0 6; Acquired 0 3] ∧ tokens_left (bucket s) = 1%Z ∧
    (acquired (effects s) + tokens_left (bucket s) ≤ 10 + supplied default_params (effects s))%Z.
Proof.
  intros m.
  destruct (bucket_exec default_params
    [(0, CallAcquire m); (1, CallAcquire m); (0, LoadDraw 6); (1, LoadDraw 5); (0, Swap false);
     (1, Swap false); (1, LoadDraw 3); (1, Swap true); (1, LoadDraw 3); (1, Swap false)]
    (MkSystem (bucket_new default_params) (replicate 2 BIdle) [])) as [s|] eqn:Hs; [|by vm_compute in Hs].
  assert (bucket_reachable default_params s) as Hr
    by (eapply bucket_exec_reachable; [apply bucket_start|exact Hs]).
  exists s. split; [done|].
  destruct (bucket_linearizable default_params s) as (_ & _ & Hle); [split; decided|done|].
  split_and!; [by vm_compute in Hs; injection Hs as <-..|exact Hle].
Defined.
