(* ===== verification/PaperRajomon.v ===== *)
(** The alternative policy of libs/rajomon/src/paper.rs: one controller per
    server, one price per interface, the same tokens forwarded to every child.
    The wire data is that of [Rajomon]; the controller's mutex makes each of its
    operations one step. The client's token bucket is [TokenBucket]. *)
From S2P Require Export TokenBucket Rajomon.

Record Interface := MkInterface {
  own : Z;
  queue_max_us : Z;
  children : gmap CowGrpcMethod Z;
}.

Definition interface_default : Interface := MkInterface 0 0 ∅.

(** [values().copied().max().unwrap_or(0)], on [u64]s. *)
Definition max_child (i : Interface) : Z := map_fold (λ _ v m, Z.max v m) 0%Z (children i).

Definition interface_total (i : Interface) : Z := own i +s max_child i.

(** The map behind the mutex. *)
Notation Controller := (gmap CowGrpcMethod Interface).

Section controller.
  Context (p : RajomonParams).

Definition total (method : CowGrpcMethod) (self : Controller) : Z * Controller :=
  let i := default (MkInterface (init_price p) 0 ∅) (self !! method) in
  (interface_total i, <[method := i]> self).

Definition observe (method : CowGrpcMethod) (queue_us : Z) (self : Controller) : Controller :=
  let i := default interface_default (self !! method) in
  <[method := MkInterface (own i) (Z.max (queue_max_us i) queue_us) (children i)]> self.

Definition learn (parent child : CowGrpcMethod) (price : Z) (self : Controller) : Controller :=
  let i := default interface_default (self !! parent) in
  <[parent := MkInterface (own i) (queue_max_us i) (<[child := price]> (children i))]> self.

(** [clamp(1, u64::MAX as u128) as u64] of the [u128] product. *)
Definition tick_interface (i : Interface) : Interface :=
  let queue := queue_max_us i in
  let threshold := latency_threshold_us p in
  if decide (threshold < queue)%Z then
    let increase := Z.max 1 (Z.min u64_max ((queue - threshold) * price_step_up p mod (u128_max + 1) / 1000)) in
    MkInterface (own i +s increase) 0 (children i)
  else if decide (queue * 2 < threshold)%Z then MkInterface (own i -s 1) 0 (children i)
  else MkInterface (own i) 0 (children i).

Definition tick (self : Controller) : Controller := tick_interface <$> self.

End controller.

(** ** The module *)

Section paper.
  Context {E : Base64Engine} {B : Bincode RajomonWire}.
  Context {Response Status : Type} (resource_exhausted invalid_argument internal : bytes → Status).
  Context (p : RajomonParams).

Notation Reply := (result Response Status).

Record PaperRajomonModule := MkPaper {
  p_method : CowGrpcMethod;
  p_tokens : result Z Status;
  admitted : bool;
}.

(** [provided] is what the request's metadata holds; [acquire] what the token
    bucket answers when it holds nothing. *)
Definition paper_before_root_rpc {M} `{Metadata M} (request : M) (acquire : option Z) (wire : WireOut)
    : outcome (WireOut * result unit Status) :=
  provided ← match from_metadata request with
             | Err err => Ret (Err err)
             | Ok w => Codec.get (W:=RajomonWire) w NAME
             end;
  match provided with
  | Err err => Ret (wire, Err (invalid_argument (wire_error_text err)))
  | Ok provided =>
      match (match provided with Some w => Some (tokens w) | None => acquire end) with
      | None => Ret (wire, Err (resource_exhausted (bytes_of_string "Rajomon root rate limit")))
      | Some tokens =>
          r ← put wire NAME (wire_request tokens);
          Ret (match r with
               | Ok wire => (wire, Ok tt)
               | Err err => (wire, Err (internal (wire_error_text err)))
               end)
      end
  end.

Definition paper_after_root_rpc (method : CowGrpcMethod) (o : @ChildOutcome Response Status) (wire : WireIn)
    (b : ClientTokenBucket) : outcome (ClientTokenBucket * result unit Status) :=
  match sent o with
  | None => Ret (b, Ok tt)
  | Some _ =>
      r ← Codec.get (W:=RajomonWire) wire NAME;
      Ret (match r with
           | Err err => (b, Err (internal (wire_error_text err)))
           | Ok w => (match w ≫= price with Some price => update_price method price b | None => b end, Ok tt)
           end)
  end.

Definition paper_new (method : CowGrpcMethod) (wire : WireIn) (server : Controller)
    : outcome (PaperRajomonModule * Controller) :=
  r ← Codec.get (W:=RajomonWire) wire NAME;
  let toks :=
    match r with
    | Err err => Err (invalid_argument (wire_error_text err))
    | Ok None => Err (invalid_argument (bytes_of_string "missing Rajomon tokens"))
    | Ok (Some w) => Ok (tokens w)
    end in
  let '(price, server) := total p method server in
  let adm := match toks with Ok t => bool_decide (price ≤ t)%Z | Err _ => false end in
  Ret (MkPaper method toks adm, server).

Definition paper_before_poll (self : PaperRajomonModule) (queue : Z) (server : Controller)
    : Controller * result unit Reply :=
  let server := observe (p_method self) queue server in
  match p_tokens self with
  | Err status => (server, Err (Err status))
  | Ok _ =>
      if admitted self then (server, Ok tt)
      else (server, Err (Err (resource_exhausted (bytes_of_string "Rajomon admission"))))
  end.

Definition paper_before_child_rpc (self : PaperRajomonModule) (wire : WireOut)
    : outcome (WireOut * result unit Status) :=
  if admitted self then
    match p_tokens self with
    | Err status => Ret (wire, Err status)
    | Ok tokens =>
        r ← put wire NAME (wire_request tokens);
        Ret (match r with
             | Ok wire => (wire, Ok tt)
             | Err err => (wire, Err (internal (wire_error_text err)))
             end)
    end
  else Ret (wire, Err (resource_exhausted (bytes_of_string "Rajomon admission"))).

Definition paper_after_child_rpc (self : PaperRajomonModule) (method : CowGrpcMethod)
    (o : @ChildOutcome Response Status) (wire : WireIn) (server : Controller)
    : outcome (Controller * result unit Status) :=
  match sent o with
  | None => Ret (server, Ok tt)
  | Some _ =>
      r ← Codec.get (W:=RajomonWire) wire NAME;
      Ret (match r with
           | Err err => (server, Err (internal (wire_error_text err)))
           | Ok w =>
               (match w ≫= price with
                | Some price => learn (p_method self) method price server
                | None => server
                end, Ok tt)
           end)
  end.

(** [draw] is the number drawn from [0..price_freq]. *)
Definition paper_finalize (self : PaperRajomonModule) (draw : Z) (wire : WireOut) (server : Controller)
    : outcome (WireOut * Controller) :=
  let '(pr, server) :=
    if decide (0 < price_freq p ∧ draw = 0)%Z
    then let '(t, server) := total p (p_method self) server in (Some t, server)
    else (None, server) in
  r ← put wire NAME (MkWire (match p_tokens self with Ok t => t | Err _ => 0%Z end) pr);
  wire ← expect r;
  Ret (wire, server).

(** A request going down a chain of services: at each its module is made, polled
    and calls the next one. The modules, and whether the last one was reached
    and admitted. *)
Fixpoint descend (wire : WireIn) (hops : list (CowGrpcMethod * Controller))
    : outcome (list PaperRajomonModule * bool) :=
  match hops with
  | [] => Ret ([], true)
  | (method, server) :: hops =>
      '(m, server) ← paper_new method wire server;
      match (paper_before_poll m 0 server).2 with
      | Err _ => Ret ([m], false)
      | Ok _ =>
          '(out, r) ← paper_before_child_rpc m wire_out_new;
          match r with
          | Err _ => Ret ([m], false)
          | Ok _ =>
              '(ms, ok) ← descend (MkWireIn (header out)) hops;
              Ret (m :: ms, ok)
          end
      end
  end.
End paper.

(** ** One interface at a time *)

(** What requests and the worker do to a controller. *)
Inductive controller_op :=
| NewRequest (method : CowGrpcMethod)
| ObserveQueue (method : CowGrpcMethod) (queue_us : Z)
| LearnPrice (method child : CowGrpcMethod) (price : Z)
| TickAll.

Definition controller_step (p : RajomonParams) (c : Controller) (o : controller_op) : Controller :=
  match o with
  | NewRequest m => (total p m c).2
  | ObserveQueue m q => observe m q c
  | LearnPrice m child price => learn m child price c
  | TickAll => tick p c
  end.

Definition about (m : CowGrpcMethod) (o : controller_op) : Prop :=
  match o with
  | NewRequest m' | ObserveQueue m' _ | LearnPrice m' _ _ => m' = m
  | TickAll => True
  end.

#[export] Instance about_dec m o : Decision (about m o).
Proof. unfold about. destruct o; apply _. Defined.

Definition controller_op_ok (o : controller_op) : Prop :=
  match o with ObserveQueue _ q => is_u64 q | LearnPrice _ _ v => is_u64 v | _ => True end.

(** The specification: one interface, its price in exact arithmetic. *)
Definition interface_step (p : RajomonParams) (i : option Interface) (o : controller_op) : option Interface :=
  match o with
  | NewRequest _ => Some (default (MkInterface (init_price p) 0 ∅) i)
  | ObserveQueue _ q =>
      let i := default interface_default i in
      Some (MkInterface (own i) (Z.max (queue_max_us i) q) (children i))
  | LearnPrice _ child price =>
      let i := default interface_default i in
      Some (MkInterface (own i) (queue_max_us i) (<[child := price]> (children i)))
  | TickAll =>
      (λ i, MkInterface
         (if decide (latency_threshold_us p < queue_max_us i)%Z then
            Z.min u64_max (own i + Z.max 1 ((queue_max_us i - latency_threshold_us p) * price_step_up p / 1000))
          else if decide (2 * queue_max_us i < latency_threshold_us p)%Z then Z.max 0 (own i - 1)
          else own i)
         0 (children i)) <$> i
  end.

Definition interface_ok (i : Interface) : Prop :=
  is_u64 (own i) ∧ is_u64 (queue_max_us i) ∧ map_Forall (λ _ v, is_u64 v) (children i).

Definition option_ok (i : option Interface) : Prop :=
  match i with Some i => interface_ok i | None => True end.

Lemma tick_interface_eq p i :
  params_ok p → interface_ok i → Some (tick_interface p i) = interface_step p (Some i) TickAll.
Proof.
  intros (HT & Hs & _) (Ho & Hq & _). cbn. unfold tick_interface.
  case_decide as Hgt; [|rewrite (Z.mul_comm (queue_max_us i) 2); by repeat case_decide].
  rewrite Z.mod_small by (unfold is_u64, u64_max, u128_max in *; nia). unfold sat_add. do 2 f_equal. ulia.
Qed.

Lemma interface_step_ok p i o :
  params_ok p → option_ok i → controller_op_ok o → option_ok (interface_step p i o).
Proof.
  intros (_ & _ & Hi) Hok Ho.
  assert (interface_ok (default interface_default i)) as (Hown & Hq & Hc)
    by (destruct i; [done|]; split_and!; [done|done|apply map_Forall_empty]).
  destruct o as [m|m q|m child v|]; cbn [interface_step option_ok controller_op_ok] in *.
  - destruct i; [done|]. split_and!; [done|done|apply map_Forall_empty].
  - split_and!; cbn; [done|ulia|done].
  - split_and!; cbn; [done|done|by apply map_Forall_insert_2].
  - destruct i as [i|]; [|done]. destruct Hok as (Ho1 & Hq1 & Hc1). cbn. split_and!; cbn; [|done|done].
    repeat case_decide; ulia.
Qed.

Lemma controller_step_lookup p c o m :
  params_ok p → option_ok (c !! m) →
  controller_step p c o !! m = if decide (about m o) then interface_step p (c !! m) o else c !! m.
Proof.
  intros Hp Hok.
  assert (∀ m' i, (<[m' := i]> c : Controller) !! m = if decide (m' = m) then Some i else c !! m) as Hins.
  { intros m' i. case_decide as Hm; [by rewrite Hm, lookup_insert_eq|by rewrite lookup_insert_ne]. }
  destruct o as [m'|m' q|m' child v|]; cbn [controller_step total snd].
  - rewrite Hins. repeat case_decide; by subst.
  - unfold observe. rewrite Hins. repeat case_decide; by subst.
  - unfold learn. rewrite Hins. repeat case_decide; by subst.
  - rewrite decide_True by done. unfold tick. rewrite lookup_fmap.
    destruct (c !! m) as [i|]; [|done]. by apply tick_interface_eq.
Qed.

(** A controller is one independent price controller per interface. Over
    any sequence of requests, observations, learned prices and ticks, the state
    of an interface is the one its own operations give it, in exact saturating
    arithmetic, whatever happens at the others. *)
Theorem controller_refines p ops m :
  params_ok p → Forall controller_op_ok ops →
  let self := foldl (controller_step p) ∅ ops in
  self !! m = foldl (interface_step p) None (filter (about m) ops) ∧
  match self !! m with
  | Some i => ((total p m self).1 = Z.min u64_max (own i + max_child i) ∧ is_u64 (own i))%Z
  | None => True
  end.
Proof.
  intros Hp Hops self.
  assert (self !! m = foldl (interface_step p) None (filter (about m) ops) ∧ option_ok (self !! m)) as [Heq Hok].
  { unfold self. clear self. induction ops as [|o ops IH] using rev_ind; [done|].
    apply Forall_app in Hops as [Hops [Ho _]%Forall_cons]. destruct (IH Hops) as [Heq Hok].
    rewrite foldl_app, filter_app. cbn [foldl]. rewrite controller_step_lookup by done. case_decide as Ha.
    - rewrite filter_cons_True, foldl_app, <-Heq by done. cbn [foldl filter list_filter].
      split; [done|]. by apply interface_step_ok.
    - rewrite filter_cons_False by done. by rewrite app_nil_r. }
  split; [done|]. destruct (self !! m) as [i|] eqn:Hi; [|done]. unfold total. rewrite Hi. by destruct Hok.
Qed.

Lemma controller_refines_witness :
  let a := demo_method "a" in let b := demo_method "b" in
  let ops := [NewRequest a; NewRequest b; ObserveQueue a 6000; LearnPrice a b 5; TickAll; TickAll] in
  let self := foldl (controller_step default_params) ∅ ops in
  (total default_params a self).1 = 12%Z ∧ (total default_params b self).1 = 0%Z ∧
  self !! b = foldl (interface_step default_params) None [NewRequest b; TickAll; TickAll].
Proof.
  intros a b ops self. split; [by vm_compute|]. split; [by vm_compute|].
  destruct (controller_refines default_params ops b) as [Heq _].
  - apply default_params_ok.
  - repeat constructor; unfold u64_max; cbn; lia.
  - fold self in Heq. rewrite Heq. by vm_compute.
Defined.

(** ** A request's way down *)

Section descent.
  Context {E : Base64Engine} {EL : Base64Laws E}.
  Context {B : Bincode RajomonWire} {BL : RajomonWireLaws}.
  Context {Response Status : Type} (resource_exhausted invalid_argument internal : bytes → Status).
  Context (p : RajomonParams).

(** A request keeps its tokens all the way down. Along a chain of services
    of any depth every module holds exactly the tokens the request came with,
    and the request is admitted by all of them exactly when the tokens cover
    the price of every interface on the way. *)
Theorem holdings_identical wire w hops :
  Codec.get (W:=RajomonWire) wire NAME = Ret (Ok (Some w)) → is_u64 (tokens w) →
  ∃ ms ok, descend (Response:=Response) resource_exhausted invalid_argument internal p wire hops = Ret (ms, ok) ∧
    Forall (λ m, p_tokens m = Ok (tokens w)) ms ∧
    (p_method <$> ms) `prefix_of` hops.*1 ∧
    (ok = true ↔ Forall (λ h, (total p h.1 h.2).1 ≤ tokens w)%Z hops) ∧
    (ok = true → length ms = length hops).
Proof.
  intros Hw Ht. revert wire w Hw Ht. induction hops as [|[m server] hops IH]; intros wire w Hw Ht.
  { exists [], true. split_and!; [done|done|done|done|done]. }
  cbn [descend]. unfold paper_new. rewrite Hw. cbn [mbind outcome_bind].
  destruct (total p m server) as [price server'] eqn:Htot. cbn [mbind outcome_bind].
  unfold paper_before_poll. cbn [p_tokens admitted p_method].
  destruct (decide (price ≤ tokens w)%Z) as [Hle|Hgt].
  - rewrite bool_decide_true by done. cbn [snd]. unfold paper_before_child_rpc. cbn [p_tokens admitted].
    destruct (put_wire wire_out_new (wire_request (tokens w))) as (payload & _ & -> & Hget); [by split|].
    cbn [mbind outcome_bind]. destruct (IH _ _ Hget Ht) as (ms & ok & -> & Hall & Hpre & Hok & Hlen).
    cbn [mbind outcome_bind]. exists (MkPaper m (Ok (tokens w)) true :: ms), ok. split_and!; [done|by constructor| | |].
    + by apply prefix_cons.
    + rewrite Forall_cons, Hok. cbn [fst snd]. rewrite Htot. naive_solver.
    + intros Hoks. cbn. by rewrite Hlen.
  - rewrite bool_decide_false by done. cbn [snd]. eexists _, false. split_and!; [done| | | |done].
    + by repeat constructor.
    + by apply prefix_cons, prefix_nil.
    + rewrite Forall_cons. cbn [fst snd]. rewrite Htot. split; [done|]. intros [? _]. done.
Qed.
End descent.

#[local] Existing Instance reference_engine.
#[local] Existing Instance reference_laws.
#[local] Existing Instance rajomon_bincode.
#[local] Existing Instance rajomon_bincode_wire_laws.

(** 20 tokens pass prices 3 and 20 but not 21. *)
Lemma holdings_identical_witness :
  let at_price n := {[ demo_method "a" := MkInterface n 0 ∅ ]} : Controller in
  let wire := match put wire_out_new NAME (wire_request 20) with
              | Ret (Ok out) => MkWireIn (header out) | _ => wire_in_default end in
  let run hops := descend (Response:=unit) (λ b : bytes, b) (λ b, b) (λ b, b) default_params wire hops in
  ∃ ms ms', run ((λ n, (demo_method "a", at_price n)) <$> [3; 20]%Z) = Ret (ms, true) ∧
    run ((λ n, (demo_method "a", at_price n)) <$> [3; 21; 20]%Z) = Ret (ms', false) ∧
    Forall (λ m, p_tokens m = Ok 20%Z) (ms ++ ms').
Proof.
  intros at_price wire run.
  assert (∀ hops, ∃ ms ok, run hops = Ret (ms, ok) ∧ Forall (λ m, p_tokens m = Ok 20%Z) ms ∧
    (ok = true ↔ Forall (λ h, (total default_params h.1 h.2).1 ≤ 20)%Z hops)) as Hrun.
  { intros hops.
    destruct (holdings_identical (Response:=unit) (λ b : bytes, b) (λ b, b) (λ b, b) default_params wire (wire_request 20) hops)
      as (ms & ok & Hr & Ht & _ & Hok & _); [by vm_compute|by split|]. by exists ms, ok. }
  destruct (Hrun ((λ n, (demo_method "a", at_price n)) <$> [3; 20]%Z)) as (ms & ok & Hr & Ht & Hok).
  destruct (Hrun ((λ n, (demo_method "a", at_price n)) <$> [3; 21; 20]%Z)) as (ms' & ok' & Hr' & Ht' & Hok').
  exists ms, ms'. rewrite Forall_app.
  assert (ok = true) as -> by (apply Hok; decided). split; [exact Hr|].
  assert (ok' = false) as ->; [|split; [exact Hr'|by split]].
  destruct ok'; [|reflexivity]. exfalso. specialize (proj1 Hok' eq_refl). clear.
  refine (bool_decide_unpack (¬ _) _). by vm_compute.
Defined.
