(* ===== verification/Registry.v ===== *)
(** The registry of method identifiers of libs/masa-policy/src/registry.rs: one
    process-wide table that any number of threads use at once. A step is one
    atomic action of one thread: a critical section that only reads, the draw of
    the next identifier, one insertion. The table of methods and the table of
    services have a lock each, and the two functions that register differ in the
    table and in the name they record; they are one definition over [rkey]. *)
From S2P Require Export Hooks.

Notation MethodId := Z.

(** What an identifier is asked for: a method, or a whole service. *)
Inductive rkey := ForMethod (key : CowGrpcMethod) | ForService (service : bytes).

#[export] Instance rkey_eq_dec : EqDecision rkey.
Proof. solve_decision. Defined.

(** What [id_map] records for an identifier. *)
Definition name_of (k : rkey) : CowGrpcMethod :=
  match k with
  | ForMethod key => key
  | ForService service => MkCow service (bytes_of_string "*")
  end.

(** What follows a registration: the return, or the other half of
    [get_or_register_with_service]. *)
Inductive after :=
| Finish
| ThenMethod (key : CowGrpcMethod)
| PairWith (service_id : MethodId).

(** Where a thread is: before the fast path, before the slow path, holding the
    lock after the second look, holding it with an identifier drawn, and holding
    it with the identifier in the table but not in [id_map]. *)
Inductive pc :=
| Idle
| Fast (k : rkey) (c : after)
| Slow (k : rkey) (c : after)
| Draw (k : rkey) (c : after)
| Insert (k : rkey) (id : MethodId) (c : after)
| Name (k : rkey) (id : MethodId) (c : after).

(** What a call returned. *)
Inductive event :=
| Registered (k : rkey) (id : MethodId)
| RegisteredPair (key : CowGrpcMethod) (method_id service_id : MethodId)
| Named (id : MethodId) (name : option CowGrpcMethod).

(** The registry, its locks with the threads that hold them, the threads, and
    what the calls returned so far, latest first. *)
Record registry := MkRegistry {
  reg_map : gmap CowGrpcMethod MethodId;
  service_map : gmap bytes MethodId;
  id_map : gmap MethodId CowGrpcMethod;
  next_id : Z;
  map_lock : option nat;
  service_lock : option nat;
  threads : list pc;
  log : list event;
}.

Definition registry_new (num_threads : nat) : registry :=
  MkRegistry ∅ ∅ ∅ 1 None None (replicate num_threads Idle) [].

(** The table and the lock a key belongs to. *)
Definition lookup_in (methods : gmap CowGrpcMethod MethodId) (services : gmap bytes MethodId) (k : rkey)
    : option MethodId :=
  match k with ForMethod key => methods !! key | ForService service => services !! service end.

Definition table (s : registry) (k : rkey) : option MethodId :=
  lookup_in (reg_map s) (service_map s) k.

Definition is_service (k : rkey) : bool := if k is ForService _ then true else false.

Definition lock_of (b : bool) (s : registry) : option nat :=
  if b then service_lock s else map_lock s.

Definition goto (t : nat) (p : pc) (s : registry) : registry :=
  MkRegistry (reg_map s) (service_map s) (id_map s) (next_id s) (map_lock s) (service_lock s)
    (<[t := p]> (threads s)) (log s).

Definition set_lock (b : bool) (o : option nat) (s : registry) : registry :=
  MkRegistry (reg_map s) (service_map s) (id_map s) (next_id s)
    (if b then map_lock s else o) (if b then o else service_lock s) (threads s) (log s).

Definition table_insert (k : rkey) (id : MethodId) (s : registry) : registry :=
  MkRegistry
    (if k is ForMethod key then <[key := id]> (reg_map s) else reg_map s)
    (if k is ForService service then <[service := id]> (service_map s) else service_map s)
    (id_map s) (next_id s) (map_lock s) (service_lock s) (threads s) (log s).

Definition id_map_insert (id : MethodId) (name : CowGrpcMethod) (s : registry) : registry :=
  MkRegistry (reg_map s) (service_map s) (<[id := name]> (id_map s)) (next_id s)
    (map_lock s) (service_lock s) (threads s) (log s).

Definition set_next (next : Z) (s : registry) : registry :=
  MkRegistry (reg_map s) (service_map s) (id_map s) next (map_lock s) (service_lock s) (threads s) (log s).

Definition emit (e : event) (s : registry) : registry :=
  MkRegistry (reg_map s) (service_map s) (id_map s) (next_id s) (map_lock s) (service_lock s)
    (threads s) (e :: log s).

(** A registration of [k] gives [id]: the call returns, or goes on. *)
Definition got (t : nat) (k : rkey) (id : MethodId) (c : after) (s : registry) : registry :=
  match c with
  | Finish => emit (Registered k id) (goto t Idle s)
  | ThenMethod key => goto t (Fast (ForMethod key) (PairWith id)) s
  | PairWith service_id => emit (RegisteredPair (name_of k) id service_id) (goto t Idle s)
  end.

(** What a scheduler chooses: the call an idle thread makes, or just the
    thread's next action. *)
Inductive action :=
| GetOrRegister (key : CowGrpcMethod)
| GetOrRegisterService (service : bytes)
| GetOrRegisterWithService (key : CowGrpcMethod)
| GetMethodName (id : MethodId)
| Run.

(** The next action of thread [t]; [None] while it waits for a lock. *)
Definition step (t : nat) (a : action) (s : registry) : option registry :=
  p ← threads s !! t;
  match p, a with
  | Idle, GetOrRegister key => Some (goto t (Fast (ForMethod key) Finish) s)
  | Idle, GetOrRegisterService service => Some (goto t (Fast (ForService service) Finish) s)
  | Idle, GetOrRegisterWithService key =>
      Some (goto t (Fast (ForService (cow_service key)) (ThenMethod key)) s)
  | Idle, GetMethodName id => Some (emit (Named id (id_map s !! id)) s)
  | Fast k c, Run =>
      match lock_of (is_service k) s with
      | Some _ => None
      | None =>
          match table s k with
          | Some id => Some (got t k id c s)
          | None => Some (goto t (Slow k c) s)
          end
      end
  | Slow k c, Run =>
      match lock_of (is_service k) s with
      | Some _ => None
      | None =>
          match table s k with
          | Some id => Some (got t k id c s)
          | None => Some (goto t (Draw k c) (set_lock (is_service k) (Some t) s))
          end
      end
  | Draw k c, Run =>
      Some (goto t (Insert k (next_id s) c) (set_next (wrap64 (next_id s + 1)) s))
  | Insert k id c, Run => Some (goto t (Name k id c) (table_insert k id s))
  | Name k id c, Run =>
      Some (got t k id c (set_lock (is_service k) None (id_map_insert id (name_of k) s)))
  | _, _ => None
  end.

(** Any interleaving: the scheduler's choices in order. *)
Fixpoint run (choices : list (nat * action)) (s : registry) : option registry :=
  match choices with
  | [] => Some s
  | (t, a) :: choices => s' ← step t a s; run choices s'
  end.

(** ** The invariant *)

(** The lock a thread holds. *)
Definition holds (p : pc) : option bool :=
  match p with
  | Draw k _ | Insert k _ _ | Name k _ _ => Some (is_service k)
  | _ => None
  end.

(** A key registered for good. *)
Definition known (s : registry) (k : rkey) (id : MethodId) : Prop :=
  table s k = Some id ∧ id_map s !! id = Some (name_of k).

Definition cont_ok (s : registry) (k : rkey) (c : after) : Prop :=
  match c with
  | Finish => True
  | ThenMethod key => k = ForService (cow_service key)
  | PairWith sid => ∃ key, k = ForMethod key ∧ known s (ForService (cow_service key)) sid
  end.

Definition pc_ok (s : registry) (p : pc) : Prop :=
  match p with
  | Idle => True
  | Fast k c | Slow k c => cont_ok s k c
  | Draw k c => cont_ok s k c ∧ table s k = None
  | Insert k id c =>
      cont_ok s k c ∧ table s k = None ∧ (1 ≤ id < next_id s)%Z ∧ ∀ k', table s k' ≠ Some id
  | Name k id c => cont_ok s k c ∧ table s k = Some id
  end.

(** The identifiers an event tells its caller. *)
Definition registrations (e : event) : list (rkey * MethodId) :=
  match e with
  | Registered k id => [(k, id)]
  | RegisteredPair key m sid => [(ForMethod key, m); (ForService (cow_service key), sid)]
  | Named _ _ => []
  end.

Definition event_ok (s : registry) (e : event) : Prop :=
  (∀ k id, (k, id) ∈ registrations e → known s k id) ∧
  (∀ id m, e = Named id (Some m) → id_map s !! id = Some m).

(** A lookup of an identifier that an earlier call returned finds its name. *)
Fixpoint chronological (l : list event) : Prop :=
  match l with
  | [] => True
  | e :: older =>
      (∀ id r k, e = Named id r → (k, id) ∈ older ≫= registrations → r = Some (name_of k)) ∧
      chronological older
  end.

Record inv (s : registry) : Prop := {
  inv_locks : ∀ b t, lock_of b s = Some t ↔ ∃ p, threads s !! t = Some p ∧ holds p = Some b;
  inv_bound : ∀ k id, table s k = Some id → (1 ≤ id < next_id s)%Z;
  inv_inj : ∀ k k' id, table s k = Some id → table s k' = Some id → k = k';
  inv_pcs : ∀ t p, threads s !! t = Some p → pc_ok s p;
  inv_pending : ∀ t t' k k' id c c', threads s !! t = Some (Insert k id c) →
    threads s !! t' = Some (Insert k' id c') → t = t';
  inv_names : ∀ id n, id_map s !! id = Some n → ∃ k, table s k = Some id ∧ n = name_of k;
  inv_named : ∀ k id, table s k = Some id →
    id_map s !! id = Some (name_of k) ∨ ∃ t c, threads s !! t = Some (Name k id c);
  inv_events : ∀ e, e ∈ log s → event_ok s e;
  inv_log : chronological (log s);
  inv_next : (1 ≤ next_id s)%Z;
}.

Lemma inv_new n : inv (registry_new n).
Proof.
  assert (Ht : ∀ t p, replicate n Idle !! t = Some p → p = Idle)
    by (intros t p Hp; by apply lookup_replicate in Hp as [-> _]).
  split; cbn; try done.
  - intros [] t; split; try done; intros (p & Hp%Ht & Hh); by subst.
  - intros [] id; cbn; by rewrite lookup_empty.
  - intros [] k' id; cbn; by rewrite lookup_empty.
  - intros t p Hp%Ht. by subst.
  - intros t t' k k' id c c' Hp%Ht. done.
  - intros [] id; cbn; by rewrite lookup_empty.
  - intros e He. by apply not_elem_of_nil in He.
Qed.

(** The threads after one of them moved. *)
Lemma goto_threads t p s t' p' :
  threads (goto t p s) !! t' = Some p' →
  (t' = t ∧ p' = p) ∨ (t' ≠ t ∧ threads s !! t' = Some p').
Proof.
  cbn. intros H. apply list_lookup_insert_Some in H as [(-> & -> & _)|[Hne H]]; [by left|right].
  split; [by intros ->|done].
Qed.

Lemma lookup_goto t p s p0 : threads s !! t = Some p0 → threads (goto t p s) !! t = Some p.
Proof. intros H. apply list_lookup_insert_eq. by eapply lookup_lt_Some. Qed.

Lemma lookup_goto_ne t p s t' : t' ≠ t → threads (goto t p s) !! t' = threads s !! t'.
Proof. intros H. apply list_lookup_insert_ne. congruence. Qed.

Lemma goto_goto t p q s : goto t p (goto t q s) = goto t p s.
Proof. unfold goto; cbn. by rewrite list_insert_insert_eq. Qed.

Lemma got_goto t k id c q s : got t k id c (goto t q s) = got t k id c s.
Proof. destruct c; cbn [got]; by rewrite goto_goto. Qed.

(** At most one thread is in a critical section of a table. *)
Lemma holds_unique s t t' p p' b :
  inv s → threads s !! t = Some p → threads s !! t' = Some p' →
  holds p = Some b → holds p' = Some b → t = t'.
Proof.
  intros I Ht Ht' Hp Hp'.
  assert (lock_of b s = Some t) as H1 by (apply (inv_locks _ I); eauto).
  assert (lock_of b s = Some t') as H2 by (apply (inv_locks _ I); eauto).
  congruence.
Qed.

(** The threads that hold a lock, when one thread moves and the locks agree
    with what it holds now. *)
Lemma locks_goto s s' t p p' :
  inv s → threads s !! t = Some p → threads s' = <[t := p']> (threads s) →
  (∀ b, lock_of b s' = if decide (holds p' = Some b) then Some t
                       else if decide (holds p = Some b) then None else lock_of b s) →
  (∀ b, holds p' = Some b → holds p = Some b ∨ lock_of b s = None) →
  ∀ b u, lock_of b s' = Some u ↔ ∃ q, threads s' !! u = Some q ∧ holds q = Some b.
Proof.
  intros I Ht Hs' Hlock Hfree b u. rewrite Hlock, Hs'.
  assert (t < length (threads s)) by by eapply lookup_lt_Some.
  destruct (decide (u = t)) as [->|Hne].
  - rewrite list_lookup_insert_eq by done. destruct (decide (holds p' = Some b)) as [Hb|Hb].
    + split; [intros _; eauto|done].
    + destruct (decide (holds p = Some b)) as [Hp|Hp].
      * split; [done|intros (q & [= <-] & ?); done].
      * split; [|intros (q & [= <-] & ?); done].
        intros (q & Hq & Hh)%(inv_locks _ I). congruence.
  - rewrite list_lookup_insert_ne by congruence.
    destruct (decide (holds p' = Some b)) as [Hb|Hb]; [|destruct (decide (holds p = Some b)) as [Hp|Hp]].
    + split; [intros [= ->]; done|]. intros (q & Hq & Hh). destruct (Hfree b Hb) as [Hp|Hn].
      * destruct Hne. by eapply holds_unique.
      * assert (lock_of b s = Some u) by (apply (inv_locks _ I); eauto). congruence.
    + split; [done|]. intros (q & Hq & Hh). destruct Hne. by eapply holds_unique.
    + apply (inv_locks _ I).
Qed.

Lemma inv_goto s t p p' :
  inv s → threads s !! t = Some p → holds p = None → holds p' = None → pc_ok s p' →
  inv (goto t p' s).
Proof.
  intros I Ht Hp Hp' Hok.
  assert (Hold : ∀ u q, threads (goto t p' s) !! u = Some q → holds q ≠ None → threads s !! u = Some q).
  { intros u q [[-> ->]|[_ H]]%goto_threads Hh; [by destruct Hh|done]. }
  split; try apply I.
  - apply (locks_goto s (goto t p' s) t p p' I Ht eq_refl).
    + intros b. rewrite Hp, Hp'. by destruct b.
    + intros b. by rewrite Hp'.
  - intros u q [[-> ->]|[_ H]]%goto_threads; [done|by eapply (inv_pcs _ I)].
  - intros u u' k k' id c c' Hu%Hold Hu'%Hold; [by eapply (inv_pending _ I)|done..].
  - intros k id Hk. destruct (inv_named _ I k id Hk) as [|(u & c & Hu)]; [by left|right].
    exists u, c. rewrite lookup_goto_ne; [done|]. intros ->. rewrite Ht in Hu. by simplify_eq.
Qed.

Lemma inv_emit s e :
  inv s → event_ok s e →
  (∀ id r k, e = Named id r → (k, id) ∈ log s ≫= registrations → r = Some (name_of k)) →
  inv (emit e s).
Proof.
  intros I He Hc. split; try apply I.
  - intros e' [->|H]%elem_of_cons; [done|]. by apply (inv_events _ I).
  - split; [done|apply I].
Qed.

Lemma got_inv s t p k id c :
  inv s → threads s !! t = Some p → holds p = None → cont_ok s k c → known s k id →
  inv (got t k id c s).
Proof.
  intros I Ht Hp Hc Hk. destruct c as [|key|sid]; cbn in *.
  - apply inv_emit; [by eapply inv_goto| |done]. split; [|done].
    intros k' id' [= -> ->]%list_elem_of_singleton. done.
  - eapply inv_goto; try done. exists key. by subst.
  - destruct Hc as (key & -> & Hs). apply inv_emit; [by eapply inv_goto| |done]. split; [|done].
    intros k' id' [[= -> ->]|[= -> ->]%list_elem_of_singleton]%elem_of_cons; done.
Qed.

Lemma registry_acquire s t k c :
  inv s → threads s !! t = Some (Slow k c) → lock_of (is_service k) s = None → table s k = None →
  inv (goto t (Draw k c) (set_lock (is_service k) (Some t) s)).
Proof.
  intros I Ht Hl Hk. set (s' := goto _ _ _).
  split; try apply I.
  - apply (locks_goto s s' t (Slow k c) (Draw k c) I Ht eq_refl).
    + intros b. cbn. by destruct b, (is_service k); cbn in *.
    + intros b [= <-]. by right.
  - intros u q [[-> ->]|[_ H]]%goto_threads; [|by eapply (inv_pcs _ I)].
    split; [|done]. apply (inv_pcs _ I _ _ Ht).
  - intros u u' k1 k2 id c1 c2 [[_ ?]|[_ Hu]]%goto_threads [[_ ?]|[_ Hu']]%goto_threads; try done.
    by eapply (inv_pending _ I).
  - intros k1 id Hk1. destruct (inv_named _ I k1 id Hk1) as [|(u & c1 & Hu)]; [by left|right].
    exists u, c1. unfold s'. rewrite lookup_goto_ne; [done|]. intros ->. rewrite Ht in Hu. by simplify_eq.
Qed.

(** What holds of a thread keeps holding when a fresh identifier is drawn. *)
Lemma inv_draw s t k c :
  inv s → (next_id s < u64_max)%Z → threads s !! t = Some (Draw k c) →
  inv (goto t (Insert k (next_id s) c) (set_next (wrap64 (next_id s + 1)) s)).
Proof.
  intros I Hb Ht. assert (Hn := inv_next _ I).
  rewrite wrap64_small by ulia. set (s' := goto _ _ _).
  assert (Hfresh : ∀ k', table s k' ≠ Some (next_id s))
    by (intros k' Hk'; apply (inv_bound _ I) in Hk'; lia).
  split; try apply I.
  - apply (locks_goto s s' t (Draw k c) (Insert k (next_id s) c) I Ht eq_refl).
    + intros b. cbn. destruct (decide (Some (is_service k) = Some b)) as [[= <-]|]; [|by destruct b].
      cbn. transitivity (lock_of (is_service k) s); [by destruct k|].
      apply (inv_locks _ I). by eauto.
    + intros b [= <-]. by left.
  - intros k' id Hk'. apply (inv_bound _ I) in Hk'. cbn. lia.
  - intros u q [[-> ->]|[_ H]]%goto_threads.
    + destruct (inv_pcs _ I _ _ Ht) as [Hc Hk]. cbn. split_and!; try done; lia.
    + assert (Hq := inv_pcs _ I _ _ H). destruct q; try done.
      destruct Hq as (? & ? & ? & ?). cbn. split_and!; try done; lia.
  - intros u u' k1 k2 id c1 c2 [[-> [= -> -> ->]]|[_ Hu]]%goto_threads
      [[-> Heq]|[_ Hu']]%goto_threads; try done.
    + destruct (inv_pcs _ I _ _ Hu') as (_ & _ & ? & _). lia.
    + simplify_eq. destruct (inv_pcs _ I _ _ Hu) as (_ & _ & ? & _). lia.
    + by eapply (inv_pending _ I).
  - intros k1 id Hk1. destruct (inv_named _ I k1 id Hk1) as [|(u & c1 & Hu)]; [by left|right].
    exists u, c1. unfold s'. rewrite lookup_goto_ne; [done|]. intros ->. rewrite Ht in Hu. by simplify_eq.
  - cbn. lia.
Qed.

Lemma table_insert_lookup k id s k' :
  table (table_insert k id s) k' = if decide (k' = k) then Some id else table s k'.
Proof.
  unfold table, table_insert; cbn. destruct k as [m|sv], k' as [m'|sv']; cbn; try done.
  - destruct (decide (m' = m)) as [->|]; [rewrite lookup_insert_eq, decide_True by done; done|].
    rewrite lookup_insert_ne, decide_False by congruence. done.
  - destruct (decide (sv' = sv)) as [->|]; [rewrite lookup_insert_eq, decide_True by done; done|].
    rewrite lookup_insert_ne, decide_False by congruence. done.
Qed.

(** What was registered, and what continuations and events rely on, survives a
    new registration. *)
Lemma table_insert_mono k id s k' id' :
  table s k = None → table s k' = Some id' → table (table_insert k id s) k' = Some id'.
Proof.
  intros Hk Hk'. rewrite table_insert_lookup. by destruct (decide (k' = k)) as [->|]; [congruence|].
Qed.

Lemma cont_ok_mono s s' k c :
  (∀ k id, known s k id → known s' k id) → cont_ok s k c → cont_ok s' k c.
Proof. intros H. destruct c; try done. intros (key & ? & ?). exists key. auto. Qed.

Lemma event_ok_mono s s' e :
  (∀ k id, known s k id → known s' k id) →
  (∀ id m, id_map s !! id = Some m → id_map s' !! id = Some m) →
  event_ok s e → event_ok s' e.
Proof. intros H H' [? ?]. split; eauto. Qed.

Lemma inv_insert s t k id c :
  inv s → threads s !! t = Some (Insert k id c) →
  inv (goto t (Name k id c) (table_insert k id s)).
Proof.
  intros I Ht. set (s' := goto _ _ _).
  destruct (inv_pcs _ I _ _ Ht) as (Hc & Hk & Hid & Hfresh).
  assert (Htab : ∀ k', table s' k' = if decide (k' = k) then Some id else table s k')
    by apply table_insert_lookup.
  assert (Hmono : ∀ k1 id1, known s k1 id1 → known s' k1 id1)
    by (intros k1 id1 [? ?]; split; [by apply table_insert_mono|done]).
  split; try apply I.
  - apply (locks_goto s s' t _ (Name k id c) I Ht eq_refl).
    + intros b. cbn. destruct (decide (Some (is_service k) = Some b)) as [[= <-]|]; [|done].
      change (lock_of (is_service k) s = Some t). apply (inv_locks _ I). eauto.
    + intros b [= <-]. by left.
  - intros k1 id1. rewrite Htab. destruct (decide (k1 = k)) as [->|]; [by intros [= <-]|].
    apply (inv_bound _ I).
  - intros k1 k2 id1. rewrite !Htab. destruct (decide (k1 = k)) as [->|], (decide (k2 = k)) as [->|].
    + done.
    + intros [= <-] H. by destruct (Hfresh k2).
    + intros H [= <-]. by destruct (Hfresh k1).
    + apply (inv_inj _ I).
  - intros u q [[-> ->]|[Hne H]]%goto_threads.
    + split; [by eapply cont_ok_mono|]. rewrite Htab. by rewrite decide_True.
    + assert (Hq := inv_pcs _ I _ _ H).
      assert (Hother : ∀ k1, holds q = Some (is_service k1) → table s k1 = None → table s' k1 = None).
      { intros k1 Hh Hn. rewrite Htab. destruct (decide (k1 = k)) as [->|]; [|done].
        destruct Hne. by eapply (holds_unique s u t). }
      destruct q as [|k1 c1|k1 c1|k1 c1|k1 id1 c1|k1 id1 c1]; cbn in Hq |- *; try done.
      * by eapply cont_ok_mono.
      * by eapply cont_ok_mono.
      * destruct Hq as [? ?]. split; [by eapply cont_ok_mono|by apply Hother].
      * destruct Hq as (? & ? & ? & Hf). split_and!; [by eapply cont_ok_mono|by apply Hother|lia|lia|].
        intros k2. rewrite Htab. destruct (decide (k2 = k)) as [->|]; [|apply Hf].
        intros [= <-]. destruct Hne. by eapply (inv_pending _ I).
      * destruct Hq as [? ?]. split; [by eapply cont_ok_mono|by apply table_insert_mono].
  - intros u u' k1 k2 id1 c1 c2 [[_ ?]|[_ Hu]]%goto_threads [[_ ?]|[_ Hu']]%goto_threads; try done.
    by eapply (inv_pending _ I).
  - intros id1 n H. destruct (inv_names _ I id1 n H) as (k1 & Hk1 & ->).
    exists k1. split; [|done]. by apply table_insert_mono.
  - intros k1 id1. rewrite Htab. destruct (decide (k1 = k)) as [->|].
    + intros [= <-]. right. exists t, c. by eapply lookup_goto.
    + intros Hk1. destruct (inv_named _ I k1 id1 Hk1) as [|(u & c1 & Hu)]; [by left|right].
      exists u, c1. unfold s'. rewrite lookup_goto_ne; [done|]. intros ->. congruence.
  - intros e He. by eapply event_ok_mono; [exact Hmono| |apply (inv_events _ I)].
Qed.

(** Recording the name makes the key known and frees the lock. *)
Lemma inv_name s t k id c :
  inv s → threads s !! t = Some (Name k id c) →
  let s' := goto t Idle (set_lock (is_service k) None (id_map_insert id (name_of k) s)) in
  inv s' ∧ known s' k id ∧ cont_ok s' k c.
Proof.
  intros I Ht s'. destruct (inv_pcs _ I _ _ Ht) as [Hc Hk].
  assert (Hids : ∀ id1 m, id_map s !! id1 = Some m → id_map s' !! id1 = Some m).
  { intros id1 m H. cbn. destruct (decide (id1 = id)) as [->|]; [|by rewrite lookup_insert_ne].
    destruct (inv_names _ I id m H) as (k1 & Hk1 & ->).
    rewrite (inv_inj _ I k1 k id Hk1 Hk). apply lookup_insert_eq. }
  assert (Hmono : ∀ k1 id1, known s k1 id1 → known s' k1 id1)
    by (intros k1 id1 [? ?]; split; [done|by apply Hids]).
  assert (Hknown : known s' k id) by (split; [done|apply lookup_insert_eq]).
  split; [|split; [done|by eapply cont_ok_mono]].
  split; try apply I.
  - apply (locks_goto s s' t _ Idle I Ht eq_refl); [|done].
    intros b. cbn. by destruct b, (is_service k).
  - intros u q [[-> ->]|[Hne H]]%goto_threads; [done|].
    assert (Hq := inv_pcs _ I _ _ H).
    destruct q; try done; cbn in Hq |- *.
    1, 2: by eapply cont_ok_mono.
    all: destruct Hq as (Hq & Hrest); split; [by eapply cont_ok_mono|exact Hrest].
  - intros u u' k1 k2 id1 c1 c2 [[_ ?]|[_ Hu]]%goto_threads [[_ ?]|[_ Hu']]%goto_threads; try done.
    by eapply (inv_pending _ I).
  - intros id1 n. cbn. destruct (decide (id1 = id)) as [->|].
    + rewrite lookup_insert_eq. intros [= <-]. eauto.
    + rewrite lookup_insert_ne by done. apply (inv_names _ I).
  - intros k1 id1 Hk1. destruct (inv_named _ I k1 id1 Hk1) as [|(u & c1 & Hu)]; [left; by apply Hids|].
    destruct (decide (u = t)) as [->|Hne].
    + left. rewrite Ht in Hu. simplify_eq. apply Hknown.
    + right. exists u, c1. unfold s'. by rewrite lookup_goto_ne.
  - intros e He. by eapply event_ok_mono; [exact Hmono|exact Hids|apply (inv_events _ I)].
Qed.

(** What a free lock lets a reader find is known for good. *)
Lemma table_known s k id :
  inv s → lock_of (is_service k) s = None → table s k = Some id → known s k id.
Proof.
  intros I Hl Hk. split; [done|]. destruct (inv_named _ I k id Hk) as [|(u & c & Hu)]; [done|].
  assert (lock_of (is_service k) s = Some u) by (apply (inv_locks _ I); eauto). congruence.
Qed.

Lemma step_inv t a s s' :
  inv s → (next_id s < u64_max)%Z → step t a s = Some s' → inv s'.
Proof.
  intros I Hb H. unfold step in H. apply bind_Some in H as (p & Ht & H).
  destruct p as [|k c|k c|k c|k id c|k id c], a; try done.
  - simplify_eq. by eapply inv_goto.
  - simplify_eq. by eapply inv_goto.
  - simplify_eq. by eapply inv_goto.
  - simplify_eq. apply inv_emit; [done| |].
    + split; [by intros k id0 Hn%not_elem_of_nil|]. by intros ? ? [= <- ->].
    + intros id' r k [= <- <-] (e & Hin & He)%list_elem_of_bind.
      destruct (inv_events _ I e He) as [Hk _]. apply (Hk k id Hin).
  - destruct (lock_of _ s) eqn:Hl; [done|]. destruct (table s k) eqn:Hk; simplify_eq.
    + eapply got_inv; try done; [apply (inv_pcs _ I _ _ Ht)|by apply table_known].
    + eapply inv_goto; try done. apply (inv_pcs _ I _ _ Ht).
  - destruct (lock_of _ s) eqn:Hl; [done|]. destruct (table s k) eqn:Hk; simplify_eq.
    + eapply got_inv; try done; [apply (inv_pcs _ I _ _ Ht)|by apply table_known].
    + by apply registry_acquire.
  - simplify_eq. by apply inv_draw.
  - simplify_eq. by apply inv_insert.
  - simplify_eq. destruct (inv_name s t k id c I Ht) as (I' & Hk & Hc).
    rewrite <-(got_goto _ _ _ _ Idle).
    eapply (got_inv _ t Idle); try done. by eapply lookup_goto.
Qed.

(** One step draws at most one identifier. *)
Lemma step_next t a s s' :
  inv s → (next_id s < u64_max)%Z → step t a s = Some s' → (next_id s' ≤ next_id s + 1)%Z.
Proof.
  intros I Hb H. assert (Hn := inv_next _ I). unfold step in H. apply bind_Some in H as (p & Ht & H).
  assert (Hgot : ∀ t k id c s0, next_id (got t k id c s0) = next_id s0) by (intros; by destruct c).
  destruct p as [|k c|k c|k c|k id c|k id c], a; try done.
  all: try (destruct (lock_of _ s); [done|]; destruct (table s k)).
  all: simplify_eq; rewrite ?Hgot; cbn; try lia.
  rewrite wrap64_small by ulia. lia.
Qed.

Lemma run_inv choices s s' :
  inv s → (next_id s + Z.of_nat (length choices) ≤ u64_max)%Z → run choices s = Some s' → inv s'.
Proof.
  revert s. induction choices as [|[t a] choices IH]; intros s I Hb H; cbn [run length] in *; [by simplify_eq|].
  apply bind_Some in H as (s1 & H1 & H). assert (Hlt : (next_id s < u64_max)%Z) by lia.
  apply (IH s1); [by eapply step_inv| |done].
  assert (Hs := step_next _ _ _ _ I Hlt H1). lia.
Qed.

(** A thread outside the two waiting points can move; one at them waits for a
    thread that can. *)
Lemma not_stuck s :
  inv s → (∃ t p, threads s !! t = Some p ∧ p ≠ Idle) → ∃ t s', step t Run s = Some s'.
Proof.
  intros I (t & p & Ht & Hp).
  assert (Hholder : ∀ b u, lock_of b s = Some u → ∃ u' s', step u' Run s = Some s').
  { intros b u (q & Hq & Hh)%(inv_locks _ I). exists u. unfold step. rewrite Hq.
    destruct q; try done; cbn; eauto. }
  destruct (lock_of true s) eqn:H1; [by eapply Hholder|].
  destruct (lock_of false s) eqn:H2; [by eapply Hholder|].
  exists t. unfold step. rewrite Ht. destruct p as [|k c|k c|k c|k id c|k id c]; cbn [mbind option_bind]; eauto; [done|..].
  all: destruct (is_service k); rewrite ?H1, ?H2; destruct (table s k); eauto.
Qed.

Lemma chronological_lookup newer e older :
  chronological (newer ++ e :: older) →
  ∀ id r k, e = Named id r → (k, id) ∈ older ≫= registrations → r = Some (name_of k).
Proof. induction newer as [|e' newer IH]; cbn; intros [H1 H2]; [exact H1|by apply IH]. Qed.

(** C20: Under any interleaving of any number of threads, short of handing out
    2^64 identifiers: two registrations return the same identifier exactly when
    they name the same method or the same service, a method never shares one
    with a service; an identifier that a call has returned is found by every
    later lookup, under the name it was registered for; and unless every thread
    is idle some thread can go on. *)
Theorem registry_ids n choices s :
  run choices (registry_new n) = Some s → (Z.of_nat (length choices) < u64_max)%Z →
  (∀ k k' id id', (k, id) ∈ log s ≫= registrations → (k', id') ∈ log s ≫= registrations →
     id = id' ↔ k = k') ∧
  (∀ newer id r older k, log s = newer ++ Named id r :: older → (k, id) ∈ older ≫= registrations →
     r = Some (name_of k)) ∧
  (∀ k id m, (k, id) ∈ log s ≫= registrations → Named id (Some m) ∈ log s → m = name_of k) ∧
  ((∃ t p, threads s !! t = Some p ∧ p ≠ Idle) → ∃ t s', step t Run s = Some s').
Proof.
  intros Hrun Hlen. assert (I : inv s) by (eapply run_inv; [apply inv_new| |done]; cbn; lia).
  assert (Hk : ∀ k id, (k, id) ∈ log s ≫= registrations → known s k id).
  { intros k id (e & Hin & He)%list_elem_of_bind. destruct (inv_events _ I e He) as [H _]. by apply H. }
  split_and!.
  - intros k k' id id' [H _]%Hk [H' _]%Hk. split; [intros ->; by eapply (inv_inj _ I)|intros ->; congruence].
  - intros newer id r older k Hlog Hin. assert (Hc := inv_log _ I). rewrite Hlog in Hc.
    by eapply chronological_lookup.
  - intros k id m [_ H]%Hk Hm. destruct (inv_events _ I _ Hm) as [_ H']. assert (Hx := H' id m eq_refl).
    congruence.
  - by apply not_stuck.
Qed.

(** Two threads register the same method at once while a third registers it
    with its service; then the identifiers are looked up. *)
Definition demo_key : CowGrpcMethod := MkCow (bytes_of_string "geo") (bytes_of_string "Nearby").

Definition demo_choices : list (nat * action) :=
  [(0, GetOrRegister demo_key); (1, GetOrRegister demo_key); (2, GetOrRegisterWithService demo_key);
   (0, Run); (1, Run); (1, Run); (2, Run); (2, Run); (2, Run); (1, Run); (1, Run); (1, Run);
   (2, Run); (2, Run); (2, Run); (0, Run);
   (0, GetMethodName 1); (1, GetMethodName 2); (1, GetMethodName 3)].

Definition demo_log : list event :=
  [Named 3 None; Named 2 (Some demo_key);
   Named 1 (Some (MkCow (bytes_of_string "geo") (bytes_of_string "*")));
   Registered (ForMethod demo_key) 2; RegisteredPair demo_key 2 1; Registered (ForMethod demo_key) 2].

Lemma registry_ids_witness :
  ∃ s, run demo_choices (registry_new 3) = Some s ∧ log s = demo_log ∧
    ∀ k id m, (k, id) ∈ log s ≫= registrations → Named id (Some m) ∈ log s → m = name_of k.
Proof.
  assert (Hlog : log <$> run demo_choices (registry_new 3) = Some demo_log) by (vm_compute; reflexivity).
  destruct (run demo_choices (registry_new 3)) as [s|] eqn:Hrun; [|done].
  exists s. split; [done|]. split; [by injection Hlog|].
  apply (registry_ids 3 demo_choices s Hrun). vm_compute. reflexivity.
Defined.
