(* ===== verification/Fanout.v ===== *)
(** Fan-out aware estimation, libs/masa-policy/src/module/est/fanout.rs: the
    rolling hash of the fan-out groups already seen, the table of group patterns
    with its index, the lookup of the closest compatible patterns, and the
    recovery of the groups of overlapping children. *)
From S2P Require Export Estimators Registry.
From stdpp Require Import sorting.

(** [std::time::Instant] in nanoseconds; [saturating_duration_since] in
    microseconds, as [u64]. *)
Notation Instant := Z.

Definition micros_since (later earlier : Instant) : Z := wrap64 (Z.max 0 (later - earlier) / 1000).

Record ChildRecord := MkChild {
  child_id : MethodId;
  child_service_id : MethodId;
  start : Instant;
  end_ : option Instant;
  terminal : bool;
}.

(** ** The path prefix *)

Record PathPrefix := MkPrefix { prefix_hash : Z; depth : Z }.

Definition ROOT_HASH : Z := 0xcbf29ce484222325.
Definition FNV_PRIME : Z := 0x100000001b3.

Definition prefix_root : PathPrefix := MkPrefix ROOT_HASH 0.

(** [to_le_bytes]. *)
Definition le_bytes (value : Z) : bytes :=
  (λ i, Z.land (Z.shiftr value (8 * Z.of_nat i)) 255) <$> seq 0 8.

(** [StableHasher::write]. *)
Definition hasher_write (hash : Z) (bs : bytes) : Z :=
  foldl (λ h byte, wrap64 (Z.lxor h byte * FNV_PRIME)) hash bs.

(** [mix_u64]; and [stable_hash] of a [MethodId], whose derived [Hash] writes the
    bytes of its integer, least significant first on the machines masa runs on. *)
Definition mix_u64 (hash value : Z) : Z := hasher_write hash (le_bytes value).
Definition stable_hash (id : MethodId) : Z := hasher_write ROOT_HASH (le_bytes id).

Definition u16_max : Z := 65535.

Definition append_signature (self : PathPrefix) (signature : list MethodId) : PathPrefix :=
  let hash := mix_u64 (prefix_hash self) 0xff51afd7ed558ccd in
  let hash := mix_u64 hash (Z.of_nat (length signature)) in
  let hash := foldl (λ h id, mix_u64 h (stable_hash id)) hash signature in
  MkPrefix hash (Z.min u16_max (depth self + 1)).

(** ** Keys *)

Inductive PatternScope := Aggregate | Path (prefix : PathPrefix).

Record GroupPatternKey := MkKey { key_scope : PatternScope; key_signature : list MethodId }.
Record PostingKey := MkPosting { posting_scope : PatternScope; posting_child : MethodId }.

#[export] Instance prefix_eq_dec : EqDecision PathPrefix.
Proof. solve_decision. Defined.
#[export] Instance scope_eq_dec : EqDecision PatternScope.
Proof. solve_decision. Defined.
#[export] Instance scope_countable : Countable PatternScope.
Proof.
  refine (inj_countable'
    (λ s, match s with Aggregate => None | Path p => Some (prefix_hash p, depth p) end)
    (λ o, match o with None => Aggregate | Some q => Path (MkPrefix q.1 q.2) end) _).
  by intros [|[]].
Defined.
#[export] Instance key_eq_dec : EqDecision GroupPatternKey.
Proof. solve_decision. Defined.
#[export] Instance key_countable : Countable GroupPatternKey.
Proof.
  refine (inj_countable' (λ k, (key_scope k, key_signature k)) (λ q, MkKey q.1 q.2) _). by intros [].
Defined.
#[export] Instance posting_eq_dec : EqDecision PostingKey.
Proof. solve_decision. Defined.
#[export] Instance posting_countable : Countable PostingKey.
Proof.
  refine (inj_countable' (λ k, (posting_scope k, posting_child k)) (λ q, MkPosting q.1 q.2) _).
  by intros [].
Defined.

(** ** The pattern table *)

Record AfterChildEstimates := MkEstimates { full : Z; mean : Z; floor : Z }.

Definition no_estimates : AfterChildEstimates := MkEstimates 0 0 0.

(** [is_multiset_subset] of two sorted signatures: the loop over [hay]. *)
Fixpoint subset_loop (needle hay : list MethodId) : bool :=
  match needle, hay with
  | [], _ => true
  | _ :: _, [] => false
  | n :: needle', h :: hay' =>
      match (n ?= h)%Z with
      | Eq => subset_loop needle' hay'
      | Gt => subset_loop needle hay'
      | Lt => false
      end
  end.

Definition is_multiset_subset (needle hay : list MethodId) : bool :=
  if decide (length hay < length needle) then false else subset_loop needle hay.

Section table.
  Context {E : Type} `{Estimator E}.

Record GroupPattern := MkPattern { estimator : E; occurrence_count : Z }.
Record PatternEntry := MkEntry { entry_key : GroupPatternKey; pattern : GroupPattern }.

Record ParentFanoutPatterns := MkPatterns {
  by_key : gmap GroupPatternKey nat;
  entries : list PatternEntry;
  postings : gmap PostingKey (list nat);
}.

Definition patterns_default : ParentFanoutPatterns := MkPatterns ∅ [] ∅.

(** [index_group_pattern]: one posting for each run of equal ids. *)
Fixpoint index_ids (scope : PatternScope) (index : nat) (previous : option MethodId)
    (ids : list MethodId) (postings : gmap PostingKey (list nat)) : gmap PostingKey (list nat) :=
  match ids with
  | [] => postings
  | id :: ids =>
      if decide (previous = Some id) then index_ids scope index previous ids postings
      else
        let key := MkPosting scope id in
        index_ids scope index (Some id) ids
          (<[key := default [] (postings !! key) ++ [index]]> postings)
  end.

Definition index_group_pattern (self : ParentFanoutPatterns) (key : GroupPatternKey) (index : nat)
    : ParentFanoutPatterns :=
  MkPatterns (by_key self) (entries self)
    (index_ids (key_scope key) index None (key_signature key) (postings self)).

(** [FanoutPatternTable::update] on the patterns of one root and parent. *)
Definition update_patterns (self : ParentFanoutPatterns) (scope : PatternScope)
    (signature : list MethodId) (now after_child_us : Z) : outcome ParentFanoutPatterns :=
  let key := MkKey scope signature in
  match by_key self !! key with
  | Some index =>
      e ← expect_some (entries self !! index);
      let p := pattern e in
      let p := MkPattern (track_at (estimator p) now after_child_us)
                 (wrap64 (occurrence_count p + 1)) in
      Ret (MkPatterns (by_key self) (<[index := MkEntry (entry_key e) p]> (entries self))
             (postings self))
  | None =>
      let est := track_at default_est now after_child_us in
      let index := length (entries self) in
      let self := index_group_pattern self key index in
      Ret (MkPatterns (<[key := index]> (by_key self))
             (entries self ++ [MkEntry key (MkPattern est 1)]) (postings self))
  end.

Notation FanoutPatternTable := (gmap (MethodId * MethodId) ParentFanoutPatterns).

Definition update (self : FanoutPatternTable) (root parent : MethodId) (scope : PatternScope)
    (signature : list MethodId) (now after_child_us : Z) : outcome FanoutPatternTable :=
  patterns ← update_patterns (default patterns_default (self !! (root, parent)))
               scope signature now after_child_us;
  Ret (<[(root, parent) := patterns]> self).

Definition pattern_estimates (p : GroupPattern) (cap : Z) : AfterChildEstimates :=
  MkEstimates (Z.min (estimate_of (estimator p)) cap)
    (Z.min (mean_estimate (estimator p)) cap)
    (Z.min (mean_floor_estimate (estimator p)) cap).

(** The indices a lookup looks at. *)
Inductive CompatibleCandidates := All (range : nat) | Posting (posting : list nat).

Definition candidate_iter (self : CompatibleCandidates) : list nat :=
  match self with All range => seq 0 range | Posting posting => posting end.

(** The loop of [compatible_candidate_keys]: the shortest posting of an id of
    the signature; [None] when an id has none. *)
Fixpoint smallest_posting (self : ParentFanoutPatterns) (scope : PatternScope)
    (previous : option MethodId) (smallest : option (list nat)) (ids : list MethodId)
    : option (option (list nat)) :=
  match ids with
  | [] => Some smallest
  | id :: ids =>
      if decide (previous = Some id) then smallest_posting self scope previous smallest ids
      else
        posting ← postings self !! MkPosting scope id;
        let shorter :=
          match smallest with
          | Some current => bool_decide (length posting < length current)
          | None => true
          end in
        smallest_posting self scope (Some id) (if shorter then Some posting else smallest) ids
  end.

Definition compatible_candidate_keys (self : ParentFanoutPatterns) (scope : PatternScope)
    (base_signature : list MethodId) : option CompatibleCandidates :=
  if decide (base_signature = []) then Some (All (length (entries self)))
  else
    smallest ← smallest_posting self scope None None base_signature;
    Posting <$> smallest.

Record LookupState := MkLookup {
  closest_signature_len : option nat;
  total_weight : Z;
  sum_full : Z;
  sum_mean : Z;
  sum_floor : Z;
}.

Definition lookup_start : LookupState := MkLookup None 0 0 0 0.

(** Whether the loop of [closest_compatible_lookup] counts an entry. *)
Definition compatible (scope : PatternScope) (base_signature : list MethodId) (min_samples : Z)
    (e : PatternEntry) : bool :=
  bool_decide (key_scope (entry_key e) = scope)
  && is_multiset_subset base_signature (key_signature (entry_key e))
  && (min_samples <=? occurrence_count (pattern e))%Z
  && has_estimate (estimator (pattern e)).

(** The three sums with one more pattern. *)
Definition weigh (cap : Z) (p : GroupPattern) (len : nat) (s : LookupState) : LookupState :=
  let weight := Z.max (occurrence_count p) 1 in
  let est := pattern_estimates p cap in
  MkLookup (Some len) (wrap128 (total_weight s + weight))
    (wrap128 (sum_full s + wrap128 (full est * weight)))
    (wrap128 (sum_mean s + wrap128 (mean est * weight)))
    (wrap128 (sum_floor s + wrap128 (floor est * weight))).

(** The body of the loop for one index. *)
Definition visit (self : ParentFanoutPatterns) (scope : PatternScope)
    (base_signature : list MethodId) (min_samples cap : Z) (s : LookupState) (index : nat)
    : LookupState :=
  match entries self !! index with
  | None => s
  | Some e =>
      if compatible scope base_signature min_samples e then
        let len := length (key_signature (entry_key e)) in
        match closest_signature_len s with
        | Some closest =>
            if decide (closest < len) then s
            else if decide (len < closest) then weigh cap (pattern e) len lookup_start
            else weigh cap (pattern e) closest s
        | None => weigh cap (pattern e) len s
        end
      else s
  end.

Definition closest_compatible_lookup (self : ParentFanoutPatterns) (scope : PatternScope)
    (base_signature : list MethodId) (min_samples cap : Z) : outcome (option AfterChildEstimates) :=
  exact ←
    match by_key self !! MkKey scope base_signature with
    | Some index =>
        e ← expect_some (entries self !! index);
        Ret (if (min_samples <=? occurrence_count (pattern e))%Z && has_estimate (estimator (pattern e))
             then Some (pattern_estimates (pattern e) cap) else None)
    | None => Ret None
    end;
  match exact with
  | Some est => Ret (Some est)
  | None =>
      Ret (candidates ← compatible_candidate_keys self scope base_signature;
           let s := foldl (visit self scope base_signature min_samples cap) lookup_start
                      (candidate_iter candidates) in
           if decide (total_weight s = 0%Z) then None
           else Some (MkEstimates (wrap64 (sum_full s / total_weight s))
                        (wrap64 (sum_mean s / total_weight s))
                        (wrap64 (sum_floor s / total_weight s))))
  end.

Definition lookup_estimate (self : FanoutPatternTable) (root parent : MethodId)
    (path_prefix : PathPrefix) (base_signature : list MethodId) (min_samples cap : Z)
    : outcome AfterChildEstimates :=
  match self !! (root, parent) with
  | None => Ret no_estimates
  | Some patterns =>
      scoped ← closest_compatible_lookup patterns (Path path_prefix) base_signature min_samples cap;
      match scoped with
      | Some est => Ret est
      | None =>
          aggregate ← closest_compatible_lookup patterns Aggregate base_signature min_samples cap;
          Ret (default no_estimates aggregate)
      end
  end.
End table.

(** ** Sorted signatures *)

Lemma subset_loop_correct needle hay :
  StronglySorted Z.le needle → StronglySorted Z.le hay →
  subset_loop needle hay = true ↔ needle ⊆+ hay.
Proof.
  intros Hn Hh. revert needle Hn. induction Hh as [|h hay Hh IH Hall]; intros needle Hn.
  { destruct needle; [by split; [constructor|]|]. split; [done|]. by intros ?%submseteq_nil_r. }
  destruct Hn as [|n needle Hn Hmin]; [split; [intros _; apply submseteq_nil_l|done]|].
  cbn [subset_loop]. destruct (Z.compare_spec n h) as [->|Hlt|Hgt].
  - rewrite IH by done. split; [apply submseteq_skip|apply (submseteq_app_inv_l _ _ [h])].
  - split; [done|]. intros Hsub. assert (Hin : n ∈ h :: hay) by (eapply elem_of_submseteq; [left|done]).
    rewrite Forall_forall in Hall. apply elem_of_cons in Hin as [->|Hin%Hall]; lia.
  - rewrite IH by by constructor. split; [apply submseteq_cons|].
    intros [?|(l & Hl & _)]%submseteq_cons_r; [done|].
    assert (Hin : h ∈ n :: needle) by (rewrite Hl; left).
    rewrite Forall_forall in Hmin. apply elem_of_cons in Hin as [->|Hin%Hmin]; lia.
Qed.

(** The test is the inclusion of multisets. *)
Lemma is_multiset_subset_spec needle hay :
  StronglySorted Z.le needle → StronglySorted Z.le hay →
  is_multiset_subset needle hay = true ↔ needle ⊆+ hay.
Proof.
  intros Hn Hh. unfold is_multiset_subset. destruct (decide _) as [Hl|_].
  - split; [done|]. intros ?%submseteq_length. lia.
  - by apply subset_loop_correct.
Qed.

Section lookup.
  Context {E : Type} `{Estimator E}.

Implicit Types (self : ParentFanoutPatterns (E:=E)) (e : PatternEntry (E:=E)).

(** ** The index *)

(** The entries a posting points at. *)
Definition posted (scope : PatternScope) (id : MethodId) e : Prop :=
  key_scope (entry_key e) = scope ∧ id ∈ key_signature (entry_key e).

#[export] Instance posted_dec scope id e : Decision (posted scope id e).
Proof. unfold posted. apply _. Defined.

Definition posted_at (es : list (PatternEntry (E:=E))) (scope : PatternScope) (id : MethodId) (i : nat) : Prop :=
  if es !! i is Some e then posted scope id e else False.

#[export] Instance posted_at_dec es scope id i : Decision (posted_at es scope id i).
Proof. unfold posted_at. destruct (es !! i); apply _. Defined.

Record indexed self : Prop := {
  indexed_key : ∀ key i, by_key self !! key = Some i ↔ ∃ e, entries self !! i = Some e ∧ entry_key e = key;
  indexed_sorted : ∀ e, e ∈ entries self → StronglySorted Z.le (key_signature (entry_key e));
  indexed_posting : ∀ scope id, default [] (postings self !! MkPosting scope id) =
    filter (posted_at (entries self) scope id) (seq 0 (length (entries self)));
}.

Lemma indexed_default : indexed patterns_default.
Proof.
  split; cbn.
  - intros key i. rewrite lookup_empty. split; [done|]. by intros (e & ? & _).
  - intros e ?%not_elem_of_nil. done.
  - intros scope id. by rewrite lookup_empty.
Qed.

Lemma index_ids_lookup scope index previous ids m sc id :
  StronglySorted Z.le ids → (∀ p, previous = Some p → Forall (Z.le p) ids) →
  index_ids scope index previous ids m !! MkPosting sc id =
    if decide (sc = scope ∧ id ∈ ids ∧ previous ≠ Some id)
    then Some (default [] (m !! MkPosting sc id) ++ [index]) else m !! MkPosting sc id.
Proof.
  intros Hs. revert previous m. induction Hs as [|x ids Hs IH Hall]; intros previous m Hp; cbn [index_ids].
  { rewrite decide_False; [done|]. intros (_ & ?%not_elem_of_nil & _). done. }
  destruct (decide (previous = Some x)) as [->|Hx].
  { rewrite IH by (intros p [= <-]; done). apply decide_ext. rewrite elem_of_cons. naive_solver. }
  rewrite IH by (by intros p [= <-]).
  destruct (decide (sc = scope ∧ id = x)) as [[-> ->]|Hne].
  - rewrite decide_False, decide_True; [|split_and!; [done|left|done]|naive_solver].
    apply lookup_insert_eq.
  - rewrite lookup_insert_ne by naive_solver.
    apply decide_ext. rewrite elem_of_cons.
    split; [intros (-> & Hin & Hid)|intros (-> & [->|Hin] & Hid); [naive_solver|]].
    + split_and!; [done|by right|]. intros ->. specialize (Hp id eq_refl).
      apply Forall_cons in Hp as [Hle _]. rewrite Forall_forall in Hall.
      apply Hall in Hin. naive_solver lia.
    + split_and!; [done..|]. naive_solver.
Qed.

Lemma posted_at_ext es es' scope id n :
  (∀ i, i < n → posted_at es scope id i ↔ posted_at es' scope id i) →
  filter (posted_at es scope id) (seq 0 n) = filter (posted_at es' scope id) (seq 0 n).
Proof. intros Hext. apply list_filter_ext_in. intros i Hi%elem_of_seq. apply Hext. lia. Qed.

(** ** Updates *)

(** An update without the index: a linear search, then a change in place or an
    entry at the end. *)
Definition track_pattern (p : GroupPattern (E:=E)) (now us : Z) : GroupPattern :=
  MkPattern (track_at (estimator p) now us) (wrap64 (occurrence_count p + 1)).

Definition update_entries (es : list (PatternEntry (E:=E))) (key : GroupPatternKey) (now us : Z)
    : list PatternEntry :=
  match list_find (λ e, entry_key e = key) es with
  | Some (i, e) => <[i := MkEntry (entry_key e) (track_pattern (pattern e) now us)]> es
  | None => es ++ [MkEntry key (MkPattern (track_at default_est now us) 1)]
  end.

Lemma indexed_find self key i :
  indexed self → by_key self !! key = Some i →
  ∃ e, entries self !! i = Some e ∧ entry_key e = key ∧
    list_find (λ e, entry_key e = key) (entries self) = Some (i, e).
Proof.
  intros I Hi. destruct (proj1 (indexed_key _ I key i) Hi) as (e & He & Hk).
  exists e. split_and!; try done. apply list_find_Some. split_and!; try done.
  intros j e' Hj Hlt Hk'. assert (by_key self !! key = Some j) by (apply (indexed_key _ I); eauto).
  simplify_eq. lia.
Qed.

Lemma indexed_not_found self key :
  indexed self → by_key self !! key = None → list_find (λ e, entry_key e = key) (entries self) = None.
Proof.
  intros I Hk. apply list_find_None, Forall_forall. intros e (i & Hi)%list_elem_of_lookup_1 He.
  assert (by_key self !! key = Some i) by (apply (indexed_key _ I); eauto). congruence.
Qed.

Lemma indexed_in_place self i e p :
  indexed self → entries self !! i = Some e →
  indexed (MkPatterns (by_key self) (<[i := MkEntry (entry_key e) p]> (entries self)) (postings self)).
Proof.
  intros I He. assert (Hl : i < length (entries self)) by by eapply lookup_lt_Some.
  assert (Hkeys : ∀ j e', <[i := MkEntry (entry_key e) p]> (entries self) !! j = Some e' →
    ∃ e0, entries self !! j = Some e0 ∧ entry_key e0 = entry_key e').
  { intros j e' [(-> & <- & _)|[_ Hj]]%list_lookup_insert_Some; eauto. }
  split; cbn.
  - intros key j. rewrite (indexed_key _ I). split.
    + intros (e0 & H0 & Hk). destruct (decide (j = i)) as [->|Hne].
      * rewrite list_lookup_insert_eq by done. simplify_eq. eauto.
      * rewrite list_lookup_insert_ne by congruence. eauto.
    + intros (e' & (e0 & H0 & Hk)%Hkeys & <-). eauto.
  - intros e' (j & (e0 & H0 & <-)%Hkeys)%list_elem_of_lookup_1.
    by eapply (indexed_sorted _ I), list_elem_of_lookup_2.
  - intros scope id. rewrite (indexed_posting _ I), length_insert.
    apply posted_at_ext. intros j _. unfold posted_at. destruct (decide (j = i)) as [->|Hne].
    + by rewrite list_lookup_insert_eq, He.
    + by rewrite list_lookup_insert_ne by congruence.
Qed.

Lemma indexed_append self key p :
  indexed self → by_key self !! key = None → StronglySorted Z.le (key_signature key) →
  let n := length (entries self) in
  let self' := index_group_pattern self key n in
  indexed (MkPatterns (<[key := n]> (by_key self')) (entries self' ++ [MkEntry key p]) (postings self')).
Proof.
  intros I Hk Hs n self'. split; cbn.
  - intros key' j. destruct (decide (key' = key)) as [->|Hne].
    + rewrite lookup_insert_eq. split.
      * intros [= <-]. eexists. by rewrite lookup_app_r, Nat.sub_diag.
      * intros (e & [He|[? He]]%lookup_app_Some & <-).
        -- assert (by_key self !! entry_key e = Some j) by (apply (indexed_key _ I); eauto). congruence.
        -- apply list_lookup_singleton_Some in He as [? _]. f_equal. unfold n. lia.
    + rewrite lookup_insert_ne by done. rewrite (indexed_key _ I). split.
      * intros (e & He & ?). exists e. by rewrite lookup_app_l by by eapply lookup_lt_Some.
      * intros (e & [He|[? He]]%lookup_app_Some & <-); [eauto|].
        apply list_lookup_singleton_Some in He as [_ <-]. done.
  - intros e [He|[= ->]%list_elem_of_singleton]%elem_of_app; [by apply (indexed_sorted _ I)|done].
  - intros scope id. rewrite length_app, Nat.add_comm. cbn [length Nat.add]. rewrite seq_S, filter_app.
    rewrite (posted_at_ext _ (entries self)).
    2: { intros i Hi. unfold posted_at. by rewrite lookup_app_l. }
    rewrite <-(indexed_posting _ I). rewrite index_ids_lookup by done. cbn.
    assert (Hat : posted_at (entries self ++ [MkEntry key p]) scope id n ↔
      scope = key_scope key ∧ id ∈ key_signature key).
    { unfold posted_at. rewrite lookup_app_r, Nat.sub_diag by done. unfold posted. cbn. naive_solver. }
    destruct (decide (scope = key_scope key ∧ id ∈ key_signature key ∧ None ≠ Some id)) as [Hd|Hd].
    + rewrite decide_True by naive_solver. done.
    + rewrite decide_False by naive_solver. by rewrite app_nil_r.
Qed.

(** The index never leads an update out of range, and changes nothing of it. *)
Lemma update_patterns_spec self scope signature now us :
  indexed self → StronglySorted Z.le signature →
  ∃ self', update_patterns self scope signature now us = Ret self' ∧ indexed self' ∧
    entries self' = update_entries (entries self) (MkKey scope signature) now us.
Proof.
  intros I Hs. unfold update_patterns, update_entries.
  destruct (by_key self !! MkKey scope signature) as [i|] eqn:Hk.
  - destruct (indexed_find _ _ _ I Hk) as (e & He & Hek & Hfind). rewrite He, Hfind.
    eexists. split; [done|]. split; [by apply indexed_in_place|done].
  - rewrite indexed_not_found by done. eexists. split; [done|]. split; [|done].
    by apply indexed_append.
Qed.

(** ** The lookup without the index *)

(** [visit] on an entry instead of an index. *)
Definition visit_entry scope base min_samples cap (s : LookupState) e : LookupState :=
  if compatible scope base min_samples e then
    let len := length (key_signature (entry_key e)) in
    match closest_signature_len s with
    | Some closest =>
        if decide (closest < len) then s
        else if decide (len < closest) then weigh cap (pattern e) len lookup_start
        else weigh cap (pattern e) closest s
    | None => weigh cap (pattern e) len s
    end
  else s.

Lemma visit_indices self scope base min_samples cap s l :
  foldl (visit self scope base min_samples cap) s l =
  foldl (visit_entry scope base min_samples cap) s (omap (λ i, entries self !! i) l).
Proof.
  revert s. induction l as [|i l IH]; intros s; [done|]. cbn. rewrite IH.
  unfold visit at 1. by destruct (entries self !! i).
Qed.

Lemma omap_lookup_seq (es : list (PatternEntry (E:=E))) : omap (λ i, es !! i) (seq 0 (length es)) = es.
Proof.
  induction es as [|e es IH] using rev_ind; [done|].
  rewrite length_app, Nat.add_comm. cbn [length Nat.add]. rewrite seq_S, omap_app.
  f_equal; [|cbn; by rewrite lookup_app_r, Nat.sub_diag].
  etrans; [|exact IH]. apply list_omap_ext, Forall2_same_length_lookup_2; [done|].
  intros i j k Hi Hj. simplify_eq. apply lookup_seq in Hi as [-> ?]. by rewrite lookup_app_l by lia.
Qed.

Lemma omap_lookup_posted (es : list (PatternEntry (E:=E))) scope id :
  omap (λ i, es !! i) (filter (posted_at es scope id) (seq 0 (length es))) =
  filter (posted scope id) es.
Proof.
  rewrite <-(omap_lookup_seq es) at 4. assert (Hl : ∀ i, i ∈ seq 0 (length es) → is_Some (es !! i)).
  { intros i Hi%elem_of_seq. apply lookup_lt_is_Some. lia. }
  revert Hl. generalize (seq 0 (length es)). induction l as [|i l IH]; intros Hl; [done|].
  destruct (Hl i) as [e He]; [left|]. rewrite filter_cons.
  assert (Hp : posted_at es scope id i ↔ posted scope id e) by (unfold posted_at; by rewrite He).
  cbn. rewrite He, filter_cons. destruct (decide (posted_at es scope id i)) as [Hd|Hd].
  - rewrite decide_True by by apply Hp. cbn. rewrite He. f_equal. apply IH. intros j ?. apply Hl. by right.
  - rewrite decide_False by by rewrite <-Hp. apply IH. intros j ?. apply Hl. by right.
Qed.

Lemma visit_entry_filter scope base min_samples cap s es :
  foldl (visit_entry scope base min_samples cap) s es =
  foldl (visit_entry scope base min_samples cap) s (filter (λ e, compatible scope base min_samples e) es).
Proof.
  revert s. induction es as [|e es IH]; intros s; [done|]. rewrite filter_cons. cbn.
  destruct (decide (compatible scope base min_samples e)) as [Hd|Hd]; cbn; [apply IH|].
  rewrite IH. unfold visit_entry at 2. by destruct (compatible _ _ _ e).
Qed.

(** The loop over the ids chooses a posting of the signature, or finds an id
    without one. *)
Lemma smallest_posting_spec self scope previous smallest ids :
  (∀ p, previous = Some p → is_Some smallest) →
  match smallest_posting self scope previous smallest ids with
  | Some r => (r = smallest ∨ ∃ id p, id ∈ ids ∧ r = Some p ∧ postings self !! MkPosting scope id = Some p) ∧
      (ids ≠ [] → is_Some r)
  | None => ∃ id, id ∈ ids ∧ postings self !! MkPosting scope id = None
  end.
Proof.
  revert previous smallest. induction ids as [|id ids IH]; intros previous smallest Hp; cbn [smallest_posting].
  { split; [by left|done]. }
  destruct (decide (previous = Some id)) as [->|Hne].
  - specialize (IH (Some id) smallest Hp). destruct (smallest_posting _ _ _ _ ids) as [r|].
    + destruct IH as [[->|(i & p & ? & ? & ?)] Hr].
      * split; [by left|]. intros _. by apply (Hp id).
      * split; [right; exists i, p; split_and!; [by right|done..]|]. intros _. subst. by eexists.
    + destruct IH as (i & ? & ?). exists i. split; [by right|done].
  - destruct (postings self !! MkPosting scope id) as [p|] eqn:Hpost; cbn; [|exists id; split; [left|done]].
    match goal with |- context [smallest_posting _ _ _ ?s ids] => set (sm := s) end.
    assert (Hsm : is_Some sm) by (unfold sm; destruct smallest; [case_bool_decide|]; by eexists).
    specialize (IH (Some id) sm (λ _ _, Hsm)). destruct (smallest_posting _ _ _ _ ids) as [r|].
    + destruct IH as [[->|(i & q & ? & ? & ?)] Hr].
      * split; [|done]. unfold sm. destruct smallest as [current|].
        -- case_bool_decide; [right; exists id, p; split_and!; [left|done..]|by left].
        -- right. exists id, p. split_and!; [left|done..].
      * split; [right; exists i, q; split_and!; [by right|done..]|]. intros _. subst. by eexists.
    + destruct IH as (i & ? & ?). exists i. split; [by right|done].
Qed.

Lemma compatible_posted self scope base min_samples e id :
  indexed self → StronglySorted Z.le base → e ∈ entries self → id ∈ base →
  compatible scope base min_samples e → posted scope id e.
Proof.
  intros I Hb He Hid Hc. unfold compatible in Hc. rewrite !andb_True, bool_decide_spec in Hc.
  destruct Hc as [[[Hscope Hsub] _] _]. split; [done|].
  apply Is_true_true, is_multiset_subset_spec in Hsub; [|done|by apply (indexed_sorted _ I)].
  by eapply elem_of_submseteq.
Qed.

(** The candidates are enough: the loop over them is the loop over all entries. *)
Lemma candidates_complete self scope base min_samples cap :
  indexed self → StronglySorted Z.le base →
  match compatible_candidate_keys self scope base with
  | Some c => foldl (visit self scope base min_samples cap) lookup_start (candidate_iter c) =
      foldl (visit_entry scope base min_samples cap) lookup_start
        (filter (λ e, compatible scope base min_samples e) (entries self))
  | None => filter (λ e, compatible scope base min_samples e) (entries self) = []
  end.
Proof.
  intros I Hb. unfold compatible_candidate_keys. destruct (decide (base = [])) as [->|Hne].
  { cbn. by rewrite visit_indices, omap_lookup_seq, visit_entry_filter. }
  assert (Hs := smallest_posting_spec self scope None None base).
  destruct (smallest_posting self scope None None base) as [r|]; cbn.
  - destruct Hs as [Hr Hsome]; [done|]. destruct (Hsome Hne) as [l ->]. cbn.
    destruct Hr as [?|(id & l' & Hid & [= <-] & Hl)]; [done|].
    assert (Hl' : l = filter (posted_at (entries self) scope id) (seq 0 (length (entries self))))
      by (rewrite <-(indexed_posting _ I), Hl; done).
    rewrite visit_indices, Hl', omap_lookup_posted, visit_entry_filter. f_equal.
    rewrite list_filter_filter. apply list_filter_ext_in. intros e He.
    split; [by intros [? _]|]. intros Hc. split; [done|]. by eapply compatible_posted.
  - destruct Hs as (id & Hid & Hnone); [done|].
    assert (Hl := indexed_posting _ I scope id). rewrite Hnone in Hl. cbn in Hl.
    apply list_filter_none. intros e He Hc. assert (Hp : posted scope id e) by by eapply compatible_posted.
    apply list_elem_of_lookup_1 in He as [i Hi].
    assert (Hin : i ∈ filter (posted_at (entries self) scope id) (seq 0 (length (entries self)))).
    { apply list_elem_of_filter. unfold posted_at. rewrite Hi. split; [done|].
      apply elem_of_seq. apply lookup_lt_Some in Hi. lia. }
    rewrite <-Hl in Hin. by apply not_elem_of_nil in Hin.
Qed.

(** ** The weighted mean of the closest patterns *)

Definition sig_len e : nat := length (key_signature (entry_key e)).
Definition weight e : Z := Z.max (occurrence_count (pattern e)) 1.

(** The sum of [f] weighted by the occurrences, in exact arithmetic. *)
Fixpoint weighted_sum (f : PatternEntry (E:=E) → Z) (es : list PatternEntry) : Z :=
  match es with [] => 0%Z | e :: es => (f e * weight e + weighted_sum f es)%Z end.

Definition total (es : list (PatternEntry (E:=E))) : Z := weighted_sum (λ _, 1%Z) es.

Definition weighted_mean (f : PatternEntry (E:=E) → Z) (es : list PatternEntry) : Z :=
  (weighted_sum f es / total es)%Z.

(** The entries with the shortest signature. *)
Definition shortest (es : list (PatternEntry (E:=E))) : list PatternEntry :=
  filter (λ e, Forall (λ e', sig_len e ≤ sig_len e') es) es.

Lemma weighted_sum_app f es es' :
  weighted_sum f (es ++ es') = (weighted_sum f es + weighted_sum f es')%Z.
Proof. induction es as [|e es IH]; cbn; [done|]. rewrite IH. lia. Qed.

Lemma weighted_sum_bounds f es B :
  (∀ e, e ∈ es → 0 ≤ f e ≤ B)%Z → (0 ≤ weighted_sum f es ≤ B * total es)%Z.
Proof.
  induction es as [|e es IH]; intros Hf; unfold total in *; cbn; [lia|].
  assert (0 ≤ f e ≤ B)%Z by (apply Hf; left). assert (1 ≤ weight e)%Z by (unfold weight; lia).
  specialize (IH (λ e' He, Hf e' (list_elem_of_further _ _ _ He))). nia.
Qed.

Lemma total_pos es : es ≠ [] → (0 < total es)%Z.
Proof.
  destruct es as [|e es]; [done|]. intros _. unfold total. cbn.
  assert (1 ≤ weight e)%Z by (unfold weight; lia).
  assert (Hz := weighted_sum_bounds (λ _, 1%Z) es 1 ltac:(intros; lia)). lia.
Qed.

Lemma total_nonneg es : (0 ≤ total es)%Z.
Proof. apply (weighted_sum_bounds (λ _, 1%Z) es 1). intros. lia. Qed.

Lemma total_filter (P : PatternEntry (E:=E) → Prop) `{∀ e, Decision (P e)} es : (total (filter P es) ≤ total es)%Z.
Proof.
  induction es as [|e es IH]; [done|]. rewrite filter_cons. unfold total in *.
  assert (1 ≤ weight e)%Z by (unfold weight; lia). destruct (decide (P e)); cbn; lia.
Qed.

Lemma weighted_mean_bounds f es B :
  es ≠ [] → (∀ e, e ∈ es → 0 ≤ f e ≤ B)%Z → (0 ≤ weighted_mean f es ≤ B)%Z.
Proof.
  intros Hne Hf. assert (Ht := total_pos es Hne). apply weighted_sum_bounds in Hf. unfold weighted_mean.
  split; [apply Z.div_pos; lia|]. apply Z.div_le_upper_bound; lia.
Qed.

(** The least of a list of lengths. *)
Fixpoint least (l : list nat) : option nat :=
  match l with [] => None | x :: l => Some (if least l is Some m then Nat.min x m else x) end.

Lemma least_snoc l x : least (l ++ [x]) = Some (if least l is Some m then Nat.min m x else x).
Proof. induction l as [|y l IH]; cbn; [done|]. rewrite IH. destruct (least l); f_equal; lia. Qed.

Lemma least_le l m : least l = Some m → Forall (Nat.le m) l ∧ m ∈ l.
Proof.
  revert m. induction l as [|x l IH]; intros m; cbn; [done|]. intros [= <-].
  destruct (least l) as [m|] eqn:Hl.
  - destruct (IH m eq_refl) as [Hall Hin]. split.
    + constructor; [lia|]. eapply Forall_impl; [exact Hall|]. intros. lia.
    + destruct (Nat.min_spec x m) as [[_ ->]|[_ ->]]; [left|by right].
  - destruct l; [|done]. split; [by repeat constructor|left].
Qed.

Lemma shortest_least es :
  shortest es = if least (sig_len <$> es) is Some m then filter (λ e, sig_len e = m) es else [].
Proof.
  destruct (least (sig_len <$> es)) as [m|] eqn:Hm; [|by destruct es].
  apply least_le in Hm as [Hall (e0 & -> & H0)%list_elem_of_fmap].
  rewrite Forall_fmap in Hall. apply list_filter_ext_in. intros e He. split.
  - intros Hmin. rewrite Forall_forall in Hmin, Hall. apply Nat.le_antisymm; [by apply Hmin|by apply Hall].
  - intros ->. exact Hall.
Qed.

(** The three values a pattern contributes. *)
Definition full_of (cap : Z) e : Z := full (pattern_estimates (pattern e) cap).
Definition mean_of (cap : Z) e : Z := mean (pattern_estimates (pattern e) cap).
Definition floor_of (cap : Z) e : Z := floor (pattern_estimates (pattern e) cap).

Context `{!EstimatorTyped E}.

Lemma contributions_capped cap e :
  is_u64 cap → (0 ≤ full_of cap e ≤ cap ∧ 0 ≤ mean_of cap e ≤ cap ∧ 0 ≤ floor_of cap e ≤ cap)%Z.
Proof.
  intros Hc. unfold full_of, mean_of, floor_of; cbn.
  assert (H1 := estimate_typed (estimator (pattern e))). assert (H2 := mean_typed (estimator (pattern e))).
  assert (H3 := floor_typed (estimator (pattern e))). ulia.
Qed.

(** What the loop has gathered after the entries [es]. *)
Definition summary (cap : Z) (es : list (PatternEntry (E:=E))) : LookupState :=
  match least (sig_len <$> es) with
  | None => lookup_start
  | Some m =>
      let g := filter (λ e, sig_len e = m) es in
      MkLookup (Some m) (total g) (weighted_sum (full_of cap) g) (weighted_sum (mean_of cap) g)
        (weighted_sum (floor_of cap) g)
  end.

Lemma weigh_exact cap len g e :
  is_u64 cap → (total (g ++ [e]) ≤ u64_max)%Z → ∀ l,
  weigh cap (pattern e) len (MkLookup l (total g) (weighted_sum (full_of cap) g)
    (weighted_sum (mean_of cap) g) (weighted_sum (floor_of cap) g)) =
  MkLookup (Some len) (total (g ++ [e])) (weighted_sum (full_of cap) (g ++ [e]))
    (weighted_sum (mean_of cap) (g ++ [e])) (weighted_sum (floor_of cap) (g ++ [e])).
Proof.
  intros Hc Ht l. unfold weigh; cbn [total_weight sum_full sum_mean sum_floor].
  change (Z.max (occurrence_count (pattern e)) 1) with (weight e).
  change (full (pattern_estimates (pattern e) cap)) with (full_of cap e).
  change (mean (pattern_estimates (pattern e) cap)) with (mean_of cap e).
  change (floor (pattern_estimates (pattern e) cap)) with (floor_of cap e).
  unfold total in *. rewrite !weighted_sum_app in *. cbn [weighted_sum] in *.
  assert (Hw : (1 ≤ weight e)%Z) by (unfold weight; lia).
  assert (Hg := total_nonneg g). unfold total in Hg.
  assert (Hb : ∀ f, (∀ e, 0 ≤ f e ≤ cap)%Z → (0 ≤ f e * weight e)%Z ∧
    (weighted_sum f g + f e * weight e ≤ u128_max)%Z ∧ (0 ≤ weighted_sum f g)%Z).
  { intros f Hf. assert (Hs := weighted_sum_bounds f g cap (λ e' _, Hf e')). unfold total in Hs.
    specialize (Hf e). assert (f e * weight e ≤ cap * weight e)%Z by nia.
    assert (cap * (weighted_sum (λ _, 1) g + weight e) ≤ u64_max * u64_max)%Z by (ulia || (unfold is_u64 in *; nia)).
    unfold u64_max, u128_max in *. nia. }
  assert (Hcap := contributions_capped cap). 
  destruct (Hb (full_of cap)) as (? & ? & ?); [intros; by apply Hcap|].
  destruct (Hb (mean_of cap)) as (? & ? & ?); [intros; by apply Hcap|].
  destruct (Hb (floor_of cap)) as (? & ? & ?); [intros; by apply Hcap|].
  f_equal; [rewrite wrap128_small; [lia|clear -Ht Hw Hg; ulia]|..].
  all: rewrite (wrap128_small (_ * _)) by lia; rewrite wrap128_small; lia.
Qed.

Lemma visit_entries scope base min_samples cap es :
  is_u64 cap → (total es ≤ u64_max)%Z → Forall (λ e, compatible scope base min_samples e) es →
  foldl (visit_entry scope base min_samples cap) lookup_start es = summary cap es.
Proof.
  intros Hc. induction es as [|e es IH] using rev_ind; intros Ht Hall; [done|].
  apply Forall_app in Hall as [Hall [He _]%Forall_cons].
  assert (Hle : (total es ≤ u64_max)%Z).
  { unfold total in *. rewrite weighted_sum_app in Ht. cbn in Ht. unfold weight in Ht. lia. }
  rewrite foldl_app, IH by done. cbn [foldl]. unfold visit_entry. destruct (compatible _ _ _ e); [|done].
  assert (Hnil : ∀ len l, (weight e ≤ u64_max)%Z → weigh cap (pattern e) len (MkLookup l 0 0 0 0) =
    MkLookup (Some len) (total [e]) (weighted_sum (full_of cap) [e]) (weighted_sum (mean_of cap) [e])
      (weighted_sum (floor_of cap) [e])).
  { intros len l Hw. apply (weigh_exact cap len [] e Hc). unfold total; cbn. lia. }
  assert (Hw : (weight e ≤ u64_max)%Z).
  { unfold total in Ht. rewrite weighted_sum_app in Ht. cbn in Ht. fold (total es) in Ht.
    assert (Hz := total_nonneg es). lia. }
  unfold summary. rewrite fmap_app. change (sig_len <$> [e]) with [sig_len e]. rewrite least_snoc. fold (sig_len e).
  destruct (least (sig_len <$> es)) as [m|] eqn:Hm; cbn [closest_signature_len lookup_start].
  - apply least_le in Hm as [Hmin _]. rewrite Forall_fmap, Forall_forall in Hmin. cbn in Hmin.
    rewrite filter_app. destruct (decide (m < sig_len e)) as [Hlt|Hge]; [|destruct (decide (sig_len e < m)) as [Hlt|Hge']].
    + replace (Nat.min m (sig_len e)) with m by lia. rewrite (list_filter_none _ [e]), app_nil_r; [done|].
      intros e' ->%list_elem_of_singleton. lia.
    + replace (Nat.min m (sig_len e)) with (sig_len e) by lia. rewrite (list_filter_none _ es).
      * cbn. rewrite decide_True by done. by apply Hnil.
      * intros e' He'%Hmin. lia.
    + replace (Nat.min m (sig_len e)) with m by lia. cbn [filter list_filter]. rewrite (decide_True (P:=sig_len e = m)) by lia.
      apply weigh_exact; [done|]. etrans; [|exact Ht]. unfold total. rewrite !weighted_sum_app.
      assert (Hf := total_filter (λ e, sig_len e = m) es). unfold total in Hf. lia.
  - assert (Hn : es = []) by by destruct es. subst. cbn. rewrite decide_True by done. by apply Hnil.
Qed.

(** ** The specification: a log of observations *)

Record Observation := MkObservation { obs_key : GroupPatternKey; obs_now : Z; obs_us : Z }.

(** The keys observed, in the order they appeared first. *)
Definition keys_of (obs : list Observation) : list GroupPatternKey :=
  foldl (λ ks o, if decide (obs_key o ∈ ks) then ks else ks ++ [obs_key o]) [] obs.

(** The pattern of a key: its observations, in order. *)
Definition spec_pattern (obs : list Observation) (key : GroupPatternKey) : GroupPattern :=
  let mine := filter (λ o, obs_key o = key) obs in
  MkPattern (foldl (λ est o, track_at est (obs_now o) (obs_us o)) default_est mine)
    (Z.of_nat (length mine)).

Definition spec_entries (obs : list Observation) : list PatternEntry :=
  (λ key, MkEntry key (spec_pattern obs key)) <$> keys_of obs.

(** A pattern is used when it has been observed often enough. *)
Definition enough (min_samples : Z) (p : GroupPattern (E:=E)) : Prop :=
  (min_samples ≤ occurrence_count p)%Z ∧ has_estimate (estimator p).

#[export] Instance enough_dec min_samples p : Decision (enough min_samples p).
Proof. unfold enough. apply _. Defined.

(** The pattern of exactly this signature if there is enough of it; else the
    weighted mean of the shortest signatures that contain this one. *)
Definition spec_closest (obs : list Observation) (scope : PatternScope)
    (base : list MethodId) (min_samples cap : Z) : option AfterChildEstimates :=
  let exact := spec_pattern obs (MkKey scope base) in
  if decide (MkKey scope base ∈ keys_of obs ∧ enough min_samples exact)
  then Some (pattern_estimates exact cap)
  else
    let closest := shortest (filter (λ e, key_scope (entry_key e) = scope ∧
      base ⊆+ key_signature (entry_key e) ∧ enough min_samples (pattern e)) (spec_entries obs)) in
    if decide (closest = []) then None
    else Some (MkEstimates (weighted_mean (full_of cap) closest)
      (weighted_mean (mean_of cap) closest) (weighted_mean (floor_of cap) closest)).

Lemma keys_of_snoc obs o :
  keys_of (obs ++ [o]) = if decide (obs_key o ∈ keys_of obs) then keys_of obs else keys_of obs ++ [obs_key o].
Proof. unfold keys_of at 1. by rewrite foldl_app. Qed.

Lemma keys_of_in obs key : key ∈ keys_of obs ↔ key ∈ obs_key <$> obs.
Proof.
  induction obs as [|o obs IH] using rev_ind; [done|].
  rewrite keys_of_snoc, fmap_app, elem_of_app, <-IH. cbn. rewrite list_elem_of_singleton.
  destruct (decide (obs_key o ∈ keys_of obs)) as [Hin|Hin].
  - split; [by left|]. by intros [?| ->].
  - by rewrite elem_of_app, list_elem_of_singleton.
Qed.

Lemma keys_of_nodup obs : NoDup (keys_of obs).
Proof.
  induction obs as [|o obs IH] using rev_ind; [constructor|]. rewrite keys_of_snoc.
  destruct (decide _) as [|Hin]; [done|]. apply NoDup_app. split_and!; [done| |apply NoDup_singleton].
  intros k Hk ->%list_elem_of_singleton. done.
Qed.

Lemma spec_pattern_snoc obs o key :
  (Z.of_nat (length (obs ++ [o])) ≤ u64_max)%Z →
  spec_pattern (obs ++ [o]) key =
    if decide (obs_key o = key) then track_pattern (spec_pattern obs key) (obs_now o) (obs_us o)
    else spec_pattern obs key.
Proof.
  intros Hl. unfold spec_pattern at 1. rewrite filter_app. cbn.
  destruct (decide (obs_key o = key)) as [Hk|Hk]; [|by rewrite app_nil_r].
  unfold track_pattern, spec_pattern; cbn. rewrite foldl_app, length_app. cbn. f_equal.
  rewrite length_app in Hl. cbn in Hl. assert (Hf := length_filter (λ o, obs_key o = key) obs).
  rewrite wrap64_small; [lia|]. unfold is_u64. lia.
Qed.

Lemma list_find_spec_entries obs ks key i :
  NoDup ks → ks !! i = Some key →
  list_find (λ e, entry_key e = key) ((λ k, MkEntry k (spec_pattern obs k)) <$> ks) =
    Some (i, MkEntry key (spec_pattern obs key)).
Proof.
  intros Hnd Hi. apply list_find_Some. rewrite list_lookup_fmap, Hi. split_and!; [done..|].
  intros j e Hj Hlt Hk. rewrite list_lookup_fmap in Hj. apply fmap_Some in Hj as (k & Hj & ->). cbn in Hk. subst.
  assert (i = j) by by eapply NoDup_lookup. lia.
Qed.

(** The linear table holds the patterns of the log. *)
Lemma update_entries_spec obs o :
  (Z.of_nat (length (obs ++ [o])) ≤ u64_max)%Z →
  update_entries (spec_entries obs) (obs_key o) (obs_now o) (obs_us o) = spec_entries (obs ++ [o]).
Proof.
  intros Hl. unfold update_entries. assert (Hnd := keys_of_nodup obs).
  unfold spec_entries at 4. rewrite keys_of_snoc.
  destruct (decide (obs_key o ∈ keys_of obs)) as [Hin|Hin].
  - apply list_elem_of_lookup_1 in Hin as [i Hi].
    unfold spec_entries. rewrite (list_find_spec_entries _ _ _ i) by done. cbn.
    apply list_eq. intros j. destruct (decide (j = i)) as [->|Hne].
    + rewrite list_lookup_insert_eq by (rewrite length_fmap; by eapply lookup_lt_Some).
      rewrite list_lookup_fmap, Hi. cbn. by rewrite spec_pattern_snoc, decide_True by done.
    + rewrite list_lookup_insert_ne by congruence. rewrite !list_lookup_fmap.
      destruct (keys_of obs !! j) as [k|] eqn:Hj; [|done]. cbn. rewrite spec_pattern_snoc by done.
      rewrite decide_False; [done|]. intros <-. destruct Hne. by eapply NoDup_lookup.
  - rewrite fmap_app. cbn. unfold spec_entries.
    replace (list_find _ _) with (@None (nat * PatternEntry (E:=E))).
    + f_equal.
      * apply list_fmap_ext. intros i k Hi. rewrite spec_pattern_snoc, decide_False; [done| |done].
        intros <-. destruct Hin. by eapply list_elem_of_lookup_2.
      * rewrite spec_pattern_snoc, decide_True by done. unfold spec_pattern at 1.
        rewrite list_filter_none; [done|]. intros o' Ho' Hk. destruct Hin. apply keys_of_in.
        rewrite <-Hk. by apply list_elem_of_fmap_2.
    + symmetry. apply list_find_None, Forall_fmap, Forall_forall. intros k Hk Heq. cbn in Heq. by subst.
Qed.

(** The weights of the patterns add up to the length of the log. *)
Lemma total_update_entries es key now us :
  (∀ e, e ∈ es → 0 ≤ occurrence_count (pattern e))%Z →
  (total (update_entries es key now us) ≤ total es + 1)%Z.
Proof.
  intros Hc. unfold update_entries. destruct (list_find _ es) as [[i e]|] eqn:Hf.
  - apply list_find_Some in Hf as (Hi & _ & _). rewrite insert_take_drop by by eapply lookup_lt_Some.
    rewrite <-(take_drop_middle es i e Hi) at 3. unfold total. rewrite !weighted_sum_app. cbn [weighted_sum].
    unfold weight; cbn. assert (He : e ∈ es) by by eapply list_elem_of_lookup_2. apply Hc in He.
    assert (Hw : (wrap64 (occurrence_count (pattern e) + 1) ≤ occurrence_count (pattern e) + 1)%Z).
    { unfold wrap64. apply Z.mod_le; ulia. }
    lia.
  - unfold total. rewrite weighted_sum_app. cbn [weighted_sum]. unfold weight; cbn [pattern occurrence_count]. lia.
Qed.

Lemma spec_entries_total obs :
  (Z.of_nat (length obs) ≤ u64_max)%Z → (total (spec_entries obs) ≤ Z.of_nat (length obs))%Z.
Proof.
  induction obs as [|o obs IH] using rev_ind; intros Hl; [done|].
  rewrite <-update_entries_spec by done. rewrite length_app in *. cbn [length] in *.
  etrans; [apply total_update_entries|].
  - intros e (k & -> & _)%list_elem_of_fmap. apply Nat2Z.is_nonneg.
  - specialize (IH ltac:(lia)). lia.
Qed.

(** ** The table refines the log *)

Lemma mkkey_eta key : MkKey (key_scope key) (key_signature key) = key.
Proof. by destruct key. Qed.

Lemma compatible_spec obs scope base min_samples e :
  Forall (λ o, StronglySorted Z.le (key_signature (obs_key o))) obs → StronglySorted Z.le base →
  e ∈ spec_entries obs →
  compatible scope base min_samples e ↔
  key_scope (entry_key e) = scope ∧ base ⊆+ key_signature (entry_key e) ∧ enough min_samples (pattern e).
Proof.
  intros Hs Hb (k & -> & Hk)%list_elem_of_fmap. cbn.
  assert (Hsig : StronglySorted Z.le (key_signature k)).
  { apply keys_of_in, list_elem_of_fmap in Hk as (o & -> & Ho). rewrite Forall_forall in Hs. by apply Hs. }
  unfold compatible, enough. cbn. rewrite !andb_True, bool_decide_spec, <-is_multiset_subset_spec by done.
  rewrite !Is_true_true, Z.leb_le. naive_solver.
Qed.

Lemma spec_entries_lookup obs i e :
  spec_entries obs !! i = Some e → e = MkEntry (entry_key e) (spec_pattern obs (entry_key e)).
Proof. intros (k & -> & _)%list_lookup_fmap_Some. done. Qed.

Lemma closest_refines obs self scope base min_samples cap :
  indexed self → entries self = spec_entries obs →
  Forall (λ o, StronglySorted Z.le (key_signature (obs_key o))) obs → StronglySorted Z.le base →
  (Z.of_nat (length obs) ≤ u64_max)%Z → is_u64 cap →
  closest_compatible_lookup self scope base min_samples cap = Ret (spec_closest obs scope base min_samples cap).
Proof.
  intros I He Hs Hb Hl Hc. unfold closest_compatible_lookup, spec_closest.
  set (exact := spec_pattern obs (MkKey scope base)).
  assert (Hexact : match by_key self !! MkKey scope base with
    | Some index => e ← expect_some (entries self !! index);
        Ret (if (min_samples <=? occurrence_count (pattern e))%Z && has_estimate (estimator (pattern e))
             then Some (pattern_estimates (pattern e) cap) else None)
    | None => Ret None
    end = Ret (if decide (MkKey scope base ∈ keys_of obs ∧ enough min_samples exact)
               then Some (pattern_estimates exact cap) else None)).
  { destruct (by_key self !! MkKey scope base) as [i|] eqn:Hk.
    - apply (indexed_key _ I) in Hk as (e & Hi & Hk). rewrite Hi. cbn [expect_some mbind outcome_bind]. rewrite He in Hi.
      assert (Hin : MkKey scope base ∈ keys_of obs).
      { apply list_lookup_fmap_Some in Hi as (k & -> & Hi). rewrite <-Hk. by eapply list_elem_of_lookup_2. }
      apply spec_entries_lookup in Hi. rewrite Hi, Hk. cbn [pattern]. fold exact. f_equal.
      destruct (decide (_ ∧ enough min_samples exact)) as [[_ [Hm Hh]]|Hd].
      + apply Z.leb_le in Hm. apply Is_true_true in Hh. by rewrite Hm, Hh.
      + destruct (_ && _) eqn:Hb'; [|done]. destruct Hd. split; [done|].
        apply andb_true_iff in Hb' as [?%Z.leb_le ?]. split; [done|by apply Is_true_true].
    - f_equal. rewrite decide_False; [done|]. intros [Hin _].
      apply (list_elem_of_fmap_2 (λ key, MkEntry key (spec_pattern obs key))) in Hin.
      fold (spec_entries obs) in Hin. rewrite <-He in Hin. apply list_elem_of_lookup_1 in Hin as [i Hi].
      assert (by_key self !! MkKey scope base = Some i) by (apply (indexed_key _ I); eauto). congruence. }
  rewrite Hexact. cbn [mbind outcome_bind]. destruct (decide (_ ∧ enough min_samples exact)); [done|].
  f_equal. assert (Hcand := candidates_complete self scope base min_samples cap I Hb).
  assert (Hext := list_filter_ext_in _ _ (spec_entries obs)
    (λ e, compatible_spec obs scope base min_samples e Hs Hb)).
  rewrite <-Hext. clear Hext. rewrite He in Hcand. set (cs := filter _ (spec_entries obs)) in Hcand |- *.
  destruct (compatible_candidate_keys self scope base) as [c|]; cbn [mbind option_bind]; [|by rewrite Hcand].
  assert (Ht : (total cs ≤ u64_max)%Z).
  { etrans; [apply total_filter|]. etrans; [by apply spec_entries_total|done]. }
  rewrite Hcand, visit_entries; [|done..|apply Forall_forall; by intros e [? _]%list_elem_of_filter].
  rewrite shortest_least. unfold summary. destruct (least (sig_len <$> cs)) as [m|]; [|done].
  cbn [total_weight sum_full sum_mean sum_floor]. set (g := filter _ cs).
  destruct (decide (g = [])) as [->|Hne]; [done|].
  rewrite decide_False by (assert (Hp := total_pos g Hne); lia).
  assert (Hw : ∀ f, (∀ e, 0 ≤ f e ≤ cap)%Z → wrap64 (weighted_sum f g / total g) = weighted_mean f g).
  { intros f Hf. apply wrap64_small. assert (Hm := weighted_mean_bounds f g cap Hne (λ e _, Hf e)).
    split; [apply Hm|]. etrans; [apply Hm|apply Hc]. }
  f_equal. f_equal; apply Hw; intros e; by apply contributions_capped.
Qed.

(** An estimate never exceeds the cap. *)
Definition capped (cap : Z) (est : AfterChildEstimates) : Prop :=
  (0 ≤ full est ≤ cap ∧ 0 ≤ mean est ≤ cap ∧ 0 ≤ floor est ≤ cap)%Z.

Lemma spec_closest_capped obs scope base min_samples cap est :
  is_u64 cap → spec_closest obs scope base min_samples cap = Some est → capped cap est.
Proof.
  intros Hc. assert (Hcap := contributions_capped cap). unfold spec_closest.
  destruct (decide _) as [_|_].
  - intros [= <-]. apply (Hcap (MkEntry (MkKey scope base) (spec_pattern obs (MkKey scope base))) Hc).
  - destruct (decide _) as [|Hne]; [done|]. intros [= <-].
    split; [|split]; apply weighted_mean_bounds; try done; intros e _; by apply Hcap.
Qed.

(** The answer of the specification: the pattern under the path first, then
    under any path, else zeros. *)
Definition spec_estimate (obs : list Observation) (path_prefix : PathPrefix)
    (base : list MethodId) (min_samples cap : Z) : AfterChildEstimates :=
  match spec_closest obs (Path path_prefix) base min_samples cap with
  | Some est => est
  | None => default no_estimates (spec_closest obs Aggregate base min_samples cap)
  end.

(** The updates of a whole table: each with its root and parent. *)
Notation History := (list ((MethodId * MethodId) * Observation)).

Definition update_all (history : History) : outcome (gmap (MethodId * MethodId) ParentFanoutPatterns) :=
  foldl (λ t h, t ← t;
      update t h.1.1 h.1.2 (key_scope (obs_key h.2)) (key_signature (obs_key h.2)) (obs_now h.2) (obs_us h.2))
    (Ret ∅) history.

Definition observations (history : History) (root parent : MethodId) : list Observation :=
  (filter (λ h, h.1 = (root, parent)) history).*2.

Definition sorted_history (history : History) : Prop :=
  Forall (λ h, StronglySorted Z.le (key_signature (obs_key h.2))) history.

Lemma observations_snoc history h root parent :
  observations (history ++ [h]) root parent =
    observations history root parent ++ (if decide (h.1 = (root, parent)) then [h.2] else []).
Proof. unfold observations. rewrite filter_app, fmap_app. cbn. by destruct (decide (h.1 = _)). Qed.

Lemma update_all_spec history :
  sorted_history history → (Z.of_nat (length history) ≤ u64_max)%Z →
  ∃ t, update_all history = Ret t ∧ ∀ root parent,
    match t !! (root, parent) with
    | Some self => indexed self ∧ entries self = spec_entries (observations history root parent)
    | None => observations history root parent = []
    end.
Proof.
  induction history as [|[[root parent] o] history IH] using rev_ind; intros Hs Hl.
  { exists ∅. split; [done|]. intros. by rewrite lookup_empty. }
  apply Forall_app in Hs as [Hs [Ho _]%Forall_cons]. rewrite length_app in Hl. cbn in Hl, Ho.
  destruct IH as (t & Ht & Hinv); [done|lia|].
  unfold update_all. rewrite foldl_app. fold (update_all history). rewrite Ht. cbn [foldl mbind outcome_bind fst snd].
  unfold update. set (self := default patterns_default (t !! (root, parent))).
  assert (Hself : indexed self ∧ entries self = spec_entries (observations history root parent)).
  { specialize (Hinv root parent). unfold self. destruct (t !! (root, parent)); [done|].
    rewrite Hinv. split; [apply indexed_default|done]. }
  destruct Hself as [I He].
  destruct (update_patterns_spec self (key_scope (obs_key o)) (key_signature (obs_key o)) (obs_now o) (obs_us o) I Ho) as (self' & Hup & I' & He').
  rewrite Hup. cbn [mbind outcome_bind]. eexists. split; [done|]. intros r p.
  assert (Hlen : (Z.of_nat (length (observations history root parent ++ [o])) ≤ u64_max)%Z).
  { unfold observations. rewrite length_app, length_fmap. cbn [length].
    assert (Hf := length_filter (λ h : (MethodId * MethodId) * Observation, h.1 = (root, parent)) history). lia. }
  rewrite observations_snoc. cbn [fst snd].
  destruct (decide ((root, parent) = (r, p))) as [[= <- <-]|Hne].
  - rewrite lookup_insert_eq. split; [done|]. by rewrite He', mkkey_eta, He, update_entries_spec.
  - rewrite lookup_insert_ne by done. rewrite app_nil_r. apply Hinv.
Qed.

(** A lookup in the table of a log. *)
Lemma lookup_estimate_spec history :
  sorted_history history → (Z.of_nat (length history) ≤ u64_max)%Z →
  ∃ t, update_all history = Ret t ∧
    ∀ root parent path_prefix base min_samples cap, StronglySorted Z.le base → is_u64 cap →
      let est := spec_estimate (observations history root parent) path_prefix base min_samples cap in
      lookup_estimate t root parent path_prefix base min_samples cap = Ret est ∧ capped cap est.
Proof.
  intros Hs Hl. destruct (update_all_spec history Hs Hl) as (t & Ht & Hinv).
  exists t. split; [done|]. intros root parent prefix base min_samples cap Hb Hc est.
  specialize (Hinv root parent). set (obs := observations history root parent) in *.
  assert (Hzero : capped cap no_estimates) by (unfold capped; cbn; ulia).
  split.
  - unfold lookup_estimate, est, spec_estimate. destruct (t !! (root, parent)) as [self|].
    + destruct Hinv as [I He].
      assert (Hso : Forall (λ o, StronglySorted Z.le (key_signature (obs_key o))) obs).
      { apply Forall_fmap, Forall_forall. intros h [_ Hh]%list_elem_of_filter.
        unfold sorted_history in Hs. rewrite Forall_forall in Hs. by apply Hs. }
      assert (Hlo : (Z.of_nat (length obs) ≤ u64_max)%Z).
      { unfold obs, observations. rewrite length_fmap.
        assert (Hf := length_filter (λ h : (MethodId * MethodId) * Observation, h.1 = (root, parent)) history).
        lia. }
      rewrite !(closest_refines obs self) by done. cbn [mbind outcome_bind].
      by destruct (spec_closest obs (Path prefix) base min_samples cap).
    + by rewrite Hinv.
  - unfold est, spec_estimate.
    destruct (spec_closest obs (Path prefix) base min_samples cap) eqn:H1; [by eapply spec_closest_capped|].
    destruct (spec_closest obs Aggregate base min_samples cap) eqn:H2; [by eapply spec_closest_capped|done].
Qed.

(** C13: The pattern table answers from its log of observations. After any
    updates with sorted signatures, fewer than 2^64, a lookup finds its entries
    only through the index and yet answers what a search of the whole log does:
    the pattern of exactly the given signature under the path if it was observed
    often enough; else the occurrence-weighted mean, in exact arithmetic, of the
    shortest signatures that contain the given one as multisets; else the same
    without the path; else zeros. It never panics, and no estimate exceeds the
    cap. *)
Theorem lookup_estimate_refines history :
  sorted_history history → (Z.of_nat (length history) ≤ u64_max)%Z →
  ∃ t, update_all history = Ret t ∧
    ∀ root parent path_prefix base min_samples cap, StronglySorted Z.le base → is_u64 cap →
      let est := spec_estimate (observations history root parent) path_prefix base min_samples cap in
      lookup_estimate t root parent path_prefix base min_samples cap = Ret est ∧ capped cap est.
Proof. apply lookup_estimate_spec. Qed.
End lookup.

(** Three groups observed under one path: the lookup of [[2]] finds the two that
    contain it and takes the shorter; [[2; 3]] is found exactly; an id never
    seen gives zeros. *)
Definition demo_history : list ((MethodId * MethodId) * Observation) :=
  (λ p : list Z * Z, ((1, 1)%Z, MkObservation (MkKey (Path prefix_root) p.1) 0 p.2)) <$>
    [([2; 3], 100); ([2; 2; 5], 40); ([2; 3], 108); ([7], 9)]%Z.

Lemma lookup_estimate_refines_witness :
  ∃ t, update_all (E:=Ewma.LatencyEwma) demo_history = Ret t ∧
    lookup_estimate t 1 1 prefix_root [2%Z] 1 1000 = Ret (MkEstimates 101 101 101) ∧
    lookup_estimate t 1 1 prefix_root [2; 3]%Z 1 50 = Ret (MkEstimates 50 50 50) ∧
    lookup_estimate t 1 1 prefix_root [8%Z] 1 1000 = Ret no_estimates ∧
    lookup_estimate t 1 1 prefix_root [2; 2]%Z 2 1000 = Ret no_estimates.
Proof.
  destruct (lookup_estimate_refines (E:=Ewma.LatencyEwma) demo_history) as (t & Ht & Hl).
  { repeat constructor; decided. }
  { vm_compute. discriminate. }
  exists t. split; [done|].
  destruct (Hl 1 1 prefix_root [2] 1 1000)%Z as [-> _]; [repeat constructor|decided|].
  destruct (Hl 1 1 prefix_root [2; 3] 1 50)%Z as [-> _]; [repeat constructor; decided|decided|].
  destruct (Hl 1 1 prefix_root [8] 1 1000)%Z as [-> _]; [repeat constructor|decided|].
  destruct (Hl 1 1 prefix_root [2; 2] 2 1000)%Z as [-> _]; [repeat constructor; decided|decided|].
  split_and!; vm_compute; reflexivity.
Defined.
