(* ===== verification/FanoutGroups.v ===== *)
(** The recovery of fan-out groups, libs/masa-policy/src/module/est/fanout.rs:
    the children of one invocation, sorted by start, cut where a child starts
    after every earlier one of its group has ended. *)
From S2P Require Export Fanout.
From stdpp Require Import sorting.

(** [sort_by_key] on the start, which is stable: insertion before the first
    later start. *)
Fixpoint insert_by_start (c : ChildRecord) (l : list ChildRecord) : list ChildRecord :=
  match l with
  | [] => [c]
  | c' :: l' => if (start c <=? start c')%Z then c :: l else c' :: insert_by_start c l'
  end.

Definition sort_by_start (l : list ChildRecord) : list ChildRecord := foldr insert_by_start [] l.

(** The children that returned, in the order they started. *)
Definition completed (children : list ChildRecord) : list ChildRecord :=
  sort_by_start (filter (λ c, is_Some (end_ c)) children).

(** [signature.sort()]. *)
Definition sort_signature (signature : list MethodId) : list MethodId := merge_sort Z.le signature.

Record FanoutGroupObservation := MkGroup { group_signature : list MethodId; group_post_join_us : Z }.

Definition push_group_observation (out : list FanoutGroupObservation) (signature : list MethodId)
    (group_max_end parent_end : Instant) : list FanoutGroupObservation :=
  out ++ [MkGroup (sort_signature signature) (micros_since parent_end group_max_end)].

(** The loop of [recover_group_observations] and what follows it. *)
Fixpoint group_loop (parent_end : Instant) (out : list FanoutGroupObservation)
    (signature : list MethodId) (group_max_end : Instant) (cs : list ChildRecord)
    : outcome (list FanoutGroupObservation) :=
  match cs with
  | [] => Ret (push_group_observation out signature group_max_end parent_end)
  | c :: cs =>
      e ← expect_some (end_ c);
      if decide (start c ≤ group_max_end)%Z then
        group_loop parent_end out (signature ++ [child_id c]) (Z.max group_max_end e) cs
      else
        group_loop parent_end (push_group_observation out signature group_max_end parent_end)
          [child_id c] e cs
  end.

Definition recover_group_observations (children : list ChildRecord) (parent_end : Instant)
    : outcome (list FanoutGroupObservation) :=
  match completed children with
  | [] => Ret []
  | c :: cs => e ← expect_some (end_ c); group_loop parent_end [] [child_id c] e cs
  end.

Definition recover_groups (children : list ChildRecord) (parent_end : Instant)
    : outcome (list (list MethodId * Z)) :=
  map (λ g, (group_signature g, group_post_join_us g)) <$> recover_group_observations children parent_end.

Record PathFanoutObservation := MkPathGroup {
  path_prefix : PathPrefix;
  service_path_prefix : PathPrefix;
  signature : list MethodId;
  service_signature : list MethodId;
  post_join_us : Z;
}.

(** What the loop of [recover_path_groups] has built. *)
Record PathState := MkPathState {
  out : list PathFanoutObservation;
  prefix : PathPrefix;
  service_prefix : PathPrefix;
}.

Definition push_path_group_observation (s : PathState) (exact service : list MethodId)
    (group_max_end parent_end : Instant) : PathState :=
  let exact := sort_signature exact in
  let service := sort_signature service in
  MkPathState
    (out s ++ [MkPathGroup (prefix s) (service_prefix s) exact service
                 (micros_since parent_end group_max_end)])
    (append_signature (prefix s) exact) (append_signature (service_prefix s) service).

Fixpoint path_loop (parent_end : Instant) (s : PathState) (exact service : list MethodId)
    (group_max_end : Instant) (cs : list ChildRecord) : outcome PathState :=
  match cs with
  | [] => Ret (push_path_group_observation s exact service group_max_end parent_end)
  | c :: cs =>
      e ← expect_some (end_ c);
      if decide (start c ≤ group_max_end)%Z then
        path_loop parent_end s (exact ++ [child_id c]) (service ++ [child_service_id c])
          (Z.max group_max_end e) cs
      else
        path_loop parent_end (push_path_group_observation s exact service group_max_end parent_end)
          [child_id c] [child_service_id c] e cs
  end.

Definition recover_path_groups (children : list ChildRecord) (parent_end : Instant)
    : outcome (list PathFanoutObservation) :=
  match completed children with
  | [] => Ret []
  | c :: cs =>
      e ← expect_some (end_ c);
      s ← path_loop parent_end (MkPathState [] prefix_root prefix_root)
            [child_id c] [child_service_id c] e cs;
      Ret (out s)
  end.

(** ** What a group is *)

Definition end_of (c : ChildRecord) : Instant := default 0%Z (end_ c).

(** Two children overlap, and the transitive closure among those of a list. *)
Definition overlap (a b : ChildRecord) : Prop := (start a ≤ end_of b ∧ start b ≤ end_of a)%Z.
Definition connected (l : list ChildRecord) : relation ChildRecord :=
  rtc (λ a b, a ∈ l ∧ b ∈ l ∧ overlap a b).

(** A child ended after it started. *)
Definition well_timed (c : ChildRecord) : Prop := is_Some (end_ c) ∧ (start c ≤ end_of c)%Z.

(** The end of the latest child of a group. *)
Definition max_end (g : list ChildRecord) : Instant :=
  match g with [] => 0%Z | c :: g => foldl (λ z c, Z.max z (end_of c)) (end_of c) g end.

(** What is reported of the groups, in order, each after the prefix of the ones
    before it. *)
Fixpoint observe (parent_end : Instant) (p sp : PathPrefix) (gs : list (list ChildRecord))
    : list PathFanoutObservation :=
  match gs with
  | [] => []
  | g :: gs =>
      let exact := sort_signature (child_id <$> g) in
      let service := sort_signature (child_service_id <$> g) in
      MkPathGroup p sp exact service (micros_since parent_end (max_end g))
        :: observe parent_end (append_signature p exact) (append_signature sp service) gs
  end.

(** Every group is reported. *)
Lemma observe_group parent_end p sp gs g :
  g ∈ gs → ∃ o, o ∈ observe parent_end p sp gs ∧ signature o = sort_signature (child_id <$> g) ∧
    service_signature o = sort_signature (child_service_id <$> g).
Proof.
  intros Hg. revert p sp. induction Hg as [g gs|g g' gs _ IH]; intros p sp; cbn.
  - eexists. split; [left|done].
  - destruct (IH (append_signature p (sort_signature (child_id <$> g')))
      (append_signature sp (sort_signature (child_service_id <$> g')))) as (o & Ho & ?).
    exists o. split; [by right|done].
Qed.

(** The cut itself. *)
Fixpoint runs (current : list ChildRecord) (cs : list ChildRecord) : list (list ChildRecord) :=
  match cs with
  | [] => [current]
  | c :: cs =>
      if decide (start c ≤ max_end current)%Z then runs (current ++ [c]) cs
      else current :: runs [c] cs
  end.

Lemma max_end_snoc g c : g ≠ [] → max_end (g ++ [c]) = Z.max (max_end g) (end_of c).
Proof. destruct g as [|c0 g]; [done|]. intros _. cbn. by rewrite foldl_app. Qed.

Lemma max_end_spec g :
  g ≠ [] → (∃ a, a ∈ g ∧ end_of a = max_end g) ∧ ∀ a, a ∈ g → (end_of a ≤ max_end g)%Z.
Proof.
  induction g as [|c g IH] using rev_ind; [done|]. intros _. destruct (decide (g = [])) as [->|Hne].
  { split; [exists c; split; [left|done]|]. by intros a ->%list_elem_of_singleton. }
  destruct (IH Hne) as [(a & Ha & Hmax) Hle]. rewrite max_end_snoc by done. split.
  - destruct (Z.max_spec (max_end g) (end_of c)) as [[_ ->]|[_ ->]].
    + exists c. split; [apply elem_of_app; right; left|done].
    + exists a. split; [by apply elem_of_app; left|done].
  - intros b [Hb%Hle| ->%list_elem_of_singleton]%elem_of_app; lia.
Qed.

Lemma end_expect c : is_Some (end_ c) → expect_some (end_ c) = Ret (end_of c).
Proof. unfold end_of. by intros [e ->]. Qed.

(** The loops report the runs. *)
Lemma path_loop_spec parent_end s current cs :
  current ≠ [] → Forall (λ c, is_Some (end_ c)) cs →
  ∃ s', path_loop parent_end s (child_id <$> current) (child_service_id <$> current)
      (max_end current) cs = Ret s' ∧
    out s' = out s ++ observe parent_end (prefix s) (service_prefix s) (runs current cs).
Proof.
  revert s current. induction cs as [|c cs IH]; intros s current Hne Hall; cbn; [eauto|].
  apply Forall_cons in Hall as [Hc Hall]. rewrite end_expect by done. cbn [mbind outcome_bind].
  destruct (decide (start c ≤ max_end current)%Z) as [Hle|Hgt].
  - specialize (IH s (current ++ [c])). rewrite !fmap_app, max_end_snoc in IH by done.
    apply IH; [by destruct current|done].
  - destruct (IH (push_path_group_observation s (child_id <$> current) (child_service_id <$> current)
      (max_end current) parent_end) [c]) as (s' & Hs' & Hout); [done..|].
    exists s'. split; [done|]. rewrite Hout. cbn. by rewrite <-app_assoc.
Qed.

Lemma group_loop_spec parent_end gs current cs p sp :
  current ≠ [] → Forall (λ c, is_Some (end_ c)) cs →
  group_loop parent_end gs (child_id <$> current) (max_end current) cs =
    Ret (gs ++ ((λ o, MkGroup (signature o) (post_join_us o)) <$> observe parent_end p sp (runs current cs))).
Proof.
  revert gs current p sp. induction cs as [|c cs IH]; intros gs current p sp Hne Hall; [done|].
  apply Forall_cons in Hall as [Hc Hall]. cbn [group_loop runs]. rewrite end_expect by done.
  cbn [mbind outcome_bind]. destruct (decide (start c ≤ max_end current)%Z) as [Hle|Hgt].
  - specialize (IH gs (current ++ [c]) p sp). rewrite fmap_app, max_end_snoc in IH by done.
    apply IH; [by destruct current|done].
  - etrans; [by apply (IH _ [c] (append_signature p (sort_signature (child_id <$> current)))
      (append_signature sp (sort_signature (child_service_id <$> current))))|].
    unfold push_group_observation. by rewrite <-app_assoc.
Qed.

(** ** The runs are the connected components *)

(** Every child of an earlier group has ended before any of a later one starts. *)
Definition before (g g' : list ChildRecord) : Prop := ∀ a b, a ∈ g → b ∈ g' → (end_of a < start b)%Z.

Definition by_start (a b : ChildRecord) : Prop := (start a ≤ start b)%Z.

Lemma runs_join current cs : mjoin (runs current cs) = current ++ cs.
Proof.
  revert current. induction cs as [|c cs IH]; intros current; cbn; [done|].
  destruct (decide _); cbn; rewrite IH; [by rewrite <-app_assoc|done].
Qed.

Lemma runs_nonempty current cs g : current ≠ [] → g ∈ runs current cs → g ≠ [].
Proof.
  revert current. induction cs as [|c cs IH]; intros current Hne; cbn; [by intros ->%list_elem_of_singleton|].
  destruct (decide _).
  - apply IH. by destruct current.
  - intros [->|Hg]%elem_of_cons; [done|by apply (IH [c])].
Qed.

Lemma runs_before current cs :
  current ≠ [] → StronglySorted by_start cs → StronglySorted before (runs current cs).
Proof.
  intros Hne Hs. revert current Hne. induction Hs as [|c cs Hs IH Hall]; intros current Hne; cbn; [by repeat constructor|].
  destruct (decide (start c ≤ max_end current)%Z) as [Hle|Hgt]; [apply IH; by destruct current|].
  constructor; [by apply IH|]. apply Forall_forall. intros g Hg a b Ha Hb.
  assert (Hin : b ∈ c :: cs).
  { change (b ∈ [c] ++ cs). rewrite <-runs_join. apply list_elem_of_join. eauto. }
  apply max_end_spec in Hne as [_ Hmax]. apply Hmax in Ha. rewrite Forall_forall in Hall.
  apply elem_of_cons in Hin as [->|Hin%Hall]; [lia|]. unfold by_start in Hin. lia.
Qed.

Lemma connected_mono l l' a b : l ⊆ l' → connected l a b → connected l' a b.
Proof. intros Hsub. apply rtc_subrel. intros x y (? & ? & ?). auto. Qed.

Lemma connected_sym l a b : connected l a b → connected l b a.
Proof.
  induction 1 as [|x y z (? & ? & [? ?]) _ IH]; [done|]. eapply rtc_r; [done|].
  split_and!; [done..|]. by split.
Qed.

Lemma connected_snoc g c :
  g ≠ [] → Forall well_timed (g ++ [c]) → Forall (λ a, by_start a c) g → (start c ≤ max_end g)%Z →
  (∀ a b, a ∈ g → b ∈ g → connected g a b) →
  ∀ a b, a ∈ g ++ [c] → b ∈ g ++ [c] → connected (g ++ [c]) a b.
Proof.
  intros Hne Hwt Hstart Hle Hg. destruct (max_end_spec g Hne) as [(m & Hm & Hmax) _].
  apply Forall_app in Hwt as [_ [[_ Hc] _]%Forall_cons].
  assert (Hsub : g ⊆ g ++ [c]) by (intros x ?; apply elem_of_app; by left).
  assert (Hmc : connected (g ++ [c]) m c).
  { apply rtc_once. split_and!; [by apply Hsub|apply elem_of_app; right; left|].
    rewrite Forall_forall in Hstart. apply Hstart in Hm. unfold by_start in Hm. split; lia. }
  assert (Hto : ∀ a, a ∈ g ++ [c] → connected (g ++ [c]) m a).
  { intros a [Ha| ->%list_elem_of_singleton]%elem_of_app; [|done].
    eapply connected_mono; [exact Hsub|]. by apply Hg. }
  intros a b Ha Hb. etrans; [apply connected_sym|]; by apply Hto.
Qed.

Lemma runs_connected current cs g :
  current ≠ [] → Forall well_timed (current ++ cs) → StronglySorted by_start cs →
  (∀ a c, a ∈ current → c ∈ cs → by_start a c) →
  (∀ a b, a ∈ current → b ∈ current → connected current a b) →
  g ∈ runs current cs → ∀ a b, a ∈ g → b ∈ g → connected g a b.
Proof.
  intros Hne Hwt Hs. revert current Hne Hwt.
  induction Hs as [|c cs Hs IH Hall]; intros current Hne Hwt Hstart Hcur; cbn.
  { by intros ->%list_elem_of_singleton. }
  rewrite Forall_forall in Hall. destruct (decide (start c ≤ max_end current)%Z) as [Hle|Hgt].
  - apply IH; [by destruct current|by rewrite <-app_assoc| |].
    + intros a c' [Ha| ->%list_elem_of_singleton]%elem_of_app Hc'; [apply Hstart; [done|by right]|by apply Hall].
    + apply connected_snoc; try done.
      * change (c :: cs) with ([c] ++ cs) in Hwt. rewrite app_assoc in Hwt. by apply Forall_app in Hwt as [? _].
      * apply Forall_forall. intros a Ha. apply Hstart; [done|left].
  - intros [->|Hg]%elem_of_cons; [done|]. apply Forall_app in Hwt as [_ Hwt]. apply (IH [c]); try done.
    + by intros a c' ->%list_elem_of_singleton Hc'%Hall.
    + intros a b ->%list_elem_of_singleton ->%list_elem_of_singleton. apply rtc_refl.
Qed.

(** ** Sorting *)

Lemma insert_by_start_perm c l : insert_by_start c l ≡ₚ c :: l.
Proof.
  induction l as [|c' l IH]; cbn; [done|]. destruct (start c <=? start c')%Z; [done|].
  rewrite IH. apply Permutation_swap.
Qed.

Lemma sort_by_start_perm l : sort_by_start l ≡ₚ l.
Proof. induction l as [|c l IH]; cbn; [done|]. by rewrite insert_by_start_perm, IH. Qed.

Lemma insert_by_start_sorted c l : StronglySorted by_start l → StronglySorted by_start (insert_by_start c l).
Proof.
  induction 1 as [|c' l Hs IH Hall]; cbn; [by repeat constructor|].
  destruct (Z.leb_spec (start c) (start c')) as [Hle|Hlt].
  - constructor; [by constructor|]. constructor; [done|].
    eapply Forall_impl; [exact Hall|]. unfold by_start. intros. lia.
  - constructor; [done|]. rewrite insert_by_start_perm. constructor; [unfold by_start; lia|done].
Qed.

Lemma sort_by_start_sorted l : StronglySorted by_start (sort_by_start l).
Proof. induction l as [|c l IH]; [constructor|]. by apply insert_by_start_sorted. Qed.

Lemma completed_well_timed children :
  Forall (λ c, ∀ e, end_ c = Some e → (start c ≤ e)%Z) children → Forall well_timed (completed children).
Proof.
  intros Hwt. unfold completed. rewrite sort_by_start_perm. apply Forall_forall.
  intros c [[e He] Hc]%list_elem_of_filter. rewrite Forall_forall in Hwt. specialize (Hwt c Hc e He).
  unfold well_timed, end_of. rewrite He. split; [done|exact Hwt].
Qed.

Lemma before_lookup gs i j gi gj :
  StronglySorted before gs → gs !! i = Some gi → gs !! j = Some gj → i < j → before gi gj.
Proof.
  intros Hs. revert i j. induction Hs as [|g gs Hs IH Hall]; intros i j Hi Hj Hlt; [done|].
  destruct j as [|j]; [lia|]. destruct i as [|i]; cbn in Hi, Hj; [|eapply IH; eauto; lia].
  simplify_eq. rewrite Forall_forall in Hall. apply Hall. by eapply list_elem_of_lookup_2.
Qed.

(** Children of different groups neither overlap nor are the same. *)
Lemma groups_apart gs i j gi gj a b :
  StronglySorted before gs → Forall well_timed (mjoin gs) →
  gs !! i = Some gi → gs !! j = Some gj → a ∈ gi → b ∈ gj → overlap a b ∨ a = b → i = j.
Proof.
  intros Hs Hwt Hi Hj Ha Hb Hab. rewrite Forall_forall in Hwt.
  assert (Hwa : well_timed a) by (apply Hwt, list_elem_of_join; exists gi; split; [done|by eapply list_elem_of_lookup_2]).
  assert (Hwb : well_timed b) by (apply Hwt, list_elem_of_join; exists gj; split; [done|by eapply list_elem_of_lookup_2]).
  destruct Hwa as [_ Hwa], Hwb as [_ Hwb].
  destruct (Nat.lt_trichotomy i j) as [Hlt|[?|Hlt]]; [exfalso|done|exfalso].
  - assert (H := before_lookup gs i j gi gj Hs Hi Hj Hlt a b Ha Hb).
    destruct Hab as [[? ?]| ->]; lia.
  - assert (H := before_lookup gs j i gj gi Hs Hj Hi Hlt b a Hb Ha).
    destruct Hab as [[? ?]| ->]; lia.
Qed.

Lemma connected_same_group gs i j gi gj a b :
  StronglySorted before gs → Forall well_timed (mjoin gs) →
  gs !! i = Some gi → gs !! j = Some gj → a ∈ gi → b ∈ gj → connected (mjoin gs) a b → i = j.
Proof.
  intros Hs Hwt Hi Hj Ha Hb Hab. revert i gi Hi Ha.
  induction Hab as [|a c b (_ & Hc & Hac) _ IH]; intros i gi Hi Ha; [eapply groups_apart; eauto|].
  apply list_elem_of_join in Hc as (gk & Hc & [k Hk]%list_elem_of_lookup_1).
  assert (i = k) as -> by (eapply (groups_apart gs i k); eauto). by apply (IH Hb k gk).
Qed.

Lemma groups_spec children parent_end :
  Forall (λ c, ∀ e, end_ c = Some e → (start c ≤ e)%Z) children →
  ∃ gs, recover_path_groups children parent_end = Ret (observe parent_end prefix_root prefix_root gs) ∧
    recover_groups children parent_end = Ret ((λ o, (signature o, post_join_us o)) <$>
      observe parent_end prefix_root prefix_root gs) ∧
    mjoin gs ≡ₚ filter (λ c, is_Some (end_ c)) children ∧
    (∀ g, g ∈ gs → g ≠ []) ∧ StronglySorted before gs ∧
    ∀ i j gi gj a b, gs !! i = Some gi → gs !! j = Some gj → a ∈ gi → b ∈ gj →
      i = j ↔ connected (mjoin gs) a b.
Proof.
  intros Hwt. apply completed_well_timed in Hwt.
  unfold recover_path_groups, recover_groups, recover_group_observations.
  assert (Hperm : completed children ≡ₚ filter (λ c, is_Some (end_ c)) children) by apply sort_by_start_perm.
  assert (Hs : StronglySorted by_start (completed children)) by apply sort_by_start_sorted.
  destruct (completed children) as [|c cs].
  { exists []. split_and!; [done..| | |].
    - by intros g ?%not_elem_of_nil.
    - constructor.
    - by intros i j gi gj a b Hi. }
  apply StronglySorted_inv in Hs as [Hs Hall]. assert (Hwt' := Hwt).
  apply Forall_cons in Hwt' as [Hc Hcs]. rewrite end_expect by apply Hc. cbn [mbind outcome_bind].
  assert (Hcs' : Forall (λ c, is_Some (end_ c)) cs) by (eapply Forall_impl; [exact Hcs|by intros ? []]).
  assert (Hjoin : mjoin (runs [c] cs) = c :: cs) by apply runs_join.
  assert (Hbefore : StronglySorted before (runs [c] cs)) by by apply runs_before.
  exists (runs [c] cs). split_and!.
  - destruct (path_loop_spec parent_end (MkPathState [] prefix_root prefix_root) [c] cs)
      as (s' & Hs' & Hout); [done..|].
    cbn [fmap list_fmap max_end foldl] in Hs'. rewrite Hs'. cbn [mbind outcome_bind]. by rewrite Hout.
  - change (fmap (M:=outcome) (map (λ g, (group_signature g, group_post_join_us g)))
      (group_loop parent_end [] (child_id <$> [c]) (max_end [c]) cs) =
      Ret ((λ o, (signature o, post_join_us o)) <$> observe parent_end prefix_root prefix_root (runs [c] cs))).
    rewrite (group_loop_spec parent_end [] [c] cs prefix_root prefix_root) by done. cbn [fmap outcome_fmap app].
    f_equal. change (map ?f ?l) with (f <$> l). by rewrite <-list_fmap_compose.
  - by rewrite Hjoin.
  - intros g Hg. by apply (runs_nonempty [c] cs).
  - done.
  - intros i j gi gj a b Hi Hj Ha Hb. split.
    + intros <-. simplify_eq. apply (connected_mono gi).
      { intros x Hx. apply list_elem_of_join. exists gi. split; [done|by eapply list_elem_of_lookup_2]. }
      eapply (runs_connected [c] cs); try done.
      * intros x y ->%list_elem_of_singleton Hy. rewrite Forall_forall in Hall. by apply Hall.
      * intros x y ->%list_elem_of_singleton ->%list_elem_of_singleton. apply rtc_refl.
      * by eapply list_elem_of_lookup_2.
    + eapply connected_same_group; try done. by rewrite Hjoin.
Qed.


(** C18: The groups recovered from an invocation's children are the connected
    components of the children that returned, two being linked when their
    intervals overlap: every such child is in one group, the groups follow each
    other in time, and two children are in the same group exactly when a chain
    of overlaps joins them. A group is reported with its sorted signatures, the
    time from the end of its latest child, and the prefix hashed from the groups
    before it; [recover_groups] reports the same groups without prefixes. *)
Theorem groups_are_components children parent_end :
  Forall (λ c, ∀ e, end_ c = Some e → (start c ≤ e)%Z) children →
  ∃ gs, recover_path_groups children parent_end = Ret (observe parent_end prefix_root prefix_root gs) ∧
    recover_groups children parent_end = Ret ((λ o, (signature o, post_join_us o)) <$>
      observe parent_end prefix_root prefix_root gs) ∧
    mjoin gs ≡ₚ filter (λ c, is_Some (end_ c)) children ∧
    (∀ g, g ∈ gs → g ≠ []) ∧ StronglySorted before gs ∧
    ∀ i j gi gj a b, gs !! i = Some gi → gs !! j = Some gj → a ∈ gi → b ∈ gj →
      i = j ↔ connected (mjoin gs) a b.
Proof. apply groups_spec. Qed.

(** Two overlapping children, one that never returned, and a later pair in
    which the second starts as the first ends. *)
Definition demo_children : list ChildRecord :=
  [MkChild 3 13 1000 (Some 9000) true; MkChild 2 12 2000 (Some 5000) true; MkChild 9 19 3000 None true;
   MkChild 4 14 10000 (Some 20000) true; MkChild 4 14 20000 (Some 26000) true]%Z.

Lemma groups_are_components_witness :
  recover_groups demo_children 30000 = Ret [([2; 3], 21); ([4; 4], 4)]%Z ∧
  ∃ gs, recover_path_groups demo_children 30000 = Ret (observe 30000 prefix_root prefix_root gs) ∧
    mjoin gs ≡ₚ filter (λ c, is_Some (end_ c)) demo_children.
Proof.
  split; [vm_compute; reflexivity|].
  destruct (groups_are_components demo_children 30000) as (gs & Hp & _ & Hj & _).
  { repeat constructor; by intros e [= <-]. }
  by exists gs.
Defined.
