(* ===== verification/Float64.v ===== *)
(** [f64] of the Rust language: IEEE 754 binary64, by the Standard Library's
    specification of floating-point operations, with the conversions and
    methods the sources use; and the order theory of its rounding: an operation
    whose exact result lies between two floats returns a float between them. *)
From S2P Require Export Prelude.
From Stdlib Require Export SpecFloat.

Notation prec := 53%Z.
Notation emax := 1024%Z.
Notation f64 := spec_float.

Definition f64_add : f64 → f64 → f64 := SFadd prec emax.
Definition f64_sub : f64 → f64 → f64 := SFsub prec emax.
Definition f64_mul : f64 → f64 → f64 := SFmul prec emax.
Definition f64_div : f64 → f64 → f64 := SFdiv prec emax.
Definition f64_sqrt : f64 → f64 := SFsqrt prec emax.
Definition f64_lt : f64 → f64 → bool := SFltb.
Definition f64_le : f64 → f64 → bool := SFleb.

(** [z as f64] of an integer. *)
Definition f64_of_Z (z : Z) : f64 := binary_normalize prec emax z 0 false.

(** The float nearest to a fraction: a decimal literal. *)
Definition f64_lit (num den : Z) : f64 := f64_div (f64_of_Z num) (f64_of_Z den).

Definition f64_zero : f64 := S754_zero false.
Definition f64_one : f64 := f64_of_Z 1.

(** [f64::EPSILON], 2^-52. *)
Definition f64_epsilon : f64 := binary_normalize prec emax 1 (-52) false.

Definition f64_is_finite (x : f64) : bool :=
  match x with S754_zero _ | S754_finite _ _ _ => true | _ => false end.

(** [f64::min], [f64::max]: the other argument if one is not a number. *)
Definition f64_min (x y : f64) : f64 :=
  match SFcompare x y with
  | Some Gt => y
  | Some _ => x
  | None => if x is S754_nan then y else x
  end.

Definition f64_max (x y : f64) : f64 :=
  match SFcompare x y with
  | Some Lt => y
  | Some _ => x
  | None => if x is S754_nan then y else x
  end.

(** [f64::clamp]. *)
Definition f64_clamp (x lo hi : f64) : f64 :=
  let x := if f64_lt x lo then lo else x in
  if f64_lt hi x then hi else x.

(** [x as u64]: towards zero, saturating, zero for what is not a number. *)
Definition f64_to_u64 (x : f64) : Z :=
  match x with
  | S754_finite false m e => Z.min u64_max (Z.shiftl (Zpos m) e)
  | S754_infinity false => u64_max
  | _ => 0
  end.

(** [f64::round]: to the nearest integer, half away from zero. *)
Definition f64_round (x : f64) : f64 :=
  match x with
  | S754_finite s m e =>
      if decide (0 ≤ e)%Z then x
      else
        let n := Z.shiftr (Zpos m + 2 ^ (- e - 1)) (- e) in
        binary_normalize prec emax (if s then - n else n) 0 s
  | _ => x
  end.

(** ** Values *)

(** The finite floats of the format. *)
Definition is_fin (x : f64) : Prop :=
  match x with
  | S754_zero _ => True
  | S754_finite _ m e => bounded prec emax m e = true
  | _ => False
  end.

#[export] Instance is_fin_dec x : Decision (is_fin x).
Proof. destruct x; apply _. Defined.

(** A power of two, and the value of a float, both in units of 2^-3000. *)
Definition pw (e : Z) : Z := 2 ^ (e + 3000).

Definition fv (x : f64) : Z :=
  match x with
  | S754_finite s m e => (if s then Zneg m else Zpos m) * pw e
  | _ => 0
  end.

Lemma pw_pos e : (-3000 ≤ e → 0 < pw e)%Z.
Proof. intros He. apply Z.pow_pos_nonneg; lia. Qed.

Lemma pw_split e e' : (-3000 ≤ e ≤ e')%Z → pw e' = (pw e * 2 ^ (e' - e))%Z.
Proof. intros He. unfold pw. rewrite <-Z.pow_add_r by lia. f_equal. lia. Qed.

Lemma pw_mono e e' : (-3000 ≤ e ≤ e')%Z → (pw e ≤ pw e')%Z.
Proof. intros He. apply Z.pow_le_mono_r; lia. Qed.

Lemma digits2_pos_bounds m :
  (2 ^ (Zpos (digits2_pos m) - 1) ≤ Zpos m < 2 ^ Zpos (digits2_pos m))%Z.
Proof.
  induction m as [m IH|m IH|]; cbn [digits2_pos]; [..|done].
  all: rewrite Pos2Z.inj_succ; replace (Z.succ (Zpos (digits2_pos m)) - 1)%Z
    with (Z.succ (Zpos (digits2_pos m) - 1)) by lia.
  all: rewrite !Z.pow_succ_r by lia; lia.
Qed.

Lemma digits2_pos_le m n : (Zpos m < 2 ^ n → 0 ≤ n → Zpos (digits2_pos m) ≤ n)%Z.
Proof.
  intros Hm Hn. destruct (Z.le_gt_cases (Zpos (digits2_pos m)) n) as [|Hgt]; [done|].
  assert (Hb := digits2_pos_bounds m).
  assert (2 ^ n ≤ 2 ^ (Zpos (digits2_pos m) - 1))%Z by (apply Z.pow_le_mono_r; lia). lia.
Qed.

Lemma digits2_pos_ge m n : (2 ^ n ≤ Zpos m → n < Zpos (digits2_pos m))%Z.
Proof.
  intros Hm. destruct (Z.le_gt_cases (Zpos (digits2_pos m)) n) as [Hle|]; [|done].
  assert (Hb := digits2_pos_bounds m).
  assert (2 ^ Zpos (digits2_pos m) ≤ 2 ^ n)%Z by (apply Z.pow_le_mono_r; lia). lia.
Qed.

(** The shape of a finite mantissa: at most 53 bits, and exactly 53 above the
    least exponent. *)
Lemma bounded_spec m e :
  bounded prec emax m e = true ↔
  (Zpos m < 2 ^ 53 ∧ -1074 ≤ e ≤ 971 ∧ (e = -1074 ∨ 2 ^ 52 ≤ Zpos m))%Z.
Proof.
  unfold bounded, canonical_mantissa, fexp, emin. rewrite andb_true_iff, Z.eqb_eq, Z.leb_le.
  assert (Hb := digits2_pos_bounds m). split.
  - intros [He Hmax]. assert (Hd : (Zpos (digits2_pos m) ≤ 53)%Z) by lia.
    assert (2 ^ Zpos (digits2_pos m) ≤ 2 ^ 53)%Z by (apply Z.pow_le_mono_r; lia).
    split_and!; [lia..|]. destruct (Z.eq_dec e (-1074)) as [|Hne]; [by left|right].
    replace (Zpos (digits2_pos m)) with 53%Z in Hb by lia. exact (proj1 Hb).
  - intros (Hlt & [Hmin Hmax] & Hor). assert (Hd := digits2_pos_le m 53 Hlt ltac:(lia)).
    split; [|lia]. destruct Hor as [->|Hge]; [lia|]. apply digits2_pos_ge in Hge. lia.
Qed.

(** ** Shifting with a remainder *)

Lemma iter_pos_iter {A} (f : A → A) n x : iter_pos f n x = Pos.iter f x n.
Proof.
  revert x. induction n as [n IH|n IH|]; intros x; cbn; [..|done].
  - rewrite !IH. by rewrite !Pos.iter_swap.
  - by rewrite !IH.
Qed.

(** What a shift record says of the integer [m] after [k] shifts. *)
Definition shifted (m k : Z) (r : shr_record) : Prop :=
  ∃ rem, m = (shr_m r * 2 ^ k + rem)%Z ∧ (0 ≤ shr_m r ∧ 0 ≤ rem < 2 ^ k)%Z ∧
    match shr_r r, shr_s r with
    | false, false => rem = 0%Z
    | false, true => (0 < 2 * rem < 2 ^ k)%Z
    | true, false => (2 * rem = 2 ^ k)%Z
    | true, true => (2 ^ k < 2 * rem)%Z
    end.

Lemma shr_1_shifted m k r : (0 ≤ k)%Z → shifted m k r → shifted m (k + 1) (shr_1 r).
Proof.
  intros Hk (rem & -> & [Hq Hrem] & Hc). destruct r as [q r s]; cbn [shr_m shr_r shr_s] in *.
  assert (Hp : (2 ^ (k + 1) = 2 * 2 ^ k)%Z) by (rewrite Z.pow_add_r by lia; lia).
  assert (Hb : ∃ q' b, q = (2 * q' + Z.b2z b)%Z ∧ (0 ≤ q')%Z ∧
    shr_1 {| shr_m := q; shr_r := r; shr_s := s |} = {| shr_m := q'; shr_r := b; shr_s := r || s |}).
  { destruct q as [|[p|p|]|]; [exists 0%Z, false|exists (Zpos p), true|exists (Zpos p), false|exists 0%Z, true|lia]; done. }
  destruct Hb as (q' & b & -> & Hq' & ->). exists (Z.b2z b * 2 ^ k + rem)%Z. cbn [shr_m shr_r shr_s].
  rewrite Hp. split; [lia|]. split; [destruct b; cbn; lia|].
  destruct b, r, s; cbn in *; lia.
Qed.

(** A location adds two bits below the last place. *)
Definition loc_bits (l : location) : Z :=
  match l with
  | loc_Exact => 0
  | loc_Inexact Lt => 1
  | loc_Inexact Eq => 2
  | loc_Inexact Gt => 3
  end.

Lemma shr_shifted m e n l : (0 ≤ m)%Z →
  let '(r, e') := shr (shr_record_of_loc m l) e n in
  e' = (e + Z.max n 0)%Z ∧ shifted (4 * m + loc_bits l) (2 + Z.max n 0) r.
Proof.
  intros Hm. assert (H0 : shifted (4 * m + loc_bits l) 2 (shr_record_of_loc m l))
    by (exists (loc_bits l); destruct l as [|[]]; cbn; lia).
  destruct n as [|n|n]; cbn [shr]; [by split; [lia|]| |by split; [lia|]]. split; [done|].
  rewrite iter_pos_iter. replace (Z.max (Zpos n) 0) with (Zpos n) by lia.
  induction n as [|n IH] using Pos.peano_ind; [by apply (shr_1_shifted _ 2)|].
  rewrite Pos.iter_succ, Pos2Z.inj_succ, Z.add_succ_r. apply shr_1_shifted; [lia|done].
Qed.

(** Rounding goes up only past a remainder. *)
Lemma round_nearest_even_shifted m k r : shifted m k r →
  let m' := round_nearest_even (shr_m r) (loc_of_shr_record r) in
  (m' = shr_m r ∧ m' * 2 ^ k ≤ m < (m' + 1) * 2 ^ k)%Z ∨
  (m' = shr_m r + 1 ∧ shr_m r * 2 ^ k < m < m' * 2 ^ k)%Z.
Proof.
  intros (rem & -> & [Hq Hrem] & Hc). destruct r as [q [] []]; cbn in *.
  - right. split; lia.
  - destruct (Z.even q); [left|right]; split; lia.
  - left. split; lia.
  - left. split; lia.
Qed.

(** ** Rounding between floats *)

Lemma pow_ge_2 n : (1 ≤ n → 2 ≤ 2 ^ n)%Z.
Proof. intros Hn. apply (Z.pow_le_mono_r 2 1); lia. Qed.

(** The floats above [2^52 * 2^e] lie on the grid of [2^e]. *)
Lemma grid f q e :
  is_fin f → (0 ≤ q ∧ -1074 ≤ e)%Z → (e = -1074 ∨ 2 ^ 52 ≤ q)%Z →
  (q * pw e < fv f)%Z → ((q + 1) * pw e ≤ fv f)%Z.
Proof.
  intros Hf [Hq He] Hor Hlt. assert (Hp := pw_pos e ltac:(lia)).
  destruct f as [| | |[] m ef]; cbn [fv] in *; try done; [nia..| |].
  - assert (Hpf : (0 ≤ pw ef)%Z) by (apply Z.pow_nonneg; lia). nia.
  - apply bounded_spec in Hf as (Hm & Hef & _). destruct (Z.le_gt_cases e ef) as [Hle|Hgt].
    + rewrite (pw_split e ef) in * by lia.
      replace (Zpos m * (pw e * 2 ^ (ef - e)))%Z with (Zpos m * 2 ^ (ef - e) * pw e)%Z in * by ring.
      apply Z.mul_le_mono_nonneg_r; [lia|]. apply Zmult_lt_reg_r in Hlt; lia.
    + exfalso. destruct Hor as [->|Hq52]; [lia|].
      rewrite (pw_split ef e) in Hlt by lia. assert (Hpf := pw_pos ef ltac:(lia)).
      assert (H2 : (2 ≤ 2 ^ (e - ef))%Z) by (apply pow_ge_2; lia).
      assert (2 ^ 52 * 2 ≤ q * 2 ^ (e - ef))%Z by nia.
      assert (Zpos m * pw ef < q * 2 ^ (e - ef) * pw ef)%Z by nia. nia.
Qed.

Lemma zdigits_bound m : (0 ≤ m < 2 ^ 53)%Z → (0 ≤ Zdigits2 m ≤ 53)%Z.
Proof. destruct m as [|m|m]; cbn [Zdigits2]; [lia| |lia]. intros Hm. assert (H := digits2_pos_le m 53). lia. Qed.

(** The exact part of a shift that has nothing to do. *)
Lemma shr_fexp_small m e :
  (0 ≤ m < 2 ^ 53)%Z → (-1074 ≤ e)%Z → shr_fexp prec emax m e loc_Exact = (shr_record_of_loc m loc_Exact, e).
Proof.
  intros Hm He. apply zdigits_bound in Hm. unfold shr_fexp.
  assert (Hn : (fexp prec emax (Zdigits2 m + e) - e ≤ 0)%Z) by (unfold fexp, emin; lia).
  destruct (fexp _ _ _ - e)%Z; [done|lia|done].
Qed.

(** The value a mantissa and a location stand for. *)
Definition located (m : positive) (e : Z) (l : location) : Z := (4 * Zpos m + loc_bits l) * pw (e - 2).

Lemma located_exact m e : (-2990 ≤ e)%Z → located m e loc_Exact = (Zpos m * pw e)%Z.
Proof.
  intros He. unfold located. rewrite (pw_split (e - 2) e) by lia.
  replace (e - (e - 2))%Z with 2%Z by lia. cbn [loc_bits]. lia.
Qed.

(** The result of rounding: the last place [E], the part [q] above it, and the
    rounded mantissa [m']. *)
Lemma round_aux_shape m e l :
  let E := fexp prec emax (Zpos (digits2_pos m) + e) in
  (-2990 ≤ e ≤ E)%Z → ∃ q m',
    (0 ≤ q < 2 ^ 53 ∧ -1074 ≤ E ∧ (E = -1074 ∨ 2 ^ 52 ≤ q))%Z ∧
    ((m' = q ∧ q * pw E ≤ located m e l < (q + 1) * pw E)%Z ∨
     (m' = q + 1 ∧ q * pw E < located m e l < (q + 1) * pw E)%Z) ∧
    binary_round_aux prec emax false (Zpos m) e l =
      (let '(m1, e1) := if decide (m' = 2 ^ 53)%Z then (2 ^ 52, E + 1)%Z else (m', E) in
       match m1 with
       | Zpos p => if (e1 <=? 971)%Z then S754_finite false p e1 else S754_infinity false
       | _ => S754_zero false
       end).
Proof.
  intros E He. unfold binary_round_aux, shr_fexp at 1. cbn [Zdigits2]. fold E.
  assert (Hs := shr_shifted (Zpos m) e (E - e) l ltac:(lia)).
  destruct (shr (shr_record_of_loc (Zpos m) l) e (E - e)) as [r e'] eqn:Hshr.
  destruct Hs as [-> Hs]. replace (e + Z.max (E - e) 0)%Z with E by lia.
  replace (2 + Z.max (E - e) 0)%Z with (E - (e - 2))%Z in Hs by lia.
  assert (Hr := round_nearest_even_shifted _ _ _ Hs).
  set (m' := round_nearest_even _ _) in *. cbn zeta in Hr. destruct Hs as (rem & Hm & [Hq Hrem] & _).
  set (q := shr_m r) in *. exists q, m'.
  assert (Hd := digits2_pos_bounds m). set (d := Zpos (digits2_pos m)) in *.
  assert (HE : (E = Z.max (d + e - 53) (-1074))%Z) by (unfold E, fexp, emin; lia).
  assert (Hk : (0 < 2 ^ (E - (e - 2)))%Z) by (apply Z.pow_pos_nonneg; lia).
  assert (Hl : (0 ≤ loc_bits l ≤ 3)%Z) by (destruct l as [|[]]; cbn; lia).
  unfold located. set (x := (4 * Zpos m + loc_bits l)%Z) in *.
  assert (Hx : (2 ^ (d + 1) ≤ x < 2 ^ (d + 2))%Z).
  { replace (d + 1)%Z with (d - 1 + 2)%Z by lia. rewrite !Z.pow_add_r by lia. unfold x. lia. }
  assert (Hq53 : (q < 2 ^ 53)%Z).
  { assert (H53 : (2 ^ (d + 2) ≤ 2 ^ 53 * 2 ^ (E - (e - 2)))%Z)
      by (rewrite <-Z.pow_add_r by lia; apply Z.pow_le_mono_r; lia). nia. }
  assert (Hq52 : (E = -1074 ∨ 2 ^ 52 ≤ q)%Z).
  { destruct (Z.eq_dec E (-1074)) as [|Hne]; [by left|right].
    assert (H52 : (2 ^ 52 * 2 ^ (E - (e - 2)) = 2 ^ (d + 1))%Z) by (rewrite <-Z.pow_add_r by lia; f_equal; lia). nia. }
  assert (HpE : (pw E = pw (e - 2) * 2 ^ (E - (e - 2)))%Z) by (apply pw_split; lia).
  assert (Hpe := pw_pos (e - 2) ltac:(lia)).
  assert (Hbr : ((m' = q ∧ q * pw E ≤ x * pw (e - 2) < (q + 1) * pw E)%Z ∨
     (m' = q + 1 ∧ q * pw E < x * pw (e - 2) < (q + 1) * pw E)%Z)).
  { rewrite HpE. destruct Hr as [[-> Hr]|[-> Hr]]; [left|right]; split; try done; nia. }
  split; [lia|]. split; [done|].
  assert (Hm' : (0 ≤ m' ≤ 2 ^ 53)%Z) by lia.
  destruct (decide (m' = 2 ^ 53)%Z) as [->|Hne].
  - replace (shr_fexp prec emax (2 ^ 53) E loc_Exact) with
      ({| shr_m := 2 ^ 52; shr_r := false; shr_s := false |}, (E + 1)%Z); [done|].
    unfold shr_fexp. change (Zdigits2 (2 ^ 53)) with 54%Z.
    replace (fexp prec emax (54 + E) - E)%Z with 1%Z by (unfold fexp, emin; lia). done.
  - rewrite shr_fexp_small by lia. cbn [shr_record_of_loc shr_m].
    destruct m' as [|p|p]; [done|done|lia].
Qed.

Lemma round_aux_between m e l lo hi :
  (-2990 ≤ e ≤ fexp prec emax (Zpos (digits2_pos m) + e))%Z → is_fin lo → is_fin hi →
  (fv lo ≤ located m e l ≤ fv hi)%Z →
  let r := binary_round_aux prec emax false (Zpos m) e l in
  is_fin r ∧ (fv lo ≤ fv r ≤ fv hi)%Z ∧ (0 ≤ fv r)%Z.
Proof.
  intros He Hlo Hhi [Hl Hh]. destruct (round_aux_shape m e l He) as (q & m' & (Hq & HE & Hor) & Hbr & Heq).
  set (E := fexp _ _ _) in *. cbn zeta. rewrite Heq. clear Heq. assert (HpE := pw_pos E ltac:(lia)).
  assert (Hlo' : (fv lo ≤ m' * pw E)%Z).
  { assert (Hg := grid lo q E Hlo ltac:(lia) Hor). destruct Hbr as [[-> ?]|[-> ?]]; nia. }
  assert (Hhi' : (m' * pw E ≤ fv hi)%Z).
  { assert (Hg := grid hi q E Hhi ltac:(lia) Hor). destruct Hbr as [[-> ?]|[-> ?]]; nia. }
  assert (Hm' : (0 ≤ m' ≤ 2 ^ 53 ∧ (E = -1074 ∨ 2 ^ 52 ≤ m'))%Z) by (destruct Hbr as [[-> _]|[-> _]]; lia).
  assert (Hval : ∃ m1 e1, (if decide (m' = 2 ^ 53)%Z then (2 ^ 52, E + 1)%Z else (m', E)) = (m1, e1) ∧
    (m1 * pw e1 = m' * pw E ∧ 0 ≤ m1 < 2 ^ 53 ∧ -1074 ≤ e1 ∧ (e1 = -1074 ∨ 2 ^ 52 ≤ m1))%Z).
  { destruct (decide (m' = 2 ^ 53)%Z) as [->|Hne]; eexists _, _; (split; [done|]); [|lia].
    rewrite (pw_split E (E + 1)) by lia. replace (E + 1 - E)%Z with 1%Z by lia. lia. }
  destruct Hval as (m1 & e1 & -> & Hv & Hm1 & He1 & Hor1). rewrite <-Hv in Hlo', Hhi'.
  assert (Hpe1 := pw_pos e1 ltac:(lia)).
  destruct m1 as [|p|p]; cbn [is_fin fv]; [nia| |lia].
  assert (Hmax : (e1 ≤ 971)%Z).
  { destruct (Z.le_gt_cases e1 971) as [|Hgt]; [done|exfalso]. destruct Hor1 as [->|H52]; [lia|].
    destruct hi as [| | |[] mh eh]; cbn [is_fin fv] in *; try done; [nia| |].
    - assert (0 ≤ pw eh)%Z by (apply Z.pow_nonneg; lia). nia.
    - apply bounded_spec in Hhi as (Hmh & Heh & _). rewrite (pw_split eh e1) in Hhi' by lia.
      assert (Hpf := pw_pos eh ltac:(lia)).
      assert (H2 : (2 ≤ 2 ^ (e1 - eh))%Z) by (apply pow_ge_2; lia).
      assert (2 ^ 53 ≤ Zpos p * 2 ^ (e1 - eh))%Z by nia. nia. }
  destruct (Z.leb_spec e1 971); [|lia]. cbn [is_fin fv]. split_and!; [|done|done|nia].
  apply bounded_spec. lia.
Qed.

(** ** Signs and alignment *)

Lemma fv_opp x : fv (SFopp x) = (- fv x)%Z.
Proof. destruct x as [| | |[] m e]; cbn; lia. Qed.

Lemma is_fin_opp x : is_fin (SFopp x) ↔ is_fin x.
Proof. by destruct x. Qed.

Lemma round_aux_opp m e l :
  binary_round_aux prec emax true m e l = SFopp (binary_round_aux prec emax false m e l).
Proof.
  unfold binary_round_aux. destruct (shr_fexp prec emax m e l) as [r e'].
  destruct (shr_fexp prec emax _ e' loc_Exact) as [r' e'']. destruct (shr_m r'); try done.
  by destruct (_ <=? _)%Z.
Qed.

Lemma pos_iter_xO m d : Zpos (Pos.iter xO m d) = (Zpos m * 2 ^ Zpos d)%Z.
Proof.
  induction d as [|d IH] using Pos.peano_ind; [cbn; lia|].
  rewrite Pos.iter_succ, Pos2Z.inj_succ, Z.pow_succ_r by lia. lia.
Qed.

Lemma digits_iter_xO m d : Zpos (digits2_pos (Pos.iter xO m d)) = (Zpos (digits2_pos m) + Zpos d)%Z.
Proof.
  induction d as [|d IH] using Pos.peano_ind; [cbn; lia|].
  rewrite Pos.iter_succ, Pos2Z.inj_succ. cbn [digits2_pos]. lia.
Qed.

(** Alignment keeps the value. *)
Lemma shl_align_value m e e' : (-3000 ≤ e)%Z → (-3000 ≤ e')%Z →
  (Zpos (fst (shl_align m e e')) * pw (snd (shl_align m e e')) = Zpos m * pw e)%Z ∧
  snd (shl_align m e e') = Z.min e e' ∧
  (Zpos (digits2_pos (fst (shl_align m e e'))) + snd (shl_align m e e') = Zpos (digits2_pos m) + e)%Z.
Proof.
  intros He He'. unfold shl_align. destruct (e' - e)%Z as [|d|d] eqn:Hd; cbn [fst snd].
  1, 2: split_and!; [done|lia|done].
  rewrite pos_iter_xO, digits_iter_xO, (pw_split e' e) by lia.
  replace (e - e')%Z with (Zpos d) by lia. split_and!; lia.
Qed.

Lemma round_between m e lo hi :
  (-2990 ≤ e)%Z → is_fin lo → is_fin hi → (fv lo ≤ Zpos m * pw e ≤ fv hi)%Z →
  let r := binary_round prec emax false m e in is_fin r ∧ (fv lo ≤ fv r ≤ fv hi)%Z ∧ (0 ≤ fv r)%Z.
Proof.
  intros He Hlo Hhi Hv. unfold binary_round. set (E := fexp _ _ _).
  assert (HE : (-1074 ≤ E)%Z) by (unfold E, fexp, emin; lia).
  destruct (shl_align_value m e E ltac:(lia) ltac:(lia)) as (Hval & Hmin & Hdig).
  destruct (shl_align m e E) as [mz ez]; cbn [fst snd] in *.
  apply round_aux_between; [|done|done|rewrite located_exact; lia]. rewrite Hdig. unfold E in Hmin. lia.
Qed.

Lemma round_opp m e : binary_round prec emax true m e = SFopp (binary_round prec emax false m e).
Proof. unfold binary_round. destruct (shl_align _ _ _). apply round_aux_opp. Qed.

(** Rounding an integer multiple of a power of two. *)
Lemma normalize_between m e s lo hi :
  (-2990 ≤ e)%Z → is_fin lo → is_fin hi → (fv lo ≤ m * pw e ≤ fv hi)%Z →
  let r := binary_normalize prec emax m e s in is_fin r ∧ (fv lo ≤ fv r ≤ fv hi)%Z.
Proof.
  intros He Hlo Hhi Hv. destruct m as [|m|m]; cbn [binary_normalize].
  - cbn. lia.
  - destruct (round_between m e lo hi He Hlo Hhi Hv) as (? & ? & _). done.
  - rewrite round_opp, is_fin_opp, fv_opp. change (Zneg m) with (- Zpos m)%Z in Hv.
    destruct (round_between m e (SFopp hi) (SFopp lo)) as (? & Hr & _);
      [done|by apply is_fin_opp|by apply is_fin_opp|rewrite !fv_opp; lia|].
    rewrite !fv_opp in Hr. split; [done|lia].
Qed.

(** ** The operations *)

Definition scale : Z := 2 ^ 3000.

Lemma scale_pos : (0 < scale)%Z.
Proof. apply Z.pow_pos_nonneg; lia. Qed.

Lemma is_fin_exponent s m e : is_fin (S754_finite s m e) → (-1074 ≤ e ≤ 971)%Z.
Proof. intros (_ & ? & _)%bounded_spec. done. Qed.

Lemma signed_value s m e : fv (S754_finite s m e) = (cond_Zopp s (Zpos m) * pw e)%Z.
Proof. by destruct s. Qed.

Lemma add_between x y lo hi :
  is_fin x → is_fin y → is_fin lo → is_fin hi → (fv lo ≤ fv x + fv y ≤ fv hi)%Z →
  is_fin (f64_add x y) ∧ (fv lo ≤ fv (f64_add x y) ≤ fv hi)%Z.
Proof.
  intros Hx Hy Hlo Hhi Hv. unfold f64_add.
  destruct x as [sx|sx| |sx mx ex], y as [sy|sy| |sy my ey]; try done; cbn [SFadd].
  1: destruct sx, sy; cbn in *; lia.
  all: try (split; [assumption|cbn [fv] in *; lia]).
  - assert (Hex := is_fin_exponent _ _ _ Hx). assert (Hey := is_fin_exponent _ _ _ Hy).
    rewrite !signed_value in Hv. apply normalize_between; [lia|done|done|].
    destruct (shl_align_value mx ex (Z.min ex ey)) as (Hvx & Hmx & _); [lia..|].
    destruct (shl_align_value my ey (Z.min ex ey)) as (Hvy & Hmy & _); [lia..|].
    rewrite Hmx in Hvx. rewrite Hmy in Hvy. replace (Z.min ex (Z.min ex ey)) with (Z.min ex ey) in Hvx by lia.
    replace (Z.min ey (Z.min ex ey)) with (Z.min ex ey) in Hvy by lia.
    destruct sx, sy; cbn [cond_Zopp] in *; nia.
Qed.

Lemma sub_add x y : is_fin x → is_fin y → fv (f64_sub x y) = fv (f64_add x (SFopp y)) ∧
  (is_fin (f64_sub x y) ↔ is_fin (f64_add x (SFopp y))).
Proof.
  intros Hx Hy. unfold f64_sub, f64_add.
  destruct x as [[]|sx| |sx mx ex], y as [[]|sy| |sy my ey]; try done; cbn [SFopp SFadd SFsub negb].
  by destruct sy.
Qed.

Lemma sub_between x y lo hi :
  is_fin x → is_fin y → is_fin lo → is_fin hi → (fv lo ≤ fv x - fv y ≤ fv hi)%Z →
  is_fin (f64_sub x y) ∧ (fv lo ≤ fv (f64_sub x y) ≤ fv hi)%Z.
Proof.
  intros Hx Hy Hlo Hhi Hv. destruct (sub_add x y Hx Hy) as [-> ->].
  apply add_between; rewrite ?is_fin_opp, ?fv_opp; try done; lia.
Qed.

Lemma mul_aligned mx ex my ey :
  bounded prec emax mx ex = true → bounded prec emax my ey = true →
  (-2990 ≤ ex + ey ≤ fexp prec emax (Zpos (digits2_pos (mx * my)) + (ex + ey)))%Z.
Proof.
  intros (Hx & Hex & Hox)%bounded_spec (Hy & Hey & Hoy)%bounded_spec. unfold fexp, emin.
  assert (H53 : (ex = -1074 ∧ ey = -1074 ∨ 52 < Zpos (digits2_pos (mx * my)))%Z); [|lia].
  destruct Hox as [->|Hox], Hoy as [->|Hoy]; [by left|right..].
  all: apply digits2_pos_ge; rewrite Pos2Z.inj_mul; nia.
Qed.

Lemma pw_mul e e' : (-1500 ≤ e)%Z → (-1500 ≤ e')%Z → (pw e * pw e' = pw (e + e') * scale)%Z.
Proof. intros He He'. unfold pw, scale. rewrite <-!Z.pow_add_r by lia. f_equal. lia. Qed.

Lemma mul_between x y lo hi :
  is_fin x → is_fin y → is_fin lo → is_fin hi → (fv lo * scale ≤ fv x * fv y ≤ fv hi * scale)%Z →
  is_fin (f64_mul x y) ∧ (fv lo ≤ fv (f64_mul x y) ≤ fv hi)%Z.
Proof.
  intros Hx Hy Hlo Hhi Hv. unfold f64_mul. assert (Hs := scale_pos).
  destruct x as [sx|sx| |sx mx ex], y as [sy|sy| |sy my ey]; try done; cbn [SFmul].
  1, 2, 3: split; [done|]; cbn [fv] in *; nia.
  assert (Hal := mul_aligned _ _ _ _ Hx Hy).
  assert (Hex := is_fin_exponent _ _ _ Hx). assert (Hey := is_fin_exponent _ _ _ Hy).
  rewrite !signed_value in Hv.
  replace (cond_Zopp sx (Zpos mx) * pw ex * (cond_Zopp sy (Zpos my) * pw ey))%Z with
    (cond_Zopp (xorb sx sy) (Zpos (mx * my)) * (pw ex * pw ey))%Z in Hv
    by (destruct sx, sy; cbn [cond_Zopp xorb]; lia).
  rewrite pw_mul, Z.mul_assoc in Hv by lia.
  assert (Hv' : (fv lo ≤ cond_Zopp (xorb sx sy) (Zpos (mx * my)) * pw (ex + ey) ≤ fv hi)%Z) by nia.
  destruct (xorb sx sy); cbn [cond_Zopp] in Hv'.
  - rewrite round_aux_opp, is_fin_opp, fv_opp.
    destruct (round_aux_between (mx * my) (ex + ey) loc_Exact (SFopp hi) (SFopp lo) Hal) as (? & Hr & _);
      [by apply is_fin_opp|by apply is_fin_opp|rewrite located_exact, !fv_opp; lia|].
    rewrite !fv_opp in Hr. split; [done|lia].
  - destruct (round_aux_between (mx * my) (ex + ey) loc_Exact lo hi Hal) as (? & ? & _);
      [done|done|rewrite located_exact; lia|done].
Qed.

(** ** Comparisons *)

Lemma compare_pos m1 e1 m2 e2 :
  bounded prec emax m1 e1 = true → bounded prec emax m2 e2 = true → (e1 < e2)%Z →
  (Zpos m1 * pw e1 < Zpos m2 * pw e2)%Z.
Proof.
  intros (H1 & He1 & _)%bounded_spec (H2 & He2 & Hor)%bounded_spec Hlt.
  destruct Hor as [->|H52]; [lia|]. rewrite (pw_split e1 e2) by lia.
  assert (Hp := pw_pos e1 ltac:(lia)). assert (Hk := pow_ge_2 (e2 - e1) ltac:(lia)).
  assert (2 ^ 53 ≤ Zpos m2 * 2 ^ (e2 - e1))%Z by nia. nia.
Qed.

Lemma compare_mantissas m1 m2 e :
  (0 < pw e)%Z → (Zpos m1 * pw e ?= Zpos m2 * pw e)%Z = Pos.compare_cont Eq m1 m2.
Proof.
  intros Hp. change (Pos.compare_cont Eq m1 m2) with (Pos.compare m1 m2).
  destruct (Pos.compare_spec m1 m2) as [->|Hlt|Hlt].
  - apply Z.compare_refl.
  - apply Z.compare_lt_iff. nia.
  - apply Z.compare_gt_iff. nia.
Qed.

Lemma compare_value x y : is_fin x → is_fin y → SFcompare x y = Some (fv x ?= fv y)%Z.
Proof.
  intros Hx Hy. symmetry.
  destruct x as [sx|sx| |sx mx ex], y as [sy|sy| |sy my ey]; try done; cbn [SFcompare]; f_equal.
  - assert (Hp := pw_pos ey ltac:(assert (H := is_fin_exponent _ _ _ Hy); lia)).
    cbn [fv]. destruct sy; [apply Z.compare_gt_iff|apply Z.compare_lt_iff]; nia.
  - assert (Hp := pw_pos ex ltac:(assert (H := is_fin_exponent _ _ _ Hx); lia)).
    cbn [fv]. destruct sx; [apply Z.compare_lt_iff|apply Z.compare_gt_iff]; nia.
  - assert (Hpx := pw_pos ex ltac:(assert (H := is_fin_exponent _ _ _ Hx); lia)).
    assert (Hpy := pw_pos ey ltac:(assert (H := is_fin_exponent _ _ _ Hy); lia)).
    cbn [fv is_fin] in *. destruct sx, sy; [|apply Z.compare_lt_iff; nia|apply Z.compare_gt_iff; nia|].
    + change (Zneg mx) with (- Zpos mx)%Z. change (Zneg my) with (- Zpos my)%Z.
      rewrite !Z.mul_opp_l.
      destruct (Z.compare_spec ex ey) as [->|Hlt|Hlt].
      * rewrite <-(compare_mantissas _ _ ey), <-Z.compare_antisym by done.
        destruct (Z.compare_spec (Zpos my * pw ey) (Zpos mx * pw ey));
          [apply Z.compare_eq_iff|apply Z.compare_lt_iff|apply Z.compare_gt_iff]; lia.
      * apply Z.compare_gt_iff. apply Z.opp_lt_mono. rewrite !Z.opp_involutive. by apply compare_pos.
      * apply Z.compare_lt_iff. apply Z.opp_lt_mono. rewrite !Z.opp_involutive. by apply compare_pos.
    + destruct (Z.compare_spec ex ey) as [->|Hlt|Hlt].
      * by apply compare_mantissas.
      * apply Z.compare_lt_iff. by apply compare_pos.
      * apply Z.compare_gt_iff. by apply compare_pos.
Qed.

Lemma lt_value x y : is_fin x → is_fin y → f64_lt x y = true ↔ (fv x < fv y)%Z.
Proof.
  intros Hx Hy. unfold f64_lt, SFltb. rewrite compare_value by done.
  destruct (Z.compare_spec (fv x) (fv y)); split; try done; lia.
Qed.

Lemma le_value x y : is_fin x → is_fin y → f64_le x y = true ↔ (fv x ≤ fv y)%Z.
Proof.
  intros Hx Hy. unfold f64_le, SFleb. rewrite compare_value by done.
  destruct (Z.compare_spec (fv x) (fv y)); split; try done; lia.
Qed.

Lemma min_value x y : is_fin x → is_fin y → is_fin (f64_min x y) ∧ fv (f64_min x y) = Z.min (fv x) (fv y).
Proof.
  intros Hx Hy. unfold f64_min. rewrite compare_value by done.
  destruct (Z.compare_spec (fv x) (fv y)); split; try done; lia.
Qed.

Lemma max_value x y : is_fin x → is_fin y → is_fin (f64_max x y) ∧ fv (f64_max x y) = Z.max (fv x) (fv y).
Proof.
  intros Hx Hy. unfold f64_max. rewrite compare_value by done.
  destruct (Z.compare_spec (fv x) (fv y)); split; try done; lia.
Qed.

Lemma clamp_value x lo hi :
  is_fin x → is_fin lo → is_fin hi → (fv lo ≤ fv hi)%Z →
  is_fin (f64_clamp x lo hi) ∧ fv (f64_clamp x lo hi) = Z.max (fv lo) (Z.min (fv x) (fv hi)).
Proof.
  intros Hx Hlo Hhi Hle. unfold f64_clamp.
  assert (Hl := lt_value x lo Hx Hlo). destruct (f64_lt x lo).
  - assert (Hh := lt_value hi lo Hhi Hlo). destruct (f64_lt hi lo); split; try done; [..|intuition lia].
    assert (fv hi < fv lo)%Z by by apply Hh. lia.
  - assert (Hh := lt_value hi x Hhi Hx). destruct (f64_lt hi x); split; try done; destruct Hl, Hh; lia.
Qed.

(** ** Integers *)

(** The integer [z] as a value. *)
Definition zv (z : Z) : Z := z * pw 0.

Lemma zv_mono a b : (a ≤ b → zv a ≤ zv b)%Z.
Proof. intros H. unfold zv. assert (Hp := pw_pos 0 ltac:(lia)). nia. Qed.

Lemma zv_le a b : (zv a ≤ zv b → a ≤ b)%Z.
Proof. unfold zv. assert (Hp := pw_pos 0 ltac:(lia)). nia. Qed.

(** Powers of two in range are floats. *)
Definition two (p : Z) : f64 :=
  if decide (-1022 ≤ p)%Z then S754_finite false (2 ^ 52) (p - 52)
  else S754_finite false (Z.to_pos (2 ^ (p + 1074))) (-1074).

Lemma two_value p : (-1074 ≤ p ≤ 1023)%Z → is_fin (two p) ∧ fv (two p) = pw p.
Proof.
  intros Hp. unfold two. destruct (decide (-1022 ≤ p)%Z) as [Hle|Hlt]; cbn [is_fin fv].
  - split; [apply bounded_spec; split_and!; [done|lia|lia|by right]|].
    rewrite (pw_split (p - 52) p) by lia. replace (p - (p - 52))%Z with 52%Z by lia. lia.
  - rewrite bounded_spec, Z2Pos.id by (apply Z.pow_pos_nonneg; lia).
    split; [split_and!; [|lia|lia|by left]|].
    + apply Z.pow_lt_mono_r; lia.
    + rewrite (pw_split (-1074) p) by lia. replace (p - -1074)%Z with (p + 1074)%Z by lia. lia.
Qed.

(** Integers below [2^53] are floats. *)
Lemma of_Z_exact z : (0 ≤ z < 2 ^ 53)%Z → is_fin (f64_of_Z z) ∧ fv (f64_of_Z z) = zv z.
Proof.
  intros Hz. assert (Hx : ∃ x, is_fin x ∧ fv x = zv z).
  { destruct z as [|m|m]; [by exists f64_zero| |lia].
    assert (Hd := digits2_pos_le m 53 ltac:(lia) ltac:(lia)). assert (Hb := digits2_pos_bounds m).
    set (d := Zpos (digits2_pos m)) in *. destruct (shl_align_value m 0 (d - 53)) as (Hv & Hmin & Hdig); [lia..|].
    destruct (shl_align m 0 (d - 53)) as [m' e']; cbn [fst snd] in *.
    exists (S754_finite false m' e'). cbn [is_fin fv]. split; [|exact Hv]. apply bounded_spec.
    assert (Hb' := digits2_pos_bounds m').
    assert (Hd' : Zpos (digits2_pos m') = 53%Z) by (fold d in Hdig; lia). rewrite Hd' in Hb'. lia. }
  destruct Hx as (x & Hx & Hv).
  destruct (normalize_between z 0 false x x) as [Hf Hr]; [lia|done|done|unfold zv in Hv; lia|].
  split; [done|]. unfold f64_of_Z. lia.
Qed.

(** Any [u64] is a float up to rounding, which keeps it between floats. *)
Lemma of_Z_between z lo hi :
  is_fin lo → is_fin hi → (fv lo ≤ zv z ≤ fv hi)%Z → is_fin (f64_of_Z z) ∧ (fv lo ≤ fv (f64_of_Z z) ≤ fv hi)%Z.
Proof. intros Hlo Hhi Hv. apply (normalize_between z 0 false lo hi); done || lia. Qed.

Lemma of_u64_range z : is_u64 z → is_fin (f64_of_Z z) ∧ (0 ≤ fv (f64_of_Z z) ≤ pw 64)%Z.
Proof.
  intros [Hz Hmax]. destruct (two_value 64) as [H2 Hv2]; [lia|]. rewrite <-Hv2.
  apply (of_Z_between z f64_zero); try done. rewrite Hv2. cbn [fv f64_zero]. unfold zv.
  assert (Hp := pw_pos 0 ltac:(lia)). split; [nia|]. rewrite (pw_split 0 64) by lia.
  rewrite Z.mul_comm. apply Z.mul_le_mono_nonneg_l; [lia|]. unfold u64_max in Hmax. lia.
Qed.

(** The cast to [u64] is the floor, capped. *)
Lemma to_u64_value x : is_fin x → (0 ≤ fv x)%Z → f64_to_u64 x = Z.min u64_max (fv x / pw 0).
Proof.
  intros Hx Hv. assert (Hp0 := pw_pos 0 ltac:(lia)).
  destruct x as [s| | |[] m e]; try done; cbn [f64_to_u64 fv] in *.
  - assert (Hpe := pw_pos e ltac:(assert (H := is_fin_exponent _ _ _ Hx); lia)). nia.
  - f_equal. assert (He := is_fin_exponent _ _ _ Hx). destruct (Z.le_gt_cases 0 e) as [Hle|Hgt].
    + rewrite Z.shiftl_mul_pow2, (pw_split 0 e) by lia. rewrite Z.sub_0_r.
      rewrite (Z.mul_comm (pw 0)), Z.mul_assoc, Z.div_mul by lia. done.
    + rewrite Z.shiftl_div_pow2, (pw_split e 0) by lia.
      replace (0 - e)%Z with (- e)%Z by lia. rewrite (Z.mul_comm (pw e)).
      rewrite Z.div_mul_cancel_r; [done|apply Z.pow_nonzero; lia|].
      assert (Hpe := pw_pos e ltac:(lia)). lia.
Qed.

Lemma to_u64_is_u64 x : is_u64 (f64_to_u64 x).
Proof.
  destruct x as [s|[]| |[] m e]; cbn; try ulia. unfold is_u64.
  assert (0 ≤ Z.shiftl (Zpos m) e)%Z by (apply Z.shiftl_nonneg; lia). ulia.
Qed.

(** A float between two integers is cast between them. *)
Lemma to_u64_between x a b :
  is_fin x → (0 ≤ a)%Z → is_u64 b → (zv a ≤ fv x ≤ zv b)%Z → (a ≤ f64_to_u64 x ≤ b)%Z.
Proof.
  intros Hx Ha Hb Hv. assert (Hp := pw_pos 0 ltac:(lia)). unfold zv in Hv.
  rewrite to_u64_value by (done || nia).
  assert (a ≤ fv x / pw 0)%Z by (apply Z.div_le_lower_bound; lia).
  assert (fv x / pw 0 ≤ b)%Z by (apply Z.div_le_upper_bound; lia). unfold is_u64 in *. lia.
Qed.

Lemma pw_0 : pw 0 = scale.
Proof. reflexivity. Qed.

Lemma one_value : is_fin f64_one ∧ fv f64_one = pw 0.
Proof. destruct (of_Z_exact 1) as [? H]; [lia|]. split; [done|]. unfold zv in H. unfold f64_one. lia. Qed.

(** Rounding to an integer stays between integers. *)
Lemma round_integer_between x a b :
  is_fin x → (0 ≤ a)%Z → (b < 2 ^ 53)%Z → (zv a ≤ fv x ≤ zv b)%Z →
  is_fin (f64_round x) ∧ (zv a ≤ fv (f64_round x) ≤ zv b)%Z.
Proof.
  intros Hx Ha Hb Hv. assert (Hp0 := pw_pos 0 ltac:(lia)).
  assert (Hz : (0 ≤ zv a)%Z) by (unfold zv; nia).
  destruct x as [s| | |[] m e]; try done; cbn [f64_round].
  - assert (Hp := pw_pos e ltac:(assert (H := is_fin_exponent _ _ _ Hx); lia)). cbn [fv] in Hv. nia.
  - destruct (decide (0 ≤ e)%Z) as [He|He]; [done|]. assert (Hex := is_fin_exponent _ _ _ Hx).
    assert (Hpe := pw_pos e ltac:(lia)). cbn [fv] in Hv. unfold zv in Hv.
    rewrite (pw_split e 0) in Hv by lia. rewrite Z.sub_0_l in Hv.
    assert (Hk : (2 ^ (- e) = 2 * 2 ^ (- e - 1))%Z) by (rewrite <-Z.pow_succ_r by lia; f_equal; lia).
    assert (Hh : (0 < 2 ^ (- e - 1))%Z) by (apply Z.pow_pos_nonneg; lia).
    rewrite Z.shiftr_div_pow2 by lia. set (n := ((Zpos m + 2 ^ (- e - 1)) / 2 ^ (- e))%Z).
    assert (Hn : (a ≤ n ≤ b)%Z).
    { split; [apply Z.div_le_lower_bound; nia|].
      assert (Hlt : (n < b + 1)%Z) by (apply Z.div_lt_upper_bound; nia). lia. }
    destruct (of_Z_exact a ltac:(lia)) as [Hfa Hva]. destruct (of_Z_exact b ltac:(lia)) as [Hfb Hvb].
    rewrite <-Hva, <-Hvb. apply (normalize_between n 0 false); [lia|done|done|].
    rewrite Hva, Hvb. split; apply zv_mono; lia.
Qed.

(** ** Square roots *)

(** The square root of a float that is not too large is a float. *)
Lemma sqrt_between x :
  is_fin x → (0 ≤ fv x ≤ pw 200)%Z → is_fin (f64_sqrt x) ∧ (0 ≤ fv (f64_sqrt x) ≤ pw 101)%Z.
Proof.
  intros Hx [H0 H200]. assert (Hp101 := pw_pos 101 ltac:(lia)).
  destruct x as [s| | |[] m e]; try done.
  - assert (Hp := pw_pos e ltac:(assert (H := is_fin_exponent _ _ _ Hx); lia)). cbn [fv] in H0. nia.
  - assert (He := is_fin_exponent _ _ _ Hx). cbn [fv] in H200. unfold f64_sqrt, SFsqrt, SFsqrt_core_binary.
    cbn [Zdigits2]. set (d := Zpos (digits2_pos m)). set (h := Z.div2 (d + e + 1)).
    set (e' := Z.min (fexp prec emax h) (Z.div2 e)).
    assert (Hdiv2 : ∀ z, (2 * Z.div2 z ≤ z ≤ 2 * Z.div2 z + 1)%Z)
      by (intros z; rewrite (Z.div2_odd z) at 2 3; destruct (Z.odd z); cbn [Z.b2z]; lia).
    assert (Hd := digits2_pos_bounds m). fold d in Hd.
    assert (He' : (-1100 ≤ e' ∧ 2 * e' ≤ e)%Z).
    { assert (H1 := Hdiv2 e). unfold e', fexp, emin. lia. }
    set (n := (e - 2 * e')%Z). assert (Hn : (0 ≤ n)%Z) by (unfold n; lia).
    replace (match n with Z0 => Zpos m | Zpos _ => Z.shiftl (Zpos m) n | Zneg _ => 0%Z end)
      with (Zpos m * 2 ^ n)%Z
      by (destruct n; [lia|by rewrite Z.shiftl_mul_pow2|lia]).
    assert (Hpn : (0 < 2 ^ n)%Z) by (apply Z.pow_pos_nonneg; lia).
    assert (Hsq := Z.sqrtrem_spec (Zpos m * 2 ^ n) ltac:(nia)).
    destruct (Z.sqrtrem (Zpos m * 2 ^ n)) as [q r]. destruct Hsq as [Hsq Hr].
    assert (Hq : (0 < q)%Z) by nia. destruct q as [|q|q]; [lia| |lia].
    match goal with |- context [binary_round_aux _ _ _ _ _ ?l] => set (loc := l) end.
    assert (Hdq := digits2_pos_bounds q). set (dq := Zpos (digits2_pos q)) in *.
    assert (Hdig : (d + n ≤ 2 * dq)%Z).
    { assert (Hlt : (2 ^ (d - 1 + n) < 2 ^ (2 * dq))%Z); [|apply Z.pow_lt_mono_r_iff in Hlt; lia].
      replace (2 * dq)%Z with (dq + dq)%Z by lia. rewrite !Z.pow_add_r by (unfold d, dq; lia).
      apply Z.le_lt_trans with (Zpos m * 2 ^ n)%Z; [nia|].
      apply Z.lt_le_trans with ((Zpos q + 1) * (Zpos q + 1))%Z; [nia|]. apply Z.mul_le_mono_nonneg; lia. }
    assert (Hval : (Zpos q * pw e' ≤ pw 100)%Z).
    { assert (Hpe := pw_pos e' ltac:(lia)). assert (Hp100 := pw_pos 100 ltac:(lia)).
      assert (Hs := scale_pos).
      apply Z.square_le_simpl_nonneg; [lia|].
      replace (Zpos q * pw e' * (Zpos q * pw e'))%Z with (Zpos q * Zpos q * (pw e' * pw e'))%Z by ring.
      rewrite !pw_mul by lia. change (100 + 100)%Z with 200%Z.
      rewrite Z.mul_assoc. apply Z.mul_le_mono_nonneg_r; [lia|].
      etrans; [|exact H200]. rewrite (pw_split (e' + e') e) by lia.
      replace (e - (e' + e'))%Z with n by (unfold n; lia).
      assert (Hpp := pw_pos (e' + e') ltac:(lia)). nia. }
    destruct (two_value 101) as [H2 Hv2]; [lia|]. rewrite <-Hv2.
    destruct (round_aux_between q e' loc f64_zero (two 101)) as (Hf & Hb & _); [|done|done| |done].
    + fold dq. assert (H1 := Hdiv2 (d + e + 1)%Z). fold h in H1.
      assert (H2' : (e' ≤ fexp prec emax h)%Z) by (unfold e'; lia). clearbody e' h. unfold n in Hdig.
      unfold fexp, emin in *. lia.
    + cbn [fv f64_zero]. rewrite Hv2. unfold located.
      assert (Hl : (0 ≤ loc_bits loc ≤ 3)%Z) by (destruct loc as [|[]]; cbn; lia).
      assert (Hpe := pw_pos (e' - 2) ltac:(lia)). rewrite (pw_split (e' - 2) e') in Hval by lia.
      replace (e' - (e' - 2))%Z with 2%Z in Hval by lia.
      rewrite (pw_split 100 101) by lia. change (2 ^ (101 - 100))%Z with 2%Z. nia.
Qed.

(** ** Exponential averages *)

Lemma is_fin_multiple x : is_fin x → ∃ k, fv x = (k * pw (-1074))%Z.
Proof.
  intros Hx. destruct x as [s| | |s m e]; try done; [by exists 0%Z|].
  assert (He := is_fin_exponent _ _ _ Hx). rewrite signed_value, (pw_split (-1074) e) by lia.
  exists (cond_Zopp s (Zpos m) * 2 ^ (e - -1074))%Z. ring.
Qed.

(** The power of two at or below a positive multiple of the least float. *)
Lemma power_below d : (0 < d < pw 1001)%Z → (∃ k, d = (k * pw (-1074))%Z) →
  ∃ p, (-1074 ≤ p ≤ 1000)%Z ∧ (pw p ≤ d < pw (p + 1))%Z.
Proof.
  intros [Hd Hmax] [k Hk]. assert (Hl := Z.log2_spec d Hd). assert (Hp := pw_pos (-1074) ltac:(lia)).
  exists (Z.log2 d - 3000)%Z. unfold pw in *.
  replace (Z.log2 d - 3000 + 3000)%Z with (Z.log2 d) by lia.
  replace (Z.log2 d - 3000 + 1 + 3000)%Z with (Z.succ (Z.log2 d)) by lia. split; [|done]. split.
  - assert (H : (-1074 + 3000 ≤ Z.log2 d)%Z); [|lia]. apply Z.log2_le_pow2; [done|]. nia.
  - assert (H : (Z.log2 d < 1001 + 3000)%Z); [|lia]. by apply Z.log2_lt_pow2.
Qed.

(** One step of an exponential average: [mean + alpha * (x - mean)]. *)
Definition ema (alpha mean x : f64) : f64 := f64_add mean (f64_mul alpha (f64_sub x mean)).

(** It stays between the old average and the value, rounding included. *)
Lemma ema_between alpha mean x :
  is_fin alpha → is_fin mean → is_fin x → (0 ≤ fv alpha ≤ pw (-1))%Z →
  (0 ≤ fv mean ≤ pw 1000)%Z → (0 ≤ fv x ≤ pw 1000)%Z →
  is_fin (ema alpha mean x) ∧ (Z.min (fv mean) (fv x) ≤ fv (ema alpha mean x) ≤ Z.max (fv mean) (fv x))%Z.
Proof.
  intros Ha Hm Hx Hav Hmv Hxv. unfold ema. assert (Hs := scale_pos).
  destruct (Z.eq_dec (fv x) (fv mean)) as [Heq|Hne].
  { destruct (sub_between x mean f64_zero f64_zero) as [Hd Hdv]; [done..|cbn [fv f64_zero]; lia|].
    cbn [fv f64_zero] in Hdv. destruct (mul_between alpha (f64_sub x mean) f64_zero f64_zero) as [Hp Hpv];
      [done..|cbn [fv f64_zero]; nia|]. cbn [fv f64_zero] in Hpv.
    destruct (add_between mean (f64_mul alpha (f64_sub x mean)) mean mean) as [Hf Hfv]; [done..|lia|].
    split; [done|lia]. }
  assert (Hpow : ∃ p, (-1074 ≤ p ≤ 1000)%Z ∧ (pw p ≤ Z.abs (fv x - fv mean) < pw (p + 1))%Z).
  { apply power_below.
    - rewrite (pw_split 1000 1001) by lia. change (2 ^ (1001 - 1000))%Z with 2%Z.
      assert (Hp1000 := pw_pos 1000 ltac:(lia)). lia.
    - destruct (is_fin_multiple x Hx) as [kx ->], (is_fin_multiple mean Hm) as [km ->].
      rewrite <-Z.mul_sub_distr_r, Z.abs_mul, (Z.abs_eq (pw (-1074))) by (assert (H := pw_pos (-1074)); lia).
      eauto. }
  destruct Hpow as (p & Hp & Hlow & Hhigh).
  destruct (two_value p) as [H2 Hv2]; [lia|]. destruct (two_value (p + 1)) as [H2' Hv2']; [lia|].
  assert (Hprod : (pw (-1) * pw (p + 1) = pw p * scale)%Z) by (rewrite pw_mul by lia; do 2 f_equal; lia).
  assert (Hpp := pw_pos p ltac:(lia)). assert (Hpp' := pw_pos (p + 1) ltac:(lia)).
  destruct (Z.lt_ge_cases (fv mean) (fv x)) as [Hlt|Hge].
  - destruct (sub_between x mean f64_zero (two (p + 1))) as [Hd Hdv]; [done..|cbn [fv f64_zero]; lia|].
    cbn [fv f64_zero] in Hdv. rewrite Hv2' in Hdv.
    destruct (mul_between alpha (f64_sub x mean) f64_zero (two p)) as [Hm' Hmv']; [done..|cbn [fv f64_zero]; nia|].
    cbn [fv f64_zero] in Hmv'. rewrite Hv2 in Hmv'.
    destruct (add_between mean (f64_mul alpha (f64_sub x mean)) mean x) as [Hf Hfv]; [done..|lia|].
    split; [done|lia].
  - destruct (sub_between x mean (SFopp (two (p + 1))) f64_zero) as [Hd Hdv];
      [done|done|by apply is_fin_opp|done|rewrite fv_opp; cbn [fv f64_zero]; lia|].
    rewrite fv_opp, Hv2' in Hdv. cbn [fv f64_zero] in Hdv.
    destruct (mul_between alpha (f64_sub x mean) (SFopp (two p)) f64_zero) as [Hm' Hmv'];
      [done|done|by apply is_fin_opp|done|rewrite fv_opp, Hv2; cbn [fv f64_zero]; nia|].
    rewrite fv_opp, Hv2 in Hmv'. cbn [fv f64_zero] in Hmv'.
    destruct (add_between mean (f64_mul alpha (f64_sub x mean)) x mean) as [Hf Hfv]; [done..|lia|].
    split; [done|lia].
Qed.

(** ** Quotients *)

(** The exponents of a mantissa of bounded value. *)
Lemma exponent_range m e a b :
  (Zpos m < 2 ^ 53)%Z → (-1074 ≤ e ≤ 971)%Z → (-400 ≤ a ≤ b ∧ b ≤ 400)%Z →
  (pw a ≤ Zpos m * pw e ≤ pw b)%Z →
  (a < Zpos (digits2_pos m) + e ≤ b + 1)%Z ∧ (a - 53 < e ≤ b)%Z ∧ (1 ≤ Zpos (digits2_pos m) ≤ 53)%Z.
Proof.
  intros Hm He Hab Hv. assert (Hd := digits2_pos_bounds m). assert (Hd53 := digits2_pos_le m 53 Hm ltac:(lia)).
  set (d := Zpos (digits2_pos m)) in *. assert (Hpe := pw_pos e ltac:(lia)).
  assert (Hhi : (pw (d - 1 + e) ≤ pw b)%Z).
  { rewrite (pw_split e (d - 1 + e)) by lia. replace (d - 1 + e - e)%Z with (d - 1)%Z by lia. nia. }
  assert (Hlo : (pw a < pw (d + e))%Z).
  { rewrite (pw_split e (d + e)) by lia. replace (d + e - e)%Z with d by lia. nia. }
  unfold pw in Hhi, Hlo. apply Z.pow_le_mono_r_iff in Hhi; [|lia..]. apply Z.pow_lt_mono_r_iff in Hlo; [|lia..]. lia.
Qed.

(** The quotient of two mantissas, shifted, has enough digits. *)
Lemma quotient_large mx my d1 d2 s q n :
  (2 ^ (d1 - 1) ≤ Zpos mx < 2 ^ d1)%Z → (2 ^ (d2 - 1) ≤ Zpos my < 2 ^ d2)%Z → (1 ≤ d1)%Z → (1 ≤ d2)%Z → (0 ≤ s)%Z →
  (d1 + s = d2 + n ∧ 1 ≤ n)%Z → (Zpos mx * 2 ^ s < (q + 1) * Zpos my)%Z → (2 ^ (n - 1) ≤ q)%Z.
Proof.
  intros Hd1 Hd2 H1 H2 Hs [Hn Hn1] Hq. assert (Hps : (0 < 2 ^ s)%Z) by (apply Z.pow_pos_nonneg; lia).
  assert (Hmul : (2 ^ (n - 1) * Zpos my < (q + 1) * Zpos my)%Z); [|nia].
  apply Z.lt_le_trans with (2 ^ (n - 1) * 2 ^ d2)%Z;
    [apply Z.mul_lt_mono_pos_l; [apply Z.pow_pos_nonneg|]; lia|].
  rewrite <-Z.pow_add_r by lia. replace (n - 1 + d2)%Z with (d1 - 1 + s)%Z by lia.
  rewrite Z.pow_add_r by lia. nia.
Qed.

(** Where a remainder lies. *)
Lemma new_location_zero m : new_location m 0 = loc_Exact.
Proof. unfold new_location, new_location_even, new_location_odd. by destruct (Z.even m). Qed.

(** A quotient far from the ends of the range is a float, and keeps the order. *)
Lemma div_between x y lo hi a b c d :
  is_fin x → is_fin y → is_fin lo → is_fin hi →
  (-400 ≤ a ≤ b ∧ b ≤ 400)%Z → (-400 ≤ c ≤ d ∧ d ≤ 400)%Z →
  (pw a ≤ fv x ≤ pw b)%Z → (pw c ≤ fv y ≤ pw d)%Z →
  (fv lo * fv y ≤ fv x * scale ≤ fv hi * fv y)%Z →
  is_fin (f64_div x y) ∧ (fv lo ≤ fv (f64_div x y) ≤ fv hi)%Z.
Proof.
  intros Hx Hy Hlo Hhi Hab Hcd Hvx Hvy Hv.
  assert (Ha := pw_pos a ltac:(lia)). assert (Hc := pw_pos c ltac:(lia)). assert (Hsc := scale_pos).
  destruct x as [s| | |sx mx ex]; try done; [cbn in Hvx; lia|].
  destruct y as [s| | |sy my ey]; try done; [cbn in Hvy; lia|].
  assert (Hex := is_fin_exponent _ _ _ Hx). assert (Hey := is_fin_exponent _ _ _ Hy).
  assert (Hpx := pw_pos ex ltac:(lia)). assert (Hpy := pw_pos ey ltac:(lia)).
  rewrite signed_value in Hvx, Hvy, Hv. rewrite signed_value in Hv. destruct sx; [cbn [cond_Zopp] in Hvx; nia|].
  destruct sy; [cbn [cond_Zopp] in Hvy; nia|]. cbn [cond_Zopp] in *.
  unfold f64_div, SFdiv, SFdiv_core_binary. cbn [xorb Zdigits2].
  set (d1 := Zpos (digits2_pos mx)). set (d2 := Zpos (digits2_pos my)).
  assert (Hd1 := digits2_pos_bounds mx). assert (Hd2 := digits2_pos_bounds my). fold d1 in Hd1. fold d2 in Hd2.
  set (k := (d1 + ex - (d2 + ey))%Z).
  destruct (proj1 (bounded_spec _ _) Hx) as (Hmx & _). destruct (proj1 (bounded_spec _ _) Hy) as (Hmy & _).
  destruct (exponent_range mx ex a b) as (Hx1 & Hx2 & Hx3); [done|lia|lia|lia|]. fold d1 in Hx1, Hx2, Hx3.
  destruct (exponent_range my ey c d) as (Hy1 & Hy2 & Hy3); [done|lia|lia|lia|]. fold d2 in Hy1, Hy2, Hy3.
  set (e' := (fexp 53 1024 k `min` (ex - ey))%Z).
  assert (He' : (-900 ≤ e' ≤ k - 53 ∧ e' ≤ ex - ey)%Z) by (unfold e', fexp, emin, k; lia).
  set (s := (ex - ey - e')%Z). assert (Hs : (0 ≤ s)%Z) by (unfold s; lia).
  replace (match s with Z0 => Zpos mx | Zpos _ => Z.shiftl (Zpos mx) s | Zneg _ => 0%Z end)
    with (Zpos mx * 2 ^ s)%Z by (destruct s; [lia|by rewrite Z.shiftl_mul_pow2|lia]).
  assert (Hdm := Z_div_mod (Zpos mx * 2 ^ s) (Zpos my) ltac:(lia)).
  destruct (Z.div_eucl (Zpos mx * 2 ^ s) (Zpos my)) as [q r]. destruct Hdm as [Hq Hr].
  assert (Hqlow := quotient_large mx my d1 d2 s q (k - e') Hd1 Hd2 ltac:(lia) ltac:(lia) Hs ltac:(unfold s, k; lia) ltac:(nia)).
  assert (Hp52 : (2 ^ 52 ≤ 2 ^ (k - e' - 1))%Z) by (apply Z.pow_le_mono_r; lia).
  destruct q as [|q|q]; [lia| |lia]. set (loc := new_location (Zpos my) r).
  assert (Hdq := digits2_pos_bounds q). set (dq := Zpos (digits2_pos q)) in *.
  assert (Hdig : (k - e' - 1 < dq)%Z) by (apply (Z.pow_lt_mono_r_iff 2); lia).
  assert (Hpe := pw_pos e' ltac:(lia)).
  assert (Hval : (Zpos mx * pw ex * scale = (Zpos my * Zpos q + r) * pw e' * pw ey)%Z).
  { rewrite <-Hq. transitivity (Zpos mx * 2 ^ s * (pw e' * pw ey))%Z; [|ring]. rewrite pw_mul by lia. rewrite (pw_split (e' + ey) ex) by lia.
    replace (ex - (e' + ey))%Z with s by (unfold s; lia). ring. }
  rewrite Hval in Hv. set (P := pw e') in *. set (Y := pw ey) in *.
  assert (HPY : (0 < P * Y)%Z) by nia. assert (HmY : (0 < Zpos my * Y)%Z) by nia.
  assert (Hlo' : (fv lo ≤ Zpos q * P)%Z).
  { destruct (Z.le_gt_cases (fv lo) (Zpos q * P)) as [|Hgt]; [done|].
    assert (Hg := grid lo (Zpos q) e' Hlo ltac:(lia) ltac:(right; lia) ltac:(lia)). fold P in Hg.
    assert (H1 := Z.mul_le_mono_nonneg_r _ _ (Zpos my * Y) ltac:(lia) Hg).
    assert (H2 := Z.mul_lt_mono_pos_r (P * Y) r (Zpos my) HPY). lia. }
  assert (Hhi' : (Zpos q * P = fv hi ∧ r = 0 ∨ (Zpos q + 1) * P ≤ fv hi)%Z).
  { destruct (Z.lt_trichotomy (Zpos q * P) (fv hi)) as [Hlt|[Heq|Hgt]].
    - right. exact (grid hi (Zpos q) e' Hhi ltac:(lia) ltac:(right; lia) Hlt).
    - left. split; [done|]. rewrite <-Heq in Hv. assert (H1 := Z.mul_pos_cancel_r r (P * Y) HPY).
      destruct (Z.le_gt_cases r 0); [lia|]. assert (0 < r * (P * Y))%Z by (apply H1; lia). lia.
    - apply (Z.mul_lt_mono_pos_r (Zpos my * Y) _ _ HmY) in Hgt. assert (H2 := Z.mul_nonneg_nonneg r (P * Y)). lia. }
  destruct (round_aux_between q e' loc lo hi) as (Hf & Hb & _); [|done|done| |done].
  - fold dq. unfold fexp, emin. lia.
  - unfold located. assert (Hl : (0 ≤ loc_bits loc ≤ 3)%Z) by (destruct loc as [|[]]; cbn; lia).
    assert (Hp2 := pw_pos (e' - 2) ltac:(lia)). unfold P in Hlo', Hhi'. rewrite (pw_split (e' - 2) e') in Hlo', Hhi' by lia.
    replace (e' - (e' - 2))%Z with 2%Z in Hlo', Hhi' by lia. change (2 ^ 2)%Z with 4%Z in *.
    destruct Hhi' as [[<- ->]|Hhi']; [|split; nia].
    unfold loc. rewrite new_location_zero. cbn [loc_bits]. split; nia.
Qed.

Lemma div_zero_l y : is_fin y → (0 < fv y)%Z → f64_div f64_zero y = f64_zero.
Proof.
  intros Hy Hv. destruct y as [s| | |[] m e]; try done.
  assert (Hp := pw_pos e ltac:(assert (He := is_fin_exponent _ _ _ Hy); lia)). cbn [fv] in Hv. nia.
Qed.

(** A quotient of the opposite. *)
Lemma div_opp x y : is_fin x → is_fin y → (0 < fv y)%Z → f64_div (SFopp x) y = SFopp (f64_div x y).
Proof.
  intros Hx Hy Hv. destruct y as [s| | |sy my ey]; try done.
  destruct sy; [assert (Hp := pw_pos ey ltac:(assert (He := is_fin_exponent _ _ _ Hy); lia)); cbn [fv] in Hv; nia|].
  destruct x as [[]| | |sx mx ex]; try done. unfold f64_div, SFdiv. cbn [SFopp].
  destruct (SFdiv_core_binary _ _ _ _ _ _) as [[q e] l]. destruct sx; cbn [negb xorb].
  - rewrite round_aux_opp. by destruct (binary_round_aux prec emax false q e l) as [[]|[]| |[]].
  - apply round_aux_opp.
Qed.

(** Small multiples of a power of two are floats. *)
Lemma dyadic k e : (0 ≤ k < 2 ^ 53)%Z → (-1000 ≤ e ≤ 0)%Z → ∃ x, is_fin x ∧ fv x = (k * pw e)%Z.
Proof.
  intros Hk He. destruct k as [|m|m]; [by exists f64_zero| |lia].
  assert (Hd := digits2_pos_le m 53 ltac:(lia) ltac:(lia)). assert (Hb := digits2_pos_bounds m).
  set (d := Zpos (digits2_pos m)) in *. destruct (shl_align_value m e (e + d - 53)) as (Hv & Hmin & Hdig); [lia..|].
  destruct (shl_align m e (e + d - 53)) as [m' e']; cbn [fst snd] in *.
  exists (S754_finite false m' e'). cbn [is_fin fv]. split; [|exact Hv]. apply bounded_spec.
  assert (Hb' := digits2_pos_bounds m').
  assert (Hd' : Zpos (digits2_pos m') = 53%Z) by (fold d in Hdig; lia). rewrite Hd' in Hb'. lia.
Qed.

(** A float that is at most a power of two, by computation. *)
Definition below (p : Z) (x : f64) : bool :=
  match x with
  | S754_finite false m e => bounded prec emax m e && (e <=? p)%Z && (Zpos m <=? 2 ^ (p - e))%Z
  | _ => false
  end.

Lemma below_spec p x : below p x = true → is_fin x ∧ (0 ≤ fv x ≤ pw p)%Z.
Proof.
  destruct x as [| | |[] m e]; try done. cbn [below]. rewrite !andb_true_iff, !Z.leb_le. intros [[Hb He] Hm].
  split; [exact Hb|]. assert (He' := is_fin_exponent false m e Hb). cbn [fv].
  rewrite (pw_split e p) by lia. assert (Hp := pw_pos e ltac:(lia)). nia.
Qed.

Definition above (p : Z) (x : f64) : bool :=
  match x with
  | S754_finite false m e =>
      bounded prec emax m e && (-3000 <=? p)%Z && (if (p <=? e)%Z then true else (2 ^ (p - e) <=? Zpos m)%Z)
  | _ => false
  end.

Lemma above_spec p x : above p x = true → is_fin x ∧ (pw p ≤ fv x)%Z.
Proof.
  destruct x as [| | |[] m e]; try done. cbn [above]. rewrite !andb_true_iff, Z.leb_le. intros [[Hb Hp] Hm].
  split; [exact Hb|]. assert (He' := is_fin_exponent false m e Hb). cbn [fv]. assert (Hpe := pw_pos e ltac:(lia)).
  destruct (Z.leb_spec p e) as [Hle|Hlt].
  - assert (pw p ≤ pw e)%Z by (apply pw_mono; lia). nia.
  - apply Z.leb_le in Hm. rewrite (pw_split e p) by lia. nia.
Qed.

(** Values are compared by their laws, never computed. *)
#[global] Opaque pw scale.
