(* ===== verification/MeanVar.v ===== *)
(** The estimator on [f64] values, libs/masa-core/src/latency_estimator/mean_var.rs:
    asymmetric exponential averages of the mean, the variance and the floor. It
    is the default estimator of the policies. *)
From S2P Require Export Estimators Float64.

Record LatencyMeanVar := MkMeanVar {
  mv_mean : f64;
  mv_variance : f64;
  mv_k : f64;
  mv_alpha : f64;
  mv_estimate : Z;
  mv_initialized : bool;
  mv_mean_floor : f64;
  mv_last_observation_us : Z;
}.

(** [new]: [assert!(k >= 0.0)] and [assert!(alpha > 0.0 && alpha <= 1.0)]. *)
Definition mv_new (k alpha : f64) : outcome LatencyMeanVar :=
  if f64_le f64_zero k then
    if f64_lt f64_zero alpha && f64_le alpha f64_one then
      Ret (MkMeanVar f64_zero f64_zero k alpha 0 false f64_zero 0)
    else Panic
  else Panic.

(** The literals of [track]. *)
Definition lit_0_05 : f64 := f64_lit 5 100.
Definition lit_0_2 : f64 := f64_lit 2 10.
Definition lit_0_3 : f64 := f64_lit 3 10.
Definition lit_0_01 : f64 := f64_lit 1 100.

(** [u64::MAX as f64]. *)
Definition u64_max_f64 : f64 := f64_of_Z u64_max.

(** The mean, the variance and the floor after one more value. *)
Definition mv_update (self : LatencyMeanVar) (x : f64) : f64 * f64 * f64 :=
  if mv_initialized self then
    let alpha := if f64_lt (mv_mean self) x then lit_0_05 else lit_0_2 in
    let delta := f64_sub x (mv_mean self) in
    let mean := f64_add (mv_mean self) (f64_mul alpha delta) in
    let variance := f64_mul (f64_sub f64_one alpha)
                      (f64_add (mv_variance self) (f64_mul (f64_mul alpha delta) delta)) in
    let alpha_floor := if f64_lt x (mv_mean_floor self) then lit_0_3 else lit_0_01 in
    let mean_floor := f64_add (mv_mean_floor self)
                        (f64_mul alpha_floor (f64_sub x (mv_mean_floor self))) in
    (mean, variance, mean_floor)
  else (x, f64_zero, x).

(** A float as [u64] if it is finite and positive, else zero. *)
Definition positive_u64 (x : f64) : Z :=
  if f64_lt f64_zero x && f64_is_finite x then f64_to_u64 (f64_min x u64_max_f64) else 0%Z.

Definition mv_track (self : LatencyMeanVar) (now value : Z) : LatencyMeanVar :=
  let '(mean, variance, mean_floor) := mv_update self (f64_of_Z value) in
  let raw := f64_add mean (f64_mul (mv_k self) (f64_sqrt variance)) in
  MkMeanVar mean variance (mv_k self) (mv_alpha self) (positive_u64 raw) true mean_floor now.

Definition mv_can_estimate (self : LatencyMeanVar) : bool := mv_initialized self.
Definition mv_mean_estimate (self : LatencyMeanVar) : Z := positive_u64 (mv_mean self).
Definition mv_mean_floor_estimate (self : LatencyMeanVar) : Z := positive_u64 (mv_mean_floor self).

(** [Default], at a configured [k]: zero unless the parameters file sets it.
    [wrap64] says that the stored estimate is a [u64]. *)
Definition mean_var_estimator (k : f64) : Estimator LatencyMeanVar := {|
  default_est := MkMeanVar f64_zero f64_zero k (f64_lit 1 10) 0 false f64_zero 0;
  track_at := mv_track;
  has_estimate := mv_can_estimate;
  estimate_of self := wrap64 (mv_estimate self);
  Estimators.mean_estimate := mv_mean_estimate;
  Estimators.mean_floor_estimate := mv_mean_floor_estimate;
  last_observation_us self := wrap64 (mv_last_observation_us self);
|}.

Lemma mean_var_default k : f64_le f64_zero k = true →
  mv_new k (f64_lit 1 10) = Ret (@default_est _ (mean_var_estimator k)).
Proof. intros Hk. unfold mv_new. by rewrite Hk. Qed.

Lemma positive_u64_is_u64 x : is_u64 (positive_u64 x).
Proof. unfold positive_u64. destruct (_ && _); [apply to_u64_is_u64|ulia]. Qed.

#[export] Instance mean_var_typed k : @EstimatorTyped LatencyMeanVar (mean_var_estimator k).
Proof. split; intros e; [apply wrap64_is_u64|apply positive_u64_is_u64..|apply wrap64_is_u64]. Qed.

(** ** What the averages are *)

(** The state after values between [lo] and [hi]. *)
Record mv_ok (lo hi : f64) (self : LatencyMeanVar) : Prop := {
  ok_init : mv_initialized self = true;
  ok_mean : is_fin (mv_mean self) ∧ (fv lo ≤ fv (mv_mean self) ≤ fv hi)%Z;
  ok_floor : is_fin (mv_mean_floor self) ∧ (fv lo ≤ fv (mv_mean_floor self) ≤ fv hi)%Z;
  ok_variance : is_fin (mv_variance self) ∧ (0 ≤ fv (mv_variance self) ≤ pw 140)%Z;
}.

(** A product that is at most a power of two, by computation. *)
Definition product_below (p : Z) (x y : f64) : bool :=
  match x, y with
  | S754_finite false m e, S754_finite false n f =>
      bounded prec emax m e && bounded prec emax n f && (e + f <=? p)%Z
      && (Zpos (m * n) <=? 2 ^ (p - (e + f)))%Z
  | _, _ => false
  end.

Lemma product_below_spec p x y :
  product_below p x y = true → is_fin x ∧ is_fin y ∧ (0 ≤ fv x)%Z ∧ (0 ≤ fv y)%Z ∧ (fv x * fv y ≤ pw p * scale)%Z.
Proof.
  destruct x as [| | |[] m e], y as [| | |[] n f]; try done. cbn [product_below].
  rewrite !andb_true_iff, !Z.leb_le. intros [[[Hx Hy] He] Hm].
  assert (Hex := is_fin_exponent false m e Hx). assert (Hey := is_fin_exponent false n f Hy).
  assert (Hpx := pw_pos e ltac:(lia)). assert (Hpy := pw_pos f ltac:(lia)). cbn [fv].
  split_and!; [exact Hx|exact Hy|nia|nia|].
  replace (Zpos m * pw e * (Zpos n * pw f))%Z with (Zpos (m * n) * (pw e * pw f))%Z by lia.
  rewrite pw_mul, Z.mul_assoc by lia. apply Z.mul_le_mono_nonneg_r; [apply Z.lt_le_incl, scale_pos|].
  rewrite (pw_split (e + f) p) by lia. assert (Hp := pw_pos (e + f) ltac:(lia)). nia.
Qed.

Lemma weight_half a : a ∈ [lit_0_05; lit_0_2; lit_0_3; lit_0_01] → is_fin a ∧ (0 ≤ fv a ≤ pw (-1))%Z.
Proof.
  intros Ha. apply below_spec. revert a Ha. rewrite <-Forall_forall.
  repeat constructor; vm_compute; reflexivity.
Qed.

(** A bound of the variance plus its increment, and its decay. *)
Definition variance_bound : f64 := S754_finite false (2 ^ 52 + 2 ^ 42) 88.

Lemma variance_bound_value : is_fin variance_bound ∧ (pw 140 + pw 127 ≤ fv variance_bound)%Z.
Proof.
  split; [decided|]. cbn [fv variance_bound].
  rewrite (pw_split 88 140), (pw_split 88 127) by lia. assert (Hp := pw_pos 88 ltac:(lia)).
  change (2 ^ (140 - 88))%Z with 4503599627370496%Z. change (2 ^ (127 - 88))%Z with 549755813888%Z. lia.
Qed.

Lemma decay_below a : a ∈ [lit_0_05; lit_0_2] → product_below 140 (f64_sub f64_one a) variance_bound = true.
Proof.
  intros Ha. revert a Ha. rewrite <-Forall_forall. repeat constructor; vm_compute; reflexivity.
Qed.

Lemma delta_bounded x mean :
  is_fin x → is_fin mean → (0 ≤ fv x ≤ pw 64)%Z → (0 ≤ fv mean ≤ pw 64)%Z →
  is_fin (f64_sub x mean) ∧ (- pw 64 ≤ fv (f64_sub x mean) ≤ pw 64)%Z.
Proof.
  intros Hx Hm Hxv Hmv. destruct (two_value 64) as [H2 Hv2]; [lia|].
  destruct (sub_between x mean (SFopp (two 64)) (two 64)) as [Hf Hv];
    [done|done|by apply is_fin_opp|done|rewrite fv_opp; lia|]. rewrite fv_opp, Hv2 in Hv. done.
Qed.

(** The increment of the variance is not negative, and bounded. *)
Lemma increment_bounded a d :
  is_fin a → is_fin d → (0 ≤ fv a ≤ pw (-1))%Z → (- pw 64 ≤ fv d ≤ pw 64)%Z →
  is_fin (f64_mul (f64_mul a d) d) ∧ (0 ≤ fv (f64_mul (f64_mul a d) d) ≤ pw 127)%Z.
Proof.
  intros Ha Hd Hav Hdv. assert (Hs := scale_pos).
  destruct (two_value 63) as [H63 Hv63]; [lia|]. destruct (two_value 127) as [H127 Hv127]; [lia|].
  assert (Hpr : (pw (-1) * pw 64 = pw 63 * scale)%Z) by (apply pw_mul; lia).
  assert (Hpr' : (pw 63 * pw 64 = pw 127 * scale)%Z) by (apply pw_mul; lia).
  assert (Hp63 := pw_pos 63 ltac:(lia)). assert (Hp64 := pw_pos 64 ltac:(lia)).
  rewrite <-Hv127. destruct (Z.le_gt_cases 0 (fv d)) as [Hpos|Hneg].
  - destruct (mul_between a d f64_zero (two 63)) as [Hf Hv]; [done..|cbn [fv f64_zero]; nia|].
    rewrite Hv63 in Hv. cbn [fv f64_zero] in Hv.
    apply (mul_between (f64_mul a d) d f64_zero (two 127)); [done..|]. rewrite Hv127. cbn [fv f64_zero]. nia.
  - destruct (mul_between a d (SFopp (two 63)) f64_zero) as [Hf Hv];
      [done|done|by apply is_fin_opp|done|rewrite fv_opp, Hv63; cbn [fv f64_zero]; nia|].
    rewrite fv_opp, Hv63 in Hv. cbn [fv f64_zero] in Hv.
    apply (mul_between (f64_mul a d) d f64_zero (two 127)); [done..|]. rewrite Hv127. cbn [fv f64_zero]. nia.
Qed.

Lemma variance_step a v inc :
  a ∈ [lit_0_05; lit_0_2] → is_fin v → is_fin inc → (0 ≤ fv v ≤ pw 140)%Z → (0 ≤ fv inc ≤ pw 127)%Z →
  let v' := f64_mul (f64_sub f64_one a) (f64_add v inc) in is_fin v' ∧ (0 ≤ fv v' ≤ pw 140)%Z.
Proof.
  intros Ha Hv Hi Hvv Hiv. destruct (product_below_spec _ _ _ (decay_below a Ha)) as (H1 & H2 & H1v & H2v & Hpr).
  destruct variance_bound_value as [_ Hb]. destruct (two_value 140) as [H140 Hv140]; [lia|].
  destruct (add_between v inc f64_zero variance_bound) as [Hs Hsv]; [done..|cbn [fv f64_zero]; lia|].
  rewrite <-Hv140. apply (mul_between _ _ f64_zero (two 140)); [done..|].
  rewrite Hv140. cbn [fv f64_zero] in *. nia.
Qed.

(** One value more keeps the state between the bounds. *)
Lemma mv_track_ok lo hi self now v :
  is_fin lo → is_fin hi → (0 ≤ fv lo)%Z → (fv hi ≤ pw 64)%Z →
  (mv_initialized self = true → mv_ok lo hi self) →
  is_fin (f64_of_Z v) → (fv lo ≤ fv (f64_of_Z v) ≤ fv hi)%Z → mv_ok lo hi (mv_track self now v).
Proof.
  intros Hlo Hhi Hl Hh Hself Hx Hxv. unfold mv_track, mv_update. set (x := f64_of_Z v) in *.
  assert (H140 := pw_pos 140 ltac:(lia)).
  destruct (mv_initialized self); [|split; cbn; try done; cbn; lia].
  destruct (Hself eq_refl) as [_ [Hm Hmv] [Hf Hfv] [Hvar Hvv]]. clear Hself.
  assert (H64 : (pw 64 ≤ pw 1000)%Z) by (apply pw_mono; lia).
  set (alpha := if f64_lt (mv_mean self) x then lit_0_05 else lit_0_2).
  set (floor := if f64_lt x (mv_mean_floor self) then lit_0_3 else lit_0_01).
  assert (Hal : alpha ∈ [lit_0_05; lit_0_2]) by (unfold alpha; destruct (f64_lt (mv_mean self) x); [left|right; left]).
  destruct (weight_half alpha) as [Ha Hav]; [unfold alpha; destruct (f64_lt (mv_mean self) x); [left|right; left]|].
  destruct (weight_half floor) as [Hfl Hflv];
    [unfold floor; destruct (f64_lt x (mv_mean_floor self)); [right; right; left|right; right; right; left]|].
  assert (Hmean := ema_between alpha (mv_mean self) x Ha Hm Hx Hav ltac:(lia) ltac:(lia)).
  assert (Hflo := ema_between floor (mv_mean_floor self) x Hfl Hf Hx Hflv ltac:(lia) ltac:(lia)).
  assert (Hd := delta_bounded x (mv_mean self) Hx Hm ltac:(lia) ltac:(lia)).
  assert (Hinc := increment_bounded alpha (f64_sub x (mv_mean self)) Ha (proj1 Hd) Hav (proj2 Hd)).
  assert (Hvar' := variance_step alpha (mv_variance self) _ Hal Hvar (proj1 Hinc) Hvv (proj2 Hinc)).
  split; cbn; [done|destruct Hmean; split; [done|unfold ema in *; lia]|
    destruct Hflo; split; [done|unfold ema in *; lia]|exact Hvar'].
Qed.

Lemma positive_u64_between x a b :
  is_fin x → (0 ≤ a)%Z → is_u64 b → (zv a ≤ fv x ≤ zv b)%Z → (a ≤ positive_u64 x ≤ b)%Z.
Proof.
  intros Hx Ha Hb Hv. unfold positive_u64.
  assert (Hz : (0 ≤ zv a)%Z) by (apply (zv_mono 0); lia).
  assert (Hlt := lt_value f64_zero x (I : is_fin f64_zero) Hx).
  assert (Hfin : f64_is_finite x = true) by by destruct x. rewrite Hfin, andb_true_r.
  destruct (f64_lt f64_zero x).
  - destruct (of_u64_range u64_max ltac:(ulia)) as [Hm Hmv]. fold u64_max_f64 in Hm, Hmv.
    destruct (min_value x u64_max_f64 Hx Hm) as [Hf Hfv]. apply to_u64_between; [done..|]. rewrite Hfv.
    assert (Hb' : (zv b ≤ fv u64_max_f64)%Z); [|lia].
    assert (H64 : below 64 u64_max_f64 = true ∧ u64_max_f64 = two 64) by (split; vm_compute; reflexivity).
    destruct H64 as [_ ->]. destruct (two_value 64) as [_ ->]; [lia|]. unfold zv.
    rewrite (pw_split 0 64) by lia. assert (Hp := pw_pos 0 ltac:(lia)). unfold is_u64, u64_max in Hb. nia.
  - cbn [fv f64_zero] in Hlt. assert (Hx0 : (fv x = 0)%Z) by (destruct (Z.lt_ge_cases 0 (fv x)) as [Hp|]; [by apply Hlt in Hp|lia]).
    assert (a ≤ 0)%Z by (apply zv_le; change (zv 0) with 0%Z; lia). unfold is_u64 in Hb. lia.
Qed.

(** With [k] zero the estimate is the mean's. *)
Lemma estimate_is_mean lo hi self now v :
  mv_k self = f64_zero → mv_ok lo hi (mv_track self now v) →
  mv_estimate (mv_track self now v) = mv_mean_estimate (mv_track self now v).
Proof.
  intros Hk Hok. destruct Hok as [_ [Hm _] _ [Hvar Hvv]]. unfold mv_track, mv_mean_estimate in *.
  destruct (mv_update self (f64_of_Z v)) as [[mean variance] fl]. cbn in *. rewrite Hk.
  assert (H200 : (pw 140 ≤ pw 200)%Z) by (apply pw_mono; lia).
  destruct (sqrt_between variance Hvar ltac:(lia)) as [Hs _].
  assert (Hz : ∃ s, f64_mul f64_zero (f64_sqrt variance) = S754_zero s)
    by (unfold f64_mul; destruct (f64_sqrt variance); try done; by eexists).
  destruct Hz as [s ->]. unfold f64_add. by destruct mean as [[]| | |], s.
Qed.

(** C35: The averages of the default estimator are averages. After values
    between [lo] and [hi], below 2^53, at least one and in any order, the mean and the
    floor are between them, whatever the rounding of the [f64] operations; so is
    the estimate when [k] is zero, as it is by default; the time recorded is
    that of the last value. *)
Theorem mean_var_between k lo hi samples last :
  (0 ≤ lo)%Z → (hi < 2 ^ 53)%Z → Forall (λ s : Z * Z, (lo ≤ s.2 ≤ hi)%Z) (samples ++ [last]) →
  let e := foldl (λ e s, mv_track e s.1 s.2) (@default_est _ (mean_var_estimator k)) (samples ++ [last]) in
  mv_can_estimate e = true ∧ (lo ≤ mv_mean_estimate e ≤ hi)%Z ∧ (lo ≤ mv_mean_floor_estimate e ≤ hi)%Z ∧
  (k = f64_zero → lo ≤ mv_estimate e ≤ hi)%Z ∧ mv_last_observation_us e = last.1.
Proof.
  intros Hlo Hhi Hall e.
  assert (Hhi0 : (lo ≤ hi)%Z) by (apply Forall_app in Hall as [_ [? _]%Forall_cons]; lia).
  destruct (of_Z_exact lo ltac:(lia)) as [Hl Hlv]. destruct (of_Z_exact hi ltac:(lia)) as [Hh Hhv].
  assert (Hk : ∀ l self, mv_k (foldl (λ e s, mv_track e s.1 s.2) self l) = mv_k self).
  { induction l as [|s l IH]; intros self; [done|]. cbn. rewrite IH. unfold mv_track.
    by destruct (mv_update self (f64_of_Z s.2)) as [[]]. }
  assert (Hstep : ∀ self s, (mv_initialized self = true → mv_ok (f64_of_Z lo) (f64_of_Z hi) self) →
    (lo ≤ s.2 ≤ hi)%Z → mv_ok (f64_of_Z lo) (f64_of_Z hi) (mv_track self s.1 s.2)).
  { intros self s Hself Hs. destruct (of_Z_exact s.2 ltac:(lia)) as [Hx Hxv].
    apply mv_track_ok; try done; rewrite ?Hlv, ?Hhv, ?Hxv; [by apply (zv_mono 0)| |split; apply zv_mono; lia].
    etrans; [apply (zv_mono hi (2 ^ 64)); lia|]. unfold zv. rewrite (pw_split 0 64) by lia. lia. }
  assert (Hok : ∀ l self, (mv_initialized self = true → mv_ok (f64_of_Z lo) (f64_of_Z hi) self) →
    Forall (λ s : Z * Z, (lo ≤ s.2 ≤ hi)%Z) l →
    mv_initialized (foldl (λ e s, mv_track e s.1 s.2) self l) = true →
    mv_ok (f64_of_Z lo) (f64_of_Z hi) (foldl (λ e s, mv_track e s.1 s.2) self l)).
  { induction l as [|s l IH]; intros self Hself Hl'; cbn; [done|]. apply Forall_cons in Hl' as [Hs Hl'].
    apply IH; [intros _; by apply Hstep|done]. }
  apply Forall_app in Hall as [Hall [Hlast _]%Forall_cons].
  unfold e. rewrite foldl_app. cbn [foldl]. set (e0 := foldl _ _ samples).
  assert (He : mv_ok (f64_of_Z lo) (f64_of_Z hi) (mv_track e0 last.1 last.2)).
  { apply Hstep; [|done]. intros Hi. apply Hok; [done|done|exact Hi]. }
  assert (Hu : is_u64 hi) by ulia.
  assert (Hmean : (lo ≤ mv_mean_estimate (mv_track e0 last.1 last.2) ≤ hi)%Z).
  { destruct He as [_ [Hm Hmv] _ _]. apply positive_u64_between; [done..|lia]. }
  assert (Hfloor : (lo ≤ mv_mean_floor_estimate (mv_track e0 last.1 last.2) ≤ hi)%Z).
  { destruct He as [_ _ [Hf Hfv] _]. apply positive_u64_between; [done..|lia]. }
  split; [apply (ok_init _ _ _ He)|]. split; [done|]. split; [done|]. split.
  - intros Hk0. rewrite (estimate_is_mean (f64_of_Z lo) (f64_of_Z hi)); [done| |done].
    unfold e0. rewrite Hk. exact Hk0.
  - unfold mv_track. by destruct (mv_update e0 (f64_of_Z last.2)) as [[]].
Qed.

Lemma mean_var_between_witness :
  let e := foldl (λ e s, mv_track e s.1 s.2) (@default_est _ (mean_var_estimator f64_zero))
             ([(1, 100); (2, 1000)] ++ [(3, 250)])%Z in
  (mv_mean_estimate e, mv_mean_floor_estimate e, mv_estimate e) = (150, 110, 150)%Z ∧
  (100 ≤ mv_mean_estimate e ≤ 1000)%Z.
Proof.
  split; [vm_compute; reflexivity|].
  destruct (mean_var_between f64_zero 100 1000 [(1, 100); (2, 1000)]%Z (3, 250)%Z) as (_ & H & _);
    [lia|lia|repeat constructor; cbn; lia|exact H].
Defined.
