(* ===== verification/Estimation.v ===== *)
(** What a service learns and what a request observes:
    libs/masa-policy/src/module/est/latency_map.rs, state/latency_estimators.rs,
    state/request.rs and policy_params.rs. The maps behind a mutex are state that
    each operation takes and returns; the clock readings are arguments. *)
From stdpp Require Import sorting.
From S2P Require Export Float64 FanoutGroups.

(** policy_params.rs. *)
Record PredParams := MkPredParams {
  tau_er : f64;
  estimator_k : f64;
  aimd_alpha : f64;
  aimd_beta : f64;
  aimd_er_threshold : f64;
  fanout_deadline_legacy_fraction : f64;
  fanout_root_only : bool;
  fanout_min_samples : Z;
}.

Definition pred_params_default : PredParams :=
  MkPredParams (f64_lit 2 1) f64_zero (f64_lit 5 100) (f64_lit 875 1000) (f64_lit 10 100) f64_zero false 3.

(** ** Keys and latency maps *)

Record ParentToChildKey := MkParentToChild { p2c_root : MethodId; p2c_parent : MethodId; p2c_child : MethodId }.
Record RootToLocalKey := MkRootToLocal { r2l_root : MethodId; r2l_local : MethodId }.

#[export] Instance p2c_eq_dec : EqDecision ParentToChildKey.
Proof. solve_decision. Defined.
#[export] Instance p2c_countable : Countable ParentToChildKey.
Proof.
  refine (inj_countable' (λ k, (p2c_root k, p2c_parent k, p2c_child k))
    (λ q, MkParentToChild q.1.1 q.1.2 q.2) _). by intros [].
Defined.
#[export] Instance r2l_eq_dec : EqDecision RootToLocalKey.
Proof. solve_decision. Defined.
#[export] Instance r2l_countable : Countable RootToLocalKey.
Proof. refine (inj_countable' (λ k, (r2l_root k, r2l_local k)) (λ q, MkRootToLocal q.1 q.2) _). by intros []. Defined.

Record EstimatesPack := MkPack { pack_mean : Z; pack_floor : Z; pack_last_observation_us : Z }.

Section latency_map.
  Context {K E : Type} `{Countable K} `{Estimator E}.

(** [get_estimate_with]: a missing key gets a default estimator. *)
Definition get_estimate_with {A} (m : gmap K E) (key : K) (extract : E → A) : gmap K E * option A :=
  match m !! key with
  | Some e => if has_estimate e then (m, Some (extract e)) else (m, None)
  | None => (<[key := default_est]> m, None)
  end.

Definition get_estimate (m : gmap K E) (key : K) := get_estimate_with m key estimate_of.
Definition get_mean_estimate (m : gmap K E) (key : K) := get_estimate_with m key mean_estimate.
Definition get_mean_floor_estimate (m : gmap K E) (key : K) := get_estimate_with m key mean_floor_estimate.

Definition get_estimates_pack (m : gmap K E) (key : K) : gmap K E * option EstimatesPack :=
  get_estimate_with m key
    (λ e, MkPack (mean_estimate e) (mean_floor_estimate e) (last_observation_us e)).

Definition map_track (m : gmap K E) (key : K) (now duration : Z) : gmap K E :=
  <[key := track_at (default default_est (m !! key)) now duration]> m.

(** What is known of a key, whether or not it has an entry. *)
Definition estimator_at (m : gmap K E) (key : K) : E := default default_est (m !! key).

(** No estimate comes out of an estimator that has seen nothing. *)
Class FreshEstimator := fresh_no_estimate : has_estimate (default_est (E:=E)) = false.

Lemma get_estimate_with_spec {A} `{FreshEstimator} (m : gmap K E) key (extract : E → A) :
  (get_estimate_with m key extract).2 =
    (if has_estimate (estimator_at m key) then Some (extract (estimator_at m key)) else None) ∧
  ∀ key', estimator_at (get_estimate_with m key extract).1 key' = estimator_at m key'.
Proof.
  unfold get_estimate_with, estimator_at. destruct (m !! key) as [e|] eqn:Hm; cbn.
  - destruct (has_estimate e); done.
  - rewrite fresh_no_estimate. split; [done|]. intros key'. destruct (decide (key' = key)) as [->|].
    + by rewrite lookup_insert_eq, Hm.
    + by rewrite lookup_insert_ne.
Qed.

Lemma map_track_at (m : gmap K E) key now duration key' :
  estimator_at (map_track m key now duration) key' =
    if decide (key' = key) then track_at (estimator_at m key) now duration else estimator_at m key'.
Proof.
  unfold estimator_at, map_track. destruct (decide (key' = key)) as [->|].
  - by rewrite lookup_insert_eq.
  - by rewrite lookup_insert_ne.
Qed.
End latency_map.
Arguments FreshEstimator E {_}.

(** ** Blending with the per-edge estimate *)

Definition is_empty (self : AfterChildEstimates) : bool :=
  bool_decide (full self = 0 ∧ mean self = 0 ∧ floor self = 0)%Z.

Definition blend_toward_legacy (value legacy : Z) (fraction : f64) : Z :=
  if decide (legacy ≤ value)%Z then legacy
  else
    let fraction := f64_clamp fraction f64_zero f64_one in
    if f64_le fraction f64_epsilon then value
    else if f64_le (f64_sub f64_one fraction) f64_epsilon then legacy
    else wrap64 (value + f64_to_u64 (f64_round (f64_mul (f64_of_Z (legacy - value)) fraction))).

Definition merge_with_legacy_priority (self legacy : AfterChildEstimates)
    (deadline_legacy_fraction : f64) : AfterChildEstimates :=
  if is_empty self then legacy
  else if is_empty legacy then self
  else MkEstimates (full legacy)
    (blend_toward_legacy (Z.min (mean self) (mean legacy)) (mean legacy) deadline_legacy_fraction)
    (blend_toward_legacy (Z.min (floor self) (floor legacy)) (floor legacy) deadline_legacy_fraction).

(** ** The estimators of a service *)

Section estimators.
  Context {E : Type} `{Estimator E}.

Notation Table := (gmap (MethodId * MethodId) (ParentFanoutPatterns (E:=E))).

Record LatencyEstimators := MkEstimators {
  after_child_wallclock : gmap ParentToChildKey E;
  child_wallclock : gmap ParentToChildKey E;
  subtree_compute : gmap MethodId E;
  method_wallclock : gmap RootToLocalKey E;
  fanout_patterns : Table;
  service_fanout_patterns : Table;
  print_counter : Z;
}.

Definition estimators_new : LatencyEstimators := MkEstimators ∅ ∅ ∅ ∅ ∅ ∅ 0.

Definition set_after_child (m : gmap ParentToChildKey E) (s : LatencyEstimators) : LatencyEstimators :=
  MkEstimators m (child_wallclock s) (subtree_compute s) (method_wallclock s)
    (fanout_patterns s) (service_fanout_patterns s) (print_counter s).

Definition set_child (m : gmap ParentToChildKey E) (s : LatencyEstimators) : LatencyEstimators :=
  MkEstimators (after_child_wallclock s) m (subtree_compute s) (method_wallclock s)
    (fanout_patterns s) (service_fanout_patterns s) (print_counter s).

Definition est_after_child_wallclock (self : LatencyEstimators) (key : ParentToChildKey) (cap : Z)
    : LatencyEstimators * AfterChildEstimates :=
  let '(m, full) := get_estimate (after_child_wallclock self) key in
  let '(m, mean) := get_mean_estimate m key in
  let '(m, floor) := get_mean_floor_estimate m key in
  (set_after_child m self,
   MkEstimates (Z.min (default 0%Z full) cap) (Z.min (default 0%Z mean) cap)
     (Z.min (default 0%Z floor) cap)).

(** [MASA_FANOUT_AWARE] and the parameter that restricts it to roots. *)
Definition fanout_enabled_for_parent (aware : bool) (p : PredParams) (root parent : MethodId) : bool :=
  if aware then negb (fanout_root_only p) || bool_decide (root = parent) else false.

Definition est_after_child_wallclock_for_group (aware : bool) (p : PredParams) (self : LatencyEstimators)
    (root parent : MethodId) (path_prefix : PathPrefix) (base_signature : list MethodId)
    (service_path_prefix : PathPrefix) (base_service_signature : list MethodId)
    (new_child_id : MethodId) (cap : Z) : outcome (LatencyEstimators * AfterChildEstimates) :=
  let key := MkParentToChild root parent new_child_id in
  let '(self, legacy) := est_after_child_wallclock self key cap in
  if negb (fanout_enabled_for_parent aware p root parent) || bool_decide (length base_signature ≤ 1)
  then Ret (self, legacy)
  else
    fanout ← lookup_estimate (fanout_patterns self) root parent path_prefix base_signature
               (fanout_min_samples p) cap;
    fanout ← (if is_empty fanout then
                lookup_estimate (service_fanout_patterns self) root parent service_path_prefix
                  base_service_signature (fanout_min_samples p) cap
              else Ret fanout);
    Ret (self, merge_with_legacy_priority fanout legacy (fanout_deadline_legacy_fraction p)).

Definition est_child_wallclock (self : LatencyEstimators) (key : ParentToChildKey)
    : LatencyEstimators * option Z :=
  let '(m, r) := get_estimate (child_wallclock self) key in (set_child m self, r).

Definition child_wallclock_pack (self : LatencyEstimators) (key : ParentToChildKey)
    : LatencyEstimators * option EstimatesPack :=
  let '(m, r) := get_estimates_pack (child_wallclock self) key in (set_child m self, r).

Definition after_child_wallclock_last_obs (self : LatencyEstimators) (key : ParentToChildKey)
    : LatencyEstimators * Z :=
  let '(m, r) := get_estimates_pack (after_child_wallclock self) key in
  (set_after_child m self, match r with Some p => pack_last_observation_us p | None => 0%Z end).

Definition track_after_child_wallclock (self : LatencyEstimators) (key : ParentToChildKey)
    (now duration_us : Z) : LatencyEstimators :=
  set_after_child (map_track (after_child_wallclock self) key now duration_us) self.

Definition track_child_wallclock (self : LatencyEstimators) (key : ParentToChildKey)
    (now duration_us : Z) : LatencyEstimators :=
  set_child (map_track (child_wallclock self) key now duration_us) self.

Definition track_method_wallclock (self : LatencyEstimators) (key : RootToLocalKey)
    (now duration_us : Z) : LatencyEstimators :=
  MkEstimators (after_child_wallclock self) (child_wallclock self) (subtree_compute self)
    (map_track (method_wallclock self) key now duration_us)
    (fanout_patterns self) (service_fanout_patterns self) (print_counter self).

Definition track_subtree_compute (self : LatencyEstimators) (key : MethodId) (now cost_us : Z)
    : LatencyEstimators :=
  MkEstimators (after_child_wallclock self) (child_wallclock self)
    (map_track (subtree_compute self) key now cost_us) (method_wallclock self)
    (fanout_patterns self) (service_fanout_patterns self) (print_counter self).

Definition set_fanout (f sf : Table) (s : LatencyEstimators) : LatencyEstimators :=
  MkEstimators (after_child_wallclock s) (child_wallclock s) (subtree_compute s) (method_wallclock s)
    f sf (print_counter s).

Definition track_fanout_group (self : LatencyEstimators) (root parent : MethodId)
    (path_prefix : PathPrefix) (signature : list MethodId) (service_path_prefix : PathPrefix)
    (service_signature : list MethodId) (now post_join_us : Z) : outcome LatencyEstimators :=
  f ← update (fanout_patterns self) root parent (Path path_prefix) signature now post_join_us;
  f ← update f root parent Aggregate signature now post_join_us;
  sf ← update (service_fanout_patterns self) root parent (Path service_path_prefix) service_signature
         now post_join_us;
  sf ← update sf root parent Aggregate service_signature now post_join_us;
  Ret (set_fanout f sf self).

(** [log_estimates]: every 5000th call looks the child estimate up for the log. *)
Definition log_estimates (self : LatencyEstimators) (key : ParentToChildKey) : LatencyEstimators :=
  let n := print_counter self in
  let self := MkEstimators (after_child_wallclock self) (child_wallclock self) (subtree_compute self)
                (method_wallclock self) (fanout_patterns self) (service_fanout_patterns self)
                (wrap64 (n + 1)) in
  if decide (n mod 5000 = 0)%Z then (est_child_wallclock self key).1 else self.
End estimators.
Arguments LatencyEstimators : clear implicits.

(** ** The tracker of a request *)

(** [FanoutInvocationState]. *)
Record FanoutInvocationState := MkInvocation {
  children : list ChildRecord;
  inv_path_prefix : PathPrefix;
  inv_service_path_prefix : PathPrefix;
  incorporated_child_count : nat;
}.

Definition invocation_default : FanoutInvocationState := MkInvocation [] prefix_root prefix_root 0.

(** The prefixes after more groups. *)
Definition append_groups (p : PathPrefix * PathPrefix) (groups : list PathFanoutObservation)
    : PathPrefix * PathPrefix :=
  foldl (λ p g, (append_signature p.1 (signature g), append_signature p.2 (service_signature g))) p groups.

Definition refresh_path_prefix_before_open_group (self : FanoutInvocationState) (now : Instant)
    : outcome FanoutInvocationState :=
  if decide (length (children self) ≤ incorporated_child_count self) then Ret self
  else
    let pending := drop (incorporated_child_count self) (children self) in
    let terminal_prefix_len :=
      match list_find (λ c, terminal c = false) pending with
      | Some (i, _) => i
      | None => length pending
      end in
    if decide (terminal_prefix_len = 0) then Ret self
    else
      groups ← recover_path_groups (take terminal_prefix_len pending) now;
      let p := append_groups (inv_path_prefix self, inv_service_path_prefix self) groups in
      Ret (MkInvocation (children self) p.1 p.2 (incorporated_child_count self + terminal_prefix_len)).

Record EstimationTracker := MkTracker {
  resolved_method_id : MethodId;
  root_method_id : option MethodId;
  fanout : FanoutInvocationState;
  request_start : Instant;
}.

Record ChildRPCTracker := MkChildTracker {
  ct_key : ParentToChildKey;
  child_index : nat;
  ct_path_prefix : PathPrefix;
  base_signature : list MethodId;
  ct_service_path_prefix : PathPrefix;
  base_service_signature : list MethodId;
  ct_child_id : MethodId;
  start_time : Instant;
}.

Definition tracker_new (resolved : MethodId) (root : option MethodId) (now : Instant) : EstimationTracker :=
  MkTracker resolved root invocation_default now.

Definition root_or_self (self : EstimationTracker) : MethodId :=
  default (resolved_method_id self) (root_method_id self).

Definition set_invocation (f : FanoutInvocationState) (self : EstimationTracker) : EstimationTracker :=
  MkTracker (resolved_method_id self) (root_method_id self) f (request_start self).

Definition open_children (self : FanoutInvocationState) : list ChildRecord :=
  filter (λ c, terminal c = false) (children self).

(** [begin_child], given the two ids the registry returns for the child. *)
Definition begin_child (aware : bool) (p : PredParams) (self : EstimationTracker)
    (child child_service : MethodId) (now : Instant) : outcome (EstimationTracker * ChildRPCTracker) :=
  let root := root_or_self self in
  let key := MkParentToChild root (resolved_method_id self) child in
  r ←
    (if fanout_enabled_for_parent aware p root (resolved_method_id self) then
       f ← (if decide (open_children (fanout self) = []) then Ret (fanout self)
            else refresh_path_prefix_before_open_group (fanout self) now);
       Ret (f, inv_path_prefix f, sort_signature ((child_id <$> open_children f) ++ [child]),
            inv_service_path_prefix f,
            sort_signature ((child_service_id <$> open_children f) ++ [child_service]))
     else Ret (fanout self, prefix_root, [child], prefix_root, [child_service]));
  let '(f, prefix, base, service_prefix, base_service) := r in
  let index := length (children f) in
  let record := MkChild child child_service now None false in
  let f := MkInvocation (children f ++ [record]) (inv_path_prefix f) (inv_service_path_prefix f)
             (incorporated_child_count f) in
  Ret (set_invocation f self, MkChildTracker key index prefix base service_prefix base_service child now).

(** [children.get_mut(index)]. *)
Definition modify_child (index : nat) (g : ChildRecord → ChildRecord) (self : EstimationTracker)
    : EstimationTracker :=
  let f := fanout self in
  set_invocation
    (MkInvocation (alter g index (children f)) (inv_path_prefix f) (inv_service_path_prefix f)
       (incorporated_child_count f)) self.

Definition mark_terminal (c : ChildRecord) : ChildRecord :=
  MkChild (child_id c) (child_service_id c) (start c) (end_ c) true.

Definition mark_ended (now : Instant) (c : ChildRecord) : ChildRecord :=
  MkChild (child_id c) (child_service_id c) (start c) (Some now) true.

Section tracker.
  Context {E : Type} `{Estimator E}.

(** [record_child_complete]: whether the response is an early return, whether
    its report is signaled, the instant the elapsed time is read at, the
    microseconds an estimator records, the instant of the end. *)
Definition record_child_complete (est : LatencyEstimators E) (self : EstimationTracker)
    (tracker : ChildRPCTracker) (early_return signaled : bool) (elapsed_at : Instant) (clock : Z)
    (now : Instant) : LatencyEstimators E * EstimationTracker :=
  if early_return then (est, modify_child (child_index tracker) mark_terminal self)
  else if signaled then (est, modify_child (child_index tracker) (mark_ended now) self)
  else
    (track_child_wallclock est (ct_key tracker) clock (micros_since elapsed_at (start_time tracker)),
     modify_child (child_index tracker) (mark_ended now) self).

Definition method_wallclock_key (self : EstimationTracker) : option RootToLocalKey :=
  root ← root_method_id self; Some (MkRootToLocal root (resolved_method_id self)).

(** The per-edge observations of [flush]. *)
Definition flush_children (root parent : MethodId) (parent_end : Instant) (clock : Z)
    (est : LatencyEstimators E) (cs : list ChildRecord) : LatencyEstimators E :=
  foldl (λ est c,
    match end_ c with
    | None => est
    | Some e =>
        track_after_child_wallclock est (MkParentToChild root parent (child_id c)) clock
          (micros_since parent_end e)
    end) est cs.

(** The group observations of [flush]. *)
Fixpoint flush_groups (root parent : MethodId) (clock : Z) (est : LatencyEstimators E)
    (groups : list PathFanoutObservation) : outcome (LatencyEstimators E) :=
  match groups with
  | [] => Ret est
  | g :: groups =>
      if decide (length (signature g) ≤ 1) then flush_groups root parent clock est groups
      else
        est ← track_fanout_group est root parent (path_prefix g) (signature g)
                (service_path_prefix g) (service_signature g) clock (post_join_us g);
        flush_groups root parent clock est groups
  end.

Definition flush (aware : bool) (p : PredParams) (est : LatencyEstimators E) (self : EstimationTracker)
    (parent_end : Instant) (clock : Z) (now : Instant) : outcome (LatencyEstimators E * EstimationTracker) :=
  let root := root_or_self self in
  let cs := children (fanout self) in
  let self := set_invocation invocation_default self in
  let est := flush_children root (resolved_method_id self) parent_end clock est cs in
  est ← (if fanout_enabled_for_parent aware p root (resolved_method_id self) then
           groups ← recover_path_groups cs parent_end;
           flush_groups root (resolved_method_id self) clock est groups
         else Ret est);
  Ret (match method_wallclock_key self with
       | Some key => track_method_wallclock est key clock (micros_since now (request_start self))
       | None => est
       end, self).
End tracker.

(** ** Deadlines are not tightened beyond the per-edge estimate *)

Lemma blend_legacy_between value legacy fraction :
  is_fin fraction → (0 ≤ value ≤ legacy)%Z → (legacy < 2 ^ 53)%Z →
  (value ≤ blend_toward_legacy value legacy fraction ≤ legacy)%Z.
Proof.
  intros Hf Hv Hl. unfold blend_toward_legacy. destruct (decide (legacy ≤ value)%Z) as [|Hlt]; [lia|].
  destruct one_value as [H1 Hv1]. assert (Hs := scale_pos).
  destruct (clamp_value fraction f64_zero f64_one Hf (I : is_fin f64_zero) H1) as [Hc Hcv];
    [rewrite Hv1, pw_0; cbn [fv f64_zero]; lia|].
  set (frac := f64_clamp fraction f64_zero f64_one) in *.
  destruct (f64_le frac f64_epsilon); [lia|]. destruct (f64_le (f64_sub f64_one frac) f64_epsilon); [lia|].
  rewrite Hv1, pw_0 in Hcv. cbn [fv f64_zero] in Hcv.
  set (d := (legacy - value)%Z). destruct (of_Z_exact d ltac:(unfold d; lia)) as [Hd Hdv].
  assert (Hzd : (0 ≤ zv d)%Z) by (change 0%Z with (zv 0); apply zv_mono; unfold d; lia).
  destruct (mul_between (f64_of_Z d) frac f64_zero (f64_of_Z d)) as [Hp Hpv]; [done..|rewrite Hdv; cbn [fv f64_zero]; nia|].
  rewrite Hdv in Hpv. cbn [fv f64_zero] in Hpv.
  destruct (round_integer_between (f64_mul (f64_of_Z d) frac) 0 d) as [Hr Hrv];
    [done|lia|unfold d; lia|change (zv 0) with 0%Z; lia|].
  assert (Hu := to_u64_between _ 0 d Hr ltac:(lia) ltac:(unfold d; ulia) Hrv).
  unfold d in *. rewrite wrap64_small; [lia|ulia].
Qed.


Section bounds.
  Context {E : Type} `{Estimator E} `{!EstimatorTyped E} `{!FreshEstimator E}.

(** What the per-edge map says of a child. *)
Definition legacy_estimate (est : LatencyEstimators E) (key : ParentToChildKey) (cap : Z) : AfterChildEstimates :=
  let e := estimator_at (after_child_wallclock est) key in
  if has_estimate e
  then MkEstimates (Z.min (estimate_of e) cap) (Z.min (mean_estimate e) cap) (Z.min (mean_floor_estimate e) cap)
  else no_estimates.

(** Two states that answer every query alike. *)
Definition same_knowledge (est est' : LatencyEstimators E) : Prop :=
  (∀ key, estimator_at (after_child_wallclock est') key = estimator_at (after_child_wallclock est) key) ∧
  child_wallclock est' = child_wallclock est ∧ method_wallclock est' = method_wallclock est ∧
  subtree_compute est' = subtree_compute est ∧
  fanout_patterns est' = fanout_patterns est ∧ service_fanout_patterns est' = service_fanout_patterns est.

Lemma est_after_child_wallclock_spec (est : LatencyEstimators E) key cap :
  (0 ≤ cap)%Z →
  (est_after_child_wallclock est key cap).2 = legacy_estimate est key cap ∧
  same_knowledge est (est_after_child_wallclock est key cap).1.
Proof.
  intros Hcap. unfold est_after_child_wallclock, get_estimate, get_mean_estimate, get_mean_floor_estimate.
  destruct (get_estimate_with_spec (after_child_wallclock est) key estimate_of) as [H1 Hm1].
  destruct (get_estimate_with (after_child_wallclock est) key estimate_of) as [m1 o1]; cbn [fst snd] in *.
  destruct (get_estimate_with_spec m1 key mean_estimate) as [H2 Hm2].
  destruct (get_estimate_with m1 key mean_estimate) as [m2 o2]; cbn [fst snd] in *.
  destruct (get_estimate_with_spec m2 key mean_floor_estimate) as [H3 Hm3].
  destruct (get_estimate_with m2 key mean_floor_estimate) as [m3 o3]; cbn [fst snd] in *.
  rewrite H3, H2, H1, Hm2, !Hm1. split.
  - unfold legacy_estimate. destruct (has_estimate _); cbn; [done|]. unfold no_estimates. f_equal; lia.
  - split_and!; try done. intros k. cbn. by rewrite Hm3, Hm2, Hm1.
Qed.

Lemma legacy_capped (est : LatencyEstimators E) key cap : is_u64 cap → capped cap (legacy_estimate est key cap).
Proof.
  intros Hc. unfold legacy_estimate, capped. set (e := estimator_at _ _).
  assert (H1 := estimate_typed e). assert (H2 := mean_typed e). assert (H3 := floor_typed e).
  destruct (has_estimate e); cbn; ulia.
Qed.

(** A table that updates have built. *)
Definition learned (t : gmap (MethodId * MethodId) (ParentFanoutPatterns (E:=E))) : Prop :=
  ∃ history, sorted_history history ∧ (Z.of_nat (length history) ≤ u64_max)%Z ∧ update_all history = Ret t.

Lemma learned_lookup t root parent prefix base min_samples cap :
  learned t → StronglySorted Z.le base → is_u64 cap →
  ∃ r, lookup_estimate t root parent prefix base min_samples cap = Ret r ∧ capped cap r.
Proof.
  intros (history & Hs & Hl & Ht) Hb Hc. destruct (lookup_estimate_spec history Hs Hl) as (t' & Ht' & Hlook).
  rewrite Ht in Ht'. injection Ht' as <-.
  destruct (Hlook root parent prefix base min_samples cap Hb Hc) as [-> Hcap]. eauto.
Qed.

Lemma merge_bounds group legacy fraction cap :
  is_fin fraction → is_u64 cap → (cap < 2 ^ 53)%Z → capped cap group → capped cap legacy →
  let r := merge_with_legacy_priority group legacy fraction in
  capped cap r ∧ (is_empty legacy = false →
    full r = full legacy ∧ (mean r ≤ mean legacy)%Z ∧ (floor r ≤ floor legacy)%Z).
Proof.
  intros Hf Hc Hcap Hg Hl r. unfold r, merge_with_legacy_priority.
  destruct (is_empty group); [split; [done|]; intros _; split_and!; lia|].
  destruct (is_empty legacy); [by split|]. destruct Hg as (? & ? & ?), Hl as (? & ? & ?).
  assert (Hm := blend_legacy_between (Z.min (mean group) (mean legacy)) (mean legacy) fraction Hf ltac:(lia) ltac:(lia)).
  assert (Hfl := blend_legacy_between (Z.min (floor group) (floor legacy)) (floor legacy) fraction Hf ltac:(lia) ltac:(lia)).
  unfold capped; cbn. split_and!; try lia; done.
Qed.

(** The estimates for a child, bounded. *)
Lemma deadline_estimate_spec aware p (est : LatencyEstimators E) root parent prefix base
    service_prefix service_base child cap :
  learned (fanout_patterns est) → learned (service_fanout_patterns est) →
  is_fin (fanout_deadline_legacy_fraction p) → (0 ≤ cap < 2 ^ 53)%Z →
  StronglySorted Z.le base → StronglySorted Z.le service_base →
  let legacy := legacy_estimate est (MkParentToChild root parent child) cap in
  ∃ est' r, est_after_child_wallclock_for_group aware p est root parent prefix base service_prefix
      service_base child cap = Ret (est', r) ∧
    same_knowledge est est' ∧ capped cap r ∧
    (is_empty legacy = false →
      full r = full legacy ∧ (mean r ≤ mean legacy)%Z ∧ (floor r ≤ floor legacy)%Z) ∧
    (length base ≤ 1 ∨ fanout_enabled_for_parent aware p root parent = false → r = legacy).
Proof.
  intros Hf Hsf Hfrac Hcap Hb Hsb legacy. assert (Hu : is_u64 cap) by ulia.
  unfold est_after_child_wallclock_for_group.
  destruct (est_after_child_wallclock_spec est (MkParentToChild root parent child) cap) as [Hl Hk]; [lia|].
  destruct (est_after_child_wallclock est _ cap) as [est' r0]; cbn [fst snd] in *. subst r0. fold legacy.
  assert (Hlc : capped cap legacy) by by apply legacy_capped.
  destruct (negb _ || bool_decide _) eqn:Hoff.
  { exists est', legacy. split_and!; try done; intros _; split_and!; lia. }
  apply orb_false_iff in Hoff as [Hon Hlen]. apply negb_false_iff in Hon. apply bool_decide_eq_false in Hlen.
  destruct Hk as (Hk & ? & ? & ? & Hfe & Hsfe). rewrite Hfe, Hsfe.
  destruct (learned_lookup _ root parent prefix base (fanout_min_samples p) cap Hf Hb Hu) as (g & -> & Hg).
  destruct (learned_lookup _ root parent service_prefix service_base (fanout_min_samples p) cap Hsf Hsb Hu) as (sg & -> & Hsg).
  cbn [mbind outcome_bind].
  assert (Hgroup : ∃ g', (if is_empty g then Ret sg else Ret g) = Ret g' ∧ capped cap g')
    by (destruct (is_empty g); eauto).
  destruct Hgroup as (g' & -> & Hg'). cbn [outcome_bind]. eexists _, _. split; [done|].
  destruct (merge_bounds g' legacy _ cap Hfrac Hu ltac:(lia) Hg' Hlc) as [Hr Hr'].
  split; [split_and!; done|]. split; [done|]. split; [done|]. rewrite Hon. intros [?|?]; [lia|done].
Qed.

(** The estimate a child's deadline is tightened by. Whatever the tables
    have learned and whatever the blending fraction, the lookup returns,
    teaches the estimators nothing, exceeds the time left in none of its three
    values, and where the per-edge estimate knows anything leaves its [full]
    value, which sets the priority, as it is and never raises [mean] or
    [floor], which set the hard deadline, above it. Without a group, or with
    the fan-out estimates off, it is the per-edge estimate. *)
Theorem deadline_estimate_bounded aware p (est : LatencyEstimators E) root parent prefix base
    service_prefix service_base child cap :
  learned (fanout_patterns est) → learned (service_fanout_patterns est) →
  is_fin (fanout_deadline_legacy_fraction p) → (0 ≤ cap < 2 ^ 53)%Z →
  StronglySorted Z.le base → StronglySorted Z.le service_base →
  let legacy := legacy_estimate est (MkParentToChild root parent child) cap in
  ∃ est' r, est_after_child_wallclock_for_group aware p est root parent prefix base service_prefix
      service_base child cap = Ret (est', r) ∧
    same_knowledge est est' ∧ capped cap r ∧
    (is_empty legacy = false →
      full r = full legacy ∧ (mean r ≤ mean legacy)%Z ∧ (floor r ≤ floor legacy)%Z) ∧
    (length base ≤ 1 ∨ fanout_enabled_for_parent aware p root parent = false → r = legacy).
Proof. apply deadline_estimate_spec. Qed.
End bounds.

#[export] Instance ewma_fresh : FreshEstimator Ewma.LatencyEwma.
Proof. reflexivity. Qed.

(** A group of two was observed at 40 us after the join and one child of it at
    100 us after its own end; the deadline uses 40, the priority 100. *)
Definition demo_estimators : outcome (LatencyEstimators Ewma.LatencyEwma) :=
  est ← track_fanout_group estimators_new 1 1 prefix_root [2; 3]%Z prefix_root [12; 13]%Z 0 40;
  est ← track_fanout_group est 1 1 prefix_root [2; 3]%Z prefix_root [12; 13]%Z 0 40;
  est ← track_fanout_group est 1 1 prefix_root [2; 3]%Z prefix_root [12; 13]%Z 0 40;
  Ret (track_after_child_wallclock est (MkParentToChild 1 1 2) 0 100).

Definition demo_log (service : bool) : list ((MethodId * MethodId) * Observation) :=
  mjoin (replicate 3 ((λ scope, ((1, 1)%Z, MkObservation (MkKey scope (if service then [12; 13]%Z else [2; 3]%Z)) 0 40)) <$>
    [Path prefix_root; Aggregate])).

Definition demo_lookup (est : LatencyEstimators Ewma.LatencyEwma) :=
  est_after_child_wallclock_for_group true pred_params_default est 1 1 prefix_root [2; 3]%Z
    prefix_root [12; 13]%Z 2 5000.

Lemma deadline_estimate_bounded_witness :
  ∃ est, demo_estimators = Ret est ∧
    ∃ est' r, demo_lookup est = Ret (est', r) ∧ r = MkEstimates 100 40 40 ∧ (mean r ≤ 100)%Z.
Proof.
  assert (Hf : fanout_patterns <$> demo_estimators = update_all (demo_log false)) by (vm_compute; reflexivity).
  assert (Hsf : service_fanout_patterns <$> demo_estimators = update_all (demo_log true)) by (vm_compute; reflexivity).
  assert (Hl : (λ est, legacy_estimate est (MkParentToChild 1 1 2) 5000) <$> demo_estimators =
    Ret (MkEstimates 100 100 100)) by (vm_compute; reflexivity).
  assert (Hr : snd <$> (demo_estimators ≫= demo_lookup) = Ret (MkEstimates 100 40 40)) by (vm_compute; reflexivity).
  destruct demo_estimators as [est|]; [|done]. exists est. split; [done|].
  destruct (deadline_estimate_bounded true pred_params_default est 1 1 prefix_root [2; 3]%Z
    prefix_root [12; 13]%Z 2 5000) as (est' & r & Hlook & _ & _ & Hb & _).
  { exists (demo_log false). split_and!; [repeat constructor; decided|vm_compute; done|done]. }
  { exists (demo_log true). split_and!; [repeat constructor; decided|vm_compute; done|done]. }
  { decided. } { lia. } { repeat constructor; decided. } { repeat constructor; decided. }
  exists est', r. split; [done|]. injection Hl as Hl. rewrite Hl in Hb.
  destruct Hb as (_ & Hm & _); [reflexivity|]. split; [|exact Hm].
  cbn [mbind outcome_bind] in Hr. unfold demo_lookup in Hr. rewrite Hlook in Hr. by injection Hr.
Defined.
