(* ===== verification/Invocation.v ===== *)
(** One invocation of a handler, as a sequence of children issued and returned,
    libs/masa-policy/src/module/est/state/request.rs: how what [begin_child]
    predicts of a child's fan-out group relates to the group that [flush]
    recovers in the end. *)
From stdpp Require Import sorting.
From S2P Require Export Estimation.

(** [begin_child] for a child, or what [record_child_complete] does to the
    record of the child with an index: its end is recorded unless it returned
    early. *)
Inductive event :=
| Issue (child service : MethodId) (now : Instant)
| Return (index : nat) (early_return : bool) (now : Instant).

Definition time (e : event) : Instant := match e with Issue _ _ now | Return _ _ now => now end.

Definition invocation_step (aware : bool) (p : PredParams) (self : EstimationTracker) (e : event)
    : outcome EstimationTracker :=
  match e with
  | Issue child service now => fst <$> begin_child aware p self child service now
  | Return index early_return now =>
      Ret (modify_child index (if early_return then mark_terminal else mark_ended now) self)
  end.

Fixpoint run (aware : bool) (p : PredParams) (self : EstimationTracker) (es : list event)
    : outcome EstimationTracker :=
  match es with
  | [] => Ret self
  | e :: es => self ← invocation_step aware p self e; run aware p self es
  end.

(** A return is what [record_child_complete] does to the tracker. *)
Lemma return_is_record_complete {E} `{Estimator E} est (self : EstimationTracker) ct early signaled at_ clock now :
  (record_child_complete (E:=E) est self ct early signaled at_ clock now).2 =
    modify_child (child_index ct) (if early then mark_terminal else mark_ended now) self.
Proof. unfold record_child_complete. by destruct early, signaled. Qed.

(** ** The records over time *)

Definition records (self : EstimationTracker) : list ChildRecord := children (fanout self).

(** What is true of every record at a time. *)
Definition record_ok (now : Instant) (c : ChildRecord) : Prop :=
  (start c ≤ now)%Z ∧ (∀ e, end_ c = Some e → (start c ≤ e)%Z) ∧ (terminal c = false → end_ c = None).

(** A record later: the same child; an end, if it is new, not before [now]. *)
Definition later (now : Instant) (c c' : ChildRecord) : Prop :=
  child_id c' = child_id c ∧ child_service_id c' = child_service_id c ∧ start c' = start c ∧
  (end_ c' = end_ c ∨ ∃ e, end_ c' = Some e ∧ (now ≤ e)%Z).

Definition grows (now : Instant) (cs cs' : list ChildRecord) : Prop :=
  (∀ i c, cs !! i = Some c → ∃ c', cs' !! i = Some c' ∧ later now c c') ∧
  ∀ i c', cs !! i = None → cs' !! i = Some c' → (now ≤ start c')%Z.

Lemma later_refl now c : later now c c.
Proof. repeat split. by left. Qed.

Lemma grows_refl now cs : grows now cs cs.
Proof. split; [|by intros i c' -> [=]]. intros i c Hi. exists c. split; [done|apply later_refl]. Qed.

Lemma refresh_children self now self' :
  refresh_path_prefix_before_open_group self now = Ret self' → children self' = children self.
Proof.
  unfold refresh_path_prefix_before_open_group. destruct (decide _); [by intros [= ->]|].
  destruct (decide _); [by intros [= ->]|].
  destruct (recover_path_groups _ now) as [groups|]; [|done]. by intros [= <-].
Qed.

Lemma begin_child_records aware p self child service now self' ct :
  begin_child aware p self child service now = Ret (self', ct) →
  records self' = records self ++ [MkChild child service now None false].
Proof.
  unfold begin_child. intros H.
  destruct (fanout_enabled_for_parent _ _ _ _); cbn [mbind outcome_bind] in H; [|by injection H as <- _].
  destruct (decide (open_children (fanout self) = [])).
  - cbn [mbind outcome_bind] in H. by injection H as <- _.
  - destruct (refresh_path_prefix_before_open_group (fanout self) now) as [f|] eqn:Hf; [|done].
    cbn [mbind outcome_bind] in H. injection H as <- _. apply refresh_children in Hf.
    unfold records. cbn. by rewrite Hf.
Qed.

Lemma later_trans now now' c1 c2 c3 : (now ≤ now')%Z → later now c1 c2 → later now' c2 c3 → later now c1 c3.
Proof.
  intros Hle (? & ? & ? & He) (? & ? & ? & He'). split_and!; [congruence..|].
  destruct He' as [->|(e & -> & ?)]; [done|right]. exists e. split; [done|lia].
Qed.

Lemma grows_trans now now' cs1 cs2 cs3 :
  (now ≤ now')%Z → grows now cs1 cs2 → grows now' cs2 cs3 → grows now cs1 cs3.
Proof.
  intros Hle [H1 H1'] [H2 H2']. split.
  - intros i c Hi. destruct (H1 i c Hi) as (c2 & Hi2 & Hl2). destruct (H2 i c2 Hi2) as (c3 & Hi3 & Hl3).
    exists c3. split; [done|]. by eapply later_trans.
  - intros i c3 Hi Hi3. destruct (cs2 !! i) as [c2|] eqn:Hi2.
    + destruct (H2 i c2 Hi2) as (c' & Hc' & _ & _ & Hst & _). simplify_eq. rewrite Hst. by eapply H1'.
    + specialize (H2' i c3 Hi2 Hi3). lia.
Qed.

Lemma grows_mono now now' cs cs' : (now ≤ now')%Z → grows now' cs cs' → grows now cs cs'.
Proof.
  intros Hle [H H']. split.
  - intros i c Hi. destruct (H i c Hi) as (c' & Hi' & ? & ? & ? & He). exists c'. split; [done|].
    split_and!; [done..|]. destruct He as [|(e & ? & ?)]; [by left|right]. exists e. split; [done|lia].
  - intros i c' Hi Hi'. specialize (H' i c' Hi Hi'). lia.
Qed.

Lemma record_ok_mono now t c : (now ≤ t)%Z → record_ok now c → record_ok t c.
Proof. intros ? (? & ? & ?). split; [lia|done]. Qed.

Lemma step_records aware p self e self' :
  Forall (record_ok (time e)) (records self) → invocation_step aware p self e = Ret self' →
  Forall (record_ok (time e)) (records self') ∧ grows (time e) (records self) (records self').
Proof.
  intros Hok. destruct e as [child service now|i early now]; cbn [invocation_step time] in *.
  - destruct (begin_child aware p self child service now) as [[s ct]|] eqn:Hb; [|done].
    cbn. intros [= <-]. apply begin_child_records in Hb. rewrite Hb. split.
    + apply Forall_app. split; [done|]. apply Forall_singleton. split_and!; cbn; [lia|done|done].
    + split; [intros j c Hj; exists c; split; [by apply lookup_app_l_Some|apply later_refl]|].
      intros j c' Hj Hc'. rewrite lookup_app, Hj in Hc'.
      destruct (j - length (records self)) as [|k]; [|done]. by injection Hc' as <-.
  - intros [= <-]. unfold records. cbn. set (g := if early then mark_terminal else mark_ended now).
    assert (Hg : ∀ c, record_ok now c → record_ok now (g c) ∧ later now c (g c)).
    { intros c (Hs & He & Ht). unfold g. destruct early; unfold record_ok, later; cbn.
      - split_and!; try done. by left.
      - split_and!; try done; [by intros e [= <-]|]. right. exists now. split; [done|lia]. }
    rewrite Forall_lookup in Hok. split; [|split].
    + rewrite Forall_lookup. intros j c Hj.
      rewrite list_lookup_alter in Hj. destruct (decide (i = j)) as [<-|]; [|by eapply Hok].
      apply fmap_Some in Hj as (c0 & Hj & ->). by apply Hg, (Hok i).
    + intros j c Hj. destruct (decide (i = j)) as [->|Hne].
      * exists (g c). split; [by rewrite list_lookup_alter_eq, Hj|]. apply Hg. by eapply Hok.
      * exists c. split; [by rewrite list_lookup_alter_ne|apply later_refl].
    + intros j c' Hj Hc'. rewrite list_lookup_alter in Hc'. destruct (decide (i = j)) as [->|]; by rewrite Hj in Hc'.
Qed.

Lemma run_records aware p self es self' now :
  Forall (record_ok now) (records self) → StronglySorted Z.le (now :: (time <$> es)) →
  run aware p self es = Ret self' →
  grows now (records self) (records self') ∧
  ∃ t, t ∈ now :: (time <$> es) ∧ Forall (record_ok t) (records self').
Proof.
  revert self now. induction es as [|e es IH]; intros self now Hok Hs H.
  - injection H as <-. split; [apply grows_refl|]. exists now. split; [left|done].
  - cbn [run] in H. destruct (invocation_step aware p self e) as [self1|] eqn:H1; [|done].
    cbn [mbind outcome_bind fmap list_fmap] in *. apply StronglySorted_inv in Hs as [Hs [Hle _]%Forall_cons].
    assert (Hok' : Forall (record_ok (time e)) (records self))
      by (eapply Forall_impl; [exact Hok|]; intros c; by eapply record_ok_mono).
    destruct (step_records _ _ _ _ _ Hok' H1) as [Hok1 Hg1].
    destruct (IH self1 (time e) Hok1 Hs H) as [Hg (t & Ht & Hend)]. split; [eapply grows_mono; [exact Hle|]; by eapply grows_trans|].
    exists t. split; [by right|done].
Qed.

(** ** The groups of some children *)

(** The groups of some children. *)
Definition groups_of (cs : list ChildRecord) : list (list ChildRecord) :=
  match completed cs with [] => [] | c :: cs => runs [c] cs end.

(** The prefixes after some groups. *)
Definition advance (p : PathPrefix * PathPrefix) (gs : list (list ChildRecord)) : PathPrefix * PathPrefix :=
  foldl (λ p g, (append_signature p.1 (sort_signature (child_id <$> g)),
    append_signature p.2 (sort_signature (child_service_id <$> g)))) p gs.

(** The children of [l1] have returned before those of [l2] start. *)
Definition separated (l1 l2 : list ChildRecord) : Prop :=
  ∀ a b e, a ∈ l1 → b ∈ l2 → end_ a = Some e → (e < start b)%Z.

Definition timed (c : ChildRecord) : Prop := ∀ e, end_ c = Some e → (start c ≤ e)%Z.

Lemma completed_ended cs : Forall (λ c, is_Some (end_ c)) (completed cs).
Proof.
  apply Forall_forall. intros c Hc. unfold completed in Hc. rewrite sort_by_start_perm in Hc.
  by apply list_elem_of_filter in Hc as [? _].
Qed.

Lemma recover_path_groups_of cs parent_end :
  recover_path_groups cs parent_end = Ret (observe parent_end prefix_root prefix_root (groups_of cs)).
Proof.
  unfold recover_path_groups, groups_of. assert (Hall := completed_ended cs).
  destruct (completed cs) as [|c cs']; [done|]. apply Forall_cons in Hall as [Hc Hall].
  rewrite end_expect by done. cbn [mbind outcome_bind].
  destruct (path_loop_spec parent_end (MkPathState [] prefix_root prefix_root) [c] cs') as (s & Hs & Ho); [done..|].
  cbn [fmap list_fmap max_end foldl] in Hs. rewrite Hs. cbn [mbind outcome_bind]. by rewrite Ho.
Qed.

Lemma append_groups_observe parent_end q p sp gs :
  append_groups q (observe parent_end p sp gs) = advance q gs.
Proof.
  unfold append_groups, advance. revert q p sp.
  induction gs as [|g gs IH]; intros q p sp; [done|]. cbn [observe foldl signature service_signature]. by rewrite IH.
Qed.

Lemma observe_app parent_end p gs1 gs2 :
  observe parent_end p.1 p.2 (gs1 ++ gs2) =
    observe parent_end p.1 p.2 gs1 ++ observe parent_end (advance p gs1).1 (advance p gs1).2 gs2.
Proof.
  revert p. induction gs1 as [|g gs1 IH]; intros p; [done|]. cbn [observe app advance foldl]. f_equal.
  apply (IH (_, _)).
Qed.

Lemma insert_by_start_app c l k :
  Forall (by_start c) k → insert_by_start c (l ++ k) = insert_by_start c l ++ k.
Proof.
  intros Hk. induction l as [|c' l IH]; cbn.
  - destruct k as [|c' k]; [done|]. apply Forall_cons in Hk as [Hc _]. cbn.
    by rewrite (proj2 (Z.leb_le _ _) Hc).
  - destruct (start c <=? start c')%Z; [done|]. by rewrite IH.
Qed.

Lemma completed_app l1 l2 :
  Forall timed l1 → separated l1 l2 → completed (l1 ++ l2) = completed l1 ++ completed l2.
Proof.
  intros Ht Hs. unfold completed, sort_by_start. rewrite filter_app, foldr_app.
  change (foldr insert_by_start [] (filter (λ c, is_Some (end_ c)) l2)) with (completed l2).
  induction l1 as [|a l1 IH]; [done|]. apply Forall_cons in Ht as [Ha Ht].
  rewrite filter_cons. destruct (decide (is_Some (end_ a))) as [[e He]|].
  - cbn [foldr]. rewrite IH; [|done|intros x y ? ? ?; apply Hs; [by right|done]]. apply insert_by_start_app.
    apply Forall_forall. intros b Hb. unfold completed in Hb. rewrite sort_by_start_perm in Hb.
    apply list_elem_of_filter in Hb as [_ Hb]. specialize (Hs a b e (list_elem_of_here _ _) Hb He).
    specialize (Ha e He). unfold by_start. lia.
  - apply IH; [done|]. intros x y ? ? ?. apply Hs; [by right|done].
Qed.

Lemma runs_app current cs1 c cs2 :
  current ≠ [] → Forall (λ a, (end_of a < start c)%Z) (current ++ cs1) →
  runs current (cs1 ++ c :: cs2) = runs current cs1 ++ runs [c] cs2.
Proof.
  revert current. induction cs1 as [|b cs1 IH]; intros current Hne Hall; cbn [app runs].
  - rewrite decide_False; [done|]. rewrite app_nil_r, Forall_forall in Hall.
    destruct (max_end_spec current Hne) as [(a & Ha & <-) _]. specialize (Hall a Ha). lia.
  - destruct (decide _).
    + apply IH; [by destruct current|]. by rewrite <-app_assoc.
    + cbn. f_equal. apply IH; [done|]. by apply Forall_app in Hall as [_ ?].
Qed.

Lemma groups_of_app l1 l2 :
  Forall timed l1 → separated l1 l2 → groups_of (l1 ++ l2) = groups_of l1 ++ groups_of l2.
Proof.
  intros Ht Hs. unfold groups_of. rewrite completed_app by done.
  destruct (completed l1) as [|c cs] eqn:H1; [done|]. cbn [app].
  destruct (completed l2) as [|c2 cs2] eqn:H2; [by rewrite !app_nil_r|].
  apply runs_app; [done|]. apply Forall_forall. intros a Ha.
  assert (Ha1 : a ∈ completed l1) by (by rewrite H1). assert (Hc2 : c2 ∈ completed l2) by (rewrite H2; left).
  unfold completed in Ha1, Hc2. rewrite sort_by_start_perm in Ha1, Hc2.
  apply list_elem_of_filter in Ha1 as [[e He] Ha1], Hc2 as [_ Hc2].
  unfold end_of. rewrite He. by apply (Hs a c2 e).
Qed.

(** An invocation never panics. *)
Lemma refresh_total self now : ∃ self', refresh_path_prefix_before_open_group self now = Ret self'.
Proof.
  unfold refresh_path_prefix_before_open_group. destruct (decide _); [by eexists|].
  destruct (decide _); [by eexists|].
  match goal with |- context [recover_path_groups ?cs now] => rewrite (recover_path_groups_of cs now) end.
  by eexists.
Qed.

Lemma begin_child_total aware p self child service now :
  ∃ r, begin_child aware p self child service now = Ret r.
Proof.
  unfold begin_child. destruct (fanout_enabled_for_parent _ _ _ _); [|by eexists].
  destruct (decide _); [by eexists|].
  destruct (refresh_total (fanout self) now) as [f ->]. by eexists.
Qed.

Lemma run_total aware p self es : ∃ self', run aware p self es = Ret self'.
Proof.
  revert self. induction es as [|[child service now|i early now] es IH]; intros self; cbn; [by eexists| |apply IH].
  destruct (begin_child_total aware p self child service now) as [r ->]. apply IH.
Qed.

(** ** What is open when a child is issued *)

Lemma sort_signature_perm l : sort_signature l ≡ₚ l.
Proof. apply merge_sort_Permutation. Qed.

Lemma begin_child_signature aware p self child service now self' ct :
  fanout_enabled_for_parent aware p (root_or_self self) (resolved_method_id self) = true →
  begin_child aware p self child service now = Ret (self', ct) →
  base_signature ct = sort_signature (child_id <$> filter (λ c, terminal c = false) (records self')) ∧
  base_service_signature ct = sort_signature (child_service_id <$> filter (λ c, terminal c = false) (records self')).
Proof.
  intros Hen H. assert (Hr := begin_child_records _ _ _ _ _ _ _ _ H). rewrite Hr.
  rewrite filter_app, !fmap_app. cbn [filter list_filter]. rewrite decide_True by done. cbn.
  revert H. unfold begin_child. rewrite Hen. unfold records, open_children.
  destruct (decide _); [by intros [= _ <-]|].
  destruct (refresh_path_prefix_before_open_group (fanout self) now) as [f|] eqn:Hf; [|done].
  cbn [mbind outcome_bind]. intros [= _ <-]. apply refresh_children in Hf. cbn. unfold open_children. by rewrite Hf.
Qed.

(** The open records, later. *)
Lemma grows_open now cs cs' :
  grows now cs cs' →
  (∀ i c c', cs !! i = Some c → terminal c = false → cs' !! i = Some c' → is_Some (end_ c')) →
  ∃ l, l `sublist_of` cs' ∧
    Forall2 (λ c c', later now c c' ∧ is_Some (end_ c')) (filter (λ c, terminal c = false) cs) l.
Proof.
  revert cs'. induction cs as [|c cs IH]; intros cs' Hg Hend.
  - exists []. split; [apply sublist_nil_l|constructor].
  - destruct cs' as [|c' cs']. { by destruct Hg as [Hg _]; destruct (Hg 0 c eq_refl) as (? & ? & _). }
    destruct (IH cs') as (l & Hl & Hall).
    + destruct Hg as [Hg Hnew]. split; [intros i; apply (Hg (S i))|intros i; apply (Hnew (S i))].
    + intros i a a' Ha. apply (Hend (S i) a a' Ha).
    + rewrite filter_cons. destruct (decide (terminal c = false)) as [Hc|Hc].
      * exists (c' :: l). split; [by constructor|]. constructor; [|done].
        destruct Hg as [Hg _]. destruct (Hg 0 c eq_refl) as (c'' & [= <-] & Hc'). split; [done|]. by apply (Hend 0 c c').
      * exists l. split; [by constructor|done].
Qed.

Lemma fmap_Forall2 {A B} (f : A → B) l k : Forall2 (λ a b, f a = f b) l k → f <$> l = f <$> k.
Proof. induction 1; cbn; congruence. Qed.

(** At most one group has children that are running at an instant. *)
Definition running (now : Instant) (c : ChildRecord) : Prop := (start c ≤ now ≤ end_of c)%Z.

#[global] Instance running_dec now c : Decision (running now c).
Proof. unfold running. apply _. Defined.

Lemma running_one_group now gs :
  StronglySorted before gs → filter (running now) (mjoin gs) = [] ∨
  ∃ g, g ∈ gs ∧ filter (running now) (mjoin gs) = filter (running now) g.
Proof.
  induction 1 as [|g gs _ IH Hb]; [by left|].
  change (mjoin (g :: gs)) with (g ++ mjoin gs). rewrite filter_app.
  destruct (filter (running now) g) as [|a l] eqn:Hg.
  - destruct IH as [->|(g' & Hg' & ->)]; [by left|right]. exists g'. split; [by right|done].
  - right. exists g. split; [by left|]. rewrite Hg.
    rewrite (list_filter_none (running now) (mjoin gs)); [by rewrite app_nil_r|].
    intros b (g' & Hb' & Hg')%list_elem_of_join [Hs He].
    assert (Ha : a ∈ filter (running now) g) by (rewrite Hg; left).
    apply list_elem_of_filter in Ha as [[Hsa Hea] Ha]. rewrite Forall_forall in Hb.
    specialize (Hb g' Hg' a b Ha Hb'). lia.
Qed.


Lemma groups_of_join cs : mjoin (groups_of cs) ≡ₚ filter (λ c, is_Some (end_ c)) cs.
Proof.
  unfold groups_of. rewrite <-(sort_by_start_perm (filter _ cs)). fold (completed cs).
  destruct (completed cs) as [|c cs']; [done|]. by rewrite runs_join.
Qed.

Lemma groups_of_before cs : Forall timed cs → StronglySorted before (groups_of cs).
Proof.
  intros Ht. apply completed_well_timed in Ht. unfold groups_of.
  assert (Hs : StronglySorted by_start (completed cs)) by apply sort_by_start_sorted.
  destruct (completed cs) as [|c cs']; [constructor|]. apply StronglySorted_inv in Hs as [Hs Hall].
  by apply runs_before.
Qed.

Lemma groups_of_nonempty cs g : g ∈ groups_of cs → g ≠ [].
Proof.
  unfold groups_of. destruct (completed cs) as [|c cs']; [by intros ?%not_elem_of_nil|]. by apply runs_nonempty.
Qed.

(** Children that run at an instant are in one group. *)
Lemma running_together now l cs :
  Forall (λ c, running now c ∧ is_Some (end_ c)) l → l ≠ [] → l `sublist_of` cs → Forall timed cs →
  ∃ g, g ∈ groups_of cs ∧ l ⊆+ g.
Proof.
  intros Hrun Hne Hl Ht.
  assert (Hsub : l ⊆+ filter (running now) (mjoin (groups_of cs))).
  { rewrite groups_of_join. apply sublist_submseteq, list_filter_sublist;
      [apply list_filter_sublist; [done|]|]; eapply Forall_impl; try exact Hrun; naive_solver. }
  destruct (running_one_group now (groups_of cs)) as [Hnone|(g & Hg & Hone)]; [by apply groups_of_before|..].
  { rewrite Hnone in Hsub. by apply submseteq_nil_r in Hsub. }
  exists g. split; [done|]. rewrite Hsub, Hone. apply sublist_submseteq, sublist_filter.
Qed.

(** The children open at an instant, when all is done. *)
Lemma open_later aware p self evs self' now :
  Forall (record_ok now) (records self) → StronglySorted Z.le (now :: (time <$> evs)) →
  run aware p self evs = Ret self' →
  (∀ i c c', records self !! i = Some c → terminal c = false → records self' !! i = Some c' → is_Some (end_ c')) →
  grows now (records self) (records self') ∧ Forall timed (records self') ∧
  ∃ l, l `sublist_of` records self' ∧ Forall (λ c, running now c ∧ is_Some (end_ c)) l ∧
    child_id <$> filter (λ c, terminal c = false) (records self) = child_id <$> l ∧
    child_service_id <$> filter (λ c, terminal c = false) (records self) = child_service_id <$> l.
Proof.
  intros Hok Hs Hrun Hend. destruct (run_records _ _ _ _ _ _ Hok Hs Hrun) as [Hg (t & _ & Hok')].
  split; [done|]. split; [eapply Forall_impl; [exact Hok'|by intros c (_ & ? & _)]|].
  destruct (grows_open now _ _ Hg Hend) as (l & Hl & Hlater). exists l. split_and!; [done| | |].
  - apply Forall_forall. intros c' [i Hi]%list_elem_of_lookup_1.
    destruct (Forall2_lookup_r _ _ _ _ _ Hlater Hi) as (c & Hc & (_ & _ & Hst & He) & Hsome).
    apply list_elem_of_lookup_2, list_elem_of_filter in Hc as [Ho Hc].
    rewrite Forall_forall in Hok. destruct (Hok c Hc) as (Hc1 & _ & Hc3). split; [|done].
    unfold running, end_of. rewrite Hst. destruct He as [He|(e & -> & ?)]; [|cbn; lia].
    rewrite He, Hc3 in Hsome by done. by destruct Hsome.
  - apply fmap_Forall2. eapply Forall2_impl; [exact Hlater|]. by intros ?? [(-> & _) _].
  - apply fmap_Forall2. eapply Forall2_impl; [exact Hlater|]. by intros ?? [(_ & -> & _) _].
Qed.

Lemma begin_child_ok aware p self child service now self' ct :
  Forall (record_ok now) (records self) → begin_child aware p self child service now = Ret (self', ct) →
  Forall (record_ok now) (records self').
Proof.
  intros Hok ->%begin_child_records. apply Forall_app. split; [done|].
  apply Forall_singleton. split_and!; cbn; [lia|done|done].
Qed.

Lemma begin_child_open aware p self child service now self' ct l :
  begin_child aware p self child service now = Ret (self', ct) →
  child_id <$> filter (λ c, terminal c = false) (records self') = child_id <$> l → l ≠ [].
Proof.
  intros ->%begin_child_records. rewrite filter_app, fmap_app. cbn [filter list_filter].
  rewrite decide_True by done. cbn. intros H ->. by destruct (child_id <$> _).
Qed.

(** What an invocation has recorded by the time of its next event. *)
Lemma started_ok aware p resolved root at_ evs self now later_times :
  StronglySorted Z.le ((time <$> evs) ++ now :: later_times) →
  run aware p (tracker_new resolved root at_) evs = Ret self → Forall (record_ok now) (records self).
Proof.
  intros Hs Hrun. apply StronglySorted_app in Hs as (Hle & Hs & _).
  destruct evs as [|e evs]; [by injection Hrun as <-|].
  destruct (run_records aware p (tracker_new resolved root at_) (e :: evs) self (time e)) as [_ (t & Ht & Hok)].
  - constructor.
  - cbn [fmap list_fmap] in *. constructor; [done|]. apply StronglySorted_inv in Hs as [_ Hs]. by constructor.
  - done.
  - eapply Forall_impl; [exact Hok|]. intros c. apply record_ok_mono. apply Hle; [|left].
    apply elem_of_cons in Ht as [->|Ht]; [left|done].
Qed.

(** C14: What [begin_child] predicts of a group. Where the fan-out estimation
    applies, the signature it computes for a new child (the children still
    open and the new one) is contained, with multiplicities, in the signature
    of one of the groups that [flush] recovers from the invocation, whatever is
    issued and returned in between, provided that the children open then have
    an end at last; and the same holds of the service signatures. *)
Theorem base_signature_lower_bound aware p resolved root at_ evs1 self1 child service now self2 ct evs self3
    parent_end :
  StronglySorted Z.le ((time <$> evs1) ++ now :: (time <$> evs)) →
  run aware p (tracker_new resolved root at_) evs1 = Ret self1 →
  fanout_enabled_for_parent aware p (root_or_self self1) (resolved_method_id self1) = true →
  begin_child aware p self1 child service now = Ret (self2, ct) →
  run aware p self2 evs = Ret self3 →
  (∀ i c c', records self2 !! i = Some c → terminal c = false → records self3 !! i = Some c' → is_Some (end_ c')) →
  ∃ os o, recover_path_groups (records self3) parent_end = Ret os ∧ o ∈ os ∧
    base_signature ct ⊆+ signature o ∧ base_service_signature ct ⊆+ service_signature o.
Proof.
  intros Hs Hrun1 Hen Hbegin Hrun Hend. assert (Hok := started_ok _ _ _ _ _ _ _ _ _ Hs Hrun1).
  apply StronglySorted_app in Hs as (_ & _ & Hs).
  destruct (begin_child_signature _ _ _ _ _ _ _ _ Hen Hbegin) as [-> ->].
  destruct (open_later _ _ _ _ _ _ (begin_child_ok _ _ _ _ _ _ _ _ Hok Hbegin) Hs Hrun Hend)
    as (_ & Ht & l & Hl & Hrunning & Hids & Hsids).
  destruct (running_together now l (records self3)) as (g & Hg & Hlg); [done|by eapply begin_child_open|done..|].
  destruct (observe_group parent_end prefix_root prefix_root _ g Hg) as (o & Ho & Hsig & Hssig).
  exists (observe parent_end prefix_root prefix_root (groups_of (records self3))), o.
  split_and!; [apply recover_path_groups_of|done|rewrite Hsig, Hids|rewrite Hssig, Hsids];
    rewrite !sort_signature_perm; by apply fmap_submseteq.
Qed.

(** ** The prefix a child is issued under *)

(** What a fork-join handler does: when it issues a child, those that have
    returned did so before any child that is out was issued, and before now;
    a child returns once. *)
Definition orderly (self : EstimationTracker) (e : event) : Prop :=
  match e with
  | Issue _ _ now =>
      ∃ past current, records self = past ++ current ∧ Forall (λ c, terminal c = true) past ∧
        Forall (λ c, end_ c = None) current ∧ separated past current ∧
        ∀ a e, a ∈ past → end_ a = Some e → (e < now)%Z
  | Return i _ _ => ∀ c, records self !! i = Some c → terminal c = false
  end.

Inductive orderly_run (aware : bool) (p : PredParams) : EstimationTracker → list event → EstimationTracker → Prop :=
| orderly_done self : orderly_run aware p self [] self
| orderly_step self e self1 es self2 :
    orderly self e → invocation_step aware p self e = Ret self1 → orderly_run aware p self1 es self2 →
    orderly_run aware p self (e :: es) self2.

Lemma orderly_runs aware p self es self' : orderly_run aware p self es self' → run aware p self es = Ret self'.
Proof. induction 1 as [|self e self1 es self2 _ He _ IH]; [done|]. cbn. by rewrite He. Qed.

(** The records of [past] are settled: what comes next leaves them alone. *)
Definition settled (past : list ChildRecord) (self : EstimationTracker) : Prop :=
  Forall (λ c, terminal c = true) past ∧ ∃ rest, records self = past ++ rest ∧ separated past rest.

Lemma settled_step aware p past self e self' :
  orderly self e → invocation_step aware p self e = Ret self' → settled past self → settled past self'.
Proof.
  intros Ho Hstep (Hpast & rest & Hr & Hsep). split; [done|]. destruct e as [child service now|i early now].
  - cbn in Hstep. destruct (begin_child aware p self child service now) as [[s ct]|] eqn:Hb; [|done].
    injection Hstep as <-. apply begin_child_records in Hb. cbn [fst]. rewrite Hb, Hr, <-app_assoc.
    exists (rest ++ [MkChild child service now None false]). split; [done|].
    destruct Ho as (past' & current & Hr' & _ & Hnone & _ & Hnow).
    intros a b e Ha [Hb'| ->%list_elem_of_singleton]%elem_of_app He; [by apply (Hsep a b e)|]. cbn.
    assert (Ha' : a ∈ past' ++ current) by (rewrite <-Hr', Hr; apply elem_of_app; by left).
    apply elem_of_app in Ha' as [Ha'|Ha']; [by eapply Hnow|]. rewrite Forall_forall in Hnone.
    by rewrite (Hnone a Ha') in He.
  - injection Hstep as <-. cbn in Ho. unfold records in *. cbn in *. rewrite Hr in *.
    assert (Hi : length past ≤ i).
    { destruct (decide (length past ≤ i)) as [|Hlt]; [done|].
      destruct (lookup_lt_is_Some_2 past i) as [c Hc]; [lia|].
      specialize (Ho c (lookup_app_l_Some _ _ _ _ Hc)). rewrite Forall_lookup in Hpast.
      by rewrite (Hpast i c Hc) in Ho. }
    replace i with (length past + (i - length past)) by lia. rewrite alter_app_r.
    eexists. split; [done|]. intros a b e Ha [j Hb]%list_elem_of_lookup_1 He.
    rewrite list_lookup_alter in Hb. destruct (decide _) as [<-|];
      [|by apply (Hsep a b e Ha (list_elem_of_lookup_2 _ _ _ Hb))].
    apply fmap_Some in Hb as (b' & Hb & ->). specialize (Hsep a b' e Ha (list_elem_of_lookup_2 _ _ _ Hb) He).
    by destruct early.
Qed.

(** The children incorporated in the prefixes are settled, and the prefixes are
    those of their groups. *)
Definition incorporated (past : list ChildRecord) (self : EstimationTracker) : Prop :=
  settled past self ∧ incorporated_child_count (fanout self) = length past ∧
  (inv_path_prefix (fanout self), inv_service_path_prefix (fanout self)) =
    advance (prefix_root, prefix_root) (groups_of past).

Lemma past_prefix past current done x rest :
  past ++ current = done ++ x :: rest → Forall (λ c, terminal c = true) past → terminal x = false →
  ∃ l, done = past ++ l ∧ current = l ++ x :: rest.
Proof.
  intros Heq Hpast Hx. apply app_eq_inv in Heq as [(k & -> & Hk)|(k & Hk & ->)].
  - destruct k as [|y k]; [by exists []; rewrite !app_nil_r|]. injection Hk as <- _.
    apply Forall_app in Hpast as [_ [Hx' _]%Forall_cons]. by rewrite Hx in Hx'.
  - by exists k.
Qed.

(** The refresh folds in the terminal children before the first open one. *)
Lemma refresh_spec self now past rest1 x rest2 :
  children self = past ++ rest1 ++ x :: rest2 → incorporated_child_count self = length past →
  Forall (λ c, terminal c = true) rest1 → terminal x = false →
  refresh_path_prefix_before_open_group self now =
    let p := advance (inv_path_prefix self, inv_service_path_prefix self) (groups_of rest1) in
    Ret (MkInvocation (children self) p.1 p.2 (length (past ++ rest1))).
Proof.
  intros Hr Hcount Hterm Hx. destruct self as [cs ip isp k]. cbn in *. subst cs k.
  unfold refresh_path_prefix_before_open_group. cbn [children incorporated_child_count inv_path_prefix inv_service_path_prefix].
  rewrite decide_False by (rewrite !length_app; cbn; lia). rewrite drop_app_length.
  assert (list_find (λ c, terminal c = false) (rest1 ++ x :: rest2) = Some (length rest1, x)) as ->.
  { apply list_find_Some. split_and!; [by rewrite list_lookup_middle|done|]. intros j y Hj Hlt.
    rewrite lookup_app_l in Hj by done. rewrite Forall_lookup in Hterm. by rewrite (Hterm j y Hj). }
  destruct (decide (length rest1 = 0)) as [H0|_].
  - apply length_zero_iff_nil in H0 as ->. by rewrite app_nil_r.
  - rewrite take_app_length, recover_path_groups_of. cbn [mbind outcome_bind].
    by rewrite append_groups_observe, length_app.
Qed.

Lemma open_split cs :
  filter (λ c, terminal c = false) cs ≠ [] →
  ∃ l x rest, cs = l ++ x :: rest ∧ Forall (λ c, terminal c = true) l ∧ terminal x = false.
Proof.
  induction cs as [|c cs IH]; [done|]. rewrite filter_cons. destruct (terminal c) eqn:Hc.
  - rewrite decide_False by done. intros (l & x & rest & -> & Hl & Hx)%IH.
    exists (c :: l), x, rest. split_and!; [done|by constructor|done].
  - intros _. exists [], c, cs. split_and!; [done|constructor|done].
Qed.

(** The refresh incorporates all that has returned. *)
Lemma refresh_incorporates past self child service now :
  Forall timed (records self) → orderly self (Issue child service now) → incorporated past self →
  open_children (fanout self) ≠ [] →
  ∃ f past' rest, refresh_path_prefix_before_open_group (fanout self) now = Ret f ∧
    incorporated past' (set_invocation f self) ∧ records self = past' ++ rest ∧
    Forall (λ c, end_ c = None) rest ∧ ∀ a e, a ∈ past' → end_ a = Some e → (e < now)%Z.
Proof.
  intros Ht (done & current & Hr' & Hdone & Hnone & Hsepd & Hnow) ((Hpast & rest & Hr & Hsep) & Hcount & Hpre) Hopen.
  unfold open_children in Hopen. unfold records in *. rewrite Hr, filter_app, (list_filter_none _ past) in Hopen.
  2: { intros c Hc. rewrite Forall_forall in Hpast. by rewrite (Hpast c Hc). }
  destruct (open_split rest Hopen) as (rest1 & x & rest2 & -> & Hterm & Hx).
  rewrite Hr, app_assoc in Hr'. destruct (past_prefix _ _ _ _ _ (eq_sym Hr') Hdone Hx) as (l & Hl & ->).
  apply Forall_app in Hnone as [Hl' Hnone].
  assert (Hends : ∀ a e, a ∈ past ++ rest1 → end_ a = Some e → a ∈ done).
  { rewrite Hl. intros a e [Ha|Ha]%elem_of_app He; [done|].
    rewrite Forall_forall in Hl'. by rewrite (Hl' a Ha) in He. }
  rewrite (refresh_spec _ now _ _ _ _ Hr Hcount Hterm Hx), Hpre.
  eexists _, (past ++ rest1), (x :: rest2). split; [done|]. rewrite Hr, app_assoc.
  split_and!; [|done..|by intros a e Ha He; eapply Hnow; [eapply Hends|]].
  split; [split; [by apply Forall_app|]|split; [done|]].
  - exists (x :: rest2). unfold records. cbn [set_invocation fanout children]. split; [done|].
    intros a b e Ha Hb He. apply (Hsepd a b e); [by eapply Hends|apply elem_of_app; by right|done].
  - cbn [set_invocation fanout inv_path_prefix inv_service_path_prefix]. rewrite <-surjective_pairing, groups_of_app.
    + unfold advance. by rewrite foldl_app.
    + rewrite Hr in Ht. by apply Forall_app in Ht as [? _].
    + intros a b e Ha Hb He. apply (Hsep a b e); [done|apply elem_of_app; by left|done].
Qed.

Lemma orderly_now past rest self child service now a e :
  orderly self (Issue child service now) → records self = past ++ rest → a ∈ past → end_ a = Some e → (e < now)%Z.
Proof.
  intros (done & current & Hr' & _ & Hnone & _ & Hnow) Hr Ha He.
  assert (Ha' : a ∈ done ++ current) by (rewrite <-Hr', Hr; apply elem_of_app; by left).
  apply elem_of_app in Ha' as [Ha'|Ha']; [by eapply Hnow|].
  rewrite Forall_forall in Hnone. by rewrite (Hnone a Ha') in He.
Qed.

(** What [begin_child] does to the incorporated children; and the prefix it
    gives to a child issued beside open ones. *)
Lemma begin_child_incorporates aware p past self child service now :
  Forall timed (records self) → orderly self (Issue child service now) → incorporated past self →
  ∃ self' ct past', begin_child aware p self child service now = Ret (self', ct) ∧ incorporated past' self' ∧
    (length (base_signature ct) ≤ 1 ∨
     ∃ rest, records self' = past' ++ rest ∧ Forall (λ c, end_ c = None) rest ∧
       (∀ a e, a ∈ past' → end_ a = Some e → (e < now)%Z) ∧
       (ct_path_prefix ct, ct_service_path_prefix ct) = advance (prefix_root, prefix_root) (groups_of past')).
Proof.
  intros Ht Ho Hinc. set (r := MkChild child service now None false).
  assert (Hadd : ∀ past f, incorporated past (set_invocation f self) →
      (∀ a e, a ∈ past → end_ a = Some e → (e < now)%Z) →
      incorporated past (set_invocation (MkInvocation (children f ++ [r]) (inv_path_prefix f)
        (inv_service_path_prefix f) (incorporated_child_count f)) self)).
  { intros past' f ((Hp & rest & Hr & Hs) & Hc & Hpre) Hnow. split; [split; [done|]|done].
    unfold records in *. cbn in *. rewrite Hr, <-app_assoc. exists (rest ++ [r]). split; [done|].
    intros a b e Ha [Hb| ->%list_elem_of_singleton]%elem_of_app He; [by apply (Hs a b e)|by apply (Hnow a e)]. }
  assert (Hself : set_invocation (fanout self) self = self) by by destruct self.
  assert (Hkeep : incorporated past (set_invocation (MkInvocation (children (fanout self) ++ [r])
      (inv_path_prefix (fanout self)) (inv_service_path_prefix (fanout self))
      (incorporated_child_count (fanout self))) self)).
  { apply Hadd; [by rewrite Hself|]. destruct Hinc as ((_ & rest & Hr & _) & _). intros a e. by eapply orderly_now. }
  unfold begin_child. destruct (fanout_enabled_for_parent _ _ _ _).
  2: { eexists _, _, past. split; [done|]. split; [done|]. left. cbn. lia. }
  destruct (decide (open_children (fanout self) = [])) as [Hnil|Hopen].
  - eexists _, _, past. split; [done|]. split; [done|]. left. cbn [base_signature].
    by rewrite sort_signature_perm, Hnil.
  - destruct (refresh_incorporates past self child service now Ht Ho Hinc Hopen)
      as (f & past' & rest & Hf & Hinc' & Hr & Hrest & Hnow).
    rewrite Hf. apply refresh_children in Hf.
    eexists _, _, past'. split; [done|]. split; [by apply Hadd|]. right. exists (rest ++ [r]).
    destruct Hinc' as (_ & _ & Hpre). unfold records in *. cbn in *.
    split_and!; [by rewrite Hf, Hr, <-app_assoc| |done..].
    apply Forall_app. split; [done|]. by apply Forall_singleton.
Qed.

Lemma step_incorporates aware p past self e self' :
  Forall timed (records self) → orderly self e → invocation_step aware p self e = Ret self' →
  incorporated past self → ∃ past', incorporated past' self'.
Proof.
  intros Ht Ho Hstep Hinc. destruct e as [child service now|i early now].
  - destruct (begin_child_incorporates aware p past self child service now) as (s & ct & past' & Hb & Hinc' & _);
      [done..|]. exists past'. cbn in Hstep. rewrite Hb in Hstep. by injection Hstep as <-.
  - exists past. destruct Hinc as (Hset & Hc & Hpre).
    split; [by eapply settled_step|]. by injection Hstep as <-.
Qed.

Lemma run_incorporates aware p self es self' now :
  Forall (record_ok now) (records self) → StronglySorted Z.le (now :: (time <$> es)) →
  orderly_run aware p self es self' → (∃ past, incorporated past self) → ∃ past, incorporated past self'.
Proof.
  intros Hok Hs Hrun. revert now Hok Hs. induction Hrun as [|self e self1 es self2 Ho He _ IH]; [done|].
  intros now Hok Hs [past Hinc]. cbn [fmap list_fmap] in Hs. apply StronglySorted_inv in Hs as [Hs [Hle _]%Forall_cons].
  assert (Hok' : Forall (record_ok (time e)) (records self))
    by (eapply Forall_impl; [exact Hok|]; intros c; by eapply record_ok_mono).
  destruct (step_records _ _ _ _ _ Hok' He) as [Hok1 _]. apply (IH (time e)); [done..|].
  eapply step_incorporates; [|done..]. eapply Forall_impl; [exact Hok|]. by intros c (_ & ? & _).
Qed.

Lemma run_settled aware p past self es self' :
  orderly_run aware p self es self' → settled past self → settled past self'.
Proof. induction 1; eauto using settled_step. Qed.

Lemma tracker_new_incorporates resolved root at_ : incorporated [] (tracker_new resolved root at_).
Proof.
  split; [|done]. split; [constructor|]. exists []. split; [done|]. by intros a b e ?%not_elem_of_nil.
Qed.

(** The children that ran at an instant are in the first group of those that
    were not over by then. *)
Lemma first_group now l past rest :
  Forall timed (past ++ rest) → l `sublist_of` past ++ rest → l ≠ [] →
  Forall (λ c, running now c ∧ is_Some (end_ c)) l →
  (∀ a e, a ∈ past → end_ a = Some e → (e < now)%Z) → (∀ b e, b ∈ rest → end_ b = Some e → (now ≤ e)%Z) →
  ∃ g gs, groups_of rest = g :: gs ∧ l ⊆+ g.
Proof.
  intros Ht Hl Hne Hrun Hpast Hrest. rewrite Forall_forall in Hrun.
  apply sublist_app_r in Hl as (l1 & l2 & -> & Hl1 & Hl2).
  assert (l1 = []) as ->.
  { destruct l1 as [|x l1]; [done|]. destruct (Hrun x (list_elem_of_here _ _)) as [[_ Hx] [e He]].
    assert (Hin : x ∈ past) by (eapply elem_of_submseteq; [|by apply sublist_submseteq]; left).
    unfold end_of in Hx. rewrite He in Hx. cbn in Hx. specialize (Hpast x e Hin He). lia. }
  cbn [app] in *. apply Forall_app in Ht as [_ Ht].
  destruct (running_together now l2 rest) as (g & Hg & Hlg); [by apply Forall_forall|done..|].
  assert (Hb := groups_of_before rest Ht). assert (Hj := groups_of_join rest).
  assert (Hnil := groups_of_nonempty rest).
  destruct (groups_of rest) as [|g0 gs]; [by apply not_elem_of_nil in Hg|]. exists g0, gs. split; [done|].
  apply elem_of_cons in Hg as [->|Hg]; [done|]. exfalso.
  apply StronglySorted_inv in Hb as [_ Hb]. rewrite Forall_forall in Hb.
  destruct g0 as [|a g0]; [by apply (Hnil [] (list_elem_of_here _ _))|]. destruct l2 as [|b l2]; [done|].
  assert (Hbg : b ∈ g) by (eapply elem_of_submseteq; [left|done]).
  specialize (Hb g Hg a b (list_elem_of_here _ _) Hbg).
  destruct (Hrun b (list_elem_of_here _ _)) as [[Hb1 _] _].
  assert (Ha : a ∈ filter (λ c, is_Some (end_ c)) rest) by (rewrite <-Hj; left).
  apply list_elem_of_filter in Ha as [[e He] Ha]. specialize (Hrest a e Ha He).
  unfold end_of in Hb. rewrite He in Hb. cbn in Hb. lia.
Qed.

Lemma sorted_start (l : list Z) now rest : StronglySorted Z.le (l ++ now :: rest) → ∃ t, StronglySorted Z.le (t :: l).
Proof.
  intros (_ & Hs & _)%StronglySorted_app. destruct l as [|t l]; [exists 0%Z; repeat constructor|].
  exists t. assert (Hs' := Hs). apply StronglySorted_inv in Hs' as [_ Ht]. constructor; [done|]. by constructor.
Qed.

(** What was not over at an instant ends after it. *)
Lemma ends_later now past rest cs' rest' :
  grows now (past ++ rest) cs' → cs' = past ++ rest' → Forall timed cs' → Forall (λ c, end_ c = None) rest →
  ∀ b e, b ∈ rest' → end_ b = Some e → (now ≤ e)%Z.
Proof.
  intros [Hg Hnew] -> Ht Hnone b e [i Hi]%list_elem_of_lookup_1 He.
  assert (Hi' : (past ++ rest') !! (length past + i) = Some b)
    by (rewrite lookup_app_r by lia; by replace (length past + i - length past) with i by lia).
  destruct (rest !! i) as [c|] eqn:Hc.
  - destruct (Hg (length past + i) c) as (c' & Hc' & _ & _ & _ & Hlater).
    { rewrite lookup_app_r by lia. by replace (length past + i - length past) with i by lia. }
    simplify_eq. rewrite Forall_lookup in Hnone. rewrite (Hnone i c Hc), He in Hlater.
    by destruct Hlater as [|(? & [= ->] & ?)].
  - assert (Hst := Hnew (length past + i) b). rewrite Forall_lookup in Ht. specialize (Ht _ _ Hi' e He).
    rewrite Hi' in Hst. specialize (Hst ltac:(rewrite lookup_app_r by lia;
      by replace (length past + i - length past) with i by lia) eq_refl). lia.
Qed.

(** C16: A fan-out estimate is looked up where it is learned. In an invocation
    whose children fork and join (a child is issued only when those that have
    returned did so before any child that is out was issued), a child issued
    beside open ones gets the path prefixes under which [flush] records, at the
    end, the group the child is in, and a signature contained in that group's;
    these are the key and the query of [lookup_estimate]. *)
Theorem lookup_prefix_is_recorded aware p resolved root at_ evs1 self1 child service now self2 ct evs2 self3
    parent_end :
  StronglySorted Z.le ((time <$> evs1) ++ now :: (time <$> evs2)) →
  orderly_run aware p (tracker_new resolved root at_) evs1 self1 →
  orderly self1 (Issue child service now) →
  begin_child aware p self1 child service now = Ret (self2, ct) →
  orderly_run aware p self2 evs2 self3 →
  1 < length (base_signature ct) →
  (∀ i c c', records self2 !! i = Some c → terminal c = false → records self3 !! i = Some c' → is_Some (end_ c')) →
  ∃ os o, recover_path_groups (records self3) parent_end = Ret os ∧ o ∈ os ∧
    path_prefix o = ct_path_prefix ct ∧ service_path_prefix o = ct_service_path_prefix ct ∧
    base_signature ct ⊆+ signature o ∧ base_service_signature ct ⊆+ service_signature o.
Proof.
  intros Hs Hrun1 Ho Hbegin Hrun2 Hlen Hend.
  assert (Hok := started_ok _ _ _ _ _ _ _ _ _ Hs (orderly_runs _ _ _ _ _ Hrun1)).
  assert (Ht1 : Forall timed (records self1)) by (eapply Forall_impl; [exact Hok|by intros c (_ & ? & _)]).
  destruct (sorted_start _ _ _ Hs) as [t0 Hs1]. apply StronglySorted_app in Hs as (_ & _ & Hs).
  assert (Hok0 : Forall (record_ok t0) (records (tracker_new resolved root at_))) by constructor.
  destruct (run_incorporates _ _ _ _ _ t0 Hok0 Hs1 Hrun1) as [past0 Hinc0].
  { exists []. apply tracker_new_incorporates. }
  destruct (begin_child_incorporates aware p past0 self1 child service now Ht1 Ho Hinc0)
    as (s & ct' & past & Hb & [Hset _] & Hcase).
  rewrite Hbegin in Hb. injection Hb as <- <-.
  destruct Hcase as [Hle|(rest & Hr & Hnone & Hpast & Hpre)]; [lia|].
  destruct (open_later _ _ _ _ _ _ (begin_child_ok _ _ _ _ _ _ _ _ Hok Hbegin) Hs (orderly_runs _ _ _ _ _ Hrun2) Hend)
    as (Hg & Ht & l & Hl & Hrunning & Hids & Hsids).
  destruct (run_settled _ _ _ _ _ _ Hrun2 Hset) as (_ & rest3 & Hr3 & Hsep3).
  rewrite Hr in Hg. assert (Hlater := ends_later _ _ _ _ _ Hg Hr3 Ht Hnone). rewrite Hr3 in Hl, Ht |- *.
  destruct (first_group now l past rest3) as (g & gs & Hgs & Hlg); [done|done|by eapply begin_child_open|done..|].
  rewrite recover_path_groups_of, groups_of_app, Hgs; [|by apply Forall_app in Ht as [? _]|done].
  eexists _, _. split; [done|]. rewrite (observe_app parent_end (prefix_root, prefix_root)), <-Hpre.
  split; [apply elem_of_app; right; left|]. cbn [path_prefix service_path_prefix signature service_signature fst snd].
  split; [done|]. split; [done|].
  destruct (begin_child_signature aware p self1 child service now self2 ct) as [-> ->]; [|done|].
  { revert Hlen Hbegin. unfold begin_child. destruct (fanout_enabled_for_parent _ _ _ _); [done|].
    cbn [mbind outcome_bind]. intros Hlen [= _ <-]. cbn in Hlen. lia. }
  rewrite Hids, Hsids, !sort_signature_perm. split; by apply fmap_submseteq.
Qed.

(** ** Runs checked by computation *)

Definition ends_before (t : Instant) (c : ChildRecord) : bool :=
  match end_ c with Some e => (e <? t)%Z | None => true end.

Definition orderlyb (self : EstimationTracker) (e : event) : bool :=
  match e with
  | Issue _ _ now =>
      existsb (λ k,
        let past := take k (records self) in
        let current := drop k (records self) in
        forallb terminal past && forallb (λ c, bool_decide (end_ c = None)) current &&
        forallb (λ a, forallb (λ b, ends_before (start b) a) current) past && forallb (ends_before now) past)
        (seq 0 (S (length (records self))))
  | Return i _ _ => match records self !! i with Some c => negb (terminal c) | None => true end
  end.

Fixpoint orderly_runb (aware : bool) (p : PredParams) (self : EstimationTracker) (es : list event)
    : outcome EstimationTracker :=
  match es with
  | [] => Ret self
  | e :: es =>
      if orderlyb self e then self ← invocation_step aware p self e; orderly_runb aware p self es else Panic
  end.

Lemma forallb_elem {A} (f : A → bool) l a : forallb f l = true → a ∈ l → f a = true.
Proof. rewrite forallb_forall. intros H Ha. by apply H, list_elem_of_In. Qed.

Lemma ends_before_spec t a e : ends_before t a = true → end_ a = Some e → (e < t)%Z.
Proof. unfold ends_before. intros H He. rewrite He in H. by apply Z.ltb_lt. Qed.

Lemma orderlyb_sound self e : orderlyb self e = true → orderly self e.
Proof.
  destruct e as [child service now|i early now]; cbn [orderlyb orderly].
  - intros (k & _ & H)%existsb_exists. apply andb_true_iff in H as [[[H1 H2]%andb_true_iff H3]%andb_true_iff H4].
    exists (take k (records self)), (drop k (records self)). rewrite take_drop. split_and!; [done|..].
    + apply Forall_forall. intros c Hc. by apply (forallb_elem _ _ c H1).
    + apply Forall_forall. intros c Hc. assert (Hc' := forallb_elem _ _ c H2 Hc). by apply bool_decide_eq_true in Hc'.
    + intros a b e Ha Hb. eapply ends_before_spec. by apply (forallb_elem _ _ b (forallb_elem _ _ a H3 Ha)).
    + intros a e Ha. eapply ends_before_spec. by apply (forallb_elem _ _ a H4).
  - intros H c Hc. rewrite Hc in H. by destruct (terminal c).
Qed.

Lemma orderly_runb_sound aware p self es self' :
  orderly_runb aware p self es = Ret self' → orderly_run aware p self es self'.
Proof.
  revert self. induction es as [|e es IH]; intros self; cbn.
  - intros [= ->]. constructor.
  - destruct (orderlyb self e) eqn:Ho; [|done]. destruct (invocation_step aware p self e) as [self1|] eqn:He; [|done].
    cbn. intros H. econstructor; [by apply orderlyb_sound|exact He|by apply IH].
Qed.

(** Two children fork and join, then two more: what the fourth is told. *)
Definition demo_root : EstimationTracker := tracker_new 1 None 0.
Definition demo_before : list event :=
  [Issue 3 13 100; Issue 4 14 110; Return 1 false 120; Return 0 false 130; Issue 5 15 140]%Z.
Definition demo_after : list event := [Return 2 false 160; Return 3 false 170]%Z.

Definition ret_or {A} (a : A) (r : outcome A) : A := match r with Ret a => a | _ => a end.

Definition demo_at : EstimationTracker :=
  ret_or demo_root (run true pred_params_default demo_root demo_before).
Definition demo_issue : outcome (EstimationTracker * ChildRPCTracker) :=
  begin_child true pred_params_default demo_at 6 16 150.
Definition demo_final : outcome EstimationTracker :=
  r ← demo_issue; run true pred_params_default r.1 demo_after.

Lemma demo_ends self2 ct self3 i c c' :
  demo_issue = Ret (self2, ct) → demo_final = Ret self3 →
  records self2 !! i = Some c → terminal c = false → records self3 !! i = Some c' → is_Some (end_ c').
Proof.
  unfold demo_final. intros H2. rewrite H2. revert H2. vm_compute. intros [= <- _] [= <-].
  destruct i as [|[|[|[|i]]]]; cbn; intros [= <-] ? [= <-]; by eexists.
Qed.

Lemma base_signature_lower_bound_witness :
  ∃ self2 ct self3 os o, demo_issue = Ret (self2, ct) ∧ demo_final = Ret self3 ∧
    base_signature ct = [5; 6]%Z ∧
    recover_path_groups (records self3) 200 = Ret os ∧ o ∈ os ∧ base_signature ct ⊆+ signature o.
Proof.
  destruct demo_issue as [[self2 ct]|] eqn:H2; [|by vm_compute in H2].
  destruct demo_final as [self3|] eqn:H3; [|by vm_compute in H3].
  assert (Hend := λ i c c', demo_ends self2 ct self3 i c c' H2 H3).
  assert (Hbase : base_signature ct = [5; 6]%Z).
  { revert H2. clear. vm_compute. by intros [= _ <-]. }
  destruct (base_signature_lower_bound true pred_params_default 1 None 0 demo_before demo_at 6 16 150
    self2 ct demo_after self3 200) as (os & o & Hos & Ho & Hsub & _); [| | | |
    |done|exists self2, ct, self3, os, o; done].
  - cbn. repeat constructor; lia.
  - vm_compute. reflexivity.
  - vm_compute. reflexivity.
  - exact H2.
  - unfold demo_final in H3. rewrite H2 in H3. exact H3.
Defined.

Lemma lookup_prefix_is_recorded_witness :
  ∃ self2 ct self3 os o, demo_issue = Ret (self2, ct) ∧ demo_final = Ret self3 ∧
    recover_path_groups (records self3) 200 = Ret os ∧ o ∈ os ∧ path_prefix o = ct_path_prefix ct ∧
    ct_path_prefix ct = append_signature prefix_root [3; 4]%Z.
Proof.
  destruct demo_issue as [[self2 ct]|] eqn:H2; [|by vm_compute in H2].
  destruct demo_final as [self3|] eqn:H3; [|by vm_compute in H3].
  assert (Hend := λ i c c', demo_ends self2 ct self3 i c c' H2 H3).
  assert (Hct : base_signature ct = [5; 6]%Z ∧ ct_path_prefix ct = append_signature prefix_root [3; 4]%Z).
  { revert H2. clear. vm_compute. by intros [= _ <-]. }
  destruct (lookup_prefix_is_recorded true pred_params_default 1 None 0 demo_before demo_at 6 16 150
    self2 ct demo_after self3 200) as (os & o & Hos & Ho & Hp & _); [| | | | | | |].
  - cbn. repeat constructor; lia.
  - apply orderly_runb_sound. vm_compute. reflexivity.
  - apply orderlyb_sound. vm_compute. reflexivity.
  - exact H2.
  - apply orderly_runb_sound. revert H2 H3. clear. vm_compute. intros [= <- _] [= <-]. reflexivity.
  - destruct Hct as [-> _]. cbn. lia.
  - exact Hend.
  - destruct Hct as [_ Hct]. by exists self2, ct, self3, os, o.
Defined.

(** Without the discipline the prefix may be of no group: when one of two
    overlapping children has returned and a third is issued beside the other,
    the refresh takes the first for a group of its own. *)
Definition straggler : list event := [Issue 3 13 100; Issue 4 14 110; Return 0 false 120]%Z.

Lemma straggler_prefix_unrecorded :
  ∃ self1 self2 ct self3 os,
    run true pred_params_default demo_root straggler = Ret self1 ∧
    begin_child true pred_params_default self1 5 15 130 = Ret (self2, ct) ∧
    run true pred_params_default self2 [Return 1 false 140; Return 2 false 150]%Z = Ret self3 ∧
    recover_path_groups (records self3) 200 = Ret os ∧ signature <$> os = [[3; 4; 5]]%Z ∧
    ∀ o, o ∈ os → path_prefix o ≠ ct_path_prefix ct.
Proof.
  eexists _, _, _, _, _.
  split; [vm_compute; reflexivity|]. split; [vm_compute; reflexivity|].
  split; [vm_compute; reflexivity|]. split; [vm_compute; reflexivity|].
  split; [vm_compute; reflexivity|]. intros o ->%list_elem_of_singleton. vm_compute. discriminate.
Qed.

(** And without an end for the children that were open the signature need not
    be a lower bound: a child that returns early is in no group. *)
Lemma early_return_breaks_lower_bound :
  ∃ self1 self2 ct self3 os,
    run true pred_params_default demo_root [Issue 3 13 100]%Z = Ret self1 ∧
    begin_child true pred_params_default self1 4 14 110 = Ret (self2, ct) ∧
    base_signature ct = [3; 4]%Z ∧
    run true pred_params_default self2 [Return 0 true 120; Return 1 false 130]%Z = Ret self3 ∧
    recover_path_groups (records self3) 200 = Ret os ∧ signature <$> os = [[4]]%Z.
Proof.
  eexists _, _, _, _, _.
  split; [vm_compute; reflexivity|]. split; [vm_compute; reflexivity|].
  split; [vm_compute; reflexivity|]. split; [vm_compute; reflexivity|].
  split; vm_compute; reflexivity.
Qed.
