(* ===== verification/Tally.v ===== *)
(** What the estimation module sends between hops and keeps of one request:
    libs/masa-policy/src/module/est/wire.rs and state/metadata.rs. A tally
    sums what a request and the children that reported to it have spent; it is
    shared through the extensions and changed in place by every poll and every
    child response. *)
From S2P Require Export Hooks Fanout Float64.

(** ** Wire data *)

Record RootMethod := MkRootMethod { root_service : bytes; root_method : bytes }.

(** A [f32] carries no arithmetic here, only comparisons, which are those of
    the wider type. *)
Notation f32 := f64.

Record EstimationRequestWire := MkRequestWire {
  req_hop_count : Z;
  req_root_method : option RootMethod;
}.

Record EstimationResponseWire := MkResponseWire {
  compute_time_us : Z;
  accumulated_compute_us : Z;
  utilization : f32;
  max_downstream_util : f32;
  early_return_count : Z;
  deadline_signal_count : Z;
}.

Record EstimationWire := MkEstimationWire {
  request : option EstimationRequestWire;
  response : option EstimationResponseWire;
}.

Definition estimation_request (hop_count : Z) (root_method : option RootMethod) : EstimationWire :=
  MkEstimationWire (Some (MkRequestWire hop_count root_method)) None.

Definition estimation_response (response : EstimationResponseWire) : EstimationWire :=
  MkEstimationWire None (Some response).

Record EstimationInfo := MkEstInfo {
  hop_count : Z;
  info_root_method : option RootMethod;
  root_method_id : option MethodId;
}.

Definition is_ingress (self : EstimationInfo) : bool := bool_decide (hop_count self = 0)%Z.

Record SubtreeHealth := MkHealth { early_return : bool; deadline_signal : bool }.

Definition any (self : SubtreeHealth) : bool := early_return self || deadline_signal self.

(** ** The tally of a request *)

Record ComputeTracker := MkCompute { poll_compute_us : Z; poll_start : option Instant }.

Definition compute_new : ComputeTracker := MkCompute 0 None.

Definition compute_start (now : Instant) (self : ComputeTracker) : ComputeTracker :=
  MkCompute (poll_compute_us self) (Some now).

Definition compute_stop (now : Instant) (self : ComputeTracker) : ComputeTracker :=
  match poll_start self with
  | Some start => MkCompute (wrap64 (poll_compute_us self + micros_since now start)) None
  | None => self
  end.

Record RequestMetadataTracker := MkTally {
  compute : ComputeTracker;
  max_child_downstream_util : f32;
  accumulated_child_compute_us : Z;
  accumulated_child_early_returns : Z;
  local_early_return : bool;
  child_deadline_signal : bool;
  local_deadline_signal : bool;
}.

Definition tally_new : RequestMetadataTracker :=
  MkTally compute_new f64_zero 0 0 false false false.

Definition with_compute (f : ComputeTracker → ComputeTracker) (self : RequestMetadataTracker) : RequestMetadataTracker :=
  MkTally (f (compute self)) (max_child_downstream_util self) (accumulated_child_compute_us self)
    (accumulated_child_early_returns self) (local_early_return self) (child_deadline_signal self)
    (local_deadline_signal self).

Definition start_poll (now : Instant) : RequestMetadataTracker → RequestMetadataTracker :=
  with_compute (compute_start now).
Definition end_poll (now : Instant) : RequestMetadataTracker → RequestMetadataTracker :=
  with_compute (compute_stop now).

Definition mark_early_return (self : RequestMetadataTracker) : RequestMetadataTracker :=
  MkTally (compute self) (max_child_downstream_util self) (accumulated_child_compute_us self)
    (accumulated_child_early_returns self) true (child_deadline_signal self) (local_deadline_signal self).

Definition mark_deadline_signal (self : RequestMetadataTracker) : RequestMetadataTracker :=
  MkTally (compute self) (max_child_downstream_util self) (accumulated_child_compute_us self)
    (accumulated_child_early_returns self) (local_early_return self) (child_deadline_signal self) true.

Definition is_subtree_signaled (self : RequestMetadataTracker) : bool :=
  local_deadline_signal self || child_deadline_signal self.

Definition subtree_health (self : RequestMetadataTracker) : SubtreeHealth :=
  MkHealth (bool_decide (0 < accumulated_child_early_returns self)%Z) (is_subtree_signaled self).

(** [f32::max] and [>]. *)
Definition f32_max : f32 → f32 → f32 := f64_max.
Definition f32_gt (x y : f32) : bool := f64_lt y x.

(** The report of a successful child. *)
Definition absorb_report (report : EstimationResponseWire) (self : RequestMetadataTracker) : RequestMetadataTracker :=
  MkTally (compute self)
    (if f32_gt (max_downstream_util report) (max_child_downstream_util self)
     then max_downstream_util report else max_child_downstream_util self)
    (wrap64 (accumulated_child_compute_us self + accumulated_compute_us report))
    (wrap32 (accumulated_child_early_returns self + early_return_count report))
    (local_early_return self)
    (if decide (0 < deadline_signal_count report)%Z then true else child_deadline_signal self)
    (local_deadline_signal self).

Definition count_child_early_return (self : RequestMetadataTracker) : RequestMetadataTracker :=
  MkTally (compute self) (max_child_downstream_util self) (accumulated_child_compute_us self)
    (wrap32 (accumulated_child_early_returns self + 1)) (local_early_return self)
    (child_deadline_signal self) (local_deadline_signal self).

(** [response_wire], in a build without overflow checks; the utilization is
    what the runtime reports. *)
Definition response_wire (util : f32) (self : RequestMetadataTracker) : EstimationResponseWire :=
  let compute_time_us := poll_compute_us (compute self) in
  MkResponseWire compute_time_us
    (wrap64 (compute_time_us + accumulated_child_compute_us self))
    util (f32_max util (max_child_downstream_util self))
    (wrap32 ((if local_early_return self then 1 else 0) + accumulated_child_early_returns self))
    (if is_subtree_signaled self then 1 else 0).

Section replies.
  (** A status has a code, which may be [DeadlineExceeded]. *)
  Context {Response Status : Type} (deadline_exceeded : Status → bool).

Definition is_early_return_response (r : result Response Status) : bool :=
  match r with Ok _ => false | Err status => deadline_exceeded status end.

Definition child_report (r : result Response Status) (wire : option EstimationResponseWire)
    : option EstimationResponseWire :=
  match r with Ok _ => wire | Err _ => None end.

Definition is_signaled_report (report : option EstimationResponseWire) : bool :=
  match report with Some report => bool_decide (0 < deadline_signal_count report)%Z | None => false end.

Definition absorb_child (r : result Response Status) (report : option EstimationResponseWire)
    (self : RequestMetadataTracker) : RequestMetadataTracker :=
  if is_early_return_response r then count_child_early_return self
  else match report with Some report => absorb_report report self | None => self end.
End replies.

(** ** A tree of calls *)

(** What changes the tally of a request: a poll of its handler, its local
    deadline found to be over, a child that has replied. *)
Inductive action (C : Type) := Polled (from until : Instant) | Late | Returned (child : C).
Arguments Polled {C} from until.
Arguments Late {C}.
Arguments Returned {C} child.

(** How a request ends: with a response, an early return, or another error. *)
Inductive ending := Responds | ReturnsEarly | Fails.

Inductive call := MkTree (actions : list (action call)) (how : ending) (util : f32).

Definition actions (c : call) : list (action call) := let '(MkTree l _ _) := c in l.
Definition how (c : call) : ending := let '(MkTree _ h _) := c in h.
Definition util (c : call) : f32 := let '(MkTree _ _ u) := c in u.

(** A reply: a status is its being [DeadlineExceeded]. *)
Definition reply_of (h : ending) : result unit bool :=
  match h with Responds => Ok tt | ReturnsEarly => Err true | Fails => Err false end.

Definition tally_action (report : call → EstimationResponseWire) (t : RequestMetadataTracker) (a : action call)
    : RequestMetadataTracker :=
  match a with
  | Polled from until => end_poll until (start_poll from t)
  | Late => mark_deadline_signal t
  | Returned c =>
      absorb_child (λ b, b) (reply_of (how c)) (child_report (reply_of (how c)) (Some (report c))) t
  end.

(** What a call reports. *)
Fixpoint report (c : call) : EstimationResponseWire :=
  let '(MkTree actions how util) := c in
  let t := foldl (tally_action report) tally_new actions in
  response_wire util (if is_early_return_response (λ b, b) (reply_of how) then mark_early_return t else t).

Lemma call_induction (P : call → Prop) :
  (∀ l h u, Forall (λ a, match a with Returned c => P c | _ => True end) l → P (MkTree l h u)) → ∀ c, P c.
Proof.
  intros HP. fix IH 1. intros [l h u]. apply HP. induction l as [|a l IHl]; constructor; [|done].
  destruct a; [done..|apply IH].
Qed.

(** The calls a report covers: the call and, below it, the calls that
    responded, which is where the reports travel. *)
Fixpoint covered (c : call) : list call :=
  let '(MkTree actions _ _) := c in
  c :: mjoin ((λ a, match a with
                    | Returned c => match how c with Responds => covered c | _ => [] end
                    | _ => []
                    end) <$> actions).

(** What one call adds: the microseconds of its polls, the early returns it
    sees (its own and those of its children), whether it was late. *)
Definition polled (l : list (action call)) : Z :=
  sum_Z ((λ a, match a with Polled from until => micros_since until from | _ => 0%Z end) <$> l).
Definition own_compute (c : call) : Z := polled (actions c).

Definition early_children (l : list (action call)) : Z :=
  sum_Z ((λ a, match a with Returned c => (if how c is ReturnsEarly then 1 else 0)%Z | _ => 0%Z end) <$> l).
Definition own_early (c : call) : Z :=
  ((if how c is ReturnsEarly then 1 else 0) + early_children (actions c))%Z.

Definition late_in (l : list (action call)) : bool := existsb (λ a, if a is Late then true else false) l.
Definition own_late (c : call) : bool := late_in (actions c).

(** The calls below some actions. *)
Definition covered_below (l : list (action call)) : list call :=
  mjoin ((λ a, match a with
               | Returned c => match how c with Responds => covered c | _ => [] end
               | _ => []
               end) <$> l).

Lemma covered_eq c : covered c = c :: covered_below (actions c).
Proof. by destruct c. Qed.

Lemma covered_below_snoc l a :
  covered_below (l ++ [a]) = covered_below l ++ match a with
    | Returned c => match how c with Responds => covered c | _ => [] end
    | _ => []
    end.
Proof. unfold covered_below. rewrite fmap_app, join_app. cbn. by rewrite app_nil_r. Qed.

(** The sums of the calls a report covers. *)
Definition reports_sums (c : call) : Prop :=
  accumulated_compute_us (report c) = wrap64 (sum_Z (own_compute <$> covered c)) ∧
  early_return_count (report c) = wrap32 (sum_Z (own_early <$> covered c)) ∧
  deadline_signal_count (report c) = (if existsb own_late (covered c) then 1 else 0)%Z.

Definition tally_sums (l : list (action call)) (t : RequestMetadataTracker) : Prop :=
  compute t = MkCompute (wrap64 (polled l)) None ∧
  accumulated_child_compute_us t = wrap64 (sum_Z (own_compute <$> covered_below l)) ∧
  accumulated_child_early_returns t =
    wrap32 (early_children l + sum_Z (own_early <$> covered_below l)) ∧
  local_early_return t = false ∧ local_deadline_signal t = late_in l ∧
  child_deadline_signal t = existsb own_late (covered_below l).

Lemma wrap32_add a b : wrap32 (wrap32 a + b) = wrap32 (a + b).
Proof. unfold wrap32. by rewrite Zplus_mod_idemp_l. Qed.
Lemma wrap32_add_r a b : wrap32 (a + wrap32 b) = wrap32 (a + b).
Proof. unfold wrap32. by rewrite Zplus_mod_idemp_r. Qed.

Lemma polled_snoc l a :
  polled (l ++ [a]) = (polled l + match a with Polled from until => micros_since until from | _ => 0 end)%Z.
Proof. unfold polled. rewrite fmap_app, sum_Z_app. cbn. lia. Qed.

Lemma early_children_snoc l a :
  early_children (l ++ [a]) =
    (early_children l + match a with Returned c => if how c is ReturnsEarly then 1 else 0 | _ => 0 end)%Z.
Proof. unfold early_children. rewrite fmap_app, sum_Z_app. cbn. lia. Qed.

Lemma late_in_snoc l a : late_in (l ++ [a]) = late_in l || (if a is Late then true else false).
Proof. unfold late_in. rewrite existsb_app. cbn. by destruct a; rewrite ?orb_false_r. Qed.

Lemma late_count (b : bool) : (0 < (if b then 1 else 0))%Z ↔ b = true.
Proof. by destruct b. Qed.

Lemma actions_sum l :
  Forall (λ a, match a with Returned c => reports_sums c | _ => True end) l →
  tally_sums l (foldl (tally_action report) tally_new l).
Proof.
  induction l as [|a l IH] using rev_ind; [done|]. intros [Hl [Ha _]%Forall_cons]%Forall_app.
  specialize (IH Hl). rewrite foldl_app. cbn [foldl].
  destruct (foldl (tally_action report) tally_new l) as [co mx acc er le cs ls].
  destruct IH as (Hco & Hacc & Her & Hle & Hls & Hcs). cbn in Hco, Hacc, Her, Hle, Hls, Hcs. subst.
  unfold tally_sums. rewrite polled_snoc, early_children_snoc, late_in_snoc, covered_below_snoc.
  rewrite !fmap_app, !sum_Z_app, !existsb_app.
  destruct a as [from until| |c]; cbn [tally_action fmap list_fmap sum_Z foldr existsb]; rewrite ?Z.add_0_r, ?orb_false_r.
  - split_and!; [|done..]. cbn. by rewrite wrap64_add.
  - split_and!; try done. cbn. by rewrite orb_true_r.
  - destruct (how c) eqn:Hc; cbn [reply_of child_report absorb_child is_early_return_response];
      rewrite ?Z.add_0_r, ?orb_false_r; [| |by split_and!].
    + destruct Ha as (Ha & He & Hs). split_and!; [done| | |done|done|].
      * cbn. by rewrite Ha, wrap64_add, wrap64_add_r.
      * cbn. by rewrite He, wrap32_add, wrap32_add_r, Z.add_assoc.
      * cbn. rewrite Hs. destruct (existsb own_late (covered c)); cbn; [by rewrite orb_true_r|by rewrite orb_false_r].
    + split_and!; try done. cbn. rewrite wrap32_add. f_equal. lia.
Qed.

Lemma report_eq c :
  report c = let t := foldl (tally_action report) tally_new (actions c) in
    response_wire (util c) (if how c is ReturnsEarly then mark_early_return t else t).
Proof. by destruct c as [l [] u]. Qed.

Lemma report_sums c : reports_sums c.
Proof.
  induction c as [l h u IH] using call_induction. apply actions_sum in IH.
  unfold reports_sums. rewrite report_eq, covered_eq. cbn [actions how util].
  destruct (foldl (tally_action report) tally_new l) as [co mx acc er le cs ls].
  destruct IH as (Hco & Hacc & Her & Hle & Hls & Hcs). cbn in Hco, Hacc, Her, Hle, Hls, Hcs. subst.
  cbn [fmap list_fmap sum_Z foldr existsb].
  change (own_compute (MkTree l h u)) with (polled l). change (own_late (MkTree l h u)) with (late_in l).
  change (own_early (MkTree l h u)) with ((if h is ReturnsEarly then 1 else 0) + early_children l)%Z.
  split_and!.
  - destruct h; cbn; by rewrite wrap64_add, wrap64_add_r.
  - destruct h; cbn; rewrite ?wrap32_add_r; f_equal; unfold sum_Z; lia.
  - destruct h; cbn; unfold is_subtree_signaled; cbn; by destruct (late_in l), (existsb own_late (covered_below l)).
Qed.

(** The highest utilization. *)
Definition is_max (x : f32) (xs : list f32) : Prop :=
  is_fin x ∧ (∀ y, y ∈ xs → (fv y ≤ fv x)%Z) ∧ ∃ y, y ∈ xs ∧ fv y = fv x.

Definition measured (x : f32) : Prop := is_fin x ∧ (0 ≤ fv x)%Z.

Lemma measured_zero : measured f64_zero.
Proof. split; [done|]. cbn. lia. Qed.

Lemma is_max_cons x y xs :
  measured x → measured y → is_max y (f64_zero :: xs) → is_max (f32_max x y) (x :: xs).
Proof.
  intros [Hx Hx0] [Hy Hy0] (_ & Hle & z & Hz & Hzy). destruct (max_value x y Hx Hy) as [Hf Hm].
  split; [done|]. unfold f32_max. rewrite Hm. split.
  - intros w [->|Hw]%elem_of_cons; [lia|]. specialize (Hle w (list_elem_of_further _ _ _ Hw)). lia.
  - destruct (decide (fv y ≤ fv x)%Z) as [Hyx|Hyx]; [exists x; split; [left|lia]|].
    apply elem_of_cons in Hz as [->|Hz]; [cbn in Hzy; lia|]. exists z. split; [by right|lia].
Qed.

Lemma is_max_app x y xs ys :
  is_max x xs → is_max y ys → is_max (if f32_gt y x then y else x) (xs ++ ys).
Proof.
  intros (Hx & Hxl & a & Ha & Hax) (Hy & Hyl & b & Hb & Hby). unfold f32_gt.
  destruct (f64_lt x y) eqn:Hlt.
  - apply lt_value in Hlt; [|done..]. split_and!; [done| |exists b; split; [set_solver|done]].
    intros z [Hz|Hz]%elem_of_app; [specialize (Hxl z Hz); lia|by apply Hyl].
  - assert (Hge : ¬ (fv x < fv y)%Z) by (rewrite <-lt_value by done; by rewrite Hlt).
    split_and!; [done| |exists a; split; [set_solver|done]].
    intros z [Hz|Hz]%elem_of_app; [by apply Hxl|specialize (Hyl z Hz); lia].
Qed.

Lemma absorbed_util t c :
  max_child_downstream_util (tally_action report t (Returned c)) =
    if how c is Responds then
      if f32_gt (max_downstream_util (report c)) (max_child_downstream_util t)
      then max_downstream_util (report c) else max_child_downstream_util t
    else max_child_downstream_util t.
Proof. cbn [tally_action]. by destruct (how c). Qed.

Lemma report_util c :
  Forall (λ v, measured (util v)) (covered c) →
  is_max (max_downstream_util (report c)) (util <$> covered c) ∧ measured (max_downstream_util (report c)).
Proof.
  induction c as [l h u IH] using call_induction. rewrite report_eq, covered_eq. cbn [actions how util].
  intros [Hu Hbelow]%Forall_cons. cbn in Hu.
  assert (Hl : let t := foldl (tally_action report) tally_new l in
    is_max (max_child_downstream_util t) (f64_zero :: (util <$> covered_below l)) ∧
    measured (max_child_downstream_util t)).
  { revert IH Hbelow. clear. induction l as [|a l IHl] using rev_ind.
    - intros _ _. split; [|apply measured_zero]. split_and!; [done| |exists f64_zero; split; [left|done]].
      by intros y ->%list_elem_of_singleton.
    - intros [Hl [Ha _]%Forall_cons]%Forall_app. rewrite covered_below_snoc. intros [Hb Hbc]%Forall_app.
      destruct (IHl Hl Hb) as [Hmax Hme]. rewrite foldl_app, fmap_app. cbn [foldl].
      destruct a as [from until| |c]; [by rewrite app_nil_r..|]. rewrite absorbed_util.
      destruct (how c); [|by rewrite app_nil_r..]. destruct (Ha Hbc) as [Hmc Hmec].
      rewrite app_comm_cons. split; [by apply is_max_app|]. by destruct (f32_gt _ _). }
  cbn [fmap list_fmap]. cbn zeta in Hl. set (t := foldl (tally_action report) tally_new l) in *. destruct Hl as [Hm Hme].
  replace (max_downstream_util (response_wire u (if h is ReturnsEarly then mark_early_return t else t)))
    with (f32_max u (max_child_downstream_util t)) by by destruct h.
  assert (Hr := is_max_cons u _ _ Hu Hme Hm). split; [done|]. split; [apply Hr|].
  destruct Hu as [Hu Hu0], Hme as [Hme _]. unfold f32_max. destruct (max_value _ _ Hu Hme) as [_ ->]. lia.
Qed.

(** C27: What comes back up a tree of calls. Whatever the order in which polls
    end and children reply, the report of a request sums, modulo the width of
    its fields, the compute time and the early returns of the calls it covers,
    which are the request and, below it, the calls reached by successful
    responses only: a child that returned early counts once and its own report
    is dropped, one that failed counts for nothing. It is signaled at most
    once, exactly when a covered call was late, and its utilization is the
    highest measured at a covered call. *)
Theorem report_covers_subtree c :
  accumulated_compute_us (report c) = wrap64 (sum_Z (own_compute <$> covered c)) ∧
  early_return_count (report c) = wrap32 (sum_Z (own_early <$> covered c)) ∧
  deadline_signal_count (report c) = (if existsb own_late (covered c) then 1 else 0)%Z ∧
  (Forall (λ v, measured (util v)) (covered c) →
    is_max (max_downstream_util (report c)) (util <$> covered c)).
Proof.
  destruct (report_sums c) as (? & ? & ?). split_and!; [done..|]. intros Hm. by apply report_util.
Qed.

Definition measuredb (x : f32) : bool :=
  match x with
  | S754_zero _ => true
  | S754_finite false m e => SpecFloat.bounded prec emax m e
  | _ => false
  end.

Lemma measured_check cs : forallb (λ v, measuredb (util v)) cs = true → Forall (λ v, measured (util v)) cs.
Proof.
  intros H. apply Forall_forall. intros v Hv. apply list_elem_of_In in Hv.
  rewrite forallb_forall in H. specialize (H v Hv). destruct (util v) as [s| | |[] m e]; try done.
  split; [done|]. assert (Hp := pw_pos e). apply (is_fin_exponent false m e) in H. cbn [fv]. lia.
Qed.

(** A call with a poll of 5 ms; a child that responded after 2 ms, late and at a
    higher utilization; one that returned early; one that failed. *)
Definition demo_tree : call :=
  let leaf h u := MkTree [Polled 0 2000000; Late] h u in
  MkTree [Polled 0 5000000; Returned (leaf Responds (f64_lit 3 4)); Returned (leaf ReturnsEarly f64_one);
          Returned (leaf Fails f64_one)] Responds (f64_lit 1 2).

Lemma report_covers_subtree_witness :
  accumulated_compute_us (report demo_tree) = 7000%Z ∧ early_return_count (report demo_tree) = 1%Z ∧
  deadline_signal_count (report demo_tree) = 1%Z ∧
  is_max (max_downstream_util (report demo_tree)) [f64_lit 1 2; f64_lit 3 4].
Proof.
  destruct (report_covers_subtree demo_tree) as (Hc & He & Hs & Hu).
  split; [rewrite Hc; vm_compute; reflexivity|]. split; [rewrite He; vm_compute; reflexivity|].
  split; [rewrite Hs; vm_compute; reflexivity|].
  change [f64_lit 1 2; f64_lit 3 4] with (util <$> covered demo_tree). apply Hu.
  apply measured_check. vm_compute. reflexivity.
Defined.
