(* ===== verification/Budget.v ===== *)
(** The budget module and the deadline guard of libs/masa-policy/src/module:
    budget.rs (the request's facts and time budget, how a child's is last_or)
    and e2e_deadline_guard.rs (early return at the end-to-end deadline). *)
From S2P Require Estimation Tally.
From S2P Require Export Hooks Context.

(** ** Types shared through extensions *)

(** The modules of the policy crates; the last is [()], a disabled slot. *)
Inductive MasaModule :=
| BudgetM | GuardM | EstimationM | OracleM | PredM | RajomonM | QueueLatencyM | EmptyM.

#[export] Instance masa_module_eq_dec : EqDecision MasaModule.
Proof. solve_decision. Defined.

Inductive MasaType :=
| BudgetInfoType
| ChildDeadlineType
| ChildPriorityType
| EstimationInfoType
| TallyType
| ChildTrackerType
| EstimatorsType
| ModuleType (m : MasaModule).

#[export] Instance masa_type_eq_dec : EqDecision MasaType.
Proof. solve_decision. Defined.

(** [BudgetInfo(Arc<Context>)], [ChildDeadline(Timestamp)], [ChildPriority(PriorityHint)],
    what the estimation module shares, the handle of the service's
    [LatencyEstimators]; no value of a module's own type is ever shared. *)
Definition masa_value (t : MasaType) : Type :=
  match t with
  | BudgetInfoType => Context
  | ChildDeadlineType => Z
  | ChildPriorityType => PriorityHint
  | EstimationInfoType => Tally.EstimationInfo
  | TallyType => Tally.RequestMetadataTracker
  | ChildTrackerType => Estimation.ChildRPCTracker
  | EstimatorsType => unit
  | ModuleType _ => Empty_set
  end.

Notation Ext := (Extensions masa_value).

(** [BudgetInfo::of]. *)
Definition info_of (e : Ext) : outcome Context := expect_some (get masa_value e (Plain BudgetInfoType)).

(** ** Root requests *)

(** The scheduling feature of the build; [time_now] is read under [sched_pred]. *)
Inductive SchedFeature := SchedTailclipper | SchedPred (time_now : Z) | SchedDeadline.

Definition root_priority (f : SchedFeature) (gateway_entry deadline : Z) : PriorityHint :=
  match f with
  | SchedTailclipper => Hint gateway_entry
  | SchedPred time_now => Hint (deadline -s time_now)
  | SchedDeadline => Hint deadline
  end.

Record ContextBuilder := MkBuilder {
  b_api : bytes;
  b_request_id : Z;
  b_slo : Z;
  b_gateway_entry : Z;
  b_deadline : Z;
  b_prio_hint : option PriorityHint;
}.

Definition builder_new (api : bytes) (request_id : Z) : ContextBuilder :=
  MkBuilder api request_id 0 0 0 None.

Definition builder_from (ctx : Context) : ContextBuilder :=
  MkBuilder (api ctx) (request_id ctx) (slo ctx) (gateway_entry ctx) (deadline ctx) (Some (prio_hint ctx)).

Definition with_slo (v : Z) (b : ContextBuilder) : ContextBuilder :=
  MkBuilder (b_api b) (b_request_id b) v (b_gateway_entry b) (b_deadline b) (b_prio_hint b).
Definition with_gateway_entry (v : Z) (b : ContextBuilder) : ContextBuilder :=
  MkBuilder (b_api b) (b_request_id b) (b_slo b) v (b_deadline b) (b_prio_hint b).
Definition with_deadline (v : Z) (b : ContextBuilder) : ContextBuilder :=
  MkBuilder (b_api b) (b_request_id b) (b_slo b) (b_gateway_entry b) v (b_prio_hint b).
Definition with_prio_hint (v : PriorityHint) (b : ContextBuilder) : ContextBuilder :=
  MkBuilder (b_api b) (b_request_id b) (b_slo b) (b_gateway_entry b) (b_deadline b) (Some v).

Definition build (f : SchedFeature) (b : ContextBuilder) : Context :=
  MkContext (b_api b) (b_request_id b) (b_slo b) (b_gateway_entry b) (b_deadline b)
    (default (root_priority f (b_gateway_entry b) (b_deadline b)) (b_prio_hint b)).

(** ** The budget module *)

Section budget.
  Context {E : Base64Engine} {B : Bincode ContextCompact}.

Record BudgetModule := MkBudget { info : Context; budget_encoded : EncodedSection }.

Definition budget_new (wire : WireIn) (e : Ext) : outcome (BudgetModule * Ext) :=
  r ← get_with_encoded (W:=Context) wire BUDGET_SECTION;
  r ← expect r;
  '(request, enc) ← expect_some r;
  let '(e, _) := Extensions.insert masa_value e (Plain BudgetInfoType) request in
  Ret (MkBudget request enc, e).

(** The value the last proposal has, or the parent's own. *)
Definition last_or {T} (own : T) (ps : list (Proposal T)) : T :=
  match last ps with Some p => proposal_value p | None => own end.

Definition seal_child_rpc (self : BudgetModule) (child : Ext) (child_wire : WireOut)
    : outcome (Ext * WireOut) :=
  let '(child, deadlines) := resolve masa_value child ChildDeadlineType in
  let deadline := last_or (deadline (info self)) deadlines in
  let '(child, prios) := resolve masa_value child ChildPriorityType in
  let prio_hint := last_or (prio_hint (info self)) prios in
  if decide (deadline = Context.deadline (info self) ∧ prio_hint = Context.prio_hint (info self)) then
    Ret (child, put_encoded child_wire BUDGET_SECTION (budget_encoded self))
  else
    let context := MkContext (api (info self)) (request_id (info self)) (slo (info self))
                     (gateway_entry (info self)) deadline prio_hint in
    r ← put child_wire BUDGET_SECTION context;
    child_wire ← expect r;
    Ret (child, child_wire).

Definition budget_finalize (self : BudgetModule) (wire : WireOut) : WireOut :=
  put_encoded wire BUDGET_SECTION (budget_encoded self).

(** A request passing through services: each reads its budget, other modules
    propose the child's, and the child is sent. *)
Fixpoint descend (wire : WireIn) (proposed : list Ext) : outcome (list Context) :=
  '(m, _) ← budget_new wire (Extensions.new masa_value);
  match proposed with
  | [] => Ret [info m]
  | child :: proposed =>
      '(_, out) ← seal_child_rpc m child wire_out_new;
      cs ← descend (MkWireIn (header out)) proposed;
      Ret (info m :: cs)
  end.
End budget.

(** ** The guard *)

Record SloAbortHandler := MkHandler {
  will_abort : bool;
  handler_rpc : CowGrpcMethod;
  budget : Context;
  last_child : option CowGrpcMethod;
}.

Definition handler_new (rpc : CowGrpcMethod) (budget : Context) : SloAbortHandler :=
  MkHandler false rpc budget None.

Definition set_last_child (child : CowGrpcMethod) (self : SloAbortHandler) : SloAbortHandler :=
  MkHandler (will_abort self) (handler_rpc self) (budget self) (Some child).

(** [check], at the time [now]; the weak compare-and-swap that sets the flag may
    fail for no reason, and its result is ignored. *)
Definition check (now : Z) (fails : bool) (self : SloAbortHandler) : SloAbortHandler * bool :=
  let e2e_deadline := e2e_deadline (budget self) in
  if decide (e2e_deadline = 0)%Z then (self, false)
  else if will_abort self then (self, true)
  else if decide (deadline (budget self) = 0)%Z then (self, false)
  else
    let should_early_return := bool_decide (e2e_deadline ≤ now)%Z in
    (MkHandler (should_early_return && negb fails) (handler_rpc self) (budget self) (last_child self),
     should_early_return).

Definition guard_path (m : CowGrpcMethod) : bytes :=
  cow_service m ++ bytes_of_string "::" ++ cow_method m.

Section guard.
  Context {Response Status : Type} (deadline_exceeded : bytes → Status).

Definition guard_error (self : SloAbortHandler) : Status :=
  let msg := bytes_of_string "/EarlyReturn?src=" ++ guard_path (handler_rpc self) in
  deadline_exceeded
    (match last_child self with
     | Some child => msg ++ bytes_of_string "?last_rpc=" ++ guard_path child
     | None => msg
     end).

Definition guard_new (method : CowGrpcMethod) (e : Ext) : outcome SloAbortHandler :=
  budget ← info_of e; Ret (handler_new method budget).

Definition guard_before_poll (now : Z) (fails : bool) (self : SloAbortHandler)
    : SloAbortHandler * result unit (result Response Status) :=
  let '(self, abort) := check now fails self in
  (self, if abort then Err (Err (guard_error self)) else Ok tt).

Definition guard_before_child_rpc (now : Z) (fails : bool) (self : SloAbortHandler)
    : SloAbortHandler * result unit Status :=
  let '(self, abort) := check now fails self in
  (self, if abort then Err (guard_error self) else Ok tt).

Definition guard_after_child_rpc (child_method : CowGrpcMethod) (o : @ChildOutcome Response Status)
    (self : SloAbortHandler) : SloAbortHandler :=
  match sent o with Some _ => set_last_child child_method self | None => self end.

Definition guard_after_poll (now : Z) (fails : bool) (poll : @Poll Response Status) (self : SloAbortHandler)
    : SloAbortHandler * result unit (result Response Status) :=
  match poll with
  | Pending =>
      let '(self, abort) := check now fails self in
      (self, if abort then Err (Err (guard_error self)) else Ok tt)
  | Ready _ => (self, Ok tt)
  end.
End guard.

(** ** What a child receives *)

Section budget_laws.
  Context {E : Base64Engine} {EL : Base64Laws E}.
  Context {B : Bincode ContextCompact} {CL : CompactLaws}.

Definition context_wf (ctx : Context) : Prop := compact_wf (compact_of_context ctx).

(** The header holds the budget [ctx], in a section that is [enc]. *)
Definition carries (wire : WireIn) (ctx : Context) (enc : EncodedSection) : Prop :=
  get_with_encoded (W:=Context) wire BUDGET_SECTION = Ret (Ok (Some (ctx, enc))).

Lemma budget_name_valid : valid_name BUDGET_SECTION.
Proof. decided. Qed.

Lemma carries_decode wire ctx enc :
  carries wire ctx enc →
  find_section (in_sections wire) BUDGET_SECTION = Some (encoded enc) ∧
  decode_payload (W:=Context) (encoded enc) = Ret (Ok ctx).
Proof.
  unfold carries, get_with_encoded. destruct (find_section _ _) as [payload|]; [|done].
  destruct (decode_payload payload) as [[c|]|] eqn:Hd; try done. intros [= -> <-]. done.
Qed.

Lemma carries_set out payload ctx :
  SECTION_SEPARATOR ∉ payload → decode_payload (W:=Context) payload = Ret (Ok ctx) →
  carries (MkWireIn (header (set out BUDGET_SECTION payload))) ctx (MkEncoded payload).
Proof.
  intros Hp Hd. unfold carries, get_with_encoded. cbn [in_sections].
  rewrite find_section_set, decide_True by (done || apply budget_name_valid).
  by rewrite Hd.
Qed.

Lemma carries_no_separator wire ctx enc : carries wire ctx enc → SECTION_SEPARATOR ∉ encoded enc.
Proof. intros [Hf _]%carries_decode. by eapply find_section_no_separator. Qed.

Lemma budget_new_eq wire ctx enc e :
  carries wire ctx enc →
  budget_new wire e = Ret (MkBudget ctx enc, (Extensions.insert masa_value e (Plain BudgetInfoType) ctx).1).
Proof.
  intros Hc. unfold budget_new. rewrite Hc. cbn [mbind outcome_bind expect expect_some].
  by destruct (Extensions.insert _ _ _ _).
Qed.

Lemma resolve_other e (t t' : MasaType) :
  ext_wf masa_value e → t ≠ t' →
  (resolve masa_value (resolve masa_value e t).1 t').2 = proposals masa_value e t' ∧
  (resolve masa_value e t).2 = proposals masa_value e t.
Proof.
  intros Hwf Hne.
  assert (∀ e, (resolve masa_value e t').2 = proposals masa_value e t') as Hr
    by (intros e'; unfold resolve, proposals; by destruct (get _ _ _)).
  split; [|unfold resolve, proposals; by destruct (get _ _ _)].
  rewrite Hr. unfold proposals.
  assert (get masa_value (resolve masa_value e t).1 (DecisionOf t') = get masa_value e (DecisionOf t')) as ->; [|done].
  unfold resolve. destruct (get masa_value e (DecisionOf t)) as [d|] eqn:Hg; cbn [fst].
  - destruct (update_spec masa_value e (DecisionOf t)
      (λ _ : val masa_value (DecisionOf t), MkDecision [] (Some (module masa_value e))) d Hwf Hg) as (_ & _ & _ & Ho).
    apply Ho. congruence.
  - destruct (insert_spec masa_value e (DecisionOf t) (MkDecision [] (Some (module masa_value e))) Hwf) as (_ & _ & _ & _ & Ho).
    apply Ho. congruence.
Qed.

(** The child's budget: the parent's facts, with the deadline and the priority
    proposed last. *)
Definition child_context (ctx : Context) (child : Ext) : Context :=
  MkContext (api ctx) (request_id ctx) (slo ctx) (gateway_entry ctx)
    (last_or (deadline ctx) (proposals masa_value child ChildDeadlineType))
    (last_or (prio_hint ctx) (proposals masa_value child ChildPriorityType)).

Lemma seal_child_rpc_eq ctx enc wire child out :
  carries wire ctx enc → ext_wf masa_value child → context_wf (child_context ctx child) →
  ∃ child' payload enc', seal_child_rpc (MkBudget ctx enc) child out = Ret (child', set out BUDGET_SECTION payload) ∧
    SECTION_SEPARATOR ∉ payload ∧
    carries (MkWireIn (header (set out BUDGET_SECTION payload))) (child_context ctx child) enc'.
Proof.
  intros Hc Hwf Hctx. unfold seal_child_rpc.
  destruct (resolve_other child ChildDeadlineType ChildPriorityType Hwf) as [Hp Hd]; [done|].
  destruct (resolve masa_value child ChildDeadlineType) as [c1 ds]. cbn [fst snd] in *.
  destruct (resolve masa_value c1 ChildPriorityType) as [c2 ps]. cbn [fst snd] in *.
  subst ds ps. cbn [info budget_encoded].
  case_decide as Hsame.
  - destruct Hsame as [Hsd Hsp]. eexists _, (encoded enc), enc. split; [done|].
    pose proof (carries_no_separator _ _ _ Hc) as Hsep. split; [done|].
    destruct (carries_decode _ _ _ Hc) as [_ Hdec]. unfold child_context. rewrite Hsd, Hsp.
    destruct ctx, enc. by apply carries_set.
  - destruct (compact_serialize _ Hctx) as [bs Hs]. change (serialize (child_context ctx child) = Ok bs) in Hs.
    assert (Forall is_byte bs) as Hb by (by eapply (serialize_bytes (W:=Context))).
    unfold child_context in Hs. rewrite (put_eq (W:=Context) _ _ _ _ Hs). cbn [mbind outcome_bind expect].
    eexists _, (rfc4648_encode bs), _. split; [done|]. split; [by apply (rfc_good bs Hb)|].
    apply carries_set; [by apply (rfc_good bs Hb)|].
    by apply (decode_payload_rfc (W:=Context)).
Qed.

(** A budget that was sealed can be read. *)
Lemma seal_child_rpc_inv ctx enc wire child out child' out' :
  carries wire ctx enc → ext_wf masa_value child →
  seal_child_rpc (MkBudget ctx enc) child out = Ret (child', out') →
  ∃ payload enc', out' = set out BUDGET_SECTION payload ∧ SECTION_SEPARATOR ∉ payload ∧
    carries (MkWireIn (header out')) (child_context ctx child) enc'.
Proof.
  intros Hc Hwf. unfold seal_child_rpc.
  destruct (resolve_other child ChildDeadlineType ChildPriorityType Hwf) as [Hp Hd]; [done|].
  destruct (resolve masa_value child ChildDeadlineType) as [c1 ds]. cbn [fst snd] in *.
  destruct (resolve masa_value c1 ChildPriorityType) as [c2 ps]. cbn [fst snd] in *.
  subst ds ps. cbn [info budget_encoded].
  case_decide as Hsame.
  - destruct Hsame as [Hsd Hsp]. intros [= <- <-]. exists (encoded enc), enc.
    pose proof (carries_no_separator _ _ _ Hc) as Hsep. split; [done|]. split; [done|].
    destruct (carries_decode _ _ _ Hc) as [_ Hdec]. unfold child_context. rewrite Hsd, Hsp.
    destruct ctx, enc. by apply carries_set.
  - fold (child_context ctx child). destruct (put out BUDGET_SECTION (child_context ctx child)) as [[o|]|] eqn:Hput;
      cbn [mbind outcome_bind expect]; try done.
    apply (put_ok (W:=Context)) in Hput as (bs & Hs & ->). intros [= <- <-].
    assert (Forall is_byte bs) as Hb by (by eapply (serialize_bytes (W:=Context))).
    eexists (rfc4648_encode bs), _. split; [done|]. split; [by apply (rfc_good bs Hb)|].
    apply carries_set; [by apply (rfc_good bs Hb)|].
    by apply (decode_payload_rfc (W:=Context)).
Qed.

(** C15: a child's budget is the parent's, except for the deadline and the
    priority the modules proposed last; sealing it never panics and disturbs no
    other section. Down a chain of calls of any depth every service reads the
    same API, request id, SLO and gateway entry, so the same end-to-end
    deadline. *)
Theorem budget_travels ctx enc wire proposed :
  carries wire ctx enc → Forall (ext_wf masa_value) proposed →
  (∀ k, context_wf (foldl child_context ctx (take k proposed))) →
  (∀ child out e, ext_wf masa_value child → context_wf (child_context ctx child) →
     ∃ m e' child' out', budget_new wire e = Ret (m, e') ∧ seal_child_rpc m child out = Ret (child', out') ∧
       ∀ W (BW : Bincode W) other, valid_name other → other ≠ BUDGET_SECTION →
         Codec.get (W:=W) (MkWireIn (header out')) other = Codec.get (MkWireIn (header out)) other) ∧
  descend wire proposed = Ret ((λ k, foldl child_context ctx (take k proposed)) <$> seq 0 (S (length proposed))) ∧
  ∀ k, let c := foldl child_context ctx (take k proposed) in
    api c = api ctx ∧ request_id c = request_id ctx ∧ e2e_deadline c = e2e_deadline ctx.
Proof.
  intros Hc Hwf Hctx. split_and!.
  - intros child out e Hw Hcw. rewrite (budget_new_eq wire ctx enc e Hc).
    destruct (seal_child_rpc_eq ctx enc wire child out Hc Hw Hcw) as (child' & payload & enc' & Hs & Hsep & _).
    do 4 eexists. split; [done|]. split; [exact Hs|]. intros W BW other Ho Hne.
    apply get_set_other; [apply budget_name_valid|done..].
  - clear -Hc Hwf Hctx EL CL. revert wire ctx enc Hc Hctx. induction Hwf as [|child proposed Hw _ IH]; intros wire ctx enc Hc Hctx.
    { cbn [descend]. by rewrite (budget_new_eq wire ctx enc _ Hc). }
    cbn [descend]. rewrite (budget_new_eq wire ctx enc _ Hc). cbn [mbind outcome_bind].
    destruct (seal_child_rpc_eq ctx enc wire child wire_out_new Hc Hw (Hctx 1)) as (child' & payload & enc' & -> & _ & Hc').
    cbn [mbind outcome_bind]. rewrite (IH _ _ _ Hc' (λ k, Hctx (S k))). cbn [mbind outcome_bind info].
    change (seq 0 (S (length (child :: proposed)))) with (0 :: seq 1 (S (length proposed))).
    cbn [fmap list_fmap take foldl]. do 2 f_equal.
    rewrite <-seq_shift, <-list_fmap_compose. done.
  - intros k. cbv zeta. revert ctx enc Hc Hctx Hwf. clear. intros ctx _ _ _ _.
    generalize (take k proposed). intros l. revert ctx.
    induction l as [|child l IH]; intros ctx; [done|]. cbn [foldl]. destruct (IH (child_context ctx child)) as (-> & -> & ->). done.
Qed.
End budget_laws.

#[local] Existing Instance reference_engine.
#[local] Existing Instance reference_laws.
#[local] Existing Instance reference_bincode.
#[local] Existing Instance reference_compact_laws.

(** The deadline 150 is tightened to 120 on the first hop; the end-to-end
    deadline stays 10 + 140. *)
Lemma budget_travels_witness :
  let ctx := MkContext (bytes_of_string "api") 7 140 10 150 (Hint 150) in
  let wire := match put wire_out_new BUDGET_SECTION ctx with
              | Ret (Ok out) => MkWireIn (header out) | _ => wire_in_default end in
  let child := (propose masa_value (λ _, []) (Extensions.new masa_value) ChildDeadlineType 120%Z).1 in
  descend wire [child; Extensions.new masa_value]
    = Ret [ctx; MkContext (bytes_of_string "api") 7 140 10 120 (Hint 150);
           MkContext (bytes_of_string "api") 7 140 10 120 (Hint 150)] ∧
  e2e_deadline (MkContext (bytes_of_string "api") 7 140 10 120 (Hint 150)) = 150%Z.
Proof.
  intros ctx wire child.
  destruct (get_with_encoded (W:=Context) wire BUDGET_SECTION) as [[[[c enc]|]|]|] eqn:Hw;
    [|by vm_compute in Hw..].
  assert (c = ctx) as -> by (vm_compute in Hw; by injection Hw).
  destruct (budget_travels ctx enc wire [child; Extensions.new masa_value]) as (_ & Hd & He).
  - exact Hw.
  - repeat constructor; decided.
  - intros [|[|[|k]]]; decided.
  - split; [rewrite Hd; by vm_compute|]. destruct (He 1) as (_ & _ & He1). exact He1.
Defined.

(** ** When the guard fires *)

(** The guard's hooks over a request, each with the time it reads and whether
    its swap fails. *)
Inductive guard_event :=
| BeforePoll (now : Z) (fails : bool)
| BeforeChild (now : Z) (fails : bool)
| AfterPending (now : Z) (fails : bool)
| AfterChild (child : CowGrpcMethod).

Section guard_laws.
  Context {Response Status : Type} (deadline_exceeded : bytes → Status) (resp : Response).

(** The guard after a hook, and whether the hook rejected. *)
Definition guard_step (self : SloAbortHandler) (ev : guard_event) : SloAbortHandler * bool :=
  match ev with
  | BeforePoll now fails =>
      let '(self, r) := guard_before_poll (Response:=Response) deadline_exceeded now fails self in
      (self, match r with Err _ => true | Ok _ => false end)
  | BeforeChild now fails =>
      let '(self, r) := guard_before_child_rpc deadline_exceeded now fails self in
      (self, match r with Err _ => true | Ok _ => false end)
  | AfterPending now fails =>
      let '(self, r) := guard_after_poll (Response:=Response) deadline_exceeded now fails Pending self in
      (self, match r with Err _ => true | Ok _ => false end)
  | AfterChild child =>
      (guard_after_child_rpc (Status:=Status) child (Sent (Ok resp)) self, false)
  end.

Fixpoint guard_run (self : SloAbortHandler) (evs : list guard_event) : list bool :=
  match evs with
  | [] => []
  | ev :: evs => let '(self, r) := guard_step self ev in r :: guard_run self evs
  end.

Definition event_time (ev : guard_event) : option (Z * bool) :=
  match ev with
  | BeforePoll now fails | BeforeChild now fails | AfterPending now fails => Some (now, fails)
  | AfterChild _ => None
  end.

Definition has_deadline (ctx : Context) : Prop := e2e_deadline ctx ≠ 0%Z ∧ deadline ctx ≠ 0%Z.

(** The hook reads a time at or after the end-to-end deadline. *)
Definition is_late (ctx : Context) (ev : guard_event) : Prop :=
  match event_time ev with Some (now, _) => (e2e_deadline ctx ≤ now)%Z | None => False end.

(** Some hook has, and its swap did not fail. *)
Definition marked (ctx : Context) (evs : list guard_event) : Prop :=
  Exists (λ ev, is_late ctx ev ∧ option_map snd (event_time ev) = Some false) evs.

#[export] Instance is_late_dec ctx ev : Decision (is_late ctx ev).
Proof. unfold is_late. destruct (event_time ev) as [[]|]; apply _. Defined.

#[export] Instance marked_dec ctx evs : Decision (marked ctx evs).
Proof. unfold marked. apply _. Defined.

#[export] Instance has_deadline_dec ctx : Decision (has_deadline ctx).
Proof. unfold has_deadline. apply _. Defined.

Lemma check_eq now fails self :
  (will_abort self = true → has_deadline (budget self)) →
  let r := check now fails self in
  r.2 = bool_decide (has_deadline (budget self) ∧ (will_abort self = true ∨ (e2e_deadline (budget self) ≤ now)%Z)) ∧
  (will_abort r.1 = true ↔ will_abort self = true ∨
     has_deadline (budget self) ∧ (e2e_deadline (budget self) ≤ now)%Z ∧ fails = false) ∧
  budget r.1 = budget self.
Proof.
  intros Hab. unfold check, has_deadline in *.
  destruct (decide (e2e_deadline (budget self) = 0)%Z) as [He|He]; cbn [fst snd].
  { rewrite bool_decide_false by tauto. destruct (will_abort self); [by destruct (Hab eq_refl)|].
    split_and!; [done|naive_solver|done]. }
  destruct (will_abort self) eqn:Hw; cbn [fst snd]; [rewrite bool_decide_true by tauto; naive_solver|].
  destruct (decide (deadline (budget self) = 0)%Z) as [Hd|Hd]; cbn [fst snd will_abort budget].
  { rewrite bool_decide_false by tauto. naive_solver. }
  split_and!; [apply bool_decide_ext; naive_solver| |done].
  rewrite andb_true_iff, bool_decide_eq_true, negb_true_iff. naive_solver.
Qed.

Lemma guard_step_eq self ev :
  (will_abort self = true → has_deadline (budget self)) →
  let r := guard_step self ev in
  budget r.1 = budget self ∧
  r.2 = bool_decide (is_Some (event_time ev) ∧ has_deadline (budget self)
                     ∧ (will_abort self = true ∨ is_late (budget self) ev)) ∧
  (will_abort r.1 = true ↔ will_abort self = true ∨
     has_deadline (budget self) ∧ marked (budget self) [ev]).
Proof.
  intros Hab. unfold marked, is_late. rewrite Exists_cons, Exists_nil.
  destruct ev as [now fails|now fails|now fails|child]; cbn [guard_step event_time option_map snd];
    [..|split_and!; [done|symmetry; apply bool_decide_eq_false_2; by intros [[? ?] _]|cbn; naive_solver]];
    unfold guard_before_poll, guard_before_child_rpc, guard_after_poll;
    destruct (check_eq now fails self Hab) as (Hr & Hw & Hb);
    destruct (check now fails self) as [self' abort]; cbn [fst snd] in *;
    (split; [done|]); (split; [|rewrite Hw; naive_solver]);
    (trans abort; [by destruct abort|]); rewrite Hr; apply bool_decide_ext;
    (split; [intros H; split; [by eexists|exact H]|by intros [_ ?]]).
Qed.

Lemma guard_run_eq self evs before :
  (will_abort self = true ↔ has_deadline (budget self) ∧ marked (budget self) before) →
  guard_run self evs =
    imap (λ i ev, bool_decide (is_Some (event_time ev) ∧ has_deadline (budget self)
                               ∧ (marked (budget self) (before ++ take i evs) ∨ is_late (budget self) ev))) evs.
Proof.
  revert self before. induction evs as [|ev evs IH]; intros self before Hw; [done|].
  cbn [guard_run]. destruct (guard_step_eq self ev) as (Hb & Hr & Hw'); [by intros [? _]%Hw|].
  destruct (guard_step self ev) as [self' r]. cbn [fst snd] in *.
  cbn [imap]. rewrite (IH self' (before ++ [ev])), Hb.
  2: { rewrite Hb, Hw', Hw. unfold marked. rewrite Exists_app. tauto. }
  f_equal.
  - rewrite Hr. apply bool_decide_ext. rewrite Hw, app_nil_r. tauto.
  - apply imap_ext. intros i ev' _. cbn [compose take]. by rewrite <-app_assoc.
Qed.

(** The guard rejects at a poll, at a child call or after a pending poll
    exactly when the request has an SLO and a deadline and the hook reads a
    time at or after the end-to-end deadline, or an earlier hook did and marked
    the request, which only a spurious failure of its swap can prevent. Without
    an SLO it never rejects. *)
Theorem guard_fires method ctx evs :
  guard_run (handler_new method ctx) evs =
    imap (λ i ev, bool_decide (is_Some (event_time ev) ∧ has_deadline ctx
                               ∧ (marked ctx (take i evs) ∨ is_late ctx ev))) evs.
Proof.
  apply (guard_run_eq (handler_new method ctx) evs []). cbn. unfold marked. rewrite Exists_nil.
  split; [done|tauto].
Qed.
End guard_laws.
