(* ===== verification/EstModule.v ===== *)
(** The estimation module, libs/masa-policy/src/module/est: module.rs (the hooks
    of one request), state/decay.rs and signal_slack.rs. The estimators are
    shared by the requests of a service; the hooks take and return them. *)
From stdpp Require Import sorting.
From S2P Require Invocation.
From S2P Require Export Budget Estimation Tally.

(** ** Features and clocks *)

Record Features := MkFeatures {
  abort_slack : bool;
  signal_slack : bool;
  sched_pred : bool;
  deadline_equals_slack : bool;
}.

(** A time read after the local deadline, if there is one. *)
Definition late (budget : Context) (now : Z) : bool :=
  bool_decide (deadline budget ≠ 0)%Z && bool_decide (deadline budget < now)%Z.

Definition mark_if_late (f : Features) (budget : Context) (now : Z) (meta : RequestMetadataTracker)
    : RequestMetadataTracker :=
  if signal_slack f && late budget now then mark_deadline_signal meta else meta.

Definition should_skip_flush (f : Features) (meta : RequestMetadataTracker) : bool :=
  signal_slack f && is_subtree_signaled meta.

(** ** The decay of stale estimates *)

Definition TAU_DECAY_US : f64 := f64_of_Z 5000000.
Definition DECAY_THRESHOLD_US : Z := 200000.

Section decay.
  (** [f64::exp]. *)
  Context (exp : f64 → f64).

Definition fast_exp_neg (x : f64) : f64 :=
  if f64_le (f64_of_Z 50) x then f64_zero else exp (SFopp x).

Definition decay_factor (now_us last_obs_us : Z) : f64 :=
  let age := (now_us -s last_obs_us)%Z in
  if decide (age ≤ DECAY_THRESHOLD_US)%Z then f64_one
  else fast_exp_neg (f64_div (f64_of_Z age) TAU_DECAY_US).
End decay.

(** [(value as f64 * decay) as u64]. *)
Definition decayed (value : Z) (decay : f64) : Z := f64_to_u64 (f64_mul (f64_of_Z value) decay).

(** ** The deadline of a child *)

Definition hard_deadline_estimate (f : Features) (slack_estimate deadline_estimate : Z) : Z :=
  if deadline_equals_slack f then slack_estimate else deadline_estimate.

Definition child_deadline_and_prio (f : Features) (budget : Context) (now priority_est_remaining
    deadline_est_remaining : Z) : Z * PriorityHint :=
  if sched_pred f then
    let hard := hard_deadline_estimate f priority_est_remaining deadline_est_remaining in
    (deadline budget -s hard, Hint (deadline budget -s priority_est_remaining -s now))
  else (deadline budget -s deadline_est_remaining, prio_hint budget).

(** ** The hooks *)

Definition EST_NAME : bytes := bytes_of_string "estimation".

Record EstimationModule := MkEstimation {
  estimation : EstimationTracker;
  est_rpc : CowGrpcMethod;
  est_info : EstimationInfo;
  est_budget : Context;
}.

Definition set_estimation (t : EstimationTracker) (self : EstimationModule) : EstimationModule :=
  MkEstimation t (est_rpc self) (est_info self) (est_budget self).

Section hooks.
  Context {E : Base64Engine} {B : Bincode EstimationWire} {Est : Type} `{Estimator Est}.
  Context {Response Status : Type} (deadline_exceeded internal : bytes → Status).
  Context (is_deadline_exceeded : Status → bool) (type_name : MasaType → bytes).
  Context (register : CowGrpcMethod → MethodId) (exp : f64 → f64).
  Context (f : Features) (aware : bool) (p : PredParams).

Notation Reply := (result Response Status).

Definition est_new (method : CowGrpcMethod) (wire : WireIn) (e : Ext) (now : Instant)
    : outcome (EstimationModule * Ext) :=
  let resolved := register method in
  r ← Codec.get (W:=EstimationWire) wire EST_NAME;
  w ← expect r;
  let inbound := w ≫= request in
  let hop_count := match inbound with Some r => req_hop_count r | None => 0%Z end in
  let '(root, root_id) :=
    if decide (hop_count = 0)%Z then
      (Some (MkRootMethod (cow_service method) (cow_method method)), Some resolved)
    else
      let root := inbound ≫= req_root_method in
      (root, (λ r, register (MkCow (root_service r) (root_method r))) <$> root) in
  let info := MkEstInfo hop_count root root_id in
  let e := (Extensions.insert masa_value e (Plain EstimationInfoType) info).1 in
  let e := (Extensions.insert masa_value e (Plain TallyType) tally_new).1 in
  budget ← info_of e;
  Ret (MkEstimation (tracker_new resolved root_id now) method info budget, e).

Definition tally (e : Ext) : outcome RequestMetadataTracker :=
  expect_some (Extensions.get masa_value e (Plain TallyType)).

(** A change of the tally behind its reference. *)
Definition on_tally (g : RequestMetadataTracker → RequestMetadataTracker) (e : Ext) : Ext :=
  Extensions.update masa_value e (Plain TallyType) g.

Definition local_deadline_exceeded (self : EstimationModule) : Status :=
  deadline_exceeded (bytes_of_string "/EarlyReturn?src=" ++ guard_path (est_rpc self)
    ++ bytes_of_string "&reason=LocalDeadlineExceeded").

(** The times read for the abort, the signal, the priority and the poll's
    start; also the remaining time the task is given as its priority. *)
Definition est_before_poll (self : EstimationModule) (e : Ext) (now_abort now_signal now_prio : Z) (start : Instant)
    : outcome (Ext * option Z * result unit Reply) :=
  _ ← tally e;
  if abort_slack f && late (est_budget self) now_abort then
    Ret (e, None, Err (Err (local_deadline_exceeded self)))
  else
    let e := on_tally (mark_if_late f (est_budget self) now_signal) e in
    let reprioritized :=
      if sched_pred f then Some (deadline (est_budget self) -s now_prio)%Z else None in
    Ret (on_tally (start_poll start) e, reprioritized, Ok tt).

Definition saturating_hop (hop : Z) : Z := Z.min 255 (hop + 1).

Definition propose_or (child : Ext) (t : MasaType) (v : masa_value t) : Ext * result unit Status :=
  let '(child, r) := propose masa_value type_name child t v in
  (child, result_map_err (λ c, internal (closed_text c)) r).

Definition est_before_child_rpc (self : EstimationModule) (est : LatencyEstimators Est)
    (child_method : CowGrpcMethod) (child_service_id : MethodId) (child : Ext) (child_wire : WireOut)
    (issued : Instant) (now_left now_decay now_prio : Z)
    : outcome (EstimationModule * LatencyEstimators Est * Ext * WireOut * result unit Status) :=
  r ← put child_wire EST_NAME
        (estimation_request (saturating_hop (hop_count (est_info self))) (info_root_method (est_info self)));
  child_wire ← expect r;
  '(t, ct) ← begin_child aware p (estimation self) (register child_method) child_service_id issued;
  let self := set_estimation t self in
  let time_left := (e2e_deadline (est_budget self) -s now_left)%Z in
  let root := root_or_self t in
  '(est, remaining) ← est_after_child_wallclock_for_group aware p est root (resolved_method_id t)
    (ct_path_prefix ct) (base_signature ct) (ct_service_path_prefix ct) (base_service_signature ct)
    (ct_child_id ct) time_left;
  let est := log_estimates est (ct_key ct) in
  let '(est, last_obs) := after_child_wallclock_last_obs est (ct_key ct) in
  let decay := decay_factor exp now_decay last_obs in
  let decayed_full := decayed (Fanout.full remaining) decay in
  let decayed_floor := decayed (Fanout.floor remaining) decay in
  let '(child_deadline, prio_hint) :=
    child_deadline_and_prio f (est_budget self) now_prio decayed_full decayed_floor in
  let '(child, r) := propose_or child ChildDeadlineType child_deadline in
  match r with
  | Err status => Ret (self, est, child, child_wire, Err status)
  | Ok _ =>
      let '(child, r) := propose_or child ChildPriorityType prio_hint in
      match r with
      | Err status => Ret (self, est, child, child_wire, Err status)
      | Ok _ =>
          let child := (Extensions.insert masa_value child (Plain ChildTrackerType) ct).1 in
          Ret (self, est, child, child_wire, Ok tt)
      end
  end.

(** The instants of [record_child_complete], and the microseconds the estimator
    records. *)
Definition est_after_child_rpc (self : EstimationModule) (est : LatencyEstimators Est)
    (o : @ChildOutcome Response Status) (response_wire : WireIn) (child e : Ext)
    (elapsed_at : Instant) (clock : Z) (now : Instant)
    : outcome (EstimationModule * LatencyEstimators Est * Ext * result unit Status) :=
  match sent o with
  | None => Ret (self, est, e, Ok tt)
  | Some response =>
      '(self, est, e) ←
        (match Extensions.get masa_value child (Plain ChildTrackerType) with
         | Some child_tracker =>
             r ← Codec.get (W:=EstimationWire) response_wire EST_NAME;
             w ← expect r;
             let report := child_report response (w ≫= Tally.response) in
             let '(est, t) :=
               record_child_complete est (estimation self) child_tracker
                 (is_early_return_response is_deadline_exceeded response) (is_signaled_report report)
                 elapsed_at clock now in
             _ ← tally e;
             Ret (set_estimation t self, est,
                  on_tally (absorb_child is_deadline_exceeded response report) e)
         | None => Ret (self, est, e)
         end);
      Ret (self, est, e,
           match response with
           | Err status => if sched_pred f then Err status else Ok tt
           | Ok _ => Ok tt
           end)
  end.

Definition est_after_poll (self : EstimationModule) (poll : @Poll Response Status) (e : Ext)
    (ended : Instant) (now_abort now_signal : Z) : outcome (Ext * result unit Reply) :=
  _ ← tally e;
  let e := on_tally (end_poll ended) e in
  let abort :=
    match poll with Pending => abort_slack f && late (est_budget self) now_abort | Ready _ => false end in
  if abort then Ret (e, Err (Err (local_deadline_exceeded self)))
  else Ret (on_tally (mark_if_late f (est_budget self) now_signal) e, Ok tt).

Definition est_finalize (self : EstimationModule) (est : LatencyEstimators Est) (r : Reply) (wire : WireOut)
    (e : Ext) (parent_end : Instant) (clock : Z) (now : Instant) (util : f32)
    : outcome (EstimationModule * LatencyEstimators Est * WireOut * Ext) :=
  m ← tally e;
  '(self, est, e) ←
    (if is_early_return_response is_deadline_exceeded r then Ret (self, est, on_tally mark_early_return e)
     else if should_skip_flush f m then Ret (self, est, e)
     else
       '(est, t) ← flush aware p est (estimation self) parent_end clock now;
       Ret (set_estimation t self, est, e));
  m ← tally e;
  w ← put wire EST_NAME (estimation_response (response_wire util m));
  wire ← expect w;
  Ret (self, est, wire, e).
End hooks.

(** ** The hop count and the root travel down *)

(** A request half that the wire format can hold. *)
Definition root_wf (r : RootMethod) : Prop := string_wf (root_service r) ∧ string_wf (root_method r).

Definition request_wf (w : EstimationRequestWire) : Prop :=
  (0 ≤ req_hop_count w ≤ 255)%Z ∧ match req_root_method w with Some r => root_wf r | None => True end.

(** [bincode] writes every request half. *)
Class EstimationWireLaws {B : Bincode EstimationWire} : Prop := {
  estimation_bincode_laws :: BincodeLaws EstimationWire;
  estimation_serialize w :
    request_wf w → ∃ bs, serialize (MkEstimationWire (Some w) None) = Ok bs;
}.

Lemma est_name_valid : valid_name EST_NAME.
Proof. decided. Qed.

(** What the hooks take besides the module and the messages. *)
Record HookEnv (Status : Type) := MkEnv {
  env_internal : bytes → Status;
  env_type_name : MasaType → bytes;
  env_register : CowGrpcMethod → MethodId;
  env_exp : f64 → f64;
  env_features : Features;
  env_aware : bool;
  env_params : PredParams;
}.
Arguments MkEnv {Status}. Arguments env_internal {Status}. Arguments env_type_name {Status}.
Arguments env_register {Status}. Arguments env_exp {Status}. Arguments env_features {Status}.
Arguments env_aware {Status}. Arguments env_params {Status}.

Section travel.
  Context {E : Base64Engine} {EL : Base64Laws E}.
  Context {B : Bincode EstimationWire} {BL : EstimationWireLaws}.
  Context {Est : Type} `{Estimator Est} {Status : Type}.

(** The module's section of a message. *)
Definition estimation_section (w : WireIn) := Codec.get (W:=EstimationWire) w EST_NAME.

(** A module issues a child call, whatever else happens to the call, and the
    child's module is made from the section it wrote. *)
Definition calls (m m' : EstimationModule) : Prop :=
  ∃ (h : HookEnv Status) m1 est est' child_method service_id child child' out out' issued t1 t2 t3 r register wire
    e e' now,
    est_before_child_rpc (env_internal h) (env_type_name h) (env_register h) (env_exp h) (env_features h)
      (env_aware h) (env_params h) m est child_method service_id child out issued t1 t2 t3
      = Ret (m1, est', child', out', r) ∧
    estimation_section wire = estimation_section (MkWireIn (header out')) ∧
    est_new register child_method wire e now = Ret (m', e').

(** What the module sends to a child. *)
Definition sent_request (m : EstimationModule) : EstimationWire :=
  estimation_request (saturating_hop (hop_count (est_info m))) (info_root_method (est_info m)).

Definition info_wf (i : EstimationInfo) : Prop :=
  (0 ≤ hop_count i ≤ 255)%Z ∧ match info_root_method i with Some r => root_wf r | None => True end.

Lemma before_child_writes (h : HookEnv Status) m est child_method service_id child out issued t1 t2 t3 m1 est'
    child' out' r :
  info_wf (est_info m) →
  est_before_child_rpc (env_internal h) (env_type_name h) (env_register h) (env_exp h) (env_features h)
    (env_aware h) (env_params h) m est child_method service_id child out issued t1 t2 t3
    = Ret (m1, est', child', out', r) →
  estimation_section (MkWireIn (header out')) = Ret (Ok (Some (sent_request m))).
Proof.
  intros [Hh Hr]. unfold est_before_child_rpc. fold (sent_request m).
  destruct (estimation_serialize (MkRequestWire (saturating_hop (hop_count (est_info m))) (info_root_method (est_info m))))
    as [bs Hs]; [split; [cbn; unfold saturating_hop; lia|exact Hr]|].
  change (MkEstimationWire (Some _) None) with (sent_request m) in Hs.
  rewrite (put_eq _ _ _ _ Hs). cbn [mbind outcome_bind expect].
  destruct (begin_child _ _ _ _ _ _) as [[t ct]|]; [|done]. cbn [mbind outcome_bind].
  destruct (est_after_child_wallclock_for_group _ _ _ _ _ _ _ _ _ _ _) as [[es rm]|]; [|done]. cbn [mbind outcome_bind].
  destruct (after_child_wallclock_last_obs _ _) as [es2 obs]. destruct (child_deadline_and_prio _ _ _ _ _) as [d pr].
  destruct (propose_or _ _ child ChildDeadlineType d) as [c1 [[]|]].
  - destruct (propose_or _ _ c1 ChildPriorityType pr) as [c2 [[]|]].
    + intros [= _ _ _ <- _]. by apply get_set; [apply est_name_valid|].
    + intros [= _ _ _ <- _]. by apply get_set; [apply est_name_valid|].
  - intros [= _ _ _ <- _]. by apply get_set; [apply est_name_valid|].
Qed.

(** What [est_new] makes of the section. *)
Lemma est_new_info register method wire e now w m e' :
  estimation_section wire = Ret (Ok w) → est_new register method wire e now = Ret (m, e') →
  est_rpc m = method ∧
  let inbound := w ≫= request in
  let hop := match inbound with Some r => req_hop_count r | None => 0%Z end in
  hop_count (est_info m) = hop ∧
  info_root_method (est_info m) =
    if decide (hop = 0)%Z then Some (MkRootMethod (cow_service method) (cow_method method))
    else inbound ≫= req_root_method.
Proof.
  intros Hw. unfold est_new. unfold estimation_section in Hw. rewrite Hw. cbn [mbind outcome_bind expect].
  set (inbound := w ≫= request). set (hop := match inbound with Some r => _ | None => _ end).
  destruct (decide (hop = 0)%Z);
    destruct (info_of _) as [budget|]; try done; cbn [mbind outcome_bind]; by intros [= <- _].
Qed.

Lemma est_new_total register method wire e now w budget :
  estimation_section wire = Ret (Ok w) → ext_wf masa_value e → info_of e = Ret budget →
  ∃ m e', est_new register method wire e now = Ret (m, e') ∧ est_budget m = budget ∧
    Extensions.get masa_value e' (Plain TallyType) = Some tally_new ∧
    ext_wf masa_value e' ∧ is_Some (Extensions.get masa_value e' (Plain EstimationInfoType)) ∧
    info_of e' = Ret budget.
Proof.
  intros Hw Hwf Hb. unfold est_new. unfold estimation_section in Hw. rewrite Hw. cbn [mbind outcome_bind expect].
  assert (Hins : ∀ info, let e2 := (Extensions.insert masa_value (Extensions.insert masa_value e (Plain EstimationInfoType) info).1
      (Plain TallyType) tally_new).1 in info_of e2 = Ret budget ∧
      Extensions.get masa_value e2 (Plain TallyType) = Some tally_new ∧ ext_wf masa_value e2 ∧
      Extensions.get masa_value e2 (Plain EstimationInfoType) = Some info).
  { intros info. destruct (insert_spec masa_value e (Plain EstimationInfoType) info Hwf) as (Hwf1 & _ & Hg1 & _ & Ho1).
    destruct (insert_spec masa_value _ (Plain TallyType) tally_new Hwf1) as (Hwf2 & _ & Hg & _ & Ho2).
    cbv zeta. unfold info_of in *.
    split; [by rewrite Ho2, Ho1 by done|]. split; [done|]. split; [done|]. by rewrite Ho2 by done. }
  destruct (decide _);
    match goal with |- context [Extensions.insert _ e _ ?i] => destruct (Hins i) as (Hi & Hg & Hwf2 & Hg2); rewrite Hi end;
    cbn [mbind outcome_bind]; eexists _, _; split_and!; try done; rewrite Hg2; eauto.
Qed.

Lemma calls_descend root k m m' :
  root_wf root → calls m m' → hop_count (est_info m) = Z.min 255 (Z.of_nat k) →
  info_root_method (est_info m) = Some root →
  hop_count (est_info m') = Z.min 255 (Z.of_nat (S k)) ∧ info_root_method (est_info m') = Some root.
Proof.
  intros Hwf (h & m1 & est & est' & cm & sid & child & child' & out & out' & issued & t1 & t2 & t3 & r & register & wire
    & e & e' & now & Hb & Hw & Hn) Hh Hr.
  apply before_child_writes in Hb; [|split; [lia|by rewrite Hr]]. rewrite <-Hw in Hb.
  destruct (est_new_info _ _ _ _ _ _ _ _ Hb Hn) as (_ & Hhop & Hroot).
  unfold sent_request, estimation_request in Hhop, Hroot.
  cbn [mbind option_bind request req_hop_count req_root_method] in Hhop, Hroot.
  rewrite decide_False in Hroot by (unfold saturating_hop; lia). rewrite Hhop, Hroot, Hr. unfold saturating_hop. split; [lia|done].
Qed.

(** The root of a request travels unchanged. A request that arrives without
    an estimation section, or with hop count 0, has the receiving method as its
    root. Down any chain of calls from it, whatever the services' registries,
    estimators, features and proposals, the module of the n-th service sees the
    same root method and the hop count n, which stays at 255 and never wraps to
    0: only the first service takes itself for the ingress. And what a module
    sends, a child's module always accepts. *)
Theorem root_travels n register method wire e now m e' w m' :
  estimation_section wire = Ret (Ok w) →
  match w ≫= request with Some r => req_hop_count r = 0%Z | None => True end →
  let root := MkRootMethod (cow_service method) (cow_method method) in
  root_wf root → est_new register method wire e now = Ret (m, e') →
  nsteps calls n m m' →
  info_root_method (est_info m') = Some root ∧ hop_count (est_info m') = Z.min 255 (Z.of_nat n) ∧
  is_ingress (est_info m') = bool_decide (n = 0) ∧
  ∀ (h : HookEnv Status) est cm sid child out issued t1 t2 t3 m1 est' child' out' r,
    est_before_child_rpc (env_internal h) (env_type_name h) (env_register h) (env_exp h) (env_features h)
      (env_aware h) (env_params h) m' est cm sid child out issued t1 t2 t3 = Ret (m1, est', child', out', r) →
    ∀ register child_method e budget now, ext_wf masa_value e → info_of e = Ret budget →
      ∃ m'' e'', est_new register child_method (MkWireIn (header out')) e now = Ret (m'', e'').
Proof.
  intros Hw Hin root Hwf Hnew Hsteps. destruct (est_new_info _ _ _ _ _ _ _ _ Hw Hnew) as (_ & Hh0 & Hr0).
  assert (Hz : match w ≫= request with Some r => req_hop_count r | None => 0%Z end = 0%Z)
    by by destruct (w ≫= request).
  rewrite Hz in Hh0. rewrite decide_True in Hr0 by done. fold root in Hr0.
  assert (H0 : hop_count (est_info m) = Z.min 255 (Z.of_nat 0)) by (rewrite Hh0; done). clear Hh0 Hnew.
  assert (Hall : ∀ k, hop_count (est_info m) = Z.min 255 (Z.of_nat k) →
    hop_count (est_info m') = Z.min 255 (Z.of_nat (k + n)) ∧ info_root_method (est_info m') = Some root).
  { clear -Hsteps Hr0 Hwf BL EL. revert Hr0. induction Hsteps as [m|n m m1 m' Hc _ IH]; intros Hr k Hk.
    - by rewrite Nat.add_0_r.
    - destruct (calls_descend root k m m1 Hwf Hc Hk Hr) as [Hk1 Hr1].
      destruct (IH Hr1 (S k) Hk1) as [-> ->]. by rewrite <-Nat.add_succ_comm. }
  destruct (Hall 0 H0) as [Hh Hr]. cbn [Nat.add] in Hh. split_and!; [done|done| |].
  - unfold is_ingress. apply bool_decide_ext. rewrite Hh. lia.
  - intros h est cm sid child out issued t1 t2 t3 m1 est' child' out' r Hb.
    apply before_child_writes in Hb; [|split; [lia|by rewrite Hr]].
    intros register' child_method e1 budget now1 He1 Hbud.
    destruct (est_new_total register' child_method _ _ now1 _ budget Hb He1 Hbud) as (m2 & e2 & H2 & _). by exists m2, e2.
Qed.
End travel.

(** ** The deadline of a child *)

(** What is relied on of [f64::exp]: it maps the numbers that are not positive
    into the unit interval. *)
Definition exp_law (exp : f64 → f64) : Prop :=
  ∀ x, is_fin x → (fv x ≤ 0)%Z → is_fin (exp x) ∧ (0 ≤ fv (exp x) ≤ pw 0)%Z.

Lemma fast_exp_neg_between exp x :
  exp_law exp → is_fin x → (0 ≤ fv x)%Z → is_fin (fast_exp_neg exp x) ∧ (0 ≤ fv (fast_exp_neg exp x) ≤ pw 0)%Z.
Proof.
  intros Hexp Hx Hv. unfold fast_exp_neg. destruct (f64_le _ x).
  - split; [done|]. assert (Hp := pw_pos 0). cbn [fv f64_zero]. lia.
  - apply Hexp; [by apply is_fin_opp|]. rewrite fv_opp. lia.
Qed.

Lemma zv_of_range z : (1 ≤ z)%Z → is_u64 z → (pw 0 ≤ zv z ≤ pw 64)%Z.
Proof.
  intros H1 [_ Hz]. unfold zv. assert (Hp := pw_pos 0). split; [nia|].
  rewrite (pw_split 0 64) by lia. change (2 ^ (64 - 0))%Z with (u64_max + 1)%Z. nia.
Qed.

Lemma of_Z_range z : (1 ≤ z)%Z → is_u64 z → is_fin (f64_of_Z z) ∧ (pw 0 ≤ fv (f64_of_Z z) ≤ pw 64)%Z.
Proof.
  intros H1 Hz. destruct one_value as [Ho Hov], (two_value 64) as [Ht Htv]; [lia|].
  rewrite <-Hov, <-Htv. apply of_Z_between; [done..|]. rewrite Hov, Htv. by apply zv_of_range.
Qed.

Lemma decay_factor_between exp now last :
  exp_law exp → is_u64 now → is_u64 last →
  is_fin (decay_factor exp now last) ∧ (0 ≤ fv (decay_factor exp now last) ≤ pw 0)%Z.
Proof.
  intros Hexp Hn Hl. unfold decay_factor. destruct (decide _) as [_|Hage].
  - destruct one_value as [H1 H1v]. rewrite H1v. assert (Hp := pw_pos 0). split; [done|lia].
  - unfold DECAY_THRESHOLD_US in Hage.
    destruct (of_Z_range (now -s last)) as [Ha Hav]; [lia|ulia|].
    destruct (of_Z_range 5000000) as [Ht Htv]; [lia|ulia|].
    assert (Hs := scale_pos). destruct (two_value 64) as [H64 H64v]; [lia|].
    destruct (div_between _ TAU_DECAY_US f64_zero (two 64) 0 64 0 64 Ha Ht) as [Hq Hqv]; [done|done|lia|lia|done|done| |].
    { rewrite H64v. unfold TAU_DECAY_US. cbn [fv f64_zero]. rewrite pw_0 in *. nia. }
    cbn [fv f64_zero] in Hqv.
    apply fast_exp_neg_between; [done|done|lia].
Qed.

Lemma decayed_between v d :
  (0 ≤ v < 2 ^ 53)%Z → is_fin d → (0 ≤ fv d ≤ pw 0)%Z → (0 ≤ decayed v d ≤ v)%Z.
Proof.
  intros Hv Hd Hdv. destruct (of_Z_exact v Hv) as [Hf Hfv]. unfold decayed.
  assert (Hz : (0 ≤ zv v)%Z) by (unfold zv; assert (Hp := pw_pos 0); nia). rewrite pw_0 in Hdv.
  destruct (mul_between (f64_of_Z v) d f64_zero (f64_of_Z v)) as [Hm Hmv]; [done..|rewrite Hfv; cbn [fv f64_zero]; nia|].
  rewrite Hfv in Hmv. cbn [fv f64_zero] in Hmv.
  apply to_u64_between; [done|lia|ulia|]. by replace (zv 0) with 0%Z.
Qed.

Lemma begin_child_sorted aware p self child service now self' ct :
  begin_child aware p self child service now = Ret (self', ct) →
  StronglySorted Z.le (base_signature ct) ∧ StronglySorted Z.le (base_service_signature ct).
Proof.
  unfold begin_child. destruct (fanout_enabled_for_parent _ _ _ _).
  - destruct (decide _).
    + intros [= _ <-]. split; apply (StronglySorted_merge_sort Z.le).
    + destruct (refresh_path_prefix_before_open_group _ _) as [fs|]; [|done].
      intros [= _ <-]. split; apply (StronglySorted_merge_sort Z.le).
  - intros [= _ <-]. split; repeat constructor.
Qed.

(** A decision that is still open. *)
Definition open (e : Ext) (t : MasaType) : Prop :=
  ∀ d, Extensions.get masa_value e (DecisionOf t) = Some d → resolved_by d = None.

Lemma propose_open type_name e t v :
  ext_wf masa_value e → open e t →
  let r := propose masa_value type_name e t v in
  r.2 = Ok tt ∧ ext_wf masa_value r.1 ∧
  proposals masa_value r.1 t = proposals masa_value e t ++ [MkProposal (module masa_value e) v] ∧
  same_elsewhere masa_value e r.1 (DecisionOf t).
Proof.
  intros Hwf Ho. unfold propose, proposals.
  destruct (Extensions.get masa_value e (DecisionOf t)) as [[ps [res|]]|] eqn:Hg; cbn [fst snd].
  - by specialize (Ho _ Hg).
  - destruct (update_spec masa_value e (DecisionOf t)
      (λ d : val masa_value (DecisionOf t), MkDecision (decision_proposals d ++ [MkProposal (module masa_value e) v]) (resolved_by d))
      _ Hwf Hg) as (H1 & H2 & H3). split_and!; [done|done| |done]. by rewrite H2.
  - destruct (insert_spec masa_value e (DecisionOf t) (MkDecision [MkProposal (module masa_value e) v] None) Hwf)
      as (H1 & _ & H2 & H3). split_and!; [done|done| |done]. by rewrite H2.
Qed.

Lemma propose_or_open {Status} (internal : bytes → Status) type_name e t v :
  ext_wf masa_value e → open e t →
  ∃ e', propose_or internal type_name e t v = (e', Ok tt) ∧ ext_wf masa_value e' ∧
    proposals masa_value e' t = proposals masa_value e t ++ [MkProposal (module masa_value e) v] ∧
    same_elsewhere masa_value e e' (DecisionOf t).
Proof.
  intros Hwf Ho. destruct (propose_open type_name e t v Hwf Ho) as (H1 & H2 & H3 & H4). unfold propose_or.
  destruct (propose masa_value type_name e t v) as [e' r]. cbn [fst snd] in *. subst r. eauto.
Qed.

(** A proposal that was taken is the last of its decision; no other changes. *)
Lemma propose_or_ok {Status} (internal : bytes → Status) type_name e t v e' :
  ext_wf masa_value e → propose_or internal type_name e t v = (e', Ok tt) →
  ext_wf masa_value e' ∧
  proposals masa_value e' t = proposals masa_value e t ++ [MkProposal (module masa_value e) v] ∧
  same_elsewhere masa_value e e' (DecisionOf t).
Proof.
  intros Hwf Hp. assert (Ho : open e t).
  { intros d Hd. unfold propose_or, propose in Hp. rewrite Hd in Hp. by destruct d as [ps [res|]]. }
  destruct (propose_or_open internal type_name e t v Hwf Ho) as (e1 & He1 & Hrest).
  rewrite Hp in He1. by injection He1 as <-.
Qed.

Section child_deadline.
  Context {E : Base64Engine} {EL : Base64Laws E}.
  Context {B : Bincode EstimationWire} {BL : EstimationWireLaws}.
  Context {Est : Type} `{Estimator Est} `{!EstimatorTyped Est} `{!FreshEstimator Est} {Status : Type}.

Lemma last_observation_u64 (est : LatencyEstimators Est) key : is_u64 (after_child_wallclock_last_obs est key).2.
Proof.
  unfold after_child_wallclock_last_obs, get_estimates_pack, get_estimate_with.
  destruct (after_child_wallclock est !! key) as [e|]; [|split; done].
  destruct (has_estimate e); [apply last_observation_typed|split; done].
Qed.

(** The hook, where the tables have learned and the decisions are open. *)
Lemma before_child_eq (h : HookEnv Status) m (est : LatencyEstimators Est) child_method service_id child out
    issued t1 t2 t3 :
  info_wf (est_info m) → learned (fanout_patterns est) → learned (service_fanout_patterns est) →
  is_fin (fanout_deadline_legacy_fraction (env_params h)) → exp_law (env_exp h) → is_u64 t2 →
  (e2e_deadline (est_budget m) -s t1 < 2 ^ 53)%Z →
  ext_wf masa_value child → open child ChildDeadlineType → open child ChildPriorityType →
  ∃ m1 est' child' out' full_us floor_us,
    est_before_child_rpc (env_internal h) (env_type_name h) (env_register h) (env_exp h) (env_features h)
      (env_aware h) (env_params h) m est child_method service_id child out issued t1 t2 t3
      = Ret (m1, est', child', out', Ok tt) ∧
    (0 ≤ full_us ≤ e2e_deadline (est_budget m) -s t1)%Z ∧ (0 ≤ floor_us ≤ e2e_deadline (est_budget m) -s t1)%Z ∧
    let dp := child_deadline_and_prio (env_features h) (est_budget m) t3 full_us floor_us in
    proposals masa_value child' ChildDeadlineType =
      proposals masa_value child ChildDeadlineType ++ [MkProposal (module masa_value child) dp.1] ∧
    proposals masa_value child' ChildPriorityType =
      proposals masa_value child ChildPriorityType ++ [MkProposal (module masa_value child) dp.2].
Proof.
  intros [Hh Hr] Hf Hsf Hfrac Hexp Ht2 Hleft Hwf Hod Hop. unfold est_before_child_rpc.
  destruct (estimation_serialize (MkRequestWire (saturating_hop (hop_count (est_info m))) (info_root_method (est_info m))))
    as [bs Hs]; [split; [cbn; unfold saturating_hop; lia|exact Hr]|].
  change (MkEstimationWire (Some _) None) with (sent_request m) in Hs. fold (sent_request m).
  rewrite (put_eq _ _ _ _ Hs). cbn [mbind outcome_bind expect].
  destruct (Invocation.begin_child_total (env_aware h) (env_params h) (estimation m) (env_register h child_method) service_id issued)
    as [[t ct] Hb].
  rewrite Hb. cbn [mbind outcome_bind set_estimation est_budget]. set (left := (e2e_deadline (est_budget m) -s t1)%Z) in *.
  destruct (begin_child_sorted _ _ _ _ _ _ _ _ Hb) as [Hs1 Hs2].
  destruct (deadline_estimate_spec (env_aware h) (env_params h) est (root_or_self t) (resolved_method_id t)
    (ct_path_prefix ct) (base_signature ct) (ct_service_path_prefix ct) (base_service_signature ct) (ct_child_id ct) left)
    as (est1 & rm & Hest & _ & (Hfull & _ & Hfloor) & _); [done..|unfold left, sat_sub in *; lia|done|done|].
  rewrite Hest. cbn [mbind outcome_bind].
  assert (Hobs := last_observation_u64 (log_estimates est1 (ct_key ct)) (ct_key ct)).
  destruct (after_child_wallclock_last_obs (log_estimates est1 (ct_key ct)) (ct_key ct)) as [est2 obs]. cbn [snd] in Hobs.
  destruct (decay_factor_between (env_exp h) t2 obs Hexp Ht2 Hobs) as [Hd Hdv].
  assert (Hdf := decayed_between (Fanout.full rm) _ ltac:(lia) Hd Hdv).
  assert (Hdl := decayed_between (Fanout.floor rm) _ ltac:(lia) Hd Hdv).
  set (full_us := decayed (Fanout.full rm) _) in *. set (floor_us := decayed (Fanout.floor rm) _) in *.
  destruct (child_deadline_and_prio (env_features h) (est_budget m) t3 full_us floor_us) as [d pr] eqn:Hdp.
  destruct (propose_or_open (env_internal h) (env_type_name h) child ChildDeadlineType d Hwf Hod)
    as (c1 & -> & Hwf1 & Hp1 & Hm1 & Ho1).
  assert (Hop1 : open c1 ChildPriorityType) by (intros dc; rewrite Ho1 by done; apply Hop).
  destruct (propose_or_open (env_internal h) (env_type_name h) c1 ChildPriorityType pr Hwf1 Hop1)
    as (c2 & -> & Hwf2 & Hp2 & Hm2 & Ho2).
  destruct (insert_spec masa_value c2 (Plain ChildTrackerType) ct Hwf2) as (_ & _ & _ & _ & Ho3).
  eexists _, _, _, _, full_us, floor_us. split; [done|]. split; [lia|]. split; [lia|]. rewrite Hdp. cbn [fst snd].
  unfold proposals in *. rewrite !Ho3, Ho2 by done. rewrite Hp1, Hp2, Hm1, Ho1 by done. done.
Qed.

(** C25: What a child is told of its deadline. Where the decisions are open, the
    hook accepts the call and its proposals come last, so that the budget
    module, which takes the last, gives the child a deadline that is never
    later than the parent's own, and earlier by at most the time the request
    has left before its end-to-end deadline, however stale, large or wrong the
    estimates are. Under [sched_pred] the priority is at most the time left
    before the parent's deadline; without it the parent's priority is kept. *)
Theorem child_deadline_bounded (h : HookEnv Status) m (est : LatencyEstimators Est) child_method service_id child out
    issued t1 t2 t3 :
  info_wf (est_info m) → learned (fanout_patterns est) → learned (service_fanout_patterns est) →
  is_fin (fanout_deadline_legacy_fraction (env_params h)) → exp_law (env_exp h) → is_u64 t2 →
  let ctx := est_budget m in
  let left := (e2e_deadline ctx -s t1)%Z in
  (left < 2 ^ 53)%Z → (0 ≤ deadline ctx)%Z →
  ext_wf masa_value child → open child ChildDeadlineType → open child ChildPriorityType →
  ∃ m1 est' child' out',
    est_before_child_rpc (env_internal h) (env_type_name h) (env_register h) (env_exp h) (env_features h)
      (env_aware h) (env_params h) m est child_method service_id child out issued t1 t2 t3
      = Ret (m1, est', child', out', Ok tt) ∧
    let c := child_context ctx child' in
    (deadline ctx - left ≤ deadline c ≤ deadline ctx)%Z ∧
    if sched_pred (env_features h) then (0 ≤ prio_value (prio_hint c) ≤ deadline ctx -s t3)%Z
    else prio_hint c = prio_hint ctx.
Proof.
  intros Hi Hf Hsf Hfrac Hexp Ht2 ctx left Hleft Hd0 Hwf Hod Hop.
  destruct (before_child_eq h m est child_method service_id child out issued t1 t2 t3)
    as (m1 & est' & child' & out' & full_us & floor_us & Heq & Hfull & Hfloor & Hpd & Hpp); [done..|].
  fold ctx in Heq, Hfull, Hfloor, Hpd, Hpp. fold left in Hfull, Hfloor.
  exists m1, est', child', out'. split; [exact Heq|]. unfold child_context, last_or.
  rewrite Hpd, Hpp, !last_snoc. cbn [deadline prio_hint proposal_value].
  unfold child_deadline_and_prio, hard_deadline_estimate.
  destruct (sched_pred (env_features h)); [destruct (deadline_equals_slack (env_features h))|]; cbn [fst snd prio_value];
    unfold sat_sub; (split; [lia|]); done || lia.
Qed.
End child_deadline.

(** ** The request half in tuple order *)

#[export] Instance root_wf_dec r : Decision (root_wf r).
Proof. unfold root_wf. apply _. Defined.
#[export] Instance request_wf_dec w : Decision (request_wf w).
Proof. unfold request_wf. destruct (req_root_method w); apply _. Defined.

Definition request_encode (w : EstimationWire) : option bytes :=
  match w with
  | MkEstimationWire (Some r) None =>
      if decide (request_wf r) then
        Some (req_hop_count r ::
              match req_root_method r with
              | None => [0%Z]
              | Some root => 1%Z :: write_string (root_service root) ++ write_string (root_method root)
              end)
      else None
  | _ => None
  end.

Definition request_decode (bs : bytes) : option EstimationWire :=
  match bs with
  | hop :: tag :: bs =>
      if decide (tag = 0%Z) then
        if decide (bs = []) then Some (estimation_request hop None) else None
      else
        '(s, bs) ← read_string bs; '(m, bs) ← read_string bs;
        if decide (bs = []) then Some (estimation_request hop (Some (MkRootMethod s m))) else None
  | _ => None
  end.

Lemma request_encode_decode w bs :
  request_encode w = Some bs → Forall is_byte bs ∧ request_decode bs = Some w.
Proof.
  destruct w as [[[hop root]|] [rs|]]; try done. cbn. destruct (decide _) as [[Hh Hr]|]; [|done]. intros [= <-].
  cbn in Hh, Hr. destruct root as [[s m]|].
  - destruct Hr as [Hs Hm]. cbn in Hs, Hm.
    destruct (read_write_string s (write_string m) Hs) as [Hb1 H1]. destruct (read_write_string m [] Hm) as [Hb2 H2].
    rewrite app_nil_r in H2. split.
    + constructor; [unfold is_byte; lia|]. constructor; [unfold is_byte; lia|]. cbn. by apply Forall_app.
    + cbn. rewrite H1. cbn [mbind option_bind]. by rewrite H2.
  - split; [repeat constructor; unfold is_byte; lia|done].
Qed.

Definition request_bincode : Bincode EstimationWire := bincode_of request_encode request_decode.

Lemma request_bincode_laws : @EstimationWireLaws request_bincode.
Proof.
  split; [apply bincode_of_laws, request_encode_decode|]. intros w Hw. cbn. rewrite decide_True by done. by eexists.
Qed.

#[local] Existing Instance reference_engine.
#[local] Existing Instance reference_laws.
#[local] Existing Instance request_bincode.
#[local] Existing Instance request_bincode_laws.

Definition demo_env (fs : Features) : HookEnv bytes :=
  MkEnv (λ b, b) (λ _, []) (λ m, Z.of_nat (length (cow_method m))) (λ _, f64_one) fs true pred_params_default.

Definition demo_budget : Context := MkContext (bytes_of_string "api") 7 100000 0 90000 (Hint 90000).

Definition demo_ext : Ext :=
  (Extensions.insert masa_value (Extensions.new masa_value) (Plain BudgetInfoType) demo_budget).1.

Definition demo_front : CowGrpcMethod := MkCow (bytes_of_string "front.Api") (bytes_of_string "Get").
Definition demo_back : CowGrpcMethod := MkCow (bytes_of_string "back.Store") (bytes_of_string "Read").

Definition demo_module : outcome (EstimationModule * Ext) :=
  est_new (env_register (demo_env (MkFeatures true false true false))) demo_front wire_in_default demo_ext 0.

(** A hook of [demo_env]. *)
Definition demo_before_child (m : EstimationModule) :=
  let h := demo_env (MkFeatures true false true false) in
  est_before_child_rpc (env_internal h) (env_type_name h) (env_register h) (env_exp h) (env_features h)
    (env_aware h) (env_params h) m estimators_new demo_back 12 (Extensions.new masa_value) wire_out_new 0 60000 60000 60000.

Definition demo_child (out : WireOut) : outcome (EstimationModule * Ext) :=
  est_new (λ _, 5%Z) demo_back (MkWireIn (header out)) demo_ext 0.

Lemma root_travels_witness :
  ∃ m e' m1 est' child' out' r mc ec, demo_module = Ret (m, e') ∧
    demo_before_child m = Ret (m1, est', child', out', r) ∧ demo_child out' = Ret (mc, ec) ∧
    info_root_method (est_info mc) = Some (MkRootMethod (bytes_of_string "front.Api") (bytes_of_string "Get")) ∧
    hop_count (est_info mc) = 1%Z.
Proof.
  destruct demo_module as [[m e']|] eqn:Hm; [|by vm_compute in Hm].
  assert (Hb : (λ _, tt) <$> (demo_module ≫= λ me, demo_before_child me.1 ≫= λ r, demo_child r.1.2) =
    (λ _, tt) <$> demo_module) by (vm_compute; reflexivity).
  rewrite Hm in Hb. cbn [mbind outcome_bind fst fmap outcome_fmap] in Hb.
  destruct (demo_before_child m) as [[[[[m1 est'] child'] out'] r]|] eqn:Hc; [|done].
  cbn [mbind outcome_bind fst snd] in Hb. destruct (demo_child out') as [[mc ec]|] eqn:Hn; [|done].
  destruct (root_travels (Est:=Ewma.LatencyEwma) (Status:=bytes) 1
    (env_register (demo_env (MkFeatures true false true false))) demo_front wire_in_default demo_ext 0 m e' None mc)
    as (Hr & Hh & _ & _).
  - vm_compute. reflexivity.
  - done.
  - decided.
  - exact Hm.
  - econstructor; [|constructor].
    exists (demo_env (MkFeatures true false true false)), m1, estimators_new, est', demo_back, 12%Z,
      (Extensions.new masa_value), child', wire_out_new, out', 0%Z, 60000%Z, 60000%Z, 60000%Z, r, (λ _, 5%Z),
      (MkWireIn (header out')), demo_ext, ec, 0%Z. split; [exact Hc|]. split; [done|exact Hn].
  - exists m, e', m1, est', child', out', r, mc, ec. done.
Defined.

Lemma learned_empty : learned (∅ : gmap (MethodId * MethodId) (ParentFanoutPatterns (E:=Ewma.LatencyEwma))).
Proof. exists []. split_and!; [constructor|done|done]. Qed.

Lemma open_new t : open (Extensions.new masa_value) t.
Proof. done. Qed.

(** The estimators know nothing yet: the deadline is the parent's. *)
Lemma child_deadline_bounded_witness :
  ∃ m e' m1 est' child' out', demo_module = Ret (m, e') ∧ demo_before_child m = Ret (m1, est', child', out', Ok tt) ∧
    (50000 ≤ deadline (child_context demo_budget child') ≤ 90000)%Z.
Proof.
  assert (Hi : (λ me, (est_info me.1, est_budget me.1)) <$> demo_module =
    Ret (MkEstInfo 0 (Some (MkRootMethod (bytes_of_string "front.Api") (bytes_of_string "Get"))) (Some 3%Z), demo_budget))
    by (vm_compute; reflexivity).
  destruct demo_module as [[m e']|]; [|done]. injection Hi as Hi Hb.
  destruct (child_deadline_bounded (demo_env (MkFeatures true false true false)) m estimators_new demo_back 12
    (Extensions.new masa_value) wire_out_new 0 60000 60000 60000)
    as (m1 & est' & child' & out' & Heq & Hd & _).
  - rewrite Hi. split; [cbn; lia|decided].
  - apply learned_empty.
  - apply learned_empty.
  - exact I.
  - intros x _ _. destruct one_value as [H1 H1v]. split; [exact H1|].
    change (env_exp _ x) with f64_one. rewrite H1v. assert (Hp := pw_pos 0). lia.
  - ulia.
  - rewrite Hb. decided.
  - rewrite Hb. decided.
  - constructor.
  - apply open_new.
  - apply open_new.
  - exists m, e', m1, est', child', out'. split; [done|]. split; [exact Heq|]. rewrite Hb in Hd.
    change (e2e_deadline demo_budget) with 100000%Z in Hd. change (deadline demo_budget) with 90000%Z in Hd.
    unfold sat_sub in Hd. lia.
Defined.
