(* ===== verification/Predictive.v ===== *)
(** Predictive admission, libs/masa-policy/src/module/admission/predictive: the
    controller that admits requests at ingress with a probability it raises
    additively and lowers multiplicatively, and the feasibility check before a
    child call. Clock readings, [f64::exp] and the random numbers are arguments. *)
From stdpp Require Import sorting.
From S2P Require Export EstModule.

(** ** The admission controller *)

Record AdmissionState := MkAdmission {
  last_update : Instant;
  er_last_update : Instant;
  er_count : Z;
  window_total : Z;
  log_counter : Z;
  admit_p : f64;
}.

Definition admission_new (now : Instant) : AdmissionState := MkAdmission now now 0 0 0 f64_one.

(** [Duration::as_secs_f64] of some nanoseconds. *)
Definition as_secs_f64 (ns : Z) : f64 :=
  f64_add (f64_of_Z (ns / 1000000000)) (f64_div (f64_of_Z (ns mod 1000000000)) (f64_of_Z 1000000000)).

(** [now.duration_since(earlier).as_secs_f64()]. *)
Definition elapsed_secs (now earlier : Instant) : f64 := as_secs_f64 (Z.max 0 (now - earlier)).

(** 0.05, the window in seconds. *)
Definition WINDOW_SECS : f64 := f64_lit 5 100.

(** The step at the end of a window. *)
Definition aimd (p : PredParams) (er_sample admit_p : f64) : f64 :=
  if f64_lt (aimd_er_threshold p) er_sample then f64_max (f64_mul admit_p (aimd_beta p)) f64_zero
  else f64_min (f64_add admit_p (aimd_alpha p)) f64_one.

Definition record_outcome_for_state (p : PredParams) (now : Instant) (is_early_return : bool)
    (state : AdmissionState) : AdmissionState :=
  let total := wrap64 (window_total state + 1) in
  let ers := if is_early_return then wrap64 (er_count state + 1) else er_count state in
  let log := wrap64 (log_counter state + 1) in
  if f64_lt WINDOW_SECS (elapsed_secs now (last_update state)) then
    MkAdmission now now 0 0 log
      (aimd p (f64_div (f64_of_Z ers) (f64_of_Z total)) (admit_p state))
  else MkAdmission (last_update state) (er_last_update state) ers total log (admit_p state).

Record PredictiveAdmission := MkController {
  global_state : AdmissionState;
  states_by_root : gmap MethodId AdmissionState;
}.

Definition controller_new (now : Instant) : PredictiveAdmission := MkController (admission_new now) ∅.

Definition state_of (self : PredictiveAdmission) (root_id : MethodId) (now : Instant) : AdmissionState :=
  default (admission_new now) (states_by_root self !! root_id).

Definition record_outcome (p : PredParams) (root_id : MethodId) (is_early_return : bool) (now : Instant)
    (self : PredictiveAdmission) : PredictiveAdmission :=
  MkController (record_outcome_for_state p now is_early_return (global_state self))
    (<[root_id := record_outcome_for_state p now is_early_return (state_of self root_id now)]>
       (states_by_root self)).

(** 0.75. *)
Definition ROOT_REJECT_EXTRA_FRACTION : f64 := f64_lit 3 4.

Section admission.
  Context (exp : f64 → f64).

Definition reject_prob_for_state (p : PredParams) (now : Instant) (state : AdmissionState) : f64 :=
  let er_elapsed := elapsed_secs now (er_last_update state) in
  let idle_decay := exp (f64_div (SFopp er_elapsed) (tau_er p)) in
  f64_min (f64_mul (f64_sub f64_one (admit_p state)) idle_decay) f64_one.

Definition combined_reject_prob (global root : f64) : f64 :=
  let root_extra := f64_max (f64_sub root global) f64_zero in
  f64_min (f64_add global (f64_mul ROOT_REJECT_EXTRA_FRACTION root_extra)) f64_one.

(** [should_admit]: a root without a state gets one. *)
Definition should_admit (p : PredParams) (root_id : MethodId) (now : Instant) (coin : f64)
    (self : PredictiveAdmission) : PredictiveAdmission * bool :=
  let state := state_of self root_id now in
  let reject_prob :=
    combined_reject_prob (reject_prob_for_state p now (global_state self)) (reject_prob_for_state p now state) in
  (MkController (global_state self) (<[root_id := state]> (states_by_root self)), f64_lt reject_prob coin).
End admission.

(** ** The feasibility check *)

Definition LAMBDA : f64 := f64_of_Z 2.

Section feasibility.
  Context (exp : f64 → f64).

(** [time_left] is positive, and something is known: whether the call is shed,
    the decay, the estimates in microseconds. *)
Definition shed (now deadline time_left : Z) (decay : f64) (child_mean child_floor rem_mean rem_floor : Z)
    (coin : f64) : bool :=
  let floor_finish_us :=
    f64_add (f64_of_Z now) (f64_mul (f64_add (f64_of_Z child_floor) (f64_of_Z rem_floor)) decay) in
  if f64_lt (f64_of_Z deadline) floor_finish_us then true
  else
    let raw_finish := wrap64 (now + child_mean + rem_mean) in
    if decide (raw_finish ≤ deadline)%Z then false
    else
      let decayed_finish :=
        if f64_lt decay f64_one then
          wrap64 (now + f64_to_u64 (f64_mul (f64_add (f64_of_Z child_mean) (f64_of_Z rem_mean)) decay))
        else raw_finish in
      if decide (decayed_finish ≤ deadline)%Z then false
      else
        let overshoot := (decayed_finish - deadline)%Z in
        let ratio := f64_div (f64_of_Z overshoot) (f64_of_Z time_left) in
        let shed_prob := f64_sub f64_one (fast_exp_neg exp (f64_mul LAMBDA ratio)) in
        f64_lt coin shed_prob.

Context {Est : Type} `{Estimator Est}.

(** Whether the call is infeasible, from the time left on. *)
Definition infeasible (est : LatencyEstimators Est) (key : ParentToChildKey) (now deadline : Z) (coin : f64)
    : LatencyEstimators Est * bool :=
  let time_left := (deadline -s now)%Z in
  if decide (time_left = 0)%Z then (est, true)
  else
    let '(est, child) := child_wallclock_pack est key in
    let child := default (MkPack 0 0 0) child in
    let '(est, remaining) := est_after_child_wallclock est key time_left in
    let '(est, remaining_last_obs) := after_child_wallclock_last_obs est key in
    if decide (pack_mean child = 0 ∧ mean remaining = 0)%Z then (est, false)
    else
      let decay :=
        f64_min (decay_factor exp now (pack_last_observation_us child)) (decay_factor exp now remaining_last_obs) in
      (est, shed now deadline time_left decay (pack_mean child) (pack_floor child) (mean remaining)
              (Fanout.floor remaining) coin).
End feasibility.

(** ** The hooks *)

Definition PRED_NAME : bytes := bytes_of_string "pred_admission".

Record PredAdmissionModule := MkPred {
  pred_info : EstimationInfo;
  pred_budget : Context;
  pred_rpc : CowGrpcMethod;
  admission_checked : bool;
}.

Section hooks.
  Context {E : Base64Engine} {B : Bincode EstimationWire} {Est : Type} `{Estimator Est}.
  Context {Response Status : Type} (deadline_exceeded : bytes → Status) (is_deadline_exceeded : Status → bool).
  Context (register : CowGrpcMethod → MethodId) (exp : f64 → f64) (p : PredParams).

Notation Reply := (result Response Status).

Definition pred_new (method : CowGrpcMethod) (e : Ext) : outcome PredAdmissionModule :=
  info ← expect_some (Extensions.get masa_value e (Plain EstimationInfoType));
  budget ← info_of e;
  Ret (MkPred info budget method false).

Definition pred_root (self : PredAdmissionModule) : MethodId :=
  default (register (pred_rpc self)) (root_method_id (pred_info self)).

Definition pred_rejection (self : PredAdmissionModule) : Status :=
  deadline_exceeded (bytes_of_string "/EarlyReturn?src=" ++ guard_path (pred_rpc self)
    ++ bytes_of_string "&reason=PredAdmissionRej").

Definition bcf_error (self : PredAdmissionModule) (child : CowGrpcMethod) : Status :=
  deadline_exceeded (bytes_of_string "/EarlyReturn?src=" ++ guard_path (pred_rpc self)
    ++ bytes_of_string "?last_rpc=" ++ guard_path child ++ bytes_of_string "&reason=BeforeChildFeasibility").

Definition pred_before_poll (self : PredAdmissionModule) (c : PredictiveAdmission) (now : Instant) (coin : f64)
    : PredAdmissionModule * PredictiveAdmission * result unit Reply :=
  if negb (is_ingress (pred_info self)) then (self, c, Ok tt)
  else
    let checked := admission_checked self in
    let self := MkPred (pred_info self) (pred_budget self) (pred_rpc self) true in
    if checked then (self, c, Ok tt)
    else
      let '(c, admitted) := should_admit exp p (pred_root self) now coin c in
      (self, c, if admitted then Ok tt else Err (Err (pred_rejection self))).

Definition pred_before_child_rpc (self : PredAdmissionModule) (est : LatencyEstimators Est)
    (child_method : CowGrpcMethod) (now : Z) (coin : f64) : LatencyEstimators Est * result unit Status :=
  let child_id := register child_method in
  let parent_id := register (pred_rpc self) in
  let root_id := default parent_id (root_method_id (pred_info self)) in
  let key := MkParentToChild root_id parent_id child_id in
  let '(est, rejected) := infeasible exp est key now (e2e_deadline (pred_budget self)) coin in
  (est, if rejected then Err (bcf_error self child_method) else Ok tt).

Definition pred_after_child_rpc (self : PredAdmissionModule) (est : LatencyEstimators Est)
    (o : @ChildOutcome Response Status) (response_wire : WireIn) (clock : Z) : outcome (LatencyEstimators Est) :=
  match sent o with
  | Some (Ok _) =>
      if negb (is_ingress (pred_info self)) then Ret est
      else
        match root_method_id (pred_info self) with
        | None => Ret est
        | Some root_mid =>
            r ← Codec.get (W:=EstimationWire) response_wire EST_NAME;
            w ← expect r;
            Ret (match w ≫= Tally.response with
                 | Some report => track_subtree_compute est root_mid clock (accumulated_compute_us report)
                 | None => est
                 end)
        end
  | _ => Ret est
  end.

Definition pred_finalize (self : PredAdmissionModule) (c : PredictiveAdmission) (r : Reply)
    (o : @Stack.Outcome Status) (e : Ext) (now : Instant) : outcome PredictiveAdmission :=
  if negb (is_ingress (pred_info self)) then Ret c
  else
    let own := match o with Stack.Rejected by_ _ => bool_decide (by_ = PRED_NAME) | _ => false end in
    if own then Ret c
    else
      is_er ←
        (if is_early_return_response is_deadline_exceeded r then Ret true
         else m ← tally e; Ret (any (subtree_health m)));
      Ret (record_outcome p (pred_root self) is_er now c).
End hooks.

(** ** Probabilities *)

Definition prob (x : f64) : Prop := is_fin x ∧ (0 ≤ fv x ≤ pw 0)%Z.

(** The documented ranges of the parameters, the step bounded so that a sum is
    a number, the time constant away from the ends of the range. *)
Record params_ok (p : PredParams) : Prop := {
  alpha_ok : is_fin (aimd_alpha p) ∧ (0 ≤ fv (aimd_alpha p) ≤ pw 100)%Z;
  beta_ok : prob (aimd_beta p);
  tau_ok : is_fin (tau_er p) ∧ (pw (-100) ≤ fv (tau_er p) ≤ pw 100)%Z;
}.

Lemma prob_one : prob f64_one.
Proof. destruct one_value as [H Hv]. split; [done|]. assert (Hp := pw_pos 0). lia. Qed.

Lemma prob_zero : prob f64_zero.
Proof. split; [done|]. assert (Hp := pw_pos 0). cbn [fv f64_zero]. lia. Qed.

Lemma aimd_step p s a :
  params_ok p → prob a →
  prob (aimd p s a) ∧
  if f64_lt (aimd_er_threshold p) s then (fv (aimd p s a) ≤ fv a)%Z else (fv a ≤ fv (aimd p s a))%Z.
Proof.
  intros [[Hal Halv] [Hbe Hbev] _] [Ha Hav]. assert (Hp := pw_pos 0). assert (Hsc := scale_pos).
  unfold aimd, prob. destruct (f64_lt (aimd_er_threshold p) s).
  - destruct (mul_between a (aimd_beta p) f64_zero a) as [Hm Hmv]; [done..|rewrite pw_0 in *; cbn [fv f64_zero]; nia|].
    cbn [fv f64_zero] in Hmv. destruct (max_value _ f64_zero Hm I) as [Hx ->]. cbn [fv f64_zero].
    split; [split; [done|lia]|lia].
  - destruct (two_value 101) as [H2 H2v]; [lia|].
    assert (Hb : (fv a + fv (aimd_alpha p) ≤ pw 101)%Z).
    { rewrite (pw_split 100 101) by lia. change (2 ^ (101 - 100))%Z with 2%Z.
      assert (pw 0 ≤ pw 100)%Z by (apply pw_mono; lia). lia. }
    destruct (add_between a (aimd_alpha p) a (two 101)) as [Hs Hsv]; [done..|lia|].
    destruct one_value as [H1 H1v]. destruct (min_value _ f64_one Hs H1) as [Hx ->]. rewrite H1v.
    split; [split; [done|lia]|lia].
Qed.

(** A state of the controller after fewer than [n] outcomes. *)
Definition state_ok (n : Z) (s : AdmissionState) : Prop :=
  prob (admit_p s) ∧ (0 ≤ er_count s ≤ window_total s ∧ window_total s ≤ n)%Z.

Lemma record_outcome_ok p now er s n :
  params_ok p → state_ok n s → (0 ≤ n < u64_max)%Z →
  state_ok (n + 1) (record_outcome_for_state p now er s).
Proof.
  intros Hp [Ha Hc] Hn. unfold record_outcome_for_state. destruct (f64_lt WINDOW_SECS _).
  - split; [|cbn; lia]. by apply aimd_step.
  - split; [done|]. cbn [er_count window_total]. destruct er; rewrite !wrap64_small by ulia; lia.
Qed.

(** What an outcome does to the probability. *)
Definition closes (now : Instant) (s : AdmissionState) : bool :=
  f64_lt WINDOW_SECS (elapsed_secs now (last_update s)).

(** The fraction of early returns with an outcome counted in. *)
Definition sample (er : bool) (s : AdmissionState) : f64 :=
  f64_div (f64_of_Z (if er then er_count s + 1 else er_count s)) (f64_of_Z (window_total s + 1)).

Lemma record_outcome_admit p now er s n :
  params_ok p → state_ok n s → (0 ≤ n < u64_max)%Z →
  admit_p (record_outcome_for_state p now er s) =
    if closes now s then aimd p (sample er s) (admit_p s) else admit_p s.
Proof.
  intros Hp [Ha Hc] Hn. unfold record_outcome_for_state, sample. fold (closes now s).
  destruct (closes now s); [|done]. cbn [admit_p]. destruct er; by rewrite !wrap64_small by ulia.
Qed.

(** ** Elapsed times *)

Lemma as_secs_value ns :
  (0 ≤ ns)%Z → is_u64 (ns / 1000000000) →
  is_fin (as_secs_f64 ns) ∧ (0 ≤ fv (as_secs_f64 ns) ≤ pw 66)%Z ∧ (ns ≠ 0 → pw (-64) ≤ fv (as_secs_f64 ns))%Z.
Proof.
  intros Hns Hu. unfold as_secs_f64. set (q := (ns / 1000000000)%Z) in *. set (r := (ns mod 1000000000)%Z).
  assert (Hr : (0 ≤ r < 1000000000)%Z) by (apply Z.mod_pos_bound; lia).
  assert (Hqr := Z.div_mod ns 1000000000 ltac:(lia)). fold q r in Hqr.
  destruct (of_Z_range 1000000000) as [Hg Hgv]; [lia|ulia|]. assert (Hsc := scale_pos).
  destruct (two_value (-64)) as [Hl Hlv]; [lia|]. destruct (two_value 64) as [Hh Hhv]; [lia|].
  destruct (two_value 66) as [Hh2 Hh2v]; [lia|].
  assert (Hfrac : is_fin (f64_div (f64_of_Z r) (f64_of_Z 1000000000)) ∧
    (0 ≤ fv (f64_div (f64_of_Z r) (f64_of_Z 1000000000)) ≤ pw 64)%Z ∧
    (r ≠ 0 → pw (-64) ≤ fv (f64_div (f64_of_Z r) (f64_of_Z 1000000000)))%Z).
  { destruct (decide (r = 0)%Z) as [->|Hne].
    - change (f64_of_Z 0) with f64_zero. assert (Hp64 := pw_pos 64). assert (Hp0 := pw_pos 0).
      rewrite div_zero_l by (done || lia). cbn [fv f64_zero]. split_and!; done || lia.
    - destruct (of_Z_range r) as [Hrf Hrv]; [lia|ulia|].
      destruct (div_between (f64_of_Z r) (f64_of_Z 1000000000) (two (-64)) (two 64) 0 64 0 64) as [Hd Hdv];
        [done|done|done|done|lia|lia|done|done| |].
      { rewrite Hlv, Hhv. assert (Hm := pw_mul (-64) 64 ltac:(lia) ltac:(lia)). change (-64 + 64)%Z with 0%Z in Hm.
        assert (H64 := pw_pos (-64) ltac:(lia)). assert (H65 := pw_pos 64 ltac:(lia)). rewrite <-pw_0 in *. split.
        - etrans; [apply Z.mul_le_mono_nonneg_l; [lia|apply Hgv]|]. rewrite Hm. apply Z.mul_le_mono_nonneg_r; lia.
        - apply Z.mul_le_mono_nonneg; lia. }
      rewrite Hlv, Hhv in Hdv. assert (H64 := pw_pos (-64)). split_and!; [done|lia|lia|lia]. }
  destruct Hfrac as (Hf & Hfv & Hfl). set (fr := f64_div _ _) in *.
  destruct (of_u64_range q Hu) as [Hq Hqv].
  assert (Hge : (ns ≠ 0 → pw (-64) ≤ fv (f64_of_Z q) + fv fr)%Z).
  { intros Hne. destruct (decide (r = 0)%Z) as [Hr0|Hr0]; [|specialize (Hfl Hr0); lia].
    destruct (of_Z_range q) as [_ Hq1]; [lia|done|]. assert (pw (-64) ≤ pw 0)%Z by (apply pw_mono; lia). lia. }
  assert (Hp66 : (pw 66 = 4 * pw 64)%Z) by (rewrite (pw_split 64 66) by lia; change (2 ^ (66 - 64))%Z with 4%Z; lia).
  destruct (decide (ns = 0)%Z) as [Hz|Hz].
  - destruct (add_between (f64_of_Z q) fr f64_zero (two 66)) as [Hs Hsv]; [done..|cbn [fv f64_zero]; lia|].
    cbn [fv f64_zero] in Hsv. split_and!; [done|lia|lia|by intros ?].
  - specialize (Hge Hz). destruct (add_between (f64_of_Z q) fr (two (-64)) (two 66)) as [Hs Hsv]; [done..|lia|].
    assert (H64 := pw_pos (-64)). split_and!; [done|lia|lia|intros _; lia].
Qed.

(** The seconds between two instants fit a [u64], as they do in a [Duration]. *)
Definition in_span (now earlier : Instant) : Prop := is_u64 (Z.max 0 (now - earlier) / 1000000000).

Lemma idle_decay_prob exp p now earlier :
  exp_law exp → params_ok p → in_span now earlier →
  prob (exp (f64_div (SFopp (elapsed_secs now earlier)) (tau_er p))).
Proof.
  intros Hexp [_ _ [Ht Htv]] Hspan. unfold elapsed_secs. set (ns := Z.max 0 (now - earlier)).
  destruct (as_secs_value ns ltac:(unfold ns; lia) Hspan) as (Her & Herv & Herl).
  assert (Hp100 := pw_pos (-100)). rewrite div_opp by (done || lia).
  assert (Hq : is_fin (f64_div (as_secs_f64 ns) (tau_er p)) ∧ (0 ≤ fv (f64_div (as_secs_f64 ns) (tau_er p)))%Z).
  { destruct (decide (ns = 0)%Z) as [->|Hne].
    - change (as_secs_f64 0) with f64_zero. rewrite div_zero_l by (done || lia). by split.
    - destruct (two_value 166) as [Hh Hhv]; [lia|]. assert (Hsc := scale_pos).
      destruct (div_between (as_secs_f64 ns) (tau_er p) f64_zero (two 166) (-64) 66 (-100) 100) as [Hd Hdv];
        [done|done|done|done|lia|lia|specialize (Herl Hne); lia|done| |split; [done|cbn [fv f64_zero] in Hdv; lia]].
      rewrite Hhv. cbn [fv f64_zero]. split; [nia|].
      assert (Hm := pw_mul 166 (-100) ltac:(lia) ltac:(lia)). change (166 + -100)%Z with 66%Z in Hm.
      assert (H166 := pw_pos 166). etrans; [|apply Z.mul_le_mono_nonneg_l; [lia|apply Htv]]. rewrite Hm.
      apply Z.mul_le_mono_nonneg_r; lia. }
  apply Hexp; [apply is_fin_opp, Hq|]. rewrite fv_opp. lia.
Qed.

Lemma reject_prob_ok exp p now s :
  exp_law exp → params_ok p → prob (admit_p s) → in_span now (er_last_update s) →
  prob (reject_prob_for_state exp p now s) ∧
  (fv (admit_p s) = pw 0 → fv (reject_prob_for_state exp p now s) = 0%Z).
Proof.
  intros Hexp Hp [Ha Hav] Hspan. destruct (idle_decay_prob exp p now _ Hexp Hp Hspan) as [Hi Hiv].
  unfold reject_prob_for_state. set (idle := exp _) in *. destruct one_value as [H1 H1v].
  assert (Hsc := scale_pos). assert (Hp0 := pw_pos 0).
  destruct (sub_between f64_one (admit_p s) f64_zero f64_one) as [Hs Hsv];
    [done..|rewrite H1v; cbn [fv f64_zero]; lia|]. rewrite H1v in Hsv. cbn [fv f64_zero] in Hsv.
  destruct (mul_between (f64_sub f64_one (admit_p s)) idle f64_zero f64_one) as [Hm Hmv];
    [done..|rewrite H1v; cbn [fv f64_zero]; rewrite pw_0 in *; nia|]. rewrite H1v in Hmv. cbn [fv f64_zero] in Hmv.
  destruct (min_value _ f64_one Hm H1) as [Hx Hxv]. unfold prob. rewrite Hxv, H1v. split; [split; [done|lia]|].
  intros Hone.
  destruct (sub_between f64_one (admit_p s) f64_zero f64_zero) as [_ Hsv0];
    [done..|rewrite H1v; cbn [fv f64_zero]; lia|]. cbn [fv f64_zero] in Hsv0.
  destruct (mul_between (f64_sub f64_one (admit_p s)) idle f64_zero f64_zero) as [_ Hmv0];
    [done..|cbn [fv f64_zero]; nia|]. cbn [fv f64_zero] in Hmv0. lia.
Qed.

Lemma combined_ok g r :
  prob g → prob r →
  let c := combined_reject_prob g r in
  prob c ∧ (fv g ≤ fv c)%Z ∧ ((fv r ≤ fv g)%Z → fv c = fv g).
Proof.
  intros [Hg Hgv] [Hr Hrv]. unfold combined_reject_prob. destruct one_value as [H1 H1v]. assert (Hsc := scale_pos).
  assert (Hp0 := pw_pos 0). destruct (two_value 1) as [H2 H2v]; [lia|].
  assert (Hp1 : (pw 1 = 2 * pw 0)%Z) by (rewrite (pw_split 0 1) by lia; change (2 ^ (1 - 0))%Z with 2%Z; lia).
  assert (Hx : is_fin ROOT_REJECT_EXTRA_FRACTION ∧ (0 ≤ fv ROOT_REJECT_EXTRA_FRACTION ≤ pw 0)%Z)
    by (apply below_spec; vm_compute; reflexivity). destruct Hx as [Hx Hxv].
  destruct (sub_between r g (SFopp f64_one) f64_one) as [Hs Hsv];
    [done|done|by apply is_fin_opp|done|rewrite fv_opp, H1v; lia|].
  rewrite fv_opp, H1v in Hsv. destruct (max_value _ f64_zero Hs I) as [He Hev]. cbn [fv f64_zero] in Hev.
  set (extra := f64_max (f64_sub r g) f64_zero) in *.
  destruct (mul_between ROOT_REJECT_EXTRA_FRACTION extra f64_zero f64_one) as [Hm Hmv];
    [done..|rewrite H1v; cbn [fv f64_zero]; rewrite pw_0 in *; nia|]. rewrite H1v in Hmv. cbn [fv f64_zero] in Hmv.
  destruct (add_between g (f64_mul ROOT_REJECT_EXTRA_FRACTION extra) g (two 1)) as [Ha Hav]; [done..|lia|].
  destruct (min_value _ f64_one Ha H1) as [Hc Hcv]. cbv zeta. unfold prob. rewrite Hcv, H1v.
  split; [split; [done|lia]|]. split; [lia|]. intros Hle.
  destruct (sub_between r g (SFopp f64_one) f64_zero) as [_ Hsv0];
    [done|done|by apply is_fin_opp|done|rewrite fv_opp, H1v; cbn [fv f64_zero]; lia|]. cbn [fv f64_zero] in Hsv0.
  destruct (mul_between ROOT_REJECT_EXTRA_FRACTION extra f64_zero f64_zero) as [_ Hmv0];
    [done..|cbn [fv f64_zero]; nia|]. cbn [fv f64_zero] in Hmv0.
  destruct (add_between g (f64_mul ROOT_REJECT_EXTRA_FRACTION extra) g g) as [_ Hav0]; [done..|lia|]. lia.
Qed.

(** ** The controller over time *)

(** What [finalize] has recorded: the root, whether it was an early return, when. *)
Definition outcomes (p : PredParams) (history : list (MethodId * bool * Instant)) (c : PredictiveAdmission)
    : PredictiveAdmission :=
  foldl (λ c o, record_outcome p o.1.1 o.1.2 o.2 c) c history.

Definition is_state (c : PredictiveAdmission) (s : AdmissionState) : Prop :=
  s = global_state c ∨ ∃ root, states_by_root c !! root = Some s.

Lemma state_ok_mono n n' s : (n ≤ n')%Z → state_ok n s → state_ok n' s.
Proof. intros ? [??]. split; [done|lia]. Qed.

Lemma admission_new_ok n now : (0 ≤ n)%Z → state_ok n (admission_new now).
Proof. split; [apply prob_one|]. cbn. lia. Qed.

Lemma state_of_ok n c root now :
  (0 ≤ n)%Z → (∀ s, is_state c s → state_ok n s) → state_ok n (state_of c root now).
Proof.
  intros Hn Hc. unfold state_of. destruct (states_by_root c !! root) as [s|] eqn:Hs; [|by apply admission_new_ok].
  apply Hc. right. by exists root.
Qed.

Lemma outcomes_ok p history c n :
  params_ok p → (0 ≤ n)%Z → (n + Z.of_nat (length history) < u64_max)%Z → (∀ s, is_state c s → state_ok n s) →
  ∀ s, is_state (outcomes p history c) s → state_ok (n + Z.of_nat (length history)) s.
Proof.
  intros Hp. revert c n. induction history as [|[[root er] now] history IH]; intros c n Hn Hl Hc.
  - intros s Hs. apply (state_ok_mono n); [lia|by apply Hc].
  - cbn [outcomes foldl length] in *. intros s Hs. fold (outcomes p history) in Hs.
    replace (n + Z.of_nat (S (length history)))%Z with (n + 1 + Z.of_nat (length history))%Z by lia.
    eapply (IH _ (n + 1)%Z); [lia|lia| |exact Hs]. intros s' [->|[root' Hr]].
    + apply record_outcome_ok; [done| |lia]. apply Hc. by left.
    + cbn [record_outcome states_by_root fst snd] in Hr. destruct (decide (root' = root)) as [->|Hne].
      * rewrite lookup_insert_eq in Hr. injection Hr as <-. apply record_outcome_ok; [done| |lia].
        by apply state_of_ok.
      * rewrite lookup_insert_ne in Hr by done. apply (state_ok_mono n); [lia|]. apply Hc. right. by exists root'.
Qed.

(** C30: The controller's numbers stay probabilities. Whatever outcomes have been
    recorded and at whatever times, the admission probability of the global
    state and of every root is between 0 and 1; an outcome changes it only when
    it closes a window, never up when the fraction of early returns is above
    the threshold and never down otherwise. The probability a request is
    rejected with is between 0 and 1 and at least the global one, and it is 0
    while both states are fully open. *)
Theorem admission_probability_bounded exp p start history :
  exp_law exp → params_ok p → (Z.of_nat (length history) < u64_max)%Z →
  let c := outcomes p history (controller_new start) in
  (∀ s, is_state c s →
    prob (admit_p s) ∧ (0 ≤ er_count s ≤ window_total s)%Z ∧
    ∀ now er, let a := admit_p (record_outcome_for_state p now er s) in
      prob a ∧
      if closes now s then
        if f64_lt (aimd_er_threshold p) (sample er s) then (fv a ≤ fv (admit_p s))%Z else (fv (admit_p s) ≤ fv a)%Z
      else a = admit_p s) ∧
  ∀ root now coin, let s := state_of c root now in
    in_span now (er_last_update (global_state c)) → in_span now (er_last_update s) →
    ∃ r, (should_admit exp p root now coin c).2 = f64_lt r coin ∧ prob r ∧
      (fv (reject_prob_for_state exp p now (global_state c)) ≤ fv r)%Z ∧
      (fv (admit_p (global_state c)) = pw 0 → fv (admit_p s) = pw 0 → fv r = 0%Z).
Proof.
  intros Hexp Hp Hl c. set (n := Z.of_nat (length history)) in *.
  assert (Hc : ∀ s, is_state c s → state_ok n s).
  { intros s Hs. apply (outcomes_ok p history (controller_new start) 0); [done|lia|unfold n in *; lia| |done].
    intros s' [->|[root Hr]]; [by apply admission_new_ok|].
    change (states_by_root (controller_new start)) with (∅ : gmap MethodId AdmissionState) in Hr.
    by rewrite lookup_empty in Hr. }
  assert (Hn : (0 ≤ n)%Z) by (unfold n; lia). split.
  - intros s Hs. destruct (Hc s Hs) as [Ha Hct]. split; [done|]. split; [lia|]. intros now er. cbv zeta.
    rewrite (record_outcome_admit p now er s n) by done.
    destruct (aimd_step p (sample er s) (admit_p s) Hp Ha) as [Hpr Hd]. by destruct (closes now s).
  - intros root now coin s Hspan Hspans. unfold should_admit. fold s. cbn [snd].
    destruct (Hc (global_state c) (or_introl eq_refl)) as [Hg _].
    destruct (state_of_ok n c root now Hn Hc) as [Hs _]. fold s in Hs.
    destruct (reject_prob_ok exp p now _ Hexp Hp Hg Hspan) as [Hrg Hg0].
    destruct (reject_prob_ok exp p now s Hexp Hp Hs Hspans) as [Hrs Hs0].
    destruct (combined_ok _ _ Hrg Hrs) as (Hpr & Hge & Heq). eexists. split; [done|]. split; [done|]. split; [done|].
    intros H1 H2. rewrite Heq by (rewrite Hg0, Hs0; done). by apply Hg0.
Qed.

(** ** Admission reopens *)

(** The windows some outcomes close, if none of them is overloaded. *)
Fixpoint healthy_windows (p : PredParams) (s : AdmissionState) (os : list (bool * Instant)) : option Z :=
  match os with
  | [] => Some 0%Z
  | (er, now) :: os =>
      let s' := record_outcome_for_state p now er s in
      if closes now s then
        if f64_lt (aimd_er_threshold p) (sample er s) then None
        else n ← healthy_windows p s' os; Some (n + 1)%Z
      else healthy_windows p s' os
  end.

Definition state_after (p : PredParams) (s : AdmissionState) (os : list (bool * Instant)) : AdmissionState :=
  foldl (λ s o, record_outcome_for_state p o.2 o.1 s) s os.

Lemma aimd_rises p s a j k :
  params_ok p → prob a → (0 ≤ j ≤ 40)%Z → (pw (- j) ≤ fv (aimd_alpha p))%Z →
  f64_lt (aimd_er_threshold p) s = false → (0 ≤ k ≤ 2 ^ j)%Z → (k * pw (- j) ≤ fv a)%Z →
  (Z.min (2 ^ j) (k + 1) * pw (- j) ≤ fv (aimd p s a))%Z.
Proof.
  intros Hp [Ha Hav] Hj Hal Hs Hk Hle. assert (Hst := aimd_step p s a Hp (conj Ha Hav)). rewrite Hs in Hst.
  destruct Hst as [_ Hup]. destruct (decide (k = 2 ^ j)%Z) as [->|Hne]; [rewrite Z.min_l by lia; lia|].
  rewrite Z.min_r by lia. unfold aimd. rewrite Hs.
  assert (H40 : (2 ^ j ≤ 2 ^ 40)%Z) by (apply Z.pow_le_mono_r; lia).
  destruct (dyadic (k + 1) (- j)) as (x & Hx & Hxv); [split; [lia|]; eapply Z.le_lt_trans; [|by apply (Z.pow_lt_mono_r 2 40 53)]; lia|lia|].
  destruct Hp as [[Hf Hfv] _ _]. destruct (two_value 101) as [H2 H2v]; [lia|].
  assert (Hp0 : (pw 0 = 2 ^ j * pw (- j))%Z).
  { rewrite (pw_split (- j) 0) by lia. replace (0 - - j)%Z with j by lia. lia. }
  assert (Hpj := pw_pos (- j)). 
  assert (Hb : (fv a + fv (aimd_alpha p) ≤ pw 101)%Z).
  { rewrite (pw_split 100 101) by lia. change (2 ^ (101 - 100))%Z with 2%Z.
    assert (pw 0 ≤ pw 100)%Z by (apply pw_mono; lia). lia. }
  destruct (add_between a (aimd_alpha p) x (two 101)) as [Hs' Hsv]; [done..|rewrite Hxv; lia|].
  destruct one_value as [H1 H1v]. destruct (min_value _ f64_one Hs' H1) as [_ ->]. rewrite H1v, Hxv in *. nia.
Qed.

Lemma healthy_rises p s os j k n m :
  params_ok p → state_ok m s → (0 ≤ m)%Z → (m + Z.of_nat (length os) < u64_max)%Z →
  (0 ≤ j ≤ 40)%Z → (pw (- j) ≤ fv (aimd_alpha p))%Z → (0 ≤ k ≤ 2 ^ j)%Z → (k * pw (- j) ≤ fv (admit_p s))%Z →
  healthy_windows p s os = Some n →
  (0 ≤ n)%Z ∧ prob (admit_p (state_after p s os)) ∧
  (Z.min (2 ^ j) (k + n) * pw (- j) ≤ fv (admit_p (state_after p s os)))%Z.
Proof.
  intros Hp. revert s k n m. induction os as [|[er now] os IH]; intros s k n m Hok Hm Hl Hj Hal Hk Hle Hh.
  - injection Hh as <-. split; [done|]. split; [apply Hok|]. rewrite Z.add_0_r, Z.min_r by lia. done.
  - cbn [healthy_windows state_after foldl length] in *. fold (state_after p) in *. 
    assert (Hok' := record_outcome_ok p now er s m Hp Hok ltac:(lia)).
    assert (Ha := record_outcome_admit p now er s m Hp Hok ltac:(lia)).
    set (s' := record_outcome_for_state p now er s) in *. destruct (closes now s).
    + destruct (f64_lt (aimd_er_threshold p) (sample er s)) eqn:Hs; [done|].
      destruct (healthy_windows p s' os) as [n'|] eqn:Hn; [|done]. injection Hh as <-.
      assert (Hr := aimd_rises p (sample er s) (admit_p s) j k Hp (proj1 Hok) Hj Hal Hs Hk Hle). rewrite <-Ha in Hr.
      destruct (IH s' (Z.min (2 ^ j) (k + 1)) n' (m + 1)%Z) as (H0 & Hpr & Hge); [done|lia|lia|done|done|lia|done|done|].
      split; [lia|]. split; [done|]. assert (Hpj := pw_pos (- j)).
      etrans; [|exact Hge]. apply Z.mul_le_mono_nonneg_r; lia.
    + rewrite <-Ha in Hle. by apply (IH s' k n (m + 1)%Z); [|lia|lia|..].
Qed.

(** Admission reopens after an overload. If the additive step is at least
    2^-j, then once 2^j windows have closed without the early returns being
    above the threshold, the state's admission probability is 1, wherever it
    had fallen to and however many outcomes the windows hold. *)
Theorem admission_reopens p s os j n m :
  params_ok p → state_ok m s → (0 ≤ m)%Z → (m + Z.of_nat (length os) < u64_max)%Z →
  (0 ≤ j ≤ 40)%Z → (pw (- j) ≤ fv (aimd_alpha p))%Z →
  healthy_windows p s os = Some n → (2 ^ j ≤ n)%Z →
  fv (admit_p (state_after p s os)) = pw 0.
Proof.
  intros Hp Hok Hm Hl Hj Hal Hh Hn. assert (Hpj := pw_pos (- j)).
  assert (H2 : (0 < 2 ^ j)%Z) by (apply Z.pow_pos_nonneg; lia).
  destruct (healthy_rises p s os j 0 n m) as (_ & [_ Hpr] & Hge);
    [done|done|done|done|done|done|lia|destruct Hok as [[_ [? _]] _]; lia|done|].
  rewrite Z.min_l in Hge by lia.
  assert (Hp0 : (pw 0 = 2 ^ j * pw (- j))%Z).
  { rewrite (pw_split (- j) 0) by lia. replace (0 - - j)%Z with j by lia. lia. }
  lia.
Qed.

(** ** The gates *)

Lemma of_Z_add a b :
  (0 ≤ a)%Z → (0 ≤ b)%Z → (a + b < 2 ^ 53)%Z →
  is_fin (f64_add (f64_of_Z a) (f64_of_Z b)) ∧ fv (f64_add (f64_of_Z a) (f64_of_Z b)) = zv (a + b).
Proof.
  intros Ha Hb Hab. destruct (of_Z_exact a) as [Hfa Hva]; [lia|]. destruct (of_Z_exact b) as [Hfb Hvb]; [lia|].
  destruct (of_Z_exact (a + b)) as [Hf Hv]; [lia|].
  destruct (add_between (f64_of_Z a) (f64_of_Z b) (f64_of_Z (a + b)) (f64_of_Z (a + b))) as [Hs Hsv];
    [done..|rewrite Hva, Hvb, Hv; unfold zv; lia|]. split; [done|]. lia.
Qed.

Lemma scaled_between a b d :
  (0 ≤ a)%Z → (0 ≤ b)%Z → (a + b < 2 ^ 53)%Z → prob d →
  let x := f64_mul (f64_add (f64_of_Z a) (f64_of_Z b)) d in
  is_fin x ∧ (0 ≤ fv x ≤ zv (a + b))%Z ∧ (fv d = 0 → fv x = 0)%Z.
Proof.
  intros Ha Hb Hab [Hd Hdv]. destruct (of_Z_add a b Ha Hb Hab) as [Hs Hsv]. cbv zeta. set (s := f64_add _ _) in *.
  assert (Hz : (0 ≤ zv (a + b))%Z) by (unfold zv; assert (Hp := pw_pos 0); nia). assert (Hsc := scale_pos).
  destruct (mul_between s d f64_zero s) as [Hm Hmv]; [done..|rewrite Hsv; rewrite pw_0 in *; cbn [fv f64_zero]; nia|].
  rewrite Hsv in Hmv. cbn [fv f64_zero] in Hmv. split; [done|]. split; [lia|]. intros H0.
  destruct (mul_between s d f64_zero f64_zero) as [_ Hmv0]; [done..|rewrite H0; cbn [fv f64_zero]; lia|].
  cbn [fv f64_zero] in Hmv0. lia.
Qed.

(** The first gate lets through what fits. *)
Lemma floor_gate now deadline x :
  (0 ≤ now ≤ deadline)%Z → (deadline < 2 ^ 53)%Z → is_fin x → (0 ≤ fv x)%Z → (zv now + fv x ≤ zv deadline)%Z →
  f64_lt (f64_of_Z deadline) (f64_add (f64_of_Z now) x) = false.
Proof.
  intros Hn Hd Hx Hx0 Hle. destruct (of_Z_exact now) as [Hfn Hvn]; [lia|].
  destruct (of_Z_exact deadline) as [Hfd Hvd]; [lia|].
  destruct (add_between (f64_of_Z now) x (f64_of_Z now) (f64_of_Z deadline)) as [Hs Hsv];
    [done..|rewrite Hvn, Hvd; lia|].
  destruct (f64_lt _ _) eqn:Hlt; [|done]. apply lt_value in Hlt; [|done..]. lia.
Qed.

Section gates.
  Context (exp : f64 → f64) (now deadline : Z) (decay : f64) (cm cf rm rf : Z) (coin : f64).
  Context (Hnow : (0 ≤ now < deadline)%Z) (Hdl : (deadline < 2 ^ 53)%Z).
  Context (Hcm : (0 ≤ cm < 2 ^ 51)%Z) (Hcf : (0 ≤ cf < 2 ^ 51)%Z) (Hrm : (0 ≤ rm < 2 ^ 51)%Z) (Hrf : (0 ≤ rf < 2 ^ 51)%Z).
  Context (Hdecay : prob decay).

Notation shed' := (shed exp now deadline (deadline - now) decay cm cf rm rf coin).

Lemma raw_finish_small : wrap64 (now + cm + rm) = (now + cm + rm)%Z.
Proof using Hnow Hdl Hcm Hrm. apply wrap64_small. ulia. Qed.

Lemma shed_fits : (cf ≤ cm)%Z → (rf ≤ rm)%Z → (now + cm + rm ≤ deadline)%Z → shed' = false.
Proof using Hnow Hdl Hcm Hcf Hrm Hrf Hdecay.
  intros Hc Hr Hfit. unfold shed. destruct (scaled_between cf rf decay) as (Hx & Hxv & _); [lia|lia|lia|done|].
  rewrite floor_gate; [|lia|done|done|lia|].
  - rewrite raw_finish_small. by rewrite decide_True by done.
  - assert (zv (cf + rf) ≤ zv (deadline - now))%Z by (apply zv_mono; lia). unfold zv in *. lia.
Qed.

Lemma shed_stale : fv decay = 0%Z → shed' = false.
Proof using Hnow Hdl Hcm Hcf Hrm Hrf Hdecay.
  intros H0. unfold shed. destruct (scaled_between cf rf decay) as (Hx & Hxv & Hx0); [lia|lia|lia|done|].
  destruct (scaled_between cm rm decay) as (Hy & Hyv & Hy0); [lia|lia|lia|done|]. specialize (Hx0 H0). specialize (Hy0 H0).
  rewrite floor_gate; [|lia|done|done|lia|rewrite Hx0; assert (Hz := zv_mono now deadline); lia].
  rewrite raw_finish_small. destruct (decide _) as [|_]; [done|].
  assert (Hlt : f64_lt decay f64_one = true).
  { destruct one_value as [H1 H1v]. apply lt_value; [apply Hdecay|done|]. rewrite H0, H1v. apply pw_pos. lia. }
  rewrite Hlt.
  assert (Hu : f64_to_u64 (f64_mul (f64_add (f64_of_Z cm) (f64_of_Z rm)) decay) = 0%Z).
  { assert (Hz : zv 0 = 0%Z) by done. assert (Hb := to_u64_between _ 0 0 Hy ltac:(lia) ltac:(ulia)). lia. }
  rewrite Hu, Z.add_0_r, wrap64_small by ulia. by rewrite decide_True by lia.
Qed.

(** A ratio of 25 sheds whatever the coin. *)
Lemma shed_certain :
  decay = f64_one → (25 * (deadline - now) ≤ now + cm + rm - deadline)%Z → f64_lt coin f64_one = true → shed' = true.
Proof using Hnow Hdl Hcm Hrm Hdecay.
  intros -> Hover Hcoin. unfold shed. destruct (f64_lt (f64_of_Z deadline) _); [done|].
  rewrite raw_finish_small, decide_False by lia. change (f64_lt f64_one f64_one) with false. cbv iota.
  rewrite decide_False by lia. set (over := (now + cm + rm - deadline)%Z) in *. set (left := (deadline - now)%Z) in *.
  destruct (of_Z_range over) as [Ho Hov]; [lia|ulia|]. destruct (of_Z_range left) as [Hl Hlv]; [lia|ulia|].
  destruct (of_Z_exact over) as [_ Hoe]; [lia|]. destruct (of_Z_exact left) as [_ Hle]; [lia|].
  destruct (of_Z_exact 25) as [H25 H25v]; [lia|]. destruct (two_value 64) as [H64 H64v]; [lia|].
  assert (Hsc := scale_pos). assert (Hp0 := pw_pos 0).
  destruct (div_between (f64_of_Z over) (f64_of_Z left) (f64_of_Z 25) (two 64) 0 64 0 64) as [Hr Hrv];
    [done|done|done|done|lia|lia|done|done| |].
  { rewrite H64v, H25v, Hle. unfold zv in *. rewrite pw_0 in *. split; [rewrite Hoe; nia|].
    rewrite Hle in Hlv. nia. }
  rewrite H25v, H64v in Hrv. set (ratio := f64_div _ _) in *.
  destruct (of_Z_exact 2) as [H2 H2v]; [lia|]. destruct (of_Z_exact 50) as [H50 H50v]; [lia|].
  destruct (two_value 66) as [H66 H66v]; [lia|].
  assert (Hp66 : (pw 66 = 4 * pw 64)%Z) by (rewrite (pw_split 64 66) by lia; change (2 ^ (66 - 64))%Z with 4%Z; lia).
  destruct (mul_between LAMBDA ratio (f64_of_Z 50) (two 66)) as [Hm Hmv]; [done..| |].
  { unfold LAMBDA. rewrite H2v, H50v, H66v. unfold zv in *. rewrite pw_0 in *. assert (Hp64 := pw_pos 64). nia. }
  unfold fast_exp_neg. rewrite (proj2 (le_value _ _ H50 Hm)) by lia.
  change (f64_sub f64_one f64_zero) with f64_one. done.
Qed.
End gates.

Section check.
  Context {Est : Type} `{Estimator Est} `{!EstimatorTyped Est} `{!FreshEstimator Est}.

(** What is known of a child's own time, and when the time after it was last
    observed. *)
Definition known_child (est : LatencyEstimators Est) (key : ParentToChildKey) : EstimatesPack :=
  let e := estimator_at (child_wallclock est) key in
  if has_estimate e then MkPack (mean_estimate e) (mean_floor_estimate e) (last_observation_us e) else MkPack 0 0 0.

Definition known_last (est : LatencyEstimators Est) (key : ParentToChildKey) : Z :=
  let e := estimator_at (after_child_wallclock est) key in
  if has_estimate e then last_observation_us e else 0%Z.

Lemma infeasible_eq exp est key now deadline coin :
  (infeasible exp est key now deadline coin).2 =
    let time_left := (deadline -s now)%Z in
    let child := known_child est key in
    let rem := legacy_estimate est key time_left in
    if decide (time_left = 0)%Z then true
    else if decide (pack_mean child = 0 ∧ mean rem = 0)%Z then false
    else
      shed exp now deadline time_left
        (f64_min (decay_factor exp now (pack_last_observation_us child)) (decay_factor exp now (known_last est key)))
        (pack_mean child) (pack_floor child) (mean rem) (Fanout.floor rem) coin.
Proof.
  unfold infeasible. cbv zeta. destruct (decide (deadline -s now = 0)%Z); [done|].
  unfold child_wallclock_pack, get_estimates_pack.
  destruct (get_estimate_with_spec (child_wallclock est) key
    (λ e, MkPack (mean_estimate e) (mean_floor_estimate e) (last_observation_us e))) as [Hc _].
  destruct (get_estimate_with (child_wallclock est) key _) as [m1 o1]. cbn [snd] in Hc. subst o1.
  set (est1 := set_child m1 est).
  destruct (est_after_child_wallclock_spec est1 key (deadline -s now)) as [Hr Hk]; [unfold sat_sub; lia|].
  destruct (est_after_child_wallclock est1 key (deadline -s now)) as [est2 rem]. cbn [fst snd] in *. subst rem.
  unfold after_child_wallclock_last_obs, get_estimates_pack.
  destruct (get_estimate_with_spec (after_child_wallclock est2) key
    (λ e, MkPack (mean_estimate e) (mean_floor_estimate e) (last_observation_us e))) as [Hl _].
  destruct (get_estimate_with (after_child_wallclock est2) key _) as [m3 o3]. cbn [snd] in Hl. subst o3.
  destruct Hk as [Hk _]. rewrite Hk.
  change (legacy_estimate est1 key (deadline -s now)) with (legacy_estimate est key (deadline -s now)).
  change (after_child_wallclock est1) with (after_child_wallclock est).
  assert (Hpack : default (MkPack 0 0 0) (if has_estimate (estimator_at (child_wallclock est) key)
    then Some (MkPack (mean_estimate (estimator_at (child_wallclock est) key))
      (mean_floor_estimate (estimator_at (child_wallclock est) key))
      (last_observation_us (estimator_at (child_wallclock est) key))) else None) = known_child est key)
    by (unfold known_child; by destruct (has_estimate _)).
  rewrite Hpack. destruct (decide _); [done|]. cbn [snd]. unfold known_last.
  by destruct (has_estimate (estimator_at (after_child_wallclock est) key)).
Qed.

(** 250 s and 200 ms, in microseconds. *)
Definition STALE_US : Z := 250000000.

Lemma decay_stale exp now last :
  is_u64 now → is_u64 last → (STALE_US ≤ now - last)%Z → decay_factor exp now last = f64_zero.
Proof.
  unfold STALE_US. intros Hn Hl Hage. unfold decay_factor. rewrite decide_False by (unfold DECAY_THRESHOLD_US; ulia).
  destruct (of_Z_range (now -s last)) as [Ha Hav]; [ulia|ulia|].
  destruct (of_Z_range 5000000) as [Ht Htv]; [lia|ulia|]. destruct (of_Z_exact 50) as [H50 H50v]; [lia|].
  destruct (of_Z_exact 5000000) as [_ Hte]; [lia|]. destruct (of_Z_exact STALE_US) as [Hs Hsv]; [unfold STALE_US; lia|].
  destruct (two_value 64) as [H64 H64v]; [lia|]. assert (Hsc := scale_pos). assert (Hp0 := pw_pos 0).
  assert (Hge : (zv STALE_US ≤ fv (f64_of_Z (now -s last)))%Z).
  { rewrite <-Hsv. apply (of_Z_between (now -s last) (f64_of_Z STALE_US) (two 64)); [done..|].
    rewrite Hsv, H64v. split; [apply zv_mono; unfold STALE_US; ulia|apply zv_of_range; ulia]. }
  destruct (div_between (f64_of_Z (now -s last)) TAU_DECAY_US (f64_of_Z 50) (two 64) 0 64 0 64 Ha Ht) as [Hq Hqv];
    [done|done|lia|lia|done|done| |].
  { rewrite H64v, H50v. unfold TAU_DECAY_US. split.
    - rewrite Hte. unfold zv, STALE_US in *. rewrite pw_0 in *. nia.
    - rewrite pw_0 in *. nia. }
  unfold fast_exp_neg. by rewrite (proj2 (le_value _ _ H50 Hq)) by lia.
Qed.

Lemma decay_fresh exp now last : (now - last ≤ DECAY_THRESHOLD_US)%Z → decay_factor exp now last = f64_one.
Proof. intros H'. unfold decay_factor. rewrite decide_True; [done|]. unfold DECAY_THRESHOLD_US, sat_sub in *. lia. Qed.

(** What the feasibility check decides. A call with no time left is shed. One
    with time left goes ahead when nothing is known of the child, when the
    estimates fit before the deadline, and also, whatever the estimates say,
    when one side has not been observed for 250 s: no estimate locks a call out
    for good. But fresh estimates that overshoot the deadline by 25 times the
    time left shed every call, whatever the coin. *)
Theorem feasibility_gates exp (est : LatencyEstimators Est) key now deadline coin :
  exp_law exp → (0 ≤ now < 2 ^ 53)%Z → (0 ≤ deadline < 2 ^ 51)%Z →
  let child := known_child est key in
  let left := (deadline -s now)%Z in
  let rem := legacy_estimate est key left in
  let total := (pack_mean child + mean rem)%Z in
  let ages := [now - pack_last_observation_us child; now - known_last est key]%Z in
  (pack_mean child < 2 ^ 51)%Z → (pack_floor child < 2 ^ 51)%Z →
  let shed := (infeasible exp est key now deadline coin).2 in
  ((deadline ≤ now)%Z → shed = true) ∧
  ((now < deadline)%Z →
    ((total = 0)%Z → shed = false) ∧
    ((pack_floor child ≤ pack_mean child)%Z → (Fanout.floor rem ≤ mean rem)%Z → (now + total ≤ deadline)%Z → shed = false) ∧
    (Exists (λ age, STALE_US ≤ age)%Z ages → shed = false) ∧
    (Forall (λ age, age ≤ DECAY_THRESHOLD_US)%Z ages → (25 * left ≤ now + total - deadline)%Z →
      f64_lt coin f64_one = true → shed = true)).
Proof.
  intros Hexp Hn Hd child left rem total ages Hcm Hcf sh. unfold sh. rewrite infeasible_eq. cbv zeta. fold child left rem.
  split. { intros Hle. rewrite decide_True; [done|]. unfold left, sat_sub. lia. }
  intros Hlt. assert (Hleft : left = (deadline - now)%Z) by (unfold left, sat_sub; lia).
  rewrite decide_False by lia.
  assert (Hchild : is_u64 (pack_mean child) ∧ is_u64 (pack_floor child) ∧ is_u64 (pack_last_observation_us child)).
  { unfold child, known_child. destruct (has_estimate _); cbn; [|split_and!; ulia].
    split_and!; [apply mean_typed|apply floor_typed|apply last_observation_typed]. }
  destruct Hchild as ([Hm0 _] & [Hf0 _] & Hlast).
  assert (Hklast : is_u64 (known_last est key)).
  { unfold known_last. destruct (has_estimate _); [apply last_observation_typed|ulia]. }
  destruct (legacy_capped est key left) as (_ & Hrm & Hrf); [unfold left; ulia|]. fold rem in Hrm, Hrf.
  set (decay := f64_min _ _).
  destruct (decay_factor_between exp now (pack_last_observation_us child) Hexp ltac:(ulia) Hlast) as [Hd1 Hd1v].
  destruct (decay_factor_between exp now (known_last est key) Hexp ltac:(ulia) Hklast) as [Hd2 Hd2v].
  destruct (min_value _ _ Hd1 Hd2) as [Hdec Hdecv]. fold decay in Hdec, Hdecv.
  assert (Hprob : prob decay) by (split; [done|lia]). rewrite Hleft in *. unfold total in *.
  split_and!.
  - intros Ht. rewrite decide_True; [done|lia].
  - intros Hfc Hfr Hfit. destruct (decide _); [done|]. apply shed_fits; done || lia.
  - intros Hst. destruct (decide _); [done|]. apply shed_stale; try (done || lia).
    rewrite Hdecv. cbn [ages] in Hst. unfold ages in Hst.
    apply Exists_cons in Hst as [Hst|[Hst|[]%Exists_nil]%Exists_cons].
    + assert (Hz := decay_stale exp now _ ltac:(ulia) Hlast Hst). rewrite Hz in *. cbn [fv f64_zero] in *. lia.
    + assert (Hz := decay_stale exp now _ ltac:(ulia) Hklast Hst). rewrite Hz in *. cbn [fv f64_zero] in *. lia.
  - intros [Hf1 [Hf2 _]%Forall_cons]%Forall_cons Hover Hcoin.
    rewrite decide_False by lia. apply shed_certain; try (done || lia).
    unfold decay. by rewrite !decay_fresh by done.
Qed.
End check.

(** ** Examples *)

Lemma pred_params_default_ok : params_ok pred_params_default.
Proof.
  split.
  - apply below_spec. vm_compute. reflexivity.
  - apply below_spec. vm_compute. reflexivity.
  - destruct (above_spec (-100) (f64_lit 2 1)) as [H1 H2]; [vm_compute; reflexivity|].
    destruct (below_spec 100 (f64_lit 2 1)) as [_ [_ H3]]; [vm_compute; reflexivity|]. split; [exact H1|].
    change (tau_er pred_params_default) with (f64_lit 2 1). lia.
Qed.

Lemma exp_one : exp_law (λ _, f64_one).
Proof. intros x _ _. destruct prob_one as [H1 H2]. by split. Qed.

Definition demo_history : list (MethodId * bool * Instant) :=
  [(1, true, 60000000); (1, true, 120000000); (2, false, 180000000)]%Z.

Lemma admission_probability_bounded_witness :
  let c := outcomes pred_params_default demo_history (controller_new 0) in
  prob (admit_p (global_state c)) ∧
  ∃ r, (should_admit (λ _, f64_one) pred_params_default 3 200000000 f64_one c).2 = f64_lt r f64_one ∧ prob r.
Proof.
  intros c.
  destruct (admission_probability_bounded (λ _, f64_one) pred_params_default 0 demo_history exp_one pred_params_default_ok)
    as [Hs Hr]; [done|]. fold c in Hs, Hr. split; [exact (proj1 (Hs (global_state c) (or_introl eq_refl)))|].
  destruct (Hr 3%Z 200000000%Z f64_one) as (r & He & Hp & _); [unfold in_span; decided..|].
  exists r. split; [exact He|exact Hp].
Defined.

(** 32 windows of 60 ms with an admitted request each, from a closed state. *)
Definition demo_closed : AdmissionState := MkAdmission 0 0 0 0 0 f64_zero.
Definition demo_healthy : list (bool * Instant) := (λ k : nat, (false, (60000000 * (Z.of_nat k + 1))%Z)) <$> seq 0 32.

Lemma admission_reopens_witness :
  fv (admit_p (state_after pred_params_default demo_closed demo_healthy)) = pw 0.
Proof.
  apply (admission_reopens pred_params_default demo_closed demo_healthy 5 32 0).
  - apply pred_params_default_ok.
  - split; [apply prob_zero|]. cbn. lia.
  - lia.
  - vm_compute. reflexivity.
  - lia.
  - apply above_spec. vm_compute. reflexivity.
  - vm_compute. reflexivity.
  - decided.
Defined.

(** A child of 30 ms, 1 ms before the deadline. *)
Definition demo_key : ParentToChildKey := MkParentToChild 1 1 2.
Definition demo_slow : LatencyEstimators Ewma.LatencyEwma := track_child_wallclock estimators_new demo_key 0 30000.

Lemma feasibility_gates_witness :
  (infeasible (λ _, f64_one) demo_slow demo_key 100000 101000 (f64_lit 999 1000)).2 = true ∧
  (infeasible (λ _, f64_one) demo_slow demo_key 100000 131000 (f64_lit 1 1000)).2 = false.
Proof.
  assert (Hk : known_child demo_slow demo_key = MkPack 30000 30000 0) by (vm_compute; reflexivity).
  assert (Hr : ∀ cap, legacy_estimate demo_slow demo_key cap = no_estimates) by (intros cap; vm_compute; reflexivity).
  assert (Hl : known_last demo_slow demo_key = 0%Z) by (vm_compute; reflexivity).
  split.
  - destruct (feasibility_gates (λ _, f64_one) demo_slow demo_key 100000 101000 (f64_lit 999 1000) exp_one)
      as (_ & Hlt); [lia|lia|rewrite Hk; decided|rewrite Hk; decided|]. rewrite Hk, Hr, Hl in Hlt.
    destruct (Hlt ltac:(lia)) as (_ & _ & _ & Hshed). apply Hshed; [repeat constructor; decided|decided|].
    vm_compute. reflexivity.
  - destruct (feasibility_gates (λ _, f64_one) demo_slow demo_key 100000 131000 (f64_lit 1 1000) exp_one)
      as (_ & Hlt); [lia|lia|rewrite Hk; decided|rewrite Hk; decided|]. rewrite Hk, Hr, Hl in Hlt.
    destruct (Hlt ltac:(lia)) as (_ & Hfit & _ & _). apply Hfit; decided.
Defined.

(** A controller that has seen nothing rejects with probability 0, but the
    comparison is strict: a coin of 0 is rejected. *)
Lemma fresh_rejects_zero_coin :
  combined_reject_prob (reject_prob_for_state (λ _, f64_one) pred_params_default 0 (admission_new 0))
    (reject_prob_for_state (λ _, f64_one) pred_params_default 0 (admission_new 0)) = f64_zero ∧
  (should_admit (λ _, f64_one) pred_params_default 1 0 f64_zero (controller_new 0)).2 = false.
Proof. split; vm_compute; reflexivity. Qed.

(** The step does not depend on how far the sample is from the threshold, nor
    the increase on how far the probability is from 1. *)
Lemma aimd_is_unscaled :
  aimd pred_params_default f64_one f64_one = f64_lit 875 1000 ∧
  aimd pred_params_default (f64_lit 11 100) f64_one = f64_lit 875 1000 ∧
  aimd pred_params_default f64_zero (f64_lit 1 2) = f64_lit 55 100.
Proof. split_and!; vm_compute; reflexivity. Qed.
