(* ===== verification/Oracle.v ===== *)
(** The oracle module, libs/masa-policy/src/module/oracle.rs: a request to a child
    carries, in two headers, how long the child works and how long its parent
    works afterwards, and the child is given exactly the deadline and the
    priority that follow. *)
From S2P Require Export Decimal EstModule.

Definition ORACLE_CHILD_WORK_US_HEADER : bytes := bytes_of_string "x-masa-oracle-child-work-us".
Definition ORACLE_REMAINING_AFTER_US_HEADER : bytes := bytes_of_string "x-masa-oracle-remaining-after-us".

Record OracleModule := MkOracle { oracle_budget : Context }.
Record OracleHint := MkHint { child_work_us : Z; remaining_after_us : Z }.

Definition ORACLE_NAME : bytes := bytes_of_string "oracle".

Section oracle.
  Context {M : Type} {MD : Metadata M}.
  (** [Status::internal], and the [Display] of the crate's [ToStrError]. *)
  Context {Status : Type} (internal : bytes → Status) (type_name : MasaType → bytes).

Definition oracle_new (e : Ext) : outcome OracleModule := MkOracle <$> info_of e.

(** [format!("… oracle header '{}' … for {}::{}…")]. *)
Definition header_error (problem key : bytes) (value : option bytes) (child_method : CowGrpcMethod)
    (cause : option bytes) : Status :=
  internal (problem ++ bytes_of_string " oracle header '" ++ key ++ bytes_of_string "'"
    ++ match value with Some v => bytes_of_string " value '" ++ v ++ bytes_of_string "'" | None => [] end
    ++ bytes_of_string " for " ++ guard_path child_method
    ++ match cause with Some c => bytes_of_string ": " ++ c | None => [] end).

Definition read_u64_header (metadata : M) (key : bytes) (child_method : CowGrpcMethod) : result Z Status :=
  match meta_get metadata key with
  | None => Err (header_error (bytes_of_string "missing") key None child_method None)
  | Some value =>
      match meta_to_str value with
      | Err e => Err (header_error (bytes_of_string "invalid") key None child_method (Some e))
      | Ok s =>
          match parse_u64 s with
          | Err e => Err (header_error (bytes_of_string "invalid") key (Some s) child_method (Some (parse_error_text e)))
          | Ok v => Ok v
          end
      end
  end.

Definition from_request (request : M) (child_method : CowGrpcMethod) : result OracleHint Status :=
  match read_u64_header request ORACLE_CHILD_WORK_US_HEADER child_method with
  | Err e => Err e
  | Ok work =>
      match read_u64_header request ORACLE_REMAINING_AFTER_US_HEADER child_method with
      | Err e => Err e
      | Ok remaining => Ok (MkHint work remaining)
      end
  end.

Definition oracle_before_child_rpc (self : OracleModule) (child_method : CowGrpcMethod) (child : Ext) (request : M)
    : Ext * result unit Status :=
  match from_request request child_method with
  | Err e => (child, Err e)
  | Ok hint =>
      let completion_deadline := (e2e_deadline (oracle_budget self) -s remaining_after_us hint)%Z in
      let latest_start := (completion_deadline -s child_work_us hint)%Z in
      let '(child, r) := propose_or internal type_name child ChildDeadlineType completion_deadline in
      match r with
      | Err status => (child, Err status)
      | Ok _ => propose_or internal type_name child ChildPriorityType (Hint latest_start)
      end
  end.

(** ** The child's budget *)

(** The lookup and the reading of an ASCII value, and what is read of a number
    written in decimals. *)
Lemma read_u64_written metadata key child_method n :
  is_u64 n → meta_get metadata key = Some (to_string n) →
  (∀ v, Forall visible_ascii v → meta_to_str (M:=M) v = Ok v) →
  read_u64_header metadata key child_method = Ok n.
Proof.
  intros Hn Hg Hs. unfold read_u64_header. rewrite Hg, Hs.
  - by rewrite parse_to_string.
  - eapply Forall_impl; [apply to_string_digits; ulia|]. unfold digit, visible_ascii. lia.
Qed.

(** Where the decisions are open and both headers hold a [u64], the child
    completes by the end-to-end deadline less the parent's remaining work, and
    its priority is its latest start, the child's work before that; neither
    underflows, and of the budget nothing else changes. A header that is missing
    or malformed rejects the call, the child's work first, and nothing is
    proposed. *)
Theorem oracle_child_budget self child_method child request :
  ext_wf masa_value child → open child ChildDeadlineType → open child ChildPriorityType →
  let ctx := oracle_budget self in
  let work := read_u64_header request ORACLE_CHILD_WORK_US_HEADER child_method in
  let remaining := read_u64_header request ORACLE_REMAINING_AFTER_US_HEADER child_method in
  match work, remaining with
  | Ok w, Ok r =>
      ∃ child', oracle_before_child_rpc self child_method child request = (child', Ok tt) ∧
        child_context ctx child' =
          MkContext (api ctx) (request_id ctx) (slo ctx) (gateway_entry ctx)
            (Z.max 0 (e2e_deadline ctx - r)) (Hint (Z.max 0 (Z.max 0 (e2e_deadline ctx - r) - w)))
  | Err e, _ | _, Err e => oracle_before_child_rpc self child_method child request = (child, Err e)
  end.
Proof.
  intros Hwf Hod Hop ctx work remaining. unfold oracle_before_child_rpc, from_request. fold work remaining.
  destruct work as [w|e]; [|done]. destruct remaining as [r|e]; [|done]. cbn [child_work_us remaining_after_us].
  fold ctx. unfold sat_sub. set (d := Z.max 0 (e2e_deadline ctx - r)).
  destruct (propose_or_open internal type_name child ChildDeadlineType d Hwf Hod)
    as (c1 & -> & Hwf1 & Hp1 & Hm1 & Ho1).
  assert (open c1 ChildPriorityType) as Hop1 by (intros dc; rewrite Ho1 by done; apply Hop).
  destruct (propose_or_open internal type_name c1 ChildPriorityType (Hint (Z.max 0 (d - w))) Hwf1 Hop1)
    as (c2 & -> & Hwf2 & Hp2 & Hm2 & Ho2).
  exists c2. split; [done|]. unfold child_context.
  assert (proposals masa_value c2 ChildDeadlineType = proposals masa_value c1 ChildDeadlineType) as ->
    by (unfold proposals; by rewrite Ho2).
  unfold last_or. by rewrite Hp1, Hp2, !last_snoc.
Qed.
End oracle.

#[local] Existing Instance list_metadata.

(** The request ends at 100000; its child works for 30000 and it for 20000
    afterwards. Without the second header the call is rejected. *)
Lemma oracle_child_budget_witness :
  let md r := (ORACLE_CHILD_WORK_US_HEADER, to_string 30000)
                :: if r : bool then [(ORACLE_REMAINING_AFTER_US_HEADER, bytes_of_string "+20000")] else [] in
  let m := MkOracle demo_budget in
  let run r := oracle_before_child_rpc (λ b : bytes, b) (λ _, []) m demo_back (Extensions.new masa_value) (md r) in
  (∃ child', run true = (child', Ok tt) ∧ deadline (child_context demo_budget child') = 80000%Z ∧
     prio_hint (child_context demo_budget child') = Hint 50000) ∧
  ∃ e, run false = (Extensions.new masa_value, Err e).
Proof.
  intros md m run.
  assert (∀ r, ext_wf masa_value (Extensions.new masa_value) ∧ open (Extensions.new masa_value) r) as Hnew
    by (intros r; split; [constructor|done]).
  assert (Hspec := λ r, oracle_child_budget (λ b : bytes, b) (λ _, []) m demo_back (Extensions.new masa_value) (md r)
    (proj1 (Hnew ChildDeadlineType)) (proj2 (Hnew _)) (proj2 (Hnew _))). split.
  - destruct (Hspec true) as (child' & Hrun & Hctx). exists child'. split; [exact Hrun|].
    change (oracle_budget m) with demo_budget in Hctx. rewrite Hctx. by split.
  - eexists. exact (Hspec false).
Defined.
