(* ===== verification/QueueLatency.v ===== *)
(** The queue-latency module, libs/masa-policy/src/module/queue_latency.rs: the
    queueing time of a request's polls and of its successful children, reported
    upwards, with the queue length each service had at the request's first poll.
    What the runtime measures is an argument, in microseconds. *)
From S2P Require Export Hooks Context.

Record QueueLatencyWire := MkQueueWire { ql_initial : Z; ql_resume : Z; queue_lengths : gmap bytes Z }.

Record QueueLatencyModule := MkQueueLatency {
  initial_q_lat : Z;
  resume_q_lat : Z;
  is_first_poll : bool;
  own_queue_len : Z;
  child_queue_lengths : gmap bytes Z;
}.

Definition QL_NAME : bytes := bytes_of_string "queue_latency".

Definition ql_new : QueueLatencyModule := MkQueueLatency 0 0 true 0 ∅.

(** The queue length is read only at the first poll. *)
Definition ql_before_poll (self : QueueLatencyModule) (queue_latency q_len : Z) : QueueLatencyModule :=
  let add v := if decide (0 < queue_latency)%Z then wrap64 (v + queue_latency) else v in
  if is_first_poll self then
    MkQueueLatency (add (initial_q_lat self)) (resume_q_lat self) false q_len (child_queue_lengths self)
  else
    MkQueueLatency (initial_q_lat self) (add (resume_q_lat self)) false (own_queue_len self)
      (child_queue_lengths self).

(** The loop over a child's queue lengths, in the order [entries]. *)
Definition merge_lengths (entries : list (bytes * Z)) (m : gmap bytes Z) : gmap bytes Z :=
  foldl (λ m '(svc, len), <[svc := match m !! svc with Some e => Z.max e len | None => len end]> m) m entries.

Section hooks.
  Context {E : Base64Engine} {B : Bincode QueueLatencyWire}.
  Context {Response Status : Type}.
  (** The order a [HashMap] is iterated in. *)
  Context (iter : gmap bytes Z → list (bytes * Z)).

Definition ql_after_child_rpc (self : QueueLatencyModule) (o : @ChildOutcome Response Status)
    (response_wire : WireIn) : outcome QueueLatencyModule :=
  match sent o with
  | Some (Ok _) =>
      r ← Codec.get (W:=QueueLatencyWire) response_wire QL_NAME;
      child ← expect r;
      Ret (match child with
           | Some ql =>
               MkQueueLatency (wrap64 (initial_q_lat self + ql_initial ql))
                 (wrap64 (resume_q_lat self + ql_resume ql)) (is_first_poll self) (own_queue_len self)
                 (if decide (queue_lengths ql = ∅) then child_queue_lengths self
                  else merge_lengths (iter (queue_lengths ql)) (child_queue_lengths self))
           | None => self
           end)
  | _ => Ret self
  end.

Definition ql_finalize (self : QueueLatencyModule) (service_name : bytes) (wire : WireOut)
    : outcome (QueueLatencyModule * WireOut) :=
  let queue_lengths := <[service_name := own_queue_len self]> (child_queue_lengths self) in
  r ← put wire QL_NAME (MkQueueWire (initial_q_lat self) (resume_q_lat self) queue_lengths);
  wire ← expect r;
  Ret (MkQueueLatency (initial_q_lat self) (resume_q_lat self) (is_first_poll self) (own_queue_len self) ∅, wire).
End hooks.

(** ** A tree of calls *)

(** What the module sees of a request: polls, and replies of its children. *)
Inductive ql_action (C : Type) := Polled (latency len : Z) | Returned (child : C) (ok : bool).
Arguments Polled {C} latency len.
Arguments Returned {C} child ok.

Inductive service_call := MkServe (service : bytes) (actions : list (ql_action service_call)).

Definition at_service (c : service_call) : bytes := let '(MkServe s _) := c in s.
Definition ql_actions (c : service_call) : list (ql_action service_call) := let '(MkServe _ l) := c in l.

Section serve.
  Context {E : Base64Engine} {B : Bincode QueueLatencyWire}.
  Context (iter : gmap bytes Z → list (bytes * Z)).

Definition ql_step (serve : service_call → outcome WireOut) (m : outcome QueueLatencyModule)
    (a : ql_action service_call) : outcome QueueLatencyModule :=
  m ← m;
  match a with
  | Polled latency len => Ret (ql_before_poll m latency len)
  | Returned child ok =>
      out ← serve child;
      ql_after_child_rpc iter m (Sent (if ok then Ok tt else Err tt)) (MkWireIn (header out))
  end.

(** The header of the reply of a call. *)
Fixpoint serve (c : service_call) : outcome WireOut :=
  let '(MkServe service actions) := c in
  m ← foldl (ql_step serve) (Ret ql_new) actions;
  '(_, out) ← ql_finalize m service wire_out_new;
  Ret out.
End serve.

Lemma service_call_induction (P : service_call → Prop) :
  (∀ s l, Forall (λ a, match a with Returned c _ => P c | _ => True end) l → P (MkServe s l)) → ∀ c, P c.
Proof.
  intros HP. fix IH 1. intros [s l]. apply HP. induction l as [|a l IHl]; constructor; [|done].
  destruct a; [done|apply IH].
Qed.

(** The calls whose queueing a call reports: itself, and those of its children
    that succeeded. *)
Fixpoint successful (c : service_call) : list service_call :=
  let '(MkServe _ l) := c in
  c :: mjoin ((λ a, match a with Returned c true => successful c | _ => [] end) <$> l).

(** Of these, the outermost ones at a service. *)
Fixpoint outermost (s : bytes) (c : service_call) : list service_call :=
  let '(MkServe service l) := c in
  if decide (service = s) then [c]
  else mjoin ((λ a, match a with Returned c true => outermost s c | _ => [] end) <$> l).

(** All calls, the failed ones too. *)
Fixpoint all_calls (c : service_call) : list service_call :=
  let '(MkServe _ l) := c in
  c :: mjoin ((λ a, match a with Returned c _ => all_calls c | _ => [] end) <$> l).

Definition polls (l : list (ql_action service_call)) : list (Z * Z) :=
  omap (λ a, if a is Polled latency len then Some (latency, len) else None) l.

Definition initial_of (ps : list (Z * Z)) : Z := match ps with (latency, _) :: _ => latency | [] => 0 end.
Definition length_of (ps : list (Z * Z)) : Z := match ps with (_, len) :: _ => len | [] => 0 end.
Definition resume_of (ps : list (Z * Z)) : Z := sum_Z (tail ps).*1.

Definition own_initial (c : service_call) : Z := initial_of (polls (ql_actions c)).
Definition own_resume (c : service_call) : Z := resume_of (polls (ql_actions c)).
Definition own_length (c : service_call) : Z := length_of (polls (ql_actions c)).

(** The greatest of some integers. *)
Definition max_opt (a b : option Z) : option Z := union_with (λ x y, Some (Z.max x y)) a b.
Definition greatest (l : list Z) : option Z := foldr (λ x, max_opt (Some x)) None l.

Definition reports (c : service_call) (w : QueueLatencyWire) : Prop :=
  ql_initial w = wrap64 (sum_Z (own_initial <$> successful c)) ∧
  ql_resume w = wrap64 (sum_Z (own_resume <$> successful c)) ∧
  ∀ s, queue_lengths w !! s = greatest (own_length <$> outermost s c).

(** ** What a call reports *)

(** What the successful children of some actions contribute. *)
Definition reported {A} (f : service_call → list A) (l : list (ql_action service_call)) : list A :=
  mjoin ((λ a, match a with Returned c true => f c | _ => [] end) <$> l).

Lemma successful_eq c : successful c = c :: reported successful (ql_actions c).
Proof. by destruct c. Qed.

Lemma outermost_eq s c :
  outermost s c = if decide (at_service c = s) then [c] else reported (outermost s) (ql_actions c).
Proof. by destruct c. Qed.

Lemma reported_snoc {A} (f : service_call → list A) l a :
  reported f (l ++ [a]) = reported f l ++ match a with Returned c true => f c | _ => [] end.
Proof. unfold reported. rewrite fmap_app, list.join_app. cbn. by rewrite app_nil_r. Qed.

Lemma max_opt_None_r a : max_opt a None = a.
Proof. by destruct a. Qed.

Lemma max_opt_assoc a b c : max_opt a (max_opt b c) = max_opt (max_opt a b) c.
Proof. destruct a, b, c; cbn; f_equal; lia. Qed.

Lemma greatest_app l k : greatest (l ++ k) = max_opt (greatest l) (greatest k).
Proof.
  unfold greatest. induction l as [|x l IH]; cbn [foldr app]; [by destruct (foldr _ _ k)|].
  by rewrite IH, max_opt_assoc.
Qed.

Lemma greatest_in l n : greatest l = Some n → n ∈ l.
Proof.
  revert n. induction l as [|x l IH]; intros n; [done|]. cbn. fold (greatest l).
  destruct (greatest l) as [y|]; cbn; intros [= <-]; [|by left].
  destruct (Z.max_spec x y) as [[_ ->]|[_ ->]]; [right; by apply IH|by left].
Qed.

Lemma merge_lookup entries m s :
  NoDup entries.*1 → merge_lengths entries m !! s = max_opt (m !! s) ((list_to_map entries : gmap bytes Z) !! s).
Proof.
  revert m. induction entries as [|[svc len] entries IH]; intros m; cbn [fmap list_fmap fst].
  { intros _. cbn. by rewrite lookup_empty, max_opt_None_r. }
  intros [Hn Hd]%NoDup_cons. cbn [merge_lengths foldl list_to_map foldr]. fold (merge_lengths entries).
  unfold merge_lengths in IH. rewrite IH by done. cbn. destruct (decide (svc = s)) as [->|Hne].
  - rewrite !lookup_insert_eq, not_elem_of_list_to_map_1 by done. by destruct (m !! s).
  - by rewrite !lookup_insert_ne.
Qed.

Definition tallied (l : list (ql_action service_call)) (m : QueueLatencyModule) : Prop :=
  initial_q_lat m = wrap64 (initial_of (polls l) + sum_Z (own_initial <$> reported successful l)) ∧
  resume_q_lat m = wrap64 (resume_of (polls l) + sum_Z (own_resume <$> reported successful l)) ∧
  is_first_poll m = bool_decide (polls l = []) ∧ own_queue_len m = length_of (polls l) ∧
  ∀ s, child_queue_lengths m !! s = greatest (own_length <$> reported (outermost s) l).

(** A poll is counted once, with the first ones or with the later ones. *)
Lemma tallied_poll l m latency len :
  (0 ≤ latency)%Z → tallied l m → tallied (l ++ [Polled latency len]) (ql_before_poll m latency len).
Proof.
  intros Hl (Hi & Hr & Hf & Ho & Hc). unfold tallied. rewrite !reported_snoc, !app_nil_r.
  assert (polls (l ++ [Polled latency len]) = polls l ++ [(latency, len)]) as ->
    by (unfold polls; by rewrite omap_app).
  assert (∀ v, (if decide (0 < latency)%Z then wrap64 (wrap64 v + latency) else wrap64 v) = wrap64 (v + latency)) as Hadd.
  { intros v. case_decide; [apply wrap64_add|]. f_equal. lia. }
  unfold ql_before_poll. rewrite Hf. destruct (polls l) as [|[lat len'] ps]; cbn [bool_decide decide]; cbn in Hi, Hr, Ho.
  - rewrite bool_decide_true by done. cbn. rewrite Hi, Hadd.
    split_and!; [f_equal; lia|done..|]. intros s. by rewrite reported_snoc, app_nil_r.
  - rewrite bool_decide_false by done. cbn. rewrite Hr, Hadd. unfold resume_of. cbn. rewrite fmap_app, sum_Z_app. cbn.
    split_and!; [done|unfold sum_Z; f_equal; lia|done..|]. intros s. by rewrite reported_snoc, app_nil_r.
Qed.

Section report.
  Context {E : Base64Engine} {B : Bincode QueueLatencyWire}.
  Context (iter : gmap bytes Z → list (bytes * Z)).
  Context (iter_perm : ∀ q, iter q ≡ₚ map_to_list q).

Lemma iter_merge q m s : merge_lengths (iter q) m !! s = max_opt (m !! s) (q !! s).
Proof.
  assert (NoDup (iter q).*1) as Hd by (rewrite iter_perm; apply NoDup_fst_map_to_list).
  rewrite merge_lookup by done. f_equal.
  by rewrite (list_to_map_proper _ (map_to_list q)), list_to_map_to_list.
Qed.

(** A reply of a child adds what it reports, if it succeeded. *)
Lemma tallied_reply {Response Status} l m child (ok : bool) (o : @ChildOutcome Response Status) out (w : QueueLatencyWire) :
  (if ok then ∃ r, o = Sent (Ok r) else ∃ st, o = Sent (Err st)) →
  Codec.get (MkWireIn (header out)) QL_NAME = Ret (Ok (Some w)) → reports child w → tallied l m →
  ∃ m', ql_after_child_rpc iter m o (MkWireIn (header out)) = Ret m' ∧ tallied (l ++ [Returned child ok]) m'.
Proof.
  intros Ho Hget (Hwi & Hwr & Hwl) (Hi & Hr & Hf & Hlen & Hc).
  assert (polls (l ++ [Returned child ok]) = polls l) as Hpolls
    by (unfold polls; by rewrite omap_app, app_nil_r).
  unfold tallied. rewrite !reported_snoc, Hpolls. destruct ok; destruct Ho as [r ->].
  2: { exists m. rewrite !app_nil_r. split_and!; [done..|]. intros s. by rewrite reported_snoc, app_nil_r. }
  unfold ql_after_child_rpc. cbn [sent]. rewrite Hget. cbn [mbind outcome_bind expect].
  eexists. split; [done|]. cbn [initial_q_lat resume_q_lat is_first_poll own_queue_len child_queue_lengths].
  rewrite Hi, Hr, Hwi, Hwr, !fmap_app, !sum_Z_app, !wrap64_add, !wrap64_add_r.
  split_and!; [f_equal; lia|f_equal; lia|done..|]. intros s. rewrite reported_snoc, fmap_app, greatest_app, <-Hc, <-Hwl.
  destruct (decide (queue_lengths w = ∅)) as [->|_]; [by rewrite lookup_empty, max_opt_None_r|]. apply iter_merge.
Qed.
End report.

(** ** Every call replies *)

(** What the wire format can hold. *)
Definition queue_wire_wf (w : QueueLatencyWire) : Prop :=
  is_u64 (ql_initial w) ∧ is_u64 (ql_resume w) ∧ is_u64 (Z.of_nat (size (queue_lengths w))) ∧
  map_Forall (λ s n, string_wf s ∧ is_u64 n) (queue_lengths w).

Class QueueWireLaws {B : Bincode QueueLatencyWire} : Prop := {
  queue_bincode_laws :: BincodeLaws QueueLatencyWire;
  queue_serialize w : queue_wire_wf w → ∃ bs, serialize w = Ok bs;
}.

Lemma ql_name_valid : valid_name QL_NAME.
Proof. decided. Qed.

(** A service whose name is a string, and measurements that are [u64]s. *)
Definition call_ok (c : service_call) : Prop :=
  string_wf (at_service c) ∧ Forall (λ p, 0 ≤ p.1 ∧ is_u64 p.2)%Z (polls (ql_actions c)).

Definition below (l : list (ql_action service_call)) : list service_call :=
  mjoin ((λ a, match a with Returned c _ => all_calls c | _ => [] end) <$> l).

Lemma all_calls_eq c : all_calls c = c :: below (ql_actions c).
Proof. by destruct c. Qed.

Lemma reported_in {A} (f : service_call → list A) l x :
  x ∈ reported f l → ∃ c, Returned c true ∈ l ∧ x ∈ f c.
Proof.
  unfold reported. intros (y & Hx & (a & -> & Ha)%list_elem_of_fmap)%list_elem_of_join.
  destruct a as [|c []]; [by apply elem_of_nil in Hx| |by apply elem_of_nil in Hx]. by exists c.
Qed.

Lemma below_in c ok l d : Returned c ok ∈ l → d ∈ all_calls c → d ∈ below l.
Proof.
  intros Hc Hd. unfold below. apply list_elem_of_join. exists (all_calls c). split; [done|].
  apply list_elem_of_fmap. by exists (Returned c ok).
Qed.

Lemma below_length c ok l : Returned c ok ∈ l → length (all_calls c) ≤ length (below l).
Proof.
  induction l as [|a l IH]; [by intros ?%elem_of_nil|].
  change (below (a :: l)) with (match a with Returned c _ => all_calls c | _ => [] end ++ below l).
  rewrite length_app. intros [<-|Hin]%elem_of_cons; [lia|]. apply IH in Hin. lia.
Qed.

Lemma outermost_in s c d : d ∈ outermost s c → at_service d = s ∧ d ∈ all_calls c.
Proof.
  induction c as [service l IH] using service_call_induction. rewrite outermost_eq, all_calls_eq. cbn [at_service ql_actions].
  destruct (decide (service = s)) as [<-|_].
  { intros ->%list_elem_of_singleton. split; [done|by left]. }
  intros (c & Hc & Hd)%reported_in. rewrite Forall_forall in IH. destruct (IH _ Hc Hd) as [Hs Hin].
  split; [done|]. right. by eapply below_in.
Qed.

Lemma length_of_u64 ps : Forall (λ p, 0 ≤ p.1 ∧ is_u64 p.2)%Z ps → is_u64 (length_of ps).
Proof. destruct ps as [|[lat len] ps]; [by intros; split|]. by intros [[_ ?] _]%Forall_cons. Qed.

(** What a call reports fits the wire. *)
Lemma reports_wf c w :
  Forall call_ok (all_calls c) → is_u64 (Z.of_nat (length (all_calls c))) → reports c w → queue_wire_wf w.
Proof.
  intros Hok Hn (Hi & Hr & Hl).
  assert (∀ s n, queue_lengths w !! s = Some n → ∃ d, d ∈ all_calls c ∧ at_service d = s ∧ own_length d = n) as Hin.
  { intros s n. rewrite Hl. intros (d & -> & Hd)%greatest_in%list_elem_of_fmap. apply outermost_in in Hd as [<- Hd].
    by exists d. }
  split_and!; [rewrite Hi; apply wrap64_is_u64|rewrite Hr; apply wrap64_is_u64| |].
  - split; [lia|]. destruct Hn as [_ Hn]. eapply Z.le_trans; [|exact Hn]. apply inj_le.
    rewrite <-length_map_to_list, <-(length_fmap fst), <-(length_fmap at_service (all_calls c)).
    apply submseteq_length, NoDup_submseteq; [apply NoDup_fst_map_to_list|].
    intros s ([s' n] & -> & Hs%elem_of_map_to_list)%list_elem_of_fmap. apply list_elem_of_fmap.
    destruct (Hin s' n Hs) as (d & Hd & <- & _). by exists d.
  - intros s n Hs. destruct (Hin s n Hs) as (d & Hd & <- & <-). rewrite Forall_forall in Hok.
    destruct (Hok d Hd) as [Hw Hp]. split; [done|by apply length_of_u64].
Qed.

Section subtree.
  Context {E : Base64Engine} {EL : Base64Laws E}.
  Context {B : Bincode QueueLatencyWire} {BL : QueueWireLaws}.
  Context (iter : gmap bytes Z → list (bytes * Z)).
  Context (iter_perm : ∀ q, iter q ≡ₚ map_to_list q).

Notation serve := (serve iter).

(** A reply whose header holds a report of the call. *)
Definition replies (c : service_call) : Prop :=
  ∃ out w, serve c = Ret out ∧ Codec.get (W:=QueueLatencyWire) (MkWireIn (header out)) QL_NAME = Ret (Ok (Some w)) ∧
    reports c w.

Lemma actions_tallied l :
  Forall (λ a, match a with Returned c _ => replies c | _ => True end) l →
  Forall (λ p, 0 ≤ p.1 ∧ is_u64 p.2)%Z (polls l) →
  ∃ m, foldl (ql_step iter serve) (Ret ql_new) l = Ret m ∧ tallied l m.
Proof.
  induction l as [|a l IH] using rev_ind; intros Hl Hp; [by exists ql_new|].
  apply Forall_app in Hl as [Hl [Ha _]%Forall_cons]. unfold polls in Hp. rewrite omap_app in Hp.
  apply Forall_app in Hp as [Hp Hpa]. destruct (IH Hl Hp) as (m & Hm & Ht).
  rewrite foldl_app. cbn [foldl]. rewrite Hm. unfold ql_step. cbn [mbind outcome_bind].
  destruct a as [latency len|child ok].
  - eexists. split; [done|]. apply tallied_poll; [|done]. apply Forall_cons in Hpa as [[? _] _]. done.
  - destruct Ha as (out & w & Hs & Hget & Hrep). rewrite Hs. cbn [mbind outcome_bind].
    eapply tallied_reply; [done| |done..]. by destruct ok; eexists.
Qed.

Lemma serve_eq c :
  serve c = (m ← foldl (ql_step iter serve) (Ret ql_new) (ql_actions c);
             '(_, out) ← ql_finalize m (at_service c) wire_out_new; Ret out).
Proof. by destruct c. Qed.

(** The report in the module's state when its request ends. *)
Lemma tallied_reports c m :
  tallied (ql_actions c) m →
  reports c (MkQueueWire (initial_q_lat m) (resume_q_lat m)
    (<[at_service c := own_queue_len m]> (child_queue_lengths m))).
Proof.
  intros (Hi & Hr & _ & Ho & Hc). unfold reports. rewrite successful_eq. cbn [ql_initial ql_resume queue_lengths fmap list_fmap].
  split_and!; [by rewrite Hi|by rewrite Hr|]. intros s. rewrite outermost_eq.
  destruct (decide (at_service c = s)) as [<-|Hne]; [|by rewrite lookup_insert_ne, Hc].
  rewrite lookup_insert_eq, Ho. done.
Qed.

Lemma every_call_replies c :
  Forall call_ok (all_calls c) → is_u64 (Z.of_nat (length (all_calls c))) → replies c.
Proof.
  induction c as [service l IH] using service_call_induction. intros Hok Hn.
  set (c := MkServe service l) in *.
  assert (Forall call_ok (below l) ∧ call_ok c) as [Hbelow [Hname Hpolls]]
    by (unfold c in Hok; rewrite all_calls_eq in Hok; apply Forall_cons in Hok; tauto).
  destruct (actions_tallied l) as (m & Hm & Ht); [|done|].
  { rewrite Forall_forall in IH |- *. intros [|child ok] Ha; [done|]. specialize (IH _ Ha). cbn in IH. apply IH.
    - rewrite Forall_forall in Hbelow |- *. intros d Hd. apply Hbelow. by eapply below_in.
    - destruct Hn as [_ Hn]. split; [lia|]. etrans; [|exact Hn]. apply inj_le.
      trans (length (below l)); [by eapply below_length|]. unfold c. rewrite (all_calls_eq (MkServe _ _)).
      apply Nat.le_succ_diag_r. }
  pose proof (tallied_reports c m Ht) as Hrep. set (w := MkQueueWire _ _ _) in Hrep.
  destruct (queue_serialize w) as [bs Hs]; [by eapply reports_wf|].
  exists (set wire_out_new QL_NAME (rfc4648_encode bs)), w. split_and!; [|by apply get_set; [apply ql_name_valid|]|done].
  rewrite serve_eq. cbn [ql_actions c at_service]. rewrite Hm. cbn [mbind outcome_bind]. unfold ql_finalize.
  fold w. by rewrite (put_eq _ _ _ bs).
Qed.

(** C31: whatever a request and the requests below it do, its service replies,
    and the reply's header reports the queueing of the whole subtree: the sums
    of the first polls' and of the later polls' queueing times over the request
    and every descendant reached through successful replies only, modulo
    [2^64], and for every service the greatest queue length among its outermost
    requests, as it was at their first polls. What failed children report is
    not counted. *)
Theorem subtree_queueing_reported c :
  Forall call_ok (all_calls c) → is_u64 (Z.of_nat (length (all_calls c))) →
  ∃ out w, serve c = Ret out ∧
    Codec.get (W:=QueueLatencyWire) (MkWireIn (header out)) QL_NAME = Ret (Ok (Some w)) ∧
    ql_initial w = wrap64 (sum_Z (own_initial <$> successful c)) ∧
    ql_resume w = wrap64 (sum_Z (own_resume <$> successful c)) ∧
    ∀ s, queue_lengths w !! s = greatest (own_length <$> outermost s c).
Proof. intros Hok Hn. destruct (every_call_replies c Hok Hn) as (out & w & Hs & Hg & Hrep). by exists out, w. Qed.
End subtree.

(** ** A witness *)

#[export] Instance queue_wire_wf_dec w : Decision (queue_wire_wf w).
Proof. unfold queue_wire_wf. apply _. Defined.

Definition write_entry (e : bytes * Z) : bytes := write_string e.1 ++ write_varint e.2.

Definition queue_encode (w : QueueLatencyWire) : option bytes :=
  if decide (queue_wire_wf w) then
    Some (write_varint (ql_initial w) ++ write_varint (ql_resume w)
            ++ write_varint (Z.of_nat (size (queue_lengths w)))
            ++ mjoin (write_entry <$> map_to_list (queue_lengths w)))
  else None.

Fixpoint read_entries (n : nat) (bs : bytes) : option (list (bytes * Z) * bytes) :=
  match n with
  | O => Some ([], bs)
  | S n =>
      '(s, bs) ← read_string bs; '(v, bs) ← read_varint bs;
      '(es, bs) ← read_entries n bs; Some ((s, v) :: es, bs)
  end.

Definition queue_decode (bs : bytes) : option QueueLatencyWire :=
  '(i, bs) ← read_varint bs; '(r, bs) ← read_varint bs; '(n, bs) ← read_varint bs;
  '(es, bs) ← read_entries (Z.to_nat n) bs;
  if decide (bs = []) then Some (MkQueueWire i r (list_to_map es)) else None.

Lemma read_write_varint v rest :
  is_u64 v → Forall is_byte (write_varint v) ∧ read_varint (write_varint v ++ rest) = Some (v, rest).
Proof. intros Hv. destruct (write_varint_ok v Hv) as [Hw Hb]. split; [done|]. by apply read_varint_app. Qed.

Lemma read_write_entries es rest :
  Forall (λ e, string_wf e.1 ∧ is_u64 e.2) es →
  Forall is_byte (mjoin (write_entry <$> es)) ∧
  read_entries (length es) (mjoin (write_entry <$> es) ++ rest) = Some (es, rest).
Proof.
  induction 1 as [|[s v] es [Hs Hv] _ [IHb IH]]; [by split; [constructor|]|]. cbn in Hs, Hv.
  change (mjoin (write_entry <$> (s, v) :: es)) with (write_entry (s, v) ++ mjoin (write_entry <$> es)).
  unfold write_entry at 1 3. cbn [fst snd].
  destruct (read_write_string s (write_varint v ++ mjoin (write_entry <$> es) ++ rest) Hs) as [Hb1 H1].
  destruct (read_write_varint v (mjoin (write_entry <$> es) ++ rest) Hv) as [Hb2 H2].
  split; [by rewrite !Forall_app|]. rewrite <-!app_assoc. cbn [length read_entries].
  rewrite H1. cbn [mbind option_bind]. rewrite H2. cbn [mbind option_bind]. by rewrite IH.
Qed.

Lemma queue_encode_decode w bs : queue_encode w = Some bs → Forall is_byte bs ∧ queue_decode bs = Some w.
Proof.
  unfold queue_encode. case_decide as Hw; [|done]. intros [= <-]. destruct w as [i r q].
  destruct Hw as (Hi & Hr & Hn & Hq). cbn [ql_initial ql_resume queue_lengths] in *.
  destruct (read_write_entries (map_to_list q) []) as [Hbe He].
  { apply Forall_forall. intros [s v] Hin%elem_of_map_to_list. by apply Hq. }
  rewrite app_nil_r in He. set (rest := mjoin (write_entry <$> map_to_list q)) in *.
  set (n := Z.of_nat (size q)) in *.
  destruct (read_write_varint i (write_varint r ++ write_varint n ++ rest) Hi) as [Hb1 H1].
  destruct (read_write_varint r (write_varint n ++ rest) Hr) as [Hb2 H2].
  destruct (read_write_varint n rest Hn) as [Hb3 H3].
  split; [by rewrite !Forall_app|]. unfold queue_decode.
  rewrite H1. cbn [mbind option_bind]. rewrite H2. cbn [mbind option_bind]. rewrite H3. cbn [mbind option_bind].
  unfold n. rewrite Nat2Z.id, <-length_map_to_list, He. cbn [mbind option_bind].
  by rewrite decide_True, list_to_map_to_list.
Qed.

Definition queue_bincode : Bincode QueueLatencyWire := bincode_of queue_encode queue_decode.

Lemma queue_bincode_wire_laws : @QueueWireLaws queue_bincode.
Proof.
  split; [apply bincode_of_laws, queue_encode_decode|]. intros w Hw. cbn. unfold queue_encode.
  rewrite decide_True by done. by eexists.
Qed.

#[export] Instance call_ok_dec c : Decision (call_ok c).
Proof. unfold call_ok. apply _. Defined.

#[local] Existing Instance reference_engine.
#[local] Existing Instance reference_laws.
#[local] Existing Instance queue_bincode.
#[local] Existing Instance queue_bincode_wire_laws.

(** Two children at one service succeed, one at another fails. *)
Definition demo_tree : service_call :=
  let geo l := MkServe (bytes_of_string "geo") l in
  MkServe (bytes_of_string "front")
    [Polled 5 3; Returned (geo [Polled 7 2; Polled 4 9]%Z) true; Polled 10 8;
     Returned (geo [Polled 1 6]%Z) true;
     Returned (MkServe (bytes_of_string "rate") [Polled 100 50]%Z) false]%Z.

Lemma subtree_queueing_reported_witness :
  ∃ out w, serve map_to_list demo_tree = Ret out ∧
    Codec.get (W:=QueueLatencyWire) (MkWireIn (header out)) QL_NAME = Ret (Ok (Some w)) ∧
    ql_initial w = 13%Z ∧ ql_resume w = 14%Z ∧
    ((λ s, queue_lengths w !! bytes_of_string s) <$> ["front"; "geo"; "rate"]) = [Some 3; Some 6; None]%Z.
Proof.
  destruct (subtree_queueing_reported map_to_list (λ _, reflexivity _) demo_tree)
    as (out & w & Hs & Hg & Hi & Hr & Hl); [decided|decided|].
  exists out, w. split; [exact Hs|]. split; [exact Hg|]. rewrite Hi, Hr. split; [by vm_compute|]. split; [by vm_compute|].
  cbn [fmap list_fmap]. by rewrite !Hl.
Defined.
