(* ===== verification/MasaStack.v ===== *)
(** Masa's policy stack, libs/masa-policy/src/masa_stack.rs: which modules each
    set of Cargo features runs and in which order, what each module declares and
    builds at its server, and every hook of every module behind the framework's
    trait. A panic unwinds a hook; the world is then [Panic] and what later
    hooks do to it is nothing. *)
From S2P Require Export Predictive Oracle QueueLatency.
From S2P Require Rajomon.

(** ** The declarations of the modules *)

Definition module_type (m : MasaModule) : bytes :=
  bytes_of_string
    match m with
    | BudgetM => "masa_policy::module::budget::BudgetModule"
    | GuardM => "masa_policy::module::e2e_deadline_guard::E2eDeadlineGuardModule"
    | EstimationM => "masa_policy::module::est::module::EstimationModule"
    | OracleM => "masa_policy::module::oracle::OracleModule"
    | PredM => "masa_policy::module::admission::predictive::PredAdmissionModule"
    | RajomonM => "rajomon::module::RajomonModule"
    | QueueLatencyM => "masa_policy::module::queue_latency::QueueLatencyModule"
    | EmptyM => "()"
    end.

Definition server_type (m : MasaModule) : bytes :=
  bytes_of_string
    match m with
    | BudgetM => "masa_policy::module::budget::BudgetServer"
    | GuardM => "masa_policy::module::e2e_deadline_guard::E2eDeadlineGuardServer"
    | EstimationM => "masa_policy::module::est::module::EstimationServer"
    | OracleM => "masa_policy::module::oracle::OracleServer"
    | PredM => "masa_policy::module::admission::predictive::PredAdmissionServer"
    | RajomonM => "rajomon::module::RajomonServer"
    | QueueLatencyM => "masa_policy::module::queue_latency::QueueLatencyServer"
    | EmptyM => "()"
    end.

(** [Module::NAME]. *)
Definition module_name (m : MasaModule) : bytes :=
  match m with
  | BudgetM => BUDGET_SECTION
  | GuardM => bytes_of_string "e2e_deadline_guard"
  | EstimationM => EST_NAME
  | OracleM => ORACLE_NAME
  | PredM => PRED_NAME
  | RajomonM => Rajomon.NAME
  | QueueLatencyM => QL_NAME
  | EmptyM => []
  end.

(** Whether [Module::Wire] is not [()]. *)
Definition module_wire (m : MasaModule) : bool :=
  match m with BudgetM | EstimationM | RajomonM | QueueLatencyM => true | _ => false end.

(** [Module::POLL_HOOKS]. *)
Definition module_poll_hooks (m : MasaModule) : bool :=
  match m with BudgetM | OracleM | EmptyM => false | _ => true end.

(** [Module::requires]. *)
Definition module_requires (m : MasaModule) : list MasaModule :=
  match m with
  | GuardM | EstimationM | OracleM => [BudgetM]
  | PredM => [BudgetM; EstimationM]
  | BudgetM | RajomonM | QueueLatencyM | EmptyM => []
  end.

Definition module_decl (m : MasaModule) : @ModuleDecl MasaType :=
  MkDecl (ModuleType m) (module_type m) (module_name m) (module_wire m) (bool_decide (m = EmptyM))
    ((λ r, (ModuleType r, module_type r)) <$> module_requires m).

(** ** The stack the features select *)

Record StackFeatures := MkStackFeatures {
  f_abort_slo : bool;
  f_estimator : bool;
  f_sched_oracle : bool;
  f_ac_pred : bool;
  f_ac_rajomon : bool;
  f_trace_queue_latency : bool;
}.

Definition MasaStack (f : StackFeatures) : list MasaModule :=
  [BudgetM;
   if f_abort_slo f then GuardM else EmptyM;
   if f_estimator f then EstimationM else EmptyM;
   if f_sched_oracle f then OracleM else EmptyM;
   if f_ac_pred f then PredM else if f_ac_rajomon f then RajomonM else EmptyM;
   if f_trace_queue_latency f then QueueLatencyM else EmptyM].

(** ** Servers *)

(** What [ModuleServer::new] makes; estimation and predictive admission keep a
    handle of the service's estimators. *)
Inductive MasaServer :=
| Plain_server (m : MasaModule)
| EstimationServer (est : masa_value EstimatorsType)
| PredAdmissionServer (est : masa_value EstimatorsType).

Definition LATENCY_ESTIMATORS : bytes :=
  bytes_of_string "masa_policy::module::est::state::latency_estimators::LatencyEstimators<DefaultLatencyEstimator>".

Definition module_server_new (m : MasaModule) (init : @ServerInit MasaType masa_value)
    : @ServerInit MasaType masa_value * result MasaServer MissingDependency :=
  match m with
  | EstimationM => (provide init EstimatorsType tt, Ok (EstimationServer tt))
  | PredM => (init, result_map PredAdmissionServer (require init EstimatorsType LATENCY_ESTIMATORS))
  | _ => (init, Ok (Plain_server m))
  end.

(** ** What the hooks read from their surroundings *)

(** The readings of the [n]-th hook: its [k]-th call of [time_now] and of
    [Instant::now], its random draws, whether its compare-and-swap fails for no
    reason, and what the runtime measures. *)
Record Readings := MkReadings {
  time_us : nat → nat → Z;
  instant : nat → nat → Instant;
  coin_of : nat → f64;
  draw_of : nat → Z;
  cas_fails : nat → bool;
  utilization : nat → f32;
  queue_latency_us : nat → Z;
  queue_len_at : nat → Z;
}.

Section stack.
  Context {E : Base64Engine} {BC : Bincode ContextCompact} {BE : Bincode EstimationWire}.
  Context {BQ : Bincode QueueLatencyWire} {BR : Bincode Rajomon.RajomonWire}.
  Context {Est : Type} `{Estimator Est} {M : Type} {MD : Metadata M} {Response Status : Type}.
  Context (deadline_exceeded resource_exhausted : bytes → Status) (is_deadline_exceeded : Status → bool).
  Context (h : HookEnv Status) (register_service : bytes → MethodId).
  Context (price_iter : RajomonShared.Prices → list ((CowGrpcMethod * CowGrpcMethod) * Z)).
  Context (rajomon_params : RajomonShared.RajomonParams).
  Context (length_iter : gmap bytes Z → list (bytes * Z)) (SERVICE_NAME : bytes) (r : Readings).

Notation Reply := (result Response Status).
Notation Poll := (@Stack.Poll Response Status).
Notation ChildOutcome := (@Stack.ChildOutcome Response Status).

(** ** The world *)

(** The per-request state of a module; a guard is its handler. *)
Definition ModuleState (m : MasaModule) : Type :=
  match m with
  | BudgetM => BudgetModule
  | GuardM => SloAbortHandler
  | EstimationM => EstimationModule
  | OracleM => OracleModule
  | PredM => PredAdmissionModule
  | RajomonM => Rajomon.RajomonModule
  | QueueLatencyM => QueueLatencyModule
  | EmptyM => unit
  end.

(** What the service's requests share, and one request's modules. The tally that
    estimation puts in the request's extensions is changed behind its shared
    reference, so its contents are here. [tick] counts the hooks run,
    [task_priority] is what [reprioritize] set last. *)
Record MasaWorld := MkMasaWorld {
  tick : nat;
  estimators : LatencyEstimators Est;
  controller : PredictiveAdmission;
  rajomon_state : RajomonShared.RajomonSharedState;
  self_of : ∀ m, option (ModuleState m);
  tally_cell : option RequestMetadataTracker;
  task_priority : option Z;
}.

Definition set_estimators (est : LatencyEstimators Est) (w : MasaWorld) : MasaWorld :=
  MkMasaWorld (tick w) est (controller w) (rajomon_state w) (self_of w) (tally_cell w) (task_priority w).
Definition set_controller (c : PredictiveAdmission) (w : MasaWorld) : MasaWorld :=
  MkMasaWorld (tick w) (estimators w) c (rajomon_state w) (self_of w) (tally_cell w) (task_priority w).
Definition set_rajomon (s : RajomonShared.RajomonSharedState) (w : MasaWorld) : MasaWorld :=
  MkMasaWorld (tick w) (estimators w) (controller w) s (self_of w) (tally_cell w) (task_priority w).
Definition set_tally (t : option RequestMetadataTracker) (w : MasaWorld) : MasaWorld :=
  MkMasaWorld (tick w) (estimators w) (controller w) (rajomon_state w) (self_of w) t (task_priority w).
Definition reprioritize (prio : option Z) (w : MasaWorld) : MasaWorld :=
  MkMasaWorld (tick w) (estimators w) (controller w) (rajomon_state w) (self_of w) (tally_cell w)
    (match prio with Some z => Some z | None => task_priority w end).
Definition next_tick (w : MasaWorld) : MasaWorld :=
  MkMasaWorld (S (tick w)) (estimators w) (controller w) (rajomon_state w) (self_of w) (tally_cell w)
    (task_priority w).

Definition set_self (m : MasaModule) (v : ModuleState m) (w : MasaWorld) : MasaWorld :=
  MkMasaWorld (tick w) (estimators w) (controller w) (rajomon_state w)
    (λ m', match decide (m = m') with
           | left e => Some (eq_rect _ ModuleState v _ e)
           | right _ => self_of w m'
           end) (tally_cell w) (task_priority w).

(** The request's extensions as a hook sees them, with the tally as it is now. *)
Definition load_tally (w : MasaWorld) (e : Ext) : Ext :=
  match tally_cell w with
  | Some t => Extensions.update masa_value e (Plain TallyType) (λ _, t)
  | None => e
  end.

(** Running a hook on the request's extensions and the world, with the number
    the hook has; if it panics, or an earlier one did, what it was to return is
    whatever unwinding leaves. *)
Definition run_hook {R} (unwound : R) (hook : nat → Ext → MasaWorld → outcome (Ext * R * MasaWorld))
    (e : Ext) (w : outcome MasaWorld) : Ext * outcome MasaWorld * R :=
  match w with
  | Panic => (e, Panic, unwound)
  | Ret w =>
      match hook (tick w) (load_tally w e) (next_tick w) with
      | Ret (e, x, w) => (e, Ret (set_tally (Extensions.get masa_value e (Plain TallyType)) w), x)
      | Panic => (e, Panic, unwound)
      end
  end.

Definition with_self {R} (m : MasaModule) (w : MasaWorld) (k : ModuleState m → outcome R) : outcome R :=
  self ← expect_some (self_of w m); k self.

(** ** The hooks of the modules *)

Definition module_new (m : MasaModule) (method : CowGrpcMethod) (_ : MasaServer) (wire : WireIn) (e : Ext)
    (w : outcome MasaWorld) : Ext * outcome MasaWorld :=
  fst (run_hook tt (λ n e w,
    match m with
    | BudgetM => '(self, e) ← budget_new wire e; Ret (e, tt, set_self BudgetM self w)
    | GuardM => self ← guard_new method e; Ret (e, tt, set_self GuardM self w)
    | EstimationM =>
        '(self, e) ← est_new (env_register h) method wire e (instant r n 0);
        Ret (e, tt, set_self EstimationM self w)
    | OracleM => self ← oracle_new e; Ret (e, tt, set_self OracleM self w)
    | PredM => self ← pred_new method e; Ret (e, tt, set_self PredM self w)
    | RajomonM =>
        '(self, s) ← Rajomon.module_new method wire (rajomon_state w);
        Ret (e, tt, set_rajomon s (set_self RajomonM self w))
    | QueueLatencyM => Ret (e, tt, set_self QueueLatencyM ql_new w)
    | EmptyM => Ret (e, tt, set_self EmptyM tt w)
    end) e w).

Definition module_before_poll (m : MasaModule)
    : Ext → outcome MasaWorld → Ext * outcome MasaWorld * result unit Reply :=
  run_hook (Ok tt) (λ n e w,
    match m with
    | GuardM =>
        with_self GuardM w (λ self,
          let '(self, reply) := guard_before_poll deadline_exceeded (time_us r n 0) (cas_fails r n) self in
          Ret (e, reply, set_self GuardM self w))
    | EstimationM =>
        with_self EstimationM w (λ self,
          '(e, prio, reply) ← est_before_poll deadline_exceeded (env_features h) self e
            (time_us r n 0) (time_us r n 1) (time_us r n 2) (instant r n 0);
          Ret (e, reply, reprioritize prio w))
    | PredM =>
        with_self PredM w (λ self,
          let '(self, c, reply) := pred_before_poll deadline_exceeded (env_register h) (env_exp h) (env_params h)
            self (controller w) (instant r n 0) (coin_of r n) in
          Ret (e, reply, set_controller c (set_self PredM self w)))
    | RajomonM =>
        with_self RajomonM w (λ self,
          let '(s, reply) := Rajomon.before_poll resource_exhausted self (queue_latency_us r n) (rajomon_state w) in
          Ret (e, reply, set_rajomon s w))
    | QueueLatencyM =>
        with_self QueueLatencyM w (λ self,
          Ret (e, Ok tt, set_self QueueLatencyM (ql_before_poll self (queue_latency_us r n) (queue_len_at r n)) w))
    | BudgetM | OracleM | EmptyM => Ret (e, Ok tt, w)
    end).

Definition module_after_poll (m : MasaModule) (poll : Poll) (e : Ext) (w : outcome MasaWorld)
    : outcome MasaWorld * result unit Reply :=
  let '(_, w, reply) := run_hook (Ok tt) (λ n e w,
    match m with
    | GuardM =>
        with_self GuardM w (λ self,
          let '(self, reply) := guard_after_poll deadline_exceeded (time_us r n 0) (cas_fails r n) poll self in
          Ret (e, reply, set_self GuardM self w))
    | EstimationM =>
        with_self EstimationM w (λ self,
          '(e, reply) ← est_after_poll deadline_exceeded (env_features h) self poll e
            (instant r n 0) (time_us r n 0) (time_us r n 1);
          Ret (e, reply, w))
    | RajomonM =>
        with_self RajomonM w (λ self, Ret (e, Rajomon.after_poll resource_exhausted self poll, w))
    | _ => Ret (e, Ok tt, w)
    end) e w in
  (w, reply).

(** The mutable arguments of a child hook, with the world left out. *)
Notation CallState W := (@Stack.CallState MasaType masa_value M W).

Definition module_before_child_rpc (m : MasaModule) (child_method : CowGrpcMethod) (s : CallState (outcome MasaWorld))
    : CallState (outcome MasaWorld) * result unit Status :=
  let '(e, w, (c, out, answer)) := run_hook (child s, child_wire s, Ok tt) (λ n e w,
    match m with
    | GuardM =>
        with_self GuardM w (λ self,
          let '(self, answer) := guard_before_child_rpc deadline_exceeded (time_us r n 0) (cas_fails r n) self in
          Ret (e, (child s, child_wire s, answer), set_self GuardM self w))
    | EstimationM =>
        with_self EstimationM w (λ self,
          '(self, est, c, out, answer) ←
            est_before_child_rpc (env_internal h) (env_type_name h) (env_register h) (env_exp h) (env_features h)
              (env_aware h) (env_params h) self (estimators w) child_method
              (register_service (cow_service child_method)) (child s) (child_wire s)
              (instant r n 0) (time_us r n 0) (time_us r n 1) (time_us r n 2);
          Ret (e, (c, out, answer), set_estimators est (set_self EstimationM self w)))
    | OracleM =>
        with_self OracleM w (λ self,
          let '(c, answer) :=
            oracle_before_child_rpc (env_internal h) (env_type_name h) self child_method (child s) (request s) in
          Ret (e, (c, child_wire s, answer), w))
    | PredM =>
        with_self PredM w (λ self,
          let '(est, answer) :=
            pred_before_child_rpc deadline_exceeded (env_register h) (env_exp h) self (estimators w) child_method
              (time_us r n 0) (coin_of r n) in
          Ret (e, (child s, child_wire s, answer), set_estimators est w))
    | RajomonM =>
        with_self RajomonM w (λ self,
          '(out, st, answer) ←
            Rajomon.before_child_rpc resource_exhausted price_iter self child_method (child_wire s) (rajomon_state w);
          Ret (e, (child s, out, answer), set_rajomon st w))
    | BudgetM | QueueLatencyM | EmptyM => Ret (e, (child s, child_wire s, Ok tt), w)
    end) (ext s) (world s) in
  (MkCall c (request s) out e w, answer).

Definition module_seal_child_rpc (m : MasaModule) (_ : CowGrpcMethod) (s : CallState (outcome MasaWorld))
    : CallState (outcome MasaWorld) * result unit Status :=
  match m with
  | BudgetM =>
      let '(e, w, (c, out)) := run_hook (child s, child_wire s) (λ n e w,
        with_self BudgetM w (λ self,
          '(c, out) ← Budget.seal_child_rpc self (child s) (child_wire s); Ret (e, (c, out), w)))
        (ext s) (world s) in
      (MkCall c (request s) out e w, Ok tt)
  | _ => (s, Ok tt)
  end.

Definition module_after_child_rpc (m : MasaModule) (child_method : CowGrpcMethod) (o : ChildOutcome)
    (response_wire : WireIn) (c e : Ext) (w : outcome MasaWorld) : outcome MasaWorld * result unit Status :=
  let '(_, w, answer) := run_hook (Ok tt) (λ n e w,
    match m with
    | GuardM =>
        with_self GuardM w (λ self, Ret (e, Ok tt, set_self GuardM (guard_after_child_rpc child_method o self) w))
    | EstimationM =>
        with_self EstimationM w (λ self,
          '(self, est, e, answer) ←
            est_after_child_rpc is_deadline_exceeded (env_features h) self (estimators w) o response_wire c e
              (instant r n 0) (time_us r n 0) (instant r n 1);
          Ret (e, answer, set_estimators est (set_self EstimationM self w)))
    | PredM =>
        with_self PredM w (λ self,
          est ← pred_after_child_rpc self (estimators w) o response_wire (time_us r n 0);
          Ret (e, Ok tt, set_estimators est w))
    | RajomonM =>
        with_self RajomonM w (λ self,
          '(s, answer) ← Rajomon.after_child_rpc price_iter self child_method o response_wire (rajomon_state w);
          Ret (e, answer, set_rajomon s w))
    | QueueLatencyM =>
        with_self QueueLatencyM w (λ self,
          self ← ql_after_child_rpc length_iter self o response_wire;
          Ret (e, Ok tt, set_self QueueLatencyM self w))
    | BudgetM | OracleM | EmptyM => Ret (e, Ok tt, w)
    end) e w in
  (w, answer).

Definition module_finalize (m : MasaModule) (reply : Reply) (o : @Stack.Outcome Status) (wire : WireOut) (e : Ext)
    (w : outcome MasaWorld) : Reply * WireOut * outcome MasaWorld :=
  let '(_, w, wire) := run_hook wire (λ n e w,
    match m with
    | BudgetM => with_self BudgetM w (λ self, Ret (e, budget_finalize self wire, w))
    | EstimationM =>
        with_self EstimationM w (λ self,
          '(self, est, wire, e) ←
            est_finalize is_deadline_exceeded (env_features h) (env_aware h) (env_params h) self (estimators w) reply
              wire e (instant r n 0) (time_us r n 0) (instant r n 1) (utilization r n);
          Ret (e, wire, set_estimators est (set_self EstimationM self w)))
    | PredM =>
        with_self PredM w (λ self,
          c ← pred_finalize is_deadline_exceeded (env_register h) (env_params h) self (controller w) reply o e
            (instant r n 0);
          Ret (e, wire, set_controller c w))
    | RajomonM =>
        with_self RajomonM w (λ self,
          wire ← Rajomon.finalize rajomon_params (draw_of r n) self wire (rajomon_state w);
          Ret (e, wire, w))
    | QueueLatencyM =>
        with_self QueueLatencyM w (λ self,
          '(self, wire) ← ql_finalize self SERVICE_NAME wire;
          Ret (e, wire, set_self QueueLatencyM self w))
    | GuardM | OracleM | EmptyM => Ret (e, wire, w)
    end) e w in
  (reply, wire, w).

(** No module of Masa's has a hook for root requests. *)
Definition masa_module (m : MasaModule)
    : @Stack.Module MasaType masa_value CowGrpcMethod M Response Status MasaServer (outcome MasaWorld) := {|
  decl := module_decl m;
  POLL_HOOKS := module_poll_hooks m;
  server_name := server_type m;
  m_server_new := module_server_new m;
  m_before_root_rpc := λ _ s, (s, Ok tt);
  m_after_root_rpc := λ _ _ _ _ w, (w, Ok tt);
  m_new := module_new m;
  m_before_poll := module_before_poll m;
  m_after_poll := module_after_poll m;
  m_before_child_rpc := module_before_child_rpc m;
  m_seal_child_rpc := module_seal_child_rpc m;
  m_after_child_rpc := module_after_child_rpc m;
  m_finalize := module_finalize m;
|}.

Definition masa_modules (slots : list MasaModule) := masa_module <$> slots.

(** ** A request that has started *)

(** The module keeps the budget [ctx], if it keeps one. *)
Definition keeps (ctx : Context) (m : MasaModule) : ModuleState m → Prop :=
  match m with
  | BudgetM => λ s, info s = ctx ∧ ∃ wire, carries wire ctx (budget_encoded s)
  | GuardM => λ s, budget s = ctx
  | EstimationM => λ s, est_budget s = ctx
  | OracleM => λ s, oracle_budget s = ctx
  | PredM => λ s, pred_budget s = ctx
  | RajomonM | QueueLatencyM | EmptyM => λ _, True
  end.

(** The modules of [slots] exist and share the budget [ctx], and what they read
    of the request's extensions is there. *)
Record started (ctx : Context) (slots : list MasaModule) (e : Ext) (w : MasaWorld) : Prop := {
  started_wf : ext_wf masa_value e;
  started_tally : is_Some (tally_cell w) ↔ is_Some (Extensions.get masa_value e (Plain TallyType));
  started_selves m : m ∈ slots → ∃ s, self_of w m = Some s ∧ keeps ctx m s;
  started_budget : BudgetM ∈ slots → Extensions.get masa_value e (Plain BudgetInfoType) = Some ctx;
  started_estimation :
    EstimationM ∈ slots →
    is_Some (Extensions.get masa_value e (Plain EstimationInfoType)) ∧ is_Some (tally_cell w);
}.

(** The sections of a message a module reads are well formed or absent; a
    request's budget section is there and is [ctx]. *)
Definition readable (wire : WireIn) (m : MasaModule) : Prop :=
  match m with
  | EstimationM | PredM => ∃ w, Codec.get (W:=EstimationWire) wire EST_NAME = Ret (Ok w)
  | RajomonM => ∃ w, Codec.get (W:=Rajomon.RajomonWire) wire Rajomon.NAME = Ret (Ok w)
  | QueueLatencyM => ∃ w, Codec.get (W:=QueueLatencyWire) wire QL_NAME = Ret (Ok w)
  | BudgetM | GuardM | OracleM | EmptyM => True
  end.

Definition begins (ctx : Context) (wire : WireIn) (m : MasaModule) : Prop :=
  readable wire m ∧ (m = BudgetM → ∃ enc, carries wire ctx enc).

Lemma set_self_eq m v w : self_of (set_self m v w) m = Some v.
Proof. cbn. destruct (decide (m = m)) as [e|]; [|done]. by rewrite (proof_irrel e eq_refl). Qed.

Lemma set_self_ne m v w m' : m ≠ m' → self_of (set_self m v w) m' = self_of w m'.
Proof. intros Hne. cbn. by destruct (decide (m = m')). Qed.

Lemma load_tally_spec w e :
  ext_wf masa_value e → (is_Some (tally_cell w) ↔ is_Some (Extensions.get masa_value e (Plain TallyType))) →
  ext_wf masa_value (load_tally w e) ∧
  Extensions.get masa_value (load_tally w e) (Plain TallyType) = tally_cell w ∧
  same_elsewhere masa_value e (load_tally w e) (Plain TallyType).
Proof.
  intros Hwf Ht. unfold load_tally. destruct (tally_cell w) as [t|].
  - destruct (proj1 Ht ltac:(eauto)) as [v Hv].
    destruct (update_spec masa_value e (Plain TallyType) (λ _, t) v Hwf Hv) as (? & -> & ?). done.
  - split; [done|]. split; [|done]. destruct (Extensions.get _ _ _); [|done].
    by destruct (proj2 Ht ltac:(eauto)).
Qed.

(** What a hook finds, with the tally loaded. *)
Record live (ctx : Context) (slots : list MasaModule) (e : Ext) (w : MasaWorld) : Prop := {
  live_wf : ext_wf masa_value e;
  live_selves m : m ∈ slots → ∃ s, self_of w m = Some s ∧ keeps ctx m s;
  live_budget : BudgetM ∈ slots → Extensions.get masa_value e (Plain BudgetInfoType) = Some ctx;
  live_estimation :
    EstimationM ∈ slots →
    is_Some (Extensions.get masa_value e (Plain EstimationInfoType)) ∧
    is_Some (Extensions.get masa_value e (Plain TallyType));
}.

Notation has_tally e := (is_Some (Extensions.get masa_value e (Plain TallyType))).

Lemma started_live ctx slots e w :
  started ctx slots e w → live ctx slots (load_tally w e) (next_tick w) ∧ (has_tally (load_tally w e) ↔ has_tally e).
Proof.
  intros [Hwf Ht Hs Hb He]. destruct (load_tally_spec w e Hwf Ht) as (Hwf' & Hg & _ & Ho).
  split; [|by rewrite Hg]. split; [done|done| |].
  - intros Hin. rewrite Ho by done. auto.
  - intros Hin. rewrite Ho, Hg by done. auto.
Qed.

(** A hook that takes [&mut Extensions]. *)
Lemma run_hook_mut {R} ctx slots slots' (unwound : R) hook e w :
  started ctx slots e w →
  (∀ n e1 w1, live ctx slots e1 w1 → ∃ e2 x w2, hook n e1 w1 = Ret (e2, x, w2) ∧ live ctx slots' e2 w2) →
  ∃ e' w' x, run_hook unwound hook e (Ret w) = (e', Ret w', x) ∧ started ctx slots' e' w'.
Proof.
  intros Hst Hk. destruct (started_live _ _ _ _ Hst) as [Hl _]. cbn [run_hook].
  destruct (Hk (tick w) _ _ Hl) as (e2 & x & w2 & -> & [Hwf Hs Hb He]).
  eexists _, _, _. split; [done|]. by split.
Qed.

(** One that takes [&Extensions]. *)
Lemma run_hook_ref {R} ctx slots (unwound : R) hook e w :
  started ctx slots e w →
  (∀ n e1 w1, live ctx slots e1 w1 →
     ∃ e2 x w2, hook n e1 w1 = Ret (e2, x, w2) ∧ live ctx slots e2 w2 ∧ (has_tally e2 ↔ has_tally e1)) →
  ∃ e' w' x, run_hook unwound hook e (Ret w) = (e', Ret w', x) ∧ started ctx slots e w'.
Proof.
  intros Hst Hk. destruct (started_live _ _ _ _ Hst) as [Hl Ht]. cbn [run_hook].
  destruct (Hk (tick w) _ _ Hl) as (e2 & x & w2 & -> & [Hwf Hs Hb He] & Ht2).
  eexists _, _, _. split; [done|]. destruct Hst as [Hwf' Ht' _ Hb' He'].
  split; cbn [tally_cell set_tally]; [done|by rewrite Ht2, Ht|done|done|].
  intros Hin. split; [by apply He'|]. by apply He.
Qed.

Lemma live_set_self ctx slots e w m v :
  live ctx slots e w → keeps ctx m v → live ctx slots e (set_self m v w).
Proof.
  intros [Hwf Hs Hb He] Hv. split; [done| |done|done]. intros m' Hin.
  destruct (decide (m = m')) as [<-|Hne]; [rewrite set_self_eq; eauto|].
  rewrite set_self_ne by done. auto.
Qed.

Lemma live_with_self {R} ctx slots e w m (k : ModuleState m → outcome R) (P : outcome R → Prop) :
  live ctx slots e w → m ∈ slots → (∀ s, keeps ctx m s → P (k s)) → P (with_self m w k).
Proof.
  intros Hl Hin Hk. unfold with_self. destruct (live_selves _ _ _ _ Hl m Hin) as (s & -> & Hs). by apply Hk.
Qed.

(** The world's other parts do not matter. *)
Lemma live_world ctx slots e w w' : live ctx slots e w → self_of w' = self_of w → live ctx slots e w'.
Proof. intros [? Hs ? ?] Heq. split; [done|by rewrite Heq|done..]. Qed.

(** A change of the tally. *)
Lemma live_tally ctx slots e w g :
  live ctx slots e w → has_tally e → live ctx slots (on_tally g e) w ∧ has_tally (on_tally g e).
Proof.
  intros [Hwf Hs Hb He] [t Ht].
  destruct (update_spec masa_value e (Plain TallyType) g t Hwf Ht) as (Hwf' & Hg & _ & Ho).
  fold (on_tally g e) in *. split; [|by rewrite Hg]. split; [done|done| |].
  - intros Hin. rewrite Ho by done. auto.
  - intros Hin. rewrite Ho, Hg by done. destruct (He Hin). eauto.
Qed.

Lemma info_of_live ctx slots e w : live ctx slots e w → BudgetM ∈ slots → info_of e = Ret ctx.
Proof. intros Hl Hin. unfold info_of. by rewrite (live_budget _ _ _ _ Hl Hin). Qed.

(** A module that shares nothing is added. *)
Lemma live_snoc ctx pre e w m v :
  live ctx pre e w → keeps ctx m v → m ≠ BudgetM → m ≠ EstimationM →
  live ctx (pre ++ [m]) e (set_self m v w).
Proof.
  intros Hl Hv Hb He. apply (live_set_self _ _ _ _ m v) in Hl as [Hwf Hs Hb' He']; [|done].
  split; [done| | |].
  - intros m' [Hin| ->%list_elem_of_singleton]%elem_of_app; [auto|]. rewrite set_self_eq. eauto.
  - intros [Hin|Hin%list_elem_of_singleton]%elem_of_app; [auto|done].
  - intros [Hin|Hin%list_elem_of_singleton]%elem_of_app; [auto|done].
Qed.

Lemma live_new ctx pre m method wire n e w :
  live ctx pre e w → begins ctx wire m → Forall (λ q, q ∈ pre) (module_requires m) →
  ∃ e' w', (match m with
    | BudgetM => '(self, e) ← budget_new wire e; Ret (e, tt, set_self BudgetM self w)
    | GuardM => self ← guard_new method e; Ret (e, tt, set_self GuardM self w)
    | EstimationM =>
        '(self, e) ← est_new (env_register h) method wire e (instant r n 0);
        Ret (e, tt, set_self EstimationM self w)
    | OracleM => self ← oracle_new e; Ret (e, tt, set_self OracleM self w)
    | PredM => self ← pred_new method e; Ret (e, tt, set_self PredM self w)
    | RajomonM =>
        '(self, s) ← Rajomon.module_new method wire (rajomon_state w);
        Ret (e, tt, set_rajomon s (set_self RajomonM self w))
    | QueueLatencyM => Ret (e, tt, set_self QueueLatencyM ql_new w)
    | EmptyM => Ret (e, tt, set_self EmptyM tt w)
    end) = Ret (e', tt, w') ∧ live ctx (pre ++ [m]) e' w'.
Proof.
  intros Hl [Hread Hbudget] Hreq. destruct m; cbn [module_requires] in Hreq; rewrite ?Forall_cons in Hreq.
  - destruct (Hbudget eq_refl) as [enc Hc]. rewrite (budget_new_eq _ _ _ _ Hc). cbn [mbind outcome_bind].
    eexists _, _. split; [done|]. assert (Hk : keeps ctx BudgetM (MkBudget ctx enc)) by (split; [done|by exists wire]).
    destruct (insert_spec masa_value e (Plain BudgetInfoType) ctx (live_wf _ _ _ _ Hl)) as (Hwf & _ & Hg & _ & Ho).
    split; [done| |done|].
    + intros m [Hin| ->%list_elem_of_singleton]%elem_of_app; [|rewrite set_self_eq; by eexists].
      by apply (live_selves _ _ _ _ (live_set_self _ _ _ _ BudgetM (MkBudget ctx enc) Hl Hk)).
    + intros [Hin|Hin%list_elem_of_singleton]%elem_of_app; [|done].
      rewrite !Ho by done. by apply (live_estimation _ _ _ _ Hl).
  - unfold guard_new. rewrite (info_of_live _ _ _ _ Hl) by tauto. eexists _, _. split; [done|]. by apply live_snoc.
  - destruct Hread as [w0 Hw].
    destruct (est_new_total (env_register h) method wire e (instant r n 0) w0 ctx Hw (live_wf _ _ _ _ Hl))
      as (self & e' & -> & Hb & Ht & Hwf & Hi & Hinfo); [by apply (info_of_live _ _ _ _ Hl); tauto|].
    cbn [mbind outcome_bind]. eexists _, _. split; [done|]. split; [done| | |].
    + intros m [Hin| ->%list_elem_of_singleton]%elem_of_app; [|rewrite set_self_eq; by eexists].
      by apply (live_selves _ _ _ _ (live_set_self _ _ _ _ EstimationM self Hl Hb)).
    + intros _. unfold info_of, expect_some in Hinfo.
      destruct (Extensions.get masa_value e' (Plain BudgetInfoType)); by inversion Hinfo.
    + intros _. rewrite Ht. eauto.
  - unfold oracle_new. rewrite (info_of_live _ _ _ _ Hl) by tauto. eexists _, _. split; [done|]. by apply live_snoc.
  - destruct (live_estimation _ _ _ _ Hl) as [[i Hi] _]; [tauto|]. unfold pred_new.
    rewrite Hi, (info_of_live _ _ _ _ Hl) by tauto. eexists _, _. split; [done|]. by apply live_snoc.
  - destruct Hread as [w0 Hw]. unfold Rajomon.module_new. rewrite Hw. cbn [mbind outcome_bind expect].
    destruct (decide _); eexists _, _; (split; [done|]); by eapply live_world; [apply live_snoc|].
  - eexists _, _. split; [done|]. by apply live_snoc.
  - eexists _, _. split; [done|]. by apply live_snoc.
Qed.

Lemma module_new_started ctx pre m method server wire e w :
  started ctx pre e w → begins ctx wire m → Forall (λ q, q ∈ pre) (module_requires m) →
  ∃ e' w', module_new m method server wire e (Ret w) = (e', Ret w') ∧ started ctx (pre ++ [m]) e' w'.
Proof.
  intros Hst Hb Hreq. unfold module_new.
  match goal with |- context [run_hook tt ?hook e _] =>
    destruct (run_hook_mut ctx pre (pre ++ [m]) tt hook e w Hst) as (e' & w' & x & Hr & Hs) end.
  - intros n e1 w1 Hl. destruct (live_new ctx pre m method wire n e1 w1 Hl Hb Hreq) as (e2 & w2 & Hk & ?).
    exists e2, tt, w2. by split.
  - rewrite Hr. by exists e', w'.
Qed.

(** ** What an accepted stack has *)

(** Every slot comes after the modules it requires. *)
Definition ordered (pre slots : list MasaModule) : Prop :=
  ∀ before m after, slots = before ++ m :: after → Forall (λ q, q ∈ pre ++ before) (module_requires m).

Lemma ordered_cons pre m slots :
  ordered pre (m :: slots) → Forall (λ q, q ∈ pre) (module_requires m) ∧ ordered (pre ++ [m]) slots.
Proof.
  intros Ho. split; [specialize (Ho [] m slots eq_refl); by rewrite app_nil_r in Ho|].
  intros before m' after ->. specialize (Ho (m :: before) m' after eq_refl). by rewrite <-app_assoc.
Qed.

Lemma accepted_ordered slots : validate_stack (masa_modules slots) = Ret (Ok tt) → ordered [] slots.
Proof.
  unfold validate_stack. destruct (check_names _ _) as [[]|]; [|done]. cbn [mbind outcome_bind]. intros [= Hr].
  match type of Hr with check_requires _ ?ds = _ => assert (Hspec := check_requires_spec (value:=masa_value) [] ds) end. rewrite Hr in Hspec.
  intros before m after ->. unfold Stack.describe, masa_modules in Hspec. rewrite !fmap_app, !fmap_cons in Hspec.
  specialize (Hspec _ _ _ eq_refl). unfold met in Hspec. cbn in Hspec. rewrite Forall_fmap in Hspec.
  eapply Forall_impl; [exact Hspec|]. cbn. intros q (d & Hd & Hin)%list_elem_of_fmap.
  apply list_elem_of_fmap in Hin as (m' & -> & (m'' & -> & ?)%list_elem_of_fmap). by injection Hd as ->.
Qed.

Lemma server_new_ok pre slots (init : @ServerInit MasaType masa_value) :
  ordered pre slots → (EstimationM ∈ pre → is_Some (init_get init EstimatorsType)) →
  ∃ servers, (server_new (masa_modules slots) init).2 = Ok servers ∧ length servers = length slots.
Proof.
  revert pre init. induction slots as [|m slots IH]; intros pre init Ho Hinit; [by exists []|].
  destruct (ordered_cons _ _ _ Ho) as [Hreq Hrest]. cbn [masa_modules fmap list_fmap server_new].
  assert (Hhead : ∃ init' server, m_server_new (masa_module m) (init_enter init (server_name (masa_module m)))
    = (init', Ok server) ∧ (EstimationM ∈ pre ++ [m] → is_Some (init_get init' EstimatorsType))).
  { assert (Hkeep : m ≠ EstimationM → EstimationM ∈ pre ++ [m] →
      is_Some (init_get (init_enter init (server_type m)) EstimatorsType)).
    { intros Hne [Hin|Hin%list_elem_of_singleton]%elem_of_app; [by apply Hinit|by subst]. }
    destruct (decide (m = EstimationM)) as [->|Hne]; [|specialize (Hkeep Hne); destruct m; try done; try (by eexists _, _)].
    - cbn. eexists _, _. split; [done|]. intros _. by eexists.
    - apply Forall_cons in Hreq as [_ [Hest _]%Forall_cons]. destruct (Hinit Hest) as [[] Hv].
      cbn. unfold require. unfold init_get in *. cbn. rewrite Hv. cbn. by eexists _, _. }
  destruct Hhead as (init' & server & -> & Hinit').
  destruct (IH (pre ++ [m]) init' Hrest Hinit') as (servers & Hs & Hlen). unfold masa_modules in Hs.
  destruct (server_new _ init') as [init'' res]. cbn in Hs |- *. subst res. exists (server :: servers).
  cbn. by rewrite Hlen.
Qed.

Lemma stack_new_started ctx pre slots method servers wire e w :
  length servers = length slots → started ctx pre e w → Forall (begins ctx wire) slots → ordered pre slots →
  ∃ e' w', stack_new (masa_modules slots) method servers wire e (Ret w) = (e', Ret w') ∧
    started ctx (pre ++ slots) e' w'.
Proof.
  revert pre servers e w. induction slots as [|m slots IH]; intros pre servers e w Hlen Hst Hb Ho.
  { destruct servers; [|done]. exists e, w. by rewrite app_nil_r. }
  destruct servers as [|server servers]; [done|]. apply Forall_cons in Hb as [Hm Hb].
  destruct (ordered_cons _ _ _ Ho) as [Hreq Hrest].
  destruct (module_new_started ctx pre m method server wire e w Hst Hm Hreq) as (e1 & w1 & Hn & Hst1).
  destruct (IH (pre ++ [m]) servers e1 w1) as (e2 & w2 & Hr & Hst2); [by injection Hlen|done..|].
  exists e2, w2. cbn [masa_modules fmap list_fmap stack_new masa_module m_new]. rewrite Hn.
  by rewrite <-app_assoc in Hst2.
Qed.

(** ** Polls and replies never find anything missing *)

Lemma started_set_module ctx slots e w name :
  started ctx slots e w → started ctx slots (set_module masa_value e name) w.
Proof. by intros []. Qed.

Lemma check_budget now fails self : budget (check now fails self).1 = budget self.
Proof. unfold check. by repeat case_decide; try destruct (will_abort self). Qed.

Lemma mark_live ctx slots e w g :
  live ctx slots e w → EstimationM ∈ slots → live ctx slots (on_tally g e) w ∧ has_tally (on_tally g e).
Proof. intros Hl Hin. apply live_tally; [done|]. by apply (live_estimation _ _ _ _ Hl). Qed.

Lemma tally_live ctx slots e w : live ctx slots e w → EstimationM ∈ slots → ∃ t, tally e = Ret t.
Proof. intros Hl Hin. destruct (live_estimation _ _ _ _ Hl Hin) as [_ [t Ht]]. unfold tally. rewrite Ht. by exists t. Qed.

(** The world differs in one module's state, or elsewhere. *)
Ltac stays_live Hl :=
  first [ exact Hl
        | match goal with |- context [set_self ?m ?v _] =>
            eapply live_world; [apply (live_set_self _ _ _ _ m v Hl); done|reflexivity]
          end
        | eapply live_world; [exact Hl|reflexivity] ].

(** The hook returns, with the extensions it found or, for the last tactic, with
    another tally. *)
Ltac returns Hl := eexists _, _, _; split; [reflexivity|]; stays_live Hl.
Ltac returns_ref Hl := eexists _, _, _; split; [reflexivity|]; split; [stays_live Hl|tauto].

Lemma module_before_poll_started ctx slots m e w :
  started ctx slots e w → m ∈ slots →
  ∃ e' w' reply, module_before_poll m e (Ret w) = (e', Ret w', reply) ∧ started ctx slots e' w'.
Proof.
  intros Hst Hin. apply run_hook_mut with (slots := slots); [done|]. intros n e1 w1 Hl.
  destruct m; try (by returns Hl); apply (live_with_self ctx slots e1 w1); try done; intros s Hs.
  - unfold guard_before_poll. assert (Hc := check_budget (time_us r n 0) (cas_fails r n) s).
    destruct (check _ _ s) as [s' abort]. cbn in Hc, Hs. rewrite Hs in Hc. returns Hl.
  - unfold est_before_poll. destruct (tally_live _ _ _ _ Hl Hin) as [t ->]. cbn [mbind outcome_bind].
    destruct (_ && _); [returns Hl|].
    destruct (mark_live _ _ _ _ (mark_if_late (env_features h) (est_budget s) (time_us r n 1)) Hl Hin) as [Hl1 _].
    destruct (mark_live _ _ _ _ (start_poll (instant r n 0)) Hl1 Hin) as [Hl2 _]. returns Hl2.
  - unfold pred_before_poll.
    destruct (negb _); [|destruct (admission_checked s); [|destruct (should_admit _ _ _ _ _ _) as [c ok]]]; returns Hl.
  - unfold Rajomon.before_poll. destruct (Rajomon.should_drop s); returns Hl.
  - returns Hl.
Qed.

Lemma module_after_poll_started ctx slots m poll e w :
  started ctx slots e w → m ∈ slots →
  ∃ w' reply, module_after_poll m poll e (Ret w) = (Ret w', reply) ∧ started ctx slots e w'.
Proof.
  intros Hst Hin. unfold module_after_poll.
  match goal with |- context [run_hook ?u ?hook e _] =>
    destruct (run_hook_ref ctx slots u hook e w Hst) as (e' & w' & x & Hr & Hs) end; [|rewrite Hr; eauto].
  intros n e1 w1 Hl.
  destruct m; try (by returns_ref Hl); apply (live_with_self ctx slots e1 w1); try done; intros s Hs.
  - unfold guard_after_poll. assert (Hc := check_budget (time_us r n 0) (cas_fails r n) s).
    destruct (check _ _ s) as [s' abort]. cbn in Hc, Hs. rewrite Hs in Hc. destruct poll; returns_ref Hl.
  - unfold est_after_poll. destruct (tally_live _ _ _ _ Hl Hin) as [t ->]. cbn [mbind outcome_bind].
    assert (Ht := proj2 (live_estimation _ _ _ _ Hl Hin)).
    destruct (mark_live _ _ _ _ (end_poll (instant r n 0)) Hl Hin) as [Hl1 Ht1].
    destruct (mark_live _ _ _ _ (mark_if_late (env_features h) (est_budget s) (time_us r n 1)) Hl1 Hin) as [Hl2 Ht2].
    destruct (match poll with Pending => _ | _ => _ end); [returns_ref Hl1|returns_ref Hl2].
  - returns_ref Hl.
Qed.

Lemma module_after_child_rpc_started ctx slots m child_method o wire c e w :
  started ctx slots e w → m ∈ slots → readable wire m →
  ∃ w' answer, module_after_child_rpc m child_method o wire c e (Ret w) = (Ret w', answer) ∧ started ctx slots e w'.
Proof.
  intros Hst Hin Hread. unfold module_after_child_rpc.
  match goal with |- context [run_hook ?u ?hook e _] =>
    destruct (run_hook_ref ctx slots u hook e w Hst) as (e' & w' & x & Hr & Hs) end; [|rewrite Hr; eauto].
  intros n e1 w1 Hl.
  destruct m; try (by returns_ref Hl); apply (live_with_self ctx slots e1 w1); try done; intros s Hs;
    cbn [readable] in Hread.
  - unfold guard_after_child_rpc. destruct (sent o); returns_ref Hl.
  - destruct Hread as [ws Hw]. unfold est_after_child_rpc. destruct (sent o) as [response|]; [|returns_ref Hl].
    cbn [mbind outcome_bind]. destruct (Extensions.get _ c _) as [ct|]; [|returns_ref Hl].
    rewrite Hw. cbn [mbind outcome_bind expect]. destruct (record_child_complete _ _ _ _ _ _ _ _) as [est t].
    destruct (tally_live _ _ _ _ Hl Hin) as [t0 ->]. cbn [mbind outcome_bind].
    assert (Ht := proj2 (live_estimation _ _ _ _ Hl Hin)).
    destruct (mark_live _ _ _ _ (absorb_child is_deadline_exceeded response (child_report response (ws ≫= Tally.response)))
      Hl Hin) as [Hl1 Ht1]. returns_ref Hl1.
  - destruct Hread as [ws Hw]. unfold pred_after_child_rpc. destruct (sent o) as [[]|]; try returns_ref Hl.
    destruct (negb _); [returns_ref Hl|]. destruct (root_method_id _); [|returns_ref Hl].
    rewrite Hw. cbn [mbind outcome_bind expect]. returns_ref Hl.
  - destruct Hread as [ws Hw]. unfold Rajomon.after_child_rpc. destruct (sent o); [|returns_ref Hl].
    rewrite Hw. cbn [mbind outcome_bind expect]. returns_ref Hl.
  - destruct Hread as [ws Hw]. unfold ql_after_child_rpc. destruct (sent o) as [[]|]; try returns_ref Hl.
    rewrite Hw. cbn [mbind outcome_bind expect]. returns_ref Hl.
Qed.

(** What happens to a request after it has begun, besides the calls it makes. *)
Inductive request_event :=
| BeforePoll
| AfterPoll (poll : Poll)
| ChildReply (child_method : CowGrpcMethod) (o : ChildOutcome) (wire : WireIn) (c : Ext).

Definition request_step (slots : list MasaModule) (s : Ext * outcome MasaWorld) (ev : request_event)
    : Ext * outcome MasaWorld :=
  match ev with
  | BeforePoll => fst (Stack.before_poll (masa_modules slots) s.1 s.2)
  | AfterPoll poll => (s.1, fst (Stack.after_poll (masa_modules slots) poll s.1 s.2))
  | ChildReply child_method o wire c =>
      (s.1, fst (Stack.after_child_rpc (masa_modules slots) child_method o wire c s.1 s.2))
  end.

Definition event_readable (slots : list MasaModule) (ev : request_event) : Prop :=
  match ev with ChildReply _ _ wire _ => Forall (readable wire) slots | _ => True end.

Lemma before_poll_started ctx slots ms e w :
  started ctx slots e w → Forall (λ m, m ∈ slots) ms →
  ∃ e' w' reply, Stack.before_poll (masa_modules ms) e (Ret w) = (e', Ret w', reply) ∧ started ctx slots e' w'.
Proof.
  intros Hst Hms. revert e w Hst. induction Hms as [|m ms Hm _ IH]; intros e w Hst; [by eexists _, _, _|].
  cbn [masa_modules fmap list_fmap Stack.before_poll masa_module POLL_HOOKS m_before_poll].
  destruct (module_poll_hooks m); [|by apply IH]. change (Stack.NAME (masa_module m)) with (module_name m).
  destruct (module_before_poll_started ctx slots m _ w (started_set_module _ _ _ _ (module_name m) Hst) Hm)
    as (e1 & w1 & [[]|reply] & -> & Hst1); [by apply IH|by eexists _, _, _].
Qed.

Lemma after_poll_started ctx slots ms poll e w :
  started ctx slots e w → Forall (λ m, m ∈ slots) ms →
  ∃ w' reply, Stack.after_poll (masa_modules ms) poll e (Ret w) = (Ret w', reply) ∧ started ctx slots e w'.
Proof.
  intros Hst Hms. revert w Hst. induction Hms as [|m ms Hm _ IH]; intros w Hst; [by eexists _, _|].
  cbn [masa_modules fmap list_fmap Stack.after_poll masa_module POLL_HOOKS m_after_poll].
  destruct (module_poll_hooks m); [|by apply IH].
  destruct (module_after_poll_started ctx slots m poll e w Hst Hm) as (w1 & [[]|reply] & -> & Hst1);
    [by apply IH|by eexists _, _].
Qed.

Lemma after_child_rpc_started ctx slots ms child_method o wire c e w :
  started ctx slots e w → Forall (λ m, m ∈ slots) ms → Forall (readable wire) ms →
  ∃ w' reply, Stack.after_child_rpc (masa_modules ms) child_method o wire c e (Ret w) = (Ret w', reply) ∧
    started ctx slots e w'.
Proof.
  intros Hst Hms Hr. induction ms as [|m ms IH]; [by eexists _, _|].
  apply Forall_cons in Hms as [Hm Hms]. apply Forall_cons in Hr as [Hr Hrs].
  cbn [masa_modules fmap list_fmap Stack.after_child_rpc masa_module m_after_child_rpc].
  destruct (IH Hms Hrs) as (w1 & r1 & Hi & Hst1). unfold masa_modules in Hi. rewrite Hi.
  destruct (module_after_child_rpc_started ctx slots m child_method o wire c e w1 Hst1 Hm Hr) as (w2 & r2 & -> & ?).
  by eexists _, _.
Qed.

Lemma request_step_started ctx slots e w ev :
  started ctx slots e w → event_readable slots ev →
  ∃ e' w', request_step slots (e, Ret w) ev = (e', Ret w') ∧ started ctx slots e' w'.
Proof.
  intros Hst Hr. assert (Hall : Forall (λ m, m ∈ slots) slots) by (by apply Forall_forall).
  destruct ev as [|poll|child_method o wire c]; cbn [request_step fst snd].
  - destruct (before_poll_started ctx slots slots e w Hst Hall) as (e' & w' & reply & -> & ?). by eexists _, _.
  - destruct (after_poll_started ctx slots slots poll e w Hst Hall) as (w' & reply & -> & ?). by eexists _, _.
  - destruct (after_child_rpc_started ctx slots slots child_method o wire c e w Hst Hall Hr) as (w' & reply & -> & ?).
    by eexists _, _.
Qed.

Lemma requests_run_started ctx slots evs e w :
  started ctx slots e w → Forall (event_readable slots) evs →
  ∃ e' w', foldl (request_step slots) (e, Ret w) evs = (e', Ret w') ∧ started ctx slots e' w'.
Proof.
  intros Hst Hr. revert e w Hst. induction Hr as [|ev evs Hev _ IH]; intros e w Hst; [by eexists _, _|].
  destruct (request_step_started ctx slots e w ev Hst Hev) as (e1 & w1 & Hs & Hst1).
  cbn [foldl]. rewrite Hs. by apply IH.
Qed.

Lemma nothing_started ctx w : tally_cell w = None → started ctx [] (Extensions.new masa_value) w.
Proof.
  intros Ht. split; [constructor|rewrite Ht; split; by intros []|by intros m ?%not_elem_of_nil|
    by intros ?%not_elem_of_nil|by intros ?%not_elem_of_nil].
Qed.

(** C4: What a stack's validation promises. Of the stacks that the features
    select, exactly those with predictive admission but without estimation are
    refused. Whatever modules a stack is made of, in whatever order: if the
    framework accepts it, its server is built, and for a request whose budget
    section and whose other modules' sections are readable every module is
    made, and no module ever misses what an earlier one shares: through any
    sequence of polls and of replies with readable sections no hook panics, and
    at every time all modules that keep the request's budget keep the same. *)
Theorem accepted_stack_never_stuck :
  (∀ f, validate_stack (masa_modules (MasaStack f)) = Ret
     (if f_ac_pred f && negb (f_estimator f)
      then Err (MkMissing (module_type EstimationM) (module_type PredM) ModuleAbsent) else Ok tt)) ∧
  ∀ slots service method wire w ctx evs,
    validate_stack (masa_modules slots) = Ret (Ok tt) → Forall (begins ctx wire) slots → tally_cell w = None →
    Forall (event_readable slots) evs →
    ∃ servers e1 w1 e2 w2,
      build_server (masa_modules slots) service = Ret (Ok servers) ∧
      stack_new (masa_modules slots) method servers wire (Extensions.new masa_value) (Ret w) = (e1, Ret w1) ∧
      foldl (request_step slots) (e1, Ret w1) evs = (e2, Ret w2) ∧ started ctx slots e2 w2.
Proof.
  split; [by intros [[] [] [] [] [] []]; vm_compute|].
  intros slots service method wire w ctx evs Hv Hb Ht Hr. assert (Ho := accepted_ordered slots Hv).
  destruct (server_new_ok [] slots (init_new service) Ho) as (servers & Hs & Hlen); [by intros ?%not_elem_of_nil|].
  destruct (stack_new_started ctx [] slots method servers wire _ w Hlen (nothing_started ctx w Ht) Hb Ho)
    as (e1 & w1 & Hn & Hst).
  destruct (requests_run_started ctx slots evs e1 w1 Hst Hr) as (e2 & w2 & Hrun & Hst2).
  exists servers, e1, w1, e2, w2. unfold build_server. rewrite Hv. cbn [mbind outcome_bind result_and_then].
  by rewrite Hs.
Qed.
End stack.

(** ** A concrete stack *)

#[local] Existing Instance reference_engine.
#[local] Existing Instance reference_laws.
#[local] Existing Instance reference_bincode.
#[local] Existing Instance reference_compact_laws.
#[local] Existing Instance request_bincode.
#[local] Existing Instance queue_bincode.
#[local] Existing Instance Rajomon.rajomon_bincode.
#[local] Existing Instance list_metadata.

Definition demo_readings : Readings :=
  MkReadings (λ n k, Z.of_nat (1000 * n + k)) (λ n k, Z.of_nat (1000000 * n + k)) (λ _, f64_one) (λ _, 0%Z)
    (λ _, false) (λ _, f64_zero) (λ n, Z.of_nat n) (λ _, 3%Z).

Definition demo_hooks : HookEnv bytes := demo_env (MkFeatures true false true false).

Definition demo_modules (slots : list MasaModule) :=
  masa_modules (Est:=Ewma.LatencyEwma) (M:=list (bytes * bytes)) (Response:=unit) (λ b, b) (λ b, b) (λ _, false)
    demo_hooks (λ s, Z.of_nat (length s)) map_to_list RajomonShared.default_params map_to_list
    (bytes_of_string "front") demo_readings slots.

(** Every module, predictive admission instead of Rajomon. *)
Definition demo_slots : list MasaModule := MasaStack (MkStackFeatures true true true true true true).

Definition demo_wire : WireIn :=
  match put wire_out_new BUDGET_SECTION demo_budget with Ret (Ok out) => MkWireIn (header out) | _ => wire_in_default end.

Definition demo_world : MasaWorld (Est:=Ewma.LatencyEwma) :=
  MkMasaWorld 0 estimators_new (controller_new 0) (RajomonShared.shared_new RajomonShared.default_params)
    (λ _, None) None None.

(** A poll, a child's success without sections, another poll. *)
Definition demo_events : list (request_event (Response:=unit) (Status:=bytes)) :=
  [BeforePoll; AfterPoll Pending; ChildReply demo_back (Sent (Ok tt)) wire_in_default (Extensions.new masa_value);
   BeforePoll].

Lemma accepted_stack_never_stuck_witness :
  ∃ servers e1 w1 e2 w2,
    build_server (demo_modules demo_slots) (bytes_of_string "front") = Ret (Ok servers) ∧
    stack_new (demo_modules demo_slots) demo_front servers demo_wire (Extensions.new masa_value) (Ret demo_world)
      = (e1, Ret w1) ∧
    started (Est:=Ewma.LatencyEwma) demo_budget demo_slots e2 w2.
Proof.
  destruct (get_with_encoded (W:=Context) demo_wire BUDGET_SECTION) as [[[[c enc]|]|]|] eqn:Hw; [|by vm_compute in Hw..].
  assert (c = demo_budget) as -> by (vm_compute in Hw; by injection Hw).
  destruct (proj2 (accepted_stack_never_stuck (Est:=Ewma.LatencyEwma) (M:=list (bytes * bytes)) (Response:=unit)
    (λ b, b) (λ b, b) (λ _, false) demo_hooks (λ s, Z.of_nat (length s)) map_to_list RajomonShared.default_params
    map_to_list (bytes_of_string "front") demo_readings)
    demo_slots (bytes_of_string "front") demo_front demo_wire demo_world demo_budget demo_events)
    as (servers & e1 & w1 & e2 & w2 & Hb & Hn & _ & Hst).
  - vm_compute. reflexivity.
  - repeat (apply Forall_cons; split); try apply Forall_nil_2;
      (split; [cbn [readable]; try exact I; exists None; vm_compute; reflexivity|intros [=]]).
    by exists enc.
  - reflexivity.
  - repeat (apply Forall_cons; split); try apply Forall_nil_2; cbn [readable event_readable]; try exact I;
      exists None; vm_compute; reflexivity.
  - exists servers, e1, w1, e2, w2. exact (conj Hb (conj Hn Hst)).
Defined.
