(* ===== verification/StackCall.v ===== *)
(** A call through Masa's stack: what the hooks of all modules together make of
    the request that is sent to a child, libs/masa-policy/src/module under
    libs/rpcstack/src/module.rs. *)
From S2P Require Export MasaStack.

#[local] Existing Instance Rajomon.rajomon_bincode_laws.

Section call.
  Context {E : Base64Engine} {EL : Base64Laws E}.
  Context {BC : Bincode ContextCompact} {CL : CompactLaws}.
  Context {BE : Bincode EstimationWire} {EWL : EstimationWireLaws}.
  Context {BQ : Bincode QueueLatencyWire}.
  Context {BR : Bincode Rajomon.RajomonWire} {RWL : Rajomon.RajomonWireLaws}.
  Context {Est : Type} `{Estimator Est} {M : Type} {MD : Metadata M} {Response Status : Type}.
  Context (deadline_exceeded resource_exhausted : bytes → Status) (is_deadline_exceeded : Status → bool).
  Context (h : HookEnv Status) (register_service : bytes → MethodId).
  Context (price_iter : RajomonShared.Prices → list ((CowGrpcMethod * CowGrpcMethod) * Z)).
  Context (rajomon_params : RajomonShared.RajomonParams).
  Context (length_iter : gmap bytes Z → list (bytes * Z)) (SERVICE_NAME : bytes) (r : Readings).

Notation modules slots :=
  (masa_modules (Response:=Response) deadline_exceeded resource_exhausted is_deadline_exceeded h register_service price_iter
     rajomon_params length_iter SERVICE_NAME r slots).
Notation the_module m :=
  (masa_module (Response:=Response) deadline_exceeded resource_exhausted is_deadline_exceeded h register_service price_iter
     rajomon_params length_iter SERVICE_NAME r m).
Notation before_child := (module_before_child_rpc deadline_exceeded resource_exhausted h register_service price_iter r).
Notation World := (MasaWorld (Est:=Est)).
Notation CallState := (@Stack.CallState MasaType masa_value M (outcome World)).

(** ** What is decided for the child *)

(** What a module makes of the deadline and the priority decided before it: the
    estimation module subtracts what it estimates of the parent's remaining
    time, in full or at the least; the oracle sets both from the request's
    headers. *)
Definition decides (ctx : Context) (method : CowGrpcMethod) (req : M) (P : Z * PriorityHint → Prop) (m : MasaModule)
    : Z * PriorityHint → Prop :=
  match m with
  | EstimationM => λ dp, ∃ now full_us floor_us, is_u64 full_us ∧ is_u64 floor_us ∧
      dp = child_deadline_and_prio (env_features h) ctx now full_us floor_us
  | OracleM => λ dp, ∃ hint, from_request (env_internal h) req method = Ok hint ∧
      let completion := (e2e_deadline ctx -s remaining_after_us hint)%Z in
      dp = (completion, Hint (completion -s child_work_us hint))
  | _ => P
  end.

Definition decision (ctx : Context) (method : CowGrpcMethod) (req : M) (slots : list MasaModule)
    : Z * PriorityHint → Prop :=
  foldl (decides ctx method req) (λ dp, dp = (deadline ctx, prio_hint ctx)) slots.

(** ** One hook *)

(** The modules of [seen] have accepted the call. *)
Record sending (ctx : Context) (method : CowGrpcMethod) (req : M) (slots seen : list MasaModule) (s : CallState)
    (w : World) : Prop := {
  sending_world : world s = Ret w;
  sending_started : started ctx slots (ext s) w;
  sending_request : request s = req;
  sending_child : ext_wf masa_value (child s);
  sending_decision :
    decision ctx method req seen
      (last_or (deadline ctx) (proposals masa_value (child s) ChildDeadlineType),
       last_or (prio_hint ctx) (proposals masa_value (child s) ChildPriorityType));
  sending_wire m : readable (MkWireIn (header (child_wire s))) m;
}.

(** What [est_before_child_rpc] writes and proposes when it accepts. *)
Lemma est_before_child_inv self est method service_id child out issued t1 t2 t3 self' est' child' out' :
  ext_wf masa_value child →
  est_before_child_rpc (env_internal h) (env_type_name h) (env_register h) (env_exp h) (env_features h) (env_aware h)
    (env_params h) self est method service_id child out issued t1 t2 t3 = Ret (self', est', child', out', Ok tt) →
  est_budget self' = est_budget self ∧ ext_wf masa_value child' ∧
  (∃ wire bs, serialize (W:=EstimationWire) wire = Ok bs ∧ out' = set out EST_NAME (rfc4648_encode bs)) ∧
  ∃ full_us floor_us, is_u64 full_us ∧ is_u64 floor_us ∧
    let dp := child_deadline_and_prio (env_features h) (est_budget self) t3 full_us floor_us in
    proposals masa_value child' ChildDeadlineType =
      proposals masa_value child ChildDeadlineType ++ [MkProposal (module masa_value child) dp.1] ∧
    proposals masa_value child' ChildPriorityType =
      proposals masa_value child ChildPriorityType ++ [MkProposal (module masa_value child) dp.2].
Proof.
  intros Hwf. unfold est_before_child_rpc.
  destruct (put out EST_NAME _) as [[o|]|] eqn:Hput; cbn [mbind outcome_bind expect]; try done.
  apply put_ok in Hput as (bs & Hs & ->).
  destruct (begin_child _ _ _ _ _ _) as [[t ct]|]; [|done]. cbn [mbind outcome_bind].
  destruct (est_after_child_wallclock_for_group _ _ _ _ _ _ _ _ _ _ _) as [[es rm]|]; [|done]. cbn [mbind outcome_bind].
  destruct (after_child_wallclock_last_obs _ _) as [es2 obs].
  set (full_us := decayed (Fanout.full rm) _). set (floor_us := decayed (Fanout.floor rm) _).
  destruct (child_deadline_and_prio _ _ _ full_us floor_us) as [d pr] eqn:Hdp.
  destruct (propose_or _ _ child ChildDeadlineType d) as [c1 [[]|]] eqn:H1; [|done].
  destruct (propose_or _ _ c1 ChildPriorityType pr) as [c2 [[]|]] eqn:H2; [|done].
  intros [= <- <- <- <-]. destruct (propose_or_ok _ _ _ _ _ _ Hwf H1) as (Hwf1 & Hp1 & Hm1 & Ho1).
  destruct (propose_or_ok _ _ _ _ _ _ Hwf1 H2) as (Hwf2 & Hp2 & Hm2 & Ho2).
  destruct (insert_spec masa_value c2 (Plain ChildTrackerType) ct Hwf2) as (Hwf3 & _ & _ & _ & Ho3).
  split; [done|]. split; [done|]. split; [by eexists _, _|].
  exists full_us, floor_us. split; [apply to_u64_is_u64|]. split; [apply to_u64_is_u64|].
  cbn [set_estimation est_budget] in Hdp. rewrite Hdp. cbn [fst snd].
  unfold proposals in *. rewrite !Ho3, Ho2 by done. rewrite Hp1, Hp2, Hm1, Ho1 by done. done.
Qed.

Lemma oracle_before_child_inv self method child req child' :
  ext_wf masa_value child →
  oracle_before_child_rpc (env_internal h) (env_type_name h) self method child req = (child', Ok tt) →
  ext_wf masa_value child' ∧
  ∃ hint, from_request (env_internal h) req method = Ok hint ∧
    let completion := (e2e_deadline (oracle_budget self) -s remaining_after_us hint)%Z in
    proposals masa_value child' ChildDeadlineType =
      proposals masa_value child ChildDeadlineType ++ [MkProposal (module masa_value child) completion] ∧
    proposals masa_value child' ChildPriorityType =
      proposals masa_value child ChildPriorityType
        ++ [MkProposal (module masa_value child) (Hint (completion -s child_work_us hint))].
Proof.
  intros Hwf. unfold oracle_before_child_rpc. destruct (from_request _ req method) as [hint|]; [|done].
  set (completion := (_ -s remaining_after_us hint)%Z).
  destruct (propose_or _ _ child ChildDeadlineType completion) as [c1 [[]|]] eqn:H1; [|done]. intros H2.
  destruct (propose_or_ok _ _ _ _ _ _ Hwf H1) as (Hwf1 & Hp1 & Hm1 & Ho1).
  destruct (propose_or_ok _ _ _ _ _ _ Hwf1 H2) as (Hwf2 & Hp2 & Hm2 & Ho2).
  split; [done|]. exists hint. split; [done|].
  unfold proposals in *. rewrite Ho2 by done. rewrite Hp1, Hp2, Hm1, Ho1 by done. done.
Qed.

(** ** The sections of the child's request *)

Definition read_name (m : MasaModule) : bytes :=
  match m with
  | EstimationM | PredM => EST_NAME
  | RajomonM => Rajomon.NAME
  | QueueLatencyM => QL_NAME
  | _ => []
  end.

Lemma readable_other out name payload m :
  valid_name name → SECTION_SEPARATOR ∉ payload → read_name m ≠ name →
  readable (MkWireIn (header out)) m → readable (MkWireIn (header (set out name payload))) m.
Proof.
  intros Hn Hp Hne. destruct m; cbn [readable read_name] in *; try done; intros [w Hw]; exists w;
    rewrite get_set_other; first [exact Hw|done|apply est_name_valid|apply Rajomon.name_valid|apply ql_name_valid].
Qed.

Lemma readable_new m : readable (MkWireIn (header wire_out_new)) m.
Proof. destruct m; cbn [readable]; try done; by exists None. Qed.

Lemma readable_est out wire bs m :
  serialize (W:=EstimationWire) wire = Ok bs → readable (MkWireIn (header out)) m →
  readable (MkWireIn (header (set out EST_NAME (rfc4648_encode bs)))) m.
Proof.
  intros Hs Hr. destruct (decide (read_name m = EST_NAME)) as [Heq|Hne].
  - destruct m; try done; exists (Some wire); by apply get_set; [apply est_name_valid|].
  - apply readable_other; [apply est_name_valid| |done..].
    by apply (rfc_good bs (serialize_bytes (W:=EstimationWire) _ _ Hs)).
Qed.

Lemma readable_rajomon out wire bs m :
  serialize (W:=Rajomon.RajomonWire) wire = Ok bs → readable (MkWireIn (header out)) m →
  readable (MkWireIn (header (set out Rajomon.NAME (rfc4648_encode bs)))) m.
Proof.
  intros Hs Hr. destruct (decide (read_name m = Rajomon.NAME)) as [Heq|Hne].
  - destruct m; try done; exists (Some wire); by apply get_set; [apply Rajomon.name_valid|].
  - apply readable_other; [apply Rajomon.name_valid| |done..].
    by apply (rfc_good bs (serialize_bytes (W:=Rajomon.RajomonWire) _ _ Hs)).
Qed.

(** ** The hooks of all modules *)

Lemma run_hook_ret {R} (unwound : R) hook e (w : World) e' w' x :
  run_hook unwound hook e (Ret w) = (e', Ret w', x) →
  ∃ w2, hook (tick w) (load_tally w e) (next_tick w) = Ret (e', x, w2) ∧
    w' = set_tally (Extensions.get masa_value e' (Plain TallyType)) w2.
Proof. cbn [run_hook]. destruct (hook _ _ _) as [[[e2 x2] w2]|]; [|done]. intros [= <- <- <-]. by exists w2. Qed.

Lemma live_started ctx slots e (w : World) :
  live ctx slots e w → started ctx slots e (set_tally (Extensions.get masa_value e (Plain TallyType)) w).
Proof. intros [? ? ? He]. by split. Qed.

Lemma with_self_ret {R} ctx slots e (w : World) m (k : ModuleState m → outcome R) x :
  live ctx slots e w → m ∈ slots → with_self m w k = Ret x → ∃ s, keeps ctx m s ∧ k s = Ret x.
Proof.
  intros Hl Hin. destruct (live_selves _ _ _ _ Hl m Hin) as (s & Hs & Hk). unfold with_self. rewrite Hs. by exists s.
Qed.

Lemma before_child_accepts ctx method req slots seen m s w s' w' :
  sending ctx method req slots seen s w → m ∈ slots →
  before_child m method (enter (the_module m) s) = (s', Ok tt) →
  world s' = Ret w' → sending ctx method req slots (seen ++ [m]) s' w'.
Proof.
  intros [Hw Hst Hreq Hwf Hdec Hwire] Hin Hhook Hw'. unfold module_before_child_rpc, enter in Hhook.
  destruct (started_live ctx slots _ w (started_set_module _ _ _ _ (module_name m) Hst)) as [Hl _].
  destruct (run_hook _ _ _ _) as [[e1 w1] [[c out] answer]] eqn:Hrun. injection Hhook as <- Ha. subst answer.
  cbn [world] in Hw', Hrun. subst w1. rewrite Hw in Hrun. apply run_hook_ret in Hrun as (w2 & Hk & ->).
  change (NAME (the_module m)) with (module_name m) in Hk. cbn [child child_wire request ext world] in Hk.
  enough (live ctx slots e1 w2 ∧ ext_wf masa_value c ∧
    decides ctx method req (decision ctx method req seen) m
      (last_or (deadline ctx) (proposals masa_value c ChildDeadlineType),
       last_or (prio_hint ctx) (proposals masa_value c ChildPriorityType)) ∧
    ∀ m', readable (MkWireIn (header out)) m') as (Hl2 & Hc & Hd & Hr).
  { split; cbn [world ext child request child_wire]; try done; [by apply live_started|].
    unfold decision. by rewrite foldl_app. }
  assert (Hwf' : ext_wf masa_value (set_module masa_value (child s) (module_name m))) by done.
  destruct m; cbn [decides] in *; try (injection Hk as <- <- <- <-; by split_and!);
    apply (with_self_ret _ _ _ _ _ _ _ Hl Hin) in Hk as (self & Hself & Hk); cbn [keeps] in Hself.
  - unfold guard_before_child_rpc in Hk.
    assert (Hb := check_budget (time_us r (tick w) 0) (cas_fails r (tick w)) self).
    destruct (check _ _ self) as [self' abort]. injection Hk as <- <- <- _ <-. cbn [fst] in Hb.
    split; [|done]. apply live_set_self; [done|]. cbn [keeps]. congruence.
  - destruct (est_before_child_rpc _ _ _ _ _ _ _ _ _ _ _ _ _ _ _ _ _) as [[[[[self' est'] c'] out'] answer]|] eqn:He;
      cbn [mbind outcome_bind] in Hk; [|done]. injection Hk as <- <- <- -> <-.
    destruct (est_before_child_inv _ _ _ _ _ _ _ _ _ _ _ _ _ _ Hwf' He)
      as (Hb & Hc & (wire & bs & Hs & ->) & full_us & floor_us & Hfu & Hfl & Hpd & Hpp).
    split; [|split; [done|split]].
    + eapply live_world; [apply (live_set_self _ _ _ _ EstimationM self' Hl); cbn; congruence|done].
    + eexists _, full_us, floor_us. split; [done|]. split; [done|]. unfold last_or. rewrite Hpd, Hpp, !last_snoc.
      cbn [proposal_value]. rewrite Hself. symmetry. apply surjective_pairing.
    + intros m'. by apply (readable_est _ wire).
  - destruct (oracle_before_child_rpc _ _ _ _ _ _) as [c' answer] eqn:Ho. injection Hk as <- <- <- -> <-.
    destruct (oracle_before_child_inv _ _ _ _ _ Hwf' Ho) as (Hc & hint & Hh & Hpd & Hpp).
    split; [done|]. split; [done|]. split; [|done]. rewrite Hreq in Hh. exists hint. split; [done|].
    unfold last_or. rewrite Hpd, Hpp, !last_snoc. cbn [proposal_value]. by rewrite Hself.
  - destruct (pred_before_child_rpc _ _ _ _ _ _ _ _) as [est' answer]. injection Hk as <- <- <- _ <-.
    split; [by eapply live_world|]. done.
  - destruct (Rajomon.before_child_rpc _ _ _ _ _ _) as [[[out' st] answer]|] eqn:Hb; cbn [mbind outcome_bind] in Hk; [|done].
    injection Hk as <- <- <- -> <-. split; [by eapply live_world|]. split; [done|]. split; [done|].
    unfold Rajomon.before_child_rpc in Hb. destruct (Rajomon.should_drop self); [done|]. case_decide; [done|].
    destruct (put _ Rajomon.NAME _) as [[o|]|] eqn:Hput; cbn [mbind outcome_bind expect] in Hb; try done.
    apply put_ok in Hput as (bs & Hs & ->). injection Hb as <- _. intros m'. by eapply readable_rajomon.
Qed.

Notation before_hook method := (λ m, m_before_child_rpc (Response:=Response) m method).
Notation seal_hook method := (λ m, m_seal_child_rpc (Response:=Response) m method).

(** What unwinds stays unwound. *)
Lemma before_hook_panics m method s s' answer :
  world s = Panic → m_before_child_rpc (the_module m) method s = (s', answer) → world s' = Panic.
Proof.
  intros Hw. cbn [masa_module m_before_child_rpc]. unfold module_before_child_rpc. rewrite Hw. by intros [= <- _].
Qed.

Lemma all_accept_panics ms method s s' :
  all_accept (before_hook method) (modules ms) s s' → world s = Panic → world s' = Panic.
Proof.
  revert s. induction ms as [|m ms IH]; intros s Hall Hw; inversion Hall as [|? ? ? s1 ? Hm Hrest]; subst; [done|].
  apply (IH s1 Hrest). by eapply before_hook_panics in Hm.
Qed.

Lemma all_send ctx method req slots seen ms s w s' w' :
  sending ctx method req slots seen s w → Forall (λ m, m ∈ slots) ms →
  all_accept (before_hook method) (modules ms) s s' → world s' = Ret w' →
  sending ctx method req slots (seen ++ ms) s' w'.
Proof.
  intros Hs Hms. revert seen s w Hs. induction Hms as [|m ms Hm _ IH]; intros seen s w Hs Hall Hw';
    inversion Hall as [|? ? ? s1 ? Hhook Hrest]; subst.
  { rewrite app_nil_r. destruct Hs as [Hw Hst]. rewrite Hw in Hw'. injection Hw' as <-. by split. }
  destruct (world s1) as [w1|] eqn:Hw1; [|by rewrite (all_accept_panics _ _ _ _ Hrest Hw1) in Hw'].
  rewrite (cons_middle m seen ms), app_assoc. apply (IH _ s1 w1); [|done..].
  by apply (before_child_accepts ctx method req slots seen m s w).
Qed.

(** ** Sealing *)

(** Only the names of the current module differ. *)
Definition renamed (s s' : CallState) : Prop :=
  ∃ a b, s' = MkCall (set_module masa_value (child s) a) (request s) (child_wire s) (set_module masa_value (ext s) b) (world s).

Lemma seal_skip ms method s s' :
  BudgetM ∉ ms → all_accept (seal_hook method) (modules ms) s s' → renamed s s'.
Proof.
  revert s. induction ms as [|m ms IH]; intros s Hb Hall; inversion Hall as [|? ? ? s1 ? Hm Hrest]; subst.
  { exists (module masa_value (child s')), (module masa_value (ext s')). by destruct s' as [[] ? ? [] ?]. }
  apply not_elem_of_cons in Hb as [Hne Hb]. destruct (IH s1 Hb Hrest) as (a & b & ->). exists a, b.
  destruct m; try done; injection Hm as <-; done.
Qed.

Lemma describe_modules slots : Stack.describe (modules slots) = module_decl <$> slots.
Proof. unfold Stack.describe, masa_modules. by rewrite <-list_fmap_compose. Qed.

Lemma accepted_once slots pre post :
  validate_stack (modules slots) = Ret (Ok tt) → slots = pre ++ BudgetM :: post → BudgetM ∉ pre ∧ BudgetM ∉ post.
Proof.
  unfold validate_stack. rewrite describe_modules. intros Hv ->.
  destruct (check_names [] _) as [[]|] eqn:Hn; [|done]. apply check_names_spec in Hn as [_ Hnd]; [|apply NoDup_nil_2].
  assert (Hin : ∀ l, BudgetM ∈ l → BUDGET_SECTION ∈ Stack.names (module_decl <$> l)).
  { intros l Hl. apply list_elem_of_fmap. exists (module_decl BudgetM). split; [done|].
    apply list_elem_of_filter. split; [done|]. by apply list_elem_of_fmap_2. }
  cbn [app] in Hnd. rewrite fmap_app, fmap_cons in Hnd. unfold Stack.names in Hnd.
  rewrite filter_app, fmap_app, filter_cons, decide_True, fmap_cons in Hnd by done.
  apply NoDup_app in Hnd as (_ & Hpre & [Hpost _]%NoDup_cons).
  split; intros Hb; apply Hin in Hb; [by apply (Hpre _ Hb); left|by apply Hpost].
Qed.

(** The budget module seals what was decided. *)
Lemma budget_seals ctx method req slots s w s' w' :
  sending ctx method req slots slots s w → BudgetM ∈ slots →
  m_seal_child_rpc (the_module BudgetM) method (enter (the_module BudgetM) s) = (s', Ok tt) → world s' = Ret w' →
  started ctx slots (ext s') w' ∧ ∀ m, begins (child_context ctx (child s)) (MkWireIn (header (child_wire s'))) m.
Proof.
  intros [Hw Hst Hreq Hwf Hdec Hwire] Hin Hhook Hw'.
  cbn [masa_module m_seal_child_rpc] in Hhook. unfold module_seal_child_rpc, enter in Hhook.
  destruct (started_live ctx slots _ w (started_set_module _ _ _ _ (module_name BudgetM) Hst)) as [Hl _].
  destruct (run_hook _ _ _ _) as [[e1 w1] [c out]] eqn:Hrun. injection Hhook as <-.
  cbn [world ext child_wire] in *. subst w1. rewrite Hw in Hrun. apply run_hook_ret in Hrun as (w2 & Hk & ->).
  change (NAME (the_module BudgetM)) with (module_name BudgetM) in Hk. cbn [child child_wire request ext world] in Hk.
  apply (with_self_ret _ _ _ _ _ _ _ Hl Hin) in Hk as ([i enc] & (Hi & wire & Hc) & Hk). cbn [info budget_encoded] in *.
  subst i. destruct (Budget.seal_child_rpc _ _ _) as [[c' out']|] eqn:Hseal; [|done].
  cbn [mbind outcome_bind] in Hk. injection Hk as <- <- <- <-.
  destruct (seal_child_rpc_inv ctx enc wire _ _ c' out' Hc (Hwf : ext_wf masa_value (set_module masa_value (child s) _)) Hseal)
    as (payload & enc' & -> & Hsep & Hcarries).
  split; [by apply live_started|]. intros m. split; [|intros _; by exists enc'].
  apply readable_other; [apply budget_name_valid|done|by destruct m|apply Hwire].
Qed.

Lemma decision_not_later ctx method req slots dp :
  OracleM ∉ slots → (0 ≤ deadline ctx)%Z → decision ctx method req slots dp → (dp.1 ≤ deadline ctx)%Z.
Proof.
  intros Ho Hd. induction slots as [|m slots IH] using rev_ind; [cbn; by intros ->|].
  apply not_elem_of_app in Ho as [Ho Hm%not_elem_of_cons]. unfold decision. rewrite foldl_app. cbn [foldl].
  destruct m; cbn [decides]; try (by apply IH); [|by destruct Hm].
  intros (now & full & fl & Hfull & Hfl & ->). unfold child_deadline_and_prio, hard_deadline_estimate.
  destruct (sched_pred (env_features h)), (deadline_equals_slack (env_features h)); cbn [fst]; ulia.
Qed.

(** C3: What every call through an accepted stack tells the child. If all
    modules accept the call and it is sealed, the section that the budget module
    wrote is the parent's budget with the deadline and the priority that the
    last of estimation and the oracle in the stack decides, or the parent's own
    if there is neither: the same API, request, SLO and gateway entry, so the
    same end-to-end deadline, and without an oracle never a later deadline than
    the parent's. Whatever sections the modules wrote are readable: a service
    that runs any stack can begin the request. The parent's request goes on as
    it was. *)
Theorem child_request_begins slots ctx method req e w s1 s2 w2 :
  validate_stack (modules slots) = Ret (Ok tt) → BudgetM ∈ slots → started ctx slots e w →
  Stack.before_child_rpc (modules slots) method (MkCall (Extensions.new masa_value) req wire_out_new e (Ret w))
    = (s1, Ok tt) →
  Stack.seal_child_rpc (modules slots) method s1 = (s2, Ok tt) → world s2 = Ret w2 →
  started ctx slots (ext s2) w2 ∧
  ∃ c, (api c, request_id c, slo c, gateway_entry c) = (api ctx, request_id ctx, slo ctx, gateway_entry ctx) ∧
    decision ctx method req slots (deadline c, prio_hint c) ∧
    (OracleM ∉ slots → (0 ≤ deadline ctx)%Z → (deadline c ≤ deadline ctx)%Z) ∧
    ∀ m, begins c (MkWireIn (header (child_wire s2))) m.
Proof.
  intros Hv Hin Hst Hbefore Hseal Hw2.
  assert (Hb := before_child_rpc_spec (modules slots) method
    (MkCall (Extensions.new masa_value) req wire_out_new e (Ret w))). rewrite Hbefore in Hb. cbv zeta in Hb.
  assert (Hs := seal_child_rpc_spec (modules slots) method s1). rewrite Hseal in Hs. cbv zeta in Hs.
  destruct (list_elem_of_split _ _ Hin) as (pre & post & Hsplit).
  destruct (accepted_once slots pre post Hv Hsplit) as [Hpre Hpost].
  assert (Hrev : reverse (modules slots) = modules (reverse post) ++ modules (BudgetM :: reverse pre)).
  { unfold masa_modules. rewrite <-fmap_reverse, Hsplit, reverse_app, reverse_cons, <-app_assoc. by rewrite <-fmap_app. }
  rewrite Hrev in Hs. apply all_accept_app in Hs as (s3 & Hs3 & Hs).
  inversion Hs as [|? ? ? s4 ? Hbudget Hs4]; subst. clear Hs.
  apply seal_skip in Hs3 as (a & b & ->); [|by rewrite elem_of_reverse].
  apply seal_skip in Hs4 as (a' & b' & ->); [|by rewrite elem_of_reverse].
  cbn [world ext child_wire] in *.
  destruct (world s1) as [w1|] eqn:Hw1.
  2: { exfalso. cbn [masa_module m_seal_child_rpc] in Hbudget. unfold module_seal_child_rpc, enter in Hbudget.
       cbn [world run_hook] in Hbudget. injection Hbudget as <-. by cbn in Hw2. }
  set (slots := pre ++ BudgetM :: post) in *.
  assert (Hsend : sending ctx method req slots slots s1 w1).
  { apply (all_send ctx method req slots [] slots (MkCall (Extensions.new masa_value) req wire_out_new e (Ret w)) w s1 w1);
      [|by apply Forall_forall|done..].
    split; try done; [constructor|apply readable_new]. }
  destruct (budget_seals ctx method req slots (MkCall (set_module masa_value (child s1) a) (request s1) (child_wire s1)
    (set_module masa_value (ext s1) b) (Ret w1)) w1 s4 w2) as [Hst2 Hbegins]; [|done..|].
  { destruct Hsend; split; [done|by apply started_set_module|done..]. }
  split; [by apply started_set_module|]. exists (child_context ctx (child s1)). split; [done|].
  destruct Hsend as [_ _ _ _ Hdec _]. split; [exact Hdec|]. split; [|exact Hbegins].
  intros Ho Hd. by apply (decision_not_later _ _ _ _ _ Ho Hd Hdec).
Qed.
End call.

#[local] Existing Instance reference_engine.
#[local] Existing Instance reference_laws.
#[local] Existing Instance reference_bincode.
#[local] Existing Instance reference_compact_laws.
#[local] Existing Instance request_bincode.
#[local] Existing Instance request_bincode_laws.
#[local] Existing Instance queue_bincode.
#[local] Existing Instance Rajomon.rajomon_bincode.
#[local] Existing Instance Rajomon.rajomon_bincode_wire_laws.
#[local] Existing Instance list_metadata.

(** The request's oracle headers: the child works for 30000, its parent for
    20000 afterwards. *)
Definition demo_request : list (bytes * bytes) :=
  [(ORACLE_CHILD_WORK_US_HEADER, to_string 30000); (ORACLE_REMAINING_AFTER_US_HEADER, to_string 20000)].

Definition demo_servers : list MasaServer :=
  match build_server (demo_modules demo_slots) (bytes_of_string "front") with Ret (Ok servers) => servers | _ => [] end.

Definition demo_begun :=
  stack_new (demo_modules demo_slots) demo_front demo_servers demo_wire (Extensions.new masa_value) (Ret demo_world).

Definition demo_accepted :=
  Stack.before_child_rpc (demo_modules demo_slots) demo_back
    (MkCall (Extensions.new masa_value) demo_request wire_out_new demo_begun.1 demo_begun.2).

Definition demo_sealed := Stack.seal_child_rpc (demo_modules demo_slots) demo_back demo_accepted.1.

Definition returned {A} (o : outcome A) : bool := match o with Ret _ => true | Panic => false end.

Lemma demo_runs :
  returned demo_begun.2 = true ∧ demo_accepted.2 = Ok tt ∧ demo_sealed.2 = Ok tt ∧ returned (world demo_sealed.1) = true.
Proof. split_and!; vm_compute; reflexivity. Qed.

#[local] Strategy expand [demo_sealed demo_accepted demo_modules].

Lemma pair_eq {A B} (p : A * B) b : p.2 = b → p = (p.1, b).
Proof. by destruct p; intros <-. Qed.

Lemma demo_accepted_ok w :
  demo_begun.2 = Ret w →
  Stack.before_child_rpc (demo_modules demo_slots) demo_back
    (MkCall (Extensions.new masa_value) demo_request wire_out_new demo_begun.1 (Ret w)) = (demo_accepted.1, Ok tt).
Proof. intros <-. exact (pair_eq demo_accepted (Ok tt) (proj1 (proj2 demo_runs))). Qed.

Lemma demo_sealed_ok :
  Stack.seal_child_rpc (demo_modules demo_slots) demo_back demo_accepted.1 = (demo_sealed.1, Ok tt).
Proof. exact (pair_eq demo_sealed (Ok tt) (proj1 (proj2 (proj2 demo_runs)))). Qed.

Lemma demo_begins_started :
  ∃ w, demo_begun.2 = Ret w ∧ started demo_budget demo_slots demo_begun.1 w.
Proof.
  destruct (get_with_encoded (W:=Context) demo_wire BUDGET_SECTION) as [[[[c enc]|]|]|] eqn:Hw; [|by vm_compute in Hw..].
  assert (c = demo_budget) as -> by (vm_compute in Hw; by injection Hw).
  destruct (stack_new_started (Est:=Ewma.LatencyEwma) (M:=list (bytes * bytes)) (Response:=unit)
    (λ b, b) (λ b, b) (λ _, false) demo_hooks (λ s, Z.of_nat (length s)) map_to_list RajomonShared.default_params
    map_to_list (bytes_of_string "front") demo_readings demo_budget [] demo_slots demo_front demo_servers demo_wire
    (Extensions.new masa_value) demo_world) as (e1 & w1 & Hn & Hst).
  - vm_compute. reflexivity.
  - by apply nothing_started.
  - repeat (apply Forall_cons; split); try apply Forall_nil_2;
      (split; [cbn [readable]; try exact I; exists None; vm_compute; reflexivity|intros [=]]).
    by exists enc.
  - apply (accepted_ordered (Est:=Ewma.LatencyEwma) (M:=list (bytes * bytes)) (Response:=unit)
      (λ b, b) (λ b, b) (λ _, false) demo_hooks (λ s, Z.of_nat (length s)) map_to_list RajomonShared.default_params
      map_to_list (bytes_of_string "front") demo_readings). vm_compute. reflexivity.
  - exists w1. unfold demo_begun, demo_modules. rewrite Hn. split; [reflexivity|exact Hst].
Qed.

(** Estimation proposes, the oracle decides. *)
Lemma child_request_begins_witness :
  ∃ c, deadline c = 80000%Z ∧ prio_hint c = Hint 50000 ∧ e2e_deadline c = 100000%Z ∧
    ∀ m, begins c (MkWireIn (header (child_wire demo_sealed.1))) m.
Proof.
  destruct demo_begins_started as (w & Hw & Hst). destruct demo_runs as (_ & _ & _ & Hr).
  destruct (world demo_sealed.1) as [w2|] eqn:Hw2; [|discriminate Hr].
  destruct (child_request_begins (Est:=Ewma.LatencyEwma) (M:=list (bytes * bytes)) (Response:=unit)
    (λ b, b) (λ b, b) (λ _, false) demo_hooks (λ s, Z.of_nat (length s)) map_to_list RajomonShared.default_params
    map_to_list (bytes_of_string "front") demo_readings demo_slots demo_budget demo_back demo_request demo_begun.1 w
    demo_accepted.1 demo_sealed.1 w2) as (_ & c & Hc & Hd & _ & Hb).
  - vm_compute. reflexivity.
  - left.
  - exact Hst.
  - exact (demo_accepted_ok w Hw).
  - exact demo_sealed_ok.
  - exact Hw2.
  - exists c. injection Hc as _ _ Hslo Hgw. destruct Hd as (hint & Hh & Hdp).
    assert (hint = MkHint 30000 20000) as -> by (vm_compute in Hh; by injection Hh).
    injection Hdp as Hdd Hdpr. rewrite Hdd, Hdpr. split; [reflexivity|]. split; [reflexivity|].
    split; [unfold e2e_deadline; rewrite Hslo, Hgw; reflexivity|exact Hb].
Defined.
