(* ===== verification/ParentCtx.v ===== *)
(** How a request's context reaches the child RPCs made for it: the poll hooks of
    libs/tokio/tokio/src/masa (poll_hook.rs, child_poll_hook.rs), the task header
    and [spawn_with_meta] (runtime/task/core.rs, task/spawn.rs), and tonic's use of
    them (libs/tonic/tonic/src/masa/runtime.rs and thread_local.rs, [masa_unary]
    in server/grpc.rs, the parent lookup of generated clients). The contexts are
    reference counted by hand, through raw pointers; touching one that was freed
    is an operation without a result. *)
From S2P Require Export Prelude.

(** ** The poll hook *)

(** [*const ()]; [None] is null. *)
Notation Ptr := (option nat).

Section poll_hook.
  Context {S : Type}.

(** A hook's function, given the pointer, changes the process. *)
Notation HookFn := (Ptr → S → outcome S).

Record PollHook := MkHook {
  hook_ctx : Ptr;
  on_destroy : option HookFn;
  on_clone : option HookFn;
  before_poll : option HookFn;
  after_poll : option HookFn;
}.

Definition hook_default : PollHook := MkHook None None None None None.

Definition assert (b : bool) : outcome unit := if b then Ret tt else Panic.

Definition configure (self : PollHook) (ctx : Ptr) (clone destroy before after : option HookFn) : outcome PollHook :=
  self ←
    (if bool_decide (is_Some ctx) then
       _ ← assert (bool_decide (is_Some destroy));
       _ ← assert (bool_decide (is_Some clone));
       Ret (MkHook ctx destroy clone (before_poll self) (after_poll self))
     else Ret (MkHook ctx (on_destroy self) (on_clone self) (before_poll self) (after_poll self)));
  Ret (MkHook (hook_ctx self) (on_destroy self) (on_clone self) before after).

Definition hook_new (ctx : Ptr) (clone destroy before after : option HookFn) : outcome PollHook :=
  configure hook_default ctx clone destroy before after.

Definition invoke (f : option HookFn) (self : PollHook) (s : S) : outcome S :=
  match f with Some f => f (hook_ctx self) s | None => Ret s end.

Definition invoke_before_poll (self : PollHook) : S → outcome S := invoke (before_poll self) self.
Definition invoke_after_poll (self : PollHook) : S → outcome S := invoke (after_poll self) self.

(** [Clone::clone]. *)
Definition hook_clone (self : PollHook) (s : S) : outcome (PollHook * S) :=
  s ← (if bool_decide (is_Some (hook_ctx self)) then f ← expect_some (on_clone self); f (hook_ctx self) s else Ret s);
  Ret (MkHook (hook_ctx self) (on_destroy self) (on_clone self) (before_poll self) (after_poll self), s).

Definition reset (self : PollHook) (s : S) : outcome (PollHook * S) :=
  s ← invoke (on_destroy self) self s;
  Ret (MkHook None None (on_clone self) None None, s).

(** [Drop::drop]. *)
Definition hook_drop (self : PollHook) (s : S) : outcome S := snd <$> reset self s.

(** Dropping an [Option<PollHook>]. *)
Definition drop_hook (h : option PollHook) (s : S) : outcome S :=
  match h with Some h => hook_drop h s | None => Ret s end.
End poll_hook.
Arguments PollHook : clear implicits.

(** ** Contexts *)

(** The strong counts of the [Arc]s, by a name that is never used again, and the
    thread's [PARENT_CTX]. *)
Record Store := MkStore { arcs : gmap nat nat; PARENT_CTX : Ptr }.

Notation Hook := (PollHook Store).

(** A dereference: the context must not have been freed. *)
Definition deref (p : Ptr) (s : Store) : outcome nat :=
  a ← expect_some p; _ ← expect_some (arcs s !! a); Ret a.

(** [Arc::clone]. *)
Definition arc_clone (p : Ptr) (s : Store) : outcome Store :=
  a ← expect_some p; n ← expect_some (arcs s !! a); Ret (MkStore (<[a := S n]> (arcs s)) (PARENT_CTX s)).

(** The drop of an [Arc]: the last one frees the context. *)
Definition arc_drop (p : Ptr) (s : Store) : outcome Store :=
  a ← expect_some p; n ← expect_some (arcs s !! a);
  Ret (MkStore (if decide (n = 1) then delete a (arcs s) else <[a := pred n]> (arcs s)) (PARENT_CTX s)).

(** [server::set_parent_ctx] and [reset_parent_ctx]. *)
Definition set_parent_ctx (parent : nat) (s : Store) : Store := MkStore (arcs s) (Some parent).
Definition reset_parent_ctx (s : Store) : Store := MkStore (arcs s) None.

(** [client::get_parent_ctx]: null is no parent, anything else is dereferenced. *)
Definition get_parent_ctx (s : Store) : outcome (option nat) :=
  match PARENT_CTX s with None => Ret None | Some a => Some <$> deref (Some a) s end.

(** [hook_impl::on_clone]: the count read from the pointer is given back, its
    clone is kept. *)
Definition impl_on_clone : Ptr → Store → outcome Store := arc_clone.
Definition impl_on_destroy : Ptr → Store → outcome Store := arc_drop.
Definition impl_before_poll (p : Ptr) (s : Store) : outcome Store := a ← deref p s; Ret (set_parent_ctx a s).
Definition impl_after_poll (_ : Ptr) (s : Store) : outcome Store := Ret (reset_parent_ctx s).

(** The hook takes over the caller's count. *)
Definition make_child_task_poll_hook (parent_context : nat) : outcome Hook :=
  hook_new (Some parent_context) (Some impl_on_clone) (Some impl_on_destroy)
    (Some impl_before_poll) (Some impl_after_poll).

(** ** Tasks and threads *)

(** What a task owns of contexts: the hook in its header, the hook its future
    was wrapped with when it was spawned, the [req_ctx] of the request it serves;
    and whether its future has been dropped. *)
Record Task := MkTask {
  poll_hook : option Hook;
  wrapped : option Hook;
  req_ctx : option nat;
  finished : bool;
}.

(** Where a task's poll is: in its own code, in the handler of the request it
    serves, or past the handler. *)
Inductive phase := Body | Handler | AfterHandler.

(** A thread: its [PARENT_CTX] and the task it polls. *)
Record Thread := MkThread { parent_of : Ptr; running : option (nat * phase) }.

Record Sys := MkSys {
  heap : gmap nat nat;
  next_ctx : nat;
  tasks : gmap nat Task;
  next_task : nat;
  threads : list Thread;
}.

Definition sys_new (num_threads : nat) : Sys := MkSys ∅ 0 ∅ 0 (replicate num_threads (MkThread None None)).

Definition is_running (k : nat) (s : Sys) : Prop := Exists (λ th, fst <$> running th = Some k) (threads s).

(** What a thread may do next. *)
Inductive event :=
| Spawn
| Start (k : nat)
| Arrive
| Undecodable
| Enter (accepts : bool)
| Call
| Leave
| Finish
| Stop
| DropFuture (k : nat)
| Dealloc (k : nat)
| Unwind.

(** A thread's code ran: the counts, its [PARENT_CTX], what it polls, the tasks. *)
Definition continue (t : nat) (st : Store) (r : option (nat * phase)) (ts : gmap nat Task) (s : Sys) : Sys :=
  MkSys (arcs st) (next_ctx s) ts (next_task s) (<[t := MkThread (PARENT_CTX st) r]> (threads s)).

(** [current_task_header().and_then(|h| h.maybe_clone_poll_hook())]. *)
Definition inherited_hook (r : option (nat * phase)) (s : Sys) (st : Store) : outcome (option Hook * Store) :=
  match (k ← fst <$> r; tk ← tasks s !! k; poll_hook tk) with
  | Some h => '(h, st) ← hook_clone h st; Ret (Some h, st)
  | None => Ret (None, st)
  end.

(** [spawn_with_meta], by a task or from outside of any. *)
Definition spawn (t : nat) (th : Thread) (s : Sys) : outcome Sys :=
  '(hook, st) ← inherited_hook (running th) s (MkStore (heap s) (parent_of th));
  let s := continue t st (running th) (<[next_task s := MkTask None hook None false]> (tasks s)) s in
  Ret (MkSys (heap s) (next_ctx s) (tasks s) (S (next_task s)) (threads s)).

(** The poll of a task begins and ends: [PollHookFuture::poll] around the future's. *)
Definition start_poll (t : nat) (th : Thread) (k : nat) (tk : Task) (s : Sys) : outcome Sys :=
  let st := MkStore (heap s) (parent_of th) in
  st ← match wrapped tk with Some h => invoke_before_poll h st | None => Ret st end;
  Ret (continue t st (Some (k, Body)) (tasks s) s).

Definition stop_poll (t : nat) (th : Thread) (tk : Task) (s : Sys) : outcome Sys :=
  let st := MkStore (heap s) (parent_of th) in
  st ← match wrapped tk with Some h => invoke_after_poll h st | None => Ret st end;
  Ret (continue t st None (tasks s) s).

(** The beginning of [masa_unary]: the request's context, and the hook that
    [configure_child_task_poll_hook] puts in the task's header. *)
Definition arrive (t : nat) (th : Thread) (k : nat) (tk : Task) (s : Sys) : outcome Sys :=
  let a := next_ctx s in
  st ← arc_clone (Some a) (MkStore (<[a := 1]> (heap s)) (parent_of th));
  child_hook ← make_child_task_poll_hook a;
  st ← drop_hook (poll_hook tk) st;
  let s := continue t st (running th) (<[k := MkTask (Some child_hook) (wrapped tk) (Some a) (finished tk)]> (tasks s)) s in
  Ret (MkSys (heap s) (S (next_ctx s)) (tasks s) (next_task s) (threads s)).

(** The request cannot be decoded: [masa_unary] returns. *)
Definition undecodable (t : nat) (th : Thread) (k : nat) (tk : Task) (a : nat) (s : Sys) : outcome Sys :=
  st ← arc_drop (Some a) (MkStore (heap s) (parent_of th));
  Ret (continue t st (running th) (<[k := MkTask (poll_hook tk) (wrapped tk) None (finished tk)]> (tasks s)) s).

(** The closures around the handler's future: the first sets the thread's parent
    and, if the modules reject the poll, resets it. *)
Definition enter (t : nat) (th : Thread) (k a : nat) (accepts : bool) (s : Sys) : outcome Sys :=
  let st := MkStore (heap s) (parent_of th) in
  a ← deref (Some a) st;
  let st := set_parent_ctx a st in
  Ret (if accepts then continue t st (Some (k, Handler)) (tasks s) s
       else continue t (reset_parent_ctx st) (Some (k, AfterHandler)) (tasks s) s).

Definition leave (t : nat) (th : Thread) (k : nat) (s : Sys) : Sys :=
  continue t (reset_parent_ctx (MkStore (heap s) (parent_of th))) (Some (k, AfterHandler)) (tasks s) s.

(** The end of [masa_unary]. *)
Definition finish (t : nat) (th : Thread) (k : nat) (tk : Task) (a : nat) (s : Sys) : outcome Sys :=
  st ← drop_hook (poll_hook tk) (MkStore (heap s) (parent_of th));
  st ← arc_drop (Some a) st;
  Ret (continue t st (running th) (<[k := MkTask None (wrapped tk) None (finished tk)]> (tasks s)) s).

(** Dropping a task's future: what it owns, then the hook it is wrapped with. *)
Definition drop_future (tk : Task) (st : Store) : outcome Store :=
  st ← match req_ctx tk with Some a => arc_drop (Some a) st | None => Ret st end;
  drop_hook (wrapped tk) st.

Definition end_future (t : nat) (th : Thread) (r : option (nat * phase)) (k : nat) (tk : Task) (s : Sys) : outcome Sys :=
  st ← drop_future tk (MkStore (heap s) (parent_of th));
  Ret (continue t st r (<[k := MkTask (poll_hook tk) None None true]> (tasks s)) s).

(** The task's memory goes, and with it its header. *)
Definition dealloc (t : nat) (th : Thread) (k : nat) (tk : Task) (s : Sys) : outcome Sys :=
  st ← drop_hook (poll_hook tk) (MkStore (heap s) (parent_of th));
  Ret (continue t st (running th) (delete k (tasks s)) s).

(** A thread's step; [None] where it cannot happen. *)
Definition step (t : nat) (ev : event) (s : Sys) : option (outcome Sys) :=
  th ← threads s !! t;
  match ev with
  | Spawn => Some (spawn t th s)
  | Start k =>
      tk ← tasks s !! k;
      if decide (running th = None ∧ finished tk = false ∧ ¬ is_running k s) then Some (start_poll t th k tk s) else None
  | DropFuture k =>
      tk ← tasks s !! k;
      if decide (finished tk = false ∧ ¬ is_running k s) then Some (end_future t th (running th) k tk s) else None
  | Dealloc k =>
      tk ← tasks s !! k;
      if decide (finished tk = true) then Some (dealloc t th k tk s) else None
  | Call => Some (_ ← get_parent_ctx (MkStore (heap s) (parent_of th)); Ret s)
  | _ =>
      '(k, ph) ← running th;
      tk ← tasks s !! k;
      match ev, ph, req_ctx tk with
      | Unwind, _, _ => Some (end_future t th None k tk s)
      | Leave, Handler, _ => Some (Ret (leave t th k s))
      | _, Handler, _ => None
      | Stop, _, _ => Some (stop_poll t th tk s)
      | Arrive, _, None => Some (arrive t th k tk s)
      | Undecodable, _, Some a => Some (undecodable t th k tk a s)
      | Enter accepts, _, Some a => Some (enter t th k a accepts s)
      | Finish, AfterHandler, Some a => Some (finish t th k tk a s)
      | _, _, _ => None
      end
  end.

(** ** Owners and counts *)

(** The hook [make_child_task_poll_hook] makes. *)
Definition the_hook (a : nat) : Hook :=
  MkHook (Some a) (Some impl_on_destroy) (Some impl_on_clone) (Some impl_before_poll) (Some impl_after_poll).

Definition holds (h : option Hook) : list nat :=
  match h with Some h => match hook_ctx h with Some a => [a] | None => [] end | None => [] end.

Definition serves (tk : Task) : list nat := match req_ctx tk with Some a => [a] | None => [] end.

(** The counts a task owns, and all tasks. *)
Definition owned (tk : Task) : list nat := serves tk ++ holds (wrapped tk) ++ holds (poll_hook tk).
Definition owners (ts : gmap nat Task) : list nat := map_to_list ts ≫= λ e, owned e.2.

Definition occurrences (a : nat) (l : list nat) : nat := length (filter (λ b, b = a) l).

(** Every count is the number of its owners, and a context nobody owns is gone. *)
Definition counted (h : gmap nat nat) (l : list nat) : Prop :=
  ∀ a, h !! a = match occurrences a l with 0 => None | n => Some n end.

#[export] Instance occurrences_proper a : Proper (Permutation ==> eq) (occurrences a).
Proof. intros l l' Hl. unfold occurrences. by rewrite Hl. Qed.

#[export] Instance counted_proper h : Proper (Permutation ==> iff) (counted h).
Proof. intros l l' Hl. unfold counted. by setoid_rewrite Hl. Qed.

Lemma occurrences_cons a b l : occurrences a (b :: l) = (if decide (b = a) then 1 else 0) + occurrences a l.
Proof. unfold occurrences. rewrite filter_cons. by destruct (decide (b = a)). Qed.

Lemma occurrences_in a l : a ∈ l → ∃ n, occurrences a l = S n.
Proof.
  induction l as [|b l IH]; [by intros ?%not_elem_of_nil|]. rewrite occurrences_cons.
  destruct (decide (b = a)) as [->|Hne]; [by eexists|]. intros [->|Ha]%elem_of_cons; [done|].
  destruct (IH Ha) as [n ->]. by eexists.
Qed.

Lemma occurrences_none a l : a ∉ l → occurrences a l = 0.
Proof.
  induction l as [|b l IH]; intros Hn; [done|]. apply not_elem_of_cons in Hn as [Hne Hn].
  rewrite occurrences_cons, decide_False by congruence. by rewrite IH.
Qed.

Lemma counted_alive h l a : counted h l → a ∈ l → is_Some (h !! a).
Proof. intros Hc Ha. rewrite Hc. destruct (occurrences_in a l Ha) as [n ->]. by eexists. Qed.

Lemma arc_clone_ok a st l :
  counted (arcs st) l → a ∈ l →
  ∃ h, arc_clone (Some a) st = Ret (MkStore h (PARENT_CTX st)) ∧ counted h (a :: l).
Proof.
  intros Hc Ha. destruct (occurrences_in a l Ha) as [n Hn]. unfold arc_clone.
  cbn [expect_some mbind outcome_bind]. rewrite (Hc a), Hn. cbn [expect_some mbind outcome_bind]. eexists. split; [done|].
  intros b. rewrite occurrences_cons. destruct (decide (a = b)) as [<-|Hne].
  - by rewrite lookup_insert_eq, Hn.
  - rewrite lookup_insert_ne by done. apply Hc.
Qed.

Lemma arc_drop_ok a st l :
  counted (arcs st) (a :: l) →
  ∃ h, arc_drop (Some a) st = Ret (MkStore h (PARENT_CTX st)) ∧ counted h l.
Proof.
  intros Hc. assert (Ha := Hc a). rewrite occurrences_cons, decide_True in Ha by done. unfold arc_drop. cbn in Ha.
  cbn [expect_some mbind outcome_bind]. rewrite Ha. cbn [expect_some mbind outcome_bind]. eexists. split; [done|].
  intros b. assert (Hb := Hc b). rewrite occurrences_cons in Hb.
  destruct (decide (a = b)) as [<-|Hne].
  - destruct (occurrences a l) as [|n]; [rewrite decide_True by done|rewrite decide_False by lia]; cbn [arcs];
      [by rewrite lookup_delete_eq|by rewrite lookup_insert_eq].
  - destruct (decide _); [rewrite lookup_delete_ne by done|rewrite lookup_insert_ne by done]; exact Hb.
Qed.

Lemma arc_new_ok h l a : counted h l → a ∉ l → counted (<[a := 1]> h) (a :: l).
Proof.
  intros Hc Ha b. rewrite occurrences_cons. destruct (decide (a = b)) as [<-|Hne].
  - by rewrite lookup_insert_eq, occurrences_none.
  - rewrite lookup_insert_ne by done. apply Hc.
Qed.

Definition hook_ok (h : option Hook) : Prop := match h with Some h => ∃ a, h = the_hook a | None => True end.

Lemma drop_hook_ok hk st l :
  hook_ok hk → counted (arcs st) (holds hk ++ l) →
  ∃ h, drop_hook hk st = Ret (MkStore h (PARENT_CTX st)) ∧ counted h l.
Proof.
  destruct hk as [hk|]; cbn [hook_ok holds].
  - intros [a ->] Hc. destruct (arc_drop_ok a st l Hc) as (h & Hd & Hc'). exists h. split; [|done].
    cbn [drop_hook]. unfold hook_drop, reset, invoke. cbn [the_hook on_destroy hook_ctx]. unfold impl_on_destroy.
    by rewrite Hd.
  - intros _ Hc. exists (arcs st). by destruct st.
Qed.

Lemma owners_delete ts k tk : ts !! k = Some tk → owners ts ≡ₚ owned tk ++ owners (delete k ts).
Proof.
  intros Hk. unfold owners. rewrite <-(insert_delete_id ts k tk Hk) at 1.
  rewrite map_to_list_insert by apply lookup_delete_eq. done.
Qed.

Lemma owners_insert ts k tk : owners (<[k := tk]> ts) ≡ₚ owned tk ++ owners (delete k ts).
Proof.
  unfold owners. rewrite <-insert_delete_eq, map_to_list_insert by apply lookup_delete_eq. done.
Qed.

Lemma owned_in ts k tk a : ts !! k = Some tk → a ∈ owned tk → a ∈ owners ts.
Proof. intros Hk Ha. rewrite (owners_delete ts k tk Hk). apply elem_of_app. by left. Qed.

(** ** The invariant *)

(** The parent that a task's poll gives to the calls made in it. *)
Definition parent_for (ph : phase) (tk : Task) : option nat :=
  match ph with
  | Body => h ← wrapped tk; hook_ctx h
  | Handler => req_ctx tk
  | AfterHandler => None
  end.

(** A thread's [PARENT_CTX] is null between polls and, during one, what the
    poll's phase says. *)
Definition thread_ok (ts : gmap nat Task) (th : Thread) : Prop :=
  match running th with
  | None => parent_of th = None
  | Some (k, ph) => ∃ tk, ts !! k = Some tk ∧ finished tk = false ∧ parent_of th = parent_for ph tk
  end.

(** The hooks are those of contexts, that in the header is the served request's,
    and a future that is gone owns nothing. *)
Definition hooks_ok (tk : Task) : Prop :=
  hook_ok (poll_hook tk) ∧ hook_ok (wrapped tk) ∧ (∀ a, req_ctx tk = Some a → poll_hook tk = Some (the_hook a)) ∧
  (finished tk = true → req_ctx tk = None ∧ wrapped tk = None).

Definition runs (s : Sys) (t k : nat) : Prop := ∃ th, threads s !! t = Some th ∧ fst <$> running th = Some k.

Record inv (s : Sys) : Prop := {
  inv_counts : counted (heap s) (owners (tasks s));
  inv_ctx_names a : a ∈ owners (tasks s) → a < next_ctx s;
  inv_task_names k : is_Some (tasks s !! k) → k < next_task s;
  inv_hooks : map_Forall (λ _, hooks_ok) (tasks s);
  inv_threads t th : threads s !! t = Some th → thread_ok (tasks s) th;
  inv_once t t' k : runs s t k → runs s t' k → t = t';
}.

Lemma thread_ok_ext ts ts' th :
  thread_ok ts th → (∀ k, fst <$> running th = Some k → ts' !! k = ts !! k) → thread_ok ts' th.
Proof.
  unfold thread_ok. destruct (running th) as [[k ph]|]; [|done]. intros (tk & Hk & Hrest) He.
  exists tk. by rewrite He.
Qed.

Lemma is_running_runs k s : is_running k s ↔ ∃ t, runs s t k.
Proof.
  unfold is_running, runs. rewrite Exists_exists. split.
  - intros (th & [t Ht]%list_elem_of_lookup & Hr). by exists t, th.
  - intros (t & th & Ht & Hr). exists th. split; [by eapply list_elem_of_lookup_2|done].
Qed.

(** What a step of thread [t] must establish: it may change the task it polls,
    tasks that nobody polls, and add tasks. *)
Lemma continue_inv t th st r ts s nc nt :
  inv s → threads s !! t = Some th →
  counted (arcs st) (owners ts) → (∀ a, a ∈ owners ts → a < nc) → (∀ k, is_Some (ts !! k) → k < nt) →
  map_Forall (λ _, hooks_ok) ts → thread_ok ts (MkThread (PARENT_CTX st) r) →
  (∀ t' k, t' ≠ t → runs s t' k → ts !! k = tasks s !! k ∧ fst <$> r ≠ Some k) →
  inv (MkSys (arcs st) nc ts nt (<[t := MkThread (PARENT_CTX st) r]> (threads s))).
Proof.
  intros [_ _ _ _ Hth Honce] Ht Hc Hn Hk Hh Hok Hothers.
  assert (Hlen := lookup_lt_Some _ _ _ Ht).
  assert (Hruns : ∀ t' k, runs (MkSys (arcs st) nc ts nt (<[t := MkThread (PARENT_CTX st) r]> (threads s))) t' k →
    (t' = t ∧ fst <$> r = Some k) ∨ (t' ≠ t ∧ runs s t' k)).
  { intros t' k (th' & Hl & Hr). cbn [threads] in Hl. destruct (decide (t' = t)) as [->|Hne].
    - rewrite list_lookup_insert_eq in Hl by done. injection Hl as <-. by left.
    - rewrite list_lookup_insert_ne in Hl by done. right. split; [done|]. by exists th'. }
  split; cbn [heap tasks next_ctx next_task]; try done.
  - intros t' th' Hl. cbn [threads] in Hl. destruct (decide (t' = t)) as [->|Hne].
    + rewrite list_lookup_insert_eq in Hl by done. by injection Hl as <-.
    + rewrite list_lookup_insert_ne in Hl by done. apply (thread_ok_ext (tasks s)); [by eapply Hth|].
      intros k Hr. apply (Hothers t' k Hne). by exists th'.
  - intros t1 t2 k [[-> H1]|[Hne1 H1]]%Hruns [[-> H2]|[Hne2 H2]]%Hruns; [done| | |by eapply Honce].
    + by destruct (Hothers _ _ Hne2 H2).
    + by destruct (Hothers _ _ Hne1 H1).
Qed.

(** The task the thread polls, or one that nobody polls, is changed. *)
Lemma change_task_inv t th st r k tk tk' s nc :
  inv s → threads s !! t = Some th → tasks s !! k = Some tk →
  counted (arcs st) (owned tk' ++ owners (delete k (tasks s))) →
  (∀ a, a ∈ owned tk' → a ∈ owned tk ∨ a < nc) → next_ctx s ≤ nc → hooks_ok tk' →
  thread_ok (<[k := tk']> (tasks s)) (MkThread (PARENT_CTX st) r) →
  (∀ t' k', t' ≠ t → runs s t' k' → k' ≠ k ∧ fst <$> r ≠ Some k') →
  inv (MkSys (arcs st) nc (<[k := tk']> (tasks s)) (next_task s) (<[t := MkThread (PARENT_CTX st) r]> (threads s))).
Proof.
  intros Hinv Ht Hk Hc Hown Hnc Hh Hok Hothers. apply (continue_inv t th); try done.
  - by rewrite owners_insert.
  - intros a. rewrite owners_insert, elem_of_app. destruct Hinv as [_ Hn _ _ _ _].
    intros [Ha|Ha]; [destruct (Hown a Ha) as [Ha'|]; [|done]|].
    + enough (a < next_ctx s) by lia. apply Hn. by eapply owned_in.
    + enough (a < next_ctx s) by lia. apply Hn. rewrite (owners_delete _ _ _ Hk). apply elem_of_app. by right.
  - intros k' Hk'. apply (inv_task_names _ Hinv). destruct (decide (k = k')) as [<-|Hne]; [by rewrite Hk|].
    by rewrite lookup_insert_ne in Hk'.
  - apply map_Forall_insert_2; [done|apply (inv_hooks _ Hinv)].
  - intros t' k' Hne Hr. destruct (Hothers t' k' Hne Hr) as [Hkk ?]. split; [by rewrite lookup_insert_ne|done].
Qed.

Lemma other_runs s t th k ph t' k' :
  inv s → threads s !! t = Some th → running th = Some (k, ph) → t' ≠ t → runs s t' k' → k' ≠ k.
Proof.
  intros Hinv Ht Hr Hne Hr' ->. apply Hne. apply (inv_once s Hinv t' t k Hr'). exists th. by rewrite Hr.
Qed.

(** ** The steps *)

Lemma clone_the_hook a st : hook_clone (the_hook a) st = (st ← arc_clone (Some a) st; Ret (the_hook a, st)).
Proof. done. Qed.

Lemma inherited_hook_ok s t th :
  inv s → threads s !! t = Some th →
  ∃ hook h, inherited_hook (running th) s (MkStore (heap s) (parent_of th)) = Ret (hook, MkStore h (parent_of th)) ∧
    hook_ok hook ∧ counted h (holds hook ++ owners (tasks s)) ∧ (∀ a, a ∈ holds hook → a ∈ owners (tasks s)) ∧
    hook = (k ← fst <$> running th; tk ← tasks s !! k; poll_hook tk).
Proof.
  intros Hinv Ht. unfold inherited_hook.
  destruct (k ← fst <$> running th; tk ← tasks s !! k; poll_hook tk) as [hk|] eqn:Hhk.
  2: { exists None, (heap s). split_and!; [done|done|by apply inv_counts|by intros a ?%not_elem_of_nil|done]. }
  destruct (running th) as [[k ph]|]; [|done]. cbn in Hhk.
  destruct (tasks s !! k) as [tk|] eqn:Hk; [|done]. cbn in Hhk.
  destruct (inv_hooks _ Hinv k tk Hk) as [Hok _]. rewrite Hhk in Hok. destruct Hok as [a ->].
  assert (Ha : a ∈ owners (tasks s)).
  { eapply owned_in; [exact Hk|]. unfold owned. rewrite Hhk. cbn. set_solver. }
  destruct (arc_clone_ok a (MkStore (heap s) (parent_of th)) _ (inv_counts _ Hinv) Ha) as (h & Hcl & Hc).
  exists (Some (the_hook a)), h. rewrite clone_the_hook, Hcl.
  split_and!; [done|by exists a|exact Hc|by intros b ->%list_elem_of_singleton|done].
Qed.

Lemma fresh_task s : inv s → tasks s !! next_task s = None.
Proof.
  intros Hinv. destruct (tasks s !! next_task s) eqn:Hk; [|done].
  assert (H := inv_task_names _ Hinv (next_task s) ltac:(by rewrite Hk)). lia.
Qed.

Lemma runs_exists s t k : inv s → runs s t k → ∃ tk, tasks s !! k = Some tk ∧ finished tk = false.
Proof.
  intros Hinv (th & Ht & Hr). assert (Hok := inv_threads _ Hinv t th Ht). unfold thread_ok in Hok.
  destruct (running th) as [[k' ph]|]; [|done]. injection Hr as ->. destruct Hok as (tk & ? & ? & _). by exists tk.
Qed.

Lemma spawn_ok s t th : inv s → threads s !! t = Some th → ∃ s', spawn t th s = Ret s' ∧ inv s'.
Proof.
  intros Hinv Ht. destruct (inherited_hook_ok s t th Hinv Ht) as (hook & h & Hi & Hok & Hc & Hin & _).
  unfold spawn. rewrite Hi. cbn [mbind outcome_bind]. eexists. split; [done|].
  assert (Hf := fresh_task s Hinv).
  apply (continue_inv t th (MkStore h (parent_of th)) (running th)
    (<[next_task s := MkTask None hook None false]> (tasks s)) s (next_ctx s) (S (next_task s))); try done.
  - rewrite owners_insert, delete_id by done. unfold owned. cbn. by rewrite app_nil_r.
  - intros a. rewrite owners_insert, delete_id, elem_of_app by done. unfold owned. cbn. rewrite app_nil_r.
    intros [Ha|Ha]; apply (inv_ctx_names _ Hinv); auto.
  - intros k Hk. destruct (decide (next_task s = k)) as [<-|Hne]; [lia|]. rewrite lookup_insert_ne in Hk by done.
    assert (H := inv_task_names _ Hinv k Hk). lia.
  - apply map_Forall_insert_2; [by split_and!|apply (inv_hooks _ Hinv)].
  - assert (Hto := inv_threads _ Hinv t th Ht). apply (thread_ok_ext (tasks s)); [by destruct th|]. intros k Hr. apply lookup_insert_ne. intros <-.
    destruct (runs_exists s t (next_task s) Hinv) as (tk & Hk & _); [by exists th|]. congruence.
  - intros t' k Hne Hr. split.
    + apply lookup_insert_ne. intros <-. destruct (runs_exists s t' _ Hinv Hr) as (tk & Hk & _). congruence.
    + intros Hr'. apply Hne. apply (inv_once _ Hinv t' t k Hr). by exists th.
Qed.

(** A thread that changes no task. *)
Lemma poll_inv s t th p r :
  inv s → threads s !! t = Some th → thread_ok (tasks s) (MkThread p r) →
  (∀ t' k, t' ≠ t → runs s t' k → fst <$> r ≠ Some k) →
  inv (continue t (MkStore (heap s) p) r (tasks s) s).
Proof.
  intros Hinv Ht Hok Hr. destruct (Hinv) as [Hc Ha Hk Hh _ _].
  apply (continue_inv t th (MkStore (heap s) p)); try done. intros t' k Hne Hr'. split; [done|by apply (Hr t')].
Qed.

Lemma start_poll_ok s t th k tk :
  inv s → threads s !! t = Some th → tasks s !! k = Some tk → running th = None → finished tk = false →
  ¬ is_running k s → ∃ s', start_poll t th k tk s = Ret s' ∧ inv s'.
Proof.
  intros Hinv Ht Hk Hr Hf Hn. unfold start_poll. destruct (inv_hooks _ Hinv k tk Hk) as (_ & Hw & _ & _).
  assert (Hnew : ∀ p, p = parent_for Body tk → inv (continue t (MkStore (heap s) p) (Some (k, Body)) (tasks s) s)).
  { intros p ->. apply (poll_inv s t th); [done|done|by exists tk|]. intros t' k' Hne Hr' [= <-].
    apply Hn. apply is_running_runs. by exists t'. }
  assert (Hp : parent_of th = None).
  { assert (Hok := inv_threads _ Hinv t th Ht). unfold thread_ok in Hok. by rewrite Hr in Hok. }
  destruct (wrapped tk) as [hk|] eqn:Hwr.
  - destruct Hw as [a ->]. assert (Ha : a ∈ owners (tasks s)).
    { eapply owned_in; [exact Hk|]. unfold owned. rewrite Hwr. cbn. set_solver. }
    destruct (counted_alive _ _ a (inv_counts _ Hinv) Ha) as [n Hn']. unfold invoke_before_poll, invoke.
    cbn [the_hook before_poll hook_ctx]. unfold impl_before_poll, deref. cbn [expect_some mbind outcome_bind arcs].
    rewrite Hn'. cbn [expect_some mbind outcome_bind]. eexists. split; [done|]. apply Hnew. cbn. by rewrite Hwr.
  - cbn [mbind outcome_bind]. eexists. split; [done|]. rewrite Hp. apply Hnew. cbn. by rewrite Hwr.
Qed.

Lemma stop_poll_ok s t th k ph tk :
  inv s → threads s !! t = Some th → running th = Some (k, ph) → tasks s !! k = Some tk → ph ≠ Handler →
  ∃ s', stop_poll t th tk s = Ret s' ∧ inv s'.
Proof.
  intros Hinv Ht Hr Hk Hph. unfold stop_poll. destruct (inv_hooks _ Hinv k tk Hk) as (_ & Hw & _ & _).
  assert (Hnew : inv (continue t (MkStore (heap s) None) None (tasks s) s)) by (by apply (poll_inv s t th)).
  assert (Hok := inv_threads _ Hinv t th Ht). unfold thread_ok in Hok. rewrite Hr in Hok.
  destruct Hok as (tk' & Hk' & _ & Hp). rewrite Hk in Hk'. injection Hk' as <-.
  destruct (wrapped tk) as [hk|] eqn:Hwr; [destruct Hw as [a ->]|]; cbn [mbind outcome_bind].
  - eexists. by split.
  - eexists. split; [done|]. destruct ph; [|done|]; cbn in Hp; rewrite ?Hwr in Hp; by rewrite Hp.
Qed.

Lemma thread_polls s t th k ph :
  inv s → threads s !! t = Some th → running th = Some (k, ph) →
  ∃ tk, tasks s !! k = Some tk ∧ finished tk = false ∧ parent_of th = parent_for ph tk.
Proof.
  intros Hinv Ht Hr. assert (Hok := inv_threads _ Hinv t th Ht). unfold thread_ok in Hok. by rewrite Hr in Hok.
Qed.

(** The task that [t] polls in another phase, with other contexts. *)
Lemma poll_changes s t th k ph tk tk' h nc :
  inv s → threads s !! t = Some th → running th = Some (k, ph) → tasks s !! k = Some tk →
  counted h (owned tk' ++ owners (delete k (tasks s))) →
  (∀ a, a ∈ owned tk' → a ∈ owned tk ∨ a < nc) → next_ctx s ≤ nc → hook_ok (poll_hook tk') →
  (∀ a, req_ctx tk' = Some a → poll_hook tk' = Some (the_hook a)) → finished tk' = finished tk → wrapped tk' = wrapped tk → ph ≠ Handler →
  inv (MkSys h nc (<[k := tk']> (tasks s)) (next_task s) (<[t := MkThread (parent_of th) (running th)]> (threads s))).
Proof.
  intros Hinv Ht Hr Hk Hc Hown Hnc Hok Hserve Hf Hw Hph.
  destruct (thread_polls s t th k ph Hinv Ht Hr) as (tk0 & Hk0 & Hf0 & Hp). rewrite Hk in Hk0. injection Hk0 as <-.
  destruct (inv_hooks _ Hinv k tk Hk) as (_ & Hwr & _ & _).
  apply (change_task_inv t th (MkStore h (parent_of th)) (running th) k tk tk' s nc); try done.
  - split; [done|]. rewrite Hw, Hf, Hf0. by split_and!.
  - rewrite Hr. exists tk'. rewrite lookup_insert_eq, Hf. split_and!; [done|done|].
    cbn [PARENT_CTX parent_of]. rewrite Hp. destruct ph; cbn [parent_for]; by rewrite ?Hw.
  - intros t' k' Hne Hr'. assert (Hkk := other_runs s t th k ph t' k' Hinv Ht Hr Hne Hr').
    split; [done|]. rewrite Hr. by intros [= <-].
Qed.

Lemma arrive_ok s t th k ph tk :
  inv s → threads s !! t = Some th → running th = Some (k, ph) → tasks s !! k = Some tk → ph ≠ Handler →
  req_ctx tk = None → ∃ s', arrive t th k tk s = Ret s' ∧ inv s'.
Proof.
  intros Hinv Ht Hr Hk Hph Hreq. destruct (inv_hooks _ Hinv k tk Hk) as (Hh & Hw & _ & _). set (a := next_ctx s).
  set (rest := owners (delete k (tasks s))).
  assert (Hfresh : a ∉ owners (tasks s)) by (intros Ha; apply (inv_ctx_names _ Hinv) in Ha; unfold a in Ha; lia).
  assert (Hc := arc_new_ok _ _ a (inv_counts _ Hinv) Hfresh).
  destruct (arc_clone_ok a (MkStore (<[a := 1]> (heap s)) (parent_of th)) _ Hc) as (h1 & H1 & Hc1); [left|].
  destruct (drop_hook_ok (poll_hook tk) (MkStore h1 (parent_of th)) (a :: a :: holds (wrapped tk) ++ rest) Hh)
    as (h2 & H2 & Hc2).
  { cbn [arcs]. rewrite (owners_delete _ k tk Hk) in Hc1. unfold owned, serves in Hc1. rewrite Hreq in Hc1.
    eapply counted_proper; [|exact Hc1]. fold rest. cbn [app]. solve_Permutation. }
  cbn [PARENT_CTX] in H1, H2. unfold arrive. fold a. rewrite H1. cbn [mbind outcome_bind]. unfold make_child_task_poll_hook.
  change (hook_new (Some a) _ _ _ _) with (Ret (the_hook a)). cbn [mbind outcome_bind]. rewrite H2.
  cbn [mbind outcome_bind]. eexists. split; [done|].
  apply (poll_changes s t th k ph tk _ h2 (S (next_ctx s)) Hinv Ht Hr Hk); try done; [| |lia| |].
  - unfold owned, serves. cbn [req_ctx wrapped poll_hook holds the_hook hook_ctx]. fold rest.
    eapply counted_proper; [|exact Hc2]. cbn [app]. solve_Permutation.
  - unfold owned, serves. cbn [req_ctx wrapped poll_hook holds the_hook hook_ctx]. intros b.
    rewrite !elem_of_app, !list_elem_of_singleton. unfold a. intros [->|[Hb| ->]]; [right; lia|left; auto|right; lia].
  - by exists a.
  - by intros b [= <-].
Qed.

Lemma undecodable_ok s t th k ph tk a :
  inv s → threads s !! t = Some th → running th = Some (k, ph) → tasks s !! k = Some tk → ph ≠ Handler →
  req_ctx tk = Some a → ∃ s', undecodable t th k tk a s = Ret s' ∧ inv s'.
Proof.
  intros Hinv Ht Hr Hk Hph Hreq. destruct (inv_hooks _ Hinv k tk Hk) as (Hh & Hw & _ & _).
  set (rest := owners (delete k (tasks s))).
  destruct (arc_drop_ok a (MkStore (heap s) (parent_of th)) (holds (wrapped tk) ++ holds (poll_hook tk) ++ rest))
    as (h & Hd & Hc).
  { assert (Hc := inv_counts _ Hinv). rewrite (owners_delete _ k tk Hk) in Hc. unfold owned, serves in Hc.
    rewrite Hreq in Hc. cbn [app] in Hc. by rewrite <-app_assoc in Hc. }
  unfold undecodable. rewrite Hd. cbn [mbind outcome_bind PARENT_CTX]. eexists. split; [done|].
  apply (poll_changes s t th k ph tk _ h (next_ctx s) Hinv Ht Hr Hk); try done.
  - unfold owned, serves. cbn [req_ctx wrapped poll_hook app]. by rewrite <-app_assoc.
  - unfold owned, serves. cbn [req_ctx wrapped poll_hook app]. intros b Hb. left. apply elem_of_app. by right.
Qed.

Lemma finish_ok s t th k ph tk a :
  inv s → threads s !! t = Some th → running th = Some (k, ph) → tasks s !! k = Some tk → ph ≠ Handler →
  req_ctx tk = Some a → ∃ s', finish t th k tk a s = Ret s' ∧ inv s'.
Proof.
  intros Hinv Ht Hr Hk Hph Hreq. destruct (inv_hooks _ Hinv k tk Hk) as (Hh & Hw & _ & _).
  set (rest := owners (delete k (tasks s))).
  destruct (drop_hook_ok (poll_hook tk) (MkStore (heap s) (parent_of th)) (a :: holds (wrapped tk) ++ rest) Hh)
    as (h1 & H1 & Hc1).
  { assert (Hc := inv_counts _ Hinv). rewrite (owners_delete _ k tk Hk) in Hc. unfold owned, serves in Hc.
    rewrite Hreq in Hc. eapply counted_proper; [|exact Hc]. fold rest. cbn [app]. solve_Permutation. }
  destruct (arc_drop_ok a (MkStore h1 (parent_of th)) _ Hc1) as (h2 & H2 & Hc2).
  cbn [PARENT_CTX] in H1, H2. unfold finish. rewrite H1. cbn [mbind outcome_bind]. rewrite H2.
  cbn [mbind outcome_bind]. eexists. split; [done|].
  apply (poll_changes s t th k ph tk _ h2 (next_ctx s) Hinv Ht Hr Hk); try done.
  - unfold owned, serves. cbn [req_ctx wrapped poll_hook app holds]. by rewrite app_nil_r.
  - unfold owned, serves. cbn [req_ctx wrapped poll_hook app holds]. intros b. rewrite !elem_of_app. intros [Hb|[]%not_elem_of_nil]; auto.
Qed.

Lemma enter_ok s t th k ph tk a accepts :
  inv s → threads s !! t = Some th → running th = Some (k, ph) → tasks s !! k = Some tk → req_ctx tk = Some a →
  ∃ s', enter t th k a accepts s = Ret s' ∧ inv s'.
Proof.
  intros Hinv Ht Hr Hk Hreq. destruct (thread_polls s t th k ph Hinv Ht Hr) as (tk0 & Hk0 & Hf & _).
  rewrite Hk in Hk0. injection Hk0 as <-.
  assert (Ha : a ∈ owners (tasks s)) by (eapply owned_in; [exact Hk|]; unfold owned, serves; rewrite Hreq; by left).
  destruct (counted_alive _ _ a (inv_counts _ Hinv) Ha) as [n Hn]. unfold enter, deref.
  cbn [expect_some mbind outcome_bind arcs]. rewrite Hn. cbn [expect_some mbind outcome_bind]. eexists. split; [done|].
  assert (Hothers : ∀ (ph' : phase) t' k', t' ≠ t → runs s t' k' → fst <$> Some (k, ph') ≠ Some k').
  { intros ph' t' k' Hne Hr' [= <-]. by apply (other_runs s t th k ph t' k Hinv Ht Hr Hne Hr'). }
  destruct accepts; apply (poll_inv s t th); try done; try (by apply Hothers); exists tk; by rewrite <-?Hreq.
Qed.

Lemma leave_ok s t th k ph :
  inv s → threads s !! t = Some th → running th = Some (k, ph) → inv (leave t th k s).
Proof.
  intros Hinv Ht Hr. destruct (thread_polls s t th k ph Hinv Ht Hr) as (tk & Hk & Hf & _).
  apply (poll_inv s t th); [done|done|by exists tk|]. intros t' k' Hne Hr' [= <-].
  by apply (other_runs s t th k ph t' k Hinv Ht Hr Hne Hr').
Qed.

Lemma drop_future_ok tk st l :
  hooks_ok tk → counted (arcs st) (serves tk ++ holds (wrapped tk) ++ l) →
  ∃ h, drop_future tk st = Ret (MkStore h (PARENT_CTX st)) ∧ counted h l.
Proof.
  intros (_ & Hw & _ & _). unfold drop_future, serves. destruct (req_ctx tk) as [a|]; cbn [app]; intros Hc.
  - destruct (arc_drop_ok a st _ Hc) as (h1 & -> & Hc1). cbn [mbind outcome_bind].
    destruct (drop_hook_ok (wrapped tk) (MkStore h1 (PARENT_CTX st)) l Hw Hc1) as (h2 & -> & Hc2). by exists h2.
  - cbn [mbind outcome_bind]. by apply drop_hook_ok.
Qed.

Lemma end_future_ok s t th k tk :
  inv s → threads s !! t = Some th → tasks s !! k = Some tk → ¬ is_running k s →
  ∃ s', end_future t th (running th) k tk s = Ret s' ∧ inv s'.
Proof.
  intros Hinv Ht Hk Hn. assert (Hh := inv_hooks _ Hinv k tk Hk).
  set (rest := owners (delete k (tasks s))).
  destruct (drop_future_ok tk (MkStore (heap s) (parent_of th)) (holds (poll_hook tk) ++ rest) Hh) as (h & Hd & Hc).
  { assert (Hc := inv_counts _ Hinv). rewrite (owners_delete _ k tk Hk) in Hc. unfold owned in Hc.
    by rewrite <-!app_assoc in Hc. }
  unfold end_future. rewrite Hd. cbn [mbind outcome_bind PARENT_CTX]. eexists. split; [done|].
  assert (Hnot : ∀ t' k', runs s t' k' → k ≠ k').
  { intros t' k' Hr <-. apply Hn. apply is_running_runs. by exists t'. }
  apply (change_task_inv t th (MkStore h (parent_of th)) (running th) k tk _ s (next_ctx s)); try done.
  - unfold owned, serves. cbn [req_ctx wrapped poll_hook app holds]. intros b Hb. left. rewrite !elem_of_app. auto.
  - destruct Hh as [Hp _]. by split_and!.
  - assert (Hto := inv_threads _ Hinv t th Ht). apply (thread_ok_ext (tasks s)); [by destruct th|].
    intros k' Hr. apply lookup_insert_ne. apply (Hnot t). by exists th.
  - intros t' k' Hne Hr. split; [apply not_eq_sym; by eapply Hnot|]. intros Hr'. apply Hne.
    apply (inv_once _ Hinv t' t k' Hr). by exists th.
Qed.

Lemma dealloc_ok s t th k tk :
  inv s → threads s !! t = Some th → tasks s !! k = Some tk → finished tk = true →
  ∃ s', dealloc t th k tk s = Ret s' ∧ inv s'.
Proof.
  intros Hinv Ht Hk Hf. destruct (inv_hooks _ Hinv k tk Hk) as (Hh & _ & _ & Hfin). destruct (Hfin Hf) as [Hreq Hwr].
  assert (Hown : serves tk ++ holds (wrapped tk) = []) by (unfold serves; by rewrite Hreq, Hwr).
  destruct (drop_hook_ok (poll_hook tk) (MkStore (heap s) (parent_of th)) (owners (delete k (tasks s))) Hh)
    as (h & Hd & Hc).
  { assert (Hc := inv_counts _ Hinv). rewrite (owners_delete _ k tk Hk) in Hc. unfold owned in Hc.
    by rewrite (app_assoc (serves tk)), Hown in Hc. }
  unfold dealloc. rewrite Hd. cbn [mbind outcome_bind PARENT_CTX]. eexists. split; [done|].
  assert (Hnot : ∀ t' k', runs s t' k' → k ≠ k').
  { intros t' k' Hr <-. destruct (runs_exists s t' k Hinv Hr) as (tk' & Hk' & Hf'). congruence. }
  apply (continue_inv t th (MkStore h (parent_of th)) (running th) _ s); try done.
  - intros a Ha. apply (inv_ctx_names _ Hinv). rewrite (owners_delete _ k tk Hk). apply elem_of_app. by right.
  - intros k' Hk'. apply (inv_task_names _ Hinv). cbn [tasks continue] in Hk'.
    destruct (decide (k = k')) as [<-|Hne]; [by eexists|]. by rewrite lookup_delete_ne in Hk'.
  - apply map_Forall_delete, (inv_hooks _ Hinv).
  - assert (Hto := inv_threads _ Hinv t th Ht). apply (thread_ok_ext (tasks s)); [by destruct th|].
    intros k' Hr. apply lookup_delete_ne. apply (Hnot t). by exists th.
  - intros t' k' Hne Hr. split; [apply lookup_delete_ne; by eapply Hnot|]. intros Hr'. apply Hne.
    apply (inv_once _ Hinv t' t k' Hr). by exists th.
Qed.

(** The context a thread's poll gives its calls is owned by the polled task. *)
Lemma parent_owned s t th a :
  inv s → threads s !! t = Some th → parent_of th = Some a → a ∈ owners (tasks s).
Proof.
  intros Hinv Ht Hp. assert (Hok := inv_threads _ Hinv t th Ht). unfold thread_ok in Hok.
  destruct (running th) as [[k ph]|]; [|congruence]. destruct Hok as (tk & Hk & _ & Hpar). rewrite Hp in Hpar.
  eapply owned_in; [exact Hk|]. unfold owned, serves, holds.
  destruct ph; cbn [parent_for] in Hpar; [|rewrite <-Hpar; by left|done].
  destruct (wrapped tk) as [hk|]; [|done]. cbn in Hpar. rewrite <-Hpar. apply elem_of_app. right. by left.
Qed.

Lemma get_parent_ctx_ok s t th :
  inv s → threads s !! t = Some th →
  get_parent_ctx (MkStore (heap s) (parent_of th)) = Ret (parent_of th).
Proof.
  intros Hinv Ht. unfold get_parent_ctx. cbn [PARENT_CTX]. destruct (parent_of th) as [a|] eqn:Hp; [|done].
  destruct (counted_alive _ _ a (inv_counts _ Hinv) (parent_owned s t th a Hinv Ht Hp)) as [n Hn].
  unfold deref. cbn [expect_some mbind outcome_bind arcs]. by rewrite Hn.
Qed.

Lemma step_ok s t ev o :
  inv s → ev ≠ Unwind → step t ev s = Some o → ∃ s', o = Ret s' ∧ inv s'.
Proof.
  intros Hinv Hev. unfold step. destruct (threads s !! t) as [th|] eqn:Ht; [|done]. cbn [mbind option_bind].
  assert (Hpoll : ∀ (f : nat * phase → Task → option (outcome Sys)),
    (∀ k ph tk, running th = Some (k, ph) → tasks s !! k = Some tk → f (k, ph) tk = Some o →
      ∃ s', o = Ret s' ∧ inv s') →
    ('(k, ph) ← running th; tk ← tasks s !! k; f (k, ph) tk) = Some o → ∃ s', o = Ret s' ∧ inv s').
  { intros f Hf. destruct (running th) as [[k ph]|]; [|done]. cbn [mbind option_bind].
    destruct (tasks s !! k) as [tk|] eqn:Hk; [|done]. by apply Hf. }
  assert (Htask : ∀ k (f : Task → option (outcome Sys)),
    (∀ tk, tasks s !! k = Some tk → f tk = Some o → ∃ s', o = Ret s' ∧ inv s') →
    (tk ← tasks s !! k; f tk) = Some o → ∃ s', o = Ret s' ∧ inv s').
  { intros k f Hf. destruct (tasks s !! k) as [tk|]; [|done]. by apply Hf. }
  destruct ev; try done.
  1: intros [= <-]; by apply spawn_ok.
  1: apply Htask; intros tk Hk; destruct (decide _) as [(?&?&?)|]; [|done]; intros [= <-]; by apply start_poll_ok.
  4: rewrite (get_parent_ctx_ok s t th Hinv Ht); intros [= <-]; by exists s.
  7: apply Htask; intros tk Hk; destruct (decide _) as [(?&?)|]; [|done]; intros [= <-]; by apply end_future_ok.
  7: apply Htask; intros tk Hk; destruct (decide _) as [?|]; [|done]; intros [= <-]; by eapply dealloc_ok.
  all: eapply (Hpoll (λ '(k, ph) tk, _)); intros k ph tk Hr Hk.
  all: destruct ph, (req_ctx tk) as [a|] eqn:Hreq; try done; intros [= <-].
  all: first [by eapply arrive_ok|by eapply undecodable_ok|by eapply enter_ok|by eapply finish_ok|by eapply stop_poll_ok
    |eexists; split; [done|by eapply leave_ok]].
Qed.

(** ** Runs *)

(** The states that [num_threads] threads reach when no handler panics. *)
Inductive reachable (num_threads : nat) : Sys → Prop :=
| reach_new : reachable num_threads (sys_new num_threads)
| reach_step s t ev s' :
    reachable num_threads s → ev ≠ Unwind → step t ev s = Some (Ret s') → reachable num_threads s'.

Lemma new_inv n : inv (sys_new n).
Proof.
  assert (Hidle : ∀ t th, threads (sys_new n) !! t = Some th → th = MkThread None None).
  { intros t th Ht. by apply lookup_replicate in Ht as [-> _]. }
  split.
  - intros a. cbn. by rewrite lookup_empty.
  - intros a. cbn. by intros ?%not_elem_of_nil.
  - intros k. cbn. rewrite lookup_empty. by intros [? ?].
  - apply map_Forall_empty.
  - intros t th ->%Hidle. done.
  - intros t t' k (th & ->%Hidle & Hr). done.
Qed.

Lemma reachable_inv n s : reachable n s → inv s.
Proof.
  induction 1 as [|s t ev s' _ IH Hev Hs]; [apply new_inv|].
  destruct (step_ok s t ev _ IH Hev Hs) as (s2 & [= ->] & ?). done.
Qed.

(** The context a call made now on a thread is a child of. *)
Definition parent_of_calls (s : Sys) (th : Thread) : option nat :=
  '(k, ph) ← running th; tk ← tasks s !! k; parent_for ph tk.

Lemma parent_of_thread s t th : inv s → threads s !! t = Some th → parent_of th = parent_of_calls s th.
Proof.
  intros Hinv Ht. assert (Hok := inv_threads _ Hinv t th Ht). unfold thread_ok in Hok. unfold parent_of_calls.
  destruct (running th) as [[k ph]|]; [|done]. destruct Hok as (tk & Hk & _ & Hp). cbn. by rewrite Hk.
Qed.

(** C2: However the threads of a process interleave - tasks being spawned, polled on any
    thread, served, dropped and freed - as long as no handler panics, no step touches a
    context that was freed; a context's count is the number of hooks and requests that own
    it, and a context nobody owns is gone; and the parent a thread's calls get is that of
    its poll: none between polls, the request's inside its handler, the inherited one in the
    body of a task spawned for a request. *)
Theorem parent_contexts_safe n s :
  reachable n s →
  (∀ t ev, ev ≠ Unwind → step t ev s ≠ Some Panic) ∧
  (∀ a, heap s !! a = match occurrences a (owners (tasks s)) with 0 => None | c => Some c end) ∧
  (∀ t th, threads s !! t = Some th →
    get_parent_ctx (MkStore (heap s) (parent_of th)) = Ret (parent_of_calls s th)).
Proof.
  intros Hinv%reachable_inv. split_and!.
  - intros t ev Hev Hs. by destruct (step_ok s t ev _ Hinv Hev Hs) as (s' & [=] & _).
  - apply (inv_counts _ Hinv).
  - intros t th Ht. rewrite (get_parent_ctx_ok s t th Hinv Ht). by rewrite (parent_of_thread s t th Hinv Ht).
Qed.

(** A sequence of steps. *)
Fixpoint run (l : list (nat * event)) (s : Sys) : option Sys :=
  match l with
  | [] => Some s
  | (t, ev) :: l => match step t ev s with Some (Ret s) => run l s | _ => None end
  end.

Lemma run_reachable n l s s' :
  reachable n s → Forall (λ e, e.2 ≠ Unwind) l → run l s = Some s' → reachable n s'.
Proof.
  intros Hs Hl. revert s Hs. induction Hl as [|[t ev] l Hev _ IH]; intros s Hs; [by intros [= <-]|]. cbn [run].
  destruct (step t ev s) as [[s2|]|] eqn:He; try done. apply IH. by eapply reach_step.
Qed.

Lemma spawn_in_request s t th k tk a :
  inv s → threads s !! t = Some th → fst <$> running th = Some k → tasks s !! k = Some tk → req_ctx tk = Some a →
  ∃ c, heap s !! a = Some c ∧
    step t Spawn s = Some (Ret (MkSys (<[a := S c]> (heap s)) (next_ctx s)
      (<[next_task s := MkTask None (Some (the_hook a)) None false]> (tasks s)) (S (next_task s)) (threads s))).
Proof.
  intros Hinv Ht Hr Hk Hreq. destruct (inv_hooks _ Hinv k tk Hk) as (_ & _ & Hserve & _). specialize (Hserve a Hreq).
  assert (Ha : a ∈ owners (tasks s)) by (eapply owned_in; [exact Hk|]; unfold owned, serves; rewrite Hreq; by left).
  destruct (counted_alive _ _ a (inv_counts _ Hinv) Ha) as [c Hc]. exists c. split; [done|].
  unfold step. rewrite Ht. cbn [mbind option_bind]. unfold spawn, inherited_hook. rewrite Hr. cbn [mbind option_bind].
  rewrite Hk. cbn [mbind option_bind]. rewrite Hserve, clone_the_hook. unfold arc_clone.
  cbn [expect_some mbind outcome_bind arcs]. rewrite Hc. cbn. do 3 f_equal. apply list_insert_id. by destruct th.
Qed.

(** The first poll of a task whose future is wrapped with a request's hook. *)
Lemma start_wrapped s t th k tk a :
  inv s → threads s !! t = Some th → tasks s !! k = Some tk → running th = None → finished tk = false →
  ¬ is_running k s → wrapped tk = Some (the_hook a) →
  ∃ s', step t (Start k) s = Some (Ret s') ∧ inv s' ∧ threads s' !! t = Some (MkThread (Some a) (Some (k, Body))).
Proof.
  intros Hinv Ht Hk Hidle Hf Hn Hw. destruct (start_poll_ok s t th k tk Hinv Ht Hk Hidle Hf Hn) as (s' & Hs & Hinv').
  exists s'. split_and!; [|done|].
  - unfold step. rewrite Ht. cbn [mbind option_bind]. rewrite Hk. cbn [mbind option_bind].
    rewrite decide_True by done. by rewrite Hs.
  - assert (Ha : a ∈ owners (tasks s)).
    { eapply owned_in; [exact Hk|]. unfold owned. rewrite Hw. apply elem_of_app. right. by left. }
    destruct (counted_alive _ _ a (inv_counts _ Hinv) Ha) as [c Hc]. unfold start_poll in Hs.
    rewrite Hw in Hs. unfold invoke_before_poll, invoke in Hs. cbn [the_hook before_poll hook_ctx] in Hs.
    unfold impl_before_poll, deref in Hs. cbn [expect_some mbind outcome_bind arcs] in Hs. rewrite Hc in Hs.
    cbn in Hs. injection Hs as <-. apply list_lookup_insert_eq. by eapply lookup_lt_Some.
Qed.

(** C17: A task spawned while a request is served - by the connection's task, in the handler
    or around it - inherits the request's context: it owns one more count of it, and when any
    idle thread polls the task, the calls made there are children of the request. *)
Theorem spawned_task_inherits n s t th k tk a :
  reachable n s → threads s !! t = Some th → fst <$> running th = Some k → tasks s !! k = Some tk →
  req_ctx tk = Some a →
  ∃ s', step t Spawn s = Some (Ret s') ∧
    tasks s' !! next_task s = Some (MkTask None (Some (the_hook a)) None false) ∧
    heap s' !! a = S <$> heap s !! a ∧
    ∀ t' th', threads s' !! t' = Some th' → running th' = None →
      ∃ s'', step t' (Start (next_task s)) s' = Some (Ret s'') ∧
        (get_parent_ctx ∘ MkStore (heap s'') ∘ parent_of) <$> threads s'' !! t' = Some (Ret (Some a)).
Proof.
  intros Hreach Ht Hr Hk Hreq. assert (Hinv := reachable_inv n s Hreach).
  destruct (spawn_in_request s t th k tk a Hinv Ht Hr Hk Hreq) as (c & Hc & Hs). set (s' := MkSys _ _ _ _ _) in Hs.
  assert (Hinv' : inv s').
  { by destruct (step_ok s t Spawn _ Hinv ltac:(done) Hs) as (? & [= <-] & ?). }
  assert (Hnew : tasks s' !! next_task s = Some (MkTask None (Some (the_hook a)) None false)) by apply lookup_insert_eq.
  exists s'. split_and!; [done|done|cbn; by rewrite lookup_insert_eq, Hc|]. intros t' th' Ht' Hidle.
  destruct (start_wrapped s' t' th' _ _ a Hinv' Ht' Hnew Hidle eq_refl) as (s'' & Hs'' & Hinv'' & Hl); [|done|].
  - rewrite is_running_runs. intros [t2 Hr2]. destruct (runs_exists s t2 (next_task s) Hinv Hr2) as (tk2 & Hk2 & _).
    rewrite fresh_task in Hk2; done.
  - exists s''. split; [done|]. rewrite Hl. cbn [fmap option_fmap option_map compose]. f_equal.
    exact (get_parent_ctx_ok s'' t' _ Hinv'' Hl).
Qed.

(** A handler that panics leaves its thread's parent behind: nothing on the way out
    resets it. When the request and its connection's task were the context's only owners, the
    unwinding and the task's deallocation free the context, and the next call that the thread
    makes before some poll resets its parent reads freed memory. *)
Theorem panicking_handler_dangles n s t th k tk a :
  reachable n s → threads s !! t = Some th → running th = Some (k, Handler) → tasks s !! k = Some tk →
  req_ctx tk = Some a → heap s !! a = Some 2 →
  ∃ s1 s2, step t Unwind s = Some (Ret s1) ∧ step t (Dealloc k) s1 = Some (Ret s2) ∧ heap s2 !! a = None ∧
    step t Call s2 = Some Panic.
Proof.
  intros Hinv%reachable_inv Ht Hr Hk Hreq H2. assert (Hh := inv_hooks _ Hinv k tk Hk).
  destruct (thread_polls s t th k _ Hinv Ht Hr) as (tk0 & Hk0 & _ & Hp). rewrite Hk in Hk0. injection Hk0 as <-.
  cbn [parent_for] in Hp. rewrite Hreq in Hp. destruct (Hh) as (_ & _ & Hserve & _).
  specialize (Hserve a Hreq). set (rest := owners (delete k (tasks s))).
  destruct (drop_future_ok tk (MkStore (heap s) (parent_of th)) (a :: rest) Hh)
    as (h1 & Hd1 & Hc1).
  { assert (Hc := inv_counts _ Hinv). rewrite (owners_delete _ k tk Hk) in Hc. unfold owned in Hc.
    rewrite Hserve, <-!app_assoc in Hc. exact Hc. }
  destruct (arc_drop_ok a (MkStore h1 (parent_of th)) rest Hc1) as (h2 & Hd2 & Hc2).
  assert (Hgone : h2 !! a = None).
  { rewrite (Hc2 a). assert (Hc := inv_counts _ Hinv a). rewrite (owners_delete _ k tk Hk) in Hc. fold rest in Hc.
    unfold owned, serves in Hc. rewrite Hserve, Hreq, H2 in Hc. cbn [holds the_hook hook_ctx] in Hc.
    rewrite (Permutation_app_comm (holds (wrapped tk)) [a]) in Hc. cbn [app] in Hc.
    rewrite !occurrences_cons, !decide_True in Hc by done. cbn in Hc. injection Hc as Hc.
    unfold occurrences in *. rewrite filter_app, length_app in Hc. by destruct (length (filter _ rest)); [|lia]. }
  assert (Hlt := lookup_lt_Some _ _ _ Ht).
  eexists _, _. unfold step at 1. rewrite Ht. cbn [mbind option_bind]. rewrite Hr. cbn [mbind option_bind]. rewrite Hk.
  cbn [mbind option_bind]. unfold end_future. rewrite Hd1. cbn [mbind outcome_bind]. split; [done|].
  unfold step at 1. cbn [threads continue]. rewrite list_lookup_insert_eq by done. cbn [mbind option_bind continue tasks].
  rewrite lookup_insert_eq. cbn [mbind option_bind finished]. rewrite decide_True by done. unfold dealloc.
  cbn [poll_hook continue PARENT_CTX heap parent_of arcs]. rewrite Hserve. cbn [drop_hook].
  assert (Hdrop : hook_drop (the_hook a) (MkStore h1 (parent_of th)) = Ret (MkStore h2 (parent_of th))).
  { unfold hook_drop, reset, invoke. cbn [the_hook on_destroy hook_ctx]. unfold impl_on_destroy. by rewrite Hd2. }
  rewrite Hdrop. cbn [mbind outcome_bind]. split; [done|split; [done|]].
  unfold step. cbn [threads continue PARENT_CTX]. rewrite list_lookup_insert_eq by (by rewrite length_insert).
  cbn [mbind option_bind heap parent_of arcs]. unfold get_parent_ctx. cbn [PARENT_CTX]. rewrite Hp.
  unfold deref. cbn [expect_some mbind outcome_bind arcs continue heap]. by rewrite Hgone.
Qed.

(** A connection's task is spawned and polled; a request arrives, its handler is entered
    and spawns a task, which the other thread polls. *)
Definition served_steps : list (nat * event) :=
  [(0, Spawn); (0, Start 0); (0, Arrive); (0, Enter true); (0, Spawn); (1, Start 1)].
Definition served : Sys := default (sys_new 2) (run served_steps (sys_new 2)).

Lemma served_reachable : reachable 2 served.
Proof.
  apply (run_reachable 2 served_steps (sys_new 2)); [apply reach_new|by repeat constructor|]. vm_compute. reflexivity.
Qed.

Lemma parent_contexts_safe_witness :
  (∀ t ev, ev ≠ Unwind → step t ev served ≠ Some Panic) ∧
  heap served !! 0 = Some 3 ∧
  ∀ t th, threads served !! t = Some th →
    get_parent_ctx (MkStore (heap served) (parent_of th)) = Ret (parent_of_calls served th).
Proof.
  destruct (parent_contexts_safe 2 served served_reachable) as (Hsafe & Hcounts & Hparents).
  split_and!; [exact Hsafe|rewrite Hcounts; vm_compute; reflexivity|exact Hparents].
Defined.

(** The same before the handler spawns. *)
Definition serving : Sys := default (sys_new 2) (run (take 4 served_steps) (sys_new 2)).

Lemma serving_reachable : reachable 2 serving.
Proof.
  apply (run_reachable 2 (take 4 served_steps) (sys_new 2)); [apply reach_new|by repeat constructor|]. vm_compute. reflexivity.
Qed.

Lemma spawned_task_inherits_witness :
  ∃ s', step 0 Spawn serving = Some (Ret s') ∧ heap s' !! 0 = Some 3.
Proof.
  destruct (spawned_task_inherits 2 serving 0 (MkThread (Some 0) (Some (0, Handler))) 0
    (MkTask (Some (the_hook 0)) None (Some 0) false) 0 serving_reachable) as (s' & Hs & _ & Hh & _); try reflexivity.
  exists s'. split; [exact Hs|rewrite Hh; vm_compute; reflexivity].
Defined.

Lemma panicking_handler_dangles_witness :
  ∃ s1 s2, step 0 Unwind serving = Some (Ret s1) ∧ step 0 (Dealloc 0) s1 = Some (Ret s2) ∧
    heap s2 !! 0 = None ∧ step 0 Call s2 = Some Panic.
Proof.
  apply (panicking_handler_dangles 2 serving 0 (MkThread (Some 0) (Some (0, Handler))) 0
    (MkTask (Some (the_hook 0)) None (Some 0) false) 0 serving_reachable); reflexivity.
Defined.
