(* ===== verification/MtWorker.v ===== *)
(** The multi-thread scheduler with one shared priority queue, of the project's tokio
    (feature sched_mt): libs/tokio/tokio/src/runtime/scheduler/multi_thread,
    prio_queue.rs, idle.rs and the worker loop of worker.rs. Workers and threads outside
    the runtime take turns; a step is one access to an atomic or one critical section.
    Shutdown, tracing and the hand-over of a worker's core are left out, and the queue is
    the one with [MutexBackend]. *)
From S2P Require Export Sched.

Section mt_worker.
  Context {T : Type} {HB : BinaryHeap (Keyed T)}.

(** ** The shared queue (prio_queue.rs) *)

(** [infra_pending] is written only under the lock of [infra]. *)
Record SharedPrioQueue := MkShared {
  main : heap (Keyed T);
  infra : list (Keyed T);
  infra_pending : bool;
}.

Definition shared_new : SharedPrioQueue := MkShared heap_new [] false.

Definition shared_push (item : Keyed T) (self : SharedPrioQueue) : SharedPrioQueue :=
  if is_infra (keyed_meta item) then MkShared (main self) (infra self ++ [item]) true
  else MkShared (heap_push item (main self)) (infra self) (infra_pending self).

(** The critical sections of [pop]: that of [infra] and that of [main]. *)
Definition pop_infra (self : SharedPrioQueue) : option (Keyed T) * SharedPrioQueue :=
  let rest := tail (infra self) in
  (head (infra self), MkShared (main self) rest (match rest with [] => false | _ => infra_pending self end)).

Definition pop_main (self : SharedPrioQueue) : option (Keyed T) * SharedPrioQueue :=
  match heap_pop (main self) with
  | Some (item, h) => (Some item, MkShared h (infra self) (infra_pending self))
  | None => (None, self)
  end.

Definition main_is_empty (self : SharedPrioQueue) : bool := bool_decide (heap_len (main self) = 0).

Definition queued_tasks (self : SharedPrioQueue) : list (Keyed T) := infra self ++ heap_list (main self).

(** ** The packed count of searching and unparked workers (idle.rs) *)

Definition UNPARK_SHIFT : Z := 16.
Definition SEARCH_MASK : Z := Z.shiftl 1 UNPARK_SHIFT - 1.
Definition UNPARK_MASK : Z := Z.lxor u64_max SEARCH_MASK.

Definition state_new (num_workers : nat) : Z := Z.shiftl (Z.of_nat num_workers) UNPARK_SHIFT.
Definition num_searching (state : Z) : Z := Z.land state SEARCH_MASK.
Definition num_unparked (state : Z) : Z := Z.shiftr (Z.land state UNPARK_MASK) UNPARK_SHIFT.

Definition unpark_one (num_searching state : Z) : Z :=
  wrap64 (state + Z.lor num_searching (Z.shiftl 1 UNPARK_SHIFT)).

(** Whether this was the final searching worker, and the state. *)
Definition dec_num_searching (state : Z) : bool * Z :=
  (bool_decide (num_searching state = 1%Z), wrap64 (state - 1)).

Definition dec_num_unparked (is_searching : bool) (state : Z) : bool * Z :=
  let dec := (Z.shiftl 1 UNPARK_SHIFT + if is_searching then 1 else 0)%Z in
  (is_searching && bool_decide (num_searching state = 1%Z), wrap64 (state - dec)).

Definition notify_should_wakeup (num_workers : nat) (state : Z) : bool :=
  bool_decide (num_searching state = 0%Z) && bool_decide (num_unparked state < Z.of_nat num_workers)%Z.

(** ** Workers *)

(** [worker_to_notify], its two checks, and the unparking of worker [i]. *)
Inductive notify := NotifyCheck | NotifyLock | NotifyUnpark (i : nat).

#[export] Instance notify_eq_dec : EqDecision notify.
Proof. solve_decision. Defined.

(** What a worker notifies from: the task it polls, or [notify_if_work_pending]. *)
Inductive resume := ToTask | ToPark.

Inductive pc :=
| Top
| Driving
| PopInfra
| PopMain
| Found
| Polling
| NoTask
| CheckInfra
| Register
| RecheckMain
| RecheckInfra
| Notifying (n : notify) (k : resume)
| Parked
| ParkDriving
| WokenMain
| WokenInfra
| Unregister
| StillParked.

(** [token]: the parker's notification. *)
Record Worker := MkWorker { at_pc : pc; is_searching : bool; token : bool }.

(** [outside]: the notifications that threads outside the runtime are making; [scheduled]
    and [taken] list the tasks pushed and popped so far. *)
Record State := MkState {
  queue : SharedPrioQueue;
  idle : Z;
  sleepers : list nat;
  workers : list Worker;
  outside : list (option notify);
  scheduled : list (Keyed T);
  taken : list (Keyed T);
}.

Definition mt_new (num_workers : nat) : State :=
  MkState shared_new (state_new num_workers) [] (replicate num_workers (MkWorker Top false false)) [] [] [].

Definition put_worker (i : nat) (w : Worker) (s : State) : State :=
  MkState (queue s) (idle s) (sleepers s) (<[i := w]> (workers s)) (outside s) (scheduled s) (taken s).
Definition put_idle (z : Z) (l : list nat) (s : State) : State :=
  MkState (queue s) z l (workers s) (outside s) (scheduled s) (taken s).
Definition put_outside (r : nat) (n : option notify) (s : State) : State :=
  MkState (queue s) (idle s) (sleepers s) (workers s) (<[r := n]> (outside s)) (scheduled s) (taken s).
Definition unpark (i : nat) (s : State) : State :=
  MkState (queue s) (idle s) (sleepers s) (alter (λ w, MkWorker (at_pc w) (is_searching w) true) i (workers s))
    (outside s) (scheduled s) (taken s).
Definition push_task (item : Keyed T) (s : State) : State :=
  MkState (shared_push item (queue s)) (idle s) (sleepers s) (workers s) (outside s) (scheduled s ++ [item]) (taken s).

(** A critical section of [pop]. *)
Definition pop_task (f : SharedPrioQueue → option (Keyed T) * SharedPrioQueue) (s : State) : bool * State :=
  let '(item, q) := f (queue s) in
  (bool_decide (is_Some item),
   MkState q (idle s) (sleepers s) (workers s) (outside s) (scheduled s) (taken s ++ option_list item)).

(** One step of a notification, and what is left of it. *)
Definition notify_step (n : notify) (s : State) : option notify * State :=
  let wake := notify_should_wakeup (length (workers s)) (idle s) in
  match n with
  | NotifyCheck => (if wake then Some NotifyLock else None, s)
  | NotifyLock =>
      if wake then
        let ret := last (sleepers s) in
        (NotifyUnpark <$> ret, put_idle (unpark_one 1 (idle s)) (take (pred (length (sleepers s))) (sleepers s)) s)
      else (None, s)
  | NotifyUnpark i => (None, unpark i s)
  end.

(** [Vec::swap_remove] of the first entry that is [i]. *)
Definition swap_remove (i : nat) (l : list nat) : option (list nat) :=
  '(k, _) ← list_find (i =.) l;
  Some (let short := take (pred (length l)) l in match last l with Some x => <[k := x]> short | None => short end).

(** Worker [i] goes on at [p]. *)
Definition goto (i : nat) (w : Worker) (p : pc) (s : State) : State :=
  put_worker i (MkWorker p (is_searching w) (token w)) s.

(** [SharedPrioQueue::pop], which [next_task] calls. *)
Definition shared_pop (i : nat) (w : Worker) (s : State) : option State :=
  match at_pc w with
  | Top => Some (goto i w (if infra_pending (queue s) then PopInfra else PopMain) s)
  | PopInfra => let '(found, s) := pop_task pop_infra s in Some (goto i w (if found then Found else PopMain) s)
  | PopMain => let '(found, s) := pop_task pop_main s in Some (goto i w (if found then Found else NoTask) s)
  | _ => None
  end.

(** [run_task]: [transition_from_searching], then the poll. *)
Definition run_task (i : nat) (w : Worker) (s : State) : option State :=
  match at_pc w with
  | Found =>
      if is_searching w then
        let '(is_last, idle) := dec_num_searching (idle s) in
        Some (put_worker i (MkWorker (if is_last then Notifying NotifyCheck ToTask else Polling) false (token w))
          (put_idle idle (sleepers s) s))
      else Some (goto i w Polling s)
  | Polling => Some (goto i w Top s)
  | _ => None
  end.

(** [notify_if_work_pending]. *)
Definition notify_if_work_pending (i : nat) (w : Worker) (s : State) : option State :=
  match at_pc w with
  | RecheckMain => Some (goto i w (if main_is_empty (queue s) then RecheckInfra else Notifying NotifyCheck ToPark) s)
  | RecheckInfra => Some (goto i w (if infra_pending (queue s) then Notifying NotifyCheck ToPark else Parked) s)
  | _ => None
  end.

(** [transition_to_parked]. *)
Definition transition_to_parked (i : nat) (w : Worker) (s : State) : option State :=
  match at_pc w with
  | NoTask => Some (goto i w (if main_is_empty (queue s) then CheckInfra else Top) s)
  | CheckInfra => Some (goto i w (if infra_pending (queue s) then Top else Register) s)
  | Register =>
      let '(is_last_searcher, idle) := dec_num_unparked (is_searching w) (idle s) in
      Some (put_worker i (MkWorker (if is_last_searcher then RecheckMain else Parked) false (token w))
        (put_idle idle (sleepers s ++ [i]) s))
  | _ => notify_if_work_pending i w s
  end.

(** [transition_from_parked], with [unpark_worker_by_id] and [is_parked]. *)
Definition transition_from_parked (i : nat) (w : Worker) (s : State) : option State :=
  match at_pc w with
  | WokenMain => Some (goto i w (if main_is_empty (queue s) then WokenInfra else Unregister) s)
  | WokenInfra => Some (goto i w (if infra_pending (queue s) then Unregister else StillParked) s)
  | Unregister =>
      match swap_remove i (sleepers s) with
      | Some l => Some (put_worker i (MkWorker Top false (token w)) (put_idle (unpark_one 0 (idle s)) l s))
      | None => Some (put_worker i (MkWorker Top true (token w)) s)
      end
  | StillParked =>
      if decide (i ∈ sleepers s) then Some (goto i w Parked s)
      else Some (put_worker i (MkWorker Top true (token w)) s)
  | _ => None
  end.

(** [park]: the driver's [park] ends when it had events or at a notification; a
    notification is taken after it, so that one that comes meanwhile is gone too. *)
Definition park (i : nat) (w : Worker) (s : State) : option State :=
  match at_pc w with
  | Parked => if token w then Some (goto i w ParkDriving s) else None
  | ParkDriving => Some (put_worker i (MkWorker WokenMain (is_searching w) false) s)
  | _ => transition_from_parked i w s
  end.

(** A notification that worker [i] makes. *)
Definition notify_next (i : nat) (w : Worker) (s : State) : option State :=
  match at_pc w with
  | Notifying n k =>
      let '(n', s) := notify_step n s in
      w ← workers s !! i;
      let p := match n', k with Some n', _ => Notifying n' k | None, ToTask => Polling | None, ToPark => Parked end in
      Some (put_worker i (MkWorker p (is_searching w) (token w)) s)
  | _ => None
  end.

(** The next action of worker [i], [Context::run]. *)
Definition work (i : nat) (w : Worker) (s : State) : option State :=
  match at_pc w with
  | Top | PopInfra | PopMain => shared_pop i w s
  | Driving => Some (goto i w Top s)
  | Found | Polling => run_task i w s
  | NoTask | CheckInfra | Register | RecheckMain | RecheckInfra => transition_to_parked i w s
  | Notifying _ _ => notify_next i w s
  | Parked | ParkDriving | WokenMain | WokenInfra | Unregister | StillParked => park i w s
  end.

Inductive event :=
| Work (i : nat)
| Maintain (i : nat)
| Wake (i : nat)
| Schedule (i : nat) (item : Keyed T)
| Remote (item : Keyed T)
| Continue (r : nat).

Definition step (ev : event) (s : State) : option State :=
  match ev with
  | Work i => w ← workers s !! i; work i w s
  | Maintain i =>
      w ← workers s !! i;
      match at_pc w with
      | Top | NoTask => Some (put_worker i (MkWorker Driving (is_searching w) (token w)) s)
      | _ => None
      end
  | Wake i =>
      w ← workers s !! i;
      match at_pc w with Parked => Some (goto i w ParkDriving s) | _ => None end
  | Schedule i item =>
      w ← workers s !! i;
      match at_pc w with
      | Polling => Some (put_worker i (MkWorker (Notifying NotifyCheck ToTask) (is_searching w) (token w)) (push_task item s))
      | Driving | ParkDriving => Some (push_task item s)
      | _ => None
      end
  | Remote item =>
      let s := push_task item s in
      Some (MkState (queue s) (idle s) (sleepers s) (workers s) (outside s ++ [Some NotifyCheck]) (scheduled s) (taken s))
  | Continue r =>
      n ← outside s !! r; n ← n; let '(n', s) := notify_step n s in Some (put_outside r n' s)
  end.

Ltac unfold_work_in H :=
  unfold work, shared_pop, run_task, transition_to_parked, notify_if_work_pending, park, transition_from_parked,
    notify_next, goto in H.
Ltac unfold_work :=
  unfold work, shared_pop, run_task, transition_to_parked, notify_if_work_pending, park, transition_from_parked,
    notify_next, goto.

(** ** Who is asleep, and who is counted as searching *)

Definition awake (p : pc) : bool :=
  match p with
  | Top | Driving | PopInfra | PopMain | Found | Polling | NoTask | CheckInfra | Register | Notifying _ ToTask => true
  | _ => false
  end.

(** Where a worker goes to, or is, parked without looking at the queue first. *)
Definition waits (p : pc) : bool :=
  match p with RecheckMain | RecheckInfra | Notifying _ ToPark | Parked => true | _ => false end.

(** Searching workers, and the sleepers that were told to wake and have not noticed. *)
Definition counted (sl : list nat) (i : nat) (w : Worker) : bool :=
  if awake (at_pc w) then is_searching w else bool_decide (i ∉ sl).

Definition count (sl : list nat) (ws : list Worker) : Z := sum_Z (imap (λ i w, Z.b2z (counted sl i w)) ws).

Definition unparking (s : State) (i : nat) : Prop :=
  (∃ j w k, workers s !! j = Some w ∧ at_pc w = Notifying (NotifyUnpark i) k) ∨ Some (NotifyUnpark i) ∈ outside s.

(** A worker that polls a task or sleeps is not searching. *)
Definition pc_ok (w : Worker) : Prop :=
  match at_pc w with Polling | Notifying _ ToTask => is_searching w = false | p => awake p = false → is_searching w = false end.

(** [u] is a worker that a notification has just chosen. *)
Record inv (u : option nat) (s : State) : Prop := {
  inv_flag : infra_pending (queue s) = bool_decide (infra (queue s) ≠ []);
  inv_few : (Z.of_nat (length (workers s)) < 65536)%Z;
  inv_idle : idle s = (65536 * (Z.of_nat (length (workers s)) - Z.of_nat (length (sleepers s))) + count (sleepers s) (workers s))%Z;
  inv_nodup : NoDup (sleepers s);
  inv_asleep i : i ∈ sleepers s → ∃ w, workers s !! i = Some w ∧ awake (at_pc w) = false;
  inv_pc : Forall pc_ok (workers s);
  inv_token i w : workers s !! i = Some w → waits (at_pc w) = true → i ∉ sleepers s →
    token w = true ∨ unparking s i ∨ u = Some i;
}.

Lemma sum_Z_insert l i x y : l !! i = Some x → sum_Z (<[i := y]> l) = (sum_Z l - x + y)%Z.
Proof.
  revert i. induction l as [|z l IH]; intros [|i] Hi; [done|done| |].
  - injection Hi as <-. cbn. lia.
  - cbn in Hi. change (z + sum_Z (<[i := y]> l) = z + sum_Z l - x + y)%Z. rewrite (IH i Hi). lia.
Qed.

(** The count when one worker, or its membership in the sleepers, changes. *)
Lemma count_change sl sl' ws i w w' :
  ws !! i = Some w → (∀ j, j ≠ i → j ∈ sl' ↔ j ∈ sl) →
  count sl' (<[i := w']> ws) = (count sl ws - Z.b2z (counted sl i w) + Z.b2z (counted sl' i w'))%Z.
Proof.
  intros Hi Hsl. unfold count.
  assert (Heq : imap (λ j x, Z.b2z (counted sl' j x)) (<[i := w']> ws)
    = <[i := Z.b2z (counted sl' i w')]> (imap (λ j x, Z.b2z (counted sl j x)) ws)).
  { apply list_eq. intros j. rewrite list_lookup_imap. assert (Hlt := lookup_lt_Some _ _ _ Hi).
    destruct (decide (j = i)) as [->|Hne].
    - rewrite !list_lookup_insert_eq; [done|by rewrite length_imap|done].
    - rewrite !list_lookup_insert_ne, list_lookup_imap by done. destruct (ws !! j) as [x|]; [|done]. cbn. f_equal. f_equal.
      unfold counted. destruct (awake _); [done|]. apply bool_decide_ext. by rewrite (Hsl j Hne). }
  rewrite Heq. apply sum_Z_insert. by rewrite list_lookup_imap, Hi.
Qed.

Lemma count_bounds sl ws : (0 ≤ count sl ws ≤ Z.of_nat (length ws))%Z.
Proof.
  unfold count. rewrite <-(length_imap (λ j x, Z.b2z (counted sl j x)) ws).
  assert (Hl : Forall (λ z, 0 ≤ z ≤ 1)%Z (imap (λ j x, Z.b2z (counted sl j x)) ws)).
  { apply Forall_lookup. intros j z. rewrite list_lookup_imap. destruct (ws !! j) as [x|]; [|done]. cbn. intros [= <-].
    destruct (counted _ _ _); cbn; lia. }
  induction Hl as [|z l Hz _ IH]; cbn; [lia|]. unfold sum_Z in IH. lia.
Qed.

Lemma count_positive sl ws : (0 < count sl ws)%Z → ∃ i w, ws !! i = Some w ∧ counted sl i w = true.
Proof.
  unfold count. intros Hc. destruct (decide (Exists (λ z, z ≠ 0%Z) (imap (λ j x, Z.b2z (counted sl j x)) ws))) as [He|Hn].
  - apply Exists_exists in He as (z & [i Hi]%list_elem_of_lookup & Hz). rewrite list_lookup_imap in Hi.
    destruct (ws !! i) as [w|] eqn:Hw; [|done]. cbn in Hi. injection Hi as <-. exists i, w. split; [done|].
    by destruct (counted sl i w).
  - exfalso. apply not_Exists_Forall in Hn; [|intros; apply _]. revert Hc.
    generalize (imap (λ j x, Z.b2z (counted sl j x)) ws), Hn. intros l Hl.
    induction Hl as [|z l Hz _ IH]; [done|]. destruct (decide (z = 0%Z)) as [->|Hne]; [exact IH|by destruct Hz].
Qed.

Lemma count_counted sl ws i w : ws !! i = Some w → counted sl i w = true → (0 < count sl ws)%Z.
Proof.
  intros Hi Hc. assert (H := count_change sl sl ws i w (MkWorker Top false false) Hi ltac:(done)).
  change (counted sl i (MkWorker Top false false)) with false in H. rewrite Hc in H. cbn [Z.b2z] in H.
  assert (Hb := count_bounds sl (<[i:=MkWorker Top false false]> ws)). lia.
Qed.

(** ** The packed state *)

Lemma unpack a c :
  (0 ≤ c < 65536)%Z → (0 ≤ a < 65536)%Z → num_searching (65536 * a + c) = c ∧ num_unparked (65536 * a + c) = a.
Proof.
  intros Hc Ha. unfold num_searching, num_unparked. change SEARCH_MASK with (Z.ones 16).
  change UNPARK_MASK with (Z.shiftl (Z.ones 48) 16). change UNPARK_SHIFT with 16%Z.
  assert (Hmod : ((65536 * a + c) mod 65536 = c)%Z).
  { rewrite Z.add_comm, Z.mul_comm, Z.mod_add by lia. by apply Z.mod_small. }
  assert (Hdiv : ((65536 * a + c) / 65536 = a)%Z).
  { rewrite Z.add_comm, Z.mul_comm, Z.div_add by lia. rewrite Z.div_small by lia. lia. }
  split.
  - rewrite Z.land_ones by lia. exact Hmod.
  - rewrite Z.shiftr_land, Z.shiftr_shiftl_l, Z.sub_diag, Z.shiftl_0_r by lia.
    rewrite Z.shiftr_div_pow2 by lia. change (2 ^ 16)%Z with 65536%Z. rewrite Hdiv, Z.land_ones by lia.
    apply Z.mod_small. lia.
Qed.

(** What the packed state says. *)
Lemma sleepers_few u s : inv u s → length (sleepers s) ≤ length (workers s).
Proof.
  intros Hinv. rewrite <-(length_seq (length (workers s)) 0). apply submseteq_length, NoDup_submseteq; [apply (inv_nodup _ _ Hinv)|].
  intros i (w & Hw & _)%(inv_asleep _ _ Hinv). apply elem_of_seq. apply lookup_lt_Some in Hw. lia.
Qed.

Lemma idle_decodes u s :
  inv u s → num_searching (idle s) = count (sleepers s) (workers s) ∧
    num_unparked (idle s) = (Z.of_nat (length (workers s)) - Z.of_nat (length (sleepers s)))%Z.
Proof.
  intros Hinv. rewrite (inv_idle _ _ Hinv). assert (Hf := inv_few _ _ Hinv). assert (Hs := sleepers_few u s Hinv).
  assert (Hb := count_bounds (sleepers s) (workers s)). apply unpack; lia.
Qed.

Lemma wakeup_decides u s :
  inv u s → notify_should_wakeup (length (workers s)) (idle s) = true ↔
    count (sleepers s) (workers s) = 0%Z ∧ sleepers s ≠ [].
Proof.
  intros Hinv. destruct (idle_decodes u s Hinv) as [Hs Hu]. unfold notify_should_wakeup. rewrite Hs, Hu.
  rewrite andb_true_iff, !bool_decide_eq_true. destruct (sleepers s) as [|x l]; cbn [length]; split; intros [? ?]; split; try done; lia.
Qed.

(** ** Preservation *)

(** A worker's step: it changes itself, its membership in the sleepers and the state. *)
Lemma change_worker_inv u s i w w' z sl :
  inv u s → workers s !! i = Some w →
  (∀ j, j ≠ i → j ∈ sl ↔ j ∈ sleepers s) → NoDup sl → (i ∈ sl → awake (at_pc w') = false) → pc_ok w' →
  z = (65536 * (Z.of_nat (length (workers s)) - Z.of_nat (length sl)) +
    (count (sleepers s) (workers s) - Z.b2z (counted (sleepers s) i w) + Z.b2z (counted sl i w')))%Z →
  (∀ j k wj, at_pc w = Notifying (NotifyUnpark j) k → workers s !! j = Some wj → token wj = true) →
  (∀ j, u = Some j → ∃ k, at_pc w' = Notifying (NotifyUnpark j) k) →
  (waits (at_pc w') = true → i ∉ sl → token w' = true ∨ unparking (put_worker i w' s) i) →
  inv None (put_worker i w' (put_idle z sl s)).
Proof.
  intros Hinv Hi Hsl Hnd Hasleep Hpc Hz Hunp Hu Htok. destruct Hinv as [Hf Hfew _ _ Has Hpcs Htokens].
  assert (Hlt := lookup_lt_Some _ _ _ Hi).
  split; cbn [queue workers sleepers idle put_worker put_idle]; rewrite ?length_insert; try done.
  - rewrite (count_change (sleepers s) sl _ i w w' Hi Hsl). exact Hz.
  - intros j Hj. destruct (decide (j = i)) as [->|Hne].
    + exists w'. split; [by apply list_lookup_insert_eq|by apply Hasleep].
    + rewrite list_lookup_insert_ne by done. apply Has. by apply Hsl.
  - apply Forall_insert; done.
  - intros j wj Hj Hw Hn. destruct (decide (j = i)) as [->|Hne].
    + rewrite list_lookup_insert_eq in Hj by done. injection Hj as <-. destruct (Htok Hw Hn) as [|Hun]; auto.
    + rewrite list_lookup_insert_ne in Hj by done. rewrite (Hsl j Hne) in Hn.
      destruct (Htokens j wj Hj Hw Hn) as [Ht|[[(i' & v & k & Hv & Hk)|Hout]|Hu']].
      * by left.
      * destruct (decide (i' = i)) as [->|Hne'].
        -- rewrite Hi in Hv. injection Hv as <-. left. by apply (Hunp j k).
        -- right; left; left. exists i', v, k. split; [|done]. cbn [workers put_worker put_idle].
           by rewrite list_lookup_insert_ne.
      * by right; left; right.
      * destruct (Hu j Hu') as [k Hk]. right; left; left. exists i, w', k. split; [|done].
        by apply list_lookup_insert_eq.
Qed.

Lemma put_idle_id s : put_idle (idle s) (sleepers s) s = s.
Proof. by destruct s. Qed.

(** A step that changes the worker alone. *)
Lemma put_worker_inv u s i w w' :
  inv u s → workers s !! i = Some w →
  counted (sleepers s) i w' = counted (sleepers s) i w → (i ∈ sleepers s → awake (at_pc w') = false) → pc_ok w' →
  (∀ j k wj, at_pc w = Notifying (NotifyUnpark j) k → workers s !! j = Some wj → token wj = true) →
  (∀ j, u = Some j → ∃ k, at_pc w' = Notifying (NotifyUnpark j) k) →
  (waits (at_pc w') = true → i ∉ sleepers s → token w' = true ∨ unparking (put_worker i w' s) i) →
  inv None (put_worker i w' s).
Proof.
  intros Hinv Hi Hc Hs Hpc Hunp Hu Htok. rewrite <-(put_idle_id s) at 1.
  apply (change_worker_inv u s i w); try done; [apply (inv_nodup _ _ Hinv)|]. rewrite (inv_idle _ _ Hinv), Hc. lia.
Qed.

(** The same without a change of [awake]: to another place of the loop. *)
Lemma goto_inv s i w p :
  inv None s → workers s !! i = Some w → awake p = awake (at_pc w) → pc_ok (MkWorker p (is_searching w) (token w)) →
  (∀ j k, at_pc w ≠ Notifying (NotifyUnpark j) k) → (waits p = true → waits (at_pc w) = true ∨ i ∈ sleepers s) →
  (∀ j k, p ≠ Notifying (NotifyUnpark j) k) →
  inv None (put_worker i (MkWorker p (is_searching w) (token w)) s).
Proof.
  intros Hinv Hi Ha Hpc Hn Hw Hp. apply (put_worker_inv None s i w); try done.
  - unfold counted. cbn [at_pc is_searching]. by rewrite Ha.
  - intros Hs. destruct (inv_asleep _ _ Hinv i Hs) as (w0 & Hw0 & H0). rewrite Hi in Hw0. injection Hw0 as <-.
    cbn [at_pc]. by rewrite Ha.
  - intros j k wj Hj. by destruct (Hn j k).
  - intros Hwt Hs. destruct (Hw Hwt) as [Hw0|]; [|done].
    destruct (inv_token _ _ Hinv i w Hi Hw0 Hs) as [|[Hun|]]; [by left| |done]. right.
    destruct Hun as [(j & v & k & Hv & Hk)|Hout]; [|by right]. left. exists j, v, k. split; [|done].
    cbn [workers put_worker]. rewrite list_lookup_insert_ne; [done|]. intros <-. rewrite Hi in Hv. injection Hv as <-.
    by destruct (Hn i k).
Qed.

Lemma inv_weaken s i w : inv None s → workers s !! i = Some w → pc_ok w.
Proof. intros Hinv Hi. exact (proj1 (Forall_lookup _ _) (inv_pc _ _ Hinv) i w Hi). Qed.

Lemma mt_push_task_inv u item s : inv u s → inv u (push_task item s).
Proof.
  intros [Hf ? ? ? ? ? ?]. split; try done. cbn [queue push_task]. unfold shared_push.
  destruct (is_infra _); cbn [infra_pending infra]; [|done].
  by destruct (infra (queue s)).
Qed.

Lemma pop_infra_inv u s : inv u s → inv u (pop_task pop_infra s).2.
Proof.
  intros [Hf ? ? ? ? ? ?]. split; try done. cbn. destruct (infra (queue s)) as [|t [|t' l]] eqn:Hi; cbn; try done.
Qed.

Lemma pop_main_inv u s : inv u s → inv u (pop_task pop_main s).2.
Proof.
  intros [Hf ? ? ? ? ? ?]. unfold pop_task, pop_main. by destruct (heap_pop _) as [[t h]|]; split.
Qed.

Lemma pop_task_workers f s : workers (pop_task f s).2 = workers s ∧ sleepers (pop_task f s).2 = sleepers s.
Proof. unfold pop_task. by destruct (f _). Qed.

Lemma unpark_workers j s i w :
  workers s !! i = Some w →
  ∃ w', workers (unpark j s) !! i = Some w' ∧ at_pc w' = at_pc w ∧ is_searching w' = is_searching w ∧
    (token w = true ∨ j = i → token w' = true).
Proof.
  intros Hi. cbn. destruct (decide (j = i)) as [->|Hne].
  - rewrite list_lookup_alter_eq, Hi. by eexists.
  - rewrite list_lookup_alter_ne by done. exists w. split_and!; try done. by intros [|].
Qed.

Lemma unpark_inv j s : inv None s → inv None (unpark j s).
Proof.
  intros Hinv. destruct Hinv as [Hf Hfew Hidle Hnd Has Hpc Htok].
  assert (Hback : ∀ i w', workers (unpark j s) !! i = Some w' →
    ∃ w, workers s !! i = Some w ∧ at_pc w' = at_pc w ∧ is_searching w' = is_searching w ∧ (token w = true → token w' = true)).
  { intros i w' Hi. destruct (workers s !! i) as [w|] eqn:Hw.
    - destruct (unpark_workers j s i w Hw) as (w2 & Hw2 & ? & ? & Ht). rewrite Hi in Hw2. injection Hw2 as <-.
      exists w. split_and!; auto.
    - exfalso. apply lookup_lt_Some in Hi. apply lookup_ge_None in Hw. cbn in Hi. rewrite length_alter in Hi. lia. }
  split; cbn [queue sleepers idle]; try done.
  - cbn. by rewrite length_alter.
  - cbn. rewrite length_alter, Hidle. f_equal. unfold count. f_equal. apply list_eq. intros i. rewrite !list_lookup_imap.
    destruct (decide (j = i)) as [->|Hne]; [|by rewrite list_lookup_alter_ne].
    rewrite list_lookup_alter_eq. by destruct (workers s !! i) as [w|].
  - intros i (w & Hw & Ha)%Has. destruct (unpark_workers j s i w Hw) as (w' & Hw' & Hpc' & _). exists w'. by rewrite Hpc'.
  - apply Forall_lookup. intros i w' (w & Hw & Hp & Hs & _)%Hback. unfold pc_ok. rewrite Hp, Hs.
    exact (proj1 (Forall_lookup _ _) Hpc i w Hw).
  - intros i w' Hi Hwt Hn. destruct (Hback i w' Hi) as (w & Hw & Hp & Hs & Ht). rewrite Hp in Hwt.
    destruct (Htok i w Hw Hwt Hn) as [|[[(i' & v & k & Hv & Hk)|Ho]|]]; [by auto| | |done].
    + right; left; left. destruct (unpark_workers j s i' v Hv) as (v' & Hv' & Hpv & _). exists i', v', k. by rewrite Hpv.
    + by right; left; right.
Qed.

Lemma last_split (l : list nat) : l ≠ [] → ∃ l' j, l = l' ++ [j].
Proof. destruct l as [|j l'] using rev_ind; [done|]. by eexists _, _. Qed.

(** The last sleeper is chosen. *)
Lemma choose_inv s l j :
  inv None s → sleepers s = l ++ [j] → inv (Some j) (put_idle (unpark_one 1 (idle s)) l s).
Proof.
  intros Hinv Hl. assert (Hb := sleepers_few _ s Hinv). destruct Hinv as [Hf Hfew Hidle Hnd Has Hpc Htok].
  rewrite Hl in Hnd, Hb. apply NoDup_app in Hnd as (Hnd & Hj & _). rewrite length_app in Hb. cbn in Hb.
  assert (Hjl : j ∉ l) by (intros Hin; apply (Hj j Hin); by left).
  destruct (Has j) as (w & Hw & Ha); [rewrite Hl; apply elem_of_app; right; by left|].
  assert (Hc := count_change (sleepers s) l (workers s) j w w Hw). rewrite list_insert_id in Hc by done.
  specialize (Hc ltac:(intros i Hne; rewrite Hl, elem_of_app, list_elem_of_singleton; naive_solver)).
  unfold counted in Hc. rewrite Ha, (bool_decide_eq_false_2 (j ∉ sleepers s)), bool_decide_eq_true_2 in Hc;
    [|done|rewrite Hl, elem_of_app; intros Hn; apply Hn; right; by left].
  cbn [Z.b2z] in Hc. assert (Hcb := count_bounds l (workers s)).
  split; cbn [queue sleepers idle workers put_idle]; try done.
  - unfold unpark_one. change (Z.lor 1 (Z.shiftl 1 UNPARK_SHIFT)) with 65537%Z.
    rewrite wrap64_small; rewrite Hidle, Hl, length_app; cbn [length]; [|unfold is_u64, u64_max]; rewrite <-?Hl; lia.
  - intros i Hi. apply Has. rewrite Hl. apply elem_of_app. by left.
  - intros i v Hv Hwt Hn. destruct (decide (i = j)) as [->|Hne]; [by right; right|].
    destruct (Htok i v Hv Hwt) as [|[|]]; [|by left|by right; left|done].
    rewrite Hl, elem_of_app, list_elem_of_singleton. naive_solver.
Qed.

Definition chosen (n : option notify) : option nat :=
  match n with Some (NotifyUnpark j) => Some j | _ => None end.

Lemma notify_step_inv n s :
  inv None s → inv (chosen (notify_step n s).1) (notify_step n s).2.
Proof.
  intros Hinv. destruct n as [| |j]; cbn [notify_step].
  - by destruct (notify_should_wakeup _ _).
  - destruct (notify_should_wakeup _ _) eqn:Hw; [|done]. apply (wakeup_decides None s Hinv) in Hw as [_ Hne].
    destruct (last_split _ Hne) as (l & j & Hl). rewrite Hl, last_snoc, length_app, Nat.add_1_r. cbn [pred].
    rewrite take_app_length. by apply choose_inv.
  - by apply unpark_inv.
Qed.

Lemma notify_step_worker n s i w :
  workers s !! i = Some w →
  ∃ w', workers (notify_step n s).2 !! i = Some w' ∧ at_pc w' = at_pc w ∧ is_searching w' = is_searching w ∧
    (token w = true → token w' = true) ∧ (n = NotifyUnpark i → token w' = true).
Proof.
  intros Hi. destruct n as [| |j]; cbn [notify_step].
  1-2: exists w; destruct (notify_should_wakeup _ _); by split_and!.
  destruct (unpark_workers j s i w Hi) as (w' & Hw' & ? & ? & Ht). exists w'. split_and!; try done; [auto|].
  intros [= ->]. auto.
Qed.

Lemma unparked_token j s wj : workers (unpark j s) !! j = Some wj → token wj = true.
Proof. cbn. rewrite list_lookup_alter_eq. destruct (workers s !! j) as [w|]; [|done]. by intros [= <-]. Qed.

Lemma unparking_put s i w w' j :
  workers s !! i = Some w → unparking s j → (∀ k, at_pc w ≠ Notifying (NotifyUnpark j) k) → unparking (put_worker i w' s) j.
Proof.
  intros Hi [(i' & v & k & Hv & Hk)|Ho] Hn; [|by right]. left. exists i', v, k. split; [|done]. cbn.
  rewrite list_lookup_insert_ne; [done|]. intros <-. rewrite Hi in Hv. injection Hv as <-. by destruct (Hn k).
Qed.

Lemma notifying_inv s i w n k s' :
  inv None s → workers s !! i = Some w → at_pc w = Notifying n k → work i w s = Some s' → inv None s'.
Proof.
  intros Hinv Hi Hp. unfold_work. rewrite Hp. assert (Hinv1 := notify_step_inv n s Hinv).
  destruct (notify_step_worker n s i w Hi) as (w1 & Hw1 & Hp1 & Hs1 & _ & Htok).
  assert (Hun : ∀ j k' wj, at_pc w1 = Notifying (NotifyUnpark j) k' → workers (notify_step n s).2 !! j = Some wj → token wj = true).
  { intros j k' wj Hj. rewrite Hp1, Hp in Hj. injection Hj as -> ->. apply unparked_token. }
  destruct (notify_step n s) as [n' s1]. cbn [fst snd] in *. rewrite Hw1. cbn [mbind option_bind]. intros [= <-].
  set (p := match n' with Some _ => _ | None => _ end). rewrite Hp in Hp1.
  assert (Hawake : awake p = awake (at_pc w1)) by (rewrite Hp1; by destruct n', k).
  assert (Hpc := proj1 (Forall_lookup _ _) (inv_pc _ _ Hinv1) i w1 Hw1).
  apply (put_worker_inv (chosen n') s1 i w1); try done.
  - unfold counted. cbn [at_pc is_searching]. by rewrite Hawake.
  - intros Hsl. destruct (inv_asleep _ _ Hinv1 i Hsl) as (w0 & Hw0 & H0). rewrite Hw1 in Hw0. injection Hw0 as <-.
    cbn [at_pc]. by rewrite Hawake.
  - unfold pc_ok in *. cbn [at_pc is_searching]. rewrite Hp1 in Hpc. unfold p. by destruct n', k.
  - intros j Hj. destruct n' as [[| |j']|]; try done. injection Hj as ->. by exists k.
  - cbn [at_pc token]. intros Hwt Hsl.
    assert (Hwt1 : waits (at_pc w1) = true) by (rewrite Hp1; unfold p in Hwt; by destruct n', k).
    destruct (inv_token _ _ Hinv1 i w1 Hw1 Hwt1 Hsl) as [|[Hu|Hu]]; [by left| |].
    + destruct (decide (n = NotifyUnpark i)) as [->|Hne]; [left; by apply Htok|].
      right. apply (unparking_put s1 i w1); [done|done|]. rewrite Hp1. by intros k' [= ->].
    + right. left. exists i, (MkWorker p (is_searching w1) (token w1)), k. split.
      * apply list_lookup_insert_eq. by eapply lookup_lt_Some.
      * destruct n' as [[| |j]|]; try done. by injection Hu as ->.
Qed.

Lemma mt_continue_inv r n n' s s' :
  inv None s → outside s !! r = Some (Some n) → notify_step n s = (n', s') → inv None (put_outside r n' s').
Proof.
  intros Hinv Hr Hn. assert (Hinv1 := notify_step_inv n s Hinv). rewrite Hn in Hinv1. cbn [fst snd] in Hinv1.
  assert (Hout : outside s' = outside s).
  { destruct n as [| |j]; cbn in Hn; repeat (destruct (notify_should_wakeup _ _)); by injection Hn as <- <-. }
  assert (Htok : ∀ j wj, n = NotifyUnpark j → workers s' !! j = Some wj → token wj = true).
  { intros j wj -> . cbn in Hn. injection Hn as <- <-. apply unparked_token. }
  destruct Hinv1 as [? ? ? ? ? ? Ht]. split; try done.
  intros i w Hw Hwt Hsl. assert (Hlt := lookup_lt_Some _ _ _ Hr). rewrite <-Hout in Hlt.
  destruct (Ht i w Hw Hwt Hsl) as [|[[Hu|[r' Hu]%list_elem_of_lookup]|Hu]]; [by left|by right; left; left| |].
  - destruct (decide (r' = r)) as [->|Hne].
    + left. rewrite Hout, Hr in Hu. injection Hu as ->. by eapply Htok.
    + right; left; right. apply (list_elem_of_lookup_2 _ r'). cbn. by rewrite list_lookup_insert_ne.
  - right; left; right. destruct n' as [[| |j]|]; try done. injection Hu as ->.
    apply (list_elem_of_lookup_2 _ r). cbn. by apply list_lookup_insert_eq.
Qed.

Lemma remote_inv s o : inv None s →
  inv None (MkState (queue s) (idle s) (sleepers s) (workers s) (outside s ++ [o]) (scheduled s) (taken s)).
Proof.
  intros [? ? ? ? ? ? Ht]. split; try done. cbn [workers sleepers]. intros i w Hw Hwt Hsl.
  destruct (Ht i w Hw Hwt Hsl) as [|[[Hu|Hu]|]]; [by left|by right; left; left| |done].
  right; left; right. cbn. apply elem_of_app. by left.
Qed.

Lemma awake_not_sleeping s i w :
  inv None s → workers s !! i = Some w → awake (at_pc w) = true → i ∉ sleepers s.
Proof.
  intros Hinv Hi Ha Hs. destruct (inv_asleep _ _ Hinv i Hs) as (w0 & Hw0 & H0). rewrite Hi in Hw0.
  injection Hw0 as <-. congruence.
Qed.

Lemma found_inv s i w s' :
  inv None s → workers s !! i = Some w → at_pc w = Found → work i w s = Some s' → inv None s'.
Proof.
  intros Hinv Hi Hp. unfold_work. rewrite Hp. assert (Hn := awake_not_sleeping s i w Hinv Hi ltac:(by rewrite Hp)).
  destruct (is_searching w) eqn:Hs.
  2: { intros [= <-]. rewrite <-Hs. apply goto_inv; try done; [by rewrite Hp|by rewrite Hp]. }
  cbn [dec_num_searching]. intros [= <-].
  assert (Hc := count_counted (sleepers s) (workers s) i w Hi ltac:(unfold counted; by rewrite Hp, Hs)).
  assert (Hb := count_bounds (sleepers s) (workers s)). assert (Hfew := inv_few _ _ Hinv).
  assert (Hsl := sleepers_few _ s Hinv).
  apply (change_worker_inv None s i w); try done.
  - apply (inv_nodup _ _ Hinv).
  - unfold pc_ok. cbn. by destruct (bool_decide _).
  - unfold counted. rewrite Hp, Hs. cbn [at_pc is_searching awake].
    rewrite wrap64_small; rewrite (inv_idle _ _ Hinv); [|unfold is_u64, u64_max; lia].
    destruct (bool_decide _); cbn [awake is_searching Z.b2z]; lia.
  - intros j k wj. by rewrite Hp.
  - cbn. by destruct (bool_decide _).
Qed.

Lemma register_inv s i w s' :
  inv None s → workers s !! i = Some w → at_pc w = Register → work i w s = Some s' → inv None s'.
Proof.
  intros Hinv Hi Hp. unfold_work. rewrite Hp. assert (Hn := awake_not_sleeping s i w Hinv Hi ltac:(by rewrite Hp)).
  cbn [dec_num_unparked]. intros [= <-]. set (p := if _ && _ then _ else _).
  assert (Hin : i ∈ sleepers s ++ [i]) by (apply elem_of_app; right; by left).
  assert (Hnd : NoDup (sleepers s ++ [i])).
  { apply NoDup_app. split_and!; [apply (inv_nodup _ _ Hinv)| |apply NoDup_singleton].
    intros j Hj ->%list_elem_of_singleton. done. }
  assert (Hb := count_bounds (sleepers s) (workers s)). assert (Hfew := inv_few _ _ Hinv).
  assert (Hsl : length (sleepers s ++ [i]) ≤ length (workers s)).
  { rewrite <-(length_seq (length (workers s)) 0). apply submseteq_length, NoDup_submseteq; [done|].
    intros j [Hj| ->%list_elem_of_singleton]%elem_of_app; apply elem_of_seq.
    - destruct (inv_asleep _ _ Hinv j Hj) as (v & Hv & _). apply lookup_lt_Some in Hv. lia.
    - apply lookup_lt_Some in Hi. lia. }
  rewrite length_app in Hsl. cbn [length] in Hsl.
  assert (Hpa : awake p = false) by (unfold p; by destruct (_ && _)).
  apply (change_worker_inv None s i w); try done.
  - intros j Hne. rewrite elem_of_app, list_elem_of_singleton. naive_solver.
  - unfold pc_ok. cbn. unfold p. by destruct (_ && _).
  - unfold counted. rewrite Hp. cbn [at_pc is_searching awake]. rewrite Hpa, bool_decide_eq_false_2 by (intros Hno; exact (Hno Hin)).
    cbn [awake Z.b2z]. rewrite length_app. cbn [length]. change (Z.shiftl 1 UNPARK_SHIFT) with 65536%Z.
    assert (Hs : is_searching w = true → (0 < count (sleepers s) (workers s))%Z).
    { intros Hs. apply (count_counted _ _ i w Hi). unfold counted. by rewrite Hp. }
    destruct (is_searching w); [specialize (Hs eq_refl)|]; cbn [Z.b2z];
      rewrite wrap64_small; rewrite (inv_idle _ _ Hinv); try (unfold is_u64, u64_max); lia.
  - intros j k wj. by rewrite Hp.
Qed.

Lemma insert_swap (l : list nat) k (i x : nat) : l !! k = Some i → i :: <[k := x]> l ≡ₚ x :: l.
Proof.
  revert k. induction l as [|y l IH]; intros [|k] Hk; [done|done| |].
  - injection Hk as <-. apply perm_swap.
  - cbn in Hk |- *. rewrite (perm_swap y i), (IH k Hk). apply perm_swap.
Qed.

Lemma swap_remove_spec i l :
  match swap_remove i l with Some l' => l ≡ₚ i :: l' | None => i ∉ l end.
Proof.
  unfold swap_remove. destruct (list_find (i =.) l) as [[k x]|] eqn:Hf; cbn [mbind option_bind].
  - apply list_find_Some in Hf as (Hk & <- & _). destruct (last_split l) as (l' & x & ->); [by destruct l|].
    rewrite last_snoc, length_app, Nat.add_1_r. cbn [pred]. rewrite take_app_length.
    rewrite Permutation_app_comm. cbn [app]. destruct (decide (k < length l')) as [Hlt|Hge].
    + rewrite lookup_app_l in Hk by done. by rewrite insert_swap.
    + rewrite lookup_app_r in Hk by lia. assert (Hz : k - length l' = 0) by (apply lookup_lt_Some in Hk; cbn in Hk; lia).
      rewrite Hz in Hk. injection Hk as ->. by rewrite list_insert_ge by lia.
  - apply list_find_None in Hf. intros Hi. rewrite Forall_forall in Hf. by apply (Hf i Hi).
Qed.

Lemma found_awake_inv s i w b :
  inv None s → workers s !! i = Some w → awake (at_pc w) = false → i ∉ sleepers s →
  (∀ n k, at_pc w ≠ Notifying n k) → b = true → inv None (put_worker i (MkWorker Top b (token w)) s).
Proof.
  intros Hinv Hi Ha Hs Hp ->. apply (put_worker_inv None s i w); try done.
  - unfold counted. rewrite Ha. cbn. by rewrite bool_decide_eq_true_2.
  - intros j k wj Hj. by destruct (Hp (NotifyUnpark j) k).
Qed.

Lemma unregister_inv s i w s' :
  inv None s → workers s !! i = Some w → at_pc w = Unregister → work i w s = Some s' → inv None s'.
Proof.
  intros Hinv Hi Hp. unfold_work. rewrite Hp. assert (Hrm := swap_remove_spec i (sleepers s)).
  destruct (swap_remove i (sleepers s)) as [l|]; intros [= <-].
  2: { apply (found_awake_inv s i w true); try done; [by rewrite Hp|intros n k; by rewrite Hp]. }
  assert (Hnd := inv_nodup _ _ Hinv). rewrite Hrm in Hnd. apply NoDup_cons in Hnd as [Hn Hnd].
  assert (Hin : i ∈ sleepers s) by (rewrite Hrm; by left).
  assert (Hlen : length (sleepers s) = S (length l)) by (by rewrite Hrm).
  assert (Hb := count_bounds (sleepers s) (workers s)). assert (Hfew := inv_few _ _ Hinv).
  assert (Hsl := sleepers_few _ s Hinv).
  apply (change_worker_inv None s i w); try done.
  - intros j Hne. rewrite Hrm, elem_of_cons. naive_solver.
  - unfold counted. rewrite Hp. cbn [awake at_pc is_searching Z.b2z]. rewrite bool_decide_eq_false_2 by auto.
    cbn [Z.b2z]. unfold unpark_one. change (Z.lor 0 (Z.shiftl 1 UNPARK_SHIFT)) with 65536%Z.
    rewrite wrap64_small; rewrite (inv_idle _ _ Hinv); [|unfold is_u64, u64_max]; lia.
  - intros j k wj. by rewrite Hp.
Qed.

Lemma pop_goto_inv f p q i w s :
  inv None (pop_task f s).2 → workers s !! i = Some w → at_pc w = p → awake p = true →
  (∀ n k, p ≠ Notifying n k) → p ≠ Polling → (q = Found ∨ q = PopMain ∨ q = NoTask) →
  inv None (put_worker i (MkWorker q (is_searching w) (token w)) (pop_task f s).2).
Proof.
  intros Hinv Hi <- Ha Hn Hp Hq. destruct (pop_task_workers f s) as [Hw Hs].
  assert (Hpc := inv_weaken _ i w Hinv ltac:(by rewrite Hw)).
  apply goto_inv; try done; [by rewrite Hw|rewrite Ha; by destruct Hq as [->|[->| ->]]| | |].
  - unfold pc_ok. cbn. by destruct Hq as [->|[->| ->]].
  - by destruct Hq as [->|[->| ->]].
  - intros j k ->. by destruct Hq as [|[|]].
Qed.

Lemma work_inv s i w s' : inv None s → workers s !! i = Some w → work i w s = Some s' → inv None s'.
Proof.
  intros Hinv Hi Hs. assert (Hpc := inv_weaken s i w Hinv Hi). destruct (at_pc w) eqn:Hp.
  all: try (by eapply found_inv). all: try (by eapply register_inv). all: try (by eapply notifying_inv).
  all: try (by eapply unregister_inv). all: unfold_work_in Hs; rewrite Hp in Hs.
  3: { assert (H := pop_infra_inv None s Hinv). destruct (pop_task pop_infra s) as [found s1] eqn:Hpop.
       injection Hs as <-. change s1 with (found, s1).2. rewrite <-Hpop in H |- *.
       apply (pop_goto_inv _ PopInfra); try done. destruct found; auto. }
  3: { assert (H := pop_main_inv None s Hinv). destruct (pop_task pop_main s) as [found s1] eqn:Hpop.
       injection Hs as <-. change s1 with (found, s1).2. rewrite <-Hpop in H |- *.
       apply (pop_goto_inv _ PopMain); try done. destruct found; auto. }
  9: { injection Hs as <-. apply (put_worker_inv None s i w); try done.
       - unfold counted. by rewrite Hp.
       - unfold pc_ok in *. rewrite Hp in Hpc. cbn. auto.
       - intros j k wj. by rewrite Hp. }
  11: { destruct (decide (i ∈ sleepers s)) as [Hin|Hn]; injection Hs as <-.
        - apply goto_inv; try done; [by rewrite Hp|by unfold pc_ok in *; rewrite Hp in Hpc|by rewrite Hp|by right].
        - apply (found_awake_inv s i w true); try done; [by rewrite Hp|intros n k; by rewrite Hp]. }
  8: destruct (token w) eqn:Htok; [|done]; rewrite <-Htok in Hs.
  all: injection Hs as <-; unfold pc_ok in Hpc; rewrite Hp in Hpc.
  all: repeat (destruct (infra_pending _) || destruct (main_is_empty _)).
  all: apply goto_inv; try done; rewrite ?Hp; try done; try (by left).
  all: unfold pc_ok; cbn; by auto.
Qed.

Lemma mt_step_inv ev s s' : inv None s → step ev s = Some s' → inv None s'.
Proof.
  intros Hinv. destruct ev as [i|i|i|i item|item|r]; cbn [step].
  1-4: destruct (workers s !! i) as [w|] eqn:Hi; [|done]; cbn [mbind option_bind]; assert (Hpc := inv_weaken s i w Hinv Hi).
  - by apply work_inv.
  - destruct (at_pc w) eqn:Hp; try done; intros [= <-]; apply goto_inv; try done; by rewrite Hp.
  - destruct (at_pc w) eqn:Hp; try done. intros [= <-]. apply goto_inv; try done; try (by rewrite Hp). unfold pc_ok in *. by rewrite Hp in Hpc.
  - assert (Hinv' := mt_push_task_inv None item s Hinv). destruct (at_pc w) eqn:Hp; try done; intros [= <-]; try done.
    apply goto_inv; try done; try (by rewrite Hp). unfold pc_ok in *. by rewrite Hp in Hpc.
  - intros [= <-]. by apply (remote_inv (push_task item s)), mt_push_task_inv.
  - destruct (outside s !! r) as [[n|]|] eqn:Hr; try done. cbn [mbind option_bind].
    destruct (notify_step n s) as [n' s1] eqn:Hn. intros [= <-]. by eapply mt_continue_inv.
Qed.

(** ** Tasks find a worker *)

Context {HL : BinaryHeapLaws (Keyed T) keyed_le}.

Definition pending (s : State) : Prop := queued_tasks (queue s) ≠ [].

(** A worker that will look at the queue before it sleeps, or was told to wake. *)
Definition looks (i : nat) (w : Worker) (s : State) : bool :=
  let infra := bool_decide (infra (queue s) ≠ []) in
  let woken := bool_decide (i ∉ sleepers s) in
  match at_pc w with
  | CheckInfra => is_searching w || infra
  | Register => is_searching w
  | RecheckInfra | WokenInfra => infra || woken
  | Notifying (NotifyUnpark _) ToPark | Parked | StillParked => woken
  | _ => true
  end.

(** A notification that will look for a worker to wake. *)
Definition calls (n : option notify) : bool :=
  match n with Some NotifyCheck | Some NotifyLock => true | _ => false end.

Definition served (s : State) : Prop :=
  (∃ i w, workers s !! i = Some w ∧ looks i w s = true) ∨ (∃ r n, outside s !! r = Some n ∧ calls n = true).

(** Between its last look at the queue and its registration as a sleeper, a worker that
    is not searching: nobody looks after it. *)
Definition in_window (w : Worker) : bool :=
  match at_pc w with CheckInfra | Register => negb (is_searching w) | _ => false end.

Definition quiet (s : State) : Prop := Forall (λ w, in_window w = false) (workers s).

(** What a worker in the window has seen is still so. *)
Definition seen_empty (q : SharedPrioQueue) (w : Worker) : Prop :=
  in_window w = true → heap_list (main q) = [] ∧ (at_pc w = Register → infra q = []).

Definition watched (s : State) : Prop := (pending s → served s) ∧ Forall (seen_empty (queue s)) (workers s).

Lemma main_empty q : main_is_empty q = true ↔ heap_list (main q) = [].
Proof. unfold main_is_empty. rewrite bool_decide_eq_true, heap_len_list. apply length_zero_iff_nil. Qed.

Lemma counted_looks i w s : counted (sleepers s) i w = true → looks i w s = true.
Proof.
  unfold counted, looks. destruct (at_pc w) as [| | | | | | | | | | |[]  []| | | | | |]; cbn [awake]; try done.
  - by intros ->.
  - intros ->. by rewrite orb_true_r.
  - intros ->. by rewrite orb_true_r.
Qed.

(** When a notification wakes nobody, somebody looks already. *)
Lemma no_wakeup_served u s :
  inv u s → Forall (seen_empty (queue s)) (workers s) → 0 < length (workers s) → pending s →
  notify_should_wakeup (length (workers s)) (idle s) = false → served s.
Proof.
  intros Hinv Hseen Hn Hp Hw. left.
  destruct (decide (count (sleepers s) (workers s) = 0%Z)) as [Hc|Hc].
  - destruct (decide (sleepers s = [])) as [Hs|Hs].
    2: { assert (H := proj2 (wakeup_decides u s Hinv) (conj Hc Hs)). congruence. }
    destruct (lookup_lt_is_Some_2 (workers s) 0 Hn) as [w Hi]. exists 0, w. split; [done|].
    destruct (awake (at_pc w)) eqn:Ha.
    + assert (H := proj1 (Forall_lookup _ _) Hseen 0 w Hi). unfold seen_empty, in_window in H. unfold looks.
      destruct (at_pc w) as [| | | | | | | | | | |[] []| | | | | |]; try done; destruct (is_searching w); try done; cbn in H |- *.
      * apply bool_decide_eq_true. intros Hnil. apply Hp. unfold queued_tasks. by rewrite Hnil, (proj1 (H eq_refl)).
      * destruct Hp. unfold queued_tasks. destruct (H eq_refl) as [-> ->]; done.
    + apply counted_looks. unfold counted. rewrite Ha, Hs. by apply bool_decide_eq_true, not_elem_of_nil.
  - assert (Hb := count_bounds (sleepers s) (workers s)).
    destruct (count_positive (sleepers s) (workers s)) as (i & w & Hi & Hl); [lia|].
    exists i, w. split; [done|by apply counted_looks].
Qed.

(** A step of a thread that does not look, and that changes nothing the others go by. *)
Lemma keep_served s s' i :
  queue s' = queue s → sleepers s' = sleepers s → outside s' = outside s →
  (∀ w, workers s !! i = Some w → looks i w s = false) →
  (∀ j w, j ≠ i → workers s !! j = Some w →
    ∃ w', workers s' !! j = Some w' ∧ at_pc w' = at_pc w ∧ is_searching w' = is_searching w) →
  served s → served s'.
Proof.
  intros Hq Hsl Ho Hn Hw [(j & w & Hj & Hl)|Hout]; [|right; by rewrite Ho].
  left. destruct (decide (j = i)) as [->|Hne]; [by rewrite (Hn w Hj) in Hl|].
  destruct (Hw j w Hne Hj) as (w' & Hj' & Hp & Hs). exists j, w'. split; [done|]. unfold looks in *.
  by rewrite Hp, Hs, Hq, Hsl.
Qed.

Lemma self_served i w w' s : workers s !! i = Some w → looks i w' s = true → served (put_worker i w' s).
Proof.
  intros Hi Hl. left. exists i, w'. split; [|by rewrite <-Hl]. cbn. apply list_lookup_insert_eq. by eapply lookup_lt_Some.
Qed.

(** The worker moves on without looking, as it did not look before. *)
Lemma move_served i w w' s :
  workers s !! i = Some w → looks i w s = false → served s → served (put_worker i w' s).
Proof.
  intros Hi Hl. apply (keep_served s (put_worker i w' s) i); try done.
  - intros v Hv. rewrite Hi in Hv. by injection Hv as <-.
  - intros j v Hne Hj. exists v. split; [|done]. cbn. by rewrite list_lookup_insert_ne.
Qed.

Lemma register_served s i w s' :
  inv None s → watched s → workers s !! i = Some w → at_pc w = Register → work i w s = Some s' → pending s' → served s'.
Proof.
  intros Hinv [Hserved Hseen] Hi Hp. unfold_work. rewrite Hp. cbn [dec_num_unparked]. intros [= <-] Hpend.
  assert (Hn := awake_not_sleeping s i w Hinv Hi ltac:(by rewrite Hp)).
  destruct (idle_decodes None s Hinv) as [Hd _]. rewrite Hd. set (s1 := put_idle _ _ s).
  destruct (is_searching w) eqn:Hs; cbn [andb].
  2: { exfalso. apply Hpend. assert (H := proj1 (Forall_lookup _ _) Hseen i w Hi). unfold seen_empty, in_window in H.
       rewrite Hp, Hs in H. destruct (H eq_refl) as [H1 H2]. unfold queued_tasks. cbn. by rewrite H1, H2. }
  destruct (bool_decide (count (sleepers s) (workers s) = 1%Z)) eqn:Hone; [by apply (self_served i w); [exact Hi|]|].
  apply bool_decide_eq_false in Hone.
  assert (Hci : counted (sleepers s) i w = true) by (unfold counted; by rewrite Hp).
  assert (Hpos := count_counted _ _ i w Hi Hci).
  assert (Hin : i ∈ sleepers s ++ [i]) by (apply elem_of_app; right; by left).
  assert (Hc := count_change (sleepers s) (sleepers s ++ [i]) (workers s) i w (MkWorker Parked false (token w)) Hi).
  rewrite Hci in Hc. specialize (Hc ltac:(intros j Hne; rewrite elem_of_app, list_elem_of_singleton; naive_solver)).
  unfold counted in Hc. cbn [at_pc awake] in Hc. rewrite bool_decide_eq_false_2 in Hc by (intros H; exact (H Hin)).
  cbn [Z.b2z] in Hc.
  destruct (count_positive (sleepers s ++ [i]) (<[i:=MkWorker Parked false (token w)]> (workers s))) as (j & v & Hj & Hcj); [lia|].
  left. exists j, v. split; [done|]. by apply counted_looks.
Qed.

Lemma notifying_served s i w n k s' :
  inv None s → watched s → inv None s' → Forall (seen_empty (queue s')) (workers s') → 0 < length (workers s') →
  workers s !! i = Some w → at_pc w = Notifying n k → work i w s = Some s' → pending s' → served s'.
Proof.
  intros Hinv [Hserved Hseen] Hinv' Hseen' Hlen Hi Hp. unfold_work. rewrite Hp. intros Hs Hpend.
  assert (Hinv1 := notify_step_inv n s Hinv).
  destruct n as [| |j]; cbn [notify_step] in Hs, Hinv1.
  - destruct (notify_should_wakeup _ _) eqn:Hwake; rewrite Hi in Hs; injection Hs as <-.
    + apply (self_served i w); [done|]. by destruct k.
    + apply (no_wakeup_served None); try done. cbn. by rewrite length_insert.
  - destruct (notify_should_wakeup _ _) eqn:Hwake.
    2: { rewrite Hi in Hs. injection Hs as <-. apply (no_wakeup_served None); try done. cbn. by rewrite length_insert. }
    apply (wakeup_decides None s Hinv) in Hwake as [_ Hne]. destruct (last_split _ Hne) as (l & j & Hl).
    rewrite Hl, last_snoc, length_app, Nat.add_1_r in Hs. cbn [pred fmap option_fmap option_map] in Hs.
    rewrite take_app_length in Hs. cbn [workers put_idle] in Hs. rewrite Hi in Hs. injection Hs as <-.
    destruct (inv_asleep _ _ Hinv j) as (v & Hv & Ha); [rewrite Hl; apply elem_of_app; right; by left|].
    assert (Hnd := inv_nodup _ _ Hinv). rewrite Hl in Hnd. apply NoDup_app in Hnd as (_ & Hj & _).
    assert (Hjl : j ∉ l) by (intros Hin; apply (Hj j Hin); by left).
    left. destruct (decide (j = i)) as [->|Hji].
    + exists i. eexists. split; [cbn; apply list_lookup_insert_eq; by eapply lookup_lt_Some|]. unfold looks. cbn [at_pc].
      rewrite Hi in Hv. injection Hv as <-. rewrite Hp in Ha. destruct k; [done|]. by apply bool_decide_eq_true.
    + exists j, v. split; [cbn; by rewrite list_lookup_insert_ne|]. apply counted_looks. unfold counted. rewrite Ha.
      by apply bool_decide_eq_true.
  - destruct (unpark_workers j s i w Hi) as (w1 & Hw1 & Hp1 & Hs1 & _). rewrite Hw1 in Hs. injection Hs as <-.
    destruct k; [by apply (self_served i w1)|].
    destruct (decide (i ∈ sleepers s)) as [Hin|Hn].
    2: { apply (self_served i w1); [done|]. by apply bool_decide_eq_true. }
    apply (keep_served s _ i); try done.
    + intros v Hv. rewrite Hi in Hv. injection Hv as <-. unfold looks. rewrite Hp. apply bool_decide_eq_false_2. intros Hno. exact (Hno Hin).
    + intros j' v Hne Hj'. destruct (unpark_workers j s j' v Hj') as (v' & Hv' & ? & ? & _). exists v'.
      split; [|done]. cbn [workers put_worker]. by rewrite list_lookup_insert_ne.
    + by apply Hserved.
Qed.

(** A queue from which tasks were only taken. *)
Definition drained (q q' : SharedPrioQueue) : Prop :=
  (heap_list (main q) = [] → heap_list (main q') = []) ∧ (infra q = [] → infra q' = []).

Lemma seen_drained q q' ws : drained q q' → Forall (seen_empty q) ws → Forall (seen_empty q') ws.
Proof.
  intros [H1 H2] Hs. eapply Forall_impl; [exact Hs|]. intros w Hw Hin. destruct (Hw Hin). split; auto.
Qed.

Lemma pop_drained f s : f = pop_infra ∨ f = pop_main → drained (queue s) (queue (pop_task f s).2).
Proof.
  intros [->| ->]; unfold pop_task, drained; cbn.
  - split; [done|]. by intros ->.
  - unfold pop_main. destruct (heap_pop (main (queue s))) as [[t h]|] eqn:Hp; [|done]. cbn. split; [|done]. intros Hnil.
    apply heap_pop_None in Hnil. congruence.
Qed.

Lemma not_in_window_seen q w : in_window w = false → seen_empty q w.
Proof. intros Hw Hin. congruence. Qed.

Lemma notify_step_seen n s :
  queue (notify_step n s).2 = queue s ∧
  (Forall (seen_empty (queue s)) (workers s) → Forall (seen_empty (queue s)) (workers (notify_step n s).2)).
Proof.
  destruct n as [| |j]; cbn [notify_step]; [by destruct (notify_should_wakeup _ _)..|]. split; [done|]. intros Hs.
  cbn. apply Forall_alter; [done|]. intros w Hw Hin. done.
Qed.

Lemma work_seen s i w s' :
  watched s → workers s !! i = Some w → work i w s = Some s' →
  infra_pending (queue s) = bool_decide (infra (queue s) ≠ []) → Forall (seen_empty (queue s')) (workers s').
Proof.
  intros [_ Hseen] Hi Hs Hflag. unfold_work_in Hs.
  assert (Hgo : ∀ q w', drained (queue s) q → seen_empty q w' → Forall (seen_empty q) (<[i := w']> (workers s))).
  { intros q w' Hq Hw. apply Forall_insert; [by eapply seen_drained|done]. }
  assert (Hid : drained (queue s) (queue s)) by done.
  destruct (at_pc w) as [| | | | | | | | | | |n k| | | | | |] eqn:Hp.
  3: { assert (Hd := pop_drained pop_infra s ltac:(by left)). destruct (pop_task_workers pop_infra s) as [Hw _].
       destruct (pop_task pop_infra s) as [found s1]. cbn [snd] in Hd, Hw. injection Hs as <-. cbn. rewrite Hw.
       apply Hgo; [done|]. apply not_in_window_seen. by destruct found. }
  3: { assert (Hd := pop_drained pop_main s ltac:(by right)). destruct (pop_task_workers pop_main s) as [Hw _].
       destruct (pop_task pop_main s) as [found s1]. cbn [snd] in Hd, Hw. injection Hs as <-. cbn. rewrite Hw.
       apply Hgo; [done|]. apply not_in_window_seen. by destruct found. }
  10: { destruct (notify_step_seen n s) as [Hq Hf]. specialize (Hf Hseen). destruct (notify_step n s) as [n' s1].
        cbn [snd] in Hq, Hf. destruct (workers s1 !! i) as [w1|]; [|done]. injection Hs as <-. cbn. rewrite Hq.
        apply Forall_insert; [done|]. apply not_in_window_seen. by destruct n', k. }
  all: repeat match type of Hs with
    | (let '_ := ?x in _) = _ => destruct x eqn:?
    | match ?x with _ => _ end = _ => destruct x eqn:?
    end; try done; injection Hs as <-; apply Hgo; try done.
  all: try (by apply not_in_window_seen).
  all: try (apply not_in_window_seen; by destruct (infra_pending _)).
  all: try (apply not_in_window_seen; by destruct (main_is_empty _)).
  all: try match goal with b : bool |- _ => apply not_in_window_seen; by destruct b end.
  - destruct (main_is_empty (queue s)) eqn:Hm; [|done]. apply main_empty in Hm. intros _. by split.
  - destruct (infra_pending (queue s)) eqn:Hf; [done|]. symmetry in Hflag. apply bool_decide_eq_false, dec_stable in Hflag.
    assert (H := proj1 (Forall_lookup _ _) Hseen i w Hi). unfold seen_empty, in_window in *. rewrite Hp in H. cbn.
    intros Hn. split; [by apply H|done].
Qed.

(** The queue is not empty and [main] is: infrastructure tasks wait. *)
Lemma infra_waits q : queued_tasks q ≠ [] → heap_list (main q) = [] → infra q ≠ [].
Proof. unfold queued_tasks. intros Hq Hm Hi. apply Hq. by rewrite Hm, Hi. Qed.

Lemma infra_waits_main q : main_is_empty q = true → queued_tasks q ≠ [] → bool_decide (infra q ≠ []) = true.
Proof. intros Hm Hq. apply bool_decide_eq_true, infra_waits; [done|]. by apply main_empty. Qed.

Lemma notify_step_length n s : length (workers (notify_step n s).2) = length (workers s).
Proof. destruct n; cbn; [done|by destruct (notify_should_wakeup _ _)|by rewrite length_alter]. Qed.

Lemma work_served s i w s' :
  inv None s → watched s → inv None s' → Forall (seen_empty (queue s')) (workers s') →
  workers s !! i = Some w → work i w s = Some s' → pending s' → served s'.
Proof.
  intros Hinv Hwatch Hinv' Hseen' Hi Hs Hpend. assert (Hlt := lookup_lt_Some _ _ _ Hi).
  destruct (at_pc w) as [| | | | | | | | | | |n k| | | | | |] eqn:Hp.
  9: { exact (register_served s i w s' Hinv Hwatch Hi Hp Hs Hpend). }
  11: { apply (notifying_served s i w n k s'); try done. unfold_work_in Hs. rewrite Hp in Hs.
        assert (Hlen := notify_step_length n s).
        destruct (notify_step n s) as [n' s1]. cbn [snd] in Hlen. destruct (workers s1 !! i); [|done]. injection Hs as <-.
        cbn. rewrite length_insert. lia. }
  all: destruct Hwatch as [Hserved Hseen]; unfold_work_in Hs; rewrite Hp in Hs.
  3: { assert (Hw := proj1 (pop_task_workers pop_infra s)). destruct (pop_task pop_infra s) as [found s1].
       cbn [snd] in Hw. injection Hs as <-. apply (self_served i w); [by rewrite Hw|by destruct found]. }
  3: { assert (Hw := proj1 (pop_task_workers pop_main s)). destruct (pop_task pop_main s) as [found s1].
       cbn [snd] in Hw. injection Hs as <-. apply (self_served i w); [by rewrite Hw|by destruct found]. }
  all: assert (Hflag := inv_flag _ _ Hinv).
  all: try (injection Hs as <-; apply (self_served i w); [done|]; unfold looks; cbn [at_pc is_searching];
    repeat match goal with |- context [if ?b then _ else _] => destruct b eqn:? end; done).
  - destruct (is_searching w) eqn:Hsr; [|injection Hs as <-; by apply (self_served i w)].
    cbn [dec_num_searching] in Hs. injection Hs as <-. apply (self_served i w); [done|]. by destruct (bool_decide _).
  - injection Hs as <-. apply (self_served i w); [done|]. destruct (main_is_empty (queue s)) eqn:Hm; [|done].
    unfold looks. cbn [at_pc is_searching]. by rewrite (infra_waits_main _ Hm Hpend), orb_true_r.
  - injection Hs as <-. apply (self_served i w); [done|]. destruct (infra_pending (queue s)) eqn:Hf; [done|].
    symmetry in Hflag. unfold looks. cbn [at_pc is_searching].
    destruct (is_searching w) eqn:Hsr; [done|]. apply bool_decide_eq_false, dec_stable in Hflag.
    assert (H := proj1 (Forall_lookup _ _) Hseen i w Hi). unfold seen_empty, in_window in H. rewrite Hp, Hsr in H.
    destruct Hpend. unfold queued_tasks. cbn. destruct (H eq_refl) as [-> _]. by rewrite Hflag.
  - injection Hs as <-. apply (self_served i w); [done|]. destruct (main_is_empty (queue s)) eqn:Hm; [|done].
    unfold looks. cbn [at_pc]. by rewrite (infra_waits_main _ Hm Hpend).
  - injection Hs as <-. destruct (infra_pending (queue s)) eqn:Hf; [by apply (self_served i w)|].
    destruct (decide (i ∈ sleepers s)) as [Hin|Hn].
    + apply (move_served i w); try done; [|by apply Hserved]. unfold looks. rewrite Hp, <-Hflag, ?Hf.
      apply bool_decide_eq_false_2. auto.
    + apply (self_served i w); [done|]. unfold looks. cbn [at_pc]. by apply bool_decide_eq_true.
  - destruct (token w); [|done]. injection Hs as <-. by apply (self_served i w).
  - injection Hs as <-. apply (self_served i w); [done|]. destruct (main_is_empty (queue s)) eqn:Hm; [|done].
    unfold looks. cbn [at_pc]. by rewrite (infra_waits_main _ Hm Hpend).
  - injection Hs as <-. destruct (infra_pending (queue s)) eqn:Hf; [by apply (self_served i w)|].
    destruct (decide (i ∈ sleepers s)) as [Hin|Hn].
    + apply (move_served i w); try done; [|by apply Hserved]. unfold looks. rewrite Hp, <-Hflag, ?Hf.
      apply bool_decide_eq_false_2. auto.
    + apply (self_served i w); [done|]. unfold looks. cbn [at_pc]. by apply bool_decide_eq_true.
  - destruct (swap_remove i (sleepers s)); injection Hs as <-; by apply (self_served i w).
  - destruct (decide (i ∈ sleepers s)) as [Hin|Hn]; injection Hs as <-; [|by apply (self_served i w)].
    apply (move_served i w); try done; [|by apply Hserved]. unfold looks. rewrite Hp. apply bool_decide_eq_false_2. auto.
Qed.

Definition schedules (ev : event) : bool := match ev with Schedule _ _ | Remote _ => true | _ => false end.

Lemma quiet_seen q s : quiet s → Forall (seen_empty q) (workers s).
Proof. intros Hq. eapply Forall_impl; [exact Hq|]. intros w. apply not_in_window_seen. Qed.

Lemma continue_served r n n' s s1 :
  inv None s → watched s → 0 < length (workers s) → outside s !! r = Some (Some n) → notify_step n s = (n', s1) →
  pending s → served (put_outside r n' s1).
Proof.
  intros Hinv [Hserved Hseen] Hlen Hr Hn Hpend. assert (Hinv' := mt_continue_inv r n n' s s1 Hinv Hr Hn).
  destruct n as [| |j]; cbn [notify_step] in Hn.
  - destruct (notify_should_wakeup _ _) eqn:Hwake; injection Hn as <- <-.
    + right. exists r, (Some NotifyLock). split; [|done]. cbn. apply list_lookup_insert_eq. by eapply lookup_lt_Some.
    + by apply (no_wakeup_served None).
  - destruct (notify_should_wakeup _ _) eqn:Hwake; [|injection Hn as <- <-; by apply (no_wakeup_served None)].
    apply (wakeup_decides None s Hinv) in Hwake as [_ Hne]. destruct (last_split _ Hne) as (l & j & Hl).
    rewrite Hl, last_snoc, length_app, Nat.add_1_r in Hn. cbn [pred fmap option_fmap option_map] in Hn.
    rewrite take_app_length in Hn. injection Hn as <- <-.
    destruct (inv_asleep _ _ Hinv j) as (v & Hv & Ha); [rewrite Hl; apply elem_of_app; right; by left|].
    assert (Hnd := inv_nodup _ _ Hinv). rewrite Hl in Hnd. apply NoDup_app in Hnd as (_ & Hj & _).
    left. exists j, v. split; [done|]. apply counted_looks. unfold counted. rewrite Ha.
    apply bool_decide_eq_true. intros Hin. apply (Hj j Hin). by left.
  - injection Hn as <- <-. destruct (Hserved Hpend) as [(i & w & Hi & Hl)|(r' & m & Hm & Hc)].
    + left. destruct (unpark_workers j s i w Hi) as (w' & Hw' & Hp & Hsr & _). exists i, w'. split; [done|].
      unfold looks in *. by rewrite Hp, Hsr.
    + right. exists r', m. split; [|done]. cbn. rewrite list_lookup_insert_ne; [done|]. intros <-. rewrite Hr in Hm.
      by injection Hm as <-.
Qed.

Lemma step_watched ev s s' :
  inv None s → watched s → 0 < length (workers s) → (schedules ev = true → quiet s) → step ev s = Some s' → watched s'.
Proof.
  intros Hinv Hwatch Hlen Hquiet Hs. assert (Hinv' := mt_step_inv ev s s' Hinv Hs).
  destruct ev as [i|i|i|i item|item|r]; cbn [step] in Hs.
  1-4: destruct (workers s !! i) as [w|] eqn:Hi; [|done]; cbn [mbind option_bind] in Hs.
  - assert (Hseen' := work_seen s i w s' Hwatch Hi Hs (inv_flag _ _ Hinv)). split; [|done].
    by apply (work_served s i w).
  - destruct Hwatch as [_ Hseen]. destruct (at_pc w) eqn:Hp; try done; injection Hs as <-.
    all: split; [intros _; by apply (self_served i w)|cbn; apply Forall_insert; [done|by apply not_in_window_seen]].
  - destruct Hwatch as [_ Hseen]. destruct (at_pc w) eqn:Hp; try done; injection Hs as <-.
    all: split; [intros _; by apply (self_served i w)|cbn; apply Forall_insert; [done|by apply not_in_window_seen]].
  - specialize (Hquiet eq_refl). destruct (at_pc w) eqn:Hp; try done; injection Hs as <-.
    + split; [|by apply quiet_seen]. intros _. left. exists i, w. split; [done|]. unfold looks. by rewrite Hp.
    + split; [intros _; by apply (self_served i w)|].
      apply quiet_seen. unfold quiet. cbn. by apply Forall_insert.
    + split; [|by apply quiet_seen]. intros _. left. exists i, w. split; [done|]. unfold looks. by rewrite Hp.
  - injection Hs as <-. split; [|apply quiet_seen; by apply Hquiet]. intros _. right. cbn.
    exists (length (outside s)), (Some NotifyCheck). split; [|done]. by rewrite lookup_app_r, Nat.sub_diag.
  - destruct (outside s !! r) as [[n|]|] eqn:Hr; try done. cbn [mbind option_bind] in Hs.
    assert (Hns := notify_step_seen n s). destruct (notify_step n s) as [n' s1] eqn:Hn. injection Hs as <-.
    cbn [snd] in Hns. destruct Hns as [Hq Hf]. split.
    + intros Hpend. apply (continue_served r n n' s); try done. unfold pending in *. by rewrite <-Hq.
    + cbn. rewrite Hq. apply Hf, Hwatch.
Qed.

(** ** Runs *)

(** The states that [n] workers reach when tasks are scheduled only in states where [P]. *)
Inductive reachable (P : State → Prop) (n : nat) : State → Prop :=
| reach_new : reachable P n (mt_new n)
| reach_step s ev s' :
    reachable P n s → (schedules ev = true → P s) → step ev s = Some s' → reachable P n s'.

Definition anytime (s : State) : Prop := True.

(** Steps that need nothing from outside the runtime. *)
Definition own (ev : event) : bool := match ev with Work _ | Continue _ => true | _ => false end.

Lemma count_idle n : count [] (replicate n (MkWorker Top false false)) = 0%Z.
Proof.
  destruct (decide (count [] (replicate n (MkWorker Top false false)) = 0%Z)) as [|Hne]; [done|].
  assert (Hb := count_bounds [] (replicate n (MkWorker Top false false))).
  destruct (count_positive [] (replicate n (MkWorker Top false false))) as (i & w & [-> _]%lookup_replicate & Hc); [lia|done].
Qed.

Lemma mt_new_inv n : (Z.of_nat n < 65536)%Z → inv None (mt_new n).
Proof.
  intros Hn. split; cbn [workers sleepers queue idle mt_new]; rewrite ?length_replicate; try done.
  - rewrite count_idle. unfold state_new. rewrite Z.shiftl_mul_pow2 by done. change (2 ^ UNPARK_SHIFT)%Z with 65536%Z.
    cbn [length]. lia.
  - constructor.
  - intros i ?%not_elem_of_nil. done.
  - by apply Forall_replicate.
  - intros i w [-> _]%lookup_replicate. done.
Qed.

Lemma step_length ev s s' : inv None s → step ev s = Some s' → length (workers s') = length (workers s).
Proof.
  intros Hinv Hs. destruct ev as [i|i|i|i item|item|r]; cbn [step] in Hs.
  1-4: destruct (workers s !! i) as [w|] eqn:Hi; [|done]; cbn [mbind option_bind] in Hs.
  - unfold_work_in Hs. destruct (at_pc w) as [| | | | | | | | | | |n k| | | | | |].
    3: { assert (Hw := proj1 (pop_task_workers pop_infra s)). destruct (pop_task pop_infra s). injection Hs as <-.
         cbn in *. by rewrite length_insert, Hw. }
    3: { assert (Hw := proj1 (pop_task_workers pop_main s)). destruct (pop_task pop_main s). injection Hs as <-.
         cbn in *. by rewrite length_insert, Hw. }
    10: { assert (Hw := notify_step_length n s). destruct (notify_step n s) as [n' s1].
          destruct (workers s1 !! i); [|done]. injection Hs as <-. cbn in *. by rewrite length_insert. }
    all: repeat match type of Hs with
      | (let '_ := ?x in _) = _ => destruct x eqn:?
      | match ?x with _ => _ end = _ => destruct x eqn:?
      end; try done; injection Hs as <-; cbn; apply length_insert.
  - destruct (at_pc w); try done; injection Hs as <-; cbn; apply length_insert.
  - destruct (at_pc w); try done; injection Hs as <-; cbn; apply length_insert.
  - destruct (at_pc w); try done; injection Hs as <-; cbn; rewrite ?length_insert; done.
  - by injection Hs as <-.
  - destruct (outside s !! r) as [[n|]|]; try done. cbn [mbind option_bind] in Hs.
    assert (Hw := notify_step_length n s). destruct (notify_step n s). by injection Hs as <-.
Qed.

Lemma mt_reachable_inv P n s : (Z.of_nat n < 65536)%Z → reachable P n s → inv None s ∧ length (workers s) = n.
Proof.
  intros Hn. induction 1 as [|s ev s' _ [IH Hl] _ Hs].
  - split; [by apply mt_new_inv|apply length_replicate].
  - split; [by eapply mt_step_inv|]. by rewrite (step_length ev s s').
Qed.

Lemma reachable_watched n s : 0 < n → (Z.of_nat n < 65536)%Z → reachable quiet n s → watched s.
Proof.
  intros H0 Hn. induction 1 as [|s ev s' Hr IH Hq Hs].
  - split; [|by apply Forall_replicate]. unfold pending, queued_tasks. cbn. by rewrite heap_list_new.
  - destruct (mt_reachable_inv quiet n s Hn Hr) as [Hinv Hl]. eapply step_watched; try done. lia.
Qed.

(** Who looks can move. *)
Lemma looks_moves s i w :
  inv None s → workers s !! i = Some w → looks i w s = true → ∃ ev s', own ev = true ∧ step ev s = Some s'.
Proof.
  intros Hinv Hi Hl.
  assert (Hcase : (at_pc w = Parked ∧ token w = false) ∨ ¬ (at_pc w = Parked ∧ token w = false)).
  { destruct (at_pc w); try (right; naive_solver). destruct (token w); [right|left]; naive_solver. }
  destruct Hcase as [[Hp Ht]|Hn].
  - unfold looks in Hl. rewrite Hp in Hl. apply bool_decide_eq_true in Hl.
    destruct (inv_token _ _ Hinv i w Hi ltac:(by rewrite Hp) Hl) as [?|[[(j & v & k & Hv & Hk)|[r Hr]%list_elem_of_lookup]|?]];
      [congruence| | |done].
    + destruct (notify_step_worker (NotifyUnpark i) s j v Hv) as (v' & Hv' & _). exists (Work j). eexists. split; [done|].
      cbn [step]. rewrite Hv. cbn [mbind option_bind]. unfold_work. rewrite Hk. cbn [notify_step snd] in Hv' |- *.
      by rewrite Hv'.
    + exists (Continue r). eexists. split; [done|]. cbn [step]. rewrite Hr. done.
  - exists (Work i). enough (is_Some (work i w s)) as [s' Hs'].
    { exists s'. split; [done|]. cbn [step]. by rewrite Hi. }
    unfold_work. destruct (at_pc w) as [| | | | | | | | | | |n k| | | | | |].
    12: { destruct (notify_step_worker n s i w Hi) as (w' & Hw' & _). destruct (notify_step n s) as [n' s1].
          cbn [snd] in Hw'. by rewrite Hw'. }
    all: repeat match goal with
      | |- is_Some (let '_ := ?x in _) => destruct x eqn:?
      | |- is_Some (match ?x with _ => _ end) => destruct x eqn:?
      end; try by eexists. naive_solver.
Qed.

Lemma served_moves s : inv None s → served s → ∃ ev s', own ev = true ∧ step ev s = Some s'.
Proof.
  intros Hinv [(i & w & Hi & Hl)|(r & [n|] & Hr & Hc)]; [by eapply looks_moves| |done].
  exists (Continue r). destruct (notify_step n s) as [n' s1] eqn:Hn. eexists. split; [done|]. cbn [step]. rewrite Hr.
  cbn [mbind option_bind]. by rewrite Hn.
Qed.

(** ** Tasks are kept *)

Definition is_infra_task (t : Keyed T) : Prop := is_infra (keyed_meta t) = true.

Definition kept (s : State) : Prop :=
  scheduled s ≡ₚ taken s ++ queued_tasks (queue s) ∧
  filter is_infra_task (scheduled s) = filter is_infra_task (taken s) ++ infra (queue s) ∧
  Forall (λ t, ¬ is_infra_task t) (heap_list (main (queue s))).

Lemma push_kept item s : kept s → kept (push_task item s).
Proof.
  intros (Hp & Hf & Hm). unfold kept, queued_tasks, push_task, shared_push in *. cbn [scheduled taken queue].
  rewrite filter_app, filter_cons, filter_nil. destruct (decide (is_infra_task item)) as [Hi|Hi].
  - rewrite Hi. cbn [infra main]. split_and!; [|by rewrite Hf, app_assoc|done].
    rewrite Hp. rewrite <-!app_assoc. do 2 apply Permutation_app_head. apply Permutation_app_comm.
  - assert (is_infra (keyed_meta item) = false) as -> by (by apply not_true_is_false).
    cbn [infra main]. rewrite app_nil_r, heap_list_push. split_and!; [|done|by constructor].
    rewrite Hp, <-!app_assoc. do 2 apply Permutation_app_head. symmetry. apply Permutation_cons_append.
Qed.

Lemma kept_infra s : kept s → Forall is_infra_task (infra (queue s)).
Proof.
  intros (_ & Hf & _). apply Forall_forall. intros t Ht. assert (Hin : t ∈ filter is_infra_task (scheduled s)).
  { rewrite Hf. apply elem_of_app. by right. }
  by apply list_elem_of_filter in Hin as [? _].
Qed.

Lemma pop_infra_kept s : kept s → kept (pop_task pop_infra s).2.
Proof.
  intros Hk. assert (Hi := kept_infra s Hk). destruct Hk as (Hp & Hf & Hm).
  unfold kept, queued_tasks, pop_task, pop_infra in *.
  destruct (infra (queue s)) as [|t l]; cbn [head tail snd scheduled taken queue infra main].
  - change (option_list None) with (@nil (Keyed T)). rewrite !app_nil_r in *. by split_and!.
  - apply Forall_cons in Hi as [Ht _]. change (option_list (Some t)) with [t].
    rewrite filter_app, filter_cons, filter_nil, decide_True by done. split_and!; [by rewrite Hp, <-app_assoc|by rewrite Hf, <-app_assoc|done].
Qed.

Lemma pop_main_kept s : kept s → kept (pop_task pop_main s).2.
Proof.
  intros (Hp & Hf & Hm). unfold kept, queued_tasks, pop_task, pop_main in *.
  destruct (heap_pop (main (queue s))) as [[t h]|] eqn:Ht; cbn [snd scheduled taken queue infra main].
  - change (option_list (Some t)) with [t].
    apply heap_pop_Some in Ht as [Ht _]. rewrite Ht in Hm. apply Forall_cons in Hm as [Hn Hm].
    rewrite filter_app, filter_cons, filter_nil, decide_False, app_nil_r by done. split_and!; [|done|done].
    rewrite Hp, Ht, <-app_assoc. apply Permutation_app_head. symmetry. exact (Permutation_middle (infra (queue s)) (heap_list h) t).
  - change (option_list None) with (@nil (Keyed T)). rewrite app_nil_r. by split_and!.
Qed.

Lemma notify_step_kept n s : kept s → kept (notify_step n s).2.
Proof. destruct n; cbn [notify_step]; [by destruct (notify_should_wakeup _ _)..|done]. Qed.

Lemma step_kept ev s s' : kept s → step ev s = Some s' → kept s'.
Proof.
  intros Hk Hs. destruct ev as [i|i|i|i item|item|r]; cbn [step] in Hs.
  1-4: destruct (workers s !! i) as [w|]; [|done]; cbn [mbind option_bind] in Hs.
  - unfold_work_in Hs. destruct (at_pc w) as [| | | | | | | | | | |n k| | | | | |].
    3: { assert (H := pop_infra_kept s Hk). destruct (pop_task pop_infra s). by injection Hs as <-. }
    3: { assert (H := pop_main_kept s Hk). destruct (pop_task pop_main s). by injection Hs as <-. }
    10: { assert (H := notify_step_kept n s Hk). destruct (notify_step n s) as [n' s1].
          destruct (workers s1 !! i); [|done]. by injection Hs as <-. }
    all: repeat match type of Hs with
      | (let '_ := ?x in _) = _ => destruct x eqn:?
      | match ?x with _ => _ end = _ => destruct x eqn:?
      end; try done; by injection Hs as <-.
  - by destruct (at_pc w); try done; injection Hs as <-.
  - by destruct (at_pc w); try done; injection Hs as <-.
  - assert (H := push_kept item s Hk). by destruct (at_pc w); try done; injection Hs as <-.
  - injection Hs as <-. exact (push_kept item s Hk).
  - destruct (outside s !! r) as [[n|]|]; try done. cbn [mbind option_bind] in Hs.
    assert (H := notify_step_kept n s Hk). destruct (notify_step n s). by injection Hs as <-.
Qed.

Lemma reachable_kept P n s : reachable P n s → kept s.
Proof.
  induction 1 as [|s ev s' _ IH _ Hs]; [|by eapply step_kept].
  unfold kept, queued_tasks. cbn. by rewrite heap_list_new.
Qed.

(** C6: The packed word always holds the number of workers that are not asleep and the
    number that are searching or were told to wake and have not noticed; no worker is twice
    among the sleepers, the sleepers are parked, and a notification that passes its checks
    finds one. No task is lost, made up or handed out twice, and infrastructure tasks are
    handed out in the order they were scheduled. *)
Theorem idle_state_exact P n s :
  (Z.of_nat n < 65536)%Z → reachable P n s →
  num_unparked (idle s) = (Z.of_nat n - Z.of_nat (length (sleepers s)))%Z ∧
  num_searching (idle s) = count (sleepers s) (workers s) ∧
  NoDup (sleepers s) ∧ (∀ i, i ∈ sleepers s → ∃ w, workers s !! i = Some w ∧ awake (at_pc w) = false) ∧
  (notify_should_wakeup n (idle s) = true → sleepers s ≠ []) ∧
  scheduled s ≡ₚ taken s ++ queued_tasks (queue s) ∧
  filter is_infra_task (scheduled s) = filter is_infra_task (taken s) ++ infra (queue s).
Proof.
  intros Hn Hr. destruct (mt_reachable_inv P n s Hn Hr) as [Hinv <-]. destruct (idle_decodes None s Hinv) as [Hs Hu].
  destruct (reachable_kept P _ s Hr) as (Hp & Hf & _).
  split_and!; try done; [apply (inv_nodup _ _ Hinv)|apply (inv_asleep _ _ Hinv)|].
  intros Hw. by apply (wakeup_decides None s Hinv).
Qed.

(** C5: As long as no task is scheduled between the last look at the queue of a worker that
    is not searching and its registration as a sleeper, a queued task is always attended to:
    some worker will look at the queue before it sleeps or has been told to wake, or a
    notification is looking for one; and the runtime can move without any outside event. *)
Theorem queued_task_attended n s :
  0 < n → (Z.of_nat n < 65536)%Z → reachable quiet n s → pending s →
  served s ∧ ∃ ev s', own ev = true ∧ step ev s = Some s'.
Proof.
  intros H0 Hn Hr Hp. destruct (mt_reachable_inv quiet n s Hn Hr) as [Hinv _].
  assert (Hs := proj1 (reachable_watched n s H0 Hn Hr) Hp). split; [done|by apply served_moves].
Qed.

(** ** A lost wake-up *)

(** A sequence of steps, tasks being scheduled only where [ok] says so. *)
Fixpoint run (ok : State → bool) (l : list event) (s : State) : option State :=
  match l with
  | [] => Some s
  | ev :: l => if schedules ev && negb (ok s) then None else s ← step ev s; run ok l s
  end.

Lemma mt_run_reachable P ok n l s s' :
  (∀ s, ok s = true → P s) → reachable P n s → run ok l s = Some s' → reachable P n s'.
Proof.
  intros Hok. revert s. induction l as [|ev l IH]; intros s Hr; cbn [run]; [by intros [= <-]|].
  destruct (schedules ev && negb (ok s)) eqn:Hq; [done|].
  destruct (step ev s) as [s1|] eqn:Hs; [|done]. apply IH. eapply reach_step; [done| |done].
  intros Hev. rewrite Hev in Hq. apply Hok. by destruct (ok s).
Qed.

(** [k] of [n] workers are at [p], the others at [q]. *)
Definition workers_at (p q : pc) (k n : nat) : list Worker :=
  replicate k (MkWorker p false false) ++ replicate (n - k) (MkWorker q false false).

Lemma workers_at_lookup p q k n : k < n → workers_at p q k n !! k = Some (MkWorker q false false).
Proof.
  intros Hk. unfold workers_at. rewrite lookup_app_r by (by rewrite length_replicate). rewrite length_replicate, Nat.sub_diag.
  apply lookup_replicate_2. lia.
Qed.

Lemma workers_at_insert p q k n : k < n → <[k := MkWorker p false false]> (workers_at p q k n) = workers_at p q (S k) n.
Proof.
  intros Hk. unfold workers_at. rewrite insert_app_r_alt by (by rewrite length_replicate).
  rewrite length_replicate, Nat.sub_diag. replace (n - k) with (S (n - S k)) by lia. rewrite replicate_S. cbn [insert list_insert].
  rewrite replicate_S_end, <-app_assoc. done.
Qed.

Lemma reach_each (R : State → Prop) (f : nat → State) n :
  R (f 0) → (∀ k, k < n → R (f k) → R (f (S k))) → R (f n).
Proof.
  intros H0 Hs. enough (∀ k, k ≤ n → R (f k)) by auto. intros k. induction k as [|k IH]; intros Hk; [done|].
  apply Hs; [lia|]. apply IH. lia.
Qed.

(** Nothing queued: a worker comes to the point of registering. *)
Definition to_register (n k : nat) : State :=
  MkState shared_new (state_new n) [] (workers_at Register Top k n) [] [] [].

(** Worker [k] on its way there. *)
Definition on_the_way (n k : nat) (p : pc) : State :=
  MkState shared_new (state_new n) [] (<[k := MkWorker p false false]> (workers_at Register Top k n)) [] [] [].

Lemma on_the_way_goto n k p q : put_worker k (MkWorker q false false) (on_the_way n k p) = on_the_way n k q.
Proof. unfold on_the_way, put_worker. cbn. by rewrite list_insert_insert_eq. Qed.

Lemma on_the_way_step n k p q :
  k < n → work k (MkWorker p false false) (on_the_way n k p) = Some (put_worker k (MkWorker q false false) (on_the_way n k p)) →
  step (Work k) (on_the_way n k p) = Some (on_the_way n k q).
Proof.
  intros Hk Hs. cbn [step workers on_the_way]. rewrite list_lookup_insert_eq by (eapply lookup_lt_Some, workers_at_lookup, Hk).
  cbn [mbind option_bind]. by rewrite Hs, on_the_way_goto.
Qed.

Lemma to_register_step n k :
  k < n → reachable anytime n (to_register n k) → reachable anytime n (to_register n (S k)).
Proof.
  intros Hk Hr. apply (mt_run_reachable anytime (λ _, true) n [Work k; Work k; Work k; Work k] _ _ ltac:(done) Hr).
  assert (Hn : heap_pop (heap_new (A := Keyed T)) = None) by (apply heap_pop_None, heap_list_new).
  assert (He : main_is_empty shared_new = true) by (apply main_empty, heap_list_new).
  cbn [run]. assert (H1 : step (Work k) (to_register n k) = Some (on_the_way n k PopMain)).
  { cbn [step workers to_register]. by rewrite workers_at_lookup. }
  rewrite H1. cbn [mbind option_bind]. rewrite (on_the_way_step n k PopMain NoTask Hk).
  2: { cbn [work shared_pop run_task transition_to_parked goto at_pc]. unfold pop_task, pop_main. cbn [queue on_the_way shared_new main]. by rewrite Hn. }
  cbn [mbind option_bind]. rewrite (on_the_way_step n k NoTask CheckInfra Hk).
  2: { cbn [work shared_pop run_task transition_to_parked goto at_pc queue on_the_way]. by rewrite He. }
  cbn [mbind option_bind]. rewrite (on_the_way_step n k CheckInfra Register Hk) by done.
  cbn [mbind option_bind]. unfold on_the_way, to_register. by rewrite workers_at_insert.
Qed.

(** A task was scheduled; [k] workers have gone to sleep. *)
Definition going_to_sleep (item : Keyed T) (n k : nat) : State :=
  MkState (shared_push item shared_new) (65536 * (Z.of_nat n - Z.of_nat k)) (seq 0 k) (workers_at Parked Register k n)
    [None] [item] [].

Lemma going_to_sleep_step item n k :
  (Z.of_nat n < 65536)%Z → k < n →
  reachable anytime n (going_to_sleep item n k) → reachable anytime n (going_to_sleep item n (S k)).
Proof.
  intros Hn Hk Hr. eapply (reach_step _ _ _ (Work k) _ Hr); [done|]. cbn [step workers going_to_sleep].
  rewrite workers_at_lookup by done. cbn [mbind option_bind work transition_to_parked at_pc is_searching token].
  unfold dec_num_unparked. cbn [andb]. unfold going_to_sleep, put_worker, put_idle.
  cbn [idle queue sleepers workers outside scheduled taken]. rewrite workers_at_insert by done.
  rewrite seq_S. do 2 f_equal. change (Z.shiftl 1 UNPARK_SHIFT + 0)%Z with 65536%Z.
  rewrite wrap64_small; [|unfold is_u64, u64_max]; lia.
Qed.

Lemma scheduled_in_window item n :
  0 < n → (Z.of_nat n < 65536)%Z → reachable anytime n (to_register n n) → reachable anytime n (going_to_sleep item n 0).
Proof.
  intros H0 Hn Hr.
  assert (Hst : state_new n = (65536 * Z.of_nat n + 0)%Z).
  { unfold state_new. rewrite Z.shiftl_mul_pow2 by done. change (2 ^ UNPARK_SHIFT)%Z with 65536%Z. lia. }
  assert (Hw : notify_should_wakeup (length (workers_at Register Top n n)) (state_new n) = false).
  { unfold notify_should_wakeup. rewrite Hst. destruct (unpack (Z.of_nat n) 0) as [-> ->]; [lia|lia|].
    unfold workers_at. rewrite length_app, !length_replicate, Nat.sub_diag, Nat.add_0_r.
    apply andb_false_intro2, bool_decide_eq_false. lia. }
  set (s1 := MkState (shared_push item shared_new) (state_new n) [] (workers_at Register Top n n) [Some NotifyCheck] [item] []).
  assert (H1 : reachable anytime n s1) by (by eapply (reach_step _ _ _ (Remote item) _ Hr)).
  assert (H2 : step (Continue 0) s1 = Some (put_outside 0 None s1)).
  { assert (Hnotify : notify_step NotifyCheck s1 = (None, s1)).
    { unfold notify_step. change (workers s1) with (workers_at Register Top n n). change (idle s1) with (state_new n).
      by rewrite Hw. }
    change (step (Continue 0) s1) with (let '(n', s) := notify_step NotifyCheck s1 in Some (put_outside 0 n' s)).
    by rewrite Hnotify. }
  assert (Heq : put_outside 0 None s1 = going_to_sleep item n 0).
  { unfold going_to_sleep, put_outside, s1. cbn [queue idle sleepers workers outside scheduled taken insert list_insert seq].
    f_equal; [rewrite Hst; lia|]. unfold workers_at. by rewrite Nat.sub_diag, Nat.sub_0_r, app_nil_r. }
  rewrite <-Heq. by eapply (reach_step _ _ _ (Continue 0) _ H1).
Qed.

(** C36: A wake-up can be lost, with any number of workers and any task: all workers look at the
    empty queue, another thread schedules the task and finds nobody asleep to wake, and the
    workers go to sleep without looking again, as none of them was searching. The task
    stays in the queue until an outside event: no thread of the runtime can move. *)
Theorem wakeup_lost n (item : Keyed T) :
  0 < n → (Z.of_nat n < 65536)%Z →
  ∃ s, reachable anytime n s ∧ pending s ∧ length (sleepers s) = n ∧
    ∀ ev, own ev = true → step ev s = None.
Proof.
  intros H0 Hn. exists (going_to_sleep item n n). split_and!.
  - apply (reach_each (reachable anytime n) (going_to_sleep item n)); [|intros k Hk; by apply going_to_sleep_step].
    apply scheduled_in_window; try done.
    apply (reach_each (reachable anytime n) (to_register n)); [|apply to_register_step].
    unfold to_register, workers_at. cbn [replicate app]. rewrite Nat.sub_0_r. apply reach_new.
  - unfold pending, queued_tasks, going_to_sleep, shared_push. cbn [queue]. destruct (is_infra _); cbn; [done|].
    intros Hnil. assert (Hp := heap_list_push item heap_new). rewrite Hnil in Hp.
    by apply Permutation_nil_cons in Hp.
  - apply length_seq.
  - intros [i| | | | |r] Ho; try done; cbn [step going_to_sleep workers outside].
    + unfold workers_at. rewrite Nat.sub_diag. cbn [replicate]. rewrite app_nil_r.
      destruct (replicate n _ !! i) as [w|] eqn:Hi; [|done]. by apply lookup_replicate in Hi as [-> _].
    + by destruct r as [|[|r]].
Qed.

Definition is_quiet (s : State) : bool := forallb (λ w, negb (in_window w)) (workers s).

Lemma is_quiet_quiet s : is_quiet s = true → quiet s.
Proof.
  unfold is_quiet, quiet. rewrite forallb_forall, Forall_forall. intros H w Hw%list_elem_of_In.
  specialize (H w Hw). by destruct (in_window w).
Qed.

End mt_worker.

(** Two workers; one goes to sleep, a task is scheduled from outside, and the sleeper is
    chosen to be woken. *)
#[local] Definition demo_heap : BinaryHeap (Keyed nat) := sorted_heap keyed_le.
#[local] Existing Instance demo_heap.
#[local] Instance demo_laws : BinaryHeapLaws (Keyed nat) keyed_le := sorted_heap_laws keyed_le.

Definition woken_up : list event :=
  [Work 1; Work 1; Work 1; Work 1; Work 1; Remote (MkKeyed (MkMeta 7) 1); Continue 0; Continue 0].
Definition demo_state : State := default (mt_new 2) (run is_quiet woken_up (mt_new 2)).

Lemma mt_demo_reachable : reachable quiet 2 demo_state.
Proof.
  apply (mt_run_reachable quiet is_quiet 2 woken_up (mt_new 2)); [exact is_quiet_quiet|apply reach_new|].
  vm_compute. reflexivity.
Qed.

Lemma idle_state_exact_witness :
  num_unparked (idle demo_state) = 2%Z ∧ num_searching (idle demo_state) = 1%Z.
Proof.
  destruct (idle_state_exact quiet 2 demo_state eq_refl mt_demo_reachable) as (-> & -> & _).
  split; vm_compute; reflexivity.
Defined.

Lemma queued_task_attended_witness :
  served demo_state ∧ ∃ ev s', own ev = true ∧ step ev demo_state = Some s'.
Proof. apply (queued_task_attended 2 demo_state); [lia|lia|exact mt_demo_reachable|vm_compute; discriminate]. Defined.

Lemma wakeup_lost_witness :
  ∃ s : State, reachable anytime 4 s ∧ pending s ∧ length (sleepers s) = 4 ∧ ∀ ev, own ev = true → step ev s = None.
Proof. apply (wakeup_lost 4 (MkKeyed (MkMeta 7) 1)); lia. Defined.
