(* ===== verification/CurrentThread.v ===== *)
(** The current-thread scheduler of the project's tokio, the client of the run queues:
    libs/tokio/tokio/src/runtime/scheduler/current_thread/mod.rs, with the life cycle and
    the timer of a task (runtime/task/state.rs, harness.rs, core.rs). Tasks are named by
    their identifiers, which are never reused; clock readings are arguments. Reference
    counts, join handles, shutdown and the drivers are left out: a task is woken, aborted
    or spawned from the thread that holds the core ([local]) or from another. *)
From S2P Require Export Sched.
From S2P Require Import Builtin.

(** ** The life cycle of a task (state.rs) *)

Record Life := MkLife { running : bool; complete : bool; notified : bool; cancelled : bool }.

(** A task starts with a [Notified]. *)
Definition life_new : Life := MkLife false false true false.

Inductive TransitionToRunning := RunSuccess | RunCancelled | RunFailed.
Inductive TransitionToIdle := IdleOk | IdleOkNotified | IdleCancelled.

Definition is_idle (l : Life) : bool := negb (running l) && negb (complete l).

Definition transition_to_running (l : Life) : outcome (TransitionToRunning * Life) :=
  if notified l then
    Ret (if is_idle l then (if cancelled l then RunCancelled else RunSuccess, MkLife true (complete l) false (cancelled l))
         else (RunFailed, l))
  else Panic.

Definition transition_to_idle (l : Life) : outcome (TransitionToIdle * Life) :=
  if running l then
    Ret (if cancelled l then (IdleCancelled, l)
         else (if notified l then IdleOkNotified else IdleOk, MkLife false (complete l) (notified l) (cancelled l)))
  else Panic.

Definition transition_to_complete (l : Life) : outcome Life :=
  if running l && negb (complete l) then Ret (MkLife false true (notified l) (cancelled l)) else Panic.

(** By reference or by value: whether the task is to be submitted. *)
Definition transition_to_notified (l : Life) : bool * Life :=
  if complete l || notified l then (false, l)
  else (negb (running l), MkLife (running l) (complete l) true (cancelled l)).

Definition transition_to_notified_and_cancel (l : Life) : bool * Life :=
  if cancelled l || complete l then (false, l)
  else if running l then (false, MkLife true (complete l) true true)
  else (negb (notified l), MkLife false (complete l) true true).

(** ** The timer of a task (core.rs) *)

Record TraceTimer := MkTimer { q_lat : Z; last_enqueue : option Z; first_enqueue : option Z; timer_polls : Z }.

Definition timer_new : TraceTimer := MkTimer 0 None None 0.

Definition set_enqueue_time (now : Z) (t : TraceTimer) : TraceTimer :=
  MkTimer 0 (Some now) (Some (default now (first_enqueue t))) (timer_polls t).

(** [Instant::duration_since] saturates. *)
Definition record_queue_lat (now : Z) (t : TraceTimer) : outcome TraceTimer :=
  last ← expect_some (last_enqueue t);
  Ret (MkTimer (Z.max 0 (now - last)) (last_enqueue t) (first_enqueue t) (timer_polls t)).

Definition begin_poll (t : TraceTimer) : TraceTimer :=
  MkTimer (q_lat t) (last_enqueue t) (first_enqueue t) (wrap32 (timer_polls t + 1)).

(** ** What a run queue may rely on (queue.rs) *)

#[export] Instance TaskView_eq_dec : EqDecision TaskView.
Proof. solve_decision. Defined.

(** What the docs of the interface speak of: the calls, and what happens to the tasks
    themselves. [Enqueued at k remote]: at the time [at], the task [k] is put into the run
    queue, or into the injection queue if [remote]. *)
Inductive note :=
| Spawned (k : Z) (m : Meta)
| Reprioritized (k : Z) (m : Meta)
| Enqueued (at_ k : Z) (remote : bool)
| Called (op : sched_op Z).

Definition call_of (n : note) : option (sched_op Z) := match n with Called op => Some op | _ => None end.

Inductive Place := Nowhere | InRunQueue | InInjection.

#[export] Instance Place_eq_dec : EqDecision Place.
Proof. solve_decision. Defined.

(** Of one task: its metadata, the polls it has started, when it was first and last enqueued,
    where it is and whether it has finished. *)
Record Facts := MkFacts {
  f_meta : Meta;
  f_polls : Z;
  f_first : option Z;
  f_last : option Z;
  f_place : Place;
  f_done : bool;
}.

Definition facts_new (m : Meta) : Facts := MkFacts m 0 None None Nowhere false.

(** The call that must come next: the push of a task that was enqueued, or the exit of one
    whose last poll ended. *)
Inductive Owed := OwesPush (k : Z) | OwesExit (k : Z).

Record Contract := MkContract { facts : gmap Z Facts; c_polling : option TaskView; c_owed : option Owed }.

Definition contract_new : Contract := MkContract ∅ None None.

Definition learn (k : Z) (f : Facts) (p : option TaskView) (o : option Owed) (c : Contract) : Contract :=
  MkContract (<[k := f]> (facts c)) p o.

Definition with_meta (m : Meta) (f : Facts) : Facts := MkFacts m (f_polls f) (f_first f) (f_last f) (f_place f) (f_done f).
Definition with_place (p : Place) (f : Facts) : Facts := MkFacts (f_meta f) (f_polls f) (f_first f) (f_last f) p (f_done f).
Definition with_done (b : bool) (f : Facts) : Facts := MkFacts (f_meta f) (f_polls f) (f_first f) (f_last f) (f_place f) b.

(** The first enqueue is the first into any queue. *)
Definition enqueue_fact (at_ : Z) (p : Place) (f : Facts) : Facts :=
  MkFacts (f_meta f) (f_polls f) (Some (default at_ (f_first f))) (Some at_) p (f_done f).

(** A poll counts itself. *)
Definition start_fact (f : Facts) : Facts :=
  MkFacts (f_meta f) (wrap32 (f_polls f + 1)) (f_first f) (f_last f) Nowhere (f_done f).

(** A view tells nothing but the facts, and all of them. *)
Definition view_ok (k : Z) (f : Facts) (v : TaskView) : bool :=
  bool_decide (task_id v = k ∧ meta v = f_meta f ∧ f_last f = Some (enqueued_at v) ∧
    f_first f = Some (first_enqueued_at v) ∧ polls v = f_polls f).

(** Whether what happens keeps to the contract, and what is known after it. Identifiers are not
    used twice. The view at a push or at the start of a poll is exact: the identifier, the present
    metadata, the time of the last enqueue, that of the first into any queue, and the polls started
    so far, the one in progress included. A task is pushed at its enqueue, unless it goes to the injection queue, and never
    while it is in a queue or after it finished. A task that is polled comes from one of the
    queues; polls do not overlap and end with the view they started with. The run queue is
    popped only between polls, and told to be idle only if it is empty. A task that finished is
    in no queue, and is told to be gone, once and at once. Exits at the shutdown of the runtime,
    which come without a poll, are left out with it. *)
Definition accept (n : note) (c : Contract) : option Contract :=
  match n, c_owed c with
  | Spawned k m, None =>
      match facts c !! k with None => Some (learn k (facts_new m) (c_polling c) None c) | Some _ => None end
  | Reprioritized k m, None =>
      f ← facts c !! k;
      if decide (task_id <$> c_polling c = Some k) then Some (learn k (with_meta m f) (c_polling c) None c) else None
  | Enqueued t k remote, None =>
      f ← facts c !! k;
      if bool_decide (f_place f = Nowhere) && negb (f_done f) then
        Some (if remote : bool then learn k (enqueue_fact t InInjection f) (c_polling c) None c
              else learn k (enqueue_fact t Nowhere f) (c_polling c) (Some (OwesPush k)) c)
      else None
  | Called (Push k v), Some (OwesPush k') =>
      f ← facts c !! k;
      if bool_decide (k = k') && view_ok k f v then Some (learn k (with_place InRunQueue f) (c_polling c) None c) else None
  | Called (PollStart v), None =>
      f ← facts c !! task_id v;
      if bool_decide (c_polling c = None) && bool_decide (f_place f ≠ Nowhere) && view_ok (task_id v) (start_fact f) v
      then Some (learn (task_id v) (start_fact f) (Some v) None c) else None
  | Called (PollEnd v o), None =>
      f ← facts c !! task_id v;
      let done := match o with Ready => true | Pending => false end in
      if bool_decide (c_polling c = Some v) && (negb done || bool_decide (f_place f = Nowhere))
      then Some (learn (task_id v) (with_done done f) None (if done then Some (OwesExit (task_id v)) else None) c)
      else None
  | Called (TaskExit k), Some (OwesExit k') =>
      if decide (k = k') then Some (MkContract (facts c) (c_polling c) None) else None
  | Called Pop, None => if decide (c_polling c = None) then Some c else None
  | Called Idle, None =>
      if decide (c_polling c = None ∧ map_Forall (λ _ f, f_place f ≠ InRunQueue) (facts c)) then Some c else None
  | _, _ => None
  end.

Fixpoint accepts (l : list note) (c : Contract) : option Contract :=
  match l with [] => Some c | n :: l => c ← accept n c; accepts l c end.

(** ** The scheduler *)

Record CtTask := MkCtTask { life : Life; priority : Meta; timer : TraceTimer }.

Section current_thread.
  Context {Q : Type} `{RQ : RunQueue Z Q}.

(** [polling]: the view of the task being polled. [history]: what happened so far. *)
Record CtState := MkCt {
  tasks : Q;
  tick : Z;
  exited : list Z;
  inject : list Z;
  all_tasks : gmap Z CtTask;
  next_id : Z;
  polling : option TaskView;
  history : list note;
}.

(** What the run queue was told so far. *)
Definition calls (s : CtState) : list (sched_op Z) := omap call_of (history s).

Definition INITIAL_CAPACITY : nat := 64.

Definition ct_new : outcome CtState :=
  q ← with_capacity INITIAL_CAPACITY; Ret (MkCt q 0 [] [] ∅ 1 None []).

Definition set_task (k : Z) (tk : CtTask) (s : CtState) : CtState :=
  MkCt (tasks s) (tick s) (exited s) (inject s) (<[k := tk]> (all_tasks s)) (next_id s) (polling s) (history s).
Definition set_polling (v : option TaskView) (s : CtState) : CtState :=
  MkCt (tasks s) (tick s) (exited s) (inject s) (all_tasks s) (next_id s) v (history s).
Definition set_exited (l : list Z) (s : CtState) : CtState :=
  MkCt (tasks s) (tick s) l (inject s) (all_tasks s) (next_id s) (polling s) (history s).

Definition log (n : note) (s : CtState) : CtState :=
  MkCt (tasks s) (tick s) (exited s) (inject s) (all_tasks s) (next_id s) (polling s) (history s ++ [n]).

(** A call of the run queue. *)
Definition tell (op : sched_op Z) (s : CtState) : CtState :=
  MkCt (sched_step (tasks s) op).1 (tick s) (exited s) (inject s) (all_tasks s) (next_id s) (polling s) (history s ++ [Called op]).

Definition task_view (now k : Z) (tk : CtTask) : TaskView :=
  MkView k (priority tk) (default now (last_enqueue (timer tk))) (default now (first_enqueue (timer tk)))
    (timer_polls (timer tk)).

(** [Core::push_task]. *)
Definition push_task (now k : Z) (tk : CtTask) (s : CtState) : CtState :=
  let tk := MkCtTask (life tk) (priority tk) (set_enqueue_time now (timer tk)) in
  tell (Push k (task_view now k tk)) (log (Enqueued now k false) (set_task k tk s)).

(** [Schedule::schedule]. *)
Definition schedule (local : bool) (now k : Z) (tk : CtTask) (s : CtState) : CtState :=
  if local then push_task now k tk s
  else
    let s := log (Enqueued now k true) (set_task k (MkCtTask (life tk) (priority tk) (set_enqueue_time now (timer tk))) s) in
    MkCt (tasks s) (tick s) (exited s) (inject s ++ [k]) (all_tasks s) (next_id s) (polling s) (history s).

(** A transition that may submit the task, and [schedule]: [wake_by_ref], [remote_abort]. *)
Definition notify_task (f : Life → bool * Life) (local : bool) (now k : Z) (tk : CtTask) (s : CtState) : CtState :=
  let '(submit, l) := f (life tk) in
  let tk := MkCtTask l (priority tk) (timer tk) in
  if submit then schedule local now k tk s else set_task k tk s.

Definition wake := notify_task transition_to_notified.
Definition remote_abort := notify_task transition_to_notified_and_cancel.

(** [Handle::spawn]; without an annotation the spawning task's metadata decides. *)
Definition current_task_meta (s : CtState) : option Meta :=
  v ← polling s; tk ← all_tasks s !! task_id v; Some (priority tk).

Definition spawn (local : bool) (now : Z) (m : option Meta) (s : CtState) : CtState :=
  let m := default (meta_for_unannotated_spawn (if local then current_task_meta s else None)) m in
  let k := next_id s in
  let tk := MkCtTask life_new m timer_new in
  let s := MkCt (tasks s) (tick s) (exited s) (inject s) (<[k := tk]> (all_tasks s)) (k + 1) (polling s) (history s) in
  schedule local now k tk (log (Spawned k m) s).

(** [reprioritize], by the task that is polled. *)
Definition reprioritize (m : Meta) (s : CtState) : CtState :=
  match (v ← polling s; tk ← all_tasks s !! task_id v; Some (task_id v, tk)) with
  | Some (k, tk) => log (Reprioritized k m) (set_task k (MkCtTask (life tk) m (timer tk)) s)
  | None => s
  end.

(** [next_local_task], [next_remote_task] and [next_task]. *)
Definition next_local_task (now : Z) (s : CtState) : outcome (option Z * CtState) :=
  let r := (sched_step (tasks s) Pop).2 in
  let s := tell Pop s in
  match head r with
  | Some k =>
      tk ← expect_some (all_tasks s !! k);
      t ← record_queue_lat now (timer tk);
      Ret (Some k, set_task k (MkCtTask (life tk) (priority tk) t) s)
  | None => Ret (None, s)
  end.

Definition next_remote_task (s : CtState) : option Z * CtState :=
  (head (inject s), MkCt (tasks s) (tick s) (exited s) (tail (inject s)) (all_tasks s) (next_id s) (polling s) (history s)).

Definition next_task (interval now : Z) (s : CtState) : outcome (option Z * CtState) :=
  if decide (tick s mod interval = 0)%Z then
    let '(r, s) := next_remote_task s in
    match r with Some k => Ret (Some k, s) | None => next_local_task now s end
  else
    '(r, s) ← next_local_task now s;
    match r with Some k => Ret (Some k, s) | None => Ret (next_remote_task s) end.

(** [flush_exits] and [end_poll]. *)
Definition flush_exits (s : CtState) : CtState :=
  set_exited [] (foldl (λ s k, tell (TaskExit k) s) s (exited s)).

Definition end_poll (v : TaskView) (s : CtState) : CtState :=
  let o := if decide (task_id v ∈ exited s) then Ready else Pending in
  flush_exits (set_polling None (tell (PollEnd v o) s)).

(** [complete], with [release]. *)
Definition complete_task (k : Z) (tk : CtTask) (s : CtState) : outcome CtState :=
  l ← transition_to_complete (life tk);
  let s := set_task k (MkCtTask l (priority tk) (timer tk)) s in
  Ret (set_exited (exited s ++ [k]) s).

(** A round of the loop up to the poll of the task's future. *)
Definition run_one (interval now : Z) (s : CtState) : outcome CtState :=
  let s := MkCt (tasks s) (wrap32 (tick s + 1)) (exited s) (inject s) (all_tasks s) (next_id s) (polling s) (history s) in
  '(r, s) ← next_task interval now s;
  match r with
  | None => Ret (tell Idle s)
  | Some k =>
      tk ← expect_some (all_tasks s !! k);
      let tk := MkCtTask (life tk) (priority tk) (begin_poll (timer tk)) in
      let v := task_view now k tk in
      let s := tell (PollStart v) (set_polling (Some v) (set_task k tk s)) in
      '(t, l) ← transition_to_running (life tk);
      let tk := MkCtTask l (priority tk) (timer tk) in
      let s := set_task k tk s in
      match t with
      | RunSuccess => Ret s
      | RunCancelled => s ← complete_task k tk s; Ret (end_poll v s)
      | RunFailed => Ret (end_poll v s)
      end
  end.

(** The poll of the future returns: the rest of [poll_inner], [poll] and the round. *)
Definition finish_poll (ready : bool) (now : Z) (v : TaskView) (s : CtState) : outcome CtState :=
  let k := task_id v in
  tk ← expect_some (all_tasks s !! k);
  s ← (if ready then complete_task k tk s
       else
         '(t, l) ← transition_to_idle (life tk);
         let tk := MkCtTask l (priority tk) (timer tk) in
         let s := set_task k tk s in
         match t with
         | IdleOk => Ret s
         | IdleOkNotified => Ret (push_task now k tk s)
         | IdleCancelled => complete_task k tk s
         end);
  Ret (end_poll v s).

Inductive event :=
| Round
| PollDone (ready : bool)
| WakeTask (local : bool) (k : Z)
| AbortTask (local : bool) (k : Z)
| SpawnTask (local : bool) (m : option Meta)
| Reprioritize (m : Meta).

Definition step (interval now : Z) (ev : event) (s : CtState) : option (outcome CtState) :=
  match ev with
  | Round => match polling s with None => Some (run_one interval now s) | Some _ => None end
  | PollDone ready => v ← polling s; Some (finish_poll ready now v s)
  | WakeTask local k => tk ← all_tasks s !! k; Some (Ret (wake local now k tk s))
  | AbortTask local k => tk ← all_tasks s !! k; Some (Ret (remote_abort local now k tk s))
  | SpawnTask local m => Some (Ret (spawn local now m s))
  | Reprioritize m => _ ← polling s; Some (Ret (reprioritize m s))
  end.

(** ** The scheduler keeps to the contract *)

Context {L : RunQueueLaws Z Q}.

Definition waiting (s : CtState) : list Z := queued (tasks s) ++ inject s.

Definition is_waiting (l : Life) : bool := notified l && negb (running l) && negb (complete l).

Definition place_of (s : CtState) (k : Z) : Place :=
  if decide (k ∈ queued (tasks s)) then InRunQueue else if decide (k ∈ inject s) then InInjection else Nowhere.

(** A task's life agrees with the queues, the poll in progress and what is known of it. *)
Record life_ok (s : CtState) (k : Z) (f : Facts) (l : Life) : Prop := {
  life_waiting : k ∈ waiting s ↔ is_waiting l = true;
  life_running : running l = true ↔ task_id <$> polling s = Some k;
  life_live : running l = true → complete l = false;
  life_place : f_place f = place_of s k;
  life_done : f_done f = complete l;
}.

(** A task's metadata and timer are what is known of it. *)
Record told (f : Facts) (tk : CtTask) : Prop := {
  told_meta : f_meta f = priority tk;
  told_polls : f_polls f = timer_polls (timer tk);
  told_first : f_first f = first_enqueue (timer tk);
  told_last : f_last f = last_enqueue (timer tk);
  told_enqueued : f_place f ≠ Nowhere → is_Some (f_first f) ∧ is_Some (f_last f);
}.

(** [h] is a task in transition. *)
Record inv (h : option Z) (s : CtState) (c : Contract) : Prop := {
  inv_ok : queue_ok (tasks s);
  inv_nodup : NoDup (waiting s);
  inv_polling : c_polling c = polling s;
  inv_owed : c_owed c = None;
  inv_exited : exited s = [];
  inv_fresh k : is_Some (all_tasks s !! k) → (k < next_id s)%Z;
  inv_polled v : polling s = Some v → is_Some (all_tasks s !! task_id v);
  inv_unknown k : all_tasks s !! k = None → facts c !! k = None ∧ k ∉ waiting s;
  inv_task k tk : all_tasks s !! k = Some tk →
    ∃ f, facts c !! k = Some f ∧ told f tk ∧ (h ≠ Some k → life_ok s k f (life tk));
}.

Lemma accepts_app l l' c : accepts (l ++ l') c = (c ← accepts l c; accepts l' c).
Proof.
  revert c. induction l as [|op l IH]; intros c; [done|]. cbn. destruct (accept op c) as [c1|]; [|done]. cbn. apply IH.
Qed.

Lemma accepts_cons n l c : accepts (n :: l) c = (c ← accept n c; accepts l c).
Proof. done. Qed.

Lemma accepts_one n c : accepts [n] c = accept n c.
Proof. cbn. by destruct (accept n c). Qed.

Lemma place_away s k : k ∉ waiting s → place_of s k = Nowhere.
Proof.
  unfold waiting. rewrite elem_of_app. intros H. unfold place_of. destruct (decide _); [tauto|]. destruct (decide _); [tauto|done].
Qed.

Lemma place_waiting s k : k ∈ waiting s → place_of s k ≠ Nowhere.
Proof.
  unfold waiting. rewrite elem_of_app. intros H. unfold place_of. destruct (decide _); [done|]. destruct (decide _); [done|tauto].
Qed.

(** The queues and the poll are the same as far as the task is concerned. *)
Definition same_for (j : Z) (s s' : CtState) : Prop :=
  (j ∈ queued (tasks s') ↔ j ∈ queued (tasks s)) ∧ (j ∈ inject s' ↔ j ∈ inject s) ∧
  (task_id <$> polling s' = Some j ↔ task_id <$> polling s = Some j).

Lemma same_waiting j s s' : same_for j s s' → j ∈ waiting s' ↔ j ∈ waiting s.
Proof. intros (Hq & Hi & _). unfold waiting. by rewrite !elem_of_app, Hq, Hi. Qed.

Lemma life_same s s' k f l : life_ok s k f l → same_for k s s' → life_ok s' k f l.
Proof.
  intros [H1 H2 H3 H4 H5] Hs. assert (Hw := same_waiting _ _ _ Hs). destruct Hs as (Hq & Hi & Hp). split; try done.
  - by rewrite Hw.
  - by rewrite Hp.
  - rewrite H4. unfold place_of. by repeat case_decide; try tauto.
Qed.

(** One task is changed, and where it is. *)
Lemma ct_change_inv k tk f h s c s' c' :
  inv h s c → h = None ∨ h = Some k → all_tasks s' = <[k := tk]> (all_tasks s) → facts c' = <[k := f]> (facts c) → told f tk →
  (k < next_id s')%Z → (next_id s ≤ next_id s')%Z → queue_ok (tasks s') → NoDup (waiting s') →
  (∀ j, j ≠ k → same_for j s s') → c_polling c' = polling s' → c_owed c' = None → exited s' = [] →
  inv (Some k) s' c'.
Proof.
  intros [_ _ _ _ _ Hf Hpd Hu Ht] Hh Hat Hfs Htold Hk Hid Hok Hnd Hsame Hp Ho He. split; try done; rewrite ?Hat.
  - intros j Hj. destruct (decide (k = j)) as [<-|Hne]; [done|]. rewrite lookup_insert_ne in Hj by done. specialize (Hf j Hj). lia.
  - intros v Hv. destruct (decide (k = task_id v)) as [<-|Hne]; [by rewrite lookup_insert_eq|]. rewrite lookup_insert_ne by done.
    destruct (Hsame (task_id v) ltac:(done)) as (_ & _ & [Hv' _]). rewrite Hv in Hv'. specialize (Hv' eq_refl).
    destruct (polling s) as [v0|] eqn:Hv0; [|done]. cbn in Hv'. injection Hv' as <-. by apply Hpd.
  - intros j Hj. destruct (decide (k = j)) as [<-|Hne]; [by rewrite lookup_insert_eq in Hj|]. rewrite lookup_insert_ne in Hj by done.
    rewrite Hfs, lookup_insert_ne by done. destruct (Hu j Hj) as [? Hn]. split; [done|]. by rewrite (same_waiting j s s') by by apply Hsame.
  - intros j tkj Hj. destruct (decide (k = j)) as [<-|Hne].
    + rewrite lookup_insert_eq in Hj. injection Hj as <-. exists f. rewrite Hfs, lookup_insert_eq. by split_and!.
    + rewrite lookup_insert_ne in Hj by done. destruct (Ht j tkj Hj) as (fj & Hfj & Htj & Hlj). exists fj.
      rewrite Hfs, lookup_insert_ne by done. split_and!; [done..|]. intros _. eapply life_same; [|by apply Hsame].
      apply Hlj. destruct Hh; congruence.
Qed.

Lemma inv_open k s c : inv None s c → inv (Some k) s c.
Proof.
  intros [? ? ? ? ? ? ? ? Ht]. split; try done. intros j tk Hj. destruct (Ht j tk Hj) as (f & ? & ? & Hl). exists f.
  split_and!; [done..|]. intros _. by apply Hl.
Qed.

Lemma inv_close k s c :
  inv (Some k) s c → (∀ tk f, all_tasks s !! k = Some tk → facts c !! k = Some f → life_ok s k f (life tk)) → inv None s c.
Proof.
  intros [? ? ? ? ? ? ? ? Ht] Hk. split; try done. intros j tk Hj. destruct (Ht j tk Hj) as (f & ? & ? & Hl). exists f.
  split_and!; [done..|]. intros _. destruct (decide (k = j)) as [<-|Hne]; [by apply Hk|]. apply Hl. congruence.
Qed.

Lemma facts_same k f c : facts c !! k = Some f → facts c = <[k := f]> (facts c).
Proof. intros H. symmetry. by apply insert_id. Qed.

(** The task in transition is changed. *)
Lemma set_task_inv k tk f s c :
  inv (Some k) s c → (k < next_id s)%Z → facts c !! k = Some f → told f tk → inv (Some k) (set_task k tk s) c.
Proof.
  intros Hinv Hk Hf Ht. destruct (Hinv) as [Hok Hnd Hp Ho He _ _ _ _].
  apply (ct_change_inv k tk f (Some k) s c); try done; [by right|by apply facts_same].
Qed.

Lemma told_life f tk l : told f tk → told f (MkCtTask l (priority tk) (timer tk)).
Proof. by intros []. Qed.

Lemma told_enqueue f tk now p :
  told f tk → told (enqueue_fact now p f) (MkCtTask (life tk) (priority tk) (set_enqueue_time now (timer tk))).
Proof. intros [Hm Hp Hf Hl _]. split; cbn; try done. by rewrite Hf. Qed.

(** The view that is made of a task is exact. *)
Lemma view_exact now k tk f :
  told f tk → is_Some (f_first f) → is_Some (f_last f) → view_ok k f (task_view now k tk) = true.
Proof.
  intros [Hm Hp Hf Hl _] [t1 H1] [t2 H2]. apply bool_decide_eq_true. cbn. rewrite <-Hf, <-Hl, H1, H2. by split_and!.
Qed.

(** A task in transition that may be scheduled. *)
Record ready_to_go (k : Z) (tk : CtTask) (f : Facts) (s : CtState) (c : Contract) : Prop := {
  go_named : (k < next_id s)%Z;
  go_away : k ∉ waiting s;
  go_known : facts c !! k = Some f;
  go_nowhere : f_place f = Nowhere;
  go_unfinished : f_done f = false;
  go_told : told f tk;
}.

Lemma accept_enqueued now k remote f c :
  c_owed c = None → facts c !! k = Some f → f_place f = Nowhere → f_done f = false →
  accept (Enqueued now k remote) c =
    Some (if remote then learn k (enqueue_fact now InInjection f) (c_polling c) None c
          else learn k (enqueue_fact now Nowhere f) (c_polling c) (Some (OwesPush k)) c).
Proof.
  intros Ho Hf Hp Hd. cbn [accept]. rewrite Ho, Hf. cbn [mbind option_bind]. rewrite Hd, bool_decide_eq_true_2 by done. done.
Qed.

(** [push_task] tells the truth about the task in transition. *)
Lemma ct_push_task_inv now k tk f s c :
  inv (Some k) s c → ready_to_go k tk f s c →
  let s' := push_task now k tk s in
  ∃ notes c' f', history s' = history s ++ notes ∧ accepts notes c = Some c' ∧ inv (Some k) s' c' ∧
    k ∈ queued (tasks s') ∧ facts c' !! k = Some f' ∧ f_place f' = InRunQueue ∧ f_done f' = false ∧
    all_tasks s' !! k = Some (MkCtTask (life tk) (priority tk) (set_enqueue_time now (timer tk))) ∧
    polling s' = polling s.
Proof.
  intros Hinv [Hk Hn Hf Hpl Hd Ht] s'. destruct (Hinv) as [Hok Hnd Hp Ho He _ _ _ _].
  set (tk' := MkCtTask (life tk) (priority tk) (set_enqueue_time now (timer tk))). set (v := task_view now k tk').
  set (f1 := enqueue_fact now Nowhere f). set (f2 := with_place InRunQueue f1).
  assert (Ht1 : told f1 tk') by by apply told_enqueue.
  assert (Ht2 : told f2 tk') by by destruct Ht1.
  destruct (push_law (tasks s) k v Hok) as [Hok' Hperm].
  assert (Hw : waiting s' ≡ₚ k :: waiting s).
  { unfold waiting. change (queued (tasks s')) with (queued (push (tasks s) k v)). by rewrite Hperm. }
  set (c1 := learn k f1 (c_polling c) (Some (OwesPush k)) c).
  exists [Enqueued now k false; Called (Push k v)], (learn k f2 (c_polling c) None c1), f2. split_and!; try done.
  - cbn. by rewrite <-app_assoc.
  - cbn [accepts]. rewrite (accept_enqueued now k false f) by done. cbn [mbind option_bind]. fold f1 c1.
    cbn [accept c_owed c1 learn facts]. rewrite lookup_insert_eq. cbn [mbind option_bind].
    rewrite bool_decide_eq_true_2 by done. assert (Hv : view_ok k f1 v = true) by by apply view_exact.
    cbn [andb]. by rewrite Hv.
  - apply (ct_change_inv k tk' f2 (Some k) s c); try done; [by right|cbn; by rewrite insert_insert_eq| |].
    + rewrite Hw. by constructor.
    + intros j Hj. split; [|by split]. change (queued (tasks s')) with (queued (push (tasks s) k v)).
      rewrite Hperm, elem_of_cons. naive_solver.
  - change (queued (tasks s')) with (queued (push (tasks s) k v)). rewrite Hperm. by left.
  - cbn. by rewrite lookup_insert_eq.
  - cbn. by rewrite lookup_insert_eq.
Qed.

(** The task in transition goes to the injection queue. *)
Lemma inject_inv now k tk f s c :
  inv (Some k) s c → ready_to_go k tk f s c →
  let s' := schedule false now k tk s in let f' := enqueue_fact now InInjection f in
  ∃ c', accept (Enqueued now k true) c = Some c' ∧ inv (Some k) s' c' ∧ facts c' !! k = Some f' ∧
    k ∈ inject s' ∧ k ∉ queued (tasks s').
Proof.
  intros Hinv [Hk Hn Hf Hpl Hd Ht] s' f'. destruct (Hinv) as [Hok Hnd Hp Ho He _ _ _ _].
  exists (learn k f' (c_polling c) None c). split_and!.
  - by rewrite (accept_enqueued now k true f).
  - apply (ct_change_inv k (MkCtTask (life tk) (priority tk) (set_enqueue_time now (timer tk))) f' (Some k) s c); try done;
      [by right|by apply told_enqueue| |].
    + unfold waiting. cbn. rewrite app_assoc. apply NoDup_app. split_and!; [done| |apply NoDup_singleton].
      by intros j Hj ->%list_elem_of_singleton.
    + intros j Hj. split_and!; [done| |done]. cbn. rewrite elem_of_app, list_elem_of_singleton. naive_solver.
  - cbn. by rewrite lookup_insert_eq.
  - cbn. apply elem_of_app. right. by left.
  - cbn. intros Hin. apply Hn, elem_of_app. by left.
Qed.

(** [schedule], from whichever thread, of a task that is not being polled. *)
Lemma schedule_inv local now k tk f s c :
  inv (Some k) s c → ready_to_go k tk f s c → is_waiting (life tk) = true → task_id <$> polling s ≠ Some k →
  ∃ notes c', history (schedule local now k tk s) = history s ++ notes ∧ accepts notes c = Some c' ∧
    inv None (schedule local now k tk s) c'.
Proof.
  intros Hinv Hgo Hw Hp. assert (Hlife : running (life tk) = false ∧ complete (life tk) = false).
  { unfold is_waiting in Hw. by destruct (running _), (complete _), (notified _). }
  destruct Hlife as [Hr Hc]. destruct local.
  - destruct (ct_push_task_inv now k tk f s c Hinv Hgo) as (notes & c' & f' & Hh & Hacc & Hinv' & Hin & Hf' & Hpl & Hd & Hk & Hpol).
    exists notes, c'. split_and!; [done..|]. apply (inv_close k); [done|]. cbn [schedule]. rewrite Hk, Hf'. intros tk' f2 [= <-] [= <-].
    split; cbn [life]; [|rewrite Hpol, Hr; by split|congruence| |congruence].
    + split; [done|]. intros _. apply elem_of_app. by left.
    + unfold place_of. by rewrite decide_True.
  - destruct (inject_inv now k tk f s c Hinv Hgo) as (c' & Hacc & Hinv' & Hf' & Hin & Hq).
    exists [Enqueued now k true], c'. rewrite accepts_one. split_and!; [done..|]. apply (inv_close k); [done|].
    rewrite Hf'. cbn [all_tasks schedule log set_task]. rewrite lookup_insert_eq. intros tk' f2 [= <-] [= <-].
    split; cbn [life]; [|cbn; rewrite Hr; by split|congruence| |].
    + split; [done|]. intros _. apply elem_of_app. by right.
    + unfold place_of. by rewrite decide_False, decide_True.
    + rewrite Hc. apply (go_unfinished _ _ _ _ _ Hgo).
Qed.

(** What a transition that may submit does to the life of a task. *)
Definition submits_ok (f : Life → bool * Life) : Prop :=
  ∀ l, (running l = true → complete l = false) →
    if (f l).1 then is_waiting l = false ∧ running l = false ∧ complete l = false ∧ is_waiting (f l).2 = true
    else is_waiting (f l).2 = is_waiting l ∧ running (f l).2 = running l ∧ complete (f l).2 = complete l.

Lemma notified_submits : submits_ok transition_to_notified.
Proof. intros [[] [] [] []] Hl; cbn; first [by split_and!|by specialize (Hl eq_refl)]. Qed.

Lemma cancel_submits : submits_ok transition_to_notified_and_cancel.
Proof. intros [[] [] [] []] Hl; cbn; first [by split_and!|by specialize (Hl eq_refl)]. Qed.

(** A task that is in no queue may be scheduled with another life. *)
Lemma may_go k tk f l s c :
  inv (Some k) s c → all_tasks s !! k = Some tk → facts c !! k = Some f → told f tk → k ∉ waiting s → f_place f = place_of s k →
  f_done f = false → ready_to_go k (MkCtTask l (priority tk) (timer tk)) f s c.
Proof.
  intros Hinv Hk Hf Ht Hn Hp Hd. split; [|done|done| |done|by apply told_life].
  - apply (inv_fresh _ _ _ Hinv). by eexists.
  - by rewrite Hp, place_away.
Qed.

(** A task in its place, with another life. *)
Lemma set_life_inv k tk l s c :
  inv None s c → all_tasks s !! k = Some tk →
  is_waiting l = is_waiting (life tk) → running l = running (life tk) → complete l = complete (life tk) →
  inv None (set_task k (MkCtTask l (priority tk) (timer tk)) s) c.
Proof.
  intros Hinv Hk Hw Hr Hc. destruct (inv_task _ _ _ Hinv k tk Hk) as (f & Hf & Ht & Hl). destruct (Hl ltac:(done)) as [H1 H2 H3 H4 H5].
  apply (inv_close k).
  - apply (set_task_inv k _ f); [by apply inv_open|apply (inv_fresh _ _ _ Hinv); by eexists|done|by apply told_life].
  - cbn. rewrite lookup_insert_eq, Hf. intros tk' f' [= <-] [= <-]. split; cbn [life]; rewrite ?Hw, ?Hr, ?Hc; done.
Qed.

Lemma notify_inv f local now k tk s c :
  submits_ok f → inv None s c → all_tasks s !! k = Some tk →
  ∃ notes c', history (notify_task f local now k tk s) = history s ++ notes ∧ accepts notes c = Some c' ∧
    inv None (notify_task f local now k tk s) c'.
Proof.
  intros Hf Hinv Hk. destruct (inv_task _ _ _ Hinv k tk Hk) as (fk & Hfk & Ht & Hl).
  destruct (Hl ltac:(done)) as [Hw Hr Hlive Hpl Hd].
  specialize (Hf (life tk) Hlive). unfold notify_task. destruct (f (life tk)) as [[] l]; cbn [fst snd] in Hf.
  - destruct Hf as (Hw0 & Hr0 & Hc0 & Hl'). assert (Hn : k ∉ waiting s) by (rewrite Hw, Hw0; done).
    apply (schedule_inv local now k _ fk); [by apply inv_open| |done|rewrite <-Hr; congruence].
    apply may_go; [by apply inv_open|done..|congruence].
  - destruct Hf as (Hw0 & Hr0 & Hc0). exists [], c. split; [by rewrite app_nil_r|]. split; [done|]. by apply set_life_inv.
Qed.

Lemma spawn_inv local now m s c :
  inv None s c →
  ∃ notes c', history (spawn local now m s) = history s ++ notes ∧ accepts notes c = Some c' ∧ inv None (spawn local now m s) c'.
Proof.
  intros Hinv. destruct (Hinv) as [Hok Hnd Hp Ho He Hfr Hpd Hu _]. set (k := next_id s).
  assert (Hnone : all_tasks s !! k = None) by (apply eq_None_not_Some; intros Hk%Hfr; unfold k in Hk; lia).
  destruct (Hu k Hnone) as [Hfact Hn]. unfold spawn. set (m' := default _ m). set (tk := MkCtTask life_new m' timer_new). fold k.
  set (s1 := log (Spawned k m') _). set (c1 := learn k (facts_new m') (c_polling c) None c).
  assert (Hacc : accept (Spawned k m') c = Some c1) by (cbn [accept]; by rewrite Ho, Hfact).
  assert (Hinv1 : inv (Some k) s1 c1).
  { apply (ct_change_inv k tk (facts_new m') None s c); try done; [by left|cbn; lia|cbn; lia]. }
  assert (Hgo : ready_to_go k tk (facts_new m') s1 c1).
  { split; try done; [cbn; lia|cbn; by rewrite lookup_insert_eq]. }
  destruct (schedule_inv local now k tk _ s1 c1 Hinv1 Hgo) as (notes & c' & Hh & Hacc' & Hinv'); [done| |].
  - intros H. change (polling s1) with (polling s) in H. destruct (polling s) as [v|] eqn:Hv; [|done]. cbn in H. injection H as H.
    destruct (Hpd v eq_refl) as [tk2 Htk]. rewrite H in Htk. congruence.
  - exists (Spawned k m' :: notes), c'. split_and!; [|by rewrite accepts_cons, Hacc|done]. rewrite Hh. cbn. by rewrite <-app_assoc.
Qed.

Lemma reprioritize_inv m v s c :
  inv None s c → polling s = Some v →
  ∃ notes c', history (reprioritize m s) = history s ++ notes ∧ accepts notes c = Some c' ∧ inv None (reprioritize m s) c'.
Proof.
  intros Hinv Hv. destruct (inv_polled _ _ _ Hinv v Hv) as [tk Hk]. unfold reprioritize. rewrite Hv. cbn [mbind option_bind].
  rewrite Hk. cbn [mbind option_bind]. destruct (Hinv) as [Hok Hnd Hp Ho He Hfr _ _ Ht].
  destruct (Ht _ tk Hk) as (f & Hf & [Htm Htp Htf Htl Hte] & Hl). specialize (Hl ltac:(done)).
  set (k := task_id v) in *. exists [Reprioritized k m], (learn k (with_meta m f) (c_polling c) None c).
  split; [done|]. split.
  - rewrite accepts_one. cbn [accept]. rewrite Ho, Hf. cbn [mbind option_bind]. by rewrite decide_True by by rewrite Hp, Hv.
  - apply (inv_close k).
    + apply (ct_change_inv k (MkCtTask (life tk) m (timer tk)) (with_meta m f) None s c); try done; [by left|apply Hfr; by eexists].
    + cbn. rewrite !lookup_insert_eq. intros tk' f' [= <-] [= <-]. destruct Hl. by split.
Qed.

(** ** A round of the loop *)

(** A task that was taken from a queue. *)
Record taken (k : Z) (tk : CtTask) (s : CtState) (c : Contract) : Prop := {
  taken_task : all_tasks s !! k = Some tk;
  taken_waiting : is_waiting (life tk) = true;
  taken_away : k ∉ waiting s;
  taken_known : ∃ f, facts c !! k = Some f ∧ told f tk ∧ f_place f ≠ Nowhere ∧ f_done f = false;
}.

(** One task leaves the queues. *)
Lemma take_inv k tk s s' c :
  inv None s c → all_tasks s !! k = Some tk → waiting s ≡ₚ k :: waiting s' → queue_ok (tasks s') →
  (queued (tasks s) ≡ₚ k :: queued (tasks s') ∧ inject s = inject s') ∨
  (queued (tasks s) = queued (tasks s') ∧ inject s = k :: inject s') →
  all_tasks s' = all_tasks s → polling s' = polling s → exited s' = exited s → next_id s' = next_id s →
  inv (Some k) s' c ∧ taken k tk s' c.
Proof.
  intros Hinv Hk Hw Hok Hq Hat Hpol Hex Hid. destruct (Hinv) as [_ Hnd Hp Ho He Hfr _ _ Ht].
  destruct (Ht k tk Hk) as (f & Hf & Htold & Hl). destruct (Hl ltac:(done)) as [H1 H2 H3 H4 H5].
  rewrite Hw in Hnd. apply NoDup_cons in Hnd as [Hn Hnd].
  assert (Hin : k ∈ waiting s) by (rewrite Hw; by left). assert (Hwait := proj1 H1 Hin). split.
  - apply (ct_change_inv k tk f None s c); rewrite ?Hat, ?Hpol, ?Hex, ?Hid; try done.
    + by left.
    + by rewrite insert_id.
    + by apply facts_same.
    + apply Hfr. by eexists.
    + intros j Hj. unfold same_for. rewrite Hpol. destruct Hq as [[-> ->]|[-> ->]]; rewrite elem_of_cons; naive_solver.
  - split; rewrite ?Hat; try done. exists f. split_and!; [done..| |].
    + rewrite H4. by apply place_waiting.
    + rewrite H5. unfold is_waiting in Hwait. by destruct (complete _), (notified _), (running _).
Qed.

Lemma next_local_inv now s c :
  inv None s c → polling s = None →
  ∃ r s', next_local_task now s = Ret (r, s') ∧ history s' = history s ++ [Called Pop] ∧ accept (Called Pop) c = Some c ∧
    polling s' = None ∧ inject s' = inject s ∧ tick s' = tick s ∧
    match r with
    | Some k => ∃ tk, inv (Some k) s' c ∧ taken k tk s' c
    | None => inv None s' c ∧ queued (tasks s') = []
    end.
Proof.
  intros Hinv Hp. destruct (Hinv) as [Hok Hnd Hpc Ho He Hfr Hpd Hu Ht].
  assert (Hacc : accept (Called Pop) c = Some c) by (cbn; by rewrite Ho, decide_True by congruence).
  destruct (pop_law (tasks s) Hok) as [Hok' Hpop]. unfold next_local_task. cbn [sched_step].
  destruct (pop (tasks s)) as [[k|] q] eqn:Hq; cbn [fst snd option_list head] in *.
  - change (head (option_list (Some k))) with (Some k). cbn [head].
    assert (Hin : k ∈ waiting s) by (unfold waiting; rewrite Hpop; by left).
    destruct (all_tasks s !! k) as [tk|] eqn:Hk; [|destruct (Hu k Hk); done].
    change (all_tasks (tell Pop s) !! k) with (all_tasks s !! k). rewrite Hk. cbn [expect_some mbind outcome_bind].
    assert (Hs : tell Pop s = MkCt q (tick s) (exited s) (inject s) (all_tasks s) (next_id s) (polling s) (history s ++ [Called Pop])).
    { unfold tell. cbn [sched_step]. by rewrite Hq. }
    assert (Htake : inv (Some k) (tell Pop s) c ∧ taken k tk (tell Pop s) c).
    { apply (take_inv k tk s); rewrite ?Hs; try done; [unfold waiting; cbn [tasks inject]; by rewrite Hpop|left; by split]. }
    destruct Htake as [Hinv' [? ? ? (f & Hf & Htold & Hpl & Hd)]].
    destruct (told_enqueued _ _ Htold Hpl) as [_ [tl Hlast]]. rewrite (told_last _ _ Htold) in Hlast.
    unfold record_queue_lat. rewrite Hlast. cbn [expect_some mbind outcome_bind]. set (tk' := MkCtTask _ _ _).
    assert (Htold' : told f tk') by (destruct Htold; split; cbn; by try congruence).
    eexists _, _. split; [done|]. split_and!; try done. exists tk'. split.
    + apply (set_task_inv k tk' f); [done|apply Hfr; by eexists|done..].
    + split; [cbn; by rewrite lookup_insert_eq|done..|by exists f].
  - exists None, (tell Pop s).
    assert (Hs : tell Pop s = MkCt q (tick s) (exited s) (inject s) (all_tasks s) (next_id s) (polling s) (history s ++ [Called Pop])).
    { unfold tell. cbn [sched_step]. by rewrite Hq. }
    rewrite !Hs. destruct Hpop as [Hn Hn']. split_and!; try done. set (s' := MkCt _ _ _ _ _ _ _ _).
    assert (Hw : waiting s' = waiting s) by (unfold waiting; cbn; by rewrite Hn, Hn').
    split; rewrite ?Hw; try done. intros j tk Hj. destruct (Ht j tk Hj) as (f & Hf & Htold & Hl). exists f.
    split_and!; [done..|]. intros _. eapply life_same; [by apply Hl|]. split_and!; [|done..]. cbn. by rewrite Hn, Hn'.
Qed.

Lemma next_remote_inv s c :
  inv None s c →
  match next_remote_task s with
  | (Some k, s') => ∃ tk, inv (Some k) s' c ∧ taken k tk s' c
  | (None, s') => s' = s
  end.
Proof.
  intros Hinv. unfold next_remote_task. destruct (inject s) as [|k l] eqn:Hi; cbn [head tail].
  - rewrite <-Hi. by destruct s.
  - assert (Hin : k ∈ waiting s) by (unfold waiting; rewrite Hi; apply elem_of_app; right; by left).
    destruct (all_tasks s !! k) as [tk|] eqn:Hk; [|by destruct (inv_unknown _ _ _ Hinv k Hk)]. exists tk.
    apply (take_inv k tk s); try done; [|apply (inv_ok _ _ _ Hinv)|by right].
    unfold waiting. rewrite Hi. cbn [tasks inject]. symmetry. apply Permutation_middle.
Qed.

Lemma next_task_inv interval now s c :
  inv None s c → polling s = None →
  ∃ r s' notes, next_task interval now s = Ret (r, s') ∧ history s' = history s ++ notes ∧ accepts notes c = Some c ∧
    polling s' = None ∧
    match r with
    | Some k => ∃ tk, inv (Some k) s' c ∧ taken k tk s' c
    | None => inv None s' c ∧ queued (tasks s') = []
    end.
Proof.
  intros Hinv Hp. unfold next_task.
  destruct (next_local_inv now s c Hinv Hp) as (r & s1 & Hl & Hh & Hacc & Hp1 & _ & _ & Hr).
  assert (Hops : accepts [Called Pop] c = Some c) by by rewrite accepts_one.
  destruct (decide _).
  - assert (Hrem := next_remote_inv s c Hinv). destruct (next_remote_task s) as [[k|] s2] eqn:Hn.
    + assert (Hs2 : history s2 = history s ∧ polling s2 = None) by (by unfold next_remote_task in Hn; injection Hn as _ <-).
      destruct Hs2 as [Hc2 Hp2]. exists (Some k), s2, []. rewrite app_nil_r. by split_and!.
    + rewrite Hrem. exists r, s1, [Called Pop]. by split_and!.
  - rewrite Hl. cbn [mbind outcome_bind]. destruct r as [k|]; [exists (Some k), s1, [Called Pop]; by split_and!|].
    assert (Hrem := next_remote_inv s1 c (proj1 Hr)). destruct (next_remote_task s1) as [r2 s2] eqn:Hn.
    assert (Hs2 : history s2 = history s1 ∧ polling s2 = None) by (by unfold next_remote_task in Hn; injection Hn as _ <-).
    destruct Hs2 as [Hc2 Hp2]. exists r2, s2, [Called Pop]. split; [done|]. rewrite Hc2. split_and!; try done.
    destruct r2 as [k|]; [done|]. by rewrite Hrem.
Qed.

(** The poll of a task that was taken begins. *)
Lemma start_inv now k tk s c :
  inv (Some k) s c → taken k tk s c → polling s = None →
  let tk' := MkCtTask (life tk) (priority tk) (begin_poll (timer tk)) in
  let v := task_view now k tk' in
  let s' := tell (PollStart v) (set_polling (Some v) (set_task k tk' s)) in
  ∃ c' f', accept (Called (PollStart v)) c = Some c' ∧ inv (Some k) s' c' ∧ k ∉ waiting s' ∧
    facts c' !! k = Some f' ∧ told f' tk' ∧ f_place f' = Nowhere ∧ f_done f' = false.
Proof.
  intros Hinv [Hk Hw Hn (f & Hf & Htold & Hpl & Hd)] Hp tk' v s'. destruct (Hinv) as [Hok Hnd Hpc Ho He Hfr _ _ _].
  destruct (told_enqueued _ _ Htold Hpl) as [Hfirst Hlast].
  assert (Ht' : told (start_fact f) tk').
  { destruct Htold as [Hm Hps Hf1 Hl1 _]. split; cbn; try done. by rewrite Hps. }
  destruct (on_poll_start_law (tasks s) v Hok) as [Hok' Hq'].
  assert (Hws : waiting s' = waiting s) by (unfold waiting; cbn; by rewrite Hq').
  exists (learn k (start_fact f) (Some v) None c), (start_fact f). split_and!; rewrite ?Hws; try done.
  - cbn [accept]. change (task_id v) with k. rewrite Ho, Hf. cbn [mbind option_bind]. rewrite Hpc, Hp, !bool_decide_eq_true_2 by done.
    assert (Hv : view_ok k (start_fact f) v = true) by by apply view_exact. cbn [andb]. by rewrite Hv.
  - apply (ct_change_inv k tk' (start_fact f) (Some k) s c); rewrite ?Hws; try done; [by right|apply Hfr; by eexists|].
    intros j Hj. split_and!; [cbn; by rewrite Hq'|done|]. cbn. rewrite Hp. cbn. split; [|done]. intros [= Hjk]. by destruct Hj.
  - cbn. by rewrite lookup_insert_eq.
Qed.

(** The poll ends, of a task that is done or that waits where its life says. *)
Lemma end_inv (done : bool) v tk f s c :
  let k := task_id v in
  let s' := end_poll v (set_exited (if done then [k] else []) s) in
  inv (Some k) s c → polling s = Some v → all_tasks s !! k = Some tk → facts c !! k = Some f → told f tk →
  complete (life tk) = done → running (life tk) = false → (k ∈ waiting s ↔ is_waiting (life tk) = true) →
  f_place f = place_of s k → (done = true → f_place f = Nowhere) →
  ∃ notes c', history s' = history s ++ notes ∧ accepts notes c = Some c' ∧ inv None s' c'.
Proof.
  intros k s' Hinv Hp Hk Hf Ht Hdone Hr Hwait Hpl Hno. destruct (Hinv) as [Hok Hnd Hpc Ho He Hfr _ _ _].
  remember (if done then Ready else Pending) as o eqn:Hout.
  destruct (on_poll_end_law (tasks s) v o Hok) as [Hok1 Hq1]. destruct (on_task_exit_law _ k Hok1) as [Hok2 Hq2].
  set (c' := learn k (with_done done f) None None c).
  set (notes := Called (PollEnd v o) :: if done then [Called (TaskExit k)] else []). exists notes, c'.
  assert (Hs' : s' = MkCt (if done then on_task_exit (on_poll_end (tasks s) v o) k else on_poll_end (tasks s) v o)
    (tick s) [] (inject s) (all_tasks s) (next_id s) None (history s ++ notes)).
  { unfold notes. rewrite Hout. unfold s', end_poll, flush_exits. destruct done; cbn.
    - rewrite decide_True by (by left). unfold set_exited. cbn. by rewrite <-app_assoc.
    - rewrite decide_False by apply not_elem_of_nil. done. }
  assert (Hqs : queued (tasks s') = queued (tasks s)) by (rewrite Hs'; cbn; destruct done; congruence).
  assert (Hws : waiting s' = waiting s) by (unfold waiting; rewrite Hqs, Hs'; reflexivity).
  split_and!; [by rewrite Hs'| |].
  - unfold notes. cbn [accepts accept]. change (task_id v) with k. rewrite Ho, Hf. cbn [mbind option_bind].
    rewrite bool_decide_eq_true_2, Hout by congruence. destruct done; cbn; [|reflexivity].
    rewrite bool_decide_eq_true_2 by by apply Hno. cbn. by rewrite decide_True.
  - apply (inv_close k).
    + apply (ct_change_inv k tk (with_done done f) (Some k) s c); rewrite ?Hws; try (rewrite Hs'; reflexivity); try assumption.
      * by right.
      * rewrite Hs'. cbn. by rewrite insert_id.
      * reflexivity.
      * by destruct Ht.
      * rewrite Hs'. apply Hfr. by eexists.
      * rewrite Hs'. cbn. by destruct done.
      * intros j Hj. split_and!; [by rewrite Hqs|by rewrite Hs'|]. rewrite Hs', Hp. cbn. split; [discriminate|]. intros [= Hjk]. by destruct Hj.
      * reflexivity.
    + assert (Hat : all_tasks s' !! k = Some tk) by by rewrite Hs'. rewrite Hat. cbn [facts c' learn]. rewrite lookup_insert_eq.
      intros tk' f' [= <-] [= <-].
      split; rewrite ?Hws; try assumption.
      * rewrite Hr, Hs'. by split.
      * by rewrite Hr.
      * cbn. rewrite Hpl. unfold place_of. rewrite Hqs, Hs'. reflexivity.
      * cbn. by rewrite Hdone.
Qed.

(** The task completes in its poll, and the poll ends. *)
Lemma complete_inv v tk f s c :
  let k := task_id v in
  inv (Some k) s c → polling s = Some v → all_tasks s !! k = Some tk → facts c !! k = Some f → told f tk →
  running (life tk) = true → complete (life tk) = false → k ∉ waiting s → f_place f = Nowhere →
  ∃ s' notes c', (s' ← complete_task k tk s; Ret (end_poll v s')) = Ret s' ∧ history s' = history s ++ notes ∧
    accepts notes c = Some c' ∧ inv None s' c'.
Proof.
  intros k Hinv Hp Hk Hf Ht Hr Hc Hn Hpl. unfold complete_task, transition_to_complete. rewrite Hr, Hc. cbn [negb andb].
  cbn [mbind outcome_bind]. set (tk' := MkCtTask _ _ _). assert (Ht' : told f tk') by by apply told_life.
  assert (Hinv1 : inv (Some k) (set_task k tk' s) c).
  { apply (set_task_inv k tk' f); [done|apply (inv_fresh _ _ _ Hinv); by eexists|done..]. }
  change (exited (set_task k tk' s)) with (exited s). rewrite (inv_exited _ _ _ Hinv). cbn [app].
  destruct (end_inv true v tk' f (set_task k tk' s) c Hinv1 Hp) as (notes & c' & Hh & Hacc & Hinv'); try done.
  - cbn. by rewrite lookup_insert_eq.
  - split; [by intros ?%Hn|]. unfold is_waiting. cbn. by rewrite andb_false_r.
  - change (task_id v) with k. by rewrite Hpl, place_away.
  - by eexists _, notes, c'.
Qed.

Lemma tick_inv t s c :
  inv None s c →
  inv None (MkCt (tasks s) t (exited s) (inject s) (all_tasks s) (next_id s) (polling s) (history s)) c.
Proof.
  intros [? ? ? ? ? ? ? ? Ht]. split; try done. intros k tk Hk. destruct (Ht k tk Hk) as (f & ? & ? & Hl). exists f.
  split_and!; [done..|]. intros _. eapply life_same; [by apply Hl|by split_and!].
Qed.

Lemma idle_inv s c :
  inv None s c → polling s = None → queued (tasks s) = [] → accept (Called Idle) c = Some c ∧ inv None (tell Idle s) c.
Proof.
  intros Hinv Hp Hnil. destruct (Hinv) as [Hok Hnd Hpc Ho He Hf Hpd Hu Ht].
  destruct (on_idle_law (tasks s) Hok) as [Hok' Hq]. split.
  - cbn [accept]. rewrite Ho, decide_True; [done|]. split; [congruence|]. intros k f Hk.
    destruct (all_tasks s !! k) as [tk|] eqn:Htk; [|destruct (Hu k Htk); congruence].
    destruct (Ht k tk Htk) as (f' & Hf' & _ & Hl). destruct (Hl ltac:(done)) as [_ _ _ Hpl _].
    rewrite Hk in Hf'. injection Hf' as <-. rewrite Hpl. unfold place_of. rewrite Hnil, decide_False by apply not_elem_of_nil.
    by destruct (decide _).
  - assert (Hw : waiting (tell Idle s) = waiting s) by (unfold waiting; cbn; by rewrite Hq).
    split; rewrite ?Hw; try done. intros k tk Hk. destruct (Ht k tk Hk) as (f & ? & ? & Hl). exists f.
    split_and!; [done..|]. intros _. eapply life_same; [by apply Hl|]. split_and!; [|done..]. cbn. by rewrite Hq.
Qed.

Lemma run_one_inv interval now s c :
  inv None s c → polling s = None →
  ∃ s' notes c', run_one interval now s = Ret s' ∧ history s' = history s ++ notes ∧ accepts notes c = Some c' ∧ inv None s' c'.
Proof.
  intros Hinv Hp. unfold run_one. set (s0 := MkCt _ _ _ _ _ _ _ _). assert (Hinv0 : inv None s0 c) by (by apply tick_inv).
  destruct (next_task_inv interval now s0 c Hinv0 Hp) as (r & s1 & notes & Hn & Hh & Hacc & Hp1 & Hr).
  rewrite Hn. cbn [mbind outcome_bind]. destruct r as [k|].
  2: { destruct Hr as [Hr Hnil]. destruct (idle_inv s1 c Hr Hp1 Hnil) as [Hidle Hinv'].
       exists (tell Idle s1), (notes ++ [Called Idle]), c. split_and!; try done.
       - cbn. by rewrite Hh, <-app_assoc.
       - by rewrite accepts_app, Hacc; cbn [mbind option_bind]; rewrite accepts_one. }
  destruct Hr as (tk & Hinv1 & Htaken). destruct (Htaken) as [Hk Hw _ _]. rewrite Hk. cbn [expect_some mbind outcome_bind].
  destruct (start_inv now k tk s1 c Hinv1 Htaken Hp1) as (c2 & f2 & Hacc2 & Hinv2 & Hn2 & Hf2 & Ht2 & Hpl2 & Hd2).
  set (tk2 := MkCtTask _ _ _) in *. set (v := task_view now k tk2) in *. set (s2 := tell _ _) in *.
  assert (Hh2 : history s2 = history s ++ notes ++ [Called (PollStart v)]) by (cbn; by rewrite Hh, <-app_assoc).
  assert (Hacc12 : accepts (notes ++ [Called (PollStart v)]) c = Some c2).
  { rewrite accepts_app, Hacc. cbn [mbind option_bind]. by rewrite accepts_one. }
  assert (Hlife : notified (life tk2) = true ∧ running (life tk2) = false ∧ complete (life tk2) = false).
  { cbn. unfold is_waiting in Hw. by destruct (running _), (complete _), (notified _). }
  destruct Hlife as (Hln & Hlr & Hlc). unfold transition_to_running, is_idle. rewrite Hln, Hlr, Hlc. cbn [negb andb mbind outcome_bind].
  set (l := MkLife true false false (cancelled (life tk2))). set (tk3 := MkCtTask l (priority tk2) (timer tk2)).
  assert (Ht3 : told f2 tk3) by by apply told_life.
  assert (Hinv3 : inv (Some k) (set_task k tk3 s2) c2).
  { apply (set_task_inv k tk3 f2); [done| |done..]. apply (inv_fresh _ _ _ Hinv2). cbn. by rewrite lookup_insert_eq. }
  destruct (cancelled (life tk2)) eqn:Hcan.
  - destruct (complete_inv v tk3 f2 (set_task k tk3 s2) c2) as (s' & notes' & c' & Hs' & Hh' & Hacc' & Hinv'); try done;
      [cbn; by rewrite lookup_insert_eq|].
    exists s', ((notes ++ [Called (PollStart v)]) ++ notes'), c'. split_and!; try done.
    + rewrite Hh'. change (history (set_task _ _ s2)) with (history s2). by rewrite Hh2, <-!app_assoc.
    + by rewrite accepts_app, Hacc12.
  - eexists _, (notes ++ [Called (PollStart v)]), c2. split_and!; try done. apply (inv_close k); [done|].
    cbn [all_tasks set_task]. rewrite lookup_insert_eq, Hf2. intros tk' f' [= <-] [= <-]. split; cbn [life tk3 l]; try done.
    rewrite Hpl2. symmetry. by apply (place_away s2).
Qed.

Lemma exited_nil s : exited s = [] → set_exited [] s = s.
Proof. destruct s. cbn. by intros ->. Qed.

Lemma finish_poll_inv ready now v s c :
  inv None s c → polling s = Some v →
  ∃ s' notes c', finish_poll ready now v s = Ret s' ∧ history s' = history s ++ notes ∧ accepts notes c = Some c' ∧ inv None s' c'.
Proof.
  intros Hinv Hp. unfold finish_poll. set (k := task_id v). destruct (inv_polled _ _ _ Hinv v Hp) as [tk Hk].
  change (task_id v) with k in Hk. rewrite Hk. cbn [expect_some mbind outcome_bind].
  destruct (inv_task _ _ _ Hinv k tk Hk) as (f & Hf & Ht & Hlife). destruct (Hlife ltac:(done)) as [Hwait Hrun Hlive Hpl Hd].
  assert (Hr : running (life tk) = true) by (apply Hrun; by rewrite Hp).
  assert (Hc := Hlive Hr). assert (Hw : is_waiting (life tk) = false) by (unfold is_waiting; by rewrite Hr, andb_false_r).
  assert (Hn : k ∉ waiting s) by (rewrite Hwait, Hw; done).
  assert (Hno : f_place f = Nowhere) by by rewrite Hpl, place_away. assert (Hopen := inv_open k s c Hinv).
  assert (Hset : ∀ l, inv (Some k) (set_task k (MkCtTask l (priority tk) (timer tk)) s) c).
  { intros l. apply (set_task_inv k _ f); [done|apply (inv_fresh _ _ _ Hinv); by eexists|done|by apply told_life]. }
  assert (Hlook : ∀ l, all_tasks (set_task k (MkCtTask l (priority tk) (timer tk)) s) !! k = Some (MkCtTask l (priority tk) (timer tk))).
  { intros l. cbn. by rewrite lookup_insert_eq. }
  destruct ready; [by apply (complete_inv v tk f)|].
  unfold transition_to_idle. rewrite Hr. cbn [mbind outcome_bind].
  destruct (cancelled (life tk)) eqn:Hcan; cbn [mbind outcome_bind].
  { apply (complete_inv v (MkCtTask (life tk) (priority tk) (timer tk)) f _ c (Hset (life tk))); try done. by apply told_life. }
  set (l := MkLife false (complete (life tk)) (notified (life tk)) false). specialize (Hset l). specialize (Hlook l).
  set (s1 := set_task k _ s) in *. set (tk1 := MkCtTask l _ _) in *. assert (Ht1 : told f tk1) by by apply told_life.
  destruct (notified (life tk)) eqn:Hnot; cbn [mbind outcome_bind].
  - destruct (ct_push_task_inv now k tk1 f s1 c Hset) as (notes & c1 & f1 & Hh & Hacc & Hinv1 & Hin & Hf1 & Hpl1 & Hd1 & Hk1 & Hp1).
    { apply (may_go k tk1 f l s1 c); try done. congruence. }
    destruct (inv_task _ _ _ Hinv1 k _ Hk1) as (f1' & Hf1' & Ht1' & _). rewrite Hf1 in Hf1'. injection Hf1' as <-.
    destruct (end_inv false v (MkCtTask (life tk1) (priority tk1) (set_enqueue_time now (timer tk1))) f1 (push_task now k tk1 s1) c1 Hinv1) as (notes' & c' & Hh' & Hacc' & Hinv');
      [by rewrite Hp1|exact Hk1|exact Hf1|exact Ht1'|exact Hc|done| | |done|].
    + split; [intros _; unfold is_waiting; cbn; by rewrite Hc|intros _; apply elem_of_app; by left].
    + change (task_id v) with k. rewrite Hpl1. unfold place_of. by rewrite decide_True.
    + rewrite (exited_nil _ (inv_exited _ _ _ Hinv1)) in Hh', Hinv'.
      eexists _, (notes ++ notes'), c'. split_and!; [done| |by rewrite accepts_app, Hacc|done].
      rewrite Hh', Hh. by rewrite app_assoc.
  - destruct (end_inv false v tk1 f s1 c Hset Hp Hlook Hf Ht1) as (notes & c' & Hh & Hacc & Hinv'); try done.
    rewrite (exited_nil _ (inv_exited _ _ _ Hset)) in Hh, Hinv'. by eexists _, notes, c'.
Qed.

Lemma ct_step_inv interval now ev s c o :
  inv None s c → step interval now ev s = Some o →
  ∃ s' notes c', o = Ret s' ∧ history s' = history s ++ notes ∧ accepts notes c = Some c' ∧ inv None s' c'.
Proof.
  intros Hinv. assert (Hset : ∀ s', (∃ notes c', history s' = history s ++ notes ∧ accepts notes c = Some c' ∧ inv None s' c') →
    ∃ s2 notes c', Ret s' = Ret s2 ∧ history s2 = history s ++ notes ∧ accepts notes c = Some c' ∧ inv None s2 c').
  { intros s' (notes & c' & ? & ? & ?). by exists s', notes, c'. }
  destruct ev as [|ready|local k|local k|local m|m]; cbn [step].
  - destruct (polling s) as [v|] eqn:Hp; [done|]. intros [= <-]. by apply run_one_inv.
  - destruct (polling s) as [v|] eqn:Hp; [|done]. intros [= <-]. by apply finish_poll_inv.
  - destruct (all_tasks s !! k) as [tk|] eqn:Hk; [|done]. intros [= <-]. apply Hset.
    by apply notify_inv; [apply notified_submits| |].
  - destruct (all_tasks s !! k) as [tk|] eqn:Hk; [|done]. intros [= <-]. apply Hset.
    by apply notify_inv; [apply cancel_submits| |].
  - intros [= <-]. apply Hset. by apply spawn_inv.
  - destruct (polling s) as [v|] eqn:Hp; [|done]. intros [= <-]. apply Hset. by apply (reprioritize_inv m v).
Qed.

(** ** Runs *)

Inductive reachable (interval : Z) : CtState → Prop :=
| reach_new s : ct_new = Ret s → reachable interval s
| reach_step s now ev s' : reachable interval s → step interval now ev s = Some (Ret s') → reachable interval s'.

(** A run of the scheduler. *)
Fixpoint exec (interval : Z) (l : list (Z * event)) (s : CtState) : option (outcome CtState) :=
  match l with
  | [] => Some (Ret s)
  | (now, ev) :: l => match step interval now ev s with Some (Ret s) => exec interval l s | o => o end
  end.

Lemma ct_exec_reachable interval l s s' : reachable interval s → exec interval l s = Some (Ret s') → reachable interval s'.
Proof.
  revert s. induction l as [|[now ev] l IH]; intros s Hs; cbn [exec]; [by intros [= <-]|].
  destruct (step interval now ev s) as [[s1|]|] eqn:H; [|done..]. apply IH. by eapply reach_step.
Qed.

Lemma ct_new_inv s : ct_new = Ret s → inv None s contract_new ∧ history s = [].
Proof.
  unfold ct_new. destruct (with_capacity INITIAL_CAPACITY) as [q|] eqn:Hq; [|done]. cbn. intros [= <-].
  apply with_capacity_law in Hq as [Hok Hnil]. split; [|done].
  assert (Hw : waiting (MkCt q 0 [] [] ∅ 1 None []) = []) by (unfold waiting; cbn; by rewrite Hnil).
  split; rewrite ?Hw; cbn; try done; [constructor|by intros k [? ?%lookup_empty_Some]|].
  intros k _. split; [done|apply not_elem_of_nil].
Qed.

Lemma ct_reachable_inv interval s :
  reachable interval s → ∃ c, accepts (history s) contract_new = Some c ∧ inv None s c.
Proof.
  induction 1 as [s Hs|s now ev s' _ (c & Hacc & Hinv) Hs].
  - destruct (ct_new_inv s Hs) as [Hinv ->]. by exists contract_new.
  - destruct (ct_step_inv interval now ev s c _ Hinv Hs) as (s2 & notes & c' & [= ->] & Hh & Hacc' & Hinv').
    exists c'. split; [|done]. by rewrite Hh, accepts_app, Hacc.
Qed.

(** ** The first push of a task *)

(** Neither pushed nor injected. *)
Definition unseen (k : Z) (n : note) : Prop :=
  match n with Called (Push k' _) => k' ≠ k | Enqueued _ k' true => k' ≠ k | _ => True end.

Definition first_time (k : Z) (c : Contract) : Prop :=
  ∀ f, facts c !! k = Some f →
    f_polls f = 0%Z ∧ f_place f = Nowhere ∧ (f_first f = None ∨ f_first f = f_last f ∧ c_owed c = Some (OwesPush k)).

Lemma first_time_learn k k' f p o c :
  first_time k c → c_owed c = None →
  (k' = k → f_polls f = 0%Z ∧ f_place f = Nowhere ∧ (f_first f = None ∨ f_first f = f_last f ∧ o = Some (OwesPush k))) →
  first_time k (learn k' f p o c).
Proof.
  intros Hc Ho Hf f' Hk. cbn in Hk |- *. destruct (decide (k' = k)) as [->|Hne].
  - rewrite lookup_insert_eq in Hk. injection Hk as <-. by apply Hf.
  - rewrite lookup_insert_ne in Hk by done. destruct (Hc f' Hk) as (H1 & H2 & [H3|[_ H3]]); [|congruence]. split_and!; [done..|by left].
Qed.

Lemma first_time_accept k n c c' : first_time k c → unseen k n → accept n c = Some c' → first_time k c'.
Proof.
  intros Hc Hn Ha. assert (Hnone : c_owed c = None → ∀ f, facts c !! k = Some f →
    f_polls f = 0%Z ∧ f_place f = Nowhere ∧ f_first f = None).
  { intros Ho f Hf. destruct (Hc f Hf) as (H1 & H2 & [H3|[_ H3]]); [done|congruence]. }
  assert (Hlearn : ∀ k' f p o, c_owed c = None → (k' = k → f_polls f = 0%Z ∧ f_place f = Nowhere ∧
    (f_first f = None ∨ f_first f = f_last f ∧ o = Some (OwesPush k))) → first_time k (learn k' f p o c)).
  { intros. by apply first_time_learn. }
  destruct n as [k' m|k' m|t k' remote|op]; cbn [accept] in Ha; destruct (c_owed c) as [[k0|k0]|] eqn:Ho; try done.
  - destruct (facts c !! k') as [f|]; [done|]. injection Ha as <-. apply Hlearn; [done|]. intros _. split_and!; [done..|by left].
  - destruct (facts c !! k') as [f|] eqn:Hf; [|done]. cbn in Ha. destruct (decide _); [|done]. injection Ha as <-.
    apply Hlearn; [done|]. intros ->. destruct (Hnone eq_refl f Hf) as (? & ? & ?). split_and!; [done..|by left].
  - destruct (facts c !! k') as [f|] eqn:Hf; [|done]. cbn in Ha. destruct (_ && _); [|done]. injection Ha as <-.
    destruct remote; apply Hlearn; try done. intros ->. destruct (Hnone eq_refl f Hf) as (? & ? & Hfirst).
    split_and!; [done..|]. right. cbn. by rewrite Hfirst.
  - destruct op as [k' v| |v|v o|k'|]; try done. destruct (facts c !! k') as [f|] eqn:Hf; [|done]. cbn in Ha.
    destruct (bool_decide (k' = k0)) eqn:Hk0; [|done]. destruct (view_ok _ _ _); [|done]. injection Ha as <-.
    apply bool_decide_eq_true in Hk0 as ->. intros f' Hf'. cbn in Hn, Hf'. rewrite lookup_insert_ne in Hf' by done.
    destruct (Hc f' Hf') as (? & ? & [?|[_ [= ?]]]); [|congruence]. split_and!; [done..|by left].
  - destruct op as [k' v| |v|v o|k'|]; try done. destruct (decide _); [|done]. injection Ha as <-. intros f' Hf'.
    destruct (Hc f' Hf') as (? & ? & [?|[_ [= ?]]]); [|congruence]. split_and!; [done..|by left].
  - destruct op as [k' v| |v|v o|k'|]; try done.
    + destruct (decide _); [|done]. by injection Ha as <-.
    + destruct (facts c !! task_id v) as [f|] eqn:Hf; [|done]. cbn in Ha.
      destruct (bool_decide (f_place f ≠ Nowhere)) eqn:Hpl; [|by rewrite andb_false_r in Ha].
      destruct (_ && _); [|done]. injection Ha as <-. apply Hlearn; [done|]. intros Hk. rewrite Hk in Hf.
      destruct (Hnone eq_refl f Hf) as (_ & H & _). by apply bool_decide_eq_true in Hpl.
    + destruct (facts c !! task_id v) as [f|] eqn:Hf; [|done]. cbn in Ha. destruct (_ && _); [|done]. injection Ha as <-.
      apply Hlearn; [done|]. intros Hk. rewrite Hk in Hf. destruct (Hnone eq_refl f Hf) as (? & ? & ?). split_and!; [done..|by left].
    + destruct (decide _); [|done]. by injection Ha as <-.
Qed.

Lemma first_push k v h h' c :
  accepts (h ++ Called (Push k v) :: h') contract_new = Some c → Forall (unseen k) h →
  polls v = 0%Z ∧ first_enqueued_at v = enqueued_at v.
Proof.
  intros Ha Hh. assert (Hgo : ∀ c0, first_time k c0 → accepts (h ++ Called (Push k v) :: h') c0 = Some c →
    polls v = 0%Z ∧ first_enqueued_at v = enqueued_at v); [|apply (Hgo contract_new); [by intros f ?|done]].
  clear Ha. induction h as [|n h IH]; intros c0 Hc Ha.
  - cbn [app accepts] in Ha. destruct (accept (Called (Push k v)) c0) as [c1|] eqn:H; [|done]. cbn [accept] in H.
    destruct (c_owed c0) as [[k0|k0]|]; try done. destruct (facts c0 !! k) as [f|] eqn:Hf; [|done]. cbn in H.
    destruct (bool_decide (k = k0)); [|done]. destruct (view_ok k f v) eqn:Hv; [|done].
    apply bool_decide_eq_true in Hv as (_ & _ & Hl & Hfirst & Hps). destruct (Hc f Hf) as (Hz & _ & Ht).
    split; [congruence|]. destruct Ht as [Ht|[Ht _]]; congruence.
  - apply Forall_cons in Hh as [Hn Hh]. cbn [app accepts] in Ha. destruct (accept n c0) as [c1|] eqn:H; [|done].
    apply (IH Hh c1); [by eapply first_time_accept|done].
Qed.

(** C7: Whatever run queue it is given, the scheduler never fails an assertion of the tasks' life
    cycle and keeps to the contract of the run queue, in any sequence of rounds, wake-ups, aborts,
    spawns and changes of priority, from any thread: the contract accepts all that happened, and
    so the views of pushes and of polls that start are exact and the calls come when they should; on the first push of a task that
    never went to the injection queue, [polls] is zero and [first_enqueued_at] is [enqueued_at];
    and a task that was notified and is neither polled nor finished waits in exactly one queue,
    once, and no other task does. *)
Theorem run_queue_contract_kept interval s :
  reachable interval s →
  is_Some (accepts (history s) contract_new) ∧
  (∀ h k v h', history s = h ++ Called (Push k v) :: h' → Forall (unseen k) h →
     polls v = 0%Z ∧ first_enqueued_at v = enqueued_at v) ∧
  (∀ now ev, step interval now ev s ≠ Some Panic) ∧
  NoDup (queued (tasks s) ++ inject s) ∧
  ∀ k tk, all_tasks s !! k = Some tk → k ∈ queued (tasks s) ++ inject s ↔ is_waiting (life tk) = true.
Proof.
  intros (c & Hacc & Hinv)%ct_reachable_inv. split_and!.
  - by exists c.
  - intros h k v h' Hh. rewrite Hh in Hacc. by eapply first_push.
  - intros now ev Hs. by destruct (ct_step_inv interval now ev s c _ Hinv Hs) as (s' & notes & c' & [=] & _).
  - apply (inv_nodup _ _ _ Hinv).
  - intros k tk Hk. destruct (inv_task _ _ _ Hinv k tk Hk) as (f & _ & _ & Hl). by apply (Hl ltac:(done)).
Qed.

End current_thread.

(** ** A scheduler with the FIFO run queue *)

#[local] Existing Instances Fifo.fifo_run_queue Fifo.fifo_laws.

Definition fifo_ct : Type := CtState (Q := Fifo.FifoQueue Z).
Definition fifo_new : fifo_ct := MkCt (Fifo.MkFifo []) 0 [] [] ∅ 1 None [].

Definition fifo_after (interval : Z) (l : list (Z * event)) : fifo_ct :=
  match exec interval l fifo_new with Some (Ret s) => s | _ => fifo_new end.

Lemma fifo_after_reachable interval l : reachable interval (fifo_after interval l).
Proof.
  assert (Hn : reachable interval fifo_new) by by apply reach_new. unfold fifo_after.
  destruct (exec interval l fifo_new) as [[s|]|] eqn:H; [by eapply ct_exec_reachable|done|done].
Qed.

(** Task 1 is local, is polled, wakes itself and yields; task 2 is spawned by another thread. *)
Definition busy : list (Z * event) :=
  [(10, SpawnTask true None); (20, Round); (25, SpawnTask false None); (26, WakeTask true 1); (30, PollDone false)]%Z.

Lemma run_queue_contract_kept_witness :
  let s := fifo_after 31 busy in
  is_Some (accepts (history s) contract_new) ∧ length (calls s) = 5 ∧ queued (tasks s) ++ inject s = [1; 2]%Z ∧
  (∃ v, head (calls s) = Some (Push 1%Z v) ∧ polls v = 0%Z ∧ first_enqueued_at v = enqueued_at v) ∧
  (∀ now ev, step 31 now ev s ≠ Some Panic).
Proof.
  assert (H := run_queue_contract_kept 31 (fifo_after 31 busy) (fifo_after_reachable 31 busy)).
  destruct H as (H1 & H2 & H3 & _). split_and!; [exact H1|vm_compute; reflexivity|vm_compute; reflexivity| |exact H3].
  exists (MkView 1 INFRA 10 10 0). split; [vm_compute; reflexivity|].
  apply (H2 [Spawned 1 INFRA; Enqueued 10 1 false] 1%Z _ (drop 3 (history (fifo_after 31 busy)))); [vm_compute; reflexivity|].
  by repeat constructor.
Defined.

(** A task that another thread spawned has been polled when it is pushed for the first time, and
    entered a queue before. *)
Example first_push_after_injection :
  let s := fifo_after 31 [(10, SpawnTask false None); (20, Round); (30, WakeTask true 1); (40, PollDone false)]%Z in
  calls s = [Pop; PollStart (MkView 1 INFRA 10 10 1); Push 1%Z (MkView 1 INFRA 40 10 1); PollEnd (MkView 1 INFRA 10 10 1) Pending].
Proof. vm_compute. reflexivity. Qed.
