(* ===== verification/RemoteTasks.v ===== *)
(** Tasks that other threads hand to the current-thread scheduler: how long they can wait for
    their turn, and the queueing delay the scheduler keeps of them. *)
From S2P Require Export CurrentThread.
From S2P Require Import Builtin.

Section remote_tasks.
Context {Q : Type} `{RQ : RunQueue Z Q} {L : RunQueueLaws Z Q}.
Notation CtState := (CurrentThread.CtState (Q := Q)).

(** ** Tasks from other threads *)

(** What a step leaves alone: the ticks, and the injected tasks but for new ones. *)
Definition extends (s s' : CtState) (new : list Z) (ops : list note) : Prop :=
  tick s' = tick s ∧ inject s' = inject s ++ new ∧ history s' = history s ++ ops.

Lemma extends_refl s : extends s s [] [].
Proof. unfold extends. by rewrite !app_nil_r. Qed.

Lemma extends_trans s1 s2 s3 n1 n2 o1 o2 : extends s1 s2 n1 o1 → extends s2 s3 n2 o2 → extends s1 s3 (n1 ++ n2) (o1 ++ o2).
Proof. intros (H1 & H2 & H3) (G1 & G2 & G3). unfold extends. rewrite G1, G2, G3, H1, H2, H3, !app_assoc. done. Qed.

Lemma tell_extends op s : extends s (tell op s) [] [Called op].
Proof. unfold extends. by rewrite app_nil_r. Qed.

Lemma exits_extend l s : ∃ ops, extends s (foldl (λ s k, tell (TaskExit k) s) s l) [] ops.
Proof.
  revert s. induction l as [|k l IH]; intros s; [eexists; apply extends_refl|]. cbn [foldl].
  destruct (IH (tell (TaskExit k) s)) as [ops Hops]. eexists. change (@nil Z) with (@nil Z ++ []).
  eapply extends_trans; [apply tell_extends|exact Hops].
Qed.

Lemma end_poll_extends v s : ∃ ops, extends s (end_poll v s) [] ops.
Proof.
  unfold end_poll, flush_exits. set (s1 := set_polling _ _). destruct (exits_extend (exited s1) s1) as [ops (H1 & H2 & H3)].
  exists ([Called (PollEnd v (if decide (task_id v ∈ exited s) then Ready else Pending))] ++ ops). unfold extends, set_exited.
  cbn [tick inject history]. rewrite H1, H2, H3. by rewrite app_assoc.
Qed.

Lemma complete_extends k tk s s' : complete_task k tk s = Ret s' → extends s s' [] [].
Proof.
  unfold complete_task. destruct (transition_to_complete _) as [l|]; [|done]. cbn. intros [= <-]. unfold extends. cbn.
  by rewrite !app_nil_r.
Qed.

Lemma next_local_extends now s r s' : next_local_task now s = Ret (r, s') → extends s s' [] [Called Pop].
Proof.
  unfold next_local_task. destruct (head _) as [k|]; [|intros [= _ <-]; apply tell_extends].
  destruct (all_tasks _ !! k) as [tk|]; [|done]. cbn. destruct (record_queue_lat _ _); [|done]. cbn. intros [= _ <-].
  unfold extends. cbn. by rewrite app_nil_r.
Qed.

(** A round takes an injected task when the tick is due. *)
Lemma next_task_takes interval now s r s' :
  next_task interval now s = Ret (r, s') →
  ∃ ops, history s' = history s ++ ops ∧ tick s' = tick s ∧
    ((inject s' = inject s ∧ ((tick s mod interval = 0)%Z → inject s = [])) ∨
     (∃ k l, r = Some k ∧ inject s = k :: l ∧ inject s' = l)).
Proof.
  unfold next_task, next_remote_task. destruct (decide _) as [Hd|Hd].
  - destruct (inject s) as [|k l] eqn:Hi; cbn [head tail].
    + set (s0 := MkCt _ _ _ _ _ _ _ _). intros H. destruct (next_local_extends now s0 r s' H) as (H1 & H2 & H3).
      exists [Called Pop]. split_and!; try done. left. rewrite H2, app_nil_r. done.
    + intros [= <- <-]. exists []. rewrite app_nil_r. split_and!; try done. right. by exists k, l.
  - destruct (next_local_task now s) as [[r1 s1]|] eqn:Hl; [|done]. cbn [mbind outcome_bind].
    destruct (next_local_extends now s r1 s1 Hl) as (H1 & H2 & H3). rewrite app_nil_r in H2.
    destruct r1 as [k|]; intros [= <- <-]; exists [Called Pop]; cbn [tick history inject]; split_and!; try done.
    + left. split; [done|]. intros H. by destruct Hd.
    + rewrite H2. destruct (inject s) as [|k l]; cbn [head tail]; [left; by split|right; by exists k, l].
Qed.

Lemma round_takes interval now s s' :
  run_one interval now s = Ret s' →
  tick s' = wrap32 (tick s + 1) ∧ ∃ ops, history s' = history s ++ ops ∧
    ((inject s' = inject s ∧ ((tick s' mod interval = 0)%Z → inject s = [])) ∨
     (∃ k l v, inject s = k :: l ∧ inject s' = l ∧ Called (PollStart v) ∈ ops ∧ task_id v = k)).
Proof.
  unfold run_one. set (s0 := MkCt _ _ _ _ _ _ _ _). destruct (next_task interval now s0) as [[r s1]|] eqn:Hn; [|done].
  cbn [mbind outcome_bind]. destruct (next_task_takes interval now s0 r s1 Hn) as (ops & Hcalls & Htick & Htake).
  destruct r as [k|].
  2: { intros [= <-]. cbn [tick tell]. split; [done|]. exists (ops ++ [Called Idle]).
       split; [cbn; by rewrite Hcalls, <-app_assoc|]. left. destruct Htake as [Ht|(k & l & ? & _)]; [|done]. cbn. by rewrite Htick. }
  destruct (all_tasks s1 !! k) as [tk|]; [|done]. cbn [expect_some mbind outcome_bind]. set (v := task_view _ _ _).
  set (s2 := tell _ _). destruct (transition_to_running _) as [[t l]|]; [|done]. cbn [mbind outcome_bind].
  assert (Hext : extends s1 s2 [] [Called (PollStart v)]) by (unfold extends; by rewrite app_nil_r).
  assert (Hgoal : ∀ s3 o3, extends s2 s3 [] o3 → tick s3 = wrap32 (tick s + 1) ∧ ∃ ops, history s3 = history s ++ ops ∧
    ((inject s3 = inject s ∧ ((tick s3 mod interval = 0)%Z → inject s = [])) ∨
     (∃ k l v, inject s = k :: l ∧ inject s3 = l ∧ Called (PollStart v) ∈ ops ∧ task_id v = k))).
  { intros s3 o3 H3. destruct (extends_trans _ _ _ _ _ _ _ Hext H3) as (E1 & E2 & E3). cbn [app] in E2. rewrite app_nil_r in E2.
    split; [by rewrite E1|]. exists (ops ++ Called (PollStart v) :: o3). split; [rewrite E3, Hcalls, <-app_assoc; done|].
    rewrite E2, E1, Htick. destruct Htake as [Ht|(k' & l' & [= <-] & H1 & H2)]; [by left|right]. exists k, l', v.
    split_and!; try done. apply elem_of_app. right. by left. }
  set (s3 := set_task k _ s2). assert (He : extends s2 s3 [] []) by (unfold extends; cbn; by rewrite !app_nil_r).
  destruct t.
  - intros [= <-]. by eapply Hgoal.
  - destruct (complete_task k _ s3) as [s4|] eqn:Hc; [|done]. intros [= <-].
    destruct (end_poll_extends v s4) as [o4 H4]. eapply Hgoal.
    exact (extends_trans _ _ _ _ _ _ _ He (extends_trans _ _ _ _ _ _ _ (complete_extends _ _ _ _ Hc) H4)).
  - intros [= <-]. destruct (end_poll_extends v s3) as [o4 H4]. eapply Hgoal. exact (extends_trans _ _ _ _ _ _ _ He H4).
Qed.

Lemma schedule_extends local now k tk s : ∃ new ops, extends s (schedule local now k tk s) new ops.
Proof.
  destruct local; cbn [schedule].
  - exists [], [Enqueued now k false; Called (Push k (task_view now k (MkCtTask (life tk) (priority tk) (set_enqueue_time now (timer tk)))))].
    unfold extends. cbn. by rewrite app_nil_r, <-app_assoc.
  - exists [k], [Enqueued now k true]. by unfold extends.
Qed.

Lemma set_task_extends k tk s : extends s (set_task k tk s) [] [].
Proof. unfold extends. cbn. by rewrite !app_nil_r. Qed.

Lemma notify_extends f local now k tk s : ∃ new ops, extends s (notify_task f local now k tk s) new ops.
Proof.
  unfold notify_task. destruct (f (life tk)) as [[] l]; [apply schedule_extends|]. exists [], []. apply set_task_extends.
Qed.

Lemma finish_extends ready now v s s' : finish_poll ready now v s = Ret s' → ∃ ops, extends s s' [] ops.
Proof.
  unfold finish_poll. set (k := task_id v). destruct (all_tasks s !! k) as [tk|]; [|done]. cbn [expect_some mbind outcome_bind].
  assert (Hend : ∀ s1 o1, extends s s1 [] o1 → Ret (end_poll v s1) = Ret s' → ∃ ops, extends s s' [] ops).
  { intros s1 o1 H1 [= <-]. destruct (end_poll_extends v s1) as [o2 H2]. eexists. exact (extends_trans _ _ _ _ _ _ _ H1 H2). }
  destruct ready.
  { destruct (complete_task k tk s) as [s1|] eqn:Hc; [|done]. cbn. eapply Hend. by eapply complete_extends. }
  destruct (transition_to_idle _) as [[t l]|]; [|done]. cbn [mbind outcome_bind].
  assert (Hset := set_task_extends k (MkCtTask l (priority tk) (timer tk)) s). destruct t; cbn [mbind outcome_bind].
  - by eapply Hend.
  - destruct (schedule_extends true now k (MkCtTask l (priority tk) (timer tk)) (set_task k (MkCtTask l (priority tk) (timer tk)) s))
      as (new & ops & H2). cbn [schedule] in H2. assert (Hn : new = []).
    { destruct H2 as (_ & H & _). cbn in H. rewrite <-(app_nil_r (inject s)) in H at 1. by apply app_inv_head in H. }
    rewrite Hn in H2. eapply Hend. exact (extends_trans _ _ _ _ _ _ _ Hset H2).
  - destruct (complete_task _ _ _) as [s1|] eqn:Hc; [|done]. cbn. eapply Hend.
    exact (extends_trans _ _ _ _ _ _ _ Hset (complete_extends _ _ _ _ Hc)).
Qed.

Lemma other_extends interval now ev s s' :
  ev ≠ Round → step interval now ev s = Some (Ret s') → ∃ new ops, extends s s' new ops.
Proof.
  intros Hev. destruct ev as [|ready|local k|local k|local m|m]; cbn [step]; [done| | | | |].
  - destruct (polling s) as [v|]; [|done]. intros [= H]. destruct (finish_extends _ _ _ _ _ H) as [ops Hops]. by exists [], ops.
  - destruct (all_tasks s !! k) as [tk|]; [|done]. intros [= <-]. apply notify_extends.
  - destruct (all_tasks s !! k) as [tk|]; [|done]. intros [= <-]. apply notify_extends.
  - intros [= <-]. unfold spawn. set (m' := default _ m). set (tk := MkCtTask _ _ _). set (s1 := log _ _).
    assert (H1 : extends s s1 [] [Spawned (next_id s) m']) by (unfold extends; cbn; by rewrite app_nil_r).
    destruct (schedule_extends local now (next_id s) tk s1) as (new & ops & H2). eexists _, _. by eapply extends_trans.
  - destruct (polling s) as [v|] eqn:Hp; [|done]. intros [= <-]. unfold reprioritize. rewrite Hp. cbn [mbind option_bind].
    destruct (all_tasks s !! task_id v) as [tk|]; [|eexists _, _; apply extends_refl].
    exists [], [Reprioritized (task_id v) m]. unfold extends. cbn. by rewrite app_nil_r.
Qed.

(** The rounds among the next [n], from tick [t], that look at the injected tasks first. *)
Fixpoint dues (interval : Z) (n : nat) (t : Z) : nat :=
  match n with
  | 0 => 0
  | S n => let t := wrap32 (t + 1) in (if decide (t mod interval = 0)%Z then 1 else 0) + dues interval n t
  end.

Lemma dues_add interval m n t :
  dues interval (m + n) t = dues interval m t + dues interval n (Nat.iter m (λ t, wrap32 (t + 1)) t).
Proof.
  revert t. induction m as [|m IH]; intros t; [done|]. cbn [Nat.add dues]. rewrite IH, Nat.iter_succ_r. lia.
Qed.

(** One of [interval] successive ticks is due, across the wrap-around too. *)
Lemma dues_one interval t :
  (0 < interval)%Z → (0 ≤ t < 2 ^ 32)%Z → 1 ≤ dues interval (Z.to_nat interval) t.
Proof.
  intros Hi Ht.
  assert (Hgen : ∀ n t, (0 ≤ t < 2 ^ 32)%Z → (interval - t mod interval ≤ Z.of_nat n)%Z → 1 ≤ dues interval n t).
  { clear t Ht. intros n. induction n as [|n IH]; intros t Ht Hn.
    - assert (H := Z.mod_pos_bound t interval Hi). lia.
    - cbn [dues]. destruct (decide _) as [Hd|Hd]; [lia|].
      destruct (decide (t + 1 = 2 ^ 32)%Z) as [Hwrap|Hwrap].
      + destruct Hd. unfold wrap32. rewrite Hwrap, Z.mod_same by lia. by apply Z.mod_0_l; lia.
      + assert (Hw : wrap32 (t + 1) = (t + 1)%Z) by (apply Z.mod_small; lia). rewrite Hw in *.
        assert (Hm : ((t + 1) mod interval = t mod interval + 1)%Z).
        { assert (H := Z.mod_pos_bound t interval Hi). assert (H1 := Z.div_mod t interval ltac:(lia)).
          assert (Hlt : (t mod interval + 1 < interval)%Z).
          { destruct (decide (t mod interval + 1 = interval)%Z) as [He|]; [|lia]. destruct Hd.
            rewrite H1. replace (interval * (t / interval) + t mod interval + 1)%Z with ((t / interval + 1) * interval)%Z by lia.
            apply Z.mod_mul. lia. }
          symmetry. apply (Z.mod_unique_pos _ _ (t / interval)); lia. }
        specialize (IH (t + 1)%Z ltac:(lia)). rewrite Hm in IH. specialize (IH ltac:(lia)). lia. }
  apply Hgen; [done|]. assert (H := Z.mod_pos_bound t interval Hi). lia.
Qed.

Lemma dues_enough interval p n t :
  (0 < interval)%Z → (0 ≤ t < 2 ^ 32)%Z → p * Z.to_nat interval ≤ n → p ≤ dues interval n t.
Proof.
  intros Hi. revert n t. induction p as [|p IH]; intros n t Ht Hn; [lia|].
  replace n with (Z.to_nat interval + (n - Z.to_nat interval)) by lia. rewrite dues_add.
  assert (H1 := dues_one interval t Hi Ht).
  assert (Hit : ∀ m, (0 ≤ Nat.iter m (λ t, wrap32 (t + 1)) t < 2 ^ 32)%Z).
  { intros [|m]; [done|]. apply Z.mod_pos_bound. lia. }
  specialize (IH (n - Z.to_nat interval) _ (Hit (Z.to_nat interval)) ltac:(lia)). lia.
Qed.


Fixpoint rounds (l : list (Z * event)) : nat :=
  match l with [] => 0 | (_, Round) :: l => S (rounds l) | _ :: l => rounds l end.

Lemma round_or_not ev : ev = Round ∨ ev ≠ Round.
Proof. destruct ev; [by left|by right..]. Qed.

Definition tick_ok (s : CtState) : Prop := (0 ≤ tick s < 2 ^ 32)%Z.

Lemma step_tick interval now ev s s' : step interval now ev s = Some (Ret s') → tick_ok s → tick_ok s'.
Proof.
  intros Hs Ht. unfold tick_ok. destruct (round_or_not ev) as [->|Hev].
  - cbn in Hs. destruct (polling s); [done|]. injection Hs as Hs. destruct (round_takes _ _ _ _ Hs) as [-> _].
    apply Z.mod_pos_bound. lia.
  - destruct (other_extends _ _ _ _ _ Hev Hs) as (new & ops & -> & _). exact Ht.
Qed.

Lemma reachable_tick interval s : reachable interval s → tick_ok s.
Proof.
  induction 1 as [s Hs|s now ev s' _ IH Hs]; [|by eapply step_tick].
  unfold ct_new in Hs. destruct (with_capacity INITIAL_CAPACITY); [|done]. by injection Hs as <-.
Qed.

Lemma dues_due interval n t :
  dues interval (S n) t ≤ S (dues interval n (wrap32 (t + 1))) ∧
  ((wrap32 (t + 1) mod interval ≠ 0)%Z → dues interval (S n) t = dues interval n (wrap32 (t + 1))).
Proof. cbn [dues]. destruct (decide _) as [Hd|Hd]; split; [lia|intros H; by destruct H|lia|done]. Qed.

(** Enough due rounds reach an injected task. *)
Lemma exec_reaches interval l s s' pre k post :
  exec interval l s = Some (Ret s') → inject s = pre ++ k :: post →
  S (length pre) ≤ dues interval (rounds l) (tick s) →
  ∃ ops v, history s' = history s ++ ops ∧ Called (PollStart v) ∈ ops ∧ task_id v = k.
Proof.
  assert (Hcalls : ∀ l s s', exec interval l s = Some (Ret s') → ∃ ops, history s' = history s ++ ops).
  { clear. induction l as [|[now ev] l IH]; intros s s'; cbn [exec]; [intros [= <-]; exists []; by rewrite app_nil_r|].
    destruct (step interval now ev s) as [[s1|]|] eqn:Hs; [|done..]. intros (ops & H)%IH.
    assert (∃ ops1, history s1 = history s ++ ops1) as [ops1 H1].
    { destruct (round_or_not ev) as [->|Hev].
      - cbn in Hs. destruct (polling s); [done|]. injection Hs as Hs.
        destruct (round_takes _ _ _ _ Hs) as (_ & ops1 & ? & _). by exists ops1.
      - destruct (other_extends _ _ _ _ _ Hev Hs) as (new & ops1 & _ & _ & ?). by exists ops1. }
    exists (ops1 ++ ops). by rewrite H, H1, app_assoc. }
  revert s pre post. induction l as [|[now ev] l IH]; intros s pre post; cbn [exec]; [cbn; lia|].
  destruct (step interval now ev s) as [[s1|]|] eqn:Hs; [|done..]. intros He Hi Hd.
  assert (Hgo : ∀ ops1 pre post, history s1 = history s ++ ops1 → inject s1 = pre ++ k :: post →
    S (length pre) ≤ dues interval (rounds l) (tick s1) →
    ∃ ops v, history s' = history s ++ ops ∧ Called (PollStart v) ∈ ops ∧ task_id v = k).
  { intros ops1 pre' post' H1 H2 H3. destruct (IH s1 pre' post' He H2 H3) as (ops & v & H & Hv & Hk).
    exists (ops1 ++ ops), v. split_and!; [by rewrite H, H1, app_assoc|apply elem_of_app; by right|done]. }
  destruct (round_or_not ev) as [->|Hev].
  - cbn in Hs. destruct (polling s); [done|]. injection Hs as Hs. cbn [rounds] in Hd.
    destruct (round_takes _ _ _ _ Hs) as (Ht & ops1 & Hc1 & Htake). destruct (dues_due interval (rounds l) (tick s)) as [D1 D2].
    rewrite <-Ht in D1, D2. destruct Htake as [[Hsame Hdue]|(k' & rest & v & Hi' & Hi1 & Hv & Hk)].
    + apply (Hgo ops1 pre post); [done|congruence|]. rewrite D2 in Hd; [done|]. intros H. specialize (Hdue H).
      rewrite Hi in Hdue. by destruct pre.
    + rewrite Hi in Hi'. destruct pre as [|k0 pre]; cbn in Hi'; injection Hi' as -> Hrest.
      * destruct (Hcalls l s1 s' He) as [ops H]. exists (ops1 ++ ops), v. split_and!; [by rewrite H, Hc1, app_assoc| |done].
        apply elem_of_app. by left.
      * apply (Hgo ops1 pre post); [done|congruence|]. cbn [length] in Hd. lia.
  - destruct (other_extends _ _ _ _ _ Hev Hs) as (new & ops1 & Ht & Hi1 & Hc1).
    apply (Hgo ops1 pre (post ++ new)); [done|by rewrite Hi1, Hi, <-app_assoc|].
    rewrite Ht. destruct ev; [done|done..].
Qed.

(** C8: However busy the run queue keeps the scheduler and whatever it orders first, a task that
    another thread scheduled is polled after at most [global_queue_interval] rounds for each task
    injected before it and itself, also when the 32-bit tick wraps around in between. *)
Theorem remote_task_bounded interval l s s' pre k post :
  (0 < interval)%Z → reachable interval s → inject s = pre ++ k :: post →
  exec interval l s = Some (Ret s') → S (length pre) * Z.to_nat interval ≤ rounds l →
  ∃ ops v, calls s' = calls s ++ ops ∧ PollStart v ∈ ops ∧ task_id v = k.
Proof.
  intros Hi Hr Hinj He Hn.
  destruct (exec_reaches interval l s s' pre k post He Hinj) as (notes & v & Hh & Hv & Hk).
  { apply dues_enough; [done|by eapply reachable_tick|done]. }
  exists (omap call_of notes), v. split_and!; [unfold calls; by rewrite Hh, omap_app| |done].
  apply list_elem_of_omap. by exists (Called (PollStart v)).
Qed.

(** ** The queueing delay *)

(** The tasks in the injection queue have no delay on their timers. *)
Definition undelayed (s : CtState) : Prop :=
  ∀ k tk, k ∈ inject s → all_tasks s !! k = Some tk → q_lat (timer tk) = 0%Z.

Lemma undelayed_set k tk s : undelayed s → (k ∈ inject s → q_lat (timer tk) = 0%Z) → undelayed (set_task k tk s).
Proof.
  intros Hs Hk j tkj Hj Hl. cbn in Hj, Hl. destruct (decide (k = j)) as [<-|Hne].
  - rewrite lookup_insert_eq in Hl. injection Hl as <-. by apply Hk.
  - rewrite lookup_insert_ne in Hl by done. by eapply Hs.
Qed.

Lemma undelayed_life k tk l s :
  undelayed s → all_tasks s !! k = Some tk → undelayed (set_task k (MkCtTask l (priority tk) (timer tk)) s).
Proof. intros Hs Hk. apply undelayed_set; [done|]. intros Hin. exact (Hs k tk Hin Hk). Qed.

Lemma undelayed_schedule local now k tk s : undelayed s → undelayed (schedule local now k tk s).
Proof.
  intros Hs. set (tk' := MkCtTask (life tk) (priority tk) (set_enqueue_time now (timer tk))). destruct local.
  - exact (undelayed_set k tk' s Hs (λ _, eq_refl)).
  - intros j tkj Hj Hl. cbn in Hj, Hl. destruct (decide (k = j)) as [<-|Hne].
    + rewrite lookup_insert_eq in Hl. by injection Hl as <-.
    + rewrite lookup_insert_ne in Hl by done. apply elem_of_app in Hj as [Hj| ->%list_elem_of_singleton]; [|done]. by eapply Hs.
Qed.

Lemma undelayed_notify f local now k tk s :
  undelayed s → all_tasks s !! k = Some tk → undelayed (notify_task f local now k tk s).
Proof.
  intros Hs Hk. unfold notify_task. destruct (f (life tk)) as [[] l]; [by apply undelayed_schedule|by apply undelayed_life].
Qed.

Lemma end_poll_same v s :
  all_tasks (end_poll v s) = all_tasks s ∧ inject (end_poll v s) = inject s ∧ polling (end_poll v s) = None.
Proof.
  unfold end_poll, flush_exits. set (s1 := set_polling _ _). change (all_tasks s) with (all_tasks s1).
  change (inject s) with (inject s1). assert (Hp : polling s1 = None) by done. revert Hp. generalize s1 as s2.
  intros s2 Hp. generalize (exited s2). intros l. revert s2 Hp. induction l as [|k l IH]; intros s2 Hp; [done|].
  cbn [foldl]. exact (IH (tell (TaskExit k) s2) Hp).
Qed.

Lemma undelayed_end_poll v s : undelayed s → undelayed (end_poll v s).
Proof. intros Hs k tk. destruct (end_poll_same v s) as (-> & -> & _). by apply Hs. Qed.

Lemma undelayed_complete k tk s s' :
  complete_task k tk s = Ret s' → undelayed s → all_tasks s !! k = Some tk → undelayed s'.
Proof.
  unfold complete_task. destruct (transition_to_complete _) as [l|]; [|done]. intros [= <-] Hs Hk.
  exact (undelayed_life k tk l s Hs Hk).
Qed.

Lemma undelayed_finish ready now v s s' : finish_poll ready now v s = Ret s' → undelayed s → undelayed s'.
Proof.
  unfold finish_poll. set (k := task_id v). destruct (all_tasks s !! k) as [tk|] eqn:Hk; [|done].
  cbn [expect_some mbind outcome_bind]. intros H Hs. destruct ready.
  { destruct (complete_task k tk s) as [s1|] eqn:Hc; [|done]. injection H as <-. apply undelayed_end_poll.
    by eapply undelayed_complete. }
  destruct (transition_to_idle _) as [[t l]|]; [|done]. cbn [mbind outcome_bind] in H.
  assert (Hset := undelayed_life k tk l s Hs Hk). destruct t; cbn [mbind outcome_bind] in H.
  - injection H as <-. by apply undelayed_end_poll.
  - injection H as <-. apply undelayed_end_poll. by apply (undelayed_schedule true).
  - destruct (complete_task _ _ _) as [s1|] eqn:Hc; [|done]. injection H as <-. apply undelayed_end_poll.
    eapply undelayed_complete; [done..|]. cbn. by rewrite lookup_insert_eq.
Qed.

(** What is known of a task taken by a round. *)
Definition delay_of (now k : Z) (tk : CtTask) (s : CtState) : Prop :=
  (k ∈ queued (tasks s) ∧ q_lat (timer tk) = Z.max 0 (now - default now (last_enqueue (timer tk)))) ∨
  (k ∈ inject s ∧ q_lat (timer tk) = 0%Z).

Definition delay_known (now : Z) (r : option Z) (s s' : CtState) : Prop :=
  ∀ k, r = Some k → k ∉ inject s' ∧ ∃ tk, all_tasks s' !! k = Some tk ∧ delay_of now k tk s.

Lemma next_local_delay now s c r s' :
  inv None s c → polling s = None → undelayed s → next_local_task now s = Ret (r, s') → undelayed s' ∧ delay_known now r s s'.
Proof.
  intros Hinv Hp Hs Hr. destruct (next_local_inv now s c Hinv Hp) as (r' & s2 & Hl & _ & _ & _ & Hi & _ & Hr').
  rewrite Hl in Hr. injection Hr as <- <-. unfold next_local_task in Hl. cbn [sched_step] in Hl.
  assert (Hpop := pop_law (tasks s) (inv_ok _ _ _ Hinv)). destruct (pop (tasks s)) as [[k|] q] eqn:Hq; cbn [fst snd] in Hl.
  - change (head (option_list (Some k))) with (Some k) in Hl. cbn [expect_some mbind outcome_bind] in Hl.
    change (all_tasks (tell Pop s)) with (all_tasks s) in Hl. destruct (all_tasks s !! k) as [tk|]; [|done].
    cbn [expect_some mbind outcome_bind] in Hl. unfold record_queue_lat in Hl.
    destruct (last_enqueue (timer tk)) as [t0|] eqn:Ht; [|done]. cbn [expect_some mbind outcome_bind] in Hl.
    injection Hl as <- <-. destruct Hr' as (tk' & _ & [_ _ Hn _]).
    assert (Hn' : k ∉ inject s) by (intros H; apply Hn, elem_of_app; by right). split.
    + apply undelayed_set; [exact Hs|done].
    + intros j [= <-]. split; [done|]. eexists. split; [cbn; by rewrite lookup_insert_eq|]. left. cbn. split; [|done].
      destruct Hpop as [_ Hpop]. cbn [fst snd] in Hpop. rewrite Hpop. by left.
  - injection Hl as <- <-. split; [exact Hs|]. by intros j ?.
Qed.

Lemma next_remote_delay s c :
  inv None s c → undelayed s → undelayed (next_remote_task s).2 ∧ ∀ k, (next_remote_task s).1 = Some k →
    k ∉ inject (next_remote_task s).2 ∧ ∃ tk, all_tasks (next_remote_task s).2 !! k = Some tk ∧ k ∈ inject s ∧ q_lat (timer tk) = 0%Z.
Proof.
  intros Hinv Hs. assert (Hr := next_remote_inv s c Hinv). unfold next_remote_task in *.
  destruct (inject s) as [|k l] eqn:Hi; cbn [head tail fst snd] in *.
  - split; [|done]. rewrite Hr. exact Hs.
  - destruct Hr as (tk & _ & [Hk _ Hn _]). split.
    + intros j tkj Hj. apply Hs. rewrite Hi. by right.
    + intros j [= <-]. split; [intros H; apply Hn, elem_of_app; by right|]. exists tk. split_and!; [exact Hk|by left|]. eapply Hs; [rewrite Hi; by left|exact Hk].
Qed.

Lemma next_task_delay interval now s c r s' :
  inv None s c → polling s = None → undelayed s → next_task interval now s = Ret (r, s') → undelayed s' ∧ delay_known now r s s'.
Proof.
  intros Hinv Hp Hs. unfold next_task. destruct (decide _).
  - assert (Hr := next_remote_delay s c Hinv Hs). assert (Hr2 := next_remote_inv s c Hinv).
    destruct (next_remote_task s) as [[k|] s1]; cbn [fst snd] in Hr.
    + intros [= <- <-]. destruct Hr as [Hs1 Hd]. split; [done|]. intros j Hj. destruct (Hd j Hj) as (Hn & tk & Htk & Hin & Hq).
      split; [done|]. exists tk. split; [done|]. by right.
    + subst s1. by eapply next_local_delay.
  - destruct (next_local_inv now s c Hinv Hp) as (r1 & s1 & Hl & _ & _ & _ & Hi & _ & Hr1). rewrite Hl.
    destruct (next_local_delay now s c r1 s1 Hinv Hp Hs Hl) as [Hs1 Hd1]. cbn [mbind outcome_bind].
    destruct r1 as [k|]; [by intros [= <- <-]|]. destruct (next_remote_delay s1 c (proj1 Hr1) Hs1) as [Hs2 Hd2].
    destruct (next_remote_task s1) as [r2 s2]. cbn [fst snd] in Hs2, Hd2. intros [= <- <-]. split; [done|].
    intros j Hj. destruct (Hd2 j Hj) as (Hn & tk & Htk & Hin & Hq). rewrite Hi in Hin.
    split; [done|]. exists tk. split; [done|]. by right.
Qed.

(** A round, with the task whose poll it starts. *)
Lemma round_delay interval now s c s' :
  inv None s c → polling s = None → undelayed s → run_one interval now s = Ret s' →
  undelayed s' ∧ ∀ v, polling s' = Some v → ∃ tk, all_tasks s' !! task_id v = Some tk ∧
    delay_of now (task_id v) tk s ∧ enqueued_at v = default now (last_enqueue (timer tk)).
Proof.
  intros Hinv Hp Hs. unfold run_one. set (s0 := MkCt _ _ _ _ _ _ _ _). assert (Hinv0 : inv None s0 c) by by apply tick_inv.
  destruct (next_task interval now s0) as [[r s1]|] eqn:Hn; [|done]. cbn [mbind outcome_bind].
  destruct (next_task_delay interval now s0 c r s1 Hinv0 Hp Hs Hn) as [Hs1 Hd].
  destruct (next_task_inv interval now s0 c Hinv0 Hp) as (r1 & s1' & ops & Hn' & _ & _ & Hp1 & _).
  rewrite Hn in Hn'. injection Hn' as <- <-. destruct r as [k|]; [|intros [= <-]; split; [exact Hs1|]; intros v Hv; cbn in Hv; congruence].
  destruct (Hd k eq_refl) as (Hni & tk & Htk & Hdel). rewrite Htk. cbn [expect_some mbind outcome_bind].
  set (tkb := MkCtTask (life tk) (priority tk) (begin_poll (timer tk))). set (v := task_view now k tkb).
  set (s2 := tell _ _). destruct (transition_to_running _) as [[t l]|]; [|done]. cbn [mbind outcome_bind].
  assert (Hs2 : undelayed s2) by exact (undelayed_set k tkb s1 Hs1 (λ H, False_ind _ (Hni H))).
  set (tkl := MkCtTask l (priority tk) (begin_poll (timer tk))).
  assert (Hs3 : undelayed (set_task k tkl s2)) by exact (undelayed_set k tkl s2 Hs2 (λ H, False_ind _ (Hni H))).
  destruct t.
  - intros [= <-]. split; [exact Hs3|]. intros v' [= <-]. exists tkl. split; [cbn; by rewrite lookup_insert_eq|]. by split.
  - destruct (complete_task k _ _) as [s4|] eqn:Hc; [|done]. intros [= <-]. split.
    + apply undelayed_end_poll. eapply undelayed_complete; [done..|]. cbn. by rewrite lookup_insert_eq.
    + intros v' Hv'. by destruct (end_poll_same v s4) as (_ & _ & He); rewrite He in Hv'.
  - intros [= <-]. split; [by apply undelayed_end_poll|].
    intros v' Hv'. destruct (end_poll_same v (set_task k tkl s2)) as (_ & _ & He). discriminate (eq_trans (eq_sym He) Hv').
Qed.

Lemma step_undelayed interval now ev s c s' :
  inv None s c → undelayed s → step interval now ev s = Some (Ret s') → undelayed s'.
Proof.
  intros Hinv Hs. destruct ev as [|ready|local k|local k|local m|m]; cbn [step].
  - destruct (polling s) eqn:Hp; [done|]. intros [= H]. by destruct (round_delay _ _ _ _ _ Hinv Hp Hs H).
  - destruct (polling s) as [v|]; [|done]. intros [= H]. by eapply undelayed_finish.
  - destruct (all_tasks s !! k) as [tk|] eqn:Hk; [|done]. intros [= <-]. by apply undelayed_notify.
  - destruct (all_tasks s !! k) as [tk|] eqn:Hk; [|done]. intros [= <-]. by apply undelayed_notify.
  - intros [= <-]. apply undelayed_schedule. exact (undelayed_set (next_id s) (MkCtTask life_new _ timer_new) s Hs (λ _, eq_refl)).
  - destruct (polling s) as [v|] eqn:Hp; [|done]. intros [= <-]. unfold reprioritize. rewrite Hp. cbn [mbind option_bind].
    destruct (all_tasks s !! task_id v) as [tk|] eqn:Hk; [|done]. 
    exact (undelayed_set _ (MkCtTask (life tk) m (timer tk)) s Hs (λ Hin, Hs _ tk Hin Hk)).
Qed.

Lemma reachable_undelayed interval s : reachable interval s → undelayed s.
Proof.
  induction 1 as [s Hs|s now ev s' Hr IH Hs].
  - unfold ct_new in Hs. destruct (with_capacity INITIAL_CAPACITY); [|done]. injection Hs as <-. intros k tk Hk. by apply not_elem_of_nil in Hk.
  - destruct (ct_reachable_inv interval s Hr) as (c & _ & Hinv). by eapply step_undelayed.
Qed.

(** The latency that the running task is told. *)
Definition current_task_queue_latency (s : CtState) : outcome Z :=
  v ← expect_some (polling s);
  tk ← expect_some (all_tasks s !! task_id v);
  Ret (q_lat (timer tk)).

(** When a round starts to poll a task, the queueing latency that the task is told is the time
    since its last enqueue if the task came from the run queue, and zero, however long it
    waited, if it came from the injection queue. *)
Theorem remote_wait_unrecorded interval now s s' v :
  reachable interval s → step interval now Round s = Some (Ret s') → polling s' = Some v →
  (task_id v ∈ queued (tasks s) ∧ current_task_queue_latency s' = Ret (Z.max 0 (now - enqueued_at v))) ∨
  (task_id v ∈ inject s ∧ current_task_queue_latency s' = Ret 0%Z).
Proof.
  intros Hr Hs Hv. destruct (ct_reachable_inv interval s Hr) as (c & _ & Hinv). cbn in Hs. destruct (polling s) eqn:Hp; [done|].
  injection Hs as Hs. destruct (round_delay _ _ _ _ _ Hinv Hp (reachable_undelayed _ _ Hr) Hs) as [_ H].
  destruct (H v Hv) as (tk & Htk & Hd & ->). unfold current_task_queue_latency. rewrite Hv. cbn [expect_some mbind outcome_bind].
  rewrite Htk. cbn [expect_some mbind outcome_bind]. destruct Hd as [[Hin ->]|[Hin ->]]; [by left|by right].
Qed.

End remote_tasks.

#[local] Existing Instances Fifo.fifo_run_queue Fifo.fifo_laws.

(** ** Witnesses, with the FIFO run queue *)

(** After [busy], two more rounds, in which task 1 keeps itself ready. *)
Definition more : list (Z * event) :=
  [(31, Round); (32, PollDone true); (33, Round)]%Z.

Lemma remote_task_bounded_witness :
  let s := fifo_after 2 busy in let s' := fifo_after 2 (busy ++ more) in
  inject s = [2]%Z ∧ exec 2 more s = Some (Ret s') ∧
  ∃ ops v, calls s' = calls s ++ ops ∧ PollStart v ∈ ops ∧ task_id v = 2%Z.
Proof.
  assert (H : inject (fifo_after 2 busy) = [] ++ 2%Z :: []) by (vm_compute; reflexivity).
  assert (He : exec 2 more (fifo_after 2 busy) = Some (Ret (fifo_after 2 (busy ++ more)))) by (vm_compute; reflexivity).
  split; [exact H|]. split; [exact He|].
  apply (remote_task_bounded 2 more _ _ [] 2 []);
    [lia|exact (fifo_after_reachable 2 busy)|exact H|exact He|cbn; lia].
Defined.

Lemma remote_wait_unrecorded_witness :
  let s := fifo_after 31 [(10, SpawnTask false None)]%Z in
  ∃ s' v, step 31 5000010 Round s = Some (Ret s') ∧ polling s' = Some v ∧ enqueued_at v = 10%Z ∧
    current_task_queue_latency s' = Ret 0%Z.
Proof.
  pose (s' := fifo_after 31 [(10, SpawnTask false None); (5000010, Round)]%Z).
  pose (v := default (MkView 0 INFRA 0 0 0) (polling s')). exists s', v.
  assert (Hs : step 31 5000010 Round (fifo_after 31 [(10, SpawnTask false None)]%Z) = Some (Ret s')) by (vm_compute; reflexivity).
  assert (Hv : polling s' = Some v) by (vm_compute; reflexivity).
  split; [exact Hs|]. split; [exact Hv|]. split; [vm_compute; reflexivity|].
  destruct (remote_wait_unrecorded 31 5000010 _ s' v (fifo_after_reachable 31 _) Hs Hv) as [[Hin _]|[_ Hq]]; [|exact Hq].
  exfalso. vm_compute in Hin. by apply not_elem_of_nil in Hin.
Defined.
