(* ===== verification/OraclePlan.v ===== *)
(** The execution plans of the synthetic benchmark, apps/synthbench/src/oracle.rs: a tree of
    calls with the work each is expected to do, and on every call the hint that the oracle
    module turns into a deadline. This file has the trees: their totals, the hints, and the
    ways to distribute a measured overhead over the calls. *)
From S2P Require Export Prelude.

Record CallTarget := MkTarget { service_id : bytes; method_name : bytes }.
#[export] Instance CallTarget_eq_dec : EqDecision CallTarget.
Proof. solve_decision. Defined.

Record OracleHint := MkHint { child_work_us : Z; remaining_after_us : Z }.

Record PlannedOf (P : Type) := MkPlanned { target : CallTarget; hint : OracleHint; plan : P }.
Arguments MkPlanned {P} _ _ _.
Arguments target {P} _.
Arguments hint {P} _.
Arguments plan {P} _.

Inductive ExecutionPlan :=
| MkPlan (local_work_us estimate_overhead_us : Z) (child_steps : list (list (PlannedOf ExecutionPlan))).

Notation PlannedCall := (PlannedOf ExecutionPlan).

Definition local_work_us (p : ExecutionPlan) : Z := match p with MkPlan l _ _ => l end.
Definition estimate_overhead_us (p : ExecutionPlan) : Z := match p with MkPlan _ o _ => o end.
Definition child_steps (p : ExecutionPlan) : list (list PlannedCall) := match p with MkPlan _ _ s => s end.

Definition with_overhead (o : Z) (p : ExecutionPlan) : ExecutionPlan := MkPlan (local_work_us p) o (child_steps p).
Definition with_plan (c : PlannedCall) (p : ExecutionPlan) : PlannedCall := MkPlanned (target c) (hint c) p.
Definition with_hint (c : PlannedCall) (h : OracleHint) : PlannedCall := MkPlanned (target c) h (plan c).

(** [Iterator::max().unwrap_or(0)] and [Iterator::sum] over [u64]s. *)
Definition max_or_zero (l : list Z) : Z := foldr Z.max 0%Z l.
Definition sum_u64 (l : list Z) : Z := foldl (λ a b, wrap64 (a + b)) 0%Z l.

Fixpoint actual_total_work_us (p : ExecutionPlan) : Z :=
  match p with
  | MkPlan l _ steps =>
      sum_u64 (map (λ step, max_or_zero (map (λ c, actual_total_work_us (plan c)) step)) steps) +s l
  end.

Fixpoint estimated_total_work_us (p : ExecutionPlan) : Z :=
  match p with
  | MkPlan l o steps =>
      sum_u64 (map (λ step, max_or_zero (map (λ c, estimated_total_work_us (plan c)) step)) steps) +s l +s o
  end.

(** ** Hints *)

Definition step_work (step : list PlannedCall) : Z :=
  max_or_zero (map (λ c, estimated_total_work_us (plan c)) step).

(** The loop from the last step to the first, with what remains after the step. *)
Definition attach_step (step : list PlannedCall) (acc : list (list PlannedCall) * Z) : list (list PlannedCall) * Z :=
  let '(steps, remaining_after_us) := acc in
  (map (λ c, with_hint c (MkHint (estimated_total_work_us (plan c)) remaining_after_us)) step :: steps,
   remaining_after_us +s step_work step).

Definition attach_hints (local_work : Z) (steps : list (list PlannedCall)) : list (list PlannedCall) :=
  (foldr attach_step ([], local_work) steps).1.

Fixpoint refresh_hints (p : ExecutionPlan) : ExecutionPlan :=
  match p with
  | MkPlan l o steps => MkPlan l o (attach_hints l (map (map (λ c, with_plan c (refresh_hints (plan c)))) steps))
  end.

(** ** Overheads *)

(** The last element that [f] changes, where it changes any. *)
Fixpoint update_from_end {A} (f : A → option A) (l : list A) : option (list A) :=
  match l with
  | [] => None
  | x :: l => match update_from_end f l with Some l => Some (x :: l) | None => (λ x, x :: l) <$> f x end
  end.

(** The plan after the call, where it returns [true]. *)
Fixpoint add_overhead_to_last_call (overhead_us : Z) (p : ExecutionPlan) : option ExecutionPlan :=
  match p with
  | MkPlan l o steps =>
      MkPlan l o <$> update_from_end (update_from_end (λ c : PlannedCall,
        Some (with_plan c match add_overhead_to_last_call overhead_us (plan c) with
                          | Some q => q
                          | None => with_overhead (estimate_overhead_us (plan c) +s overhead_us) (plan c)
                          end))) steps
  end.

Fixpoint count_planned_calls (p : ExecutionPlan) : nat :=
  match p with
  | MkPlan _ _ steps => sum_list (map (λ step, sum_list (map (λ c, 1 + count_planned_calls (plan c)) step)) steps)
  end.

(** A loop over a list that changes the elements and a variable. *)
Section map_state.
Context {A S : Type} (f : A → S → A * S).

Fixpoint map_state (l : list A) (s : S) : list A * S :=
  match l with
  | [] => ([], s)
  | x :: l => let '(x, s) := f x s in let '(l, s) := map_state l s in (x :: l, s)
  end.
End map_state.

(** The recursion below a call does not read the call's own overhead. *)
Fixpoint add_overhead_uniformly_inner (per_call : Z) (p : ExecutionPlan) (remainder : Z) : ExecutionPlan * Z :=
  match p with
  | MkPlan l o steps =>
      let '(steps, remainder) := map_state (map_state (λ (c : PlannedCall) remainder,
        let extra := if (0 <? remainder)%Z then 1%Z else 0%Z in
        let '(q, remainder) := add_overhead_uniformly_inner per_call (plan c) (remainder - extra)%Z in
        (with_plan c (with_overhead (estimate_overhead_us (plan c) +s (per_call +s extra)) q), remainder)))
        steps remainder in
      (MkPlan l o steps, remainder)
  end.

Definition add_overhead_uniformly (overhead_us : Z) (p : ExecutionPlan) : ExecutionPlan :=
  let call_count := Z.of_nat (count_planned_calls p) in
  if decide (call_count = 0)%Z then p
  else (add_overhead_uniformly_inner (overhead_us / call_count) p (overhead_us mod call_count)%Z).1.

(** ** Plans as trees *)

Lemma plan_induction (P : ExecutionPlan → Prop) :
  (∀ l o steps, (∀ step c, step ∈ steps → c ∈ step → P (plan c)) → P (MkPlan l o steps)) → ∀ p, P p.
Proof.
  intros Hstep. fix IH 1. intros [l o steps]. apply Hstep.
  assert (Hall : Forall (Forall (λ c, P (plan c))) steps).
  { induction steps as [|step steps IHs]; constructor; [|exact IHs].
    induction step as [|c step IHc]; constructor; [apply IH|exact IHc]. }
  intros step c Hs Hc. rewrite Forall_forall in Hall. specialize (Hall step Hs). rewrite Forall_forall in Hall. by apply Hall.
Qed.

(** The planned calls' overheads and works, a caller before its children. *)
Fixpoint overheads (p : ExecutionPlan) : list Z :=
  match p with
  | MkPlan _ _ steps =>
      concat (map (λ step, concat (map (λ c, estimate_overhead_us (plan c) :: overheads (plan c)) step)) steps)
  end.

Fixpoint works (p : ExecutionPlan) : list Z :=
  match p with
  | MkPlan _ _ steps => concat (map (λ step, concat (map (λ c, local_work_us (plan c) :: works (plan c)) step)) steps)
  end.

(** The plan without overheads and hints. *)
Fixpoint bare (p : ExecutionPlan) : ExecutionPlan :=
  match p with
  | MkPlan l _ steps => MkPlan l 0 (map (map (λ c, MkPlanned (target c) (MkHint 0 0) (bare (plan c)))) steps)
  end.

(** Every step has at most one call: what [validate_sequence_shape] admits. *)
Fixpoint linear (p : ExecutionPlan) : bool :=
  match p with
  | MkPlan _ _ steps => forallb (λ step, (length step <=? 1) && forallb (λ c, linear (plan c)) step) steps
  end.

Lemma map_ext_elem {A B} (f g : A → B) l : (∀ x, x ∈ l → f x = g x) → map f l = map g l.
Proof.
  induction l as [|x l IH]; intros H; [done|]. cbn. rewrite H by left. f_equal. apply IH. intros y ?. apply H. by right.
Qed.

Lemma bare_with_overhead o p : bare (with_overhead o p) = bare p.
Proof. by destruct p. Qed.

Lemma overheads_with_overhead o p : overheads (with_overhead o p) = overheads p.
Proof. by destruct p. Qed.

Lemma count_overheads p : count_planned_calls p = length (overheads p).
Proof.
  induction p as [l o steps IH] using plan_induction. cbn [count_planned_calls overheads].
  induction steps as [|step steps IHs]; [done|]. cbn [map concat sum_list sum_list_with].
  rewrite length_app, <-IHs by (intros step' c Hs Hc; apply (IH step' c); [by right|done]). clear IHs. f_equal.
  assert (Hc : ∀ c, c ∈ step → count_planned_calls (plan c) = length (overheads (plan c))).
  { intros c Hc. apply (IH step c); [by left|done]. }
  clear IH. induction step as [|c step IHc]; [done|]. cbn -[count_planned_calls overheads].
  rewrite length_app, <-IHc by (intros c' ?; apply Hc; by right). rewrite Hc by left. done.
Qed.

(** ** The overhead is placed *)

(** The overheads after [remainder] calls got one more than the others. *)
Fixpoint spread (per_call remainder : Z) (l : list Z) : list Z :=
  match l with
  | [] => []
  | x :: l =>
      let extra := if (0 <? remainder)%Z then 1%Z else 0%Z in
      (x +s (per_call +s extra)) :: spread per_call (remainder - extra) l
  end.

Definition left_over (remainder : Z) (l : list Z) : Z := Z.max 0 (remainder - Z.of_nat (length l)).

Lemma spread_app per_call r l k :
  (0 ≤ r)%Z → spread per_call r (l ++ k) = spread per_call r l ++ spread per_call (left_over r l) k.
Proof.
  revert r. induction l as [|x l IH]; intros r Hr.
  - assert (left_over r [] = r) as -> by (unfold left_over; cbn [length]; lia). done.
  - cbn [app spread]. set (extra := if (0 <? r)%Z then _ else _).
    assert (He : (0 ≤ r - extra)%Z ∧ left_over (r - extra) l = left_over r (x :: l)).
    { unfold extra, left_over. cbn [length]. destruct (Z.ltb_spec 0 r); lia. }
    destruct He as [He <-]. by rewrite IH.
Qed.

(** A loop over calls that spreads the overhead, where it does so at each call. *)
Lemma map_state_spread {A} (f : A → Z → A * Z) (flat : A → list Z) per_call l r :
  (0 ≤ r)%Z →
  (∀ x r, x ∈ l → 0 ≤ r → (f x r).2 = left_over r (flat x) ∧ flat (f x r).1 = spread per_call r (flat x))%Z →
  (map_state f l r).2 = left_over r (concat (map flat l)) ∧
  concat (map flat (map_state f l r).1) = spread per_call r (concat (map flat l)).
Proof.
  revert r. induction l as [|x l IH]; intros r Hr Hf.
  - split; [unfold left_over; cbn; lia|done].
  - cbn [map_state map concat]. destruct (Hf x r) as [Hx1 Hx2]; [by left|done|]. destruct (f x r) as [x' r1]. cbn [fst snd] in *.
    destruct (IH r1) as [H1 H2]; [rewrite Hx1; unfold left_over; lia|intros y ? Hy; apply Hf; by right|].
    destruct (map_state f l r1) as [l' r2]. cbn [fst snd map concat] in *. rewrite H1, H2, Hx1, Hx2, spread_app by done. split; [|done].
    unfold left_over. rewrite length_app. lia.
Qed.

Lemma map_state_same {A B} (f : A → Z → A * Z) (g : A → B) l r :
  (∀ x r, x ∈ l → g (f x r).1 = g x) → map g (map_state f l r).1 = map g l.
Proof.
  revert r. induction l as [|x l IH]; intros r Hf; [done|]. cbn [map_state map].
  assert (Hx := Hf x r ltac:(by left)). destruct (f x r) as [x' r1]. cbn [fst] in Hx.
  assert (Hl := IH r1 (λ y r Hy, Hf y r ltac:(by right))). destruct (map_state f l r1) as [l' r2]. cbn [fst map] in *. by rewrite Hx, Hl.
Qed.

Lemma uniform_bare per_call p r : bare (add_overhead_uniformly_inner per_call p r).1 = bare p.
Proof.
  revert r. induction p as [l o steps IH] using plan_induction. intros r. cbn [add_overhead_uniformly_inner bare].
  set (f := λ (c : PlannedCall) (remainder : Z), _).
  assert (Hf : ∀ step r, step ∈ steps → map (λ c, MkPlanned (target c) (MkHint 0 0) (bare (plan c))) (map_state f step r).1 =
    map (λ c, MkPlanned (target c) (MkHint 0 0) (bare (plan c))) step).
  { intros step r1 Hs. apply (map_state_same f (λ c, MkPlanned (target c) (MkHint 0 0) (bare (plan c)))). intros c r2 Hc.
    unfold f. assert (H := λ r, IH step c Hs Hc r). specialize (H (r2 - (if (0 <? r2)%Z then 1%Z else 0%Z))%Z).
    destruct (add_overhead_uniformly_inner _ _ _) as [q r3]. cbn [fst with_plan target plan] in *. by rewrite bare_with_overhead, H. }
  assert (H := map_state_same (map_state f) (map (λ c, MkPlanned (target c) (MkHint 0 0) (bare (plan c)))) steps r Hf).
  destruct (map_state (map_state f) steps r) as [steps' r']. cbn [fst bare] in *. by rewrite H.
Qed.

Lemma uniform_inner per_call p r :
  (0 ≤ r)%Z →
  (add_overhead_uniformly_inner per_call p r).2 = left_over r (overheads p) ∧
  overheads (add_overhead_uniformly_inner per_call p r).1 = spread per_call r (overheads p).
Proof.
  revert r. induction p as [l o steps IH] using plan_induction. intros r Hr. cbn [add_overhead_uniformly_inner overheads].
  set (f := λ (c : PlannedCall) (remainder : Z), _). set (flat := λ c : PlannedCall, estimate_overhead_us (plan c) :: overheads (plan c)).
  assert (Hf : ∀ step c r, step ∈ steps → c ∈ step → (0 ≤ r)%Z →
    (f c r).2 = left_over r (flat c) ∧ flat (f c r).1 = spread per_call r (flat c)).
  { intros step c r' Hs Hc Hr'. unfold f, flat. cbn [spread]. set (extra := if (0 <? r')%Z then _ else _).
    assert (He : (0 ≤ r' - extra)%Z) by (unfold extra; destruct (Z.ltb_spec 0 r'); lia).
    destruct (IH step c Hs Hc _ He) as [H1 H2]. destruct (add_overhead_uniformly_inner _ _ _) as [q r''].
    cbn [fst snd plan with_plan] in *. rewrite overheads_with_overhead, H1, H2. split; [|done].
    unfold left_over, extra. cbn [length]. destruct (Z.ltb_spec 0 r'); lia. }
  destruct (map_state_spread (map_state f) (λ step, concat (map flat step)) per_call steps r Hr) as [H1 H2].
  { intros step r' Hs Hr'. apply (map_state_spread f flat); [done|]. intros c r2 Hc Hr2. by apply (Hf step). }
  destruct (map_state (map_state f) steps r) as [steps' r']. cbn [fst snd overheads] in *. by split.
Qed.

Lemma update_from_end_spec {A} (f : A → option A) l :
  match update_from_end f l with
  | Some l' => ∃ pre x x' post, l = pre ++ x :: post ∧ f x = Some x' ∧ l' = pre ++ x' :: post ∧ ∀ y, y ∈ post → f y = None
  | None => ∀ y, y ∈ l → f y = None
  end.
Proof.
  induction l as [|x l IH]; [by intros y ?%not_elem_of_nil|]. cbn [update_from_end].
  destruct (update_from_end f l) as [l'|].
  - destruct IH as (pre & y & y' & post & -> & Hy & -> & Hpost). by exists (x :: pre), y, y', post.
  - destruct (f x) as [x'|] eqn:Hx; cbn; [by exists [], x, x', l|]. intros y [->|Hy]%elem_of_cons; [done|by apply IH].
Qed.

(** What is added to the last call. *)
Definition last_added (o : Z) (l l' : list Z) : Prop := ∃ init x, l = init ++ [x] ∧ l' = init ++ [x +s o].

Lemma last_added_app o pre l l' : last_added o l l' → last_added o (pre ++ l) (pre ++ l').
Proof. intros (init & x & -> & ->). exists (pre ++ init), x. by rewrite !app_assoc. Qed.

Lemma last_call_spec o p :
  match add_overhead_to_last_call o p with
  | Some q => last_added o (overheads p) (overheads q) ∧ bare q = bare p ∧ estimate_overhead_us q = estimate_overhead_us p
  | None => overheads p = []
  end.
Proof.
  induction p as [l own steps IH] using plan_induction. cbn [add_overhead_to_last_call]. set (f := λ c : PlannedCall, Some _).
  set (flat := λ c : PlannedCall, estimate_overhead_us (plan c) :: overheads (plan c)).
  set (strip := λ c, MkPlanned (target c) (MkHint 0 0) (bare (plan c))).
  assert (Hf : ∀ step c c', step ∈ steps → c ∈ step → f c = Some c' → last_added o (flat c) (flat c') ∧ strip c' = strip c).
  { intros step c c' Hs Hc [= <-]. specialize (IH step c Hs Hc). unfold flat, strip.
    destruct (add_overhead_to_last_call o (plan c)) as [q|]; cbn [plan with_plan target].
    - destruct IH as (Hl & -> & ->). split; [|done]. by apply (last_added_app o [_]).
    - rewrite overheads_with_overhead, bare_with_overhead, IH. split; [|done]. by exists [], (estimate_overhead_us (plan c)). }
  assert (Hstep : ∀ step, step ∈ steps → match update_from_end f step with
    | Some step' => last_added o (concat (map flat step)) (concat (map flat step')) ∧ map strip step' = map strip step
    | None => step = [] end).
  { intros step Hs. assert (H := update_from_end_spec f step). destruct (update_from_end f step) as [step'|].
    - destruct H as (pre & c & c' & post & -> & Hc & -> & Hpost). destruct post as [|c2 post]; [|by specialize (Hpost c2 ltac:(by left))].
      destruct (Hf _ c c' Hs ltac:(apply elem_of_app; right; by left) Hc) as [Ha Hb].
      rewrite !map_app, !concat_app. cbn. rewrite Hb, !app_nil_r. split; [by apply last_added_app|done].
    - destruct step as [|c step]; [done|]. by specialize (H c ltac:(by left)). }
  assert (H := update_from_end_spec (update_from_end f) steps).
  destruct (update_from_end (update_from_end f) steps) as [steps'|]; cbn [fmap option_fmap option_map overheads bare estimate_overhead_us].
  - destruct H as (pre & step & step' & post & Hsteps & Hs & -> & Hpost).
    assert (Hin : step ∈ steps) by (rewrite Hsteps; apply elem_of_app; right; by left).
    specialize (Hstep step Hin) as Hst. rewrite Hs in Hst. destruct Hst as [Ha Hb].
    assert (Hnil : concat (map (λ step, concat (map flat step)) post) = []).
    { assert (Hp : ∀ y, y ∈ post → y = []).
      { intros y Hy. assert (Hy' : y ∈ steps) by (rewrite Hsteps; apply elem_of_app; right; by right).
        specialize (Hstep y Hy'). by rewrite (Hpost y Hy) in Hstep. }
      clear -Hp. induction post as [|y post IHp]; [done|]. cbn. rewrite (Hp y) by left. apply IHp. intros z ?. apply Hp. by right. }
    split_and!; [|rewrite Hsteps, !map_app; cbn [map]; fold strip; by rewrite Hb|done].
    rewrite Hsteps, !map_app, !concat_app. cbn [map concat]. fold flat. rewrite Hnil, !app_nil_r. by apply last_added_app.
  - assert (Hp : ∀ y, y ∈ steps → y = []) by (intros y Hy; specialize (Hstep y Hy); by rewrite (H y Hy) in Hstep).
    clear -Hp. induction steps as [|y steps IHp]; [done|]. cbn. rewrite (Hp y) by left. apply IHp. intros z ?. apply Hp. by right.
Qed.

(** ** Totals of linear plans *)

Lemma sum_u64_exact l : Forall (Z.le 0) l → (sum_Z l ≤ u64_max)%Z → sum_u64 l = sum_Z l.
Proof.
  unfold sum_u64. assert (Hgen : ∀ a, (0 ≤ a)%Z → Forall (Z.le 0) l → (a + sum_Z l ≤ u64_max)%Z →
    foldl (λ a b, wrap64 (a + b)) a l = (a + sum_Z l)%Z).
  { induction l as [|x l IH]; intros a Ha Hl Hs; cbn in *; [lia|]. apply Forall_cons in Hl as [Hx Hl].
    assert (Hp : (0 ≤ sum_Z l)%Z) by (clear -Hl; unfold sum_Z; induction Hl; cbn; lia).
    unfold sum_Z in *. rewrite wrap64_small by ulia. rewrite IH; [lia|lia|done|lia]. }
  intros Hl Hs. by rewrite Hgen.
Qed.

Lemma sum_Z_nonneg l : Forall (Z.le 0) l → (0 ≤ sum_Z l)%Z.
Proof. induction 1; cbn; [done|]. unfold sum_Z in *. lia. Qed.

Lemma sum_Z_concat {A} (f : A → list Z) steps :
  sum_Z (concat (map (λ step, concat (map f step)) steps)) = sum_Z (map (λ c, sum_Z (f c)) (concat steps)).
Proof.
  induction steps as [|step steps IH]; [done|]. cbn [map concat]. rewrite map_app, !sum_Z_app, IH. f_equal.
  clear IH. induction step as [|c step IH]; [done|]. cbn [map concat]. rewrite sum_Z_app, IH. done.
Qed.

(** Over linear steps, the greatest of a step is what its call has, if any. *)
Lemma linear_maxima (t : ExecutionPlan → Z) (steps : list (list PlannedCall)) :
  (∀ step, step ∈ steps → length step ≤ 1) → (∀ c, c ∈ concat steps → 0 ≤ t (plan c))%Z →
  let maxima := map (λ step, max_or_zero (map (λ c, t (plan c)) step)) steps in
  Forall (Z.le 0) maxima ∧ sum_Z maxima = sum_Z (map (λ c, t (plan c)) (concat steps)).
Proof.
  intros Hlen Hpos. induction steps as [|step steps IH]; [done|]. cbn [map concat] in *.
  destruct IH as [H1 H2]; [intros s ?; apply Hlen; by right|intros c ?; apply Hpos, elem_of_app; by right|].
  rewrite map_app, sum_Z_app. specialize (Hlen step ltac:(by left)).
  destruct step as [|c [|? ?]]; [| |cbn in Hlen; lia].
  - cbn in *. by split; [constructor|].
  - specialize (Hpos c ltac:(by left)). cbn in *. split; [constructor; [lia|done]|]. unfold sum_Z in *. cbn. lia.
Qed.

(** A total over linear steps. *)
Lemma linear_steps (t : ExecutionPlan → Z) (steps : list (list PlannedCall)) :
  (∀ step, step ∈ steps → length step ≤ 1) → (∀ c, c ∈ concat steps → 0 ≤ t (plan c))%Z →
  (sum_Z (map (λ c, t (plan c)) (concat steps)) ≤ u64_max)%Z →
  sum_u64 (map (λ step, max_or_zero (map (λ c, t (plan c)) step)) steps) = sum_Z (map (λ c, t (plan c)) (concat steps)).
Proof.
  intros Hlen Hpos Hs. destruct (linear_maxima t steps Hlen Hpos) as [H1 H2]. rewrite sum_u64_exact; [done..|]. by rewrite H2.
Qed.

(** All numbers of the plan are natural. *)
Record natural (p : ExecutionPlan) : Prop := {
  natural_local : (0 ≤ local_work_us p)%Z;
  natural_own : (0 ≤ estimate_overhead_us p)%Z;
  natural_works : Forall (Z.le 0) (works p);
  natural_overheads : Forall (Z.le 0) (overheads p);
}.

Lemma in_steps {A} (c : A) steps : c ∈ concat steps ↔ ∃ step, step ∈ steps ∧ c ∈ step.
Proof. rewrite list_elem_of_In, in_concat. by setoid_rewrite list_elem_of_In. Qed.

Lemma natural_call p c : natural p → c ∈ concat (child_steps p) → natural (plan c).
Proof.
  destruct p as [l o steps]. intros [_ _ Hw Ho] (step & Hs & Hc)%in_steps. cbn in *.
  assert (Hin : ∀ f : PlannedCall → list Z, Forall (Z.le 0) (concat (map (λ step, concat (map f step)) steps)) → Forall (Z.le 0) (f c)).
  { intros f Hf. rewrite Forall_concat, Forall_map, Forall_forall in Hf. specialize (Hf step Hs). cbn in Hf.
    rewrite Forall_concat, Forall_map, Forall_forall in Hf. by apply Hf. }
  apply Hin in Hw. apply Hin in Ho. apply Forall_cons in Hw as [? ?]. apply Forall_cons in Ho as [? ?]. by split.
Qed.

Definition cost (p : ExecutionPlan) : Z := local_work_us p + sum_Z (works p) + estimate_overhead_us p + sum_Z (overheads p).

Lemma cost_steps p :
  cost p = (local_work_us p + estimate_overhead_us p + sum_Z (map (λ c, cost (plan c)) (concat (child_steps p))))%Z.
Proof.
  unfold cost at 1. destruct p as [l o steps]. cbn [works overheads local_work_us estimate_overhead_us child_steps].
  rewrite !sum_Z_concat. induction (concat steps) as [|c cs IH]; [cbn; lia|]. cbn [map sum_Z foldr] in *. unfold cost at 1.
  unfold sum_Z in *. cbn in *. lia.
Qed.

Lemma cost_nonneg p : natural p → (0 ≤ cost p)%Z.
Proof. intros [? ? Hw%sum_Z_nonneg Ho%sum_Z_nonneg]. unfold cost. lia. Qed.

Lemma sum_Z_elem {A} (f : A → Z) l x : (∀ y, y ∈ l → 0 ≤ f y)%Z → x ∈ l → (f x ≤ sum_Z (map f l))%Z.
Proof.
  induction l as [|y l IH]; intros Hf; [by intros ?%not_elem_of_nil|]. cbn.
  assert (Hl : (0 ≤ sum_Z (map f l))%Z) by (apply sum_Z_nonneg, Forall_map, Forall_forall; intros z ?; apply Hf; by right).
  assert (Hy := Hf y ltac:(by left)). unfold sum_Z in *. intros [->|Hx]%elem_of_cons; [lia|].
  specialize (IH (λ z Hz, Hf z ltac:(by right)) Hx). lia.
Qed.

Lemma linear_calls l o steps step :
  linear (MkPlan l o steps) = true → step ∈ steps → length step ≤ 1 ∧ ∀ c, c ∈ step → linear (plan c) = true.
Proof.
  cbn [linear]. rewrite forallb_forall. intros H Hs%list_elem_of_In. apply H in Hs as [Hs1 Hs2]%andb_true_iff.
  apply Nat.leb_le in Hs1. split; [done|]. rewrite forallb_forall in Hs2. intros c Hin%list_elem_of_In. by apply Hs2.
Qed.

(** The totals of a linear plan are sums, where they fit. *)
Lemma linear_total p :
  linear p = true → natural p → (cost p ≤ u64_max)%Z →
  estimated_total_work_us p = cost p ∧ actual_total_work_us p = (local_work_us p + sum_Z (works p))%Z.
Proof.
  induction p as [l o steps IH] using plan_induction. intros Hlin Hnat Hfit.
  assert (Hcalls : ∀ c, c ∈ concat steps → natural (plan c)) by (intros c Hc; by apply (natural_call _ c Hnat)).
  assert (Hc := cost_steps (MkPlan l o steps)). cbn [local_work_us estimate_overhead_us child_steps] in Hc.
  assert (Hlen := λ step, linear_calls l o steps step Hlin).
  destruct Hnat as [Hl Ho Hw Hov]. cbn [local_work_us estimate_overhead_us] in *.
  assert (Hsub : ∀ c, c ∈ concat steps → (cost (plan c) ≤ u64_max)%Z).
  { intros c Hin. assert (H := sum_Z_elem (λ c, cost (plan c)) (concat steps) c (λ c Hc, cost_nonneg _ (Hcalls c Hc)) Hin). cbn beta in H. lia. }
  assert (Hrec : ∀ c, c ∈ concat steps → estimated_total_work_us (plan c) = cost (plan c) ∧
    actual_total_work_us (plan c) = (local_work_us (plan c) + sum_Z (works (plan c)))%Z).
  { intros c Hin. specialize (Hsub c Hin) as Hs. specialize (Hcalls c Hin) as Hn. apply in_steps in Hin as (step & Hst & Hin).
    apply (IH step c Hst Hin); [|done|done]. by apply (Hlen step Hst). }
  clear IH Hlin Hsub. assert (Hnn : ∀ c, c ∈ concat steps → (0 ≤ cost (plan c))%Z) by (intros c Hin; apply cost_nonneg, Hcalls, Hin).
  assert (Hact : ∀ c, c ∈ concat steps → (0 ≤ actual_total_work_us (plan c) ≤ cost (plan c))%Z).
  { intros c Hin. destruct (Hrec c Hin) as [_ ->]. destruct (Hcalls c Hin) as [? ? Hw1%sum_Z_nonneg Ho1%sum_Z_nonneg]. unfold cost. lia. }
  assert (Hle : ∀ cs : list PlannedCall, (∀ c, c ∈ cs → 0 ≤ actual_total_work_us (plan c) ≤ cost (plan c))%Z →
    (0 ≤ sum_Z (map (λ c, actual_total_work_us (plan c)) cs) ≤ sum_Z (map (λ c, cost (plan c)) cs))%Z).
  { clear. induction cs as [|c cs IH]; intros H; [done|]. specialize (IH (λ c Hc, H c ltac:(by right))).
    specialize (H c ltac:(by left)). unfold sum_Z in *. cbn in *. lia. }
  specialize (Hle _ Hact). cbn [estimated_total_work_us actual_total_work_us].
  assert (Hest : map (λ c : PlannedCall, estimated_total_work_us (plan c)) (concat steps) = map (λ c, cost (plan c)) (concat steps))
    by (apply map_ext_elem; intros c Hin; by apply Hrec).
  rewrite !linear_steps; try (by apply Hlen); [|intros c Hin; apply Hact, Hin|lia|intros c Hin; destruct (Hrec c Hin) as [-> _]; by apply Hnn|rewrite Hest; lia].
  rewrite Hest. split; [ulia|]. cbn [local_work_us works]. rewrite sum_Z_concat.
  assert (Hacts : map (λ c : PlannedCall, actual_total_work_us (plan c)) (concat steps) =
    map (λ c, sum_Z (local_work_us (plan c) :: works (plan c))) (concat steps)).
  { apply map_ext_elem. intros c Hin. by destruct (Hrec c Hin) as [_ ->]. }
  rewrite Hacts in *. ulia.
Qed.

Lemma cost_call p c : natural p → c ∈ concat (child_steps p) → (cost (plan c) ≤ cost p)%Z.
Proof.
  intros Hn Hc. rewrite (cost_steps p).
  assert (H := sum_Z_elem (λ c, cost (plan c)) (concat (child_steps p)) c (λ c Hc, cost_nonneg _ (natural_call p c Hn Hc)) Hc).
  cbn beta in H. destruct Hn. lia.
Qed.

(** The steps of a linear plan, one after the other, with the work after them. *)
Lemma linear_sequence p :
  linear p = true → natural p → (cost p ≤ u64_max)%Z →
  (sum_Z (map step_work (child_steps p)) + local_work_us p + estimate_overhead_us p = cost p)%Z.
Proof.
  destruct p as [l o steps]. intros Hlin Hnat Hfit. rewrite (cost_steps (MkPlan l o steps)).
  assert (Hcalls : ∀ c, c ∈ concat steps → natural (plan c) ∧ estimated_total_work_us (plan c) = cost (plan c)).
  { intros c Hc. assert (Hn := natural_call _ c Hnat Hc). assert (Hle := cost_call _ c Hnat Hc). split; [done|].
    apply in_steps in Hc as (step & Hs & Hin). apply linear_total; [by apply (linear_calls l o steps step)|done|lia]. }
  destruct (linear_maxima estimated_total_work_us steps) as [_ Heq].
  - intros step Hs. by apply (linear_calls l o steps).
  - intros c Hc. destruct (Hcalls c Hc) as [Hn ->]. by apply cost_nonneg.
  - cbn [child_steps local_work_us estimate_overhead_us].
    assert (Hsw : sum_Z (map step_work steps) = sum_Z (map (λ c, estimated_total_work_us (plan c)) (concat steps))) by exact Heq.
    rewrite Hsw.
    rewrite (map_ext_elem (λ c : PlannedCall, estimated_total_work_us (plan c)) (λ c, cost (plan c))); [lia|].
    intros c Hc. by apply Hcalls.
Qed.

(** What the bare plan determines. *)
Lemma map_map_ext {A B} (f g : A → B) steps :
  (∀ step c, step ∈ steps → c ∈ step → f c = g c) → map (map f) steps = map (map g) steps.
Proof. intros H. apply map_ext_elem. intros step Hs. apply map_ext_elem. intros c Hc. by apply (H step). Qed.

Lemma over_calls_map {A B} (f : A → list B) steps :
  concat (map (λ step, concat (map f step)) steps) = concat (map (λ step, concat step) (map (map f) steps)).
Proof. by rewrite map_map. Qed.

Lemma works_bare p : works (bare p) = works p.
Proof.
  induction p as [l o steps IH] using plan_induction. cbn [bare works]. rewrite !over_calls_map. do 2 f_equal. rewrite map_map.
  apply map_ext_elem. intros step Hs. rewrite map_map. apply map_ext_elem. intros c Hc. cbn [plan]. rewrite (IH step c Hs Hc).
  by destruct (plan c).
Qed.

Lemma forallb_ext_elem {A} (f g : A → bool) l : (∀ x, x ∈ l → f x = g x) → forallb f l = forallb g l.
Proof.
  induction l as [|x l IH]; intros H; [done|]. cbn. rewrite H by left. f_equal. apply IH. intros y ?. apply H. by right.
Qed.

Lemma forallb_map {A B} (f : A → B) (g : B → bool) l : forallb g (map f l) = forallb (λ x, g (f x)) l.
Proof. induction l as [|x l IH]; [done|]. cbn. by rewrite IH. Qed.

Lemma linear_bare p : linear (bare p) = linear p.
Proof.
  induction p as [l o steps IH] using plan_induction. cbn [bare linear]. rewrite forallb_map. apply forallb_ext_elem. intros step Hs.
  rewrite length_map, forallb_map. f_equal. apply forallb_ext_elem. intros c Hc. by apply (IH step).
Qed.

Lemma same_bare p q : bare p = bare q → local_work_us p = local_work_us q ∧ works p = works q ∧ linear p = linear q.
Proof.
  intros H. rewrite <-(works_bare p), <-(works_bare q), <-(linear_bare p), <-(linear_bare q), H. split; [|done].
  destruct p, q. by injection H as ? _.
Qed.

(** ** Hints *)

Definition remaining (local_work : Z) (steps : list (list PlannedCall)) : Z := (foldr attach_step ([], local_work) steps).2.

Lemma attach_cons l step steps :
  attach_hints l (step :: steps) =
    map (λ c, with_hint c (MkHint (estimated_total_work_us (plan c)) (remaining l steps))) step :: attach_hints l steps.
Proof. unfold attach_hints, remaining. cbn [foldr]. by destruct (foldr attach_step ([], l) steps). Qed.

Lemma remaining_cons l step steps : remaining l (step :: steps) = remaining l steps +s step_work step.
Proof. unfold remaining. cbn [foldr]. by destruct (foldr attach_step ([], l) steps). Qed.

Lemma step_work_nonneg step : (0 ≤ step_work step)%Z.
Proof. unfold step_work, max_or_zero. induction (map _ step); cbn; lia. Qed.

Lemma remaining_exact l steps : is_u64 l → remaining l steps = Z.min u64_max (l + sum_Z (map step_work steps)).
Proof.
  intros Hl. induction steps as [|step steps IH]; [unfold remaining; cbn; ulia|]. rewrite remaining_cons, IH. cbn [map].
  assert (H := step_work_nonneg step). assert (Hs : (0 ≤ sum_Z (map step_work steps))%Z).
  { apply sum_Z_nonneg, Forall_map, Forall_forall. intros s _. apply step_work_nonneg. }
  unfold sum_Z in *. cbn. ulia.
Qed.

(** Hints are not read. *)
Lemma attach_same {B} (g : PlannedCall → B) l steps :
  (∀ c h, g (with_hint c h) = g c) → map (map g) (attach_hints l steps) = map (map g) steps.
Proof.
  intros Hg. induction steps as [|step steps IH]; [done|]. rewrite attach_cons. cbn [map]. rewrite IH, map_map. f_equal.
  apply map_ext. intros c. apply Hg.
Qed.

Lemma step_work_map (f : PlannedCall → PlannedCall) step :
  (∀ c, c ∈ step → estimated_total_work_us (plan (f c)) = estimated_total_work_us (plan c)) → step_work (map f step) = step_work step.
Proof. intros H. unfold step_work. rewrite map_map. f_equal. by apply map_ext_elem. Qed.

Lemma attach_works l steps : map step_work (attach_hints l steps) = map step_work steps.
Proof.
  induction steps as [|step steps IH]; [done|]. rewrite attach_cons. cbn [map]. rewrite IH. f_equal. by apply step_work_map.
Qed.

(** A call's hint tells the estimate of its plan, and what the caller estimates to do after the
    step: the later steps one after the other, then its own work. *)
Inductive hints_exact : ExecutionPlan → Prop :=
| HintsExact l o steps :
    (∀ pre step post c, steps = pre ++ step :: post → c ∈ step →
       child_work_us (hint c) = estimated_total_work_us (plan c) ∧
       remaining_after_us (hint c) = Z.min u64_max (l + sum_Z (map step_work post)) ∧ hints_exact (plan c)) →
    hints_exact (MkPlan l o steps).

Lemma attach_exact l o steps :
  is_u64 l → (∀ step c, step ∈ steps → c ∈ step → hints_exact (plan c)) → hints_exact (MkPlan l o (attach_hints l steps)).
Proof.
  intros Hl Hc. constructor. induction steps as [|step steps IH]; intros pre step' post c Heq Hin; [by destruct pre|].
  rewrite attach_cons in Heq. destruct pre as [|s pre]; cbn in Heq; injection Heq as Hs Hrest.
  - subst step' post. apply list_elem_of_In, in_map_iff in Hin as (c' & <- & Hin%list_elem_of_In). cbn.
    rewrite remaining_exact, attach_works by done. split_and!; [done..|]. apply (Hc step); [by left|done].
  - apply (IH (λ s c Hs, Hc s c ltac:(by right)) pre step' post c Hrest Hin).
Qed.

Lemma refresh_same p :
  estimated_total_work_us (refresh_hints p) = estimated_total_work_us p ∧ bare (refresh_hints p) = bare p ∧
  overheads (refresh_hints p) = overheads p ∧ estimate_overhead_us (refresh_hints p) = estimate_overhead_us p.
Proof.
  induction p as [l o steps IH] using plan_induction. cbn [refresh_hints]. set (r := λ c : PlannedCall, with_plan c (refresh_hints (plan c))).
  split_and!; [| | |done].
  - cbn [estimated_total_work_us]. do 3 f_equal. change (map step_work (attach_hints l (map (map r) steps)) = map step_work steps).
    rewrite attach_works, map_map. apply map_ext_elem. intros step Hs. apply step_work_map. intros c Hc. by apply (IH step).
  - cbn [bare]. f_equal. rewrite attach_same by done. rewrite map_map. apply map_ext_elem. intros step Hs. rewrite map_map.
    apply map_ext_elem. intros c Hc. unfold r. cbn. destruct (IH step c Hs Hc) as (_ & -> & _). done.
  - cbn [overheads]. rewrite !over_calls_map, attach_same by done. do 2 f_equal. rewrite map_map. apply map_ext_elem. intros step Hs.
    rewrite map_map. apply map_ext_elem. intros c Hc. unfold r. cbn. by destruct (IH step c Hs Hc) as (_ & _ & -> & ->).
Qed.

Lemma refresh_exact p : Forall is_u64 (local_work_us p :: works p) → hints_exact (refresh_hints p).
Proof.
  induction p as [l o steps IH] using plan_induction. intros [Hl Hw]%Forall_cons. cbn [refresh_hints]. apply attach_exact; [done|].
  intros step' c' Hs Hc. apply list_elem_of_In, in_map_iff in Hs as (step & <- & Hs%list_elem_of_In).
  apply list_elem_of_In, in_map_iff in Hc as (c & <- & Hc%list_elem_of_In). cbn [plan with_plan]. apply (IH step); [done..|].
  cbn [works] in Hw. rewrite Forall_concat, Forall_map, Forall_forall in Hw. specialize (Hw step Hs). cbn in Hw.
  rewrite Forall_concat, Forall_map, Forall_forall in Hw. by apply Hw.
Qed.

(** ** Placing a measured overhead *)

Inductive OnlineOracleOverheadPlacement := LastCall | UniformCalls.

(** The rest of [OnlineOverheadCalibrator::apply], where there is an overhead. *)
Definition place_overhead (placement : OnlineOracleOverheadPlacement) (overhead_us : Z) (p : ExecutionPlan) : ExecutionPlan :=
  refresh_hints
    match placement with
    | LastCall => default p (add_overhead_to_last_call overhead_us p)
    | UniformCalls => add_overhead_uniformly overhead_us p
    end.

Lemma spread_exact per_call r l :
  (0 ≤ per_call)%Z → (0 ≤ r)%Z → Forall (Z.le 0) l → (sum_Z l + per_call * Z.of_nat (length l) + r ≤ u64_max)%Z →
  sum_Z (spread per_call r l) = (sum_Z l + per_call * Z.of_nat (length l) + Z.min r (Z.of_nat (length l)))%Z ∧
  Forall2 (λ x y, y = x + per_call ∨ y = x + per_call + 1)%Z l (spread per_call r l).
Proof.
  intros Hp Hr Hl. revert r Hr. induction Hl as [|x l Hx Hl IH]; intros r Hr Hs; [split; [cbn; lia|constructor]|].
  assert (Hn := sum_Z_nonneg l Hl). cbn [spread length] in *. change (sum_Z (x :: l)) with (x + sum_Z l)%Z in *.
  set (extra := if (0 <? r)%Z then 1%Z else 0%Z) in *.
  assert (He : (0 ≤ extra ≤ 1 ∧ extra ≤ r)%Z ∧ (extra = 0 → r = 0)%Z) by (unfold extra; destruct (Z.ltb_spec 0 r); lia).
  destruct (IH (r - extra)%Z) as [H1 H2]; [lia..|].
  assert (Hx' : (x +s (per_call +s extra) = x + per_call + extra)%Z) by (unfold sat_add; nia).
  rewrite Hx'. split; [|constructor; [lia|done]].
  change (sum_Z (?a :: ?b)) with (a + sum_Z b)%Z. rewrite H1. lia.
Qed.

Lemma uniform_spec o p :
  0 < count_planned_calls p → (0 ≤ o)%Z → Forall (Z.le 0) (overheads p) → (sum_Z (overheads p) + o ≤ u64_max)%Z →
  let q := add_overhead_uniformly o p in
  let share := (o / Z.of_nat (count_planned_calls p))%Z in
  bare q = bare p ∧ estimate_overhead_us q = estimate_overhead_us p ∧
  sum_Z (overheads q) = (sum_Z (overheads p) + o)%Z ∧
  Forall2 (λ x y, y = x + share ∨ y = x + share + 1)%Z (overheads p) (overheads q).
Proof.
  intros Hn Ho Hov Hs q share. unfold add_overhead_uniformly in q. destruct (decide _) as [|_]; [lia|].
  set (n := Z.of_nat (count_planned_calls p)) in *. assert (Hdm := Z.div_mod o n ltac:(lia)). assert (Hm := Z.mod_pos_bound o n ltac:(lia)).
  assert (Hd : (0 ≤ o / n)%Z) by (apply Z.div_pos; lia).
  destruct (uniform_inner (o / n) p (o mod n) ltac:(lia)) as [_ Hq]. fold q in Hq.
  assert (Hlen : Z.of_nat (length (overheads p)) = n) by (unfold n; by rewrite count_overheads).
  destruct (spread_exact (o / n) (o mod n) (overheads p)) as [H1 H2]; [lia..|done|rewrite Hlen; lia|].
  rewrite Hq. split_and!; [apply uniform_bare| |rewrite H1, Hlen; lia|exact H2].
  unfold q. destruct p as [l own steps]. cbn [add_overhead_uniformly_inner]. by destruct (map_state _ _ _).
Qed.

Lemma last_spec o p :
  0 < count_planned_calls p → (0 ≤ o)%Z → Forall (Z.le 0) (overheads p) → (sum_Z (overheads p) + o ≤ u64_max)%Z →
  let q := default p (add_overhead_to_last_call o p) in
  bare q = bare p ∧ estimate_overhead_us q = estimate_overhead_us p ∧ sum_Z (overheads q) = (sum_Z (overheads p) + o)%Z ∧
  ∃ init x, overheads p = init ++ [x] ∧ overheads q = init ++ [(x + o)%Z].
Proof.
  intros Hn Ho Hov Hs q. assert (H := last_call_spec o p). unfold q.
  destruct (add_overhead_to_last_call o p) as [q'|]; cbn [default from_option id].
  - destruct H as ((init & x & Hp & Hq) & ? & ?). rewrite Hp in Hov, Hs. apply Forall_app in Hov as [Hi Hx].
    apply Forall_cons in Hx as [Hx _]. assert (Hi' := sum_Z_nonneg init Hi). rewrite sum_Z_app in Hs. cbn in Hs.
    assert (Hx' : (x +s o = x + o)%Z) by ulia. rewrite Hx' in Hq. split_and!; [done|done| |by exists init, x].
    rewrite Hp, Hq, !sum_Z_app. cbn. lia.
  - rewrite count_overheads, H in Hn. cbn in Hn. lia.
Qed.

Lemma natural_fits p : natural p → (cost p ≤ u64_max)%Z → Forall is_u64 (local_work_us p :: works p).
Proof.
  intros [Hl Ho Hw Hov] Hc. unfold cost in Hc. assert (H1 := sum_Z_nonneg _ Hov). assert (H2 := sum_Z_nonneg _ Hw).
  constructor; [ulia|]. rewrite Forall_forall in *. intros x Hx.
  assert (Hle := sum_Z_elem (λ x, x) (works p) x Hw Hx). rewrite map_id in Hle. specialize (Hw x Hx). ulia.
Qed.

(** Where the overhead goes, [share] to each call where it is spread. *)
Definition placed (placement : OnlineOracleOverheadPlacement) (o share : Z) (l l' : list Z) : Prop :=
  match placement with
  | LastCall => ∃ init x, l = init ++ [x] ∧ l' = init ++ [x + o]%Z
  | UniformCalls => Forall2 (λ x y, y = x + share ∨ y = x + share + 1)%Z l l'
  end.

Lemma placed_natural placement o share l l' :
  (0 ≤ o)%Z → (0 ≤ share)%Z → placed placement o share l l' → Forall (Z.le 0) l → Forall (Z.le 0) l'.
Proof.
  intros Ho Hs. destruct placement; cbn [placed].
  - intros (init & x & -> & ->) [Hi Hx]%Forall_app. apply Forall_cons in Hx as [Hx _]. apply Forall_app. split; [done|].
    constructor; [lia|constructor].
  - induction 1; intros Hl; [constructor|]. apply Forall_cons in Hl as [? ?]. constructor; [lia|auto].
Qed.

(** A plan with the same calls and work, and overheads of another sum. *)
Lemma total_moves p q d :
  bare q = bare p → estimate_overhead_us q = estimate_overhead_us p → sum_Z (overheads q) = (sum_Z (overheads p) + d)%Z →
  Forall (Z.le 0) (overheads q) → linear p = true → natural p → (cost p ≤ u64_max)%Z → (cost p + d ≤ u64_max)%Z →
  estimated_total_work_us q = (estimated_total_work_us p + d)%Z ∧ actual_total_work_us q = actual_total_work_us p ∧
  natural q ∧ (cost q ≤ u64_max)%Z.
Proof.
  intros Hb Ho Hsum Hnn Hlin Hnat Hfit Hfit'. destruct (same_bare q p Hb) as (Hl & Hw & Hlin').
  assert (Hnat' : natural q) by (destruct Hnat; split; [by rewrite Hl|by rewrite Ho|by rewrite Hw|done]).
  assert (Hcost : cost q = (cost p + d)%Z) by (unfold cost; rewrite Hl, Hw, Ho, Hsum; lia).
  destruct (linear_total p Hlin Hnat Hfit) as [-> ->].
  destruct (linear_total q ltac:(by rewrite Hlin') Hnat' ltac:(lia)) as [-> ->].
  rewrite Hcost, Hl, Hw. split_and!; [done..|lia].
Qed.

Lemma placement_spec placement o p :
  0 < count_planned_calls p → (0 ≤ o)%Z → Forall (Z.le 0) (overheads p) → (sum_Z (overheads p) + o ≤ u64_max)%Z →
  let q := match placement with
           | LastCall => default p (add_overhead_to_last_call o p)
           | UniformCalls => add_overhead_uniformly o p
           end in
  bare q = bare p ∧ estimate_overhead_us q = estimate_overhead_us p ∧ sum_Z (overheads q) = (sum_Z (overheads p) + o)%Z ∧
  placed placement o (o / Z.of_nat (count_planned_calls p)) (overheads p) (overheads q).
Proof. intros Hn Ho Hov Hs. destruct placement; [by apply last_spec|by apply uniform_spec]. Qed.

(** C24: An overhead placed on a plan, all on the last call or spread over all calls, adds exactly
    itself to the estimates: the plan is estimated to take that much longer, it does the same
    calls and as much work, evenly spread shares differ by at most one, and every hint tells
    what follows from the new estimates. *)
Theorem overhead_placed_exactly placement o p :
  linear p = true → natural p → (0 ≤ o)%Z → (cost p + o ≤ u64_max)%Z → 0 < count_planned_calls p →
  let q := place_overhead placement o p in
  estimated_total_work_us q = (estimated_total_work_us p + o)%Z ∧ actual_total_work_us q = actual_total_work_us p ∧
  bare q = bare p ∧ hints_exact q ∧
  placed placement o (o / Z.of_nat (count_planned_calls p)) (overheads p) (overheads q).
Proof.
  intros Hlin Hnat Ho Hfit Hn q. destruct (Hnat) as [Hl Hown Hw Hov].
  assert (Hs : (sum_Z (overheads p) + o ≤ u64_max)%Z) by (unfold cost in Hfit; assert (H := sum_Z_nonneg _ Hw); lia).
  assert (Hspec := placement_spec placement o p Hn Ho Hov Hs). unfold q, place_overhead.
  set (r := match placement with LastCall => _ | UniformCalls => _ end) in *. destruct Hspec as (Hb & Ho1 & Hsum & Hpl).
  assert (Hnn : Forall (Z.le 0) (overheads r)) by (eapply placed_natural; [exact Ho| |exact Hpl|done]; apply Z.div_pos; lia).
  destruct (total_moves p r o Hb Ho1 Hsum Hnn Hlin Hnat ltac:(lia) Hfit) as (He & Ha & Hnat1 & Hfit1).
  destruct (refresh_same r) as (He2 & Hb2 & Hov2 & Ho2).
  destruct (total_moves p (refresh_hints r) o) as (_ & Ha2 & _); rewrite ?Hb2, ?Hov2, ?Ho2; try done; [lia|].
  rewrite He2, He, Ha2, Hb. split_and!; [done..|by apply refresh_exact, natural_fits|done].
Qed.

(** Whatever the numbers, the calls and their work stay. *)
Lemma place_bare placement o p : bare (place_overhead placement o p) = bare p.
Proof.
  unfold place_overhead. destruct (refresh_same (match placement with LastCall => default p (add_overhead_to_last_call o p)
    | UniformCalls => add_overhead_uniformly o p end)) as (_ & -> & _). destruct placement.
  - assert (H := last_call_spec o p). destruct (add_overhead_to_last_call o p); [apply H|done].
  - unfold add_overhead_uniformly. destruct (decide _); [done|apply uniform_bare].
Qed.

Lemma attach_bare l o steps : bare (MkPlan l o (attach_hints l steps)) = bare (MkPlan l o steps).
Proof. cbn [bare]. by rewrite attach_same. Qed.

(** A caller that works for 5 after two calls in turn, one of which calls a third. *)
Definition demo_call (name : Z) (p : ExecutionPlan) : PlannedCall := MkPlanned (MkTarget [109%Z] [name]) (MkHint 0 0) p.
Definition demo_plan : ExecutionPlan :=
  MkPlan 5 0 [[demo_call 120 (MkPlan 10 1 [[demo_call 121 (MkPlan 20 0 [])]])]; []; [demo_call 122 (MkPlan 30 2 [])]].

Lemma overhead_placed_exactly_witness :
  let q := place_overhead UniformCalls 8 demo_plan in let r := place_overhead LastCall 8 demo_plan in
  overheads q = [4; 3; 4]%Z ∧ overheads r = [1; 0; 10]%Z ∧
  estimated_total_work_us q = 76%Z ∧ estimated_total_work_us r = 76%Z ∧ hints_exact q.
Proof.
  assert (Hn : natural demo_plan) by (split; [vm_compute; discriminate..|repeat constructor; vm_compute; discriminate|repeat constructor; vm_compute; discriminate]).
  assert (H := λ pl, overhead_placed_exactly pl 8 demo_plan eq_refl Hn ltac:(lia) ltac:(vm_compute; discriminate) ltac:(vm_compute; lia)).
  split; [vm_compute; reflexivity|]. split; [vm_compute; reflexivity|].
  split; [exact (proj1 (H UniformCalls))|]. split; [exact (proj1 (H LastCall))|]. apply (H UniformCalls).
Defined.
