(* ===== verification/Planner.v ===== *)
(** The planner of the synthetic benchmark, apps/synthbench/src/config.rs and oracle.rs: the
    parsing and the validation of a call graph, the drawing of an execution plan for each
    request, and the calibration of the overhead that plans are estimated with. A [HashMap]
    that is iterated is the list of its entries in the order it yields them. *)
From S2P Require Export OraclePlan Float64.
From S2P Require Import Bytes.

(** What the errors of config.rs and oracle.rs say, without the sentence around it. *)
Inductive GraphError :=
| InvalidFormat (s : bytes)
| NoEntryPoint
| InvalidEntryPoint (key : bytes)
| EntryPointTarget (key target : bytes)
| SequenceTarget (service method target : bytes)
| FanoutWidth (width : nat)
| Probability (target : CallTarget) (probability : f64)
| Recursive (key : bytes * bytes)
| MethodNotFound (key : bytes * bytes)
| MissingEntryPoint (entry_point : bytes).

(** Loops that return at the first error. *)
Fixpoint try_each {A E} (f : A → result unit E) (l : list A) : result unit E :=
  match l with [] => Ok tt | x :: l => match f x with Ok _ => try_each f l | Err e => Err e end end.

Fixpoint try_map {A B E} (f : A → result B E) (l : list A) : result (list B) E :=
  match l with
  | [] => Ok []
  | x :: l => match f x with Ok y => result_map (cons y) (try_map f l) | Err e => Err e end
  end.

(** Loops that change a state, of steps that may fail or run out of fuel ([None]). *)
Fixpoint try_fold {A S E} (f : A → S → option (result S E)) (l : list A) (s : S) : option (result S E) :=
  match l with [] => Some (Ok s) | x :: l => match f x s with Some (Ok s) => try_fold f l s | o => o end end.

(** ** config.rs *)

Record ParsedCall := MkCall { call_target : CallTarget; probability : f64 }.

(** [s.split("::")], with 58 the colon. *)
Fixpoint split_colons (s : bytes) : list bytes :=
  match s with
  | [] => [[]]
  | x :: r =>
      let longer := match split_colons r with y :: ys => (x :: y) :: ys | [] => [[x]] end in
      match r with
      | y :: r' => if decide (x = 58 ∧ y = 58)%Z then [] :: split_colons r' else longer
      | [] => longer
      end
  end.

Definition parse_service_method (s : bytes) : result CallTarget GraphError :=
  match split_colons s with
  | [service_id; method_name] => Ok (MkTarget service_id method_name)
  | _ => Err (InvalidFormat s)
  end.

(** [format!("{}::{}", ..)]. *)
Definition target_text (service_id method_name : bytes) : bytes := service_id ++ [58; 58]%Z ++ method_name.

Section planner.
Context {Dist : Type}.

Record ServiceMethod := MkMethod {
  name : bytes;
  latency_distribution : Dist;
  call_sequence_raw : list (list (bytes * f64));
  parsed_call_sequence : list (list ParsedCall);
}.

Record ServiceDefinition := MkService { id : bytes; methods : list ServiceMethod }.

Record CallGraphConfig := MkConfig {
  entry_points : list (bytes * list (list (bytes * f64)));
  parsed_entry_points : list (bytes * list (list ParsedCall));
  services : list ServiceDefinition;
}.

Definition valid_targets (config : CallGraphConfig) : list bytes :=
  concat (map (λ s, map (λ m, target_text (id s) (name m)) (methods s)) (services config)).

Definition check_targets (valid : list bytes) (error : bytes → GraphError) (sequence : list (list (bytes * f64)))
    : result unit GraphError :=
  try_each (try_each (λ call : bytes * f64, if decide (call.1 ∈ valid) then Ok tt else Err (error call.1))) sequence.

(** Only the entry points a (97) and b (98) are allowed. *)
Definition validate_call_graph (config : CallGraphConfig) : result unit GraphError :=
  let valid := valid_targets config in
  if decide (entry_points config = []) then Err NoEntryPoint
  else
    result_and_then (λ _, try_each (λ s, try_each (λ m,
        check_targets valid (SequenceTarget (id s) (name m)) (call_sequence_raw m)) (methods s)) (services config))
      (try_each (λ entry : bytes * _,
        if decide (entry.1 = [97%Z] ∨ entry.1 = [98%Z]) then check_targets valid (EntryPointTarget entry.1) entry.2
        else Err (InvalidEntryPoint entry.1)) (entry_points config)).

Definition parse_sequence (sequence : list (list (bytes * f64))) : result (list (list ParsedCall)) GraphError :=
  try_map (try_map (λ call : bytes * f64, result_map (λ t, MkCall t call.2) (parse_service_method call.1))) sequence.

Definition parse_method (m : ServiceMethod) : result ServiceMethod GraphError :=
  result_map (MkMethod (name m) (latency_distribution m) (call_sequence_raw m)) (parse_sequence (call_sequence_raw m)).

Definition parse_service (s : ServiceDefinition) : result ServiceDefinition GraphError :=
  result_map (MkService (id s)) (try_map parse_method (methods s)).

(** ** oracle.rs: the validation of the graph *)

Notation MethodKey := (bytes * bytes)%type.

Definition from_target (t : CallTarget) : MethodKey := (service_id t, method_name t).

Definition method_entries (config : CallGraphConfig) : list (MethodKey * ServiceMethod) :=
  concat (map (λ s, map (λ m, ((id s, name m), m)) (methods s)) (services config)).

(** A later method of the same name replaces an earlier one. *)
Definition method_map (config : CallGraphConfig) : gmap MethodKey ServiceMethod :=
  foldl (λ ms e, <[e.1 := e.2]> ms) ∅ (method_entries config).

(** [(0.0..=1.0).contains(&p)]. *)
Definition validate_sequence_shape (sequence : list (list ParsedCall)) : result unit GraphError :=
  try_each (λ step,
    if decide (1 < length step) then Err (FanoutWidth (length step))
    else try_each (λ call,
      if f64_le f64_zero (probability call) && f64_le (probability call) f64_one then Ok tt
      else Err (Probability (call_target call) (probability call))) step) sequence.

(** [fuel] bounds the depth of the recursion; the state is [visited] and [visiting]. *)
Fixpoint validate_acyclic (fuel : nat) (ms : gmap MethodKey ServiceMethod) (key : MethodKey)
    (st : gset MethodKey * gset MethodKey) : option (result (gset MethodKey * gset MethodKey) GraphError) :=
  match fuel with
  | O => None
  | S fuel =>
      let '(visited, visiting) := st in
      if decide (key ∈ visited) then Some (Ok (visited, visiting))
      else if decide (key ∈ visiting) then Some (Err (Recursive key))
      else
        match ms !! key with
        | None => Some (Err (MethodNotFound key))
        | Some method =>
            match try_fold (λ step st,
                match head step with
                | Some call => validate_acyclic fuel ms (from_target (call_target call)) st
                | None => Some (Ok st)
                end) (parsed_call_sequence method) (visited, {[key]} ∪ visiting) with
            | Some (Ok (visited, visiting)) => Some (Ok ({[key]} ∪ visited, visiting ∖ {[key]}))
            | o => o
            end
        end
  end.

(** One frame for each method, and the last, which is refused. *)
Definition depth (ms : gmap MethodKey ServiceMethod) : nat := S (size ms).

(** [keys]: the methods in the order the map yields them. *)
Definition validate_supported_call_graph (keys : list MethodKey) (config : CallGraphConfig)
    : option (result unit GraphError) :=
  match try_each (λ e : bytes * _, validate_sequence_shape e.2) (parsed_entry_points config) with
  | Err e => Some (Err e)
  | Ok _ =>
      match try_each (λ e : MethodKey * ServiceMethod, validate_sequence_shape (parsed_call_sequence e.2)) (method_entries config) with
      | Err e => Some (Err e)
      | Ok _ => fmap (result_map (λ _, tt)) (try_fold (validate_acyclic (depth (method_map config)) (method_map config)) keys (∅, ∅))
      end
  end.

(** The order of the keys may depend on the parsed graph. *)
Definition parse_call_sequences (keys : CallGraphConfig → list MethodKey) (config : CallGraphConfig)
    : option (result CallGraphConfig GraphError) :=
  match validate_call_graph config with
  | Err e => Some (Err e)
  | Ok _ =>
      match try_map (λ e : bytes * _, result_map (pair e.1) (parse_sequence e.2)) (entry_points config) with
      | Err e => Some (Err e)
      | Ok parsed =>
          match try_map parse_service (services config) with
          | Err e => Some (Err e)
          | Ok services =>
              let config := MkConfig (entry_points config) parsed services in
              fmap (result_map (λ _, config)) (validate_supported_call_graph (keys config) config)
          end
      end
  end.

(** ** oracle.rs: the overhead that is measured *)

Record OnlineOracleOverheadConfig := MkOnline {
  enabled : bool;
  alpha : f64;
  max_overhead_us : Z;
  placement : OnlineOracleOverheadPlacement;
}.

Record OracleWorkEstimateConfig := MkEstimate {
  default_method_overhead_us : Z;
  service_overheads_us : gmap bytes Z;
  method_overheads_us : gmap bytes Z;
  online_overhead : OnlineOracleOverheadConfig;
}.

Definition overhead_for (self : OracleWorkEstimateConfig) (service_id method_name : bytes) : Z :=
  default_method_overhead_us self +s default 0%Z (service_overheads_us self !! service_id)
    +s default 0%Z (method_overheads_us self !! target_text service_id method_name).

(** The map behind the mutex, which the planner's clones share. *)
Record OnlineOverheadCalibrator := MkCalibrator { config : OnlineOracleOverheadConfig; overheads_us : gmap bytes f64 }.

Definition calibrator_new (config : OnlineOracleOverheadConfig) : OnlineOverheadCalibrator := MkCalibrator config ∅.

Definition current_overhead_us (self : OnlineOverheadCalibrator) (entry_point : bytes) : Z :=
  f64_to_u64 (f64_round (default f64_zero (overheads_us self !! entry_point))).

Definition calibrator_apply (self : OnlineOverheadCalibrator) (entry_point : bytes) (p : ExecutionPlan) : ExecutionPlan :=
  if enabled (config self) then
    let overhead_us := current_overhead_us self entry_point in
    if decide (overhead_us = 0)%Z then p else place_overhead (placement (config self)) overhead_us p
  else p.

Definition calibrator_record (self : OnlineOverheadCalibrator) (entry_point : bytes) (observed_overhead_us : Z)
    : OnlineOverheadCalibrator :=
  if enabled (config self) then
    let sample := if decide (0 < max_overhead_us (config self))%Z
                  then Z.min observed_overhead_us (max_overhead_us (config self)) else observed_overhead_us in
    let alpha := f64_clamp (alpha (config self)) f64_zero f64_one in
    if SFeqb alpha f64_zero then self
    else
      let next := match overheads_us self !! entry_point with
                  | Some current => f64_add current (f64_mul alpha (f64_sub (f64_of_Z sample) current))
                  | None => f64_of_Z sample
                  end in
      MkCalibrator (config self) (<[entry_point := next]> (overheads_us self))
  else self.

(** ** oracle.rs: the planner *)

Record OraclePlanner := MkPlanner {
  planner_entry_points : list (bytes * list (list ParsedCall));
  planner_methods : gmap MethodKey ServiceMethod;
  estimate : OracleWorkEstimateConfig;
  calibrator : OnlineOverheadCalibrator;
}.

Definition planner_new (keys : list MethodKey) (config : CallGraphConfig) (estimate : OracleWorkEstimateConfig)
    : option (result OraclePlanner GraphError) :=
  fmap (result_map (λ _, MkPlanner (parsed_entry_points config) (method_map config) estimate
                           (calibrator_new (online_overhead estimate))))
    (validate_supported_call_graph keys config).

(** The thread's random generator: [gen::<f64>()] and a draw of a latency distribution. *)
Context {Rng : Type} (gen_f64 : Rng → f64 * Rng) (sample : Dist → Rng → Z * Rng).

Definition should_make_call (probability : f64) (rng : Rng) : bool * Rng :=
  let '(u, rng) := gen_f64 rng in (f64_lt u probability, rng).

(** The loop of [plan_sequence], with the recursion as an argument; the state is [visiting]
    and the generator. *)
Fixpoint plan_steps (plan_method : MethodKey → gset MethodKey * Rng → option (result (ExecutionPlan * (gset MethodKey * Rng)) GraphError))
    (sequence : list (list ParsedCall)) (st : gset MethodKey * Rng)
    : option (result (list (list PlannedCall) * (gset MethodKey * Rng)) GraphError) :=
  match sequence with
  | [] => Some (Ok ([], st))
  | step :: sequence =>
      let planned :=
        match head step with
        | Some call =>
            let '(made, rng) := should_make_call (probability call) st.2 in
            if made : bool then
              fmap (result_map (λ r : ExecutionPlan * (gset MethodKey * Rng), ([MkPlanned (call_target call) (MkHint 0 0) r.1], r.2)))
                (plan_method (from_target (call_target call)) (st.1, rng))
            else Some (Ok ([], (st.1, rng)))
        | None => Some (Ok ([], st))
        end in
      match planned with
      | Some (Ok (planned_step, st)) => fmap (result_map (λ r, (planned_step :: r.1, r.2))) (plan_steps plan_method sequence st)
      | Some (Err e) => Some (Err e)
      | None => None
      end
  end.

(** [plan_sequence], with the overhead that [plan_method] sets on its result. *)
Definition plan_sequence (plan_method : MethodKey → gset MethodKey * Rng → option (result (ExecutionPlan * (gset MethodKey * Rng)) GraphError))
    (sequence : list (list ParsedCall)) (local_work_us overhead : Z) (st : gset MethodKey * Rng)
    : option (result (ExecutionPlan * (gset MethodKey * Rng)) GraphError) :=
  fmap (result_map (λ r, (MkPlan local_work_us overhead (attach_hints local_work_us r.1), r.2)))
    (plan_steps plan_method sequence st).

Fixpoint plan_method (fuel : nat) (self : OraclePlanner) (key : MethodKey) (st : gset MethodKey * Rng)
    : option (result (ExecutionPlan * (gset MethodKey * Rng)) GraphError) :=
  match fuel with
  | O => None
  | S fuel =>
      let '(visiting, rng) := st in
      if decide (key ∈ visiting) then Some (Err (Recursive key))
      else
        match planner_methods self !! key with
        | None => Some (Err (MethodNotFound key))
        | Some method =>
            let '(local_work_us, rng) := sample (latency_distribution method) rng in
            fmap (result_map (λ r, (r.1, (r.2.1 ∖ {[key]}, r.2.2))))
              (plan_sequence (plan_method fuel self) (parsed_call_sequence method) local_work_us
                (overhead_for (estimate self) key.1 key.2) ({[key]} ∪ visiting, rng))
        end
  end.

Definition plan_entry_point (self : OraclePlanner) (entry_point : bytes) (rng : Rng)
    : option (result (ExecutionPlan * Rng) GraphError) :=
  match find_map (λ e : bytes * _, if decide (e.1 = entry_point) then Some e.2 else None) (planner_entry_points self) with
  | None => Some (Err (MissingEntryPoint entry_point))
  | Some sequence =>
      fmap (result_map (λ r, (calibrator_apply (calibrator self) entry_point r.1, r.2.2)))
        (plan_sequence (plan_method (depth (planner_methods self)) self) sequence 0 0 (∅, rng))
  end.

Definition record_entry_point_latency (self : OraclePlanner) (entry_point : bytes) (observed_latency_us : Z) (p : ExecutionPlan)
    : OraclePlanner :=
  MkPlanner (planner_entry_points self) (planner_methods self) (estimate self)
    (calibrator_record (calibrator self) entry_point (observed_latency_us -s actual_total_work_us p)).

(** ** The search finds the cycles and the calls to nowhere *)

Section graph.
Variable ms : gmap MethodKey ServiceMethod.

(** The calls that are followed: the first of each step. *)
Definition edge (k k' : MethodKey) : Prop :=
  ∃ m step call, ms !! k = Some m ∧ step ∈ parsed_call_sequence m ∧ head step = Some call ∧ k' = from_target (call_target call).

Definition calls_defined : Prop := ∀ k k', edge k k' → is_Some (ms !! k').
Definition acyclic : Prop := ∀ k, ¬ tc edge k k.

Lemma Acc_no_cycle k : Acc (flip edge) k → ¬ tc edge k k.
Proof.
  induction 1 as [k _ IH]. intros Htc.
  inversion Htc as [? ? He|? k' ? He Hrest]; subst; [by apply (IH k)|].
  apply (IH k' He). eapply tc_r; [exact Hrest|exact He].
Qed.

(** What is visited has been searched. *)
Definition searched (visited : gset MethodKey) : Prop :=
  ∀ k, k ∈ visited → is_Some (ms !! k) ∧ (∀ k', edge k k' → k' ∈ visited) ∧ Acc (flip edge) k.

Lemma try_fold_inv {A S} (P : S → Prop) (f : A → S → option (result S GraphError)) l s s' :
  (∀ x s s', x ∈ l → P s → f x s = Some (Ok s') → P s') → P s → try_fold f l s = Some (Ok s') → P s'.
Proof.
  revert s. induction l as [|x l IH]; intros s Hf Hs; cbn; [by intros [= <-]|].
  destruct (f x s) as [[s1|e]|] eqn:Hx; [|done..]. apply IH; [intros y s2 s3 ?; apply Hf; by right|]. by eapply Hf; [left| |].
Qed.

Lemma search_sound fuel key st st' :
  validate_acyclic fuel ms key st = Some (Ok st') → searched st.1 → searched st'.1 ∧ st.1 ⊆ st'.1 ∧ key ∈ st'.1.
Proof.
  revert key st st'. induction fuel as [|fuel IH]; intros key [visited visiting] st'; [done|]. cbn [validate_acyclic fst].
  destruct (decide (key ∈ visited)) as [Hv|Hv]; [by intros [= <-] ?|]. destruct (decide (key ∈ visiting)); [done|].
  destruct (ms !! key) as [m|] eqn:Hm; [|done]. set (f := λ (step : list ParsedCall) st, _).
  destruct (try_fold f (parsed_call_sequence m) (visited, {[key]} ∪ visiting)) as [[[visited1 visiting1]|]|] eqn:Hf; [|done..].
  intros [= <-] Hs. cbn [fst].
  assert (Hall : searched visited1 ∧ visited ⊆ visited1 ∧
    ∀ step call, step ∈ parsed_call_sequence m → head step = Some call → from_target (call_target call) ∈ visited1).
  { clear Hm. revert Hf Hs. generalize ({[key]} ∪ visiting) as w. clear Hv n. revert visited.
    induction (parsed_call_sequence m) as [|step l IHl]; intros visited w Hf Hs; cbn in Hf.
    - injection Hf as <- <-. split_and!; [done|done|]. by intros step call ?%not_elem_of_nil.
    - destruct (f step (visited, w)) as [[[v2 w2]|]|] eqn:Hstep; [|done..].
      assert (H2 : searched v2 ∧ visited ⊆ v2 ∧ ∀ call, head step = Some call → from_target (call_target call) ∈ v2).
      { unfold f in Hstep. destruct (head step) as [call|]; [|by injection Hstep as <- <-].
        apply IH in Hstep; [|done]. cbn in Hstep. destruct Hstep as (? & ? & ?). split_and!; [done..|]. by intros ? [= <-]. }
      destruct H2 as (Hs2 & Hsub & Hin). destruct (IHl v2 w2 Hf Hs2) as (H3 & H4 & H5). split_and!; [done|set_solver|].
      intros step' call [->|Hl]%elem_of_cons Hh; [by apply H4, Hin|by eapply H5]. }
  destruct Hall as (Hs1 & Hsub & Hch).
  assert (Hedge : ∀ k', edge key k' → k' ∈ visited1).
  { intros k' (m' & step & call & Hm' & Hst & Hh & ->). rewrite Hm in Hm'. injection Hm' as <-. by eapply Hch. }
  split_and!; [|set_solver|set_solver]. intros k [->%elem_of_singleton|Hk]%elem_of_union.
  - split_and!; [by eexists|intros k' ?%Hedge; set_solver|]. constructor. intros k' Hk'. by apply Hs1, Hedge.
  - destruct (Hs1 k Hk) as (? & Hout & ?). split_and!; [done|intros k' ?%Hout; set_solver|done].
Qed.

(** The methods being searched lead to the next one, so that it is not among them. *)
Record path_to (visiting : gset MethodKey) (key : MethodKey) (fuel : nat) : Prop := {
  path_leads v : v ∈ visiting → tc edge v key;
  path_known : visiting ⊆ dom ms;
  path_fuel : size ms < fuel + size visiting;
}.

Lemma path_new visiting key fuel : acyclic → path_to visiting key fuel → key ∉ visiting.
Proof. intros Hac [Hl _ _] Hin. by apply (Hac key), Hl. Qed.

Lemma path_fuel_left visiting key fuel : path_to visiting key fuel → fuel ≠ 0.
Proof.
  intros [_ Hk Hf] ->. assert (H := subseteq_size _ _ Hk). rewrite size_dom in H. lia.
Qed.

Lemma path_extend visiting key key' fuel :
  key ∉ visiting → is_Some (ms !! key) → path_to visiting key (S fuel) → edge key key' →
  path_to ({[key]} ∪ visiting) key' fuel.
Proof.
  intros Hn Hk [Hl Hd Hf] He. split.
  - intros v [->%elem_of_singleton|Hv]%elem_of_union; [by constructor|]. eapply tc_r; [by apply Hl|done].
  - intros v [->%elem_of_singleton|Hv]%elem_of_union; [by apply elem_of_dom|by apply Hd].
  - rewrite size_union by set_solver. rewrite size_singleton. lia.
Qed.

Lemma restore_visiting (key : MethodKey) (visiting : gset MethodKey) : key ∉ visiting → ({[key]} ∪ visiting) ∖ {[key]} = visiting.
Proof. intros. apply set_eq. set_solver. Qed.

Lemma search_complete fuel key visited visiting :
  calls_defined → acyclic → is_Some (ms !! key) → path_to visiting key fuel →
  ∃ visited', validate_acyclic fuel ms key (visited, visiting) = Some (Ok (visited', visiting)).
Proof.
  intros Hcd Hac. revert key visited visiting. induction fuel as [|fuel IH]; intros key visited visiting Hk Hp.
  { by apply path_fuel_left in Hp. }
  cbn [validate_acyclic]. assert (Hn := path_new _ _ _ Hac Hp). destruct (decide (key ∈ visited)); [by eexists|].
  destruct (decide (key ∈ visiting)); [done|]. destruct Hk as [m Hm]. rewrite Hm. set (f := λ (step : list ParsedCall) st, _).
  assert (Hf : ∀ l visited, (∀ step, step ∈ l → step ∈ parsed_call_sequence m) →
    ∃ visited', try_fold f l (visited, {[key]} ∪ visiting) = Some (Ok (visited', {[key]} ∪ visiting))).
  { induction l as [|step l IHl]; intros v Hl; cbn; [by eexists|].
    assert (Hst : ∃ v', f step (v, {[key]} ∪ visiting) = Some (Ok (v', {[key]} ∪ visiting))).
    { unfold f. destruct (head step) as [call|] eqn:Hh; [|by eexists].
      assert (He : edge key (from_target (call_target call))) by (exists m, step, call; split_and!; [done|apply Hl; left|done..]).
      apply IH; [by apply (Hcd key)|]. by apply (path_extend visiting key); [|eexists| |]. }
    destruct Hst as [v' ->]. apply IHl. intros s ?. apply Hl. by right. }
  destruct (Hf (parsed_call_sequence m) visited ltac:(done)) as [v' ->]. rewrite restore_visiting by done. by eexists.
Qed.

(** Searching all methods, in any order. *)
Lemma search_all keys :
  (∀ k, k ∈ keys ↔ k ∈ dom ms) →
  (∃ st, try_fold (validate_acyclic (depth ms) ms) keys (∅, ∅) = Some (Ok st)) ↔ calls_defined ∧ acyclic.
Proof.
  intros Hkeys. split.
  - intros [[visited visiting] Hst].
    assert (Hall : ∀ l st st', try_fold (validate_acyclic (depth ms) ms) l st = Some (Ok st') → searched st.1 →
      searched st'.1 ∧ st.1 ⊆ st'.1 ∧ ∀ k, k ∈ l → k ∈ st'.1).
    { induction l as [|k l IH]; intros st st' Hf Hs; cbn [try_fold] in Hf; [injection Hf as <-; split_and!; [done|done|by intros k ?%not_elem_of_nil]|].
      destruct (validate_acyclic (depth ms) ms k st) as [[st2|]|] eqn:Hk; [|done..].
      destruct (search_sound _ _ _ _ Hk Hs) as (H1 & H2 & H3). destruct (IH st2 st' Hf H1) as (H4 & H5 & H6).
      split_and!; [done|set_solver|]. intros k' [->|?]%elem_of_cons; [by apply H5|by apply H6]. }
    destruct (Hall _ _ _ Hst) as (Hs & _ & Hin); [by intros k ?|]. cbn in *.
    assert (Hdom : ∀ k, k ∈ dom ms → k ∈ visited) by (intros k Hk; by apply Hin, Hkeys).
    split.
    + intros k k' He. assert (Hk : k ∈ dom ms) by (destruct He as (m & _ & _ & Hm & _); by apply elem_of_dom).
      destruct (Hs k (Hdom k Hk)) as (_ & Hout & _). apply Hs. by apply Hout.
    + intros k Htc. assert (Hk : k ∈ dom ms).
      { inversion Htc as [? ? (m & ? & ? & Hm & _)|? ? ? (m & ? & ? & Hm & _)]; subst; by apply elem_of_dom. }
      destruct (Hs k (Hdom k Hk)) as (_ & _ & Hacc). by apply (Acc_no_cycle k Hacc).
  - intros [Hcd Hac]. assert (Hall : ∀ l visited, (∀ k, k ∈ l → k ∈ dom ms) →
      ∃ st, try_fold (validate_acyclic (depth ms) ms) l (visited, ∅) = Some (Ok st)).
    { induction l as [|k l IH]; intros visited Hl; cbn [try_fold]; [by eexists|].
      destruct (search_complete (depth ms) k visited ∅ Hcd Hac) as [v ->].
      - apply elem_of_dom, Hl. left.
      - split; [intros v Hv; by apply not_elem_of_empty in Hv|apply empty_subseteq|rewrite size_empty; unfold depth; lia].
      - apply IH. intros k' ?. apply Hl. by right. }
    apply Hall. intros k. by apply Hkeys.
Qed.
End graph.

(** The search ends, whatever the graph. *)
Lemma search_total ms fuel key visited visiting :
  visiting ⊆ dom ms → size ms < fuel + size visiting →
  match validate_acyclic fuel ms key (visited, visiting) with
  | Some (Ok st) => st.2 = visiting
  | Some (Err _) => True
  | None => False
  end.
Proof.
  revert key visited visiting. induction fuel as [|fuel IH]; intros key visited visiting Hd Hf.
  { assert (H := subseteq_size _ _ Hd). rewrite size_dom in H. lia. }
  cbn [validate_acyclic]. destruct (decide (key ∈ visited)); [done|]. destruct (decide (key ∈ visiting)) as [|Hn]; [done|].
  destruct (ms !! key) as [m|] eqn:Hm; [|done]. set (f := λ (step : list ParsedCall) st, _).
  assert (Hd' : {[key]} ∪ visiting ⊆ dom ms).
  { intros v [->%elem_of_singleton|Hv]%elem_of_union; [by apply elem_of_dom|by apply Hd]. }
  assert (Hf' : size ms < fuel + size ({[key]} ∪ visiting)).
  { rewrite size_union by set_solver. rewrite size_singleton. lia. }
  assert (Hl : ∀ l visited, match try_fold f l (visited, {[key]} ∪ visiting) with
    | Some (Ok st) => st.2 = {[key]} ∪ visiting | Some (Err _) => True | None => False end).
  { clear Hm. induction l as [|step l IHl]; intros v; cbn [try_fold]; [done|].
    assert (Hst : match f step (v, {[key]} ∪ visiting) with
      | Some (Ok st) => st.2 = {[key]} ∪ visiting | Some (Err _) => True | None => False end).
    { unfold f. destruct (head step) as [call|]; [|done]. by apply IH. }
    destruct (f step (v, {[key]} ∪ visiting)) as [[[v2 w2]|]|]; [|done..]. cbn in Hst. subst w2. apply IHl. }
  specialize (Hl (parsed_call_sequence m) visited).
  destruct (try_fold f (parsed_call_sequence m) (visited, {[key]} ∪ visiting)) as [[[v2 w2]|]|]; [|done..].
  cbn in *. subst w2. by apply restore_visiting.
Qed.

Lemma try_each_spec {A E} (f : A → result unit E) l : try_each f l = Ok tt ↔ ∀ x, x ∈ l → f x = Ok tt.
Proof.
  induction l as [|x l IH]; cbn [try_each].
  - split; [by intros _ x ?%not_elem_of_nil|done].
  - destruct (f x) as [[]|e] eqn:Hx.
    + rewrite IH. split; [by intros H y [->|Hy]%elem_of_cons; [|apply H]|intros H y Hy; apply H; by right].
    + split; [done|]. intros H. specialize (H x ltac:(by left)). congruence.
Qed.

(** Steps of at most one call, with a probability. *)
Definition shaped (sequence : list (list ParsedCall)) : Prop :=
  ∀ step, step ∈ sequence → length step ≤ 1 ∧
    ∀ call, call ∈ step → f64_le f64_zero (probability call) = true ∧ f64_le (probability call) f64_one = true.

Lemma shape_spec sequence : validate_sequence_shape sequence = Ok tt ↔ shaped sequence.
Proof.
  unfold validate_sequence_shape. rewrite try_each_spec. apply forall_proper. intros step. apply forall_proper. intros _.
  destruct (decide (1 < length step)) as [Hl|Hl]; [split; [done|lia]|]. rewrite try_each_spec. split.
  - intros H. split; [lia|]. intros call Hc. specialize (H call Hc). destruct (f64_le f64_zero _), (f64_le _ f64_one); done.
  - intros [_ H] call Hc. by destruct (H call Hc) as [-> ->].
Qed.

Definition shapes_ok (config : CallGraphConfig) : Prop :=
  (∀ e, e ∈ parsed_entry_points config → shaped e.2) ∧ (∀ e, e ∈ method_entries config → shaped (parsed_call_sequence e.2)).

(** C22: The validation of a call graph ends, and it passes exactly the graphs whose steps have at most
    one call with a probability, in which every call that can be followed is of a method that
    exists, and in which no method calls itself, over however many others; the order in which
    the map yields its methods does not matter. *)
Theorem validation_exact keys config :
  (∀ k, k ∈ keys ↔ k ∈ dom (method_map config)) →
  let r := validate_supported_call_graph keys config in
  r ≠ None ∧ (r = Some (Ok tt) ↔ shapes_ok config ∧ calls_defined (method_map config) ∧ acyclic (method_map config)).
Proof.
  intros Hkeys r. unfold r, validate_supported_call_graph. assert (Hall := search_all (method_map config) keys Hkeys).
  assert (Htot : ∀ l visited, try_fold (validate_acyclic (depth (method_map config)) (method_map config)) l (visited, ∅) ≠ None).
  { induction l as [|k l IH]; intros visited; cbn [try_fold]; [done|].
    assert (H := search_total (method_map config) (depth (method_map config)) k visited ∅ (empty_subseteq _)).
    rewrite size_empty in H. specialize (H ltac:(unfold depth; lia)).
    destruct (validate_acyclic _ _ k (visited, ∅)) as [[[v w]|]|]; [|done..]. cbn in H. subst w. apply IH. }
  specialize (Htot keys ∅). unfold shapes_ok.
  assert (He : try_each (λ e : bytes * _, validate_sequence_shape e.2) (parsed_entry_points config) = Ok tt ↔
    ∀ e, e ∈ parsed_entry_points config → shaped e.2).
  { rewrite try_each_spec. apply forall_proper. intros e. apply forall_proper. intros _. apply shape_spec. }
  assert (Hm : try_each (λ e : MethodKey * ServiceMethod, validate_sequence_shape (parsed_call_sequence e.2)) (method_entries config) = Ok tt ↔
    ∀ e, e ∈ method_entries config → shaped (parsed_call_sequence e.2)).
  { rewrite try_each_spec. apply forall_proper. intros e. apply forall_proper. intros _. apply shape_spec. }
  destruct (try_each _ (parsed_entry_points config)) as [[]|e]; [|split; [done|]; split; [done|intros [[H _] _]; by apply He in H]].
  destruct (try_each _ (method_entries config)) as [[]|e]; [|split; [done|]; split; [done|intros [[_ H] _]; by apply Hm in H]].
  rewrite <-He, <-Hm. destruct (try_fold _ keys (∅, ∅)) as [[st|e]|] eqn:Hf; cbn [fmap option_fmap option_map result_map].
  - split; [done|]. split; [|done]. intros _. split; [done|]. apply Hall. by eexists.
  - split; [done|]. split; [done|]. intros [_ H%Hall]. by destruct H.
  - done.
Qed.

(** ** Every request gets a plan *)

(** What the planner makes: at most one call in a step, exact hints, and [u64]s. *)
Record well_planned (p : ExecutionPlan) : Prop := {
  planned_linear : linear p = true;
  planned_hints : hints_exact p;
  planned_works : Forall is_u64 (local_work_us p :: works p);
}.

Definition planned_steps (steps : list (list PlannedCall)) : Prop :=
  ∀ step, step ∈ steps → length step ≤ 1 ∧ ∀ c, c ∈ step → well_planned (plan c).

Lemma attach_planned l o steps : is_u64 l → planned_steps steps → well_planned (MkPlan l o (attach_hints l steps)).
Proof.
  intros Hl Hs. destruct (same_bare _ _ (attach_bare l o steps)) as (_ & Hw & Hlin). split.
  - rewrite Hlin. cbn [linear]. apply forallb_forall. intros step Hst%list_elem_of_In. destruct (Hs step Hst) as [Hlen Hc].
    apply andb_true_iff. split; [by apply Nat.leb_le|]. apply forallb_forall. intros c Hin%list_elem_of_In. by apply Hc.
  - apply attach_exact; [done|]. intros step c Hst Hc. by apply (Hs step Hst).
  - rewrite Hw. constructor; [done|]. cbn [works]. rewrite Forall_concat, Forall_map, Forall_forall. intros step Hst.
    rewrite Forall_concat, Forall_map, Forall_forall. intros c Hc. by apply (Hs step Hst).
Qed.

Lemma apply_planned self entry_point p : well_planned p → well_planned (calibrator_apply self entry_point p).
Proof.
  intros Hp. unfold calibrator_apply. destruct (enabled _); [|done]. destruct (decide _); [done|]. destruct Hp as [Hl Hh Hw].
  set (o := current_overhead_us self entry_point). set (pl := placement (config self)).
  destruct (same_bare _ _ (place_bare pl o p)) as (H1 & H2 & H3).
  split; [by rewrite H3| |by rewrite H1, H2]. unfold place_overhead in *. set (q := match pl with LastCall => _ | UniformCalls => _ end) in *.
  apply refresh_exact. destruct (refresh_same q) as (_ & Hb & _). destruct (same_bare _ _ Hb) as (H4 & H5 & _).
  by rewrite <-H4, <-H5, H1, H2.
Qed.

Section plans.
Context (sample_u64 : ∀ d rng, is_u64 (sample d rng).1).

(** Each call that is drawn is planned or fails with an error of [E]: so does the sequence. *)
Lemma plan_steps_outcome (rec : MethodKey → gset MethodKey * Rng → option (result (ExecutionPlan * (gset MethodKey * Rng)) GraphError))
    (E : GraphError → Prop) visiting sequence rng :
  (∀ step call rng, step ∈ sequence → head step = Some call →
     (∃ p rng', rec (from_target (call_target call)) (visiting, rng) = Some (Ok (p, (visiting, rng'))) ∧ well_planned p) ∨
     (∃ e, rec (from_target (call_target call)) (visiting, rng) = Some (Err e) ∧ E e)) →
  (∃ steps rng', plan_steps rec sequence (visiting, rng) = Some (Ok (steps, (visiting, rng'))) ∧ planned_steps steps) ∨
  (∃ e, plan_steps rec sequence (visiting, rng) = Some (Err e) ∧ E e).
Proof.
  revert rng. induction sequence as [|step sequence IH]; intros rng Hrec; cbn [plan_steps].
  { left. exists [], rng. split; [done|]. by intros step ?%not_elem_of_nil. }
  assert (Hcons : ∀ planned rng1, length planned ≤ 1 → (∀ c, c ∈ planned → well_planned (plan c)) →
    let o := fmap (result_map (λ r : list (list PlannedCall) * (gset MethodKey * Rng), (planned :: r.1, r.2)))
               (plan_steps rec sequence (visiting, rng1)) in
    (∃ steps rng', o = Some (Ok (steps, (visiting, rng'))) ∧ planned_steps steps) ∨ (∃ e, o = Some (Err e) ∧ E e)).
  { intros planned rng1 Hl Hp. destruct (IH rng1) as [(steps & rng' & -> & Hs)|(e & -> & He)];
      [intros s c r ?; apply Hrec; by right| |right; by exists e].
    left. exists (planned :: steps), rng'. split; [done|]. intros s [->|?]%elem_of_cons; [by split|by apply Hs]. }
  destruct (head step) as [call|] eqn:Hh; [|apply (Hcons []); [cbn; lia|by intros c ?%not_elem_of_nil]]. cbn [fst snd].
  destruct (should_make_call (probability call) rng) as [[] rng1];
    [|apply (Hcons []); [cbn; lia|by intros c ?%not_elem_of_nil]].
  destruct (Hrec step call rng1 ltac:(by left) Hh) as [(p & rng2 & -> & Hp)|(e & -> & He)]; [|right; by exists e].
  apply (Hcons [_]); [done|]. by intros c ->%list_elem_of_singleton.
Qed.

Lemma plan_steps_made (rec : MethodKey → gset MethodKey * Rng → option (result (ExecutionPlan * (gset MethodKey * Rng)) GraphError))
    visiting sequence rng :
  (∀ step call rng, step ∈ sequence → head step = Some call →
     ∃ p rng', rec (from_target (call_target call)) (visiting, rng) = Some (Ok (p, (visiting, rng'))) ∧ well_planned p) →
  ∃ steps rng', plan_steps rec sequence (visiting, rng) = Some (Ok (steps, (visiting, rng'))) ∧ planned_steps steps.
Proof.
  intros Hrec. destruct (plan_steps_outcome rec (λ _, False) visiting sequence rng) as [H|(e & _ & [])]; [|done].
  intros step call r Hin Hh. left. by apply (Hrec step).
Qed.

Lemma plan_method_made self fuel key visiting rng :
  let ms := planner_methods self in
  calls_defined ms → acyclic ms → is_Some (ms !! key) → path_to ms visiting key fuel →
  ∃ p rng', plan_method fuel self key (visiting, rng) = Some (Ok (p, (visiting, rng'))) ∧ well_planned p.
Proof.
  intros ms Hcd Hac. revert key visiting rng. induction fuel as [|fuel IH]; intros key visiting rng Hk Hp.
  { by apply path_fuel_left in Hp. }
  cbn [plan_method]. assert (Hn := path_new _ _ _ _ Hac Hp). destruct (decide (key ∈ visiting)); [done|].
  fold ms. destruct Hk as [m Hm]. rewrite Hm. assert (Hu := sample_u64 (latency_distribution m) rng).
  destruct (sample (latency_distribution m) rng) as [l rng1]. cbn [fst] in Hu.
  destruct (plan_steps_made (plan_method fuel self) ({[key]} ∪ visiting) (parsed_call_sequence m) rng1) as (steps & rng2 & Hst & Hs).
  { intros step call r Hin Hh. assert (He : edge ms key (from_target (call_target call))) by by exists m, step, call.
    apply IH; [by apply (Hcd key)|]. by apply (path_extend ms visiting key); [|eexists| |]. }
  unfold plan_sequence. rewrite Hst. cbn [fmap option_fmap option_map result_map fst snd]. rewrite restore_visiting by done.
  eexists _, rng2. split; [done|]. by apply attach_planned.
Qed.
End plans.

Lemma try_map_spec {A B E} (f : A → result B E) l l' : try_map f l = Ok l' → Forall2 (λ x y, f x = Ok y) l l'.
Proof.
  revert l'. induction l as [|x l IH]; intros l'; cbn [try_map]; [by intros [= <-]|].
  destruct (f x) as [y|e] eqn:Hx; [|done]. destruct (try_map f l) as [ys|e]; [|done]. cbn. intros [= <-]. constructor; [done|by apply IH].
Qed.

(** Names without colons. *)
Definition plain (s : bytes) : Prop := (58 ∉ s)%Z.

Lemma split_cons x r :
  (x ≠ 58)%Z → split_colons (x :: r) = match split_colons r with y :: ys => (x :: y) :: ys | [] => [[x]] end.
Proof. intros Hx. cbn [split_colons]. destruct r as [|y r]; [done|]. by rewrite decide_False by (by intros [??]). Qed.

Lemma split_plain s t : plain s → split_colons (s ++ [58; 58]%Z ++ t) = s :: split_colons t.
Proof.
  induction s as [|x s IH]; intros Hs; [done|]. apply not_elem_of_cons in Hs as [Hx Hs].
  change ((x :: s) ++ [58; 58]%Z ++ t) with (x :: (s ++ [58; 58]%Z ++ t)). by rewrite split_cons, IH.
Qed.

Lemma split_one s : plain s → split_colons s = [s].
Proof.
  induction s as [|x s IH]; intros Hs; [done|]. apply not_elem_of_cons in Hs as [Hx Hs]. by rewrite split_cons, IH.
Qed.

Lemma parse_text s t : plain s → plain t → parse_service_method (target_text s t) = Ok (MkTarget s t).
Proof. intros Hs Ht. unfold parse_service_method, target_text. by rewrite split_plain, split_one. Qed.

Definition plain_config (config : CallGraphConfig) : Prop :=
  ∀ s m, s ∈ services config → m ∈ methods s → plain (id s) ∧ plain (name m).

Lemma method_map_dom config k : k ∈ dom (method_map config) ↔ ∃ m, (k, m) ∈ method_entries config.
Proof.
  unfold method_map. assert (H : ∀ l (ms : gmap MethodKey ServiceMethod),
    k ∈ dom (foldl (λ ms e, <[e.1 := e.2]> ms) ms l) ↔ k ∈ dom ms ∨ ∃ m, (k, m) ∈ l).
  { induction l as [|[k' m'] l IH]; intros ms; cbn [foldl].
    - split; [by left|]. intros [?|[m Hm]]; [done|by apply not_elem_of_nil in Hm].
    - rewrite IH. cbn. rewrite dom_insert, elem_of_union, elem_of_singleton. split.
      + intros [[->|?]|[m Hm]]; [right; exists m'; by left|by left|right; exists m; by right].
      + intros [?|[m [[= -> ->]|Hm]%elem_of_cons]]; [by left; right|by left; left|right; by exists m]. }
  rewrite H, dom_empty. split; [by intros [?%not_elem_of_empty|]|by right].
Qed.

Lemma in_method_entries config k m :
  (k, m) ∈ method_entries config ↔ ∃ s, s ∈ services config ∧ m ∈ methods s ∧ k = (id s, name m).
Proof.
  unfold method_entries. rewrite list_elem_of_In, in_concat. split.
  - intros (l & (s & <- & Hs)%in_map_iff & (m' & [= <- <-] & Hm)%in_map_iff). exists s. by rewrite !list_elem_of_In.
  - intros (s & Hs & Hm & ->). apply list_elem_of_In in Hs; apply list_elem_of_In in Hm. eexists. split; [apply in_map_iff; by exists s|].
    apply in_map_iff. by exists m.
Qed.

Lemma valid_targets_spec config t :
  t ∈ valid_targets config ↔ ∃ s m, s ∈ services config ∧ m ∈ methods s ∧ t = target_text (id s) (name m).
Proof.
  unfold valid_targets. rewrite list_elem_of_In, in_concat. split.
  - intros (l & (s & <- & Hs)%in_map_iff & (m & <- & Hm)%in_map_iff). exists s, m. by rewrite !list_elem_of_In.
  - intros (s & m & Hs & Hm & ->). apply list_elem_of_In in Hs; apply list_elem_of_In in Hm. eexists. split; [apply in_map_iff; by exists s|].
    apply in_map_iff. by exists m.
Qed.

Lemma check_targets_spec valid error sequence :
  check_targets valid error sequence = Ok tt → ∀ step call, step ∈ sequence → call ∈ step → call.1 ∈ valid.
Proof.
  unfold check_targets. rewrite try_each_spec. intros H step call Hs Hc. specialize (H step Hs). rewrite try_each_spec in H.
  specialize (H call Hc). by destruct (decide (call.1 ∈ valid)).
Qed.

(** What has been checked when a configuration is parsed. *)
Lemma parse_spec keys config0 config :
  parse_call_sequences keys config0 = Some (Ok config) →
  (∀ entry raw, (entry, raw) ∈ entry_points config0 → check_targets (valid_targets config0) (EntryPointTarget entry) raw = Ok tt) ∧
  Forall2 (λ e e', e'.1 = e.1 ∧ parse_sequence e.2 = Ok e'.2) (entry_points config0) (parsed_entry_points config) ∧
  Forall2 (λ s s', parse_service s = Ok s') (services config0) (services config) ∧
  validate_supported_call_graph (keys config) config = Some (Ok tt).
Proof.
  unfold parse_call_sequences. destruct (validate_call_graph config0) as [u|e] eqn:Hv; [|done].
  destruct (try_map _ (entry_points config0)) as [parsed|e] eqn:Hp; [|done].
  destruct (try_map parse_service (services config0)) as [ss|e] eqn:Hs; [|done].
  set (config1 := MkConfig _ _ _). destruct (validate_supported_call_graph (keys config1) config1) as [[[]|e]|] eqn:Hg; [|done..].
  intros [= <-]. split_and!; [|apply try_map_spec in Hp|by apply try_map_spec|done].
  - intros entry raw Hin. unfold validate_call_graph in Hv. destruct (decide _); [done|].
    destruct (try_each _ (entry_points config0)) as [[]|] eqn:He; [|done]. rewrite try_each_spec in He.
    specialize (He _ Hin). cbn [fst snd] in He. by destruct (decide (entry = [97%Z] ∨ entry = [98%Z])).
  - eapply Forall2_impl; [exact Hp|]. intros [k raw] [k' seq]. cbn [fst snd]. destruct (parse_sequence raw); cbn; [by intros [= <- <-]|done].
Qed.

(** Parsing keeps the methods. *)
Lemma parsed_methods config0 config s m :
  Forall2 (λ s s', parse_service s = Ok s') (services config0) (services config) →
  s ∈ services config0 → m ∈ methods s → (id s, name m) ∈ dom (method_map config).
Proof.
  intros Hall Hs Hm. apply list_elem_of_lookup in Hs as [i Hi]. destruct (Forall2_lookup_l _ _ _ _ _ Hall Hi) as (s' & Hi' & Hp).
  unfold parse_service in Hp. destruct (try_map parse_method (methods s)) as [ms'|] eqn:Hms; [|done]. injection Hp as <-.
  apply try_map_spec in Hms. apply list_elem_of_lookup in Hm as [j Hj]. destruct (Forall2_lookup_l _ _ _ _ _ Hms Hj) as (m' & Hj' & Hpm).
  unfold parse_method in Hpm. destruct (parse_sequence (call_sequence_raw m)) as [seq|]; [|done]. injection Hpm as <-.
  apply method_map_dom. exists (MkMethod (name m) (latency_distribution m) (call_sequence_raw m) seq). apply in_method_entries. eexists. split_and!; [by apply list_elem_of_lookup_2 in Hi'| |done].
  exact (list_elem_of_lookup_2 _ _ _ Hj').
Qed.

(** A call written [text] is accepted, as the text of a method of the configuration, one of
    whose names has a colon, while the key that it is parsed as is not a method's. *)
Definition unresolved (config0 config : CallGraphConfig) (text : bytes) (key : MethodKey) : Prop :=
  from_target <$> result_ok (parse_service_method text) = Some key ∧ key ∉ dom (method_map config) ∧
  ∃ s m, s ∈ services config0 ∧ m ∈ methods s ∧ text = target_text (id s) (name m) ∧ ¬ (plain (id s) ∧ plain (name m)).

(** A target of an entry point is a method, or is unresolved. *)
Lemma entry_targets config0 config raw sequence step call :
  Forall2 (λ s s', parse_service s = Ok s') (services config0) (services config) →
  (∀ step call, step ∈ raw → call ∈ step → call.1 ∈ valid_targets config0) → parse_sequence raw = Ok sequence →
  step ∈ sequence → head step = Some call →
  let key := from_target (call_target call) in
  key ∈ dom (method_map config) ∨
  key ∉ dom (method_map config) ∧ ∃ rstep rcall, rstep ∈ raw ∧ rcall ∈ rstep ∧ unresolved config0 config rcall.1 key.
Proof.
  intros Hall Hraw Hseq Hst Hh key. destruct (decide (key ∈ dom (method_map config))) as [|Hk]; [by left|right; split; [done|]].
  apply try_map_spec in Hseq. apply list_elem_of_lookup in Hst as [i Hi].
  destruct (Forall2_lookup_r _ _ _ _ _ Hseq Hi) as (rstep & Hri & Hp). apply try_map_spec in Hp.
  apply list_elem_of_lookup_2 in Hri.
  destruct step as [|c step]; [done|]. injection Hh as ->. inversion Hp as [|[t p] ? rest ? Ht]; subst. cbn in Ht.
  exists ((t, p) :: rest), (t, p). split_and!; [done|by left|]. cbn [fst].
  assert (Hval : t ∈ valid_targets config0) by (apply (Hraw _ (t, p) Hri); by left).
  apply valid_targets_spec in Hval as (s & m & Hs & Hm & ->).
  destruct (parse_service_method (target_text (id s) (name m))) as [tg|] eqn:Hpt; [|done]. injection Ht as Ht.
  split_and!; [by rewrite Hpt; unfold key; rewrite <-Ht|done|]. exists s, m. split_and!; [done..|].
  intros [H1 H2]. rewrite parse_text in Hpt by done. injection Hpt as <-. apply Hk. unfold key. rewrite <-Ht. by eapply parsed_methods.
Qed.

Lemma find_entry {A} (l : list (bytes * A)) k v :
  (k, v) ∈ l → ∃ v', find_map (λ e : bytes * A, if decide (e.1 = k) then Some e.2 else None) l = Some v' ∧ (k, v') ∈ l.
Proof.
  induction l as [|[k1 v1] l IH]; [by intros ?%not_elem_of_nil|]. intros Hin. cbn [find_map fst snd].
  destruct (decide (k1 = k)) as [->|Hne]; [exists v1; split; [done|left]|]. apply elem_of_cons in Hin as [[= -> ->]|Hin]; [done|].
  destruct (IH Hin) as (v' & -> & Hv). exists v'. split; [done|by right].
Qed.

Lemma find_parsed config0 config entry raw :
  Forall2 (λ e e' : bytes * _, e'.1 = e.1 ∧ parse_sequence e.2 = Ok e'.2) (entry_points config0) (parsed_entry_points config) →
  (entry, raw) ∈ entry_points config0 →
  ∃ raw' seq, find_map (λ e : bytes * _, if decide (e.1 = entry) then Some e.2 else None) (parsed_entry_points config) = Some seq ∧
    (entry, raw') ∈ entry_points config0 ∧ parse_sequence raw' = Ok seq.
Proof.
  intros Hentries Hin. apply list_elem_of_lookup in Hin as [i Hi].
  destruct (Forall2_lookup_l _ _ _ _ _ Hentries Hi) as ([entry' seq] & Hi' & Hk & _).
  cbn in Hk. subst entry'. destruct (find_entry _ _ _ (list_elem_of_lookup_2 _ _ _ Hi')) as (seq' & Hfind & Hin').
  apply list_elem_of_lookup in Hin' as [j Hj]. destruct (Forall2_lookup_r _ _ _ _ _ Hentries Hj) as ([k raw'] & Hj' & Hk & Hseq).
  cbn in Hk, Hseq. subst k. exists raw', seq'. split_and!; [done|by eapply list_elem_of_lookup_2|done].
Qed.

Lemma accepted_graph keys config :
  (∀ k, k ∈ keys config ↔ k ∈ dom (method_map config)) → validate_supported_call_graph (keys config) config = Some (Ok tt) →
  calls_defined (method_map config) ∧ acyclic (method_map config).
Proof.
  intros Hkeys Hvalid. apply (search_all _ (keys config) Hkeys). unfold validate_supported_call_graph in Hvalid.
  destruct (try_each _ (parsed_entry_points config)); [|done]. destruct (try_each _ (method_entries config)); [|done].
  destruct (try_fold _ (keys config) (∅, ∅)) as [[st|]|]; [by exists st|done..].
Qed.

(** C10: A planner can be made of every configuration that parsing accepts, and every request to
    every entry point is answered, whatever is drawn and whatever overhead is calibrated: the
    recursion ends, and either it makes a plan, in which each step has at most one call and every
    hint is what follows from the estimates, or it fails for one reason only, that a call of the
    entry point itself is written like a method whose names have a colon and is parsed as another
    name, which no method has. No cycle and no call to nowhere is ever met behind an entry point;
    and where no name has a colon, every request has its plan. *)
Theorem plans_always_made keys config0 parsed est :
  (∀ d rng, is_u64 (sample d rng).1) →
  (∀ k, k ∈ keys parsed ↔ k ∈ dom (method_map parsed)) → parse_call_sequences keys config0 = Some (Ok parsed) →
  ∃ self, planner_new (keys parsed) parsed est = Some (Ok self) ∧
    ∀ cal entry raw rng, (entry, raw) ∈ entry_points config0 →
      let request := plan_entry_point (MkPlanner (planner_entry_points self) (planner_methods self) (estimate self) cal) entry rng in
      (∃ p rng', request = Some (Ok (p, rng')) ∧ well_planned p) ∨
      (¬ plain_config config0 ∧ ∃ key, request = Some (Err (MethodNotFound key)) ∧
         ∃ raw' step call, (entry, raw') ∈ entry_points config0 ∧ step ∈ raw' ∧ call ∈ step ∧
           unresolved config0 parsed call.1 key).
Proof.
  intros Hu Hkeys Hparse. destruct (parse_spec _ _ _ Hparse) as (Htargets & Hentries & Hservices & Hvalid).
  destruct (accepted_graph keys parsed Hkeys Hvalid) as [Hcd Hac]. unfold planner_new. rewrite Hvalid. eexists. split; [done|].
  intros cal entry raw rng Hin. cbn [planner_entry_points planner_methods estimate]. set (self := MkPlanner _ _ _ _).
  unfold plan_entry_point. change (planner_entry_points self) with (parsed_entry_points parsed).
  destruct (find_parsed config0 parsed entry raw Hentries Hin) as (raw' & seq & -> & Hin' & Hseq).
  assert (Hraw := check_targets_spec _ _ _ (Htargets _ _ Hin')).
  set (E := λ e, ∃ key, e = MethodNotFound key ∧ ∃ rstep rcall, rstep ∈ raw' ∧ rcall ∈ rstep ∧ unresolved config0 parsed rcall.1 key).
  destruct (plan_steps_outcome (plan_method (depth (planner_methods self)) self) E ∅ seq rng) as [(steps & rng' & Hst & Hs)|(e & Hst & He)].
  { intros step call r Hstep Hh.
    destruct (entry_targets config0 parsed raw' seq step call Hservices Hraw Hseq Hstep Hh) as [Hk|(Hk & Hun)].
    - left. apply plan_method_made; [done..|by apply elem_of_dom|].
      split; [intros v Hv; by apply not_elem_of_empty in Hv|apply empty_subseteq|rewrite size_empty; unfold depth; lia].
    - right. eexists. split; [|by eexists]. unfold depth. cbn [plan_method]. rewrite decide_False by apply not_elem_of_empty.
      change (planner_methods self) with (method_map parsed). by rewrite (proj1 (not_elem_of_dom _ _) Hk). }
  - left. unfold plan_sequence. rewrite Hst. cbn [fmap option_fmap option_map result_map fst snd]. eexists _, rng'. split; [done|].
    apply apply_planned, attach_planned; [ulia|done].
  - right. unfold plan_sequence. rewrite Hst. destruct He as (key & -> & rstep & rcall & H1 & H2 & H3). split.
    + destruct H3 as (_ & _ & s & m & Hs & Hm & _ & Hn). intros Hpl. by apply Hn, Hpl.
    + exists key. split; [done|]. by exists raw', rstep, rcall.
Qed.

(** ** The calibrated overhead *)

(** A calibrated value is no less than zero and no more than the cap. *)
Definition below_cap (cap : Z) (self : OnlineOverheadCalibrator) : Prop :=
  ∀ e x, overheads_us self !! e = Some x → is_fin x ∧ (zv 0 ≤ fv x ≤ zv cap)%Z.

Lemma record_below cap self e observed :
  below_cap cap self → (0 < cap < 2 ^ 53)%Z → max_overhead_us (config self) = cap → (0 ≤ observed)%Z →
  is_fin (alpha (config self)) → (0 ≤ fv (alpha (config self)) ≤ pw (-1))%Z →
  below_cap cap (calibrator_record self e observed) ∧ config (calibrator_record self e observed) = config self.
Proof.
  intros Hb Hcap Hmax Hobs Ha Hav. unfold calibrator_record. destruct (enabled (config self)); [|done].
  rewrite Hmax. rewrite decide_True by lia. set (s := Z.min observed cap).
  destruct (of_Z_exact s ltac:(lia)) as [Hs Hsv]. set (a := f64_clamp _ _ _).
  destruct (clamp_value (alpha (config self)) f64_zero f64_one Ha I (proj1 one_value)) as [Hca Hcv].
  { rewrite (proj2 one_value). assert (H := pw_pos 0 ltac:(lia)). cbn [fv f64_zero]. lia. }
  assert (Hcav : (0 ≤ fv a ≤ pw (-1))%Z).
  { unfold a. rewrite Hcv, (proj2 one_value). cbn [fv f64_zero]. assert (H := pw_mono (-1) 0 ltac:(lia)). lia. }
  fold a in Hca. destruct (SFeqb a f64_zero); [done|]. split; [|done]. intros e' x. cbn [overheads_us].
  assert (Hsb : (zv 0 ≤ fv (f64_of_Z s) ≤ zv cap)%Z) by (rewrite Hsv; split; apply zv_mono; lia).
  destruct (decide (e = e')) as [<-|Hne]; [|rewrite lookup_insert_ne by done; apply Hb].
  rewrite lookup_insert_eq. intros [= <-]. destruct (overheads_us self !! e) as [cur|] eqn:He; [|done].
  destruct (Hb e cur He) as [Hc Hcb].
  assert (Hbig : (zv cap ≤ pw 1000)%Z).
  { assert (H1 := zv_mono cap (2 ^ 53) ltac:(lia)). assert (H2 := pw_mono 53 1000 ltac:(lia)).
    unfold zv in H1 at 2. rewrite (pw_split 0 53) in H2 by lia. change (53 - 0)%Z with 53%Z in H2. lia. }
  change (zv 0) with 0%Z in *. destruct (ema_between a cur (f64_of_Z s) Hca Hc Hs Hcav ltac:(lia) ltac:(lia)) as [H1 H2].
  unfold ema in *. split; [exact H1|]. lia.
Qed.

(** With a weight of at most one half and a cap, the overhead that is added to plans is never above
    the cap, whatever latencies were observed: the rounding of the running average does not
    escape either. *)
Theorem overhead_capped cfg samples entry_point :
  let cap := max_overhead_us cfg in
  (0 < cap < 2 ^ 53)%Z → is_fin (alpha cfg) → f64_le f64_zero (alpha cfg) = true → f64_le (alpha cfg) (f64_lit 1 2) = true →
  Forall (λ s : bytes * Z, 0 ≤ s.2)%Z samples →
  (0 ≤ current_overhead_us (foldl (λ c s, calibrator_record c s.1 s.2) (calibrator_new cfg) samples) entry_point ≤ cap)%Z.
Proof.
  intros cap Hcap Ha Ha0 Ha1 Hs.
  assert (Hh : f64_lit 1 2 = two (-1)) by (vm_compute; reflexivity). destruct (two_value (-1) ltac:(lia)) as [Hf Hv].
  rewrite Hh in Ha1. apply le_value in Ha1; [|done|done]. apply le_value in Ha0; [|done|done]. cbn [fv f64_zero] in Ha0. rewrite Hv in Ha1.
  assert (Hall : ∀ l self, config self = cfg → below_cap cap self → Forall (λ s : bytes * Z, 0 ≤ s.2)%Z l →
    below_cap cap (foldl (λ c s, calibrator_record c s.1 s.2) self l)).
  { induction l as [|s l IH]; intros self Hc Hb Hl; [done|]. apply Forall_cons in Hl as [Hs0 Hl]. cbn [foldl].
    destruct (record_below cap self s.1 s.2 Hb Hcap) as [H1 H2]; [by rewrite Hc|done|by rewrite Hc|by rewrite Hc|].
    apply IH; [by rewrite H2|done|done]. }
  specialize (Hall samples (calibrator_new cfg) eq_refl ltac:(by intros e x ?) Hs).
  unfold current_overhead_us. set (c := foldl _ _ _) in *.
  assert (Hx : is_fin (default f64_zero (overheads_us c !! entry_point)) ∧
    (zv 0 ≤ fv (default f64_zero (overheads_us c !! entry_point)) ≤ zv cap)%Z).
  { destruct (overheads_us c !! entry_point) as [x|] eqn:He; [by apply (Hall entry_point)|]. split; [done|].
    split; [done|]. cbn [default from_option fv f64_zero]. apply (zv_mono 0). lia. }
  destruct Hx as [Hxf Hxv]. destruct (round_integer_between _ 0 cap Hxf ltac:(lia) ltac:(lia) Hxv) as [Hrf Hrv].
  apply to_u64_between; [done|lia| |done]. unfold is_u64, u64_max. lia.
Qed.
End planner.

(** ** Witnesses *)

Section demo.
(** A generator that draws zero, and constant latencies. *)
Definition demo_gen (rng : nat) : f64 * nat := (f64_zero, S rng).
Definition demo_sample (d : Z) (rng : nat) : Z * nat := (wrap64 d, S rng).

Definition some_order {Dist} (c : CallGraphConfig (Dist := Dist)) : list (bytes * bytes) := (map_to_list (method_map c)).*1.

Lemma some_order_spec {Dist} (c : CallGraphConfig (Dist := Dist)) k : k ∈ some_order c ↔ k ∈ dom (method_map c).
Proof.
  unfold some_order. rewrite list_elem_of_fmap, elem_of_dom. split.
  - intros ([k' m] & -> & H%elem_of_map_to_list). by exists m.
  - intros [m Hm]. exists (k, m). split; [done|by apply elem_of_map_to_list].
Qed.

(** m::x calls n::y, which works for 200; m::x works for 100. [back]: what n::y calls. *)
Definition demo_graph (back : list (list (bytes * f64))) : CallGraphConfig (Dist := Z) :=
  let m := bytes_of_string "m" in let n := bytes_of_string "n" in let x := bytes_of_string "x" in let y := bytes_of_string "y" in
  MkConfig [(bytes_of_string "a", [[(target_text m x, f64_one)]])] []
    [MkService m [MkMethod x 100%Z [[(target_text n y, f64_one)]] []]; MkService n [MkMethod y 200%Z back []]].

Definition parsed_or (c : CallGraphConfig (Dist := Z)) : CallGraphConfig :=
  match parse_call_sequences some_order c with Some (Ok c) => c | _ => c end.

Definition demo_estimate : OracleWorkEstimateConfig :=
  MkEstimate 5 ∅ ∅ (MkOnline true (f64_lit 1 4) 1000 UniformCalls).

(** A method that calls back is refused, and without it the graph passes. *)
Definition cyclic_graph : CallGraphConfig :=
  let m := bytes_of_string "m" in let x := bytes_of_string "x" in
  MkConfig [] [] [MkService m [MkMethod x 1%Z [] [[MkCall (MkTarget m x) f64_one]]]].

Lemma validation_exact_witness :
  let c := parsed_or (demo_graph []) in
  shapes_ok c ∧ calls_defined (method_map c) ∧ acyclic (method_map c) ∧
  ¬ (shapes_ok cyclic_graph ∧ calls_defined (method_map cyclic_graph) ∧ acyclic (method_map cyclic_graph)).
Proof.
  intros c. assert (Hok : validate_supported_call_graph (some_order c) c = Some (Ok tt)) by (vm_compute; reflexivity).
  destruct (validation_exact (some_order c) c (some_order_spec c)) as [_ [H _]]. destruct (H Hok) as (? & ? & ?). split_and!; [done..|].
  destruct (validation_exact (some_order cyclic_graph) cyclic_graph (some_order_spec cyclic_graph)) as [_ [_ Hc]].
  intros Hall. apply Hc in Hall. vm_compute in Hall. discriminate Hall.
Defined.

(** A service whose name ends in a colon, called by the entry point. *)
Definition colon_graph : CallGraphConfig (Dist := Z) :=
  let m := bytes_of_string "m:" in let x := bytes_of_string "x" in
  MkConfig [(bytes_of_string "a", [[(target_text m x, f64_one)]])] [] [MkService m [MkMethod x 1%Z [] []]].

(** Where names have no colons the request has its plan. *)
Lemma plans_always_made_witness :
  let c := parsed_or (demo_graph []) in
  ∃ self, planner_new (some_order c) c demo_estimate = Some (Ok self) ∧
    ∃ p rng', plan_entry_point demo_gen demo_sample self (bytes_of_string "a") 0 = Some (Ok (p, rng')) ∧ well_planned p ∧
      estimated_total_work_us p = 310%Z.
Proof.
  intros c. assert (Hparse : parse_call_sequences some_order (demo_graph []) = Some (Ok c)) by (vm_compute; reflexivity).
  assert (Hplain : plain_config (demo_graph [])).
  { assert (Hall : Forall (λ s, Forall (λ m, plain (id s) ∧ plain (name m)) (methods s)) (services (demo_graph [])))
      by (unfold plain; decided).
    intros s m Hs Hm. rewrite Forall_forall in Hall. specialize (Hall s Hs). rewrite Forall_forall in Hall. by apply Hall. }
  destruct (plans_always_made demo_gen demo_sample some_order (demo_graph []) c demo_estimate) as (self & Hself & Hplans);
    [intros d rng; apply wrap64_is_u64|apply some_order_spec|exact Hparse|].
  exists self. split; [exact Hself|]. vm_compute in Hself. injection Hself as <-.
  destruct (Hplans (calibrator_new (online_overhead demo_estimate)) (bytes_of_string "a") _ 0 ltac:(left))
    as [(p & rng' & Hp & Hw)|[Hn _]]; [|by destruct Hn].
  exists p, rng'. split; [exact Hp|]. split; [exact Hw|]. vm_compute in Hp. injection Hp as <- <-. vm_compute. reflexivity.
Defined.

Lemma overhead_capped_witness :
  let c := foldl (λ c s, calibrator_record c s.1 s.2) (calibrator_new (online_overhead demo_estimate))
             [(bytes_of_string "a", 5000%Z); (bytes_of_string "a", 10%Z)] in
  current_overhead_us c (bytes_of_string "a") = 753%Z ∧ (0 ≤ current_overhead_us c (bytes_of_string "a") ≤ 1000)%Z.
Proof.
  split; [vm_compute; reflexivity|].
  apply (overhead_capped (online_overhead demo_estimate));
    [by vm_compute|by vm_compute|vm_compute; reflexivity|vm_compute; reflexivity|repeat constructor; by vm_compute].
Defined.

(** Where a service's name ends in a colon, targets are accepted as text but are parsed as other
    names: the configuration passes, and every request fails. *)
Example colon_target_unresolved :
  let c := parsed_or colon_graph in
  parse_call_sequences some_order colon_graph = Some (Ok c) ∧
  ∃ self, planner_new (some_order c) c demo_estimate = Some (Ok self) ∧
    plan_entry_point demo_gen demo_sample self (bytes_of_string "a") 0 =
      Some (Err (MethodNotFound (bytes_of_string "m", bytes_of_string ":x"))).
Proof. split; [vm_compute; reflexivity|]. eexists. split; [vm_compute; reflexivity|vm_compute; reflexivity]. Qed.
End demo.
