(* ===== verification/OracleRun.v ===== *)
(** A planned request on its way, apps/synthbench/src/oracle.rs, util.rs and child/server.rs with
    libs/masa-policy/src/module/oracle.rs: every call carries its hint and its plan in headers,
    the oracle module of the caller turns the hint into the child's deadline and priority,
    and the child executes the plan it reads. The [serde_json] crate is a class with the
    round trip it documents. *)
From S2P Require Import Oracle.
From S2P Require Export OraclePlan.

Definition ORACLE_PLAN_HEADER : bytes := bytes_of_string "x-masa-oracle-plan".

(** Names of targets in visible ASCII, which JSON strings keep so. *)
Fixpoint ascii_names (p : ExecutionPlan) : Prop :=
  match p with
  | MkPlan _ _ steps =>
      foldr and True (map (λ step, foldr and True (map (λ c,
        (Forall visible_ascii (service_id (target c)) ∧ Forall visible_ascii (method_name (target c))) ∧ ascii_names (plan c)) step)) steps)
  end.

(** [serde_json::to_string] and [from_str] of a plan. *)
Class PlanJson := {
  to_json : ExecutionPlan → result bytes bytes;
  from_json : bytes → result ExecutionPlan bytes;
}.

Class PlanJsonLaws {J : PlanJson} : Prop :=
  json_law p : ∃ s, to_json p = Ok s ∧ from_json s = Ok p ∧ (ascii_names p → Forall visible_ascii s).

Section run.
Context {M : Type} {MD : Metadata M} {ML : MetadataLaws M} {J : PlanJson} {JL : PlanJsonLaws}.
Context {Status : Type} (internal : bytes → Status) (type_name : MasaType → bytes).

(** ** The headers of a call *)

Definition insert_u64_header (metadata : M) (key : bytes) (value : Z) : result M Status :=
  match ascii_value (to_string value) with
  | Ok v => Ok (meta_insert metadata key v)
  | Err e => Err (internal (bytes_of_string "failed to encode oracle header '" ++ key ++ bytes_of_string "': " ++ e))
  end.

Definition inject_hint (h : OracleHint) (metadata : M) : result M Status :=
  result_and_then (λ metadata, insert_u64_header metadata ORACLE_REMAINING_AFTER_US_HEADER (remaining_after_us h))
    (insert_u64_header metadata ORACLE_CHILD_WORK_US_HEADER (child_work_us h)).

Definition inject_plan (p : ExecutionPlan) (metadata : M) : result M Status :=
  match to_json p with
  | Err e => Err (internal (bytes_of_string "failed to encode oracle plan: " ++ e))
  | Ok json =>
      match ascii_value json with
      | Err e => Err (internal (bytes_of_string "failed to store oracle plan: " ++ e))
      | Ok v => Ok (meta_insert metadata ORACLE_PLAN_HEADER v)
      end
  end.

(** [PlannedCall::inject_headers]. *)
Definition inject_headers (c : PlannedCall) (metadata : M) : result M Status :=
  result_and_then (inject_plan (plan c)) (inject_hint (hint c) metadata).

Definition from_metadata (metadata : M) : result (option ExecutionPlan) Status :=
  match meta_get metadata ORACLE_PLAN_HEADER with
  | None => Ok None
  | Some value =>
      match meta_to_str value with
      | Err e => Err (internal (bytes_of_string "invalid oracle plan header: " ++ e))
      | Ok json =>
          match from_json json with
          | Ok p => Ok (Some p)
          | Err e => Err (internal (bytes_of_string "failed to decode oracle plan: " ++ e))
          end
      end
  end.

(** ** A call *)

(** The method of a target, and the metadata of a request before the headers. *)
Context (method_of : CallTarget → CowGrpcMethod) (fresh : M).

(** The oracle module of the caller on the request, and the budget that the child gets. *)
Definition child_budget (ctx : Context) (child_method : CowGrpcMethod) (metadata : M) : result Context Status :=
  let '(child, r) := oracle_before_child_rpc internal type_name (MkOracle ctx) child_method (Extensions.new masa_value) metadata in
  result_map (λ _, child_context ctx child) r.

(** The budget and the plan with which the call at a path arrives: of the call at each step and
    position from the caller down. *)
Fixpoint arrive (ctx : Context) (p : ExecutionPlan) (path : list (nat * nat)) : option (Context * ExecutionPlan) :=
  match path with
  | [] => Some (ctx, p)
  | (i, j) :: path =>
      step ← child_steps p !! i;
      c ← step !! j;
      metadata ← result_ok (inject_headers c fresh);
      ctx ← result_ok (child_budget ctx (method_of (target c)) metadata);
      received ← result_ok (from_metadata metadata);
      p ← received;
      arrive ctx p path
  end.

(** ** What the deadlines should be *)

Fixpoint plan_at (p : ExecutionPlan) (path : list (nat * nat)) : option ExecutionPlan :=
  match path with
  | [] => Some p
  | (i, j) :: path => step ← child_steps p !! i; c ← step !! j; plan_at (plan c) path
  end.

(** What the caller is estimated to do after a step. *)
Definition after_step (p : ExecutionPlan) (i : nat) : Z :=
  local_work_us p + sum_Z (map step_work (drop (S i) (child_steps p))).

(** When the request completes if the call at the path completes at [t] and everything that
    follows takes its estimate. *)
Fixpoint completes (p : ExecutionPlan) (path : list (nat * nat)) (t : Z) : Z :=
  match path with
  | [] => t
  | (i, j) :: path =>
      match child_steps p !! i ≫= lookup j with Some c => completes (plan c) path t + after_step p i | None => t end
  end.

(** What the callers above the last are estimated to do after their calls on the path. *)
Fixpoint carried (p : ExecutionPlan) (path : list (nat * nat)) : Z :=
  match path with
  | (i, j) :: (_ :: _) as path =>
      after_step p i + match child_steps p !! i ≫= lookup j with Some c => carried (plan c) path | None => 0%Z end
  | _ => 0%Z
  end.

(** [to_str] accepts visible ASCII. *)
Context (to_str_visible : ∀ v, Forall visible_ascii v → meta_to_str (M:=M) v = Ok v).

Lemma visible_header v : Forall visible_ascii v → Forall header_byte v.
Proof. intros H. eapply Forall_impl; [exact H|]. intros b. unfold visible_ascii, header_byte. lia. Qed.

Lemma digits_visible n : (0 ≤ n)%Z → Forall visible_ascii (to_string n).
Proof. intros Hn. eapply Forall_impl; [by apply to_string_digits|]. intros b. unfold digit, visible_ascii. lia. Qed.

Lemma insert_u64 md key n : (0 ≤ n)%Z → insert_u64_header md key n = Ok (meta_insert md key (to_string n)).
Proof. intros Hn. unfold insert_u64_header. by rewrite ascii_value_law by (apply visible_header, digits_visible, Hn). Qed.

(** The headers of a call are what is read of them. *)
Lemma call_headers c child_method :
  is_u64 (child_work_us (hint c)) → is_u64 (remaining_after_us (hint c)) → ascii_names (plan c) →
  ∃ md, inject_headers c fresh = Ok md ∧
    read_u64_header internal md ORACLE_CHILD_WORK_US_HEADER child_method = Ok (child_work_us (hint c)) ∧
    read_u64_header internal md ORACLE_REMAINING_AFTER_US_HEADER child_method = Ok (remaining_after_us (hint c)) ∧
    from_metadata md = Ok (Some (plan c)).
Proof.
  intros Hw Hr Hn. destruct (json_law (plan c)) as (s & Hto & Hfrom & Hs). specialize (Hs Hn).
  unfold inject_headers, inject_hint. rewrite insert_u64 by apply Hw. cbn [result_and_then]. rewrite insert_u64 by apply Hr.
  cbn [result_and_then]. unfold inject_plan. rewrite Hto, ascii_value_law by by apply visible_header. eexists. split; [done|].
  assert (Hhw : Forall header_byte (to_string (child_work_us (hint c)))) by apply visible_header, digits_visible, Hw.
  assert (Hhr : Forall header_byte (to_string (remaining_after_us (hint c)))) by apply visible_header, digits_visible, Hr.
  split_and!.
  - apply read_u64_written; [done| |done]. rewrite meta_get_insert_ne by done. rewrite meta_get_insert_ne by done. by apply meta_get_insert.
  - apply read_u64_written; [done| |done]. rewrite meta_get_insert_ne by done. by apply meta_get_insert.
  - unfold from_metadata. rewrite meta_get_insert by by apply visible_header. by rewrite to_str_visible, Hfrom.
Qed.

(** The budget that a hint gives. *)
Lemma hint_budget ctx child_method md w r :
  read_u64_header internal md ORACLE_CHILD_WORK_US_HEADER child_method = Ok w →
  read_u64_header internal md ORACLE_REMAINING_AFTER_US_HEADER child_method = Ok r →
  (0 ≤ r)%Z → (0 ≤ w)%Z → (w + r ≤ e2e_deadline ctx)%Z →
  child_budget ctx child_method md =
    Ok (MkContext (api ctx) (request_id ctx) (slo ctx) (gateway_entry ctx) (e2e_deadline ctx - r) (Hint (e2e_deadline ctx - r - w))).
Proof.
  intros Hw Hr Hr0 Hw0 Hle.
  assert (Hnew : ∀ t, ext_wf masa_value (Extensions.new masa_value) ∧ open (Extensions.new masa_value) t) by (intros t; split; [constructor|done]).
  assert (H := oracle_child_budget internal type_name (MkOracle ctx) child_method (Extensions.new masa_value) md
    (proj1 (Hnew ChildDeadlineType)) (proj2 (Hnew _)) (proj2 (Hnew _))). cbn zeta in H. rewrite Hw, Hr in H.
  destruct H as (child' & Hrun & Hctx). unfold child_budget. rewrite Hrun. cbn [result_map oracle_budget] in *. rewrite Hctx. repeat f_equal; lia.
Qed.

Lemma ascii_call l o steps step c :
  ascii_names (MkPlan l o steps) → step ∈ steps → c ∈ step → ascii_names (plan c).
Proof.
  assert (Hfold : ∀ {A} (P : A → Prop) l x, foldr and True (map P l) → x ∈ l → P x).
  { intros A P l0 x H. induction l0 as [|y l0 IH]; [by intros ?%not_elem_of_nil|]. destruct H as [Hy Hl].
    intros [->|Hx]%elem_of_cons; [done|by apply IH]. }
  intros H Hs Hc. cbn [ascii_names] in H. apply (Hfold _ _ _ step) in H; [|done]. cbn beta in H. by apply (Hfold _ _ _ c) in H as [_ ?].
Qed.

(** A call of a plan whose hints are exact and whose sums fit. *)
Record travels (p : ExecutionPlan) : Prop := {
  travels_linear : linear p = true;
  travels_natural : natural p;
  travels_fits : (cost p ≤ u64_max)%Z;
  travels_hints : hints_exact p;
  travels_ascii : ascii_names p;
}.

Lemma step_work_elem step c : c ∈ step → (estimated_total_work_us (plan c) ≤ step_work step)%Z.
Proof.
  unfold step_work, max_or_zero. induction step as [|c' step IH]; [by intros ?%not_elem_of_nil|]. cbn.
  intros [->|Hc]%elem_of_cons; [lia|]. specialize (IH Hc). lia.
Qed.

Lemma call_travels p i step c :
  travels p → child_steps p !! i = Some step → c ∈ step →
  travels (plan c) ∧ (cost (plan c) ≤ cost p)%Z ∧ child_work_us (hint c) = estimated_total_work_us (plan c) ∧
  remaining_after_us (hint c) = after_step p i ∧ (0 ≤ after_step p i)%Z ∧ (0 ≤ estimated_total_work_us (plan c))%Z ∧
  (estimated_total_work_us (plan c) + after_step p i ≤ cost p)%Z.
Proof.
  intros [Hlin Hnat Hfit Hh Ha] Hi Hc. assert (Hseq := linear_sequence p Hlin Hnat Hfit).
  assert (Hin : c ∈ concat (child_steps p)) by (apply in_steps; exists step; split; [by eapply list_elem_of_lookup_2|done]).
  assert (Hle := cost_call p c Hnat Hin). assert (Hn := natural_call p c Hnat Hin).
  destruct p as [l o steps]. cbn [child_steps local_work_us estimate_overhead_us] in *.
  assert (Hs : step ∈ steps) by by eapply list_elem_of_lookup_2.
  destruct (linear_calls l o steps step Hlin Hs) as [_ Hlc].
  assert (Hmid := take_drop_middle _ _ _ Hi). inversion Hh as [? ? ? Hex]; subst.
  destruct (Hex (take i steps) step (drop (S i) steps) c ltac:(done) Hc) as (Hw & Hr & Hc').
  assert (Hpos : ∀ ss, (0 ≤ sum_Z (map step_work ss))%Z).
  { intros ss. apply sum_Z_nonneg, Forall_map, Forall_forall. intros s _. apply step_work_nonneg. }
  assert (Hsum : sum_Z (map step_work steps) = (sum_Z (map step_work (take i steps)) + (step_work step + sum_Z (map step_work (drop (S i) steps))))%Z).
  { rewrite <-Hmid at 1. rewrite map_app, sum_Z_app. done. }
  assert (H1 := Hpos (take i steps)). assert (H2 := Hpos (drop (S i) steps)). assert (H3 := step_work_elem step c Hc).
  destruct Hnat as [Hl Ho _ _]. cbn in Hl, Ho.
  destruct (linear_total (plan c) (Hlc c Hc) Hn ltac:(lia)) as [He _]. assert (Hc0 := cost_nonneg (plan c) Hn).
  unfold after_step. cbn [local_work_us child_steps]. rewrite Hr, Hw. split_and!; try lia.
  split; [by apply Hlc|done|lia|done|by eapply ascii_call].
Qed.

(** C9: A planned call arrives, at any depth, with exactly its plan, and with a latest start that is its
    estimated work before its deadline. The deadline leaves time for what its own caller still
    does, but not for what the callers above still do: a call that completes at its deadline
    completes the request that much after the end-to-end deadline, so that only the calls of
    the entry point itself are given the right deadlines. *)
Theorem nested_deadlines_too_late ctx p path q :
  travels p → (cost p ≤ e2e_deadline ctx)%Z → plan_at p path = Some q → path ≠ [] →
  ∃ ctx', arrive ctx p path = Some (ctx', q) ∧ e2e_deadline ctx' = e2e_deadline ctx ∧
    prio_hint ctx' = Hint (deadline ctx' - estimated_total_work_us q) ∧
    completes p path (deadline ctx') = (e2e_deadline ctx + carried p path)%Z.
Proof.
  revert ctx p. induction path as [|[i j] path IH]; intros ctx p Ht Hle Hq Hne; [done|]. cbn [plan_at arrive completes] in *.
  destruct (child_steps p !! i) as [step|] eqn:Hi; [|done]. cbn [mbind option_bind] in *.
  destruct (step !! j) as [c|] eqn:Hj; [|done]. cbn [mbind option_bind] in *.
  destruct (call_travels p i step c Ht Hi (list_elem_of_lookup_2 _ _ _ Hj)) as (Htc & Hcc & Hw & Hr & Ha0 & He0 & Hsum).
  destruct (call_headers c (method_of (target c))) as (md & -> & Hmw & Hmr & Hmp).
  { rewrite Hw. destruct Ht. ulia. }
  { rewrite Hr. destruct Ht. ulia. }
  { apply Htc. }
  rewrite Hw in Hmw. rewrite Hr in Hmr.
  assert (Hb := hint_budget ctx (method_of (target c)) md _ _ Hmw Hmr Ha0 He0 ltac:(lia)). cbn [result_ok mbind option_bind].
  rewrite Hb. cbn [result_ok mbind option_bind]. rewrite Hmp. cbn [result_ok mbind option_bind]. set (ctx1 := MkContext _ _ _ _ _ _).
  assert (He1 : e2e_deadline ctx1 = e2e_deadline ctx) by done. assert (Hd1 : deadline ctx1 = (e2e_deadline ctx - after_step p i)%Z) by done.
  destruct path as [|ij path].
  - cbn in Hq. injection Hq as <-. exists ctx1. split_and!; [done..|]. cbn [completes carried]. lia.
  - destruct (IH ctx1 (plan c) Htc ltac:(lia) Hq ltac:(done)) as (ctx' & Harr & He & Hp & Hcomp).
    exists ctx'. split_and!; [exact Harr|congruence|exact Hp|]. rewrite Hcomp. destruct ij as [i' j']. cbn [carried].
    rewrite Hi. cbn [mbind option_bind]. rewrite Hj. cbn [carried]. lia.
Qed.
End run.

(** ** A codec of plans *)

Section codec.
Fixpoint plan_tree (p : ExecutionPlan) : gen_tree (Z + bytes) :=
  match p with
  | MkPlan l o steps =>
      GenNode 0 (GenLeaf (inl l) :: GenLeaf (inl o) :: map (λ step, GenNode 1 (map (λ c,
        GenNode 2 [GenLeaf (inr (service_id (target c))); GenLeaf (inr (method_name (target c)));
                   GenLeaf (inl (child_work_us (hint c))); GenLeaf (inl (remaining_after_us (hint c))); plan_tree (plan c)]) step)) steps)
  end.

Definition no_call : PlannedCall := MkPlanned (MkTarget [] []) (MkHint 0 0) (MkPlan 0 0 []).

Fixpoint tree_plan (t : gen_tree (Z + bytes)) : ExecutionPlan :=
  match t with
  | GenNode 0 (GenLeaf (inl l) :: GenLeaf (inl o) :: steps) =>
      MkPlan l o (map (λ s, match s with
        | GenNode _ cs => map (λ c, match c with
            | GenNode _ [GenLeaf (inr sv); GenLeaf (inr m); GenLeaf (inl w); GenLeaf (inl r); q] =>
                MkPlanned (MkTarget sv m) (MkHint w r) (tree_plan q)
            | _ => no_call
            end) cs
        | _ => []
        end) steps)
  | _ => MkPlan 0 0 []
  end.

Lemma tree_plan_tree p : tree_plan (plan_tree p) = p.
Proof.
  induction p as [l o steps IH] using plan_induction. cbn [plan_tree tree_plan]. f_equal. rewrite map_map.
  rewrite <-(map_id steps) at 2. apply map_ext_elem. intros step Hs. rewrite map_map. rewrite <-(map_id step) at 2.
  apply map_ext_elem. intros c Hc. rewrite (IH step c Hs Hc). by destruct c as [[? ?] [? ?] ?].
Qed.

Fixpoint pos_bits (p : positive) : bytes :=
  match p with xH => [] | xO p => 48%Z :: pos_bits p | xI p => 49%Z :: pos_bits p end.

Fixpoint bits_pos (s : bytes) : positive :=
  match s with [] => xH | b :: s => if decide (b = 48)%Z then xO (bits_pos s) else xI (bits_pos s) end.

Lemma bits_pos_bits p : bits_pos (pos_bits p) = p.
Proof. induction p as [p IH|p IH|]; cbn; by rewrite ?IH. Qed.

(** The plan as a number in binary digits. *)
Definition bits_json : PlanJson := {|
  to_json p := Ok (pos_bits (encode (plan_tree p)));
  from_json s := match decode (bits_pos s) with Some t => Ok (tree_plan t) | None => Err [] end;
|}.

Lemma bits_json_laws : @PlanJsonLaws bits_json.
Proof.
  intros p. eexists. split; [done|]. cbn. rewrite bits_pos_bits, decode_encode, tree_plan_tree. split; [done|]. intros _.
  generalize (encode (plan_tree p)). intros n. induction n; cbn; [constructor..|constructor]; try done; unfold visible_ascii; lia.
Qed.
End codec.

#[local] Existing Instances list_metadata list_metadata_laws bits_json bits_json_laws.

(** In [demo_plan] the first call works for 31 with a call of its own of 20, after which the caller
    works for 37: that call's deadline is right but for these 37. *)
Lemma nested_deadlines_too_late_witness :
  let p := refresh_hints demo_plan in
  ∃ ctx', arrive (M := list (bytes * bytes)) (λ b : bytes, b) (λ _, []) (λ t, MkCow (service_id t) (method_name t)) []
      demo_budget p [(0, 0); (0, 0)] = Some (ctx', MkPlan 20 0 []) ∧
    prio_hint ctx' = Hint (deadline ctx' - 20) ∧ completes p [(0, 0); (0, 0)] (deadline ctx') = 100037%Z.
Proof.
  intros p. assert (Ht : travels p).
  { split; [vm_compute; reflexivity| |vm_compute; discriminate| |].
    - split; [vm_compute; discriminate..|repeat constructor; vm_compute; discriminate|repeat constructor; vm_compute; discriminate].
    - apply refresh_exact. repeat constructor; vm_compute; discriminate.
    - cbn. repeat (split || apply Forall_cons || apply Forall_nil); unfold visible_ascii; lia || done. }
  assert (Hvis : ∀ v, Forall visible_ascii v → @meta_to_str _ list_metadata v = Ok v) by (intros v Hv; cbn; by rewrite decide_True).
  destruct (nested_deadlines_too_late (λ b : bytes, b) (λ _, []) (λ t, MkCow (service_id t) (method_name t)) ([] : list (bytes * bytes))
    Hvis demo_budget p [(0, 0); (0, 0)] (MkPlan 20 0 []) Ht) as (ctx' & H1 & _ & H3 & H4);
    [vm_compute; discriminate|vm_compute; reflexivity|done|].
  exists ctx'. split; [exact H1|]. split; [exact H3|]. rewrite H4. vm_compute. reflexivity.
Defined.
