(* ===== verification/LatencyStats.v ===== *)
(** Latency statistics of the applications (apps/app-utils/src/stats/latency.rs):
    a tracker that any number of tasks report latencies to, the consumer that
    takes what has been reported since it last looked, and the percentiles of
    what it took. [track] is two steps, an atomic increment and a send, and
    [consume] is one step per message, so that reports arrive while it runs. *)
From S2P Require Export Float64.
From stdpp Require Import sorting.

(** ** The tracker and its consumer *)

(** [Record { id, latency }]. *)
Record Report := MkReport { id : Z; latency : Z }.

(** The consumer is not running, or it is in the loop of [consume] with the
    bound it loaded and the latencies it collected. *)
Inductive Phase :=
| Resting
| Draining (max_id : Z) (records : list Z).

(** What the two halves share and own: the counter, the reports that have their
    identifier and are not sent yet, the channel, and the consumer. *)
Record Stats := MkStats {
  next_id : Z;
  in_flight : list Report;
  channel : list Report;
  tmp_consumed : option Report;
  phase : Phase;
}.

Definition new_latency_tracker : Stats := MkStats 0 [] [] None Resting.

(** [next_id.fetch_add(1, ..)], the first half of [track]. *)
Definition track_id (lat : Z) (s : Stats) : Stats :=
  MkStats (wrap64 (next_id s + 1)) (in_flight s ++ [MkReport (next_id s) lat]) (channel s)
    (tmp_consumed s) (phase s).

(** [records.send(..)] by one of the tasks in flight, the second half. *)
Definition track_send (i : nat) (s : Stats) : option (Report * Stats) :=
  r ← in_flight s !! i;
  Some (r, MkStats (next_id s) (delete i (in_flight s)) (channel s ++ [r]) (tmp_consumed s) (phase s)).

(** [consume] up to its loop: the bound, and the report set aside before. *)
Definition consume_begin (s : Stats) : option Stats :=
  match phase s with
  | Resting =>
      let records := match tmp_consumed s with Some rec => [latency rec] | None => [] end in
      Some (MkStats (next_id s) (in_flight s) (channel s) None (Draining (next_id s) records))
  | Draining _ _ => None
  end.

(** One iteration of the loop. The result is the distribution if it was the last. *)
Definition consume_next (s : Stats) : option (option (list Z) * Stats) :=
  match phase s with
  | Resting => None
  | Draining max_id records =>
      match channel s with
      | [] => Some (Some records, MkStats (next_id s) (in_flight s) [] (tmp_consumed s) Resting)
      | rec :: rest =>
          if decide (max_id ≤ id rec)%Z then
            Some (Some records, MkStats (next_id s) (in_flight s) rest (Some rec) Resting)
          else
            Some (None, MkStats (next_id s) (in_flight s) rest (tmp_consumed s)
                          (Draining max_id (records ++ [latency rec])))
      end
  end.

(** What an observer sees. *)
Inductive observation :=
| Numbered
| Sent (rec : Report)
| Began
| Received
| Delivered (dist : list Z).

(** Any task takes the next step, or the consumer does. *)
Inductive stats_step : Stats → observation → Stats → Prop :=
| StepNumber s lat : stats_step s Numbered (track_id lat s)
| StepSend s i r s' : track_send i s = Some (r, s') → stats_step s (Sent r) s'
| StepBegin s s' : consume_begin s = Some s' → stats_step s Began s'
| StepReceive s s' : consume_next s = Some (None, s') → stats_step s Received s'
| StepDeliver s dist s' : consume_next s = Some (Some dist, s') → stats_step s (Delivered dist) s'.

(** Executions, the latest step last. *)
Inductive stats_run : Stats → list observation → Stats → Prop :=
| RunNil s : stats_run s [] s
| RunSnoc s os s' o s'' : stats_run s os s' → stats_step s' o s'' → stats_run s (os ++ [o]) s''.

Definition sent (os : list observation) : list Z :=
  omap (λ o, match o with Sent rec => Some (latency rec) | _ => None end) os.

Definition delivered (os : list observation) : list Z :=
  mjoin (map (λ o, match o with Delivered dist => dist | _ => [] end) os).

(** What has been received and not been handed out. *)
Definition held (s : Stats) : list Z :=
  (match phase s with Draining _ records => records | Resting => [] end)
  ++ from_option (λ rec, [latency rec]) [] (tmp_consumed s).

Lemma delivered_snoc os o :
  delivered (os ++ [o]) = delivered os ++ match o with Delivered dist => dist | _ => [] end.
Proof. unfold delivered. rewrite map_app, join_app. cbn. by rewrite app_nil_r. Qed.

(** While the consumer runs nothing is set aside. *)
Definition tidy (s : Stats) : Prop :=
  match phase s with Draining _ _ => tmp_consumed s = None | Resting => True end.

Ltac stats_cases H :=
  inversion H; subst; clear H;
  repeat match goal with
  | H : track_send _ ?s = Some _ |- _ =>
      unfold track_send in H; destruct (in_flight s !! _) eqn:?; simplify_eq/=
  | H : consume_begin ?s = Some _ |- _ =>
      unfold consume_begin in H; destruct (phase s) eqn:?; simplify_eq/=
  | H : consume_next ?s = Some _ |- _ =>
      unfold consume_next in H; destruct (phase s) eqn:?; simplify_eq/=;
      destruct (channel s) eqn:?; simplify_eq/=; try case_decide; simplify_eq/=
  end.

Lemma tidy_step s o s' : stats_step s o s' → tidy s → tidy s'.
Proof. intros Hs. unfold tidy. stats_cases Hs; done. Qed.

(** C33: no report is lost, counted twice or reordered. *)
Theorem reports_consumed_once os s :
  stats_run new_latency_tracker os s →
  delivered os ++ held s ++ map latency (channel s) = sent os.
Proof.
  intros Hrun. enough (tidy s ∧ delivered os ++ held s ++ map latency (channel s) = sent os) by tauto.
  remember new_latency_tracker as s0 eqn:E.
  induction Hrun as [|s0 os s1 o s2 Hrun IH Hs]; subst; [done|]. destruct IH as [Ht IH]; [done|].
  split; [by eapply tidy_step|]. rewrite delivered_snoc. unfold sent. rewrite omap_app. fold (sent os).
  unfold tidy, held in *. stats_cases Hs; repeat match goal with H : phase _ = _ |- _ => rewrite H in * end;
    repeat match goal with H : channel _ = _ |- _ => rewrite H in * end;
    rewrite ?Ht in *; cbn in *; rewrite <-?IH, ?map_app, ?app_nil_r, <-?app_assoc; cbn; try done.
  all: by destruct (tmp_consumed _).
Qed.

(** ** A consumption ends *)

Definition is_numbered (o : observation) : bool := if o is Numbered then true else false.
Definition is_received (o : observation) : bool := if o is Received then true else false.
Definition is_delivered (o : observation) : bool := if o is Delivered _ then true else false.

Definition counted (p : observation → bool) (os : list observation) : Z :=
  Z.of_nat (length (filter p os)).

(** The reports that are somewhere between a task and the consumer. *)
Definition live (s : Stats) : list Report :=
  in_flight s ++ channel s ++ from_option (λ rec, [rec]) [] (tmp_consumed s).

Definition below (m : Z) (l : list Report) : Z :=
  Z.of_nat (length (filter (λ rec, (id rec < m)%Z) l)).

(** The reports handed out, those held and those below the bound that are still
    to come add up to the bound. *)
Record accounted (os : list observation) (s : Stats) : Prop := {
  acc_next : next_id s = counted is_numbered os;
  acc_ids : ∀ rec, rec ∈ live s → (id rec < next_id s)%Z;
  acc_all : Z.of_nat (length (delivered os ++ match phase s with Draining _ l => l | Resting => [] end)
                      + length (live s)) = next_id s;
  acc_bound : ∀ m l, phase s = Draining m l →
    (Z.of_nat (length (delivered os ++ l)) + below m (live s) = m)%Z ∧ (m ≤ next_id s)%Z;
}.

Lemma counted_snoc p os o : counted p (os ++ [o]) = (counted p os + if p o then 1 else 0)%Z.
Proof.
  unfold counted. rewrite filter_app, length_app, filter_cons, filter_nil.
  destruct (decide (p o)) as [Ho|Ho], (p o); try done; try (by destruct Ho); cbn; lia.
Qed.

Lemma below_all m l : (∀ rec, rec ∈ l → (id rec < m)%Z) → below m l = Z.of_nat (length l).
Proof.
  intros Hl. unfold below. f_equal. induction l as [|r l IH]; [done|]. rewrite filter_cons.
  rewrite decide_True by (apply Hl; left). cbn. f_equal. apply IH. intros; apply Hl. by right.
Qed.

Lemma below_app m l k : below m (l ++ k) = (below m l + below m k)%Z.
Proof. unfold below. rewrite filter_app, length_app. lia. Qed.

Lemma below_one m r : below m [r] = if decide (id r < m)%Z then 1%Z else 0%Z.
Proof. unfold below. rewrite filter_cons, filter_nil. by case_decide. Qed.

Lemma below_cons m r l : below m (r :: l) = (below m [r] + below m l)%Z.
Proof. apply (below_app m [r] l). Qed.

Lemma below_perm m l k : l ≡ₚ k → below m l = below m k.
Proof. intros H. unfold below. by rewrite H. Qed.

(** A send moves a report. *)
Lemma send_live i r s s' : track_send i s = Some (r, s') →
  live s' ≡ₚ live s ∧ next_id s' = next_id s ∧ phase s' = phase s.
Proof.
  unfold track_send. destruct (in_flight s !! i) as [r'|] eqn:E; [|done]. cbn. intros [= <- <-].
  split; [|done]. unfold live. cbn. apply delete_Permutation in E.
  set (D := delete i (in_flight s)) in *. rewrite E, <-app_assoc. cbn.
  by rewrite (app_assoc D), <-Permutation_middle, <-app_assoc.
Qed.

Ltac lengths := repeat progress (cbn in *; rewrite ?length_app, ?app_nil_r in * ); lia.

Lemma accounted_step os s o s' :
  stats_step s o s' → (counted is_numbered (os ++ [o]) ≤ u64_max)%Z → tidy s →
  accounted os s → accounted (os ++ [o]) s'.
Proof.
  intros Hs Hmax Ht [Hn Hids Hall Hb]. rewrite counted_snoc in Hmax. unfold tidy in Ht.
  inversion Hs as [? lat|? i r ? Hsend|? ? Hbegin|? ? Hnext|? dist ? Hnext]; subst.
  - (* a number is given out *)
    cbn [is_numbered] in Hmax.
    assert (Hw : wrap64 (next_id s + 1) = (next_id s + 1)%Z).
    { apply wrap64_small. unfold counted in *. ulia. }
    assert (Hl : live (track_id lat s) ≡ₚ MkReport (next_id s) lat :: live s).
    { unfold live, track_id. cbn. rewrite <-app_assoc. cbn. by rewrite <-Permutation_middle. }
    split; rewrite ?delivered_snoc, ?counted_snoc, ?app_nil_r; cbn [is_numbered next_id track_id phase]; rewrite ?Hw.
    + lia.
    + intros rec Hrec. rewrite Hl in Hrec. apply elem_of_cons in Hrec as [->|Hrec]; cbn; [lia|].
      apply Hids in Hrec. lia.
    + rewrite Hl. cbn. lia.
    + intros m l Hp. destruct (Hb m l Hp) as [Hm Hle]. rewrite (below_perm _ _ _ Hl), below_cons, below_one.
      cbn. rewrite decide_False by lia. lia.
  - destruct (send_live _ _ _ _ Hsend) as (Hl & Hnx & Hp).
    split; rewrite ?delivered_snoc, ?counted_snoc, ?app_nil_r, ?Hnx, ?Hp, ?Hl; cbn [is_numbered]; try lia.
    + intros rec Hrec. rewrite Hl in Hrec. by apply Hids.
    + intros m l Hm. rewrite (below_perm _ _ _ Hl). by apply Hb.
  - (* the bound is loaded *)
    unfold consume_begin in Hbegin. destruct (phase s) eqn:Hp; [|done]. injection Hbegin as <-. clear Hb Ht.
    unfold live in *. rewrite ?app_nil_r in *. cbn [tmp_consumed phase next_id in_flight channel from_option] in *.
    split; rewrite ?delivered_snoc, ?counted_snoc, ?app_nil_r;
      cbn [is_numbered live next_id in_flight channel tmp_consumed phase from_option]; try lia.
    + intros rec Hrec. apply Hids. set_solver.
    + destruct (tmp_consumed s); lengths.
    + intros m l [= <- <-]. rewrite below_all by (intros; apply Hids; set_solver).
      destruct (tmp_consumed s); lengths.
  - (* a report is received *)
    unfold consume_next in Hnext. destruct (phase s) as [|m l] eqn:Hp; [done|].
    destruct (channel s) as [|r c] eqn:Hc; [done|]. case_decide as Hr; [done|]. injection Hnext as <-.
    unfold live in *. rewrite Hc, Ht in *. destruct (Hb m l eq_refl) as [Hm Hle]. clear Hb.
    split; rewrite ?delivered_snoc, ?counted_snoc, ?app_nil_r;
      cbn [is_numbered next_id in_flight channel tmp_consumed phase from_option]; try lia.
    + intros rec Hrec. apply Hids. set_solver.
    + lengths.
    + intros ? ? [= <- <-]. rewrite !below_app, below_cons, below_one, decide_True in Hm by lia.
      unfold live. cbn [in_flight channel tmp_consumed from_option]. rewrite !below_app. lengths.
  - (* the loop ends *)
    unfold consume_next in Hnext. destruct (phase s) as [|m l] eqn:Hp; [done|].
    unfold live in *. destruct (channel s) as [|r c] eqn:Hc; [|case_decide as Hr; [|done]];
      injection Hnext as <- <-; rewrite Ht in *; clear Hb.
    all: split; rewrite ?delivered_snoc, ?counted_snoc, ?app_nil_r;
      cbn [is_numbered next_id in_flight channel tmp_consumed phase from_option]; try lia; try done.
    all: try lengths.
    intros rec Hrec. apply Hids. set_solver.
Qed.

Lemma stats_run_app s os s' os' s'' : stats_run s os s' → stats_run s' os' s'' → stats_run s (os ++ os') s''.
Proof.
  intros H1 H2. induction H2 as [|? os' s2 o s3 _ IH Hs]; [by rewrite app_nil_r|].
  rewrite app_assoc. econstructor; [by apply IH|done].
Qed.

Lemma counted_nonneg p os : (0 ≤ counted p os)%Z.
Proof. unfold counted. lia. Qed.

Lemma counted_app p os os' : counted p (os ++ os') = (counted p os + counted p os')%Z.
Proof. unfold counted. rewrite filter_app, length_app. lia. Qed.

Lemma delivered_app os os' : delivered (os ++ os') = delivered os ++ delivered os'.
Proof. unfold delivered. by rewrite map_app, join_app. Qed.

Lemma accounted_run os s :
  stats_run new_latency_tracker os s → (counted is_numbered os ≤ u64_max)%Z → tidy s ∧ accounted os s.
Proof.
  remember new_latency_tracker as s0 eqn:E. intros Hrun. induction Hrun as [|s0 os s1 o s2 _ IH Hs]; intros Hc; subst.
  - split; [done|]. split; cbn; try done. intros rec Hrec. set_solver.
  - assert (Ho := counted_snoc is_numbered os o).
    destruct IH as [Ht Ha]; [done|destruct (is_numbered o); lia|].
    split; [by eapply tidy_step|by eapply accounted_step].
Qed.

(** Until it delivers, a consumption keeps its bound and gains what it receives. *)
Lemma draining_run s os s' m l :
  stats_run s os s' → phase s = Draining m l → counted is_delivered os = 0%Z →
  ∃ l', phase s' = Draining m l' ∧ Z.of_nat (length l') = (Z.of_nat (length l) + counted is_received os)%Z
        ∧ delivered os = [].
Proof.
  intros Hrun Hp. induction Hrun as [s|s os s1 o s2 _ IH Hs]; intros Hd.
  { exists l. split_and!; [done|unfold counted; cbn; lia|done]. }
  rewrite counted_snoc in Hd. assert (Hpos := counted_nonneg is_delivered os).
  destruct IH as (l1 & Hp1 & Hl1 & Hd1); [done|destruct (is_delivered o); lia|].
  rewrite counted_snoc, delivered_snoc, Hd1. stats_cases Hs; cbn in Hd |- *; try lia; try done.
  1: exists l1; split_and!; [done|lia|done].
  1: exists l1; split_and!; [done|lia|done].
  eexists. split_and!; [done| |done]. rewrite length_app. cbn. simplify_eq. lia.
Qed.

(** A consumption ends whatever is reported meanwhile: it can always take
    its next step, and from the bound it loaded and what was handed out it is
    known how many messages it receives at most before it delivers. *)
Theorem consumption_ends os s m l os' s' :
  stats_run new_latency_tracker os s → phase s = Draining m l → stats_run s os' s' →
  (counted is_numbered (os ++ os') ≤ u64_max)%Z → counted is_delivered os' = 0%Z →
  is_Some (consume_next s') ∧
  (counted is_received os' ≤ m - Z.of_nat (length (delivered os ++ l)))%Z.
Proof.
  intros H1 Hp H2 Hmax Hd. destruct (draining_run _ _ _ _ _ H2 Hp Hd) as (l' & Hp' & Hl' & Hd').
  destruct (accounted_run _ _ (stats_run_app _ _ _ _ _ H1 H2) Hmax) as [_ Ha].
  destruct (acc_bound _ _ Ha _ _ Hp') as [Hb _]. split.
  - unfold consume_next. rewrite Hp'. destruct (channel s') as [|r c]; [by eexists|]. case_decide; by eexists.
  - rewrite delivered_app, Hd', app_nil_r in Hb. unfold below in Hb. rewrite length_app in *. lia.
Qed.

(** ** Percentiles *)

(** [f64::floor] and [f64::ceil]. *)
Definition f64_floor (x : f64) : f64 :=
  match x with
  | S754_finite s m e =>
      if decide (0 ≤ e)%Z then x
      else binary_normalize prec emax (Z.shiftr (cond_Zopp s (Zpos m)) (- e)) 0 s
  | _ => x
  end.

Definition f64_ceil (x : f64) : f64 :=
  match x with
  | S754_finite s m e =>
      if decide (0 ≤ e)%Z then x
      else binary_normalize prec emax (- Z.shiftr (- cond_Zopp s (Zpos m)) (- e)) 0 s
  | _ => x
  end.

Record LatencyDist := MkDist { records : list Z; sorted : bool }.

Definition dist_new (l : list Z) : LatencyDist := MkDist l false.

Definition get_raw_dist (self : LatencyDist) : LatencyDist :=
  if sorted self then self else MkDist (merge_sort Z.le (records self)) true.

(** [data[i]]. *)
Definition index (data : list Z) (i : Z) : outcome Z := expect_some (data !! Z.to_nat i).

Definition percentile (p : f64) (self : LatencyDist) : outcome (Z * LatencyDist) :=
  if f64_le f64_zero p && f64_le p (f64_of_Z 100) then
    let self := get_raw_dist self in
    let data := records self in
    match data with
    | [] => Ret (0%Z, self)
    | [x] => Ret (x, self)
    | _ =>
        let k := f64_div p (f64_of_Z 100) in
        let n := f64_of_Z (Z.of_nat (length data)) in
        let idx_f := f64_mul k (f64_sub n f64_one) in
        let idx_lower := f64_to_u64 (f64_floor idx_f) in
        let idx_upper := f64_to_u64 (f64_ceil idx_f) in
        let weight := f64_sub idx_f (f64_floor idx_f) in
        if decide (idx_lower = idx_upper) then
          x ← index data idx_lower; Ret (x, self)
        else
          lower ← index data idx_lower;
          upper ← index data idx_upper;
          let lower_val := f64_of_Z lower in
          let upper_val := f64_of_Z upper in
          Ret (f64_to_u64 (f64_add lower_val (f64_mul weight (f64_sub upper_val lower_val))), self)
    end
  else Panic.

(** [iter().sum::<u64>()] wraps in a release build; of nothing the quotient is
    not a number. *)
Definition average (self : LatencyDist) : f64 :=
  f64_div (f64_of_Z (wrap64 (sum_Z (records self)))) (f64_of_Z (Z.of_nat (length (records self)))).

Example percentile_of_four :
  percentile (f64_of_Z 50) (dist_new [40; 10; 30; 20]%Z) = Ret (25%Z, MkDist [10; 20; 30; 40]%Z true).
Proof. vm_compute. reflexivity. Qed.

(** The integer part of a value that is not a multiple of one. *)
Lemma integer_part n e : (-2000 ≤ e < 0)%Z → (n * pw e / pw 0 = n / 2 ^ (- e))%Z.
Proof.
  intros He. rewrite (pw_split e 0), Z.sub_0_l, (Z.mul_comm n) by lia. apply Z.div_mul_cancel_l.
  - apply Z.pow_nonzero; lia.
  - assert (H := pw_pos e ltac:(lia)). lia.
Qed.

Lemma whole_value m e : (0 ≤ e ≤ 971)%Z → (Zpos m * pw e = zv (Zpos m * 2 ^ e))%Z.
Proof. intros He. unfold zv. rewrite (pw_split 0 e), Z.sub_0_r by lia. ring. Qed.

Lemma floor_value x : is_fin x → (0 ≤ fv x < zv (2 ^ 53))%Z →
  is_fin (f64_floor x) ∧ fv (f64_floor x) = zv (fv x / pw 0).
Proof.
  intros Hx Hv. assert (Hp0 := pw_pos 0 ltac:(lia)).
  destruct x as [s| | |[] m e]; try done; cbn [f64_floor fv cond_Zopp] in *.
  - assert (Hp := pw_pos e ltac:(assert (H := is_fin_exponent _ _ _ Hx); lia)). lia.
  - assert (He := is_fin_exponent _ _ _ Hx). case_decide as He0.
    + split; [done|]. cbn [fv]. rewrite whole_value by lia. unfold zv. by rewrite Z.div_mul by lia.
    + assert (Hr : (0 ≤ Zpos m * pw e / pw 0 < 2 ^ 53)%Z).
      { split; [apply Z.div_pos; lia|]. apply Z.div_lt_upper_bound; [lia|]. unfold zv in Hv. lia. }
      rewrite integer_part in * by lia. rewrite Z.shiftr_div_pow2 by lia. by apply of_Z_exact.
Qed.

Lemma ceil_value x : is_fin x → (0 ≤ fv x ≤ zv (2 ^ 53 - 1))%Z →
  is_fin (f64_ceil x) ∧ fv (f64_ceil x) = zv (- (- fv x / pw 0)).
Proof.
  intros Hx Hv. assert (Hp0 := pw_pos 0 ltac:(lia)).
  destruct x as [s| | |[] m e]; try done; cbn [f64_ceil fv cond_Zopp] in *.
  - assert (Hp := pw_pos e ltac:(assert (H := is_fin_exponent _ _ _ Hx); lia)). lia.
  - assert (He := is_fin_exponent _ _ _ Hx). case_decide as He0.
    + split; [done|]. cbn [fv]. rewrite whole_value by lia. unfold zv.
      rewrite <-Z.mul_opp_l, Z.div_mul by lia. by rewrite Z.opp_involutive.
    + assert (Hr : (- (2 ^ 53 - 1) ≤ - (Zpos m * pw e) / pw 0 ≤ 0)%Z).
      { split; [apply Z.div_le_lower_bound; unfold zv in Hv; lia|]. apply Z.div_le_upper_bound; lia. }
      rewrite <-Z.mul_opp_l, integer_part in * by lia. rewrite Z.shiftr_div_pow2 by lia.
      apply of_Z_exact. lia.
Qed.

(** An operation whose exact result is an integer below 2^53 returns it. *)
Lemma sub_exact x y a b :
  is_fin x → is_fin y → fv x = zv a → fv y = zv b → (0 ≤ a - b < 2 ^ 53)%Z →
  is_fin (f64_sub x y) ∧ fv (f64_sub x y) = zv (a - b).
Proof.
  intros Hx Hy Ha Hb Hab. destruct (of_Z_exact _ Hab) as [Hf Hv].
  destruct (sub_between x y _ _ Hx Hy Hf Hf) as [? ?]; [unfold zv in *; lia|]. split; [done|lia].
Qed.

Lemma value_zero x : is_fin x → fv x = 0%Z → ∃ s, x = S754_zero s.
Proof.
  intros Hx Hv. destruct x as [s| | |s m e]; [by exists s|done..|]. exfalso.
  assert (He := is_fin_exponent _ _ _ Hx). assert (Hp := pw_pos e ltac:(lia)). cbn [fv] in Hv. destruct s; lia.
Qed.

(** The rank of a percentile lies in the range of the indices. *)
Lemma rank_between p n :
  is_fin p → (0 ≤ fv p ≤ zv 100)%Z → (fv p = 0 ∨ pw (-400) ≤ fv p)%Z → (1 ≤ n < 2 ^ 53)%Z →
  let idx := f64_mul (f64_div p (f64_of_Z 100)) (f64_sub (f64_of_Z n) f64_one) in
  is_fin idx ∧ (0 ≤ fv idx ≤ zv (n - 1))%Z.
Proof.
  intros Hp Hv Hsmall Hn idx. destruct one_value as [H1 Hv1]. destruct (of_Z_exact n ltac:(lia)) as [Hfn Hvn].
  destruct (of_Z_exact 100 ltac:(lia)) as [Hf100 Hv100]. assert (Hp0 := pw_pos 0 ltac:(lia)).
  destruct (sub_exact (f64_of_Z n) f64_one n 1) as [Hfs Hvs]; [done..|by rewrite Hv1; unfold zv; lia|lia|].
  assert (Hk : is_fin (f64_div p (f64_of_Z 100)) ∧ (fv f64_zero ≤ fv (f64_div p (f64_of_Z 100)) ≤ fv f64_one)%Z).
  { destruct Hsmall as [H0|Hlow].
    - destruct (value_zero p Hp H0) as [s ->]. rewrite Hv1.
      replace (f64_div (S754_zero s) (f64_of_Z 100)) with (S754_zero s) by (destruct s; vm_compute; reflexivity).
      cbn [is_fin fv f64_zero]. split; [exact I|lia].
    - assert (H7 : (pw 7 = 128 * pw 0)%Z) by (rewrite (pw_split 0 7) by lia; apply Z.mul_comm).
      assert (H6 : (pw 6 = 64 * pw 0)%Z) by (rewrite (pw_split 0 6) by lia; apply Z.mul_comm).
      apply (div_between p _ f64_zero f64_one (-400) 7 6 7 Hp Hf100 I H1); [lia|lia|..].
      + split; [exact Hlow|]. rewrite H7. apply (Z.le_trans _ (zv 100)); [apply Hv|].
        by apply Z.mul_le_mono_nonneg_r; [apply Z.lt_le_incl|].
      + rewrite Hv100, H6, H7. by split; apply Z.mul_le_mono_nonneg_r; [apply Z.lt_le_incl| |apply Z.lt_le_incl|].
      + clear Hlow H6 H7. rewrite Hv1, Hv100, pw_0. cbn [fv f64_zero]. unfold zv in *. rewrite pw_0 in *. assert (Hs := scale_pos). nia. }
  rewrite Hv1 in Hk. destruct Hk as [Hfk Hvk]. cbn [fv f64_zero] in Hvk.
  destruct (mul_between (f64_div p (f64_of_Z 100)) (f64_sub (f64_of_Z n) f64_one) f64_zero
    (f64_sub (f64_of_Z n) f64_one) Hfk Hfs I Hfs) as [Hf Hb].
  - rewrite Hvs, <-pw_0. cbn [fv f64_zero]. assert (HN : (0 ≤ zv (n - 1))%Z) by (unfold zv; nia).
    split; [apply Z.mul_nonneg_nonneg; lia|]. rewrite (Z.mul_comm (zv _)).
    apply Z.mul_le_mono_nonneg_r; [done|apply Hvk].
  - rewrite Hvs in Hb. by split.
Qed.

(** A distribution of some records, before or after it was sorted. *)
Definition dist_of (l : list Z) (d : LatencyDist) : Prop :=
  d = dist_new l ∨ d = MkDist (merge_sort Z.le l) true.

Definition small (z : Z) : Prop := (0 ≤ z < 2 ^ 53)%Z.

Lemma raw_of l d : dist_of l d → get_raw_dist d = MkDist (merge_sort Z.le l) true.
Proof. by intros [-> | ->]. Qed.

(** The weighted mean of two latencies lies between them. *)
Lemma interpolation_between w x y :
  is_fin w → (0 ≤ fv w ≤ pw 0)%Z → small x → small y → (x ≤ y)%Z →
  (x ≤ f64_to_u64 (f64_add (f64_of_Z x) (f64_mul w (f64_sub (f64_of_Z y) (f64_of_Z x)))) ≤ y)%Z.
Proof.
  intros Hw Hvw Hx Hy Hxy. destruct (of_Z_exact x Hx) as [Hfx Hvx]. destruct (of_Z_exact y Hy) as [Hfy Hvy].
  unfold small in *. destruct (sub_exact _ _ y x Hfy Hfx Hvy Hvx) as [Hfd Hvd]; [lia|].
  assert (Hp0 := pw_pos 0 ltac:(lia)). assert (HN : (0 ≤ zv (y - x))%Z) by (unfold zv; nia).
  destruct (mul_between w _ f64_zero _ Hw Hfd I Hfd) as [Hfm Hvm].
  { rewrite Hvd, <-pw_0. cbn [fv f64_zero]. split; [apply Z.mul_nonneg_nonneg; lia|].
    rewrite (Z.mul_comm (zv _)). apply Z.mul_le_mono_nonneg_r; [done|apply Hvw]. }
  rewrite Hvd in Hvm. cbn [fv f64_zero] in Hvm.
  assert (Hsum : (zv x + zv (y - x) = zv y)%Z) by (unfold zv; ring).
  destruct (add_between _ _ _ _ Hfx Hfm Hfx Hfy) as [Hfa Hva]; [rewrite Hvx, Hvy; lia|].
  rewrite Hvx, Hvy in Hva. apply to_u64_between; [done|lia|ulia|done].
Qed.

Lemma sorted_lookup l i j x y : Sorted Z.le l → l !! i = Some x → l !! j = Some y → i ≤ j → (x ≤ y)%Z.
Proof.
  intros Hs Hx Hy Hij. destruct (decide (i = j)) as [->|Hne]; [assert (x = y) by congruence; lia|].
  apply (StronglySorted_app_1_elem_of Z.le (take j l) (drop j l)).
  - rewrite take_drop. by apply Sorted_StronglySorted; [exact _|].
  - apply (list_elem_of_lookup_2 _ i). rewrite lookup_take_lt; [done|lia].
  - apply (list_elem_of_lookup_2 _ 0). by rewrite lookup_drop, Nat.add_0_r.
Qed.

Lemma floor_index x : is_fin x → (0 ≤ fv x < zv (2 ^ 53))%Z → f64_to_u64 (f64_floor x) = (fv x / pw 0)%Z.
Proof.
  intros Hx Hv. destruct (floor_value x Hx Hv) as [Hf Hfv]. assert (Hp0 := pw_pos 0 ltac:(lia)).
  assert (Hq : (0 ≤ fv x / pw 0 < 2 ^ 53)%Z).
  { split; [apply Z.div_pos; lia|]. apply Z.div_lt_upper_bound; [lia|]. rewrite Z.mul_comm. apply Hv. }
  assert (H := to_u64_between _ (fv x / pw 0) (fv x / pw 0) Hf ltac:(lia) ltac:(ulia) ltac:(lia)). lia.
Qed.

Lemma ceil_index x : is_fin x → (0 ≤ fv x ≤ zv (2 ^ 53 - 1))%Z →
  f64_to_u64 (f64_ceil x) = (- (- fv x / pw 0))%Z.
Proof.
  intros Hx Hv. destruct (ceil_value x Hx Hv) as [Hf Hfv]. assert (Hp0 := pw_pos 0 ltac:(lia)).
  assert (Hq : (0 ≤ - (- fv x / pw 0) ≤ 2 ^ 53 - 1)%Z).
  { assert (- (2 ^ 53 - 1) ≤ - fv x / pw 0)%Z by (apply Z.div_le_lower_bound; unfold zv in Hv; lia).
    assert (- fv x / pw 0 ≤ 0)%Z by (apply Z.div_le_upper_bound; lia). lia. }
  set (r := (- (- fv x / pw 0))%Z) in *.
  assert (H := to_u64_between _ r r Hf ltac:(lia) ltac:(ulia) ltac:(lia)). lia.
Qed.

(** The two indices are equal or neighbours, and within the data. *)
Lemma indices_between x n : (0 ≤ fv x ≤ zv (n - 1))%Z →
  (0 ≤ fv x / pw 0 ≤ - (- fv x / pw 0) ∧ - (- fv x / pw 0) ≤ fv x / pw 0 + 1 ∧ - (- fv x / pw 0) ≤ n - 1)%Z.
Proof.
  intros Hv. assert (Hp0 := pw_pos 0 ltac:(lia)). unfold zv in Hv. set (P := pw 0) in *. clearbody P.
  assert (H1 := Z.div_mod (fv x) P ltac:(lia)). assert (H2 := Z.mod_pos_bound (fv x) P ltac:(lia)).
  assert (H3 := Z.div_mod (- fv x) P ltac:(lia)). assert (H4 := Z.mod_pos_bound (- fv x) P ltac:(lia)).
  split_and!; [apply Z.div_pos; lia|nia..].
Qed.

Lemma weight_between x : is_fin x → (0 ≤ fv x < zv (2 ^ 53))%Z →
  is_fin (f64_sub x (f64_floor x)) ∧ (0 ≤ fv (f64_sub x (f64_floor x)) ≤ pw 0)%Z.
Proof.
  intros Hx Hv. destruct (floor_value x Hx Hv) as [Hf Hfv]. destruct one_value as [H1 Hv1].
  assert (Hp0 := pw_pos 0 ltac:(lia)). rewrite <-Hv1. apply (sub_between _ _ f64_zero f64_one Hx Hf I H1).
  rewrite Hv1, Hfv. cbn [fv f64_zero]. unfold zv.
  assert (Hd := Z.div_mod (fv x) (pw 0) ltac:(lia)). assert (Hm := Z.mod_pos_bound (fv x) (pw 0) ltac:(lia)). lia.
Qed.

(** A percentile is one of the records or lies between two neighbours of
    the sorted records; No index is out of range. *)
Theorem percentile_between_neighbours l d p :
  dist_of l d → l ≠ [] → Forall small l → (Z.of_nat (length l) < 2 ^ 53)%Z →
  is_fin p → (fv p = 0 ∨ pw (-400) ≤ fv p)%Z → (0 ≤ fv p ≤ zv 100)%Z →
  ∃ v i j x y, percentile p d = Ret (v, MkDist (merge_sort Z.le l) true) ∧
    merge_sort Z.le l !! i = Some x ∧ merge_sort Z.le l !! j = Some y ∧
    i ≤ j ≤ S i ∧ (x ≤ v ≤ y)%Z.
Proof.
  intros Hd Hne Hsmall Hlen Hp Hcut Hv. unfold percentile. rewrite (raw_of l d Hd). cbn [records].
  destruct (of_Z_exact 100 ltac:(lia)) as [Hf100 Hv100].
  rewrite (proj2 (le_value f64_zero p I Hp)) by apply Hv.
  rewrite (proj2 (le_value p (f64_of_Z 100) Hp Hf100)) by (rewrite Hv100; apply Hv). cbn [andb].
  assert (Hperm := merge_sort_Permutation Z.le l). assert (Hsort := Sorted_merge_sort Z.le l).
  set (data := merge_sort Z.le l) in *. clearbody data.
  assert (Hs : Forall small data) by by rewrite Hperm.
  assert (Hl : length data = length l) by by rewrite Hperm. clear Hperm.
  destruct data as [|a [|b data']] eqn:E.
  { destruct l; [congruence|discriminate Hl]. }
  { exists a, 0, 0, a, a. split; [reflexivity|]. split; [reflexivity|]. split; [reflexivity|]. lia. }
  rewrite <-E in *. set (idx := f64_mul _ _).
  destruct (rank_between p (Z.of_nat (length data)) Hp Hv Hcut) as [Hfi Hvi].
  { rewrite Hl. split; [|done]. rewrite <-Hl, E. cbn. lia. }
  fold idx in Hfi, Hvi. clearbody idx.
  assert (Hp0 := pw_pos 0 ltac:(lia)).
  assert (Hb : (zv (Z.of_nat (length data) - 1) ≤ zv (2 ^ 53 - 1) < zv (2 ^ 53))%Z).
  { rewrite Hl. split; [apply zv_mono; lia|]. unfold zv. nia. }
  assert (H53 : (0 ≤ fv idx < zv (2 ^ 53))%Z) by (split; [apply Hvi|]; eapply Z.le_lt_trans; [apply Hvi|lia]).
  assert (H52 : (0 ≤ fv idx ≤ zv (2 ^ 53 - 1))%Z) by (split; [apply Hvi|]; eapply Z.le_trans; [apply Hvi|lia]).
  rewrite (floor_index idx Hfi H53), (ceil_index idx Hfi H52).
  destruct (indices_between idx _ Hvi) as ([H0 Hqr] & Hr & Hn).
  destruct (weight_between idx Hfi H53) as [Hfw Hvw].
  set (q := (fv idx / pw 0)%Z) in *. set (r := (- (- fv idx / pw 0))%Z) in *.
  destruct (lookup_lt_is_Some_2 data (Z.to_nat q)) as [x Hx]; [lia|].
  destruct (lookup_lt_is_Some_2 data (Z.to_nat r)) as [y Hy]; [lia|].
  unfold index. case_decide as Heq.
  - exists x, (Z.to_nat q), (Z.to_nat q), x, x. rewrite Hx.
    split; [reflexivity|]. split; [reflexivity|]. split; [reflexivity|]. lia.
  - rewrite Hx, Hy. eexists _, (Z.to_nat q), (Z.to_nat r), x, y.
    assert (Hxy : (x ≤ y)%Z) by (apply (sorted_lookup data (Z.to_nat q) (Z.to_nat r)); [done..|lia]).
    assert (Hb' := interpolation_between _ x y Hfw Hvw (Forall_lookup_1 _ _ _ _ Hs Hx)
      (Forall_lookup_1 _ _ _ _ Hs Hy) Hxy).
    split; [reflexivity|]. split; [exact Hx|]. split; [exact Hy|]. split; [lia|exact Hb'].
Qed.

(** The records 40, 10, 30, 20 and the percentile 90. *)
Lemma percentile_witness :
  ∃ v i j x y, percentile (f64_of_Z 90) (dist_new [40; 10; 30; 20]%Z) = Ret (v, MkDist [10; 20; 30; 40]%Z true) ∧
    [10; 20; 30; 40]%Z !! i = Some x ∧ [10; 20; 30; 40]%Z !! j = Some y ∧ i ≤ j ≤ S i ∧ (x ≤ v ≤ y)%Z.
Proof.
  apply (percentile_between_neighbours [40; 10; 30; 20]%Z).
  - by left.
  - discriminate.
  - decided.
  - decided.
  - decided.
  - right. decided.
  - decided.
Defined.

(** Two reports; the second is sent first, while the consumer runs. *)
Definition two_reports : list observation := [Numbered; Numbered; Sent (MkReport 0 5); Began].

Lemma two_reports_run :
  stats_run new_latency_tracker two_reports
    (MkStats 2 [MkReport 1 7] [MkReport 0 5] None (Draining 2 [])).
Proof.
  repeat (eapply (RunSnoc _ [_; _; _]) || eapply (RunSnoc _ [_; _]) || eapply (RunSnoc _ [_]) || eapply (RunSnoc _ []));
    [apply RunNil|apply (StepNumber _ 5)|apply (StepNumber _ 7)|by apply (StepSend _ 0)|by apply StepBegin].
Defined.

Lemma reports_consumed_once_witness :
  delivered two_reports ++ held (MkStats 2 [MkReport 1 7] [MkReport 0 5] None (Draining 2 []))
    ++ map latency [MkReport 0 5] = sent two_reports.
Proof. exact (reports_consumed_once _ _ two_reports_run). Defined.

Lemma consumption_ends_witness :
  let s' := MkStats 3 [MkReport 1 7; MkReport 2 9] [] None (Draining 2 [5%Z]) in
  is_Some (consume_next s') ∧ (counted is_received [Numbered; Received] ≤ 2 - 0)%Z.
Proof.
  intros s'. apply (consumption_ends _ _ 2 [] [Numbered; Received] s' two_reports_run eq_refl).
  - eapply (RunSnoc _ [_]); [eapply (RunSnoc _ []); [apply RunNil|apply (StepNumber _ 9)]|by apply StepReceive].
  - decided.
  - reflexivity.
Defined.
