(* ===== verification/TraceService.v ===== *)
(** The services of a replayed trace (apps/tracebench): the names and call
    sequences of trace-config/src/svc, and generic-service's handling of a
    request (core.rs, parent_chain.rs, and the handlers of main.rs): a service
    calls the children of one step concurrently and the steps in order, and
    skips the services on the way from the root, which a metadata header lists.
    A cluster is a map from names to services; a request to it is a tree of
    calls, which this file runs with fuel. *)
From stdpp Require Import sorting.
From S2P Require Export Float64 Hooks.

(** ** Names *)

Definition HYPHEN : Z := 45.
Definition UNDERSCORE : Z := 95.
Definition CHAIN_DELIMITER : Z := 62.

(** [str::to_lowercase] of an ASCII string. *)
Definition to_lowercase : bytes → bytes := map (λ b, if decide (65 ≤ b ≤ 90)%Z then (b + 32)%Z else b).

Definition format_svc_name (s : bytes) : bytes :=
  to_lowercase (map (λ b, if decide (b = UNDERSCORE) then HYPHEN else b) s).

(** [ServiceName] is the formatted name. *)
Notation ServiceName := bytes.

Definition from_string (s : bytes) : ServiceName := format_svc_name s.

Definition is_root_service (s : ServiceName) : bool :=
  bool_decide (is_Some (strip_prefix (bytes_of_string "user") s)).

Definition COMMA : Z := 44.
Definition QUOTE : Z := 34.

(** [str::trim] of an ASCII string, and [trim_matches] of a character. *)
Fixpoint trim_start (p : Z → bool) (s : bytes) : bytes :=
  match s with [] => [] | b :: s' => if p b then trim_start p s' else s end.

Definition trim_matches (p : Z → bool) (s : bytes) : bytes :=
  reverse (trim_start p (reverse (trim_start p s))).

Definition is_whitespace (b : Z) : bool := bool_decide (9 ≤ b ≤ 13 ∨ b = 32)%Z.

(** [GraphId] is the normalized identifier. *)
Definition normalize_graph_id (s : bytes) : bytes :=
  let s := default [] (head (split COMMA s)) in
  let s := trim_matches (λ b, bool_decide (b = QUOTE)) (trim_matches is_whitespace s) in
  let s := match strip_prefix (bytes_of_string "s-") s, strip_prefix (bytes_of_string "s_") s,
                 strip_prefix (bytes_of_string "S-") s with
           | Some r, _, _ | None, Some r, _ | None, None, Some r => bytes_of_string "S_" ++ r
           | None, None, None => s
           end in
  map (λ b, if decide (b = HYPHEN) then UNDERSCORE else b) s.

Example graph_id_of_a_csv_field :
  normalize_graph_id (bytes_of_string " s-86516878,0,0") = bytes_of_string "S_86516878".
Proof. vm_compute. reflexivity. Qed.

(** ** Call sequences *)

Record VariantChoice := MkChoice { choice_variant : bytes; choice_probability : f64 }.

Record CallSequenceEntry := MkEntry {
  service_name : ServiceName;
  method_name : bytes;
  callee_variants : list VariantChoice;
  probability : f64;
}.

Record CallSequenceVariant := MkVariant {
  variant_id : bytes;
  variant_probability : f64;
  sequence : list (list CallSequenceEntry);
}.

(** The variants in the order in which the hash map yields them. *)
Record MethodCallSequence := MkMethodSequence { variants : list (bytes * CallSequenceVariant) }.

Record CallSequence := MkSequence { methods : gmap bytes MethodCallSequence }.

Definition get_method (self : CallSequence) (method_id : bytes) : option MethodCallSequence :=
  methods self !! method_id.

Definition get_variant (self : MethodCallSequence) (id : bytes) : option CallSequenceVariant :=
  find_map (λ '(k, v), if decide (k = id) then Some v else None) (variants self).

(** [key.split("::")]: at every pair of colons, from the left. *)
Fixpoint split_pair (s : bytes) : list bytes :=
  match s with
  | [] => [[]]
  | [b] => [[b]]
  | b :: ((c :: s'') as s') =>
      if decide (b = 58 ∧ c = 58)%Z then [] :: split_pair s''
      else match split_pair s' with [] => [[b]] | p :: ps => (b :: p) :: ps end
  end.

Definition COLONS : bytes := [58; 58]%Z.

(** [CallSequenceEntry::try_from]. *)
Definition entry_try_from (key : bytes) : result CallSequenceEntry bytes :=
  match split_pair key with
  | [s; m] => Ok (MkEntry (from_string s) m [] f64_one)
  | _ => Err (bytes_of_string "Invalid call sequence entry format: " ++ key ++
              bytes_of_string ", expected 'service::method'")
  end.

Definition normalize_method_key (key : bytes) : bytes :=
  match split_pair key with
  | [s; m] => from_string s ++ COLONS ++ m
  | _ => key
  end.

(** The conditional format of a graph, as it is read; hash maps in the order in
    which they yield their entries. *)
Record RawCall := MkRawCall { target : bytes; raw_callee_variants : list (bytes * f64) }.
Record RawVariant := MkRawVariant { raw_probability : f64; raw_sequence : list (list RawCall) }.
Record RawMethod := MkRawMethod { raw_variants : list (bytes * RawVariant) }.

(** [String::cmp]. *)
Fixpoint bytes_le (a b : bytes) : bool :=
  match a, b with
  | [], _ => true
  | _ :: _, [] => false
  | x :: a, y :: b => if decide (x = y) then bytes_le a b else bool_decide (x < y)%Z
  end.

Definition clamp_probability (p : f64) : f64 := f64_clamp p f64_zero f64_one.

Definition parse_variant_choices (raw_choices : list (bytes * f64)) : list VariantChoice :=
  merge_sort (λ a b, bytes_le (choice_variant a) (choice_variant b))
    (map (λ '(id, p), MkChoice id (clamp_probability p)) raw_choices).

Definition parse_call_sequence_entry (raw_call : RawCall) : result CallSequenceEntry bytes :=
  match entry_try_from (target raw_call) with
  | Ok e => Ok (MkEntry (service_name e) (method_name e) (parse_variant_choices (raw_callee_variants raw_call))
                  (probability e))
  | Err m => Err m
  end.

(** [iter().map(f).collect::<Result<Vec<_>, _>>()]. *)
Fixpoint collect {A B E} (f : A → result B E) (l : list A) : result (list B) E :=
  match l with
  | [] => Ok []
  | x :: l =>
      match f x with
      | Ok y => match collect f l with Ok ys => Ok (y :: ys) | Err e => Err e end
      | Err e => Err e
      end
  end.

Definition parse_sequence (raw : list (list RawCall)) : result (list (list CallSequenceEntry)) bytes :=
  collect (collect parse_call_sequence_entry) raw.

Definition parse_method_call_sequence (raw_method : RawMethod) : result MethodCallSequence bytes :=
  match collect (λ '(id, v),
      match parse_sequence (raw_sequence v) with
      | Ok sequence => Ok (id, MkVariant id (clamp_probability (raw_probability v)) sequence)
      | Err e => Err e
      end) (raw_variants raw_method) with
  | Ok variants => Ok (MkMethodSequence variants)
  | Err e => Err e
  end.

(** [load_call_sequence], once the graph is read. *)
Definition load_methods (raw : list (bytes * RawMethod)) : result CallSequence bytes :=
  match collect (λ '(method_id, raw_method),
      match parse_method_call_sequence raw_method with
      | Ok m => Ok (normalize_method_key method_id, m)
      | Err e => Err e
      end) raw with
  | Ok l => Ok (MkSequence (foldl (λ methods '(k, m), <[k := m]> methods) ∅ l))
  | Err e => Err e
  end.

(** ** Status *)

Inductive Code := InternalError | NotFound | PermissionDenied | InvalidArgument | Cancelled | Unknown.
Record Status := MkStatus { code : Code; message : bytes }.

Definition internal (m : bytes) : Status := MkStatus InternalError m.
Definition not_found (m : bytes) : Status := MkStatus NotFound m.

(** ** The parent chain *)

Section requests.
Context {M : Type} {HM : Metadata M}.

Definition PARENT_CHAIN_METADATA_KEY : bytes := bytes_of_string "parent-chain".

Definition encode_parent_chain (chain : list ServiceName) : result (option bytes) Status :=
  match chain with
  | [] => Ok None
  | _ => match ascii_value (M:=M) (join CHAIN_DELIMITER chain) with
         | Ok v => Ok (Some v)
         | Err _ => Err (internal (bytes_of_string "Failed to encode parent chain metadata"))
         end
  end.

Definition decode_parent_chain (metadata : M) : result (list ServiceName) Status :=
  match meta_get metadata PARENT_CHAIN_METADATA_KEY with
  | None => Ok []
  | Some value =>
      match meta_to_str (M:=M) value with
      | Err _ => Err (MkStatus InvalidArgument (bytes_of_string "Parent chain metadata is not valid ASCII"))
      | Ok parents_str =>
          if decide (parents_str = []) then Ok []
          else Ok (map from_string (filter (λ name, name ≠ []) (split CHAIN_DELIMITER parents_str)))
      end
  end.

(** [set_method_name_override] and [set_service_name_override]. *)
Definition set_override (key what name : bytes) (metadata : M) : result M Status :=
  match ascii_value (M:=M) name with
  | Ok v => Ok (meta_insert metadata key v)
  | Err e => Err (internal (bytes_of_string "Failed to set " ++ what ++ bytes_of_string ": " ++ e))
  end.

(** ** Sampling *)

(** [iter().sum::<f64>()]. *)
Definition f64_sum (l : list f64) : f64 := foldl f64_add f64_zero l.

(** The loop that lowers the threshold until it is not positive. *)
Fixpoint sample_loop {A} (weight : A → f64) (threshold : f64) (l : list A) : option A :=
  match l with
  | [] => None
  | x :: l =>
      let threshold := f64_sub threshold (f64_max (weight x) f64_zero) in
      if f64_le threshold f64_zero then Some x else sample_loop weight threshold l
  end.

Definition total_weight {A} (weight : A → f64) (l : list A) : f64 :=
  f64_sum (map (λ x, f64_max (weight x) f64_zero) l).

(** [random] is [rand::random::<f64>()], which is drawn if the total is positive. *)
Definition sample_weighted {A} (weight : A → f64) (random : f64) (l : list A) : option A :=
  if f64_le (total_weight weight l) f64_zero then None
  else sample_loop weight (f64_mul random (total_weight weight l)) l.

Definition select_call_sequence_variant (ms : MethodCallSequence) (requested : option bytes) (random : f64)
    : result CallSequenceVariant Status :=
  let sampled :=
    match sample_weighted variant_probability random (map snd (variants ms)) with
    | Some v => Ok v
    | None => Err (not_found (bytes_of_string "Call sequence method has no variant with positive probability"))
    end in
  match requested with
  | Some id =>
      if decide (id = []) then sampled
      else match get_variant ms id with
           | Some v => Ok v
           | None => Err (not_found (bytes_of_string "Call sequence variant '" ++ id ++ bytes_of_string "' not found"))
           end
  | None => sampled
  end.

(** ** A service *)

Record InvokeRequest := MkInvoke {
  req_id : Z;
  start_at : Z;
  invoke_method : bytes;
  invoke_graph : bytes;
  invoke_variant : bytes;
  metadata : M;
}.

(** [ServiceCore] with its configuration: the children of the call graph, the
    methods that have a latency distribution, the call sequences by graph, and
    the registry of clients (ClientRegistry.v). *)
Record ServiceCore := MkCore {
  self_svc_name : ServiceName;
  child_weights : gmap ServiceName Z;
  method_latency : option (bytes → bytes → bool);
  call_sequences : gmap bytes CallSequence;
  clients : gset ServiceName;
  ready : bool;
}.

Definition call_sequence_method_id (self : ServiceCore) (method_id : bytes) : bytes :=
  if decide (method_id = bytes_of_string "USER") then bytes_of_string "USER"
  else self_svc_name self ++ COLONS ++ method_id.

(** A child call: its target and its request. *)
Record Call := MkCall { callee : ServiceName; request : InvokeRequest }.

(** The facts of the request that its calls repeat. *)
Record RequestFacts := MkFacts { f_req_id : Z; f_start_at : Z; f_graph : bytes }.

(** [Request::new] has [no_metadata]. *)
Context (no_metadata : M).

Definition child_request (facts : RequestFacts) (chain_metadata : option bytes) (entry : CallSequenceEntry)
    (variant : option bytes) : result InvokeRequest Status :=
  match set_override METHOD_NAME_OVERRIDE_HEADER (bytes_of_string "method name override") (method_name entry)
          no_metadata with
  | Err e => Err e
  | Ok md =>
      match set_override SERVICE_NAME_OVERRIDE_HEADER (bytes_of_string "service name override")
              (service_name entry) md with
      | Err e => Err e
      | Ok md =>
          Ok (MkInvoke (f_req_id facts) (f_start_at facts) (method_name entry) (f_graph facts)
                (default [] variant)
                (match chain_metadata with
                 | Some v => meta_insert md PARENT_CHAIN_METADATA_KEY v
                 | None => md
                 end))
      end
  end.

(** The loop over the entries of a step. [rng] are the draws of this handler,
    [k] counts those made. A child without a client is skipped until the
    registry is ready, and a panic afterwards. *)
Fixpoint issue (self : ServiceCore) (parent_chain : list ServiceName) (chain_metadata : option bytes)
    (facts : RequestFacts) (rng : nat → f64) (k : nat) (step : list CallSequenceEntry)
    : outcome (result (list Call) Status * nat) :=
  match step with
  | [] => Ret (Ok [], k)
  | entry :: step =>
      let child := service_name entry in
      let continue := issue self parent_chain chain_metadata facts rng in
      if f64_le (probability entry) (rng k) then continue (S k) step
      else if decide (child = self_svc_name self) then continue (S k) step
      else if decide (child ∈ parent_chain) then continue (S k) step
      else if decide (child ∈ clients self) then
        let choices := callee_variants entry in
        let choice := sample_weighted choice_probability (rng (S k)) choices in
        let k := if f64_le (total_weight choice_probability choices) f64_zero then S k else S (S k) in
        match child_request facts chain_metadata entry (choice_variant <$> choice) with
        | Err e => Ret (Err e, k)
        | Ok req =>
            '(r, k) ← continue k step;
            Ret (match r with Ok calls => Ok (MkCall child req :: calls) | Err e => Err e end, k)
        end
      else if ready self then Panic
      else continue (S k) step
  end.

(** ** A cluster *)

(** The calls of a step end in the order that [completion] puts their results
    into; the first error among them is returned. *)
Definition first_error (results : list (result unit Status)) : option Status :=
  find_map (λ r, match r with Err e => Some e | Ok _ => None end) results.

Section handler.
Context (completion : nat → list (result unit Status) → list (result unit Status)).
(** A call and its result, with the step and the position it has. *)
Context (send : nat → nat → Call → option (result unit Status)).

Fixpoint run_steps (self : ServiceCore) (parent_chain : list ServiceName) (chain_metadata : option bytes)
    (facts : RequestFacts) (rng : nat → f64) (i k : nat) (steps : list (list CallSequenceEntry))
    : option (outcome (result unit Status)) :=
  match steps with
  | [] => Some (Ret (Ok ()))
  | step :: steps =>
      match issue self parent_chain chain_metadata facts rng k step with
      | Panic => Some Panic
      | Ret (Err e, _) => Some (Ret (Err e))
      | Ret (Ok calls, k) =>
          results ← mapM (λ '(j, c), send i j c) (imap (λ j c, (j, c)) calls);
          match first_error (completion i results) with
          | Some e => Some (Ret (Err e))
          | None => run_steps self parent_chain chain_metadata facts rng (S i) k steps
          end
      end
  end.

Definition fanout_with_call_sequence (self : ServiceCore) (parent_chain : list ServiceName)
    (facts : RequestFacts) (rng : nat → f64) (k : nat) (method_id : bytes) (variant : option bytes)
    (call_sequence : CallSequence) : option (outcome (result unit Status)) :=
  let lookup_method_id := call_sequence_method_id self method_id in
  match get_method call_sequence lookup_method_id with
  | None =>
      Some (Ret (Err (not_found (bytes_of_string "Call sequence method '" ++ lookup_method_id ++
        bytes_of_string "' not found for graph '" ++ f_graph facts ++ bytes_of_string "'"))))
  | Some method_sequence =>
      match select_call_sequence_variant method_sequence variant (rng k) with
      | Err e => Some (Ret (Err e))
      | Ok selected =>
          let k := if decide (variant = None ∨ variant = Some []) then S k else k in
          match encode_parent_chain (parent_chain ++ [self_svc_name self]) with
          | Err e => Some (Ret (Err e))
          | Ok chain_metadata =>
              run_steps self parent_chain chain_metadata facts rng 0 k (sequence selected)
          end
      end
  end.

Definition fanout (self : ServiceCore) (parent_chain : list ServiceName) (facts : RequestFacts)
    (rng : nat → f64) (k : nat) (method_id : bytes) (variant : option bytes)
    : option (outcome (result unit Status)) :=
  match call_sequences self !! f_graph facts with
  | None =>
      Some (Ret (Err (not_found (bytes_of_string "Call sequence missing for service " ++ self_svc_name self ++
        bytes_of_string " and graph " ++ f_graph facts))))
  | Some call_sequence =>
      fanout_with_call_sequence self parent_chain facts rng k method_id variant call_sequence
  end.

(** The latency is the first draw; spinning and sleeping change no state. *)
Definition handle_method (self : ServiceCore) (method_id : bytes) (variant : option bytes)
    (parent_chain : list ServiceName) (facts : RequestFacts) (rng : nat → f64)
    : option (outcome (result unit Status)) :=
  match method_latency self with
  | None => Some (Ret (Err (internal (bytes_of_string "Configuration error: method latency not configured"))))
  | Some get_method_dist =>
      if get_method_dist method_id (f_graph facts) then
        if decide (child_weights self = ∅) then Some (Ret (Ok ()))
        else fanout self parent_chain facts rng 1 method_id variant
      else Some (Ret (Err (not_found (bytes_of_string "Method not found"))))
  end.

Definition invoke (self : ServiceCore) (req : InvokeRequest) (rng : nat → f64)
    : option (outcome (result unit Status)) :=
  if is_root_service (self_svc_name self) then
    Some (Ret (Err (MkStatus PermissionDenied
      (bytes_of_string "Root services cannot receive Invoke requests. Use the Root endpoint instead."))))
  else
    match decode_parent_chain (metadata req) with
    | Err e => Some (Ret (Err e))
    | Ok parent_chain =>
        let variant := if decide (invoke_variant req = []) then None else Some (invoke_variant req) in
        handle_method self (invoke_method req) variant parent_chain
          (MkFacts (req_id req) (start_at req) (normalize_graph_id (invoke_graph req))) rng
    end.

(** [RootRequest] has the request's facts, with the graph as it was sent. *)
Definition root (self : ServiceCore) (req : RequestFacts) (rng : nat → f64)
    : option (outcome (result unit Status)) :=
  let facts := MkFacts (f_req_id req) (f_start_at req) (normalize_graph_id (f_graph req)) in
  if is_root_service (self_svc_name self) then
    match call_sequences self !! f_graph facts with
    | None =>
        Some (Ret (Err (not_found (bytes_of_string "USER call sequence not found for graph: " ++ f_graph facts))))
    | Some user_call_sequence =>
        fanout_with_call_sequence self [] facts rng 0 (bytes_of_string "USER") None user_call_sequence
    end
  else
    Some (Ret (Err (MkStatus PermissionDenied
      (bytes_of_string "Root endpoint can only be called on service start with 'user', not " ++ self_svc_name self)))).
End handler.

Section cluster.
Context (cluster : gmap ServiceName ServiceCore).
(** The draws of the handler at a place in the tree of calls, and the order in
    which the calls of its steps end. *)
Context (rng : list (nat * nat) → nat → f64).
Context (completion : list (nat * nat) → nat → list (result unit Status) → list (result unit Status)).
(** What a caller sees of a handler that panics or cannot be reached. *)
Context (lost : Status).

(** A call to the service [name] and the calls it leads to. *)
Fixpoint call_service (fuel : nat) (path : list (nat * nat)) (name : ServiceName) (req : InvokeRequest)
    : option (result unit Status) :=
  match fuel with
  | O => None
  | S fuel =>
      match cluster !! name with
      | None => Some (Err lost)
      | Some self =>
          r ← invoke (completion path)
                (λ i j c, call_service fuel (path ++ [(i, j)]) (callee c) (request c)) self req (rng path);
          Some (match r with Ret r => r | Panic => Err lost end)
      end
  end.

(** A request to the root service. *)
Definition root_request (fuel : nat) (self : ServiceCore) (req : RequestFacts)
    : option (outcome (result unit Status)) :=
  root (completion []) (λ i j c, call_service fuel [(i, j)] (callee c) (request c)) self req (rng []).
End cluster.

(** ** The chain survives the wire *)

Context `{!MetadataLaws M}.
Context (to_str_law : ∀ v s, meta_to_str (M:=M) v = Ok s ↔ s = v ∧ Forall visible_ascii v).

(** A name that a container and a host may have: not empty, formatted, and
    without the delimiter. *)
Definition legal (n : ServiceName) : Prop :=
  n ≠ [] ∧ CHAIN_DELIMITER ∉ n ∧ from_string n = n ∧ Forall visible_ascii n.

Lemma visible_header_bytes s : Forall visible_ascii s → Forall header_byte s.
Proof. intros Hs. eapply Forall_impl; [done|]. unfold visible_ascii, header_byte. lia. Qed.

Lemma join_Forall (P : Z → Prop) c l : P c → Forall (Forall P) l → Forall P (join c l).
Proof.
  intros Hc. induction 1 as [|p l Hp Hl IH]; [constructor|]. destruct l as [|q l]; [done|].
  rewrite join_cons by done. apply Forall_app. split; [done|]. by constructor.
Qed.

Lemma chain_round_trip chain md :
  chain ≠ [] → Forall legal chain →
  ∃ v, encode_parent_chain chain = Ok (Some v) ∧
    decode_parent_chain (meta_insert md PARENT_CHAIN_METADATA_KEY v) = Ok chain.
Proof.
  intros Hne Hl. exists (join CHAIN_DELIMITER chain).
  assert (Hvis : Forall visible_ascii (join CHAIN_DELIMITER chain)).
  { apply join_Forall; [unfold visible_ascii, CHAIN_DELIMITER; lia|]. eapply Forall_impl; [done|]. by intros n (_ & _ & _ & ?). }
  assert (Hh := visible_header_bytes _ Hvis).
  assert (Hsplit : split CHAIN_DELIMITER (join CHAIN_DELIMITER chain) = chain).
  { apply split_join; [done|]. eapply Forall_impl; [done|]. by intros n (_ & ? & _). }
  split.
  - unfold encode_parent_chain. destruct chain; [done|]. by rewrite (ascii_value_law (M:=M)).
  - unfold decode_parent_chain. rewrite meta_get_insert by done.
    rewrite (proj2 (to_str_law _ _)) by by split. case_decide as He.
    + exfalso. rewrite He in Hsplit. destruct chain as [|n [|]]; [done| |done]. injection Hsplit as <-.
      apply Forall_cons_1 in Hl as [[] _]. done.
    + rewrite Hsplit. f_equal. clear -Hl. induction Hl as [|n chain (Hn & _ & Hf & _) _ IH]; [done|].
      rewrite filter_cons, decide_True by done. cbn. by rewrite Hf, IH.
Qed.

Lemma from_string_idempotent s : from_string (from_string s) = from_string s.
Proof.
  unfold from_string, format_svc_name, to_lowercase. rewrite !map_map. apply map_ext. intros b.
  unfold HYPHEN, UNDERSCORE. repeat case_decide; lia.
Qed.

Lemma from_string_bytes (P : Z → Prop) s :
  (∀ b, P b → P (if decide (65 ≤ b ≤ 90)%Z then (b + 32)%Z else b)) → P HYPHEN → Forall P s → Forall P (from_string s).
Proof.
  intros Hl Hh Hs. unfold from_string, format_svc_name, to_lowercase. rewrite map_map. apply Forall_map.
  eapply Forall_impl; [done|]. intros b Hb. apply Hl. by case_decide.
Qed.

Lemma from_string_nonempty s : s ≠ [] → from_string s ≠ [].
Proof. by destruct s. Qed.

(** What a service reads is a chain of legal names, whatever it was sent. *)
Lemma decoded_legal md chain : decode_parent_chain md = Ok chain → Forall legal chain.
Proof.
  unfold decode_parent_chain. destruct (meta_get md _) as [v|]; [|by intros [= <-]].
  destruct (meta_to_str v) as [s|] eqn:Hs; [|done]. apply to_str_law in Hs as [-> Hvis].
  case_decide; [by intros [= <-]|]. intros [= <-]. apply Forall_map.
  assert (Hpieces := split_pieces_notin CHAIN_DELIMITER v).
  assert (Hbytes : Forall (Forall visible_ascii) (split CHAIN_DELIMITER v)).
  { rewrite <-(join_split CHAIN_DELIMITER v) in Hvis. revert Hvis. generalize (split CHAIN_DELIMITER v).
    intros l. induction l as [|p [|q l] IH]; [done|by repeat constructor|].
    rewrite join_cons by done. intros [Hp [_ Hl]%Forall_cons]%Forall_app. constructor; [done|by apply IH]. }
  apply Forall_forall. intros p [Hne Hp]%list_elem_of_filter. rewrite Forall_forall in Hpieces, Hbytes.
  split_and!; [by apply from_string_nonempty| |apply from_string_idempotent|].
  - enough (Forall (λ b, b ≠ CHAIN_DELIMITER) (from_string p)) as Hall.
    { intros Hin. rewrite Forall_forall in Hall. by apply (Hall _ Hin). }
    apply from_string_bytes; [intros b Hb; unfold CHAIN_DELIMITER in *; case_decide; lia|done|].
    apply Forall_forall. intros b Hb ->. by apply (Hpieces p Hp).
  - apply from_string_bytes; [|unfold visible_ascii, HYPHEN; lia|by apply Hbytes].
    intros b. unfold visible_ascii. case_decide; lia.
Qed.

(** ** The calls that a step issues *)

(** Every call goes to a connected service that is not on the way from the
    root, and carries the chain. *)
Lemma issued_calls self chain cm facts rng k step calls k' :
  issue self chain cm facts rng k step = Ret (Ok calls, k') →
  Forall (λ c, callee c ∈ clients self ∧ callee c ∉ chain ++ [self_svc_name self] ∧
    ∃ entry variant, entry ∈ step ∧ callee c = service_name entry ∧
      child_request facts cm entry variant = Ok (request c)) calls.
Proof.
  revert k calls k'. induction step as [|entry step IH]; intros k calls k'; cbn [issue].
  { by intros [= <- <-]. }
  assert (Hskip : ∀ k, issue self chain cm facts rng k step = Ret (Ok calls, k') →
    Forall (λ c, callee c ∈ clients self ∧ callee c ∉ chain ++ [self_svc_name self] ∧
      ∃ e variant, e ∈ entry :: step ∧ callee c = service_name e ∧
        child_request facts cm e variant = Ok (request c)) calls).
  { intros j Hj. eapply Forall_impl; [by eapply IH|]. intros c (? & ? & e & variant & ? & ? & ?).
    split_and!; [done..|]. exists e, variant. split_and!; [by right|done..]. }
  destruct (f64_le _ _); [apply Hskip|]. case_decide as Hself; [apply Hskip|].
  case_decide as Hchain; [apply Hskip|]. case_decide as Hclient; [|by destruct (ready self); [|apply Hskip]].
  destruct (child_request _ _ _ _) as [req|e] eqn:Hreq; [|done].
  destruct (issue self chain cm facts rng _ step) as [[[calls'|e] j]|] eqn:Hrest; [|done..]. cbn.
  intros [= <- <-]. constructor.
  - cbn. split_and!; [done| |].
    + rewrite elem_of_app, list_elem_of_singleton. tauto.
    + eexists entry, _. split_and!; [left|done|exact Hreq].
  - eapply Forall_impl; [by eapply IH|]. intros c (? & ? & e & variant & ? & ? & ?).
    split_and!; [done..|]. exists e, variant. split_and!; [by right|done..].
Qed.

(** The child reads the chain that its caller wrote. *)
Lemma child_reads_chain facts entry variant req chain v :
  chain ≠ [] → Forall legal chain → encode_parent_chain chain = Ok (Some v) →
  child_request facts (Some v) entry variant = Ok req → decode_parent_chain (metadata req) = Ok chain.
Proof.
  intros Hne Hl Hv. unfold child_request.
  destruct (set_override _ _ _ no_metadata) as [md|]; [|done].
  destruct (set_override _ _ _ md) as [md'|]; [|done]. intros [= <-]. cbn.
  destruct (chain_round_trip chain md' Hne Hl) as (v' & Hv' & Hd). rewrite Hv in Hv'. injection Hv' as <-. exact Hd.
Qed.

(** ** Termination *)

Section termination.
Context (cluster : gmap ServiceName ServiceCore).
Context (rng : list (nat * nat) → nat → f64).
Context (completion : list (nat * nat) → nat → list (result unit Status) → list (result unit Status)).
Context (lost : Status).
Hypothesis cluster_names : ∀ n self, cluster !! n = Some self → self_svc_name self = n ∧ legal n.

(** A call that a service on the way [chain] may issue. *)
Definition issued_from (chain : list ServiceName) (c : Call) : Prop :=
  callee c ∉ chain ∧ decode_parent_chain (metadata (request c)) = Ok chain.

(** The services that are not on the way yet. *)
Definition remaining (chain : list ServiceName) : nat := size (dom cluster ∖ list_to_set chain).

Lemma remaining_snoc chain n : n ∈ dom cluster → n ∉ chain → remaining (chain ++ [n]) < remaining chain.
Proof. intros Hn Hc. unfold remaining. apply subset_size. set_solver. Qed.

Lemma run_steps_total (completion_here : nat → list (result unit Status) → list (result unit Status))
    send self chain v facts r i k steps :
  Forall legal (chain ++ [self_svc_name self]) →
  encode_parent_chain (chain ++ [self_svc_name self]) = Ok (Some v) →
  (∀ i j c, issued_from (chain ++ [self_svc_name self]) c → is_Some (send i j c)) →
  is_Some (run_steps completion_here send self chain (Some v) facts r i k steps).
Proof.
  intros Hl Hv Hsend. revert i k. induction steps as [|step steps IH]; intros i k; cbn [run_steps]; [by eexists|].
  destruct (issue self chain (Some v) facts r k step) as [[[calls|e] k']|] eqn:Hissue; [|by eexists..].
  assert (Hcalls : is_Some (mapM (λ '(j, c), send i j c) (imap (λ j c, (j, c)) calls))).
  { apply mapM_is_Some_2, Forall_lookup_2. intros j [j' c] Hj. rewrite list_lookup_imap in Hj.
    destruct (calls !! j) as [c'|] eqn:Hc; [|done]. injection Hj as <- <-. apply Hsend.
    destruct (Forall_lookup_1 _ _ _ _ (issued_calls _ _ _ _ _ _ _ _ _ Hissue) Hc) as (_ & Hn & e & variant & _ & _ & Hreq).
    split; [done|]. by eapply child_reads_chain; [by destruct chain|..]. }
  destruct Hcalls as [results ->]. cbn. destruct (first_error _); [by eexists|]. apply IH.
Qed.

Lemma fanout_total completion_here send self chain facts r k m variant cs :
  Forall legal (chain ++ [self_svc_name self]) →
  (∀ i j c, issued_from (chain ++ [self_svc_name self]) c → is_Some (send i j c)) →
  is_Some (fanout_with_call_sequence completion_here send self chain facts r k m variant cs).
Proof.
  intros Hl Hsend. unfold fanout_with_call_sequence. destruct (get_method _ _) as [ms|]; [|by eexists].
  destruct (select_call_sequence_variant _ _ _) as [selected|e]; [|by eexists].
  destruct (chain_round_trip (chain ++ [self_svc_name self]) no_metadata) as (v & Hv & _); [by destruct chain|done|].
  rewrite Hv. by apply run_steps_total.
Qed.

(** One level of the recursion. *)
Lemma call_service_level fuel path name req :
  (∀ chain self i j c, decode_parent_chain (metadata req) = Ok chain → cluster !! name = Some self →
    issued_from (chain ++ [name]) c →
    is_Some (call_service cluster rng completion lost fuel (path ++ [(i, j)]) (callee c) (request c))) →
  is_Some (call_service cluster rng completion lost (S fuel) path name req).
Proof.
  intros Hnext. cbn [call_service]. destruct (cluster !! name) as [self|] eqn:Hself; [|by eexists].
  destruct (cluster_names name self Hself) as [Hname Hlegal].
  enough (is_Some (invoke (completion path) (λ i j c, call_service cluster rng completion lost fuel (path ++ [(i, j)])
    (callee c) (request c)) self req (rng path))) as [r ->] by by eexists.
  unfold invoke. destruct (is_root_service _); [by eexists|].
  destruct (decode_parent_chain (metadata req)) as [chain|e] eqn:Hchain; [|by eexists].
  unfold handle_method. destruct (method_latency self) as [dist|]; [|by eexists].
  destruct (dist _ _); [|by eexists]. case_decide; [by eexists|]. unfold fanout.
  destruct (call_sequences self !! _) as [cs|]; [|by eexists]. apply fanout_total; rewrite Hname.
  - apply Forall_app. split; [by eapply decoded_legal|]. by apply Forall_singleton.
  - intros i j c Hc. by apply (Hnext chain self).
Qed.

Lemma call_service_total fuel path name req :
  0 < fuel →
  (∀ chain, decode_parent_chain (metadata req) = Ok chain → name ∉ chain ∧ remaining chain < fuel) →
  is_Some (call_service cluster rng completion lost fuel path name req).
Proof.
  revert path name req. induction fuel as [|fuel IH]; intros path name req Hf Hreq; [lia|].
  apply call_service_level. intros chain self i j c Hchain Hself [Hnew Hcm].
  destruct (Hreq chain Hchain) as [Hn Hr].
  assert (Hlt := remaining_snoc chain name ltac:(by eapply elem_of_dom_2) Hn).
  apply IH; [lia|]. rewrite Hcm. intros ? [= <-]. split; [done|lia].
Qed.

(** C11: a request to the services of a trace ends, whatever cycles the call
    sequences have, whatever is drawn and in whichever order calls end: as many
    levels as there are services are enough. *)
Theorem trace_request_ends fuel self req :
  cluster !! self_svc_name self = Some self → size cluster ≤ fuel →
  is_Some (root_request cluster rng completion lost fuel self req).
Proof.
  intros Hself Hfuel. destruct (cluster_names _ _ Hself) as [_ Hlegal].
  unfold root_request, root. destruct (is_root_service _); [|by eexists].
  cbn [f_graph]. destruct (call_sequences self !! _) as [cs|]; [|by eexists].
  apply fanout_total; cbn [app]; [by apply Forall_singleton|]. intros i j c [Hnew Hcm].
  assert (Hlt := remaining_snoc [] (self_svc_name self) ltac:(by eapply elem_of_dom_2) ltac:(set_solver)).
  assert (Hall : remaining [] = size cluster).
  { unfold remaining. rewrite <-(size_dom cluster). f_equal. set_solver. }
  apply call_service_total; [lia|]. rewrite Hcm. intros ? [= <-]. split; [done|]. cbn [app] in Hlt. lia.
Qed.

(** A request from outside, with any chain at all. *)
Lemma invoke_ends path name req :
  is_Some (call_service cluster rng completion lost (S (S (size cluster))) path name req).
Proof.
  apply call_service_level. intros chain self i j c Hchain Hself [Hnew Hcm].
  apply call_service_total; [lia|]. rewrite Hcm. intros ? [= <-]. split; [done|].
  unfold remaining. rewrite <-(size_dom cluster). apply Nat.lt_succ_r, subseteq_size. set_solver.
Qed.
End termination.

(** ** A call reaches its method *)

Lemma split_pair_one s : 58%Z ∉ s → split_pair s = [s].
Proof.
  induction s as [|b [|c s] IH]; intros Hs; [done..|].
  change (split_pair (b :: c :: s)) with
    (if decide (b = 58 ∧ c = 58)%Z then [] :: split_pair s
     else match split_pair (c :: s) with [] => [[b]] | p :: ps => (b :: p) :: ps end).
  rewrite decide_False by (intros [-> _]; apply Hs; left).
  rewrite IH; [done|]. intros Hin. apply Hs. by right.
Qed.

Lemma split_pair_two s m : 58%Z ∉ s → split_pair (s ++ COLONS ++ m) = s :: split_pair m.
Proof.
  induction s as [|b s IH]; intros Hs; [done|].
  assert (Hb : b ≠ 58%Z) by (intros ->; apply Hs; left).
  assert (IH' := IH ltac:(intros Hin; apply Hs; by right)). cbn [app].
  destruct (s ++ COLONS ++ m) as [|c r] eqn:E; [by destruct s|].
  change (split_pair (b :: c :: r)) with
    (if decide (b = 58 ∧ c = 58)%Z then [] :: split_pair r
     else match split_pair (c :: r) with [] => [[b]] | p :: ps => (b :: p) :: ps end).
  rewrite decide_False by (by intros [-> _]). by rewrite IH'.
Qed.

Lemma fold_insert_notin {A} (l : list (bytes * A)) (acc : gmap bytes A) k :
  k ∉ l.*1 → foldl (λ methods '(k, m), <[k := m]> methods) acc l !! k = acc !! k.
Proof.
  revert acc. induction l as [|[k' v] l IH]; intros acc Hk; [done|]. cbn in Hk |- *.
  apply not_elem_of_cons in Hk as [Hne Hk]. by rewrite IH, lookup_insert_ne.
Qed.

Lemma fold_insert_in {A} (l : list (bytes * A)) (acc : gmap bytes A) k v :
  NoDup l.*1 → (k, v) ∈ l → foldl (λ methods '(k, m), <[k := m]> methods) acc l !! k = Some v.
Proof.
  revert acc. induction l as [|[k' v'] l IH]; intros acc Hnd Hin; [by apply not_elem_of_nil in Hin|].
  cbn in Hnd |- *. apply NoDup_cons in Hnd as [Hk Hnd]. apply elem_of_cons in Hin as [[= <- <-]|Hin]; [|by apply IH].
  rewrite fold_insert_notin by done. by rewrite lookup_insert_eq.
Qed.

Lemma collect_elem {A B E} (f : A → result B E) l ys x y :
  collect f l = Ok ys → x ∈ l → f x = Ok y → y ∈ ys.
Proof.
  revert ys. induction l as [|z l IH]; intros ys; cbn; [by intros _ ?%not_elem_of_nil|].
  destruct (f z) as [w|] eqn:Hz; [|done]. destruct (collect f l) as [ws|]; [|done]. intros [= <-].
  intros [->|Hx]%elem_of_cons Hy; [|right; by eapply IH]. rewrite Hz in Hy. injection Hy as <-. left.
Qed.

(** The keys of what was loaded are the normalized keys. *)
Lemma load_keys raw l :
  collect (λ '(method_id, raw_method),
    match parse_method_call_sequence raw_method with
    | Ok m => Ok (normalize_method_key method_id, m)
    | Err e => Err e
    end) raw = Ok l → l.*1 = map (normalize_method_key ∘ fst) raw.
Proof.
  revert l. induction raw as [|[k rm] raw IH]; intros l; cbn; [by intros [= <-]|].
  destruct (parse_method_call_sequence rm); [|done]. destruct (collect _ raw) as [l'|]; [|done].
  intros [= <-]. cbn. by rewrite IH.
Qed.

(** C28: a call reaches the method it names, whichever spelling the trace has:
    the callee looks up the sequence that was loaded for the target's method,
    and the modules of its stack see the logical service and method. *)
Theorem call_reaches_its_method s m choices entry facts cm variant req self g raw cs k rm ms :
  58%Z ∉ s → split_pair m = [m] → m ≠ bytes_of_string "USER" →
  Forall visible_ascii s → Forall visible_ascii m →
  parse_call_sequence_entry (MkRawCall (s ++ COLONS ++ m) choices) = Ok entry →
  child_request facts cm entry variant = Ok req → self_svc_name self = service_name entry →
  load_methods raw = Ok cs → NoDup (map (normalize_method_key ∘ fst) raw) →
  (k, rm) ∈ raw → normalize_method_key k = normalize_method_key (s ++ COLONS ++ m) →
  parse_method_call_sequence rm = Ok ms →
  get_method cs (call_sequence_method_id self (invoke_method req)) = Some ms ∧
  resolve_method_name_from_request g (metadata req) = MkCow (from_string s) m.
Proof.
  intros Hs Hm Huser Hvs Hvm Hentry Hreq Hself Hload Hnd Hin Hk Hparse.
  assert (Hsplit : split_pair (s ++ COLONS ++ m) = [s; m]) by by rewrite split_pair_two, Hm.
  unfold parse_call_sequence_entry, entry_try_from in Hentry. cbn [target] in Hentry. rewrite Hsplit in Hentry.
  injection Hentry as <-. cbn [service_name method_name] in *.
  assert (Hvn : Forall visible_ascii (from_string s)).
  { apply from_string_bytes; [|unfold visible_ascii, HYPHEN; lia|done]. intros b. unfold visible_ascii. case_decide; lia. }
  assert (Hhm := visible_header_bytes _ Hvm). assert (Hhn := visible_header_bytes _ Hvn).
  unfold child_request, set_override in Hreq. cbn [service_name method_name] in Hreq.
  rewrite !(ascii_value_law (M:=M)) in Hreq by done. injection Hreq as <-. cbn [invoke_method metadata]. split.
  - unfold load_methods in Hload. destruct (collect _ raw) as [l|] eqn:Hl; [|done]. injection Hload as <-.
    unfold get_method, call_sequence_method_id. cbn [methods]. rewrite decide_False, Hself by done.
    replace (from_string s ++ COLONS ++ m) with (normalize_method_key k)
      by (rewrite Hk; unfold normalize_method_key; by rewrite Hsplit).
    apply fold_insert_in; [by rewrite (load_keys _ _ Hl)|]. eapply collect_elem; [exact Hl|exact Hin|]. cbn. by rewrite Hparse.
  - assert (Hget : ∀ key v md, key ≠ PARENT_CHAIN_METADATA_KEY → meta_get md key = Some v → Forall visible_ascii v →
      get_ascii_metadata (match cm with Some c => meta_insert md PARENT_CHAIN_METADATA_KEY c | None => md end) key = Some v).
    { intros key v md Hne Hgetv Hv. unfold get_ascii_metadata.
      destruct cm; rewrite ?meta_get_insert_ne, Hgetv by done; cbn; by rewrite (proj2 (to_str_law v v)). }
    unfold resolve_method_name_from_request. rewrite (Hget _ m), (Hget _ (from_string s)); try done.
    + by rewrite meta_get_insert.
    + by rewrite meta_get_insert_ne, meta_get_insert.
Qed.
End requests.

(** ** Replayed spans *)

(** [evaluate_replay_timing] of a replay that took [elapsed] nanoseconds, with
    the counter of overshoots: milliseconds are compared with a latency in
    microseconds, and what is past it is not compared with the objective. *)
Definition evaluate_replay_timing (elapsed exclude_queue_latency slo overshot_counter : Z)
    : result unit Status * Z :=
  if decide (exclude_queue_latency < elapsed / 1000000)%Z then (Ok (), wrap64 (overshot_counter + 1))
  else if decide (slo < elapsed / 1000)%Z then
    (Err (MkStatus Cancelled (bytes_of_string "Processing took more than SLO")), overshot_counter)
  else (Ok (), overshot_counter).

(** A replay far past both its latency and its objective of 50 ms succeeds; one
    that overshoots its latency a hundred times is not counted. *)
Example slo_miss_accepted :
  evaluate_replay_timing 60000000 30 50000 0 = (Ok (), 1%Z) ∧
  evaluate_replay_timing 40000000 400 50000 0 = (Ok (), 0%Z).
Proof. split; reflexivity. Qed.

(** The draw closest to one: rounding leaves a threshold above zero, and no
    variant is chosen although all have positive weights. *)
Example sampling_may_fail :
  sample_weighted (λ p, p) (f64_sub f64_one (binary_normalize prec emax 1 (-53) false))
    [f64_lit 1 10; f64_lit 1 10; f64_lit 1 10; f64_lit 3 10] = None.
Proof. vm_compute. reflexivity. Qed.

(** ** A cluster whose services call each other *)

#[local] Existing Instances list_metadata list_metadata_laws.

Definition demo_name (n : string) : ServiceName := bytes_of_string n.

Definition demo_sequence (name : bytes) (target : string) : bytes * RawMethod :=
  (name, MkRawMethod [(bytes_of_string "v1", MkRawVariant f64_one
    [[MkRawCall (bytes_of_string target) []]])]).

Definition demo_service (n : string) (raw : list (bytes * RawMethod)) (children : gset ServiceName) : ServiceCore :=
  MkCore (demo_name n) (gset_to_gmap 1%Z children) (Some (λ _ _, true))
    (match load_methods raw with Ok cs => {[bytes_of_string "S_1" := cs]} | Err _ => ∅ end) children true.

(** The user calls a, which calls b, which would call a. *)
Definition demo_cluster : gmap ServiceName ServiceCore :=
  {[demo_name "user" := demo_service "user" [demo_sequence (bytes_of_string "USER") "A::m"] {[demo_name "a"]};
    demo_name "a" := demo_service "a" [demo_sequence (bytes_of_string "A::m") "b::m"] {[demo_name "b"]};
    demo_name "b" := demo_service "b" [demo_sequence (bytes_of_string "b::m") "A::m"] {[demo_name "a"]}]}.

Definition demo_facts : RequestFacts := MkFacts 1 0 (bytes_of_string "s-1").

Example demo_request_ends :
  root_request (M := list (bytes * bytes)) [] demo_cluster (λ _ _, f64_zero) (λ _ _ l, l) (not_found []) 3
    (demo_service "user" [demo_sequence (bytes_of_string "USER") "A::m"] {[demo_name "a"]}) demo_facts = Some (Ret (Ok ())).
Proof. vm_compute. reflexivity. Qed.

Lemma list_to_str_law v s :
  @meta_to_str _ list_metadata v = Ok s ↔ s = v ∧ Forall visible_ascii v.
Proof. cbn. case_decide; naive_solver. Qed.

#[export] Instance legal_dec n : Decision (legal n).
Proof. unfold legal. apply _. Defined.

Definition demo_root : ServiceCore :=
  demo_service "user" [demo_sequence (bytes_of_string "USER") "A::m"] {[demo_name "a"]}.

Lemma demo_names n self : demo_cluster !! n = Some self → self_svc_name self = n ∧ legal n.
Proof.
  unfold demo_cluster. intros H.
  apply lookup_insert_Some in H as [[<- <-]|[_ H]]; [split; [reflexivity|decided]|].
  apply lookup_insert_Some in H as [[<- <-]|[_ H]]; [split; [reflexivity|decided]|].
  apply lookup_singleton_Some in H as [<- <-]. split; [reflexivity|decided].
Qed.

Lemma trace_request_ends_witness :
  is_Some (root_request (M := list (bytes * bytes)) [] demo_cluster (λ _ _, f64_zero) (λ _ _ l, l) (not_found [])
    3 demo_root demo_facts).
Proof.
  apply (trace_request_ends (M := list (bytes * bytes)) [] list_to_str_law); [exact demo_names| |].
  - vm_compute. reflexivity.
  - decided.
Defined.

Lemma call_reaches_its_method_witness :
  let self := demo_service "a" [demo_sequence (bytes_of_string "A::m") "b::m"] {[demo_name "b"]} in
  ∃ req cs ms, load_methods [demo_sequence (bytes_of_string "A::m") "b::m"] = Ok cs ∧
    get_method cs (call_sequence_method_id self (invoke_method req)) = Some ms ∧
    resolve_method_name_from_request (MkGrpc [] []) (metadata (M := list (bytes * bytes)) req) =
      MkCow (demo_name "a") (bytes_of_string "m").
Proof.
  intros self.
  destruct (parse_call_sequence_entry (MkRawCall (bytes_of_string "a" ++ COLONS ++ bytes_of_string "m") [])) as [entry|] eqn:He; [|done].
  destruct (child_request (M := list (bytes * bytes)) [] demo_facts None entry None) as [req|] eqn:Hr; [|vm_compute in He; simplify_eq; vm_compute in Hr; done].
  destruct (load_methods [demo_sequence (bytes_of_string "A::m") "b::m"]) as [cs|] eqn:Hl; [|vm_compute in Hl; done].
  destruct (parse_method_call_sequence (demo_sequence (bytes_of_string "A::m") "b::m").2) as [ms|] eqn:Hp; [|vm_compute in Hp; done].
  exists req, cs, ms. split; [done|].
  apply (call_reaches_its_method (M := list (bytes * bytes)) [] list_to_str_law (bytes_of_string "a") (bytes_of_string "m")
    [] entry demo_facts None None req self (MkGrpc [] []) [demo_sequence (bytes_of_string "A::m") "b::m"] cs
    (bytes_of_string "A::m") (demo_sequence (bytes_of_string "A::m") "b::m").2 ms);
    [decided|vm_compute; reflexivity|decided|decided|decided|exact He|exact Hr| |exact Hl|decided|left|vm_compute; reflexivity|exact Hp].
  vm_compute in He. injection He as <-. vm_compute. reflexivity.
Defined.
