(* ===== verification/ClientRegistry.v ===== *)
(** The registry of child clients of a replayed service
    (apps/tracebench/generic-service/src/client_registry.rs): a map behind a
    reader-writer lock and a flag beside it, used by any number of tasks. A
    step is one access to the lock, the map or the flag. *)
From S2P Require Export Bytes.

(** Where a task is: in [install] before the lock, with it, behind the
    assignment, or about to set the flag; in [get_expect_ready] before the
    lock, with the guard, or with the guard after it missed the client. *)
Inductive rpc :=
| RIdle
| InstallLock (new_clients : gset bytes)
| InstallAssign (new_clients : gset bytes)
| InstallUnlock
| InstallFlag
| LookupLock (name : bytes)
| LookupGet (name : bytes)
| LookupReady (name : bytes).

Record ClientRegistry := MkRegistry {
  clients : gset bytes;
  ready : bool;
  rtasks : list rpc;
}.

Inductive registry_event :=
| Installed (new_clients : gset bytes)
| Forced
| Found (name : bytes)
| StartupRace (name : bytes)
| Panicked (name : bytes).

Inductive registry_call :=
| CallInstall (new_clients : gset bytes)
| CallForceReady
| CallLookup (name : bytes)
| Continue.

(** Who holds the lock is who is between its acquisition and its release. *)
Definition is_writer (p : rpc) : bool :=
  match p with InstallAssign _ | InstallUnlock => true | _ => false end.

Definition is_reader (p : rpc) : bool :=
  match p with LookupGet _ | LookupReady _ => true | _ => false end.

Definition rgoto (t : nat) (p : rpc) (s : ClientRegistry) : ClientRegistry :=
  MkRegistry (clients s) (ready s) (<[t := p]> (rtasks s)).

Definition may_write (s : ClientRegistry) : bool :=
  negb (existsb is_writer (rtasks s) || existsb is_reader (rtasks s)).

Definition may_read (s : ClientRegistry) : bool := negb (existsb is_writer (rtasks s)).

(** [install] and [force_ready]. *)
Definition install_step (t : nat) (p : rpc) (s : ClientRegistry)
    : option (list registry_event * ClientRegistry) :=
  match p with
  | InstallLock new => if may_write s then Some ([], rgoto t (InstallAssign new) s) else None
  | InstallAssign new =>
      Some ([Installed new], MkRegistry new (ready s) (<[t := InstallUnlock]> (rtasks s)))
  | InstallUnlock => Some ([], rgoto t InstallFlag s)
  | InstallFlag => Some ([], MkRegistry (clients s) true (<[t := RIdle]> (rtasks s)))
  | _ => None
  end.

(** [get_expect_ready]: the guard is held until the function returns or
    unwinds, so the flag is read while the map cannot change. *)
Definition get_expect_ready_step (t : nat) (p : rpc) (s : ClientRegistry)
    : option (list registry_event * ClientRegistry) :=
  match p with
  | LookupLock name => if may_read s then Some ([], rgoto t (LookupGet name) s) else None
  | LookupGet name =>
      if decide (name ∈ clients s) then Some ([Found name], rgoto t RIdle s)
      else Some ([], rgoto t (LookupReady name) s)
  | LookupReady name =>
      Some ([if ready s then Panicked name else StartupRace name], rgoto t RIdle s)
  | _ => None
  end.

Definition registry_next (t : nat) (a : registry_call) (s : ClientRegistry)
    : option (list registry_event * ClientRegistry) :=
  p ← rtasks s !! t;
  match a, p with
  | CallInstall new, RIdle => Some ([], rgoto t (InstallLock new) s)
  | CallForceReady, RIdle => Some ([Forced], MkRegistry (clients s) true (rtasks s))
  | CallLookup name, RIdle => Some ([], rgoto t (LookupLock name) s)
  | Continue, _ =>
      match install_step t p s with
      | Some r => Some r
      | None => get_expect_ready_step t p s
      end
  | _, _ => None
  end.

Definition registry_new (tasks : nat) : ClientRegistry := MkRegistry ∅ false (replicate tasks RIdle).

(** Executions, the latest step last. *)
Inductive registry_run (s0 : ClientRegistry) : list registry_event → ClientRegistry → Prop :=
| RegistryStart : registry_run s0 [] s0
| RegistryStep es s t a es' s' :
    registry_run s0 es s → registry_next t a s = Some (es', s') → registry_run s0 (es ++ es') s'.

(** The latest map that was installed. *)
Definition last_installed (es : list registry_event) : gset bytes :=
  foldl (λ m e, match e with Installed new => new | _ => m end) ∅ es.

Definition exclusive (ps : list rpc) : Prop :=
  ∀ t t' p p', ps !! t = Some p → ps !! t' = Some p' → is_writer p → is_writer p' || is_reader p' → t = t'.

(** The lock excludes; a task that missed a client did so in the map as it is;
    the flag is up only after a map was installed, or by force. *)
Record registry_inv (es : list registry_event) (s : ClientRegistry) : Prop := {
  inv_exclusive : exclusive (rtasks s);
  inv_clients : clients s = last_installed es;
  inv_missed t name : rtasks s !! t = Some (LookupReady name) → name ∉ clients s;
  inv_written t p : rtasks s !! t = Some p → p = InstallUnlock ∨ p = InstallFlag → ∃ new, Installed new ∈ es;
  inv_ready : ready s = true → Forced ∈ es ∨ ∃ new, Installed new ∈ es;
}.

(** What a panic says. *)
Definition justified (es : list registry_event) (name : bytes) : Prop :=
  name ∉ last_installed es ∧ (Forced ∈ es ∨ ∃ new, Installed new ∈ es).

Lemma last_installed_app es es' :
  last_installed (es ++ es') = foldl (λ m e, match e with Installed new => new | _ => m end) (last_installed es) es'.
Proof. unfold last_installed. by rewrite foldl_app. Qed.

Lemma existsb_none (f : rpc → bool) ps : existsb f ps = false → ∀ t p, ps !! t = Some p → f p = false.
Proof.
  intros Hf t p Ht. destruct (f p) eqn:E; [|done]. exfalso.
  enough (existsb f ps = true) by congruence. apply existsb_exists. exists p. split; [|done].
  by apply list_elem_of_In, (list_elem_of_lookup_2 _ t).
Qed.

(** A task may take a place that its old one, or the free lock, allows. *)
Lemma exclusive_insert ps t p q :
  exclusive ps → ps !! t = Some p →
  (is_writer q → is_writer p ∨ ∀ t p, ps !! t = Some p → is_writer p = false ∧ is_reader p = false) →
  (is_reader q → is_reader p ∨ ∀ t p, ps !! t = Some p → is_writer p = false) →
  exclusive (<[t := q]> ps).
Proof.
  intros He Ht Hw Hr t1 t2 p1 p2 H1 H2 H1w H2w.
  apply list_lookup_insert_Some in H1 as [(<- & <- & _)|[Hne1 H1]],
    H2 as [(<- & <- & _)|[Hne2 H2]]; try done.
  - destruct (Hw H1w) as [Hwp|Hfree]; [by eapply He|]. destruct (Hfree _ _ H2) as [E1 E2]. rewrite E1, E2 in H2w. done.
  - destruct (is_writer q) eqn:Eq.
    + destruct (Hw I) as [Hwp|Hfree]; [|destruct (Hfree _ _ H1) as [E1 _]; by rewrite E1 in H1w].
      destruct Hne1. eapply (He t t1 p p1 Ht H1 Hwp). by destruct (is_writer p1).
    + cbn in H2w. destruct (Hr H2w) as [Hrp|Hfree]; [|by rewrite (Hfree _ _ H1) in H1w].
      eapply (He t1 t p1 p H1 Ht H1w). destruct (is_writer p), (is_reader p); done.
  - by eapply He.
Qed.

Lemma registry_inv_step es s t a es' s' :
  registry_inv es s → registry_next t a s = Some (es', s') → registry_inv (es ++ es') s'.
Proof.
  intros [He Hc Hm Hw Hr]. unfold registry_next. destruct (rtasks s !! t) as [p|] eqn:Ht; [|done]. cbn.
  assert (Hfree : may_read s = true → ∀ t p, rtasks s !! t = Some p → is_writer p = false).
  { unfold may_read. rewrite negb_true_iff. apply existsb_none. }
  assert (Hfree' : may_write s = true → ∀ t p, rtasks s !! t = Some p → is_writer p = false ∧ is_reader p = false).
  { unfold may_write. rewrite negb_true_iff. intros [H1 H2]%orb_false_iff t1 p1 H.
    split; by eapply existsb_none. }
  assert (Hw' : ∀ t p, rtasks s !! t = Some p → p = InstallUnlock ∨ p = InstallFlag → ∃ new, Installed new ∈ es ++ es').
  { intros t1 p1 H1 Hp1. destruct (Hw t1 p1 H1 Hp1) as [new ?]. exists new. apply elem_of_app. by left. }
  assert (Hr' : ready s = true → Forced ∈ es ++ es' ∨ ∃ new, Installed new ∈ es ++ es').
  { intros H1. destruct (Hr H1) as [?|[new ?]]; [left|right; exists new]; apply elem_of_app; by left. }
  clear Hw Hr. intros Hs. destruct a, p; try done; cbn in Hs; repeat case_match; simplify_eq; split;
    cbn [rtasks rgoto clients ready] in *; rewrite ?last_installed_app; cbn [foldl]; try done.
  all: try (apply (exclusive_insert _ _ _ _ He Ht); cbn; intros H1; solve [done|left; done|right; by apply Hfree'|right; by apply Hfree]).
  all: try (intros t1 x1 [(_ & Heq & _)|[_ H1]]%list_lookup_insert_Some; [solve [by simplify_eq]|]; by eapply Hm).
  all: try (intros t1 x1 [(_ & <- & _)|[_ H1]]%list_lookup_insert_Some; [solve [by intros [?|?]]|]; by eapply Hw').
  all: try (intros H1; first [congruence|by apply Hr']).
  - intros _. left. apply elem_of_app. right. left.
  - (* the writer's lock keeps readers away *)
    intros t1 name H1. apply list_lookup_insert_Some in H1 as [(_ & Heq & _)|[Hne H1]]; [discriminate Heq|].
    destruct Hne. by apply (He t t1 _ _ Ht H1).
  - intros _ _ _ _. exists new_clients. apply elem_of_app. right. left.
  - intros t1 p1 H1 Hp1. apply (Hw' t InstallUnlock Ht). by left.
  - intros _. right. apply (Hw' t InstallFlag Ht). by right.
Qed.

Lemma registry_inv_run n es s : registry_run (registry_new n) es s → registry_inv es s.
Proof.
  induction 1 as [|es s t a es' s' _ IH Hs]; [|by eapply registry_inv_step].
  split; try done.
  - intros t t' p p' Ht. cbn in Ht. apply lookup_replicate in Ht as [-> _]. intros _ [].
  - intros t p Ht. cbn in Ht. apply lookup_replicate in Ht as [-> _]. intros [Heq|Heq]; discriminate Heq.
Qed.

(** C21: a lookup panics only if the clients were installed, or the flag was
    forced, and the child is not among the clients installed last, however
    lookups and installations interleave; and what is found is among them. *)
Theorem registry_panics_justified n es s t a es' s' name :
  registry_run (registry_new n) es s → registry_next t a s = Some (es', s') →
  (Panicked name ∈ es' → justified es name) ∧ (Found name ∈ es' → name ∈ last_installed es).
Proof.
  intros Hrun Hs. destruct (registry_inv_run _ _ _ Hrun) as [_ Hc Hm _ Hr]. rewrite <-Hc. unfold justified.
  rewrite <-Hc. unfold registry_next in Hs. destruct (rtasks s !! t) as [p|] eqn:Ht; [|done]. cbn in Hs.
  destruct a, p; try done; cbn in Hs; repeat case_match; simplify_eq; set_unfold; split; try naive_solver.
  all: intros H; destruct_or?; simplify_eq; eauto.
Qed.

(** A lookup waits for the lock that the installation holds, and finds the
    client; a second one, of a service that is not deployed, panics. *)
Definition demo_calls : list (nat * registry_call) :=
  [(0, CallLookup [98%Z]); (1, CallInstall {[ [97%Z] ]}); (1, Continue); (1, Continue); (1, Continue); (1, Continue);
   (0, Continue); (0, Continue)].

Fixpoint registry_exec (calls : list (nat * registry_call)) (es : list registry_event) (s : ClientRegistry)
    : option (list registry_event * ClientRegistry) :=
  match calls with
  | [] => Some (es, s)
  | (t, a) :: calls => '(es', s) ← registry_next t a s; registry_exec calls (es ++ es') s
  end.

Lemma registry_exec_run s0 calls es s es' s' :
  registry_run s0 es s → registry_exec calls es s = Some (es', s') → registry_run s0 es' s'.
Proof.
  revert es s. induction calls as [|[t a] calls IH]; intros es s Hrun; cbn; [by intros [= <- <-]|].
  destruct (registry_next t a s) as [[es1 s1]|] eqn:Hs; [|done]. cbn. apply IH. by econstructor.
Qed.

Lemma registry_panics_justified_witness :
  ∃ es s, registry_run (registry_new 2) es s ∧ (∃ s', registry_next 0 Continue s = Some ([Panicked [98%Z]], s')) ∧
    justified es [98%Z].
Proof.
  destruct (registry_exec demo_calls [] (registry_new 2)) as [[es s]|] eqn:E; [|vm_compute in E; discriminate E].
  assert (Hrun : registry_run (registry_new 2) es s) by (eapply registry_exec_run; [constructor|exact E]).
  destruct (registry_next 0 Continue s) as [[es' s']|] eqn:Hs; [|vm_compute in E; injection E as <- <-; vm_compute in Hs; discriminate Hs].
  assert (Hes : es' = [Panicked [98%Z]]).
  { vm_compute in E. injection E as <- <-. vm_compute in Hs. by injection Hs as <- <-. }
  subst es'. exists es, s. split; [exact Hrun|]. split; [by exists s'|].
  apply (registry_panics_justified 2 es s 0 Continue _ s' [98%Z] Hrun Hs). left.
Defined.
