(* ===== verification/Pool.v ===== *)
(** The connection pool of the applications (apps/app-utils/src/pool.rs), used
    by any number of tasks. A step is one access to the list of idle items
    (behind its mutex), to the counter [size], or to the [Notify] on which tasks
    wait for an item; creating an item takes any time. *)
From S2P Require Export Prelude.

(** Where a task is: in [get_or_create_async] with nothing, at the load of
    [size], at its increment, about to cancel the increment, or creating an
    item; before it looks for an item again, before it waits, or waiting; with
    an item, in its [drop] before the item is put back, behind that and before
    the notification, or in [discard_impl] before the decrement. [replaces]
    says that it asks for another item afterwards. *)
Inductive ppc :=
| PIdle
| PFast
| PLoad
| PAdd
| PCancel
| PCreate
| PPop
| PRegister
| PWaiting
| PHolds (item : Z)
| PPut (item : Z)
| PNotify
| PDiscard (item : Z) (replaces : bool).

Record Pool := MkPool {
  inner : list Z;
  max_size : Z;
  size : Z;
  ptasks : list ppc;
}.

Definition pool_new (max : Z) (tasks : nat) : Pool := MkPool [] max 0 (replicate tasks PIdle).

Inductive paction :=
| GetOrCreate
| Created (item : Z)
| Drop
| Discard
| Replace
| Go.

Definition pgoto (t : nat) (p : ppc) (s : Pool) : Pool :=
  MkPool (inner s) (max_size s) (size s) (<[t := p]> (ptasks s)).

Definition with_size (d : Z) (s : Pool) : Pool :=
  MkPool (inner s) (max_size s) (wrap64 (size s + d)) (ptasks s).

(** [pool.pop_front()] under the mutex. *)
Definition pop_front (t : nat) (otherwise : ppc) (s : Pool) : Pool :=
  match inner s with
  | item :: rest => MkPool rest (max_size s) (size s) (<[t := PHolds item]> (ptasks s))
  | [] => pgoto t otherwise s
  end.

(** [notify_waiters] wakes who waits, and nobody else. *)
Definition notify_waiters (s : Pool) : Pool :=
  MkPool (inner s) (max_size s) (size s) (map (λ p, if p is PWaiting then PPop else p) (ptasks s)).

Definition pool_next (t : nat) (a : paction) (s : Pool) : option Pool :=
  p ← ptasks s !! t;
  match a, p with
  | GetOrCreate, PIdle => Some (pgoto t PFast s)
  | Created item, PCreate => Some (pgoto t (PHolds item) s)
  | Drop, PHolds item => Some (pgoto t (PPut item) s)
  | Discard, PHolds item => Some (pgoto t (PDiscard item false) s)
  | Replace, PHolds item => Some (pgoto t (PDiscard item true) s)
  | Go, PFast => Some (pop_front t PLoad s)
  | Go, PLoad => Some (pgoto t (if decide (size s < max_size s)%Z then PAdd else PPop) s)
  | Go, PAdd =>
      let prev := size s in
      Some (pgoto t (if decide (max_size s < prev)%Z then PCancel else PCreate) (with_size 1 s))
  | Go, PCancel => Some (pgoto t PPop (with_size (-1) s))
  | Go, PPop => Some (pop_front t PRegister s)
  | Go, PRegister => Some (pgoto t PWaiting s)
  | Go, PPut item => Some (MkPool (inner s ++ [item]) (max_size s) (size s) (<[t := PNotify]> (ptasks s)))
  | Go, PNotify => Some (notify_waiters (pgoto t PIdle s))
  | Go, PDiscard _ replaces => Some (pgoto t (if replaces : bool then PFast else PIdle) (with_size (-1) s))
  | _, _ => None
  end.

Inductive pool_reach (s0 : Pool) : Pool → Prop :=
| PoolStart : pool_reach s0 s0
| PoolStep s t a s' : pool_reach s0 s → pool_next t a s = Some s' → pool_reach s0 s'.

(** The tasks that have an item or create one, and those about to cancel. *)
Definition has_item (p : ppc) : bool :=
  match p with PCreate | PHolds _ | PPut _ | PDiscard _ _ => true | _ => false end.

Definition cancels (p : ppc) : bool := if p is PCancel then true else false.

Definition tasks_that (f : ppc → bool) (ps : list ppc) : Z := sum_Z (map (λ p, if f p then 1%Z else 0%Z) ps).

(** The items there are, idle, in use or being created. *)
Definition items (s : Pool) : Z := (Z.of_nat (length (inner s)) + tasks_that has_item (ptasks s))%Z.

Lemma tasks_that_cons f p ps : tasks_that f (p :: ps) = ((if f p then 1 else 0) + tasks_that f ps)%Z.
Proof. reflexivity. Qed.

Lemma tasks_that_insert f ps t p q : ps !! t = Some p →
  tasks_that f (<[t := q]> ps) = (tasks_that f ps + (if f q then 1 else 0) - (if f p then 1 else 0))%Z.
Proof.
  revert t. induction ps as [|x ps IH]; intros [|t] Ht; try done.
  - injection Ht as ->. change (<[0 := q]> (p :: ps)) with (q :: ps). rewrite !tasks_that_cons. lia.
  - change (<[S t := q]> (x :: ps)) with (x :: <[t := q]> ps). rewrite !tasks_that_cons. rewrite (IH t Ht). lia.
Qed.

Lemma tasks_that_bounds f ps : (0 ≤ tasks_that f ps ≤ Z.of_nat (length ps))%Z.
Proof. induction ps as [|p ps IH]; [done|]. rewrite tasks_that_cons. cbn [length]. destruct (f p); lia. Qed.

Lemma tasks_that_notify f ps :
  f PWaiting = false → f PPop = false →
  tasks_that f (map (λ p, if p is PWaiting then PPop else p) ps) = tasks_that f ps.
Proof.
  intros H1 H2. induction ps as [|p ps IH]; [done|]. rewrite map_cons, !tasks_that_cons, IH.
  destruct p; cbn; rewrite ?H1, ?H2; done.
Qed.

(** The counter counts the items and the increments to be cancelled. *)
Record pool_inv (max : Z) (tasks : nat) (s : Pool) : Prop := {
  pinv_max : max_size s = max;
  pinv_tasks : length (ptasks s) = tasks;
  pinv_size : size s = (items s + tasks_that cancels (ptasks s))%Z;
  pinv_items : (items s ≤ max + 1)%Z;
}.

Lemma pool_inv_step max tasks s t a s' :
  (0 ≤ max)%Z → (max + 1 + Z.of_nat tasks ≤ u64_max)%Z → pool_inv max tasks s → pool_next t a s = Some s' →
  pool_inv max tasks s'.
Proof.
  intros Hmax Hbound [Hm Ht Hs Hi]. unfold pool_next. destruct (ptasks s !! t) as [p|] eqn:Hp; [|done]. cbn.
  assert (Hc := tasks_that_bounds cancels (ptasks s)). assert (Hh := tasks_that_bounds has_item (ptasks s)).
  assert (Hpos : (has_item p = true → 1 ≤ tasks_that has_item (ptasks s))%Z ∧
                 (cancels p = true → 1 ≤ tasks_that cancels (ptasks s))%Z).
  { split; intros Hf; [assert (H := tasks_that_insert has_item _ t p PIdle Hp);
      assert (H' := tasks_that_bounds has_item (<[t := PIdle]> (ptasks s)))
    |assert (H := tasks_that_insert cancels _ t p PIdle Hp);
      assert (H' := tasks_that_bounds cancels (<[t := PIdle]> (ptasks s)))]; rewrite Hf in H; cbn in H; lia. }
  destruct Hpos as [Hph Hpc].
  assert (Hpc' : cancels p = false → (tasks_that cancels (ptasks s) + 1 ≤ Z.of_nat (length (ptasks s)))%Z).
  { intros Hf. assert (H := tasks_that_insert cancels _ t p PCancel Hp).
    assert (H' := tasks_that_bounds cancels (<[t := PCancel]> (ptasks s))).
    rewrite length_insert in H'. rewrite Hf in H. cbn in H. lia. }
  assert (Hw : ∀ d, (0 ≤ size s + d ≤ u64_max)%Z → wrap64 (size s + d) = (size s + d)%Z)
    by (intros d Hd; by apply wrap64_small).
  unfold items in *. intros Hs'.
  destruct a, p; try done; cbn in Hs'; unfold pop_front in Hs'; repeat case_match; simplify_eq;
    try match goal with H : inner s = _ |- _ => apply (f_equal length) in H; cbn [length] in H end;
    (split; cbn [max_size ptasks size inner pgoto with_size notify_waiters];
     unfold items; cbn [max_size ptasks size inner pgoto with_size notify_waiters];
     rewrite ?length_map, ?length_insert, ?tasks_that_notify by done;
     rewrite ?(tasks_that_insert _ _ _ _ _ Hp); cbn [has_item cancels] in *; rewrite ?Hw by lia; try done;
     rewrite ?length_app; cbn [length] in *; try lia).
Qed.

(** However the tasks interleave, the counter is exact, and there is at
    most one item more than the maximum. *)
Theorem pool_bounded max tasks s :
  (0 ≤ max)%Z → (max + 1 + Z.of_nat tasks ≤ u64_max)%Z → pool_reach (pool_new max tasks) s →
  size s = (items s + tasks_that cancels (ptasks s))%Z ∧ (items s ≤ max + 1)%Z.
Proof.
  intros Hmax Hbound Hreach. enough (pool_inv max tasks s) as [] by done.
  induction Hreach as [|s t a s' _ IH Hs]; [|by eapply pool_inv_step].
  assert (H0 : ∀ f, f PIdle = false → tasks_that f (replicate tasks PIdle) = 0%Z).
  { intros f Hf. clear Hbound. induction tasks as [|n IH]; [done|]. cbn [replicate]. by rewrite tasks_that_cons, Hf. }
  split; unfold items; cbn [max_size ptasks size inner pool_new length];
    [done|apply length_replicate|rewrite !H0 by done; lia|rewrite H0 by done; lia].
Qed.

Fixpoint pool_exec (steps : list (nat * paction)) (s : Pool) : option Pool :=
  match steps with
  | [] => Some s
  | (t, a) :: steps => s ← pool_next t a s; pool_exec steps s
  end.

Lemma pool_exec_reach s0 steps s s' : pool_reach s0 s → pool_exec steps s = Some s' → pool_reach s0 s'.
Proof.
  revert s. induction steps as [|[t a] steps IH]; intros s Hs; cbn; [by intros [= <-]|].
  destruct (pool_next t a s) as [s1|] eqn:E; [|done]. cbn. apply IH. by econstructor.
Qed.

(** Two tasks pass the load of [size] together: the second increment is not
    refused. *)
Definition both_create : list (nat * paction) :=
  [(0, GetOrCreate); (1, GetOrCreate); (0, Go); (1, Go); (0, Go); (1, Go); (0, Go); (1, Go);
   (0, Created 10%Z); (1, Created 11%Z)].

Lemma pool_bounded_witness :
  pool_exec both_create (pool_new 1 2) = Some (MkPool [] 1 2 [PHolds 10; PHolds 11]) ∧
  (items (MkPool [] 1 2 [PHolds 10; PHolds 11]) ≤ 1 + 1)%Z.
Proof.
  split; [vm_compute; reflexivity|].
  apply (pool_bounded 1 2 (MkPool [] 1 2 [PHolds 10; PHolds 11])); [decided|decided|].
  apply (pool_exec_reach _ both_create (pool_new 1 2)); [constructor|vm_compute; reflexivity].
Defined.

(** The first item is put back between the second task's look at the list and
    its registration. *)
Definition put_between : list (nat * paction) :=
  [(0, GetOrCreate); (0, Go); (0, Go); (0, Go); (0, Created 10%Z);
   (1, GetOrCreate); (1, Go); (1, Go); (1, Go);
   (0, Drop); (0, Go); (0, Go); (1, Go)].

(** The only item is destroyed while the second task waits for one. *)
Definition discard_then : list (nat * paction) :=
  [(0, GetOrCreate); (0, Go); (0, Go); (0, Go); (0, Created 10%Z);
   (1, GetOrCreate); (1, Go); (1, Go); (1, Go); (1, Go); (0, Discard); (0, Go)].

(** Nobody but a new request can make the task [t] go on. *)
Definition stuck (t : nat) (s : Pool) : Prop :=
  ptasks s !! t = Some PWaiting ∧ ∀ t' p, ptasks s !! t' = Some p → p = PIdle ∨ p = PWaiting.

(** A task may wait although an item is idle, or although the pool may
    create one, with no other task under way that would wake it: the
    notification came before it waited, or a discarded item made room without a
    notification. *)
Theorem pool_waits_for_nothing :
  ∃ s1 s2, pool_reach (pool_new 1 2) s1 ∧ stuck 1 s1 ∧ inner s1 = [10%Z] ∧
    pool_reach (pool_new 1 2) s2 ∧ stuck 1 s2 ∧ (size s2 < max_size s2)%Z.
Proof.
  exists (MkPool [10%Z] 1 1 [PIdle; PWaiting]), (MkPool [] 1 0 [PIdle; PWaiting]). unfold stuck.
  split_and!; try done.
  - apply (pool_exec_reach _ put_between (pool_new 1 2)); [constructor|vm_compute; reflexivity].
  - intros [|[|t]] p; cbn; intros [= <-]; auto.
  - apply (pool_exec_reach _ discard_then (pool_new 1 2)); [constructor|vm_compute; reflexivity].
  - intros [|[|t]] p; cbn; intros [= <-]; auto.
Qed.
