(* ===== verification/LoadGen.v ===== *)
(** The load generator of the applications (apps/app-utils/src/load_gen.rs):
    the validation of its configuration, the choice of the API of a request, the
    error that a response counts as and its counter, and the rows of the trace
    it writes. The generator of random numbers, the clock and the transport are
    not in it. *)
From S2P Require Export Float64 Decimal.
From S2P Require Budget EstModule Predictive Rajomon PaperRajomon.

(** ** The configuration *)

Record GenConfig := MkGenConfig {
  apis : list bytes;
  api_weights : option (list f64);
  slos : list Z;
  timeouts_ms : list Z;
}.

Definition invalid_config (message : string) : result unit bytes := Err (bytes_of_string message).

(** The loop over the weights, with their total. *)
Fixpoint validate_weights (weights : list f64) (total_weight : f64) : result f64 bytes :=
  match weights with
  | [] => Ok total_weight
  | weight :: weights =>
      if negb (f64_is_finite weight) || f64_lt weight f64_zero
      then Err (bytes_of_string "ApiWeights entries must be finite non-negative values")
      else validate_weights weights (f64_add total_weight weight)
  end.

Definition validate (self : GenConfig) : result unit bytes :=
  if decide (apis self = []) then invalid_config "Apis must not be empty"
  else if decide (length (apis self) ≠ length (timeouts_ms self))
  then invalid_config "Timeouts_ms length must match Apis length"
  else if decide (length (apis self) ≠ length (slos self))
  then invalid_config "Slos length must match Apis length"
  else match api_weights self with
       | None => Ok tt
       | Some weights =>
           if decide (length weights ≠ length (apis self))
           then invalid_config "ApiWeights length must match Apis length"
           else match validate_weights weights f64_zero with
                | Err e => Err e
                | Ok total_weight =>
                    if f64_le total_weight f64_zero
                    then invalid_config "ApiWeights must contain at least one positive value"
                    else Ok tt
                end
       end.

Definition weights_of (self : GenConfig) : list f64 :=
  default (replicate (length (apis self)) f64_one) (api_weights self).

Fixpoint cumulate (total_weight cumulative : f64) (weights : list f64) : list f64 :=
  match weights with
  | [] => []
  | weight :: weights =>
      let cumulative := f64_add cumulative (f64_div weight total_weight) in
      cumulative :: cumulate total_weight cumulative weights
  end.

(** [if let Some(last) = cdf.last_mut() { *last = 1.0; }]. *)
Fixpoint set_last (x : f64) (l : list f64) : list f64 :=
  match l with [] => [] | [_] => [x] | y :: l => y :: set_last x l end.

Definition api_weight_cdf (self : GenConfig) : list f64 :=
  let weights := weights_of self in
  let total_weight := foldl f64_add f64_zero weights in
  set_last f64_one (cumulate total_weight f64_zero weights).

(** [iter().position(|cutoff| draw < *cutoff)]. *)
Fixpoint position_above (draw : f64) (cdf : list f64) : option nat :=
  match cdf with
  | [] => None
  | cutoff :: cdf => if f64_lt draw cutoff then Some 0 else S <$> position_above draw cdf
  end.

(** [draw] is the generator's next number in [0, 1). *)
Definition sample_api_handler (cdf : list f64) (draw : f64) : nat :=
  default (length cdf - 1) (position_above draw cdf).

(** The handlers that [load_gen_main] makes: [zip] stops at the shortest list. *)
Definition api_handlers (self : GenConfig) : list (bytes * (Z * Z)) :=
  zip (apis self) (zip (timeouts_ms self) (slos self)).

Definition demo_config (weights : list f64) : GenConfig :=
  MkGenConfig (map bytes_of_string ["a"; "b"; "c"]) (Some weights) [1; 1; 1]%Z [1; 1; 1]%Z.

Example cdf_of_three :
  api_weight_cdf (demo_config [f64_of_Z 1; f64_zero; f64_of_Z 3]) = [f64_lit 1 4; f64_lit 1 4; f64_one].
Proof. vm_compute. reflexivity. Qed.

(** Two weights whose sum is infinite are accepted; only the last API is chosen. *)
Example infinite_total_accepted :
  let huge := binary_normalize prec emax 1 1023 false in
  let config := demo_config [huge; huge; f64_one] in
  validate config = Ok tt ∧ api_weight_cdf config = [f64_zero; f64_zero; f64_one] ∧
  sample_api_handler (api_weight_cdf config) f64_zero = 2.
Proof. vm_compute. done. Qed.

(** ** Sampling *)

Definition is_zero (x : f64) : bool := if x is S754_zero _ then true else false.

(** What is divided by any total, and added to any sum, moves no comparison. *)
Lemma zero_share x total cumulative draw :
  is_zero x = true → f64_lt draw (f64_add cumulative (f64_div x total)) = true → f64_lt draw cumulative = true.
Proof.
  destruct x as [s| | |]; try done. intros _.
  assert (Hd : f64_div (S754_zero s) total = S754_nan ∨ ∃ s', f64_div (S754_zero s) total = S754_zero s').
  { destruct total as [s'|s'| |s' m e]; cbn; [by left|right; by eexists|by left|right; by eexists]. }
  destruct Hd as [->|[s' ->]].
  - unfold f64_add. destruct cumulative as [s1|s1| |s1 m e]; cbn; by destruct draw as [|[]| |[]].
  - unfold f64_add. destruct cumulative as [s1|s1| |s1 m e]; cbn; try done.
    destruct s1, s'; by destruct draw as [|[]| |[]].
Qed.

Lemma cumulate_length total c weights : length (cumulate total c weights) = length weights.
Proof. revert c. induction weights as [|w weights IH]; intros c; cbn; [done|]. by rewrite IH. Qed.

Lemma set_last_length x l : length (set_last x l) = length l.
Proof. induction l as [|y [|z l] IH]; [done..|]. cbn in *. by rewrite IH. Qed.

Lemma set_last_lookup x l i : S i < length l → set_last x l !! i = l !! i.
Proof.
  revert i. induction l as [|y [|z l] IH]; intros i Hi; cbn in Hi; [lia..|].
  change (set_last x (y :: z :: l)) with (y :: set_last x (z :: l)). destruct i as [|i]; [done|].
  apply (IH i). cbn. lia.
Qed.

Lemma position_above_Some draw cdf i : position_above draw cdf = Some i →
  (∃ c, cdf !! i = Some c ∧ f64_lt draw c = true) ∧ ∀ j c, j < i → cdf !! j = Some c → f64_lt draw c = false.
Proof.
  revert i. induction cdf as [|c cdf IH]; intros i; cbn; [done|].
  destruct (f64_lt draw c) eqn:E.
  - intros [= <-]. split; [by exists c|]. intros j ?. lia.
  - destruct (position_above draw cdf) as [k|]; [|done]. cbn. intros [= <-].
    destruct (IH k eq_refl) as [H1 H2]. split; [done|]. intros [|j] c' Hj; cbn; [by intros [= <-]|]. apply H2. lia.
Qed.

(** The sum before the weight [i]. *)
Lemma cumulate_lookup total c weights i w :
  weights !! i = Some w →
  ∃ before, cumulate total c weights !! i = Some (f64_add before (f64_div w total)) ∧
    (before = c ∧ i = 0 ∨ ∃ j, i = S j ∧ cumulate total c weights !! j = Some before).
Proof.
  revert c i. induction weights as [|w' weights IH]; intros c [|i] Hw; try done; cbn in Hw |- *.
  - injection Hw as ->. exists c. auto.
  - destruct (IH (f64_add c (f64_div w' total)) i Hw) as (before & Hb & [[-> ->]|(j & -> & Hj)]).
    + exists (f64_add c (f64_div w' total)). split; [done|]. right. by exists 0.
    + exists before. split; [done|]. right. by exists (S j).
Qed.

(** With a valid configuration every draw chooses an API that has a
    handler, and only the last one may be chosen although its weight is zero. *)
Theorem api_sampled config draw :
  validate config = Ok tt → f64_lt draw f64_zero = false →
  let i := sample_api_handler (api_weight_cdf config) draw in
  is_Some (api_handlers config !! i) ∧
  (S i < length (apis config) → ∃ w, weights_of config !! i = Some w ∧ is_zero w = false).
Proof.
  intros Hvalid Hdraw i. unfold validate in Hvalid.
  case_decide as Hne; [done|]. case_decide as Ht; [done|]. case_decide as Hs; [done|].
  assert (Hw : length (weights_of config) = length (apis config)).
  { unfold weights_of. destruct (api_weights config) as [ws|]; cbn; [|apply length_replicate].
    by case_decide as Hws. }
  clear Hvalid. assert (Hlen : length (api_weight_cdf config) = length (apis config)).
  { unfold api_weight_cdf. by rewrite set_last_length, cumulate_length. }
  assert (Hpos : 0 < length (apis config)) by (destruct (apis config); [done|cbn; lia]).
  assert (Hi : i < length (apis config)).
  { unfold i, sample_api_handler. destruct (position_above _ _) as [k|] eqn:E; cbn; [|lia].
    destruct (position_above_Some _ _ _ E) as [(c & Hc & _) _]. apply lookup_lt_Some in Hc. lia. }
  split.
  { apply lookup_lt_is_Some_2. unfold api_handlers. rewrite !length_zip. lia. }
  intros Hlast. destruct (lookup_lt_is_Some_2 (weights_of config) i) as [w Hwi]; [lia|]. exists w. split; [done|].
  destruct (is_zero w) eqn:Hz; [|done]. exfalso.
  unfold i, sample_api_handler in Hlast, Hwi. destruct (position_above _ _) as [k|] eqn:E; cbn in Hlast, Hwi; [|lia].
  destruct (position_above_Some _ _ _ E) as [(c & Hc & Hlt) Hbefore]. unfold api_weight_cdf in Hc, Hbefore.
  rewrite set_last_lookup in Hc by (rewrite cumulate_length; lia).
  destruct (cumulate_lookup (foldl f64_add f64_zero (weights_of config)) f64_zero _ _ _ Hwi) as (before & Hk & Hor).
  rewrite Hk in Hc. injection Hc as <-. apply (zero_share _ _ _ _ Hz) in Hlt.
  destruct Hor as [[-> ->]|(j & -> & Hj)]; [congruence|].
  rewrite (Hbefore j before) in Hlt; [done|lia|]. rewrite set_last_lookup; [done|]. rewrite cumulate_length. lia.
Qed.

Lemma api_sampled_witness :
  validate (demo_config [f64_of_Z 1; f64_zero; f64_of_Z 3]) = Ok tt ∧
  is_Some (api_handlers (demo_config [f64_of_Z 1; f64_zero; f64_of_Z 3]) !!
    sample_api_handler (api_weight_cdf (demo_config [f64_of_Z 1; f64_zero; f64_of_Z 3])) (f64_lit 1 4)).
Proof.
  split; [vm_compute; reflexivity|].
  apply (api_sampled (demo_config [f64_of_Z 1; f64_zero; f64_of_Z 3]) (f64_lit 1 4)); vm_compute; reflexivity.
Defined.

(** ** Responses and counters *)

(** What a request ends with: a response or a status, whose message is all that
    is used, or the timeout. *)
Definition map_response {R} (response : result (result R bytes) unit) (met_slo : bool) : option R * bytes :=
  let error :=
    match response with
    | Ok (Err message) => message
    | Ok (Ok _) => bytes_of_string (if met_slo then "/None" else "/ClientMiss")
    | Err _ => bytes_of_string "/ClientTimeout"
    end in
  (match response with Ok (Ok r) => Some r | _ => None end, error).

Definition DEFAULT_COUNTER_KEYS : list bytes :=
  map bytes_of_string ["all"; "good"; "early_return"; "deadline_miss"; "timeout"; "unexpected"; "client_shed"].

Notation Counters := (gmap bytes Z).

Definition counters_new (keys : list bytes) : Counters := foldl (λ map k, <[k := 0%Z]> map) ∅ keys.

Definition increment (k : bytes) (self : Counters) : outcome Counters :=
  v ← expect_some (self !! k); Ret (<[k := wrap64 (v + 1)]> self).

(** The counter of the error of a traced request. *)
Definition counter_of (err_str : bytes) : bytes :=
  bytes_of_string
    (if decide (err_str = bytes_of_string "/None") then "good"
     else if decide (err_str = bytes_of_string "/ClientMiss") then "deadline_miss"
     else if decide (is_Some (strip_prefix (bytes_of_string "/EarlyReturn") err_str)) then "early_return"
     else if decide (err_str = bytes_of_string "/ClientTimeout") then "timeout"
     else "unexpected").

(** The task of a request: what [send_request] returned, and whether the warm-up
    was over when it started. *)
Definition request_task (trace : bool) (error : bytes) (ctrs : Counters) : outcome Counters :=
  ctrs ← increment (bytes_of_string "all") ctrs;
  if trace then increment (counter_of error) ctrs else Ret ctrs.

Definition request_tasks (l : list (bool * bytes)) (ctrs : Counters) : outcome Counters :=
  foldl (λ m '(trace, error), c ← m; request_task trace error c) (Ret ctrs) l.

Definition count_get (k : string) (c : Counters) : Z := default 0%Z (c !! bytes_of_string k).

(** The keys there are, with values that have not wrapped. *)
Definition counts (n : Z) (c : Counters) : Prop :=
  ∀ k, k ∈ DEFAULT_COUNTER_KEYS → ∃ v, c !! k = Some v ∧ (0 ≤ v ≤ n)%Z.

Lemma increment_counts n k c : counts n c → (n < u64_max)%Z → k ∈ DEFAULT_COUNTER_KEYS →
  ∃ v, c !! k = Some v ∧ increment k c = Ret (<[k := (v + 1)%Z]> c) ∧ counts (n + 1) (<[k := (v + 1)%Z]> c).
Proof.
  intros Hc Hn Hk. destruct (Hc k Hk) as (v & Hv & Hb). exists v. unfold increment. rewrite Hv. cbn.
  rewrite wrap64_small by ulia. split_and!; [done|done|]. intros k' Hk'.
  destruct (decide (k = k')) as [<-|Hne]; [rewrite lookup_insert_eq; eexists; split; [done|lia]|].
  rewrite lookup_insert_ne by done. destruct (Hc k' Hk') as (v' & Hv' & Hb'). exists v'. split; [done|lia].
Qed.

Lemma counter_key err : counter_of err ∈ DEFAULT_COUNTER_KEYS ∧ counter_of err ≠ bytes_of_string "all".
Proof. unfold counter_of. repeat case_decide; split; decided || (vm_compute; discriminate). Qed.

(** The five outcomes of a traced request. *)
Definition outcomes_total (c : Counters) : Z :=
  (count_get "good" c + count_get "early_return" c + count_get "deadline_miss" c + count_get "timeout" c
   + count_get "unexpected" c)%Z.

Lemma outcomes_increment n err c v : counts n c → c !! counter_of err = Some v →
  outcomes_total (<[counter_of err := (v + 1)%Z]> c) = (outcomes_total c + 1)%Z.
Proof.
  intros Hc Hv. unfold outcomes_total, count_get. revert Hv. unfold counter_of.
  repeat case_decide; intros Hv; rewrite lookup_insert_eq, !lookup_insert_ne by (vm_compute; discriminate); rewrite Hv; cbn; lia.
Qed.

Lemma all_increment err c v : count_get "all" (<[counter_of err := v]> c) = count_get "all" c.
Proof. unfold count_get. rewrite lookup_insert_ne; [done|]. apply counter_key. Qed.

Lemma request_task_counts n trace err c :
  counts n c → (n + 1 < u64_max)%Z →
  ∃ c', request_task trace err c = Ret c' ∧ counts (n + 2) c' ∧ count_get "all" c' = (count_get "all" c + 1)%Z ∧
    outcomes_total c' = (outcomes_total c + if trace then 1 else 0)%Z.
Proof.
  intros Hc Hn. destruct (increment_counts n (bytes_of_string "all") c Hc) as (v & Hv & Hi & Hc1); [lia|decided|].
  unfold request_task. rewrite Hi. cbn. set (c1 := <[_ := _]> c) in *.
  assert (Hall : count_get "all" c1 = (count_get "all" c + 1)%Z).
  { unfold count_get, c1. by rewrite lookup_insert_eq, Hv. }
  assert (Hout : outcomes_total c1 = outcomes_total c).
  { unfold outcomes_total, count_get, c1. by rewrite !lookup_insert_ne by (vm_compute; discriminate). }
  destruct trace.
  - destruct (counter_key err) as [Hk _].
    destruct (increment_counts (n + 1) (counter_of err) c1 Hc1) as (v' & Hv' & Hi' & Hc2); [lia|done|].
    exists (<[counter_of err := (v' + 1)%Z]> c1). rewrite Hi', all_increment, (outcomes_increment _ _ _ _ Hc1 Hv').
    replace (n + 2)%Z with (n + 1 + 1)%Z by lia. split_and!; [done|done|done|lia].
  - exists c1. split_and!; [done| |done|lia]. intros k Hk. destruct (Hc1 k Hk) as (x & Hx & ?). exists x. split; [done|lia].
Qed.

(** Every request is counted, and every traced request as exactly one of
    the five outcomes, in whatever order they end. *)
Theorem requests_accounted l :
  (2 * Z.of_nat (length l) < u64_max)%Z →
  ∃ c, request_tasks l (counters_new DEFAULT_COUNTER_KEYS) = Ret c ∧
    count_get "all" c = Z.of_nat (length l) ∧
    outcomes_total c = Z.of_nat (length (filter (λ te, te.1 = true) l)).
Proof.
  intros Hl. enough (∃ c, request_tasks l (counters_new DEFAULT_COUNTER_KEYS) = Ret c ∧
    counts (2 * Z.of_nat (length l)) c ∧ count_get "all" c = Z.of_nat (length l) ∧
    outcomes_total c = Z.of_nat (length (filter (λ te, te.1 = true) l))) as (c & ? & _ & ? & ?) by by exists c.
  induction l as [|[trace err] l IH] using rev_ind.
  { exists (counters_new DEFAULT_COUNTER_KEYS). split_and!; [done| |done|done]. intros k Hk. exists 0%Z.
    repeat (apply elem_of_cons in Hk as [->|Hk]; [split; [reflexivity|done]|]). by apply not_elem_of_nil in Hk. }
  rewrite length_app in Hl |- *. cbn [length] in Hl |- *. destruct IH as (c & Hc & Hcount & Hall & Hout); [lia|].
  unfold request_tasks in *. rewrite foldl_snoc, Hc.
  destruct (request_task_counts (2 * Z.of_nat (length l)) trace err c Hcount) as (c' & Ht & Hc' & Hall' & Hout'); [lia|].
  exists c'. split; [exact Ht|]. split; [by replace (2 * Z.of_nat (length l + 1))%Z with (2 * Z.of_nat (length l) + 2)%Z by lia|].
  split; [lia|]. rewrite Hout', Hout, filter_app, length_app, filter_cons, filter_nil.
  destruct trace; [rewrite decide_True by done|rewrite decide_False by done]; cbn [length]; lia.
Qed.

Lemma requests_accounted_witness :
  ∃ c, request_tasks [(true, bytes_of_string "/None"); (false, bytes_of_string "x"); (true, bytes_of_string "/EarlyReturn?src=a::m")]
      (counters_new DEFAULT_COUNTER_KEYS) = Ret c ∧ count_get "all" c = 3%Z ∧ outcomes_total c = 2%Z.
Proof.
  exact (requests_accounted [(true, bytes_of_string "/None"); (false, bytes_of_string "x");
    (true, bytes_of_string "/EarlyReturn?src=a::m")] ltac:(decided)).
Defined.

(** ** The library's rejections *)

Lemma early_return_prefix m : counter_of (bytes_of_string "/EarlyReturn" ++ m) = bytes_of_string "early_return".
Proof.
  unfold counter_of. rewrite !decide_False by (vm_compute; discriminate).
  by rewrite decide_True by (rewrite strip_prefix_app; by eexists).
Qed.

(** C37: the load generator counts the rejections of the deadline guard, the
    estimation module, the predictive admission and Rajomon as early returns,
    whatever the methods; those of the paper's Rajomon as unexpected errors. *)
Theorem rejections_counted guard est pred child raj child' reason method tokens queue server :
  let early := bytes_of_string "early_return" in
  counter_of (Budget.guard_error (λ m, m) guard) = early ∧
  counter_of (EstModule.local_deadline_exceeded (λ m, m) est) = early ∧
  counter_of (Predictive.pred_rejection (λ m, m) pred) = early ∧
  counter_of (Predictive.bcf_error (λ m, m) pred child) = early ∧
  counter_of (Rajomon.issue_error (λ m, m) raj child' reason) = early ∧
  ∃ message, (PaperRajomon.paper_before_poll (Response:=unit) (λ m, m)
      (PaperRajomon.MkPaper (Status:=bytes) method (Ok tokens) false) queue server).2 = Err (Err message) ∧
    counter_of message = bytes_of_string "unexpected".
Proof.
  intros early. unfold Budget.guard_error, EstModule.local_deadline_exceeded, Predictive.pred_rejection,
    Predictive.bcf_error, Rajomon.issue_error.
  change (bytes_of_string "/EarlyReturn?src=") with (bytes_of_string "/EarlyReturn" ++ bytes_of_string "?src=").
  rewrite <-?app_assoc. split_and!; try (apply early_return_prefix).
  - destruct (Budget.last_child guard); rewrite <-?app_assoc; apply early_return_prefix.
  - destruct child'; rewrite <-?app_assoc; apply early_return_prefix.
  - eexists. split; [reflexivity|]. vm_compute. reflexivity.
Qed.

(** ** The rows of a trace *)

Definition DOUBLE_QUOTE : Z := 34.
Definition CSV_COMMA : Z := 44.
Definition NEWLINE : Z := 10.

Record TraceRecord := MkTrace {
  api : bytes;
  request_id : Z;
  slo_us : Z;
  start_at : Z;
  deadline : Z;
  latency : Z;
  error : bytes;
  q_lat_init : Z;
  q_lat_resume : Z;
  queue_lengths : bytes;
  additional_metrics : list bytes;
}.

Definition special (b : Z) : Prop := b = CSV_COMMA ∨ b = DOUBLE_QUOTE ∨ b = NEWLINE.

#[export] Instance special_dec b : Decision (special b).
Proof. unfold special. apply _. Defined.

(** [field.replace] of a quote by two. *)
Definition double_quotes (field : bytes) : bytes :=
  mjoin (map (λ b, if decide (b = DOUBLE_QUOTE) then [b; b] else [b]) field).

Definition escape_csv_field (field : bytes) : bytes :=
  if decide (Exists special field) then DOUBLE_QUOTE :: double_quotes field ++ [DOUBLE_QUOTE] else field.

Definition row_metrics (self : TraceRecord) (expected : nat) : bytes :=
  mjoin (map (λ index, CSV_COMMA :: match additional_metrics self !! index with
                                    | Some metric => escape_csv_field metric
                                    | None => []
                                    end) (seq 0 expected)).

Definition to_csv_row (self : TraceRecord) (expected_additional_metrics : nat) : outcome bytes :=
  let generic := join CSV_COMMA
    [api self; to_string (request_id self); to_string (slo_us self); to_string (start_at self);
     to_string (deadline self); to_string (latency self); escape_csv_field (error self);
     to_string (q_lat_init self); to_string (q_lat_resume self); escape_csv_field (queue_lengths self)] in
  if decide (length (additional_metrics self) ≤ expected_additional_metrics) then
    Ret (generic ++ row_metrics self expected_additional_metrics)
  else Panic.

(** A reader of one record of RFC 4180: a field is plain, or quoted with its
    quotes doubled. *)
Inductive csv_mode := AtStart | Plain | Quoted | QuoteSeen.

Fixpoint csv_read (m : csv_mode) (field s : bytes) : option (list bytes) :=
  match s with
  | [] => match m with Quoted => None | _ => Some [field] end
  | b :: s =>
      match m with
      | AtStart =>
          if decide (b = DOUBLE_QUOTE) then csv_read Quoted [] s
          else if decide (b = CSV_COMMA) then cons [] <$> csv_read AtStart [] s
          else csv_read Plain [b] s
      | Plain =>
          if decide (b = CSV_COMMA) then cons field <$> csv_read AtStart [] s
          else if decide (b = DOUBLE_QUOTE) then None
          else csv_read Plain (field ++ [b]) s
      | Quoted =>
          if decide (b = DOUBLE_QUOTE) then csv_read QuoteSeen field s else csv_read Quoted (field ++ [b]) s
      | QuoteSeen =>
          if decide (b = DOUBLE_QUOTE) then csv_read Quoted (field ++ [b]) s
          else if decide (b = CSV_COMMA) then cons field <$> csv_read AtStart [] s
          else None
      end
  end.

Definition read_row (s : bytes) : option (list bytes) := csv_read AtStart [] s.

(** The end of a field: nothing, or a comma and more. *)
Definition rest_of (more : option bytes) : bytes := match more with None => [] | Some s => CSV_COMMA :: s end.
Definition read_more (field : bytes) (more : option bytes) : option (list bytes) :=
  match more with None => Some [field] | Some s => cons field <$> read_row s end.

Lemma read_plain field f more : ¬ Exists special f →
  csv_read Plain field (f ++ rest_of more) = read_more (field ++ f) more.
Proof.
  revert field. induction f as [|b f IH]; intros field Hf.
  - rewrite app_nil_r. by destruct more.
  - cbn. rewrite decide_False by (intros ->; apply Hf; left; by left).
    rewrite decide_False by (intros ->; apply Hf; left; right; by left).
    rewrite IH by (intros ?; apply Hf; by right). by rewrite <-app_assoc.
Qed.

Lemma read_quoted field f more :
  csv_read Quoted field (double_quotes f ++ DOUBLE_QUOTE :: rest_of more) = read_more (field ++ f) more.
Proof.
  revert field. induction f as [|b f IH]; intros field.
  - cbn. rewrite app_nil_r. by destruct more.
  - unfold double_quotes. cbn. fold (double_quotes f). destruct (decide (b = DOUBLE_QUOTE)) as [->|Hb]; cbn.
    + by rewrite !decide_True, IH, <-app_assoc by done.
    + by rewrite decide_False, IH, <-app_assoc by done.
Qed.

(** A field is read as it was before it was escaped. *)
Lemma read_escaped f more : csv_read AtStart [] (escape_csv_field f ++ rest_of more) = read_more f more.
Proof.
  unfold escape_csv_field. case_decide as Hf.
  - cbn. rewrite <-app_assoc. cbn. apply (read_quoted [] f more).
  - destruct f as [|b f]; cbn.
    + by destruct more.
    + rewrite decide_False by (intros ->; apply Hf; left; right; by left).
      rewrite decide_False by (intros ->; apply Hf; left; by left).
      apply (read_plain [b] f more). intros ?. apply Hf. by right.
Qed.

(** Fields without a special character are not escaped. *)
Lemma escape_plain f : ¬ Exists special f → escape_csv_field f = f.
Proof. intros Hf. unfold escape_csv_field. by rewrite decide_False. Qed.

Lemma read_fields f fs :
  read_row (join CSV_COMMA (map escape_csv_field (f :: fs))) = Some (f :: fs).
Proof.
  revert f. induction fs as [|g fs IH]; intros f.
  - assert (H := read_escaped f None). cbn [rest_of] in H. rewrite app_nil_r in H. exact H.
  - assert (H := read_escaped f (Some (join CSV_COMMA (map escape_csv_field (g :: fs))))).
    cbn [rest_of read_more] in H. rewrite IH in H. exact H.
Qed.

Lemma digits_plain n : (0 ≤ n)%Z → ¬ Exists special (to_string n).
Proof.
  intros Hn Hex. destruct (to_string_digits n Hn) as [Hd _]. apply Exists_exists in Hex as (b & Hb & Hs).
  rewrite Forall_forall in Hd. specialize (Hd b Hb).
  unfold digit, special, CSV_COMMA, DOUBLE_QUOTE, NEWLINE in *. lia.
Qed.

(** The fields of a row. *)
Definition row_fields (self : TraceRecord) (expected : nat) : list bytes :=
  [api self; to_string (request_id self); to_string (slo_us self); to_string (start_at self);
   to_string (deadline self); to_string (latency self); error self;
   to_string (q_lat_init self); to_string (q_lat_resume self); queue_lengths self]
  ++ map (λ index, default [] (additional_metrics self !! index)) (seq 0 expected).

Lemma join_more c l k : l ≠ [] → join c (l ++ k) = join c l ++ mjoin (map (λ p, c :: p) k).
Proof.
  intros Hl. revert l Hl. induction k as [|p k IH]; intros l Hl; cbn; [by rewrite !app_nil_r|].
  rewrite (app_assoc l [p] k : l ++ p :: k = _), IH by by destruct l.
  rewrite join_app by done. cbn. by rewrite <-app_assoc.
Qed.

Lemma row_metrics_fields self expected :
  row_metrics self expected = mjoin (map (λ p, CSV_COMMA :: p) (map escape_csv_field
    (map (λ index, default [] (additional_metrics self !! index)) (seq 0 expected)))).
Proof. unfold row_metrics. rewrite !map_map. f_equal. apply map_ext. intros i. by destruct (_ !! i). Qed.

(** A row of a trace is read back field by field, whatever the error and
    the metrics contain, with an empty field for each metric that is missing;
    rows have as many fields as the header. *)
Theorem csv_row_round_trip self expected :
  ¬ Exists special (api self) → length (additional_metrics self) ≤ expected →
  Forall (λ n, 0 ≤ n)%Z [request_id self; slo_us self; start_at self; deadline self; latency self;
                         q_lat_init self; q_lat_resume self] →
  ∃ row, to_csv_row self expected = Ret row ∧ read_row row = Some (row_fields self expected) ∧
    length (row_fields self expected) = 10 + expected.
Proof.
  intros Hapi Hlen Hn. rewrite !Forall_cons in Hn. destruct Hn as (H1 & H2 & H3 & H4 & H5 & H6 & H7 & _).
  unfold to_csv_row. rewrite decide_True by done. eexists. split; [reflexivity|]. split.
  - unfold row_fields. cbn [app]. rewrite <-read_fields. f_equal. rewrite map_cons.
    cbn [map]. rewrite !(escape_plain (to_string _)) by by apply digits_plain. rewrite (escape_plain (api self)) by done.
    rewrite row_metrics_fields, <-join_more by done. cbn [app]. reflexivity.
  - unfold row_fields. rewrite length_app, length_map, length_seq. reflexivity.
Qed.

Lemma csv_row_round_trip_witness :
  let r := MkTrace (bytes_of_string "Search") 42 200000 1000000 1200000 5000 (bytes_of_string "a,b") 0 0 []
             [bytes_of_string "m"] in
  ∃ row, to_csv_row r 2 = Ret row ∧ read_row row = Some (row_fields r 2) ∧ length (row_fields r 2) = 10 + 2.
Proof. intros r. apply (csv_row_round_trip r 2); [decided|decided|decided]. Defined.

(** The name of the API is not escaped: a comma in it shifts the columns. *)
Example comma_in_api_shifts :
  let r := MkTrace (bytes_of_string "a,b") 1 1 1 1 1 [] 0 0 [] [] in
  ∃ row fields, to_csv_row r 0 = Ret row ∧ read_row row = Some fields ∧ length fields = 11.
Proof. eexists _, _. split; [vm_compute; reflexivity|]. split; vm_compute; reflexivity. Qed.
